(* ===== verification/_CoqProject ===== *)
-Q . S2P
Prelude.v
GoString.v
Float.v
Calendar.v
Refine.v
Audio.v
Quota.v
Cache.v
Degrade.v
RateLimit.v
RateBucket.v
Pool.v
Dispatch.v
ReserveEnd.v
Jobs.v
JobStore.v
JobRows.v
JobWire.v
Orchestrator.v
JobRun.v
JobRecover.v
JobQueue.v
JobStuck.v
JobEnd.v
JobService.v
Account.v
PlanLimits.v
Voices.v
Usage.v
Report.v
Maintenance.v
Synth.v
Billing.v
Webhook.v
Engine.v
EngineRun.v
Problem.v
Http.v
Gateway.v
Endpoints.v
Websocket.v
Resources.v
Config.v
Server.v
Metrics.v
Command.v
