(* ===== verification/Prelude.v ===== *)
(** * The ViTTS gateway, a verification development

    ViTTS is a multi-tenant text-to-speech service. Its gateway, the Go program
    under [src/gateway], authenticates a tenant's request, checks its rate, its
    concurrency and its monthly allowance, looks for the audio in a shared cache,
    reserves a worker's slot, relays the worker's audio, and meters what it served;
    long texts are jobs that a crash-tolerant orchestrator splits, synthesizes and
    merges. This library models the gateway in Gallina, translated from the source
    function by function, and proves what makes its parts correct, alone and
    together.

    ** How the program is modelled

    - Errors are values: [res A] is [Ok] or [Err], a [gerr] keeps the sentinels and
      the wrapping chain that [errors.Is] and [errors.As] look at.
    - A component with a state of its own (tables, a bucket, Redis keys) is a record
      and its operations are [ST W A]: a world in, an answer and a world out. Each
      statement, script or object call is one atomic step of the server it runs
      on. Each call goes through [port], which may refuse it or lose its answer
      after it took effect, as the world's list of faults says: a theorem about
      an arbitrary world covers every pattern of failures, one with no faults
      says what the code computes. [transaction] undoes its writes on an error.
    - A component that decides nothing about its ports' states (the synthesis use
      case, the webhook sender, the middleware) is a [Prog]: each call is an event
      and its answer an arbitrary function of the calls before it.
    - What runs concurrently is a step relation whose steps are the critical
      sections or channel operations: the dispatcher ([Dispatch]), the leases
      ([RateLimit]), the meter ([Usage]), the jobs' consumers ([Orchestrator]), a
      WebSocket session ([Websocket]), the fleet of schedulers ([Maintenance]).
    - Integers keep their width where the code could overflow ([int32], [int64]);
      instants and durations are nanoseconds, also where Postgres would round to
      microseconds; floats are [SpecFloat]'s doubles; a Go string is bytes.
    - Libraries are parameters: SHA-256, the JSON decoders, the URL, UUID and
      address parsers, the resolver, the clock, random bytes, new UUIDs.

    ** The files

    Foundations: [Prelude] (errors, monads, faults, lists, tactics), [GoString]
    (UTF-8, [strings], [strconv]), [Float] ([float64] rounding), [Calendar]
    ([time]'s UTC dates and layouts), [Refine] (simulation between stores).

    Admission. [Account]: [internal/auth], [tenants], [plans] and their tables;
    [PlanLimits]: [planrepo.go]'s readers; [Degrade]: [internal/degrade];
    [RateLimit]: [internal/ratelimit], its Lua scripts and [synth/leaseport.go];
    [RateBucket]: what its token bucket lets through;
    [Quota]: [internal/quota] over [redis/counter.go]; [Pool], [Dispatch],
    [ReserveEnd]: [internal/dispatch] (the workers' states, the priority queue,
    the end of every reservation).

    Synthesis. [Audio]: [internal/audio]; [Voices]: [internal/voices]; [Cache]:
    [internal/cache] over its three stores; [Synth]: [internal/synth], the
    synchronous and the streaming use case.

    Accounting. [Usage]: [usage/meter.go] and its tables; [Report]:
    [usage/report.go]; [Maintenance]: [internal/maintenance] and [redis/lock.go];
    [Billing]: the way of a billed character through [Synth], [Usage] and [Quota].

    Jobs. [Jobs]: [jobs/jobs.go]; [JobStore]: [jobrepo.go], [jobtexts.go],
    [jobqueue.go] on jobs, segments and entries, which [JobRows] (with
    [db/jobs.sql.go]) and [JobWire] refine to rows and messages; [JobService]: [jobs/service.go]; [Orchestrator]:
    [jobs/orchestrator.go] over an interface [Ports]; [Engine]: [jobs/engine.go],
    the gateway's instance of it; [JobRun]: a job that is answered, from where it
    was left to its end; [JobRecover]: what failing calls can leave of a job;
    [JobQueue]: that the streams and the reconciler reach every live job;
    [JobStuck]: a job whose consumer died; [JobEnd]: a job to its end beside the
    others; [EngineRun]: the engine discharges what [JobRun], [JobRecover] and
    [JobEnd] ask of one; [Webhook]: [jobs/webhook_guard.go] and
    [internal/webhook].

    The edge. [Problem]: [http/problem.go] and the error maps; [Http]: the
    middleware chain and the operator's guard; [Gateway]: that chain over the
    account tables, the plan cache, the limiter and the degrade window, in a fleet
    of gateways; [Endpoints]: [synthesize.go] and
    [stream.go]; [Websocket]: [websocket.go]; [Resources]: jobs, keys, voices,
    usage and admin handlers; [Config]: [internal/config]; [Server]:
    [run] of [cmd/gateway/main.go], readiness, CORS and access lines; [Metrics]:
    [telemetry/metrics.go] and every place that records; [Command]: the binary's
    other commands.

    ** What the theorems show

    - Requests. Who reaches a handler ([Http.guard_chain],
      [Account.authenticate_exact]), what each request is answered
      ([Endpoints.synthesize_endpoint], [Resources.jobs_not_disclosed]), that every
      request leaves one access line ([Server.edge_records]), and in which order
      the server comes up and goes down ([Server.boot_order]).
    - Money. A request is charged at most once, for what it was given, and slots
      and leases are returned ([Synth.synthesize_accounting],
      [Synth.stream_accounting]); what is charged is what the log will say, and
      reconciliation computes the counter from it ([Billing]); the meter loses
      nothing it does not count as dropped ([Usage.metering_exact]); rollups,
      reports and CSV are exact ([Usage.rollup_exact], [Report]).
    - Capacity. The dispatcher's counters, its stream reserve and the end of every
      reservation ([Dispatch], [ReserveEnd]); the concurrency limit under any
      interleaving of gateways ([RateLimit.lease_limit]); the request limit, exact
      for a bucket ([RateBucket.bucket_burst]) and for a key whose requests reach
      any gateways among other keys' ([Gateway.fleet_burst]), and how long an
      outage of the limiter is overlooked ([Gateway.outage_window]); the circuit
      breaker ([Pool.circuit]); the quota's grace ([Quota.check_grace]).
    - Jobs. Every execution moves a job forward only ([Orchestrator.job_lifecycle]),
      completes it when its calls are answered ([JobRun.job_completes]), and after
      any failures completes it once they are ([JobRecover.job_recovers]), but for
      the one case in which it is stuck ([JobStuck]); a job that rests is handed to
      its handler again ([JobQueue.job_attended]) and, with no segment left
      running, completes within a bounded number of the consumers' turns, whatever
      the other jobs do ([JobEnd.job_ends]); submission is idempotent and
      tenants are apart ([JobService]); the engine refines the orchestrator's
      interface ([Engine.engine_refines], [EngineRun]'s instances); callbacks reach public addresses only and are
      retried as documented ([Webhook]).
    - Storage. The repository and the queue keep their contracts on the rows and
      messages ([JobRows.jobrepo_refines], [JobWire.jobqueue_refines]). Equal cache keys mean equal requests ([Cache.Derive_exact]); the
      cache never points at a missing object, and eviction keeps it so
      ([Cache.cache_no_dangling], [Maintenance.eviction_sound]); one scheduler runs
      a task at a time ([Maintenance.lock_exclusive]).
    - Sessions. A WebSocket's utterances are ended in order and a cancel aborts
      only its own ([Websocket.ws_session]).
    - Operation. Observing never panics and the series are bounded by what the
      operator deploys and the methods clients send ([Metrics.observing_bounded]); the
      request counter is exact ([Metrics.requests_counted]); seeding plans is all or
      nothing ([Command.seeding_all_or_nothing]) and a migrated database passes the
      gate ([Command.migrated_boots]).
    - Formats. WAV headers, API keys, CSV and dates are read back as written.

    Some theorems prove what the code gets wrong: [JobStuck],
    [RateBucket.skewed_clocks_void_the_limit],
    [Maintenance.rollup_forgets], [Engine.engine_ignores_params],
    [Websocket.early_cancel_lost], [Websocket.pipelined_cancel_waits],
    [Metrics.methods_unbounded], [Metrics.depth_gauge_stale].

    ** Bounds and fuel

    Loops with a bound of their own recurse on it: the synthesis attempts on their
    number (3), the webhook's on the list of pauses (5 attempts in all), a stream
    on the frames the worker will send, a replay on the object's pieces. Rune
    decoding has the string's length as fuel, proved enough
    ([GoString.runes_fuel_enough]). [Reserve]'s loop is not fuelled: it is steps of
    the relation, and [ReserveEnd.reserve_terminates] bounds them. The consumers'
    and the meter's endless loops are executions of any length.

    ** What is not modelled

    Logging and tracing; the Prometheus library (an interface in [Metrics]);
    opening Redis and worker connections, presigning and TLS; [gen/workerpb], generated, and the rows of the tables
    other than the jobs' (their statements, in [storage/postgres/db], are steps on
    the code's own records); chi's path matching;
    flag parsing; cancellation of
    a context inside a database call (it is a refused call); Redis evicting keys
    on its own, except where expiry is a step; the worker, the console, the SDKs and
    the deployment. Panics are modelled where they are caught ([Server]). *)

From stdpp Require Import base gmap strings pretty numbers sorting list.

#[global] Open Scope Z_scope.

Abbreviation ascii := Ascii.ascii.

(** [lia] with division and remainder by constants. *)
Ltac dlia := Z.to_euclidean_division_equations; lia.

(** ** Machine integers and durations *)

(** [wrap w z]: the two's complement value a [w]-bit signed Go integer holds
    after computing [z]. *)
Definition wrap (w z : Z) : Z := (z + 2 ^ (w - 1)) `mod` 2 ^ w - 2 ^ (w - 1).

Definition int32 : Z → Z := wrap 32.
Definition int64 : Z → Z := wrap 64.
Definition MaxInt32 : Z := 2147483647.
Definition MinInt32 : Z := -2147483648.
Definition MaxInt64 : Z := 9223372036854775807.
Definition MinInt64 : Z := -9223372036854775808.
Definition MaxUint32 : Z := 4294967295.

Definition in_int32 (z : Z) : Prop := MinInt32 ≤ z ≤ MaxInt32.
Definition in_int64 (z : Z) : Prop := MinInt64 ≤ z ≤ MaxInt64.

(** Durations and instants are integer nanoseconds. An instant is counted from
    Go's zero time (January 1, year 1, UTC), so [IsZero] is a test against 0. *)
Definition Millisecond : Z := 1000000.
Definition Second : Z := 1000 * Millisecond.
Definition Minute : Z := 60 * Second.
Definition Hour : Z := 60 * Minute.

Definition zero_time : Z := 0.
Definition IsZero (t : Z) : bool := t =? zero_time.

(** [time.Time.Sub] saturates at the ends of [time.Duration]. *)
Definition time_sub (a b : Z) : Z := Z.max MinInt64 (Z.min MaxInt64 (a - b)).

(** [Duration.Milliseconds] is Go's truncating division. *)
Definition Milliseconds (d : Z) : Z := Z.quot d Millisecond.

(** ** Errors *)

(** The sentinel errors the gateway's packages declare, with the standard
    library's and the drivers' that the code compares with. *)
Inductive Sentinel : Type :=
| ErrMalformedKey | ErrUnauthorized | ErrScopeMissing | ErrLookupFailure
| ErrKeyNotFound | ErrInvalidKeyRequest
| ErrMiss
| ErrLeaseLost
| ErrNoWorker | ErrOverloaded
| ErrInvalidRequest | ErrTextTooLong | ErrUnknownVoice | ErrQuotaExceeded
| ErrFormatNotReady | ErrWorkerFailed | ErrConcurrencyLimited
| JobsErrInvalidRequest | JobsErrTextTooLong | ErrIdempotencyConflict
| ErrNotFound | ErrWebhookRejected | ErrPlanLimit
| ErrUnknownPlan | ErrInvalidInput
| VoicesErrUnknown
| ErrEOF | CtxCanceled | CtxDeadlineExceeded | PgxErrNoRows.

#[global] Instance Sentinel_eq_dec : EqDecision Sentinel.
Proof. solve_decision. Defined.

Definition sentinel_msg (s : Sentinel) : string :=
  match s with
  | ErrMalformedKey => "malformed api key"
  | ErrUnauthorized => "unauthorized"
  | ErrScopeMissing => "scope missing"
  | ErrLookupFailure => "key lookup failed"
  | ErrKeyNotFound => "key not found"
  | ErrInvalidKeyRequest => "invalid key request"
  | ErrMiss => "cache miss"
  | ErrLeaseLost => "lease lost"
  | ErrNoWorker => "no worker available"
  | ErrOverloaded => "overloaded"
  | ErrInvalidRequest | JobsErrInvalidRequest => "invalid request"
  | ErrTextTooLong | JobsErrTextTooLong => "text too long"
  | ErrUnknownVoice | VoicesErrUnknown => "unknown voice"
  | ErrQuotaExceeded => "quota exceeded"
  | ErrFormatNotReady => "format not available yet"
  | ErrWorkerFailed => "worker failed"
  | ErrConcurrencyLimited => "concurrency limited"
  | ErrIdempotencyConflict => "idempotency conflict"
  | ErrNotFound => "job not found"
  | ErrWebhookRejected => "webhook url rejected"
  | ErrPlanLimit => "text exceeds the plan's job limit"
  | ErrUnknownPlan => "unknown plan"
  | ErrInvalidInput => "invalid input"
  | ErrEOF => "EOF"
  | CtxCanceled => "context canceled"
  | CtxDeadlineExceeded => "context deadline exceeded"
  | PgxErrNoRows => "no rows in result set"
  end%string.

(** The gRPC status codes the gateway looks at; every other one is [CodeOther]. *)
Inductive GrpcCode : Type :=
| CodeUnknown | CodeResourceExhausted | CodeOther (n : Z).

#[global] Instance GrpcCode_eq_dec : EqDecision GrpcCode.
Proof. solve_decision. Defined.

(** What a [*dispatch.Overload] carries; the class is kept as its name. *)
Record Overload : Type := {
  ov_RetryAfter : Z;
  ov_Class : string;
  ov_Waiting : Z;
}.

(** A Go error value. [EWrap] and [EWrap2] are [fmt.Errorf] with one and two
    [%w] verbs, the literal text around them included. *)
Inductive gerr : Type :=
| ESentinel (s : Sentinel)
| ENew (msg : string)
| EWrap (pre : string) (e : gerr) (post : string)
| EWrap2 (pre : string) (e1 : gerr) (mid : string) (e2 : gerr) (post : string)
| EStatus (code : GrpcCode) (msg : string)
| EOverload (o : Overload)
| EInvalidRange (reason : string).

(** [errors.Is(err, sentinel)]. *)
Fixpoint errors_Is (e : gerr) (s : Sentinel) : bool :=
  match e with
  | ESentinel s' => bool_decide (s' = s)
  | EWrap _ e' _ => errors_Is e' s
  | EWrap2 _ e1 _ e2 _ => errors_Is e1 s || errors_Is e2 s
  | EOverload _ => bool_decide (s = ErrOverloaded)
  | ENew _ | EStatus _ _ | EInvalidRange _ => false
  end.

(** [errors.As(err, &overload)]: the first one in the pre-order walk. *)
Fixpoint errors_As_Overload (e : gerr) : option Overload :=
  match e with
  | EOverload o => Some o
  | EWrap _ e' _ => errors_As_Overload e'
  | EWrap2 _ e1 _ e2 _ =>
      match errors_As_Overload e1 with
      | Some o => Some o
      | None => errors_As_Overload e2
      end
  | _ => None
  end.

(** [status.Code(err)] of a non-nil error. *)
Fixpoint find_status (e : gerr) : option GrpcCode :=
  match e with
  | EStatus c _ => Some c
  | EWrap _ e' _ => find_status e'
  | EWrap2 _ e1 _ e2 _ =>
      match find_status e1 with
      | Some c => Some c
      | None => find_status e2
      end
  | _ => None
  end.

Definition status_Code (e : gerr) : GrpcCode := default CodeUnknown (find_status e).

(** [fmt.Errorf("pre%w", err)], the commonest wrapping. *)
Definition wrapf (pre : string) (e : gerr) : gerr := EWrap pre e "".

(** [fmt.Errorf("%w: post", sentinel)]. *)
Definition sentinelf (s : Sentinel) (post : string) : gerr :=
  EWrap "" (ESentinel s) (": " +:+ post).

(** A Go [(T, error)] pair of which exactly one half is meaningful. *)
Inductive res (A : Type) : Type :=
| Ok (a : A)
| Err (e : gerr).
Arguments Ok {A} a.
Arguments Err {A} e.

Definition is_Ok {A} (r : res A) : bool := match r with Ok _ => true | Err _ => false end.

Definition rbind {A B} (r : res A) (f : A → res B) : res B :=
  match r with Ok a => f a | Err e => Err e end.

(** [if err != nil { return fmt.Errorf("pre: %w", err) }]. *)
Definition rmap_err {A} (f : gerr → gerr) (r : res A) : res A :=
  match r with Ok a => Ok a | Err e => Err (f e) end.

(** ** Programs against an environment

    A use case calls its ports (database, cache, worker, clock). What a port
    answers is not the gateway's to decide, so a program runs against the
    history of the calls made so far: a call appends its event, and its answer
    is an arbitrary function of the history before it. *)
Definition Prog (E A : Type) : Type := list E → A * list E.

Definition pret {E A} (a : A) : Prog E A := λ h, (a, h).
Definition pbind {E A B} (p : Prog E A) (k : A → Prog E B) : Prog E B :=
  λ h, let '(a, h') := p h in k a h'.
Definition pcall {E A} (e : E) (answer : list E → A) : Prog E A :=
  λ h, (answer h, h ++ [e]).

(** A call whose event says what was answered. *)
Definition pask {E A} (event : A → E) (answer : list E → A) : Prog E A :=
  λ h, let a := answer h in (a, h ++ [event a]).

(** Run from the empty history: the result and the calls made, in order. *)
Definition prun {E A} (p : Prog E A) : A * list E := p [].
Definition presult {E A} (p : Prog E A) : A := (prun p).1.
Definition ptrace {E A} (p : Prog E A) : list E := (prun p).2.

(** [emits p R]: from every history, [p] returns some [a] having appended some
    calls [d] with [R a d]. *)
Definition emits {E A} (p : Prog E A) (R : A → list E → Prop) : Prop :=
  ∀ h, ∃ d, (p h).2 = h ++ d ∧ R (p h).1 d.

Declare Scope prog_scope.
Delimit Scope prog_scope with prog.
Notation "'let!' x ':=' p 'in' k" := (pbind p (λ x, k))
  (at level 10, x pattern, p at level 100, k at level 200) : prog_scope.
Notation "p ';!' k" := (pbind p (λ _, k))
  (at level 199, k at level 200, right associativity) : prog_scope.
Notation "'let?' x ':=' p 'in' k" :=
  (pbind p (λ r, match r with Ok x => k | Err e => pret (Err e) end))
  (at level 10, x pattern, p at level 100, k at level 200) : prog_scope.
#[global] Open Scope prog_scope.

(** ** Stateful operations that may fail

    An operation on a store of type [W] that returns Go's [(A, error)]. [sbind]
    is the early return on an error; [stry] hands the error to the code that
    looks at it. *)
Definition ST (W A : Type) : Type := W → res A * W.

Definition sret {W A} (a : A) : ST W A := λ w, (Ok a, w).
Definition sfail {W A} (e : gerr) : ST W A := λ w, (Err e, w).
Definition sbind {W A B} (m : ST W A) (k : A → ST W B) : ST W B :=
  λ w, match m w with (Ok a, w') => k a w' | (Err e, w') => (Err e, w') end.
Definition stry {W A B} (m : ST W A) (k : res A → ST W B) : ST W B :=
  λ w, let '(r, w') := m w in k r w'.
(** [if err != nil { return fmt.Errorf("pre: %w", err) }]. *)
Definition swrap {W A} (pre : string) (m : ST W A) : ST W A :=
  λ w, match m w with (Ok a, w') => (Ok a, w') | (Err e, w') => (Err (wrapf pre e), w') end.

Notation "'let*' x ':=' p 'in' k" := (sbind p (λ x, k))
  (at level 10, x pattern, p at level 100, k at level 200) : prog_scope.
Notation "'try' x ':=' p 'in' k" := (stry p (λ x, k))
  (at level 10, x pattern, p at level 100, k at level 200) : prog_scope.
Notation "p ';*' k" := (sbind p (λ _, k))
  (at level 199, k at level 200, right associativity) : prog_scope.

(** What can happen to a call to another process: it answers, it is refused
    before it takes effect, or it takes effect and the answer is lost. A store
    carries the schedule of what will happen to the calls to come; an exhausted
    schedule answers. *)
Inductive fault : Type := Answered | Refused | Unacknowledged.

#[global] Instance fault_eq_dec : EqDecision fault.
Proof. solve_decision. Defined.

Class HasFaults (W : Type) : Type := {
  faults : W → list fault;
  set_faults : list fault → W → W;
}.

Definition io_error : gerr := ENew "connection failure".

Definition port {W A} `{HasFaults W} (op : ST W A) : ST W A := λ w,
  match faults w with
  | [] => op w
  | Answered :: rest => op (set_faults rest w)
  | Refused :: rest => (Err io_error, set_faults rest w)
  | Unacknowledged :: rest => (Err io_error, (op (set_faults rest w)).2)
  end.

(** [holds I m Q]: [m] preserves the invariant [I], whatever it returns, and
    what it returns without an error satisfies [Q]. *)
Definition holds {W A} (I : W → Prop) (m : ST W A) (Q : A → Prop) : Prop :=
  ∀ w, I w → I (m w).2 ∧ ∀ a, (m w).1 = Ok a → Q a.

(** [keeps I m]: [m] preserves the invariant [I], whatever it returns. *)
Definition keeps {W A} (I : W → Prop) (m : ST W A) : Prop := ∀ w, I w → I (m w).2.

(** ** Lemmas *)

Lemma keeps_ret {W A} (I : W → Prop) (a : A) : keeps I (sret a).
Proof. by intros w. Qed.

Lemma keeps_fail {W A} (I : W → Prop) e : keeps I (@sfail W A e).
Proof. by intros w. Qed.

Lemma keeps_bind {W A B} (I : W → Prop) (m : ST W A) (k : A → ST W B) :
  keeps I m → (∀ a, keeps I (k a)) → keeps I (sbind m k).
Proof.
  intros Hm Hk w Hw. unfold sbind. specialize (Hm w Hw).
  destruct (m w) as [[a|e] w']; [by apply Hk|done].
Qed.

Lemma keeps_try {W A B} (I : W → Prop) (m : ST W A) (k : res A → ST W B) :
  keeps I m → (∀ r, keeps I (k r)) → keeps I (stry m k).
Proof.
  intros Hm Hk w Hw. unfold stry. specialize (Hm w Hw). destruct (m w) as [r w']. by apply Hk.
Qed.

Lemma keeps_wrap {W A} (I : W → Prop) pre (m : ST W A) : keeps I m → keeps I (swrap pre m).
Proof. intros Hm w Hw. specialize (Hm w Hw). unfold swrap. by destruct (m w) as [[a|e] w']. Qed.

Lemma keeps_port {W A} `{HasFaults W} (I : W → Prop) (op : ST W A) :
  (∀ fs w, I w → I (set_faults fs w)) → keeps I op → keeps I (port op).
Proof.
  intros Hf Hop w Hw. unfold port. destruct (faults w) as [|[] rest]; simpl; eauto.
Qed.

Section holds.
Context {W : Type} (I : W → Prop).

Lemma holds_ret {A} (a : A) (Q : A → Prop) : Q a → holds I (sret a) Q.
Proof. intros Ha w Hw. split; [done|]. by intros ? [= <-]. Qed.

Lemma holds_fail {A} e (Q : A → Prop) : holds I (sfail e) Q.
Proof. by intros w Hw. Qed.

Lemma holds_bind {A B} (m : ST W A) (k : A → ST W B) Q R :
  holds I m Q → (∀ a, Q a → holds I (k a) R) → holds I (sbind m k) R.
Proof.
  intros Hm Hk w Hw. unfold sbind. destruct (Hm w Hw) as [Hi Hq].
  destruct (m w) as [[a|e] w']; [|done]. by apply Hk, Hi; apply Hq.
Qed.

Lemma holds_try {A B} (m : ST W A) (k : res A → ST W B) Q R :
  holds I m Q → (∀ r, (∀ a, r = Ok a → Q a) → holds I (k r) R) → holds I (stry m k) R.
Proof.
  intros Hm Hk w Hw. unfold stry. destruct (Hm w Hw) as [Hi Hq].
  destruct (m w) as [r w']. by apply Hk.
Qed.

Lemma holds_wrap {A} pre (m : ST W A) Q : holds I m Q → holds I (swrap pre m) Q.
Proof.
  intros Hm w Hw. destruct (Hm w Hw) as [Hi Hq]. unfold swrap. by destruct (m w) as [[a|e] w'].
Qed.

Lemma holds_port {A} `{HasFaults W} (op : ST W A) Q :
  (∀ fs w, I w → I (set_faults fs w)) → holds I op Q → holds I (port op) Q.
Proof.
  intros Hf Hop w Hw. unfold port. destruct (faults w) as [|[] rest]; simpl.
  - by apply Hop.
  - by apply Hop, Hf.
  - split; [by apply Hf|done].
  - split; [by apply Hop, Hf|done].
Qed.

Lemma holds_mono {A} (m : ST W A) (Q R : A → Prop) :
  holds I m Q → (∀ a, Q a → R a) → holds I m R.
Proof. intros Hm HQ w Hw. destruct (Hm w Hw). split; eauto. Qed.
End holds.

(** [moves R m]: whatever it returns, [m] takes the store along [R]. *)
Definition moves {W A} (R : W → W → Prop) (m : ST W A) : Prop := ∀ w, R w (m w).2.

Section moves.
Context {W : Type} (R : W → W → Prop) `{!PreOrder R}.

Lemma moves_ret {A} (a : A) : moves R (sret a).
Proof. intros w. reflexivity. Qed.

Lemma moves_fail {A} e : moves R (@sfail W A e).
Proof. intros w. reflexivity. Qed.

Lemma moves_bind {A B} (m : ST W A) (k : A → ST W B) :
  moves R m → (∀ a, moves R (k a)) → moves R (sbind m k).
Proof.
  intros Hm Hk w. unfold sbind. specialize (Hm w).
  destruct (m w) as [[a|e] w']; [|done]. etrans; [done|]. apply Hk.
Qed.

Lemma moves_try {A B} (m : ST W A) (k : res A → ST W B) :
  moves R m → (∀ r, moves R (k r)) → moves R (stry m k).
Proof.
  intros Hm Hk w. unfold stry. specialize (Hm w). destruct (m w) as [r w'].
  etrans; [done|]. apply Hk.
Qed.

Lemma moves_wrap {A} pre (m : ST W A) : moves R m → moves R (swrap pre m).
Proof. intros Hm w. specialize (Hm w). unfold swrap. by destruct (m w) as [[a|e] w']. Qed.

Lemma moves_port {A} `{HasFaults W} (op : ST W A) :
  (∀ fs w, R w (set_faults fs w)) → moves R op → moves R (port op).
Proof.
  intros Hf Hop w. unfold port. destruct (faults w) as [|[] rest]; simpl; auto; (etrans; [apply Hf|apply Hop]).
Qed.
End moves.

(** A port that answers has run its operation, with some schedule ahead. *)
Lemma port_Ok {W A} `{HasFaults W} (op : ST W A) w a w' :
  port op w = (Ok a, w') → op w = (Ok a, w') ∨ ∃ fs, op (set_faults fs w) = (Ok a, w').
Proof. unfold port. destruct (faults w) as [|[] fs]; intros Heq; try discriminate; eauto. Qed.

(** With nothing scheduled to fail, a port is its operation. *)
Lemma port_answered {W A} `{HasFaults W} (op : ST W A) w : faults w = [] → port op w = op w.
Proof. intros Hf. unfold port. by rewrite Hf. Qed.

(** A transaction: begin, the statements, commit. A failed statement or a
    refused commit leaves the tables as they were; a commit whose answer is lost
    has happened. *)
Definition transaction {W A} `{HasFaults W} (m : ST W A) : ST W A := λ w,
  match swrap "begin: " (port (λ w, (Ok (), w))) w with
  | (Err e, w1) => (Err e, w1)
  | (Ok _, w1) =>
      match m w1 with
      | (Err e, w2) => (Err e, set_faults (faults w2) w1)
      | (Ok a, w2) =>
          match faults w2 with
          | [] => (Ok a, w2)
          | Answered :: rest => (Ok a, set_faults rest w2)
          | Refused :: rest => (Err (wrapf "commit: " io_error), set_faults rest w1)
          | Unacknowledged :: rest => (Err (wrapf "commit: " io_error), set_faults rest w2)
          end
      end
  end.

Class FaultLaws (W : Type) `{HasFaults W} : Prop := {
  faults_set fs w : faults (set_faults fs w) = fs;
}.

(** No answer to a call is going to be lost. *)
Definition calm {W} `{HasFaults W} (w : W) : Prop := Unacknowledged ∉ faults w.

Section transaction.
Context {W : Type} `{FaultLaws W}.

Lemma calm_port {A} (op : ST W A) : (∀ w, faults (op w).2 = faults w) → keeps calm (port op).
Proof.
  intros Hop w Hw. unfold port, calm in *. destruct (faults w) as [|[] fs] eqn:Hf; cbn;
    rewrite ?Hop, ?faults_set, ?Hf; [done|..]; intros Hin; apply Hw; by right.
Qed.

(** For any comparison [R] of stores that the schedule is no part of, a
    transaction leaves the tables as they were, or has run its statements to
    the end; and in the latter case reports it, unless the commit's answer was
    lost. *)
Lemma transaction_cases {A} (R : relation W) `{!PreOrder R} (m : ST W A) w :
  (∀ fs w, R w (set_faults fs w)) →
  let t := transaction m w in
  (R w t.2 ∧ is_Ok t.1 = false) ∨
  ∃ w1 w2 a, R w w1 ∧ m w1 = (Ok a, w2) ∧ R w2 t.2 ∧
    (t.1 = Ok a ∨ is_Ok t.1 = false ∧ (keeps calm m → ¬ calm w)).
Proof.
  intros HR. cbv zeta. unfold transaction, swrap.
  assert (R w (port (λ w, (Ok (), w)) w).2 ∧ (calm w → calm (port (λ w, (Ok (), w)) w).2)) as [Hs Hc].
  { split; [|by apply (calm_port (λ w, (Ok (), w)))]. unfold port.
    destruct (faults w) as [|f fs]; [|destruct f]; cbn [fst snd]; first [reflexivity|apply HR]. }
  destruct (port _ w) as [[[]|e] w1]; cbn [snd] in *; [|by left].
  destruct (m w1) as [[a|e] w2] eqn:Hm; [|left; split; [etrans; [exact Hs|apply HR]|done]].
  destruct (faults w2) as [|[] fs] eqn:Hf; cbn [fst snd].
  - right. exists w1, w2, a. by split_and!; auto.
  - right. exists w1, w2, a. by split_and!; auto.
  - left. split; [|done]. etrans; [exact Hs|apply HR].
  - right. exists w1, w2, a. split_and!; auto. right. split; [done|]. intros Hk Hw.
    specialize (Hk w1 (Hc Hw)). rewrite Hm in Hk. unfold calm in Hk. cbn in Hk. rewrite Hf in Hk. set_solver.
Qed.
End transaction.

Lemma wrap_id w z : 0 < w → - 2 ^ (w - 1) ≤ z < 2 ^ (w - 1) → wrap w z = z.
Proof.
  intros Hw Hz. unfold wrap.
  assert (2 ^ w = 2 * 2 ^ (w - 1)) as Hp.
  { replace w with (Z.succ (w - 1)) at 1 by lia. apply Z.pow_succ_r. lia. }
  rewrite Z.mod_small by lia. lia.
Qed.

Lemma wrap_range w z : 0 < w → - 2 ^ (w - 1) ≤ wrap w z < 2 ^ (w - 1).
Proof.
  intros Hw. unfold wrap.
  assert (2 ^ w = 2 * 2 ^ (w - 1)) as Hp.
  { replace w with (Z.succ (w - 1)) at 1 by lia. apply Z.pow_succ_r. lia. }
  pose proof (Z.mod_pos_bound (z + 2 ^ (w - 1)) (2 ^ w)) as Hm.
  assert (0 < 2 ^ (w - 1)) by (apply Z.pow_pos_nonneg; lia). lia.
Qed.

Lemma int32_id z : in_int32 z → int32 z = z.
Proof.
  unfold in_int32, int32, MinInt32, MaxInt32. intros. apply wrap_id; [lia|].
  change (2 ^ (32 - 1)) with 2147483648. lia.
Qed.

Lemma int64_id z : in_int64 z → int64 z = z.
Proof.
  unfold in_int64, int64, MinInt64, MaxInt64. intros. apply wrap_id; [lia|].
  change (2 ^ (64 - 1)) with 9223372036854775808. lia.
Qed.

Lemma int32_range z : in_int32 (int32 z).
Proof.
  pose proof (wrap_range 32 z ltac:(lia)) as H. unfold in_int32, int32, MinInt32, MaxInt32.
  change (2 ^ (32 - 1)) with 2147483648 in H. lia.
Qed.

Lemma errors_Is_wrapf pre e s : errors_Is (wrapf pre e) s = errors_Is e s.
Proof. done. Qed.

Lemma errors_Is_sentinelf s post s' : errors_Is (sentinelf s post) s' = bool_decide (s = s').
Proof. done. Qed.

Lemma emits_ret {E A} (a : A) (R : A → list E → Prop) : R a [] → emits (pret a) R.
Proof. intros HR h. exists []. by rewrite app_nil_r. Qed.

Lemma emits_call {E A} (e : E) (f : list E → A) (R : A → list E → Prop) :
  (∀ h, R (f h) [e]) → emits (pcall e f) R.
Proof. intros HR h. exists [e]. split; [reflexivity|]. apply HR. Qed.

Lemma emits_bind {E A B} (p : Prog E A) (k : A → Prog E B) R1 (R : B → list E → Prop) :
  emits p R1 →
  (∀ a d1, R1 a d1 → emits (k a) (λ b d2, R b (d1 ++ d2))) →
  emits (pbind p k) R.
Proof.
  intros H1 H2 h. unfold pbind.
  destruct (H1 h) as (d1 & Hd1 & HR1). destruct (p h) as [a h'] eqn:Hp. simpl in *.
  destruct (H2 a d1 HR1 h') as (d2 & Hd2 & HR2).
  exists (d1 ++ d2). split; [by rewrite Hd2, Hd1, app_assoc|done].
Qed.

Lemma emits_mono {E A} (p : Prog E A) (R1 R2 : A → list E → Prop) :
  emits p R1 → (∀ a d, R1 a d → R2 a d) → emits p R2.
Proof. intros H Himp h. destruct (H h) as (d & ? & ?). exists d. eauto. Qed.

Lemma emits_bind_call {E A B} (e : E) (f : list E → A) (k : A → Prog E B) (R : B → list E → Prop) :
  (∀ a, emits (k a) (λ b d, R b (e :: d))) → emits (pbind (pcall e f) k) R.
Proof.
  intros Hk. apply (emits_bind _ _ (λ _ d, d = [e])).
  - by apply emits_call.
  - intros a d1 ->. apply Hk.
Qed.

Lemma emits_bind_ask {E A B} (e : A → E) (f : list E → A) (k : A → Prog E B) (R : B → list E → Prop) :
  (∀ a, emits (k a) (λ b d, R b (e a :: d))) → emits (pbind (pask e f) k) R.
Proof.
  intros Hk. apply (emits_bind _ _ (λ a d, d = [e a])).
  - intros h. by exists [e (f h)].
  - intros a d1 ->. apply Hk.
Qed.

Lemma emits_run {E A} (p : Prog E A) R : emits p R → R (presult p) (ptrace p).
Proof.
  intros H. destruct (H []) as (d & Hd & HR). unfold presult, ptrace, prun.
  by rewrite Hd.
Qed.

(** ** Transition systems *)

(** An invariant that every step keeps holds in every reachable state. *)
Lemma rtc_invariant {A} (R : A → A → Prop) (I : A → Prop) x y :
  (∀ a b, I a → R a b → I b) → I x → rtc R x y → I y.
Proof. intros Hstep Hx Hxy. induction Hxy; eauto. Qed.

(** A reflexive and transitive relation that every step satisfies relates the
    two ends of every execution. *)
Lemma rtc_relates {A} (R S : A → A → Prop) `{!Reflexive S, !Transitive S} x y :
  (∀ a b, R a b → S a b) → rtc R x y → S x y.
Proof. intros Hstep Hxy. induction Hxy; [done|]. etrans; eauto. Qed.

(** ** Lists *)

(** How many elements of a list satisfy a test. *)
Definition countb {A} (f : A → bool) (l : list A) : Z :=
  foldr (λ x n, (if f x then 1 else 0) + n) 0 l.

Lemma countb_app {A} (f : A → bool) l1 l2 : countb f (l1 ++ l2) = countb f l1 + countb f l2.
Proof. induction l1 as [|x l1 IH]; simpl; [done|]. rewrite IH. lia. Qed.

Lemma countb_nonneg {A} (f : A → bool) l : 0 ≤ countb f l.
Proof. induction l as [|x l IH]; simpl; [done|]. destruct (f x); lia. Qed.

Lemma countb_le_length {A} (f : A → bool) l : countb f l ≤ Z.of_nat (length l).
Proof. induction l as [|x l IH]; simpl; [done|]. destruct (f x); lia. Qed.

Lemma countb_insert {A} (f : A → bool) l i x y :
  l !! i = Some x →
  countb f (<[i:=y]> l) = countb f l - (if f x then 1 else 0) + (if f y then 1 else 0).
Proof.
  revert i. induction l as [|z l IH]; intros [|i] Hi; simplify_eq/=; [lia|].
  rewrite (IH i Hi). lia.
Qed.

Lemma countb_lookup_pos {A} (f : A → bool) l i x :
  l !! i = Some x → f x = true → 0 < countb f l.
Proof.
  revert i. induction l as [|z l IH]; intros [|i] Hi Hf; simplify_eq/=.
  - rewrite Hf. pose proof (countb_nonneg f l). lia.
  - specialize (IH i Hi Hf). destruct (f z); lia.
Qed.

Lemma countb_zero {A} (f : A → bool) l : countb f l = 0 ↔ Forall (λ x, f x = false) l.
Proof.
  induction l as [|x l IH]; simpl.
  - split; [by constructor|done].
  - pose proof (countb_nonneg f l). split.
    + intros H0. destruct (f x) eqn:Hf; [lia|]. constructor; [done|]. apply IH. lia.
    + intros [Hf H0]%Forall_cons_1. rewrite Hf. apply IH in H0. lia.
Qed.

Lemma countb_ext {A} (f g : A → bool) l :
  (∀ x, x ∈ l → f x = g x) → countb f l = countb g l.
Proof.
  induction l as [|x l IH]; intros H; simpl; [done|].
  rewrite IH by (intros; apply H; set_solver).
  by rewrite (H x ltac:(set_solver)).
Qed.

Lemma countb_le {A} (f g : A → bool) l : (∀ x, f x = true → g x = true) → countb f l ≤ countb g l.
Proof.
  intros Hfg. induction l as [|x l IH]; [done|]. cbn. fold (countb f l) (countb g l). specialize (Hfg x).
  destruct (f x); [rewrite Hfg by done; lia|]. destruct (g x); lia.
Qed.

Lemma countb_perm {A} f (l1 l2 : list A) : l1 ≡ₚ l2 → countb f l1 = countb f l2.
Proof. induction 1; cbn; unfold countb in *; lia. Qed.

Lemma countb_filter {A} f g (l : list A) : countb f (List.filter g l) = countb (λ x, g x && f x) l.
Proof. induction l as [|x l IH]; [done|]. cbn. destruct (g x); cbn; unfold countb in *; lia. Qed.

Lemma filter_filter {A} (f g : A → bool) l :
  List.filter f (List.filter g l) = List.filter (λ x, f x && g x) l.
Proof. induction l as [|x l IH]; simpl; [done|]. destruct (g x) eqn:Hg, (f x) eqn:Hf; simpl; rewrite ?Hf, ?IH; done. Qed.

Lemma filter_none {A} f (l : list A) : (∀ x, x ∈ l → f x = false) → List.filter f l = [].
Proof. induction l as [|x l IH]; intros Hf; [done|]. cbn. rewrite Hf by by left. apply IH. intros. apply Hf. by right. Qed.

Lemma filter_all {A} f (l : list A) : (∀ x, x ∈ l → f x = true) → List.filter f l = l.
Proof. induction l as [|x l IH]; intros Hf; [done|]. cbn. rewrite Hf by by left. f_equal. apply IH. intros. apply Hf. by right. Qed.

Lemma sorted_filter {A} (R : A → A → Prop) f l : StronglySorted R l → StronglySorted R (List.filter f l).
Proof.
  induction 1 as [|x l Hs IH Hx]; [constructor|]. cbn. destruct (f x); [|done]. constructor; [done|].
  rewrite Forall_forall in *. intros y [Hy _]%list_elem_of_In%List.filter_In. apply Hx. by apply list_elem_of_In.
Qed.

(** SQL's [sum], and the loops that add one field up. *)
Definition zsum {A} (f : A → Z) (l : list A) : Z := foldr (λ x acc, f x + acc) 0 l.

Lemma zsum_app {A} (f : A → Z) l1 l2 : zsum f (l1 ++ l2) = zsum f l1 + zsum f l2.
Proof. induction l1 as [|x l1 IH]; simpl; [done|]. rewrite IH. lia. Qed.

#[global] Instance zsum_perm {A} (f : A → Z) : Proper ((≡ₚ) ==> (=)) (zsum f).
Proof. induction 1; simpl; lia. Qed.

Lemma zsum_nonneg {A} (f : A → Z) l : (∀ x, x ∈ l → 0 ≤ f x) → 0 ≤ zsum f l.
Proof.
  induction l as [|x l IH]; intros Hf; simpl; [done|].
  pose proof (Hf x ltac:(set_solver)). specialize (IH ltac:(set_solver)). lia.
Qed.

(** SQL's [order by]: insertion sort; equal keys keep their order. *)
Fixpoint insert_by {A} (before : A → A → bool) (x : A) (l : list A) : list A :=
  match l with
  | [] => [x]
  | y :: l' => if before y x then y :: insert_by before x l' else x :: l
  end.
Definition order_by {A} (before : A → A → bool) (l : list A) : list A :=
  foldr (insert_by before) [] l.

Section order_by.
Context {A : Type} (before : A → A → bool).

Lemma insert_by_perm x l : insert_by before x l ≡ₚ x :: l.
Proof.
  induction l as [|y l IH]; simpl; [done|]. destruct (before y x); [|done].
  rewrite IH. constructor.
Qed.

Lemma order_by_perm l : order_by before l ≡ₚ l.
Proof. induction l as [|x l IH]; simpl; [done|]. by rewrite insert_by_perm, IH. Qed.

Lemma order_by_elem l y : y ∈ order_by before l ↔ y ∈ l.
Proof. by rewrite order_by_perm. Qed.

(** Sorted, when [before] is the strict part of a total preorder. *)
Lemma order_by_ordered l :
  (∀ a b, before a b = true → before b a = false) →
  (∀ a b c, before b a = false → before c b = false → before c a = false) →
  StronglySorted (λ a b, before b a = false) (order_by before l).
Proof.
  intros Hasym Htrans. induction l as [|x l IH]; simpl; [constructor|].
  induction IH as [|y l' Hs IH' Hy]; simpl; [by repeat constructor|].
  destruct (before y x) eqn:Hyx.
  - constructor; [done|]. apply Forall_forall. intros z Hz. rewrite insert_by_perm in Hz.
    apply elem_of_cons in Hz as [->|Hz]; [by apply Hasym|]. rewrite Forall_forall in Hy. by apply Hy.
  - constructor; [by constructor|]. constructor; [done|].
    eapply Forall_impl; [exact Hy|]. intros z Hz. by eapply Htrans.
Qed.
End order_by.

(** Ordered by a numeric key no two rows share. *)
Section by_key.
Context {A : Type} (key : A → Z).

Definition by_key (a b : A) : bool := key a <? key b.
Definition ascending (a b : A) : Prop := key a < key b.

Lemma insert_by_sorted x l :
  StronglySorted ascending l → Forall (λ y, key y ≠ key x) l →
  StronglySorted ascending (insert_by by_key x l).
Proof.
  induction l as [|y l IH]; simpl; intros Hs Hne.
  { by repeat constructor. }
  apply StronglySorted_inv in Hs as [Hs Hy]. apply Forall_cons in Hne as [Hxy Hne].
  unfold by_key at 1. destruct (Z.ltb_spec (key y) (key x)) as [Hlt|Hge].
  - constructor; [by apply IH|]. apply Forall_forall. intros z Hz.
    rewrite insert_by_perm in Hz. apply elem_of_cons in Hz as [->|Hz]; [done|].
    rewrite Forall_forall in Hy. by apply Hy.
  - constructor; [by constructor|]. constructor; [unfold ascending; lia|].
    eapply Forall_impl; [exact Hy|]. unfold ascending. simpl. lia.
Qed.

Lemma order_by_sorted l : NoDup (key <$> l) → StronglySorted ascending (order_by by_key l).
Proof.
  induction l as [|x l IH]; simpl; intros Hnd; [constructor|].
  apply NoDup_cons in Hnd as [Hnin Hnd]. apply insert_by_sorted; [by apply IH|].
  apply Forall_forall. intros y Hy Heq. apply Hnin. rewrite order_by_elem in Hy.
  apply list_elem_of_fmap. exists y. split; [by rewrite Heq|done].
Qed.

(** Ascending lists with the same elements are the same list. *)
Lemma ascending_ext l1 l2 :
  StronglySorted ascending l1 → StronglySorted ascending l2 →
  (∀ x, x ∈ l1 ↔ x ∈ l2) → l1 = l2.
Proof.
  revert l2. induction l1 as [|x l1 IH]; intros [|y l2] H1 H2 Hin.
  - done.
  - exfalso. apply (not_elem_of_nil y), Hin. by left.
  - exfalso. apply (not_elem_of_nil x), Hin. by left.
  - apply StronglySorted_inv in H1 as [H1 Hx]. apply StronglySorted_inv in H2 as [H2 Hy].
    rewrite Forall_forall in Hx, Hy. unfold ascending in Hx, Hy.
    assert (x = y) as ->.
    { assert (x ∈ y :: l2) as [->|Hxl]%elem_of_cons by (apply Hin; by left); [done|].
      assert (y ∈ x :: l1) as [->|Hyl]%elem_of_cons by (apply Hin; by left); [done|].
      specialize (Hx y Hyl). specialize (Hy x Hxl). lia. }
    f_equal. apply IH; [done..|]. intros z. specialize (Hin z). rewrite !elem_of_cons in Hin.
    split; intros Hz; [destruct Hin as [[->|?] _]|destruct Hin as [_ [->|?]]]; try tauto;
      exfalso; [specialize (Hx y Hz)|specialize (Hy y Hz)]; lia.
Qed.
End by_key.

Lemma StronglySorted_take_drop {A} (R : A → A → Prop) n l x y :
  StronglySorted R l → x ∈ take n l → y ∈ drop n l → R x y.
Proof.
  revert n. induction l as [|z l IH]; intros [|n] Hs Hx Hy; simpl in *;
    try (by apply elem_of_nil in Hx).
  apply StronglySorted_inv in Hs as [Hs Hz]. apply elem_of_cons in Hx as [->|Hx]; [|by eauto].
  rewrite Forall_forall in Hz. apply Hz. rewrite <-(take_drop n l), elem_of_app. auto.
Qed.

Lemma StronglySorted_take {A} (R : A → A → Prop) n l :
  StronglySorted R l → StronglySorted R (take n l).
Proof.
  revert n. induction l as [|z l IH]; intros [|n] Hs; simpl; try by constructor.
  apply StronglySorted_inv in Hs as [Hs Hz]. constructor; [by apply IH|].
  rewrite Forall_forall in Hz |- *. intros x Hx. apply Hz. rewrite <-(take_drop n l), elem_of_app. auto.
Qed.

Lemma StronglySorted_mono {A} (R S : A → A → Prop) l :
  (∀ a b, R a b → S a b) → StronglySorted R l → StronglySorted S l.
Proof. intros HRS. induction 1 as [|z l Hs IH Hz]; constructor; [done|]. eapply Forall_impl; eauto. Qed.

(** The row of a table that a unique condition selects, if any. *)
Definition find_row {A} (f : A → bool) (m : gmap string A) : option A :=
  List.find f (snd <$> map_to_list m).

Lemma find_row_None {A} (f : A → bool) m :
  find_row f m = None → ∀ k x, m !! k = Some x → f x = false.
Proof.
  intros Hn k x Hx. eapply List.find_none; [exact Hn|].
  apply list_elem_of_In, list_elem_of_fmap. exists (k, x). split; [done|]. by apply elem_of_map_to_list.
Qed.

Lemma find_row_Some {A} (f : A → bool) m x :
  find_row f m = Some x → f x = true ∧ ∃ k, m !! k = Some x.
Proof.
  intros [Hin Hf]%List.find_some. split; [done|].
  apply list_elem_of_In, list_elem_of_fmap in Hin as ([k y] & -> & Hin). exists k.
  by apply elem_of_map_to_list.
Qed.

Lemma find_row_insert {A} (f : A → bool) m k x :
  (∀ k' y, m !! k' = Some y → k' ≠ k → f y = false) →
  find_row f (<[k := x]> m) = if f x then Some x else None.
Proof.
  intros Hm. destruct (find_row f (<[k := x]> m)) as [y|] eqn:Hy.
  - apply find_row_Some in Hy as [Hf [k' Hk']].
    apply lookup_insert_Some in Hk' as [[_ <-]|[Hne Hk']]; [by rewrite Hf|].
    by rewrite (Hm k' y) in Hf.
  - assert (f x = false) as ->; [|done]. by apply (find_row_None _ _ Hy k), lookup_insert_eq.
Qed.

(** ** Automation *)

(** Case analysis on every [if], [match] and [let] of the goal. *)
Ltac cases := repeat (case_match; simplify_eq/=).

(** Turn Boolean tests in the context into propositions [lia] reads. *)
Ltac zbool :=
  repeat match goal with
  | H : (_ =? _) = true |- _ => apply Z.eqb_eq in H
  | H : (_ =? _) = false |- _ => apply Z.eqb_neq in H
  | H : (_ <? _) = true |- _ => apply Z.ltb_lt in H
  | H : (_ <? _) = false |- _ => apply Z.ltb_ge in H
  | H : (_ <=? _) = true |- _ => apply Z.leb_le in H
  | H : (_ <=? _) = false |- _ => apply Z.leb_gt in H
  | H : bool_decide _ = true |- _ => apply bool_decide_eq_true in H
  | H : bool_decide _ = false |- _ => apply bool_decide_eq_false in H
  | H : _ && _ = true |- _ => apply andb_true_iff in H as [? ?]
  | H : _ && _ = false |- _ => apply andb_false_iff in H
  | H : _ || _ = true |- _ => apply orb_true_iff in H
  | H : _ || _ = false |- _ => apply orb_false_iff in H as [? ?]
  | H : negb _ = true |- _ => apply negb_true_iff in H
  | H : negb _ = false |- _ => apply negb_false_iff in H
  end.

Create HintDb gateway discriminated.
Create Rewrite HintDb gateway.
#[export] Hint Resolve keeps_ret keeps_fail keeps_bind keeps_try keeps_wrap keeps_port : gateway.
#[export] Hint Resolve wrap_id int32_id int64_id int32_range countb_nonneg : gateway.
#[export] Hint Rewrite @countb_app errors_Is_wrapf errors_Is_sentinelf : gateway.
