(* ===== verification/GoString.v ===== *)
(** * Go strings

    A Go string is a sequence of bytes, and so is Rocq's [string]. This file
    gives the parts of the [strings], [unicode/utf8] and [strconv] packages the
    gateway uses: decoding to runes, [strings.Fields], [TrimSpace],
    [HasPrefix], [Split], [Cut], hexadecimal and decimal rendering. Decoding
    follows [utf8.DecodeRuneInString]: an invalid byte is one [RuneError]. *)

From stdpp Require Import base gmap strings list pretty numbers.
From S2P Require Import Prelude.

(** ** Bytes *)

Definition byte_val (c : ascii) : Z := Z.of_N (Ascii.N_of_ascii c).
Definition byte_of (z : Z) : ascii := Ascii.ascii_of_N (Z.to_N z).

(** [len(s)]. *)
Definition go_len (s : string) : Z := Z.of_nat (String.length s).

(** [s[:n]] and [s[n:]] for an in-range [n]. *)
Fixpoint str_take (n : nat) (s : string) : string :=
  match n, s with
  | S n, String c s => String c (str_take n s)
  | _, _ => ""
  end.

Fixpoint str_drop (n : nat) (s : string) : string :=
  match n, s with
  | O, _ => s
  | S n, String _ s => str_drop n s
  | _, "" => ""
  end.

Definition HasPrefix (s prefix : string) : bool := String.prefix prefix s.

Fixpoint str_rev_append (s acc : string) : string :=
  match s with
  | "" => acc
  | String c s => str_rev_append s (String c acc)
  end.

(** ** Runes *)

Definition RuneError : Z := 65533.

Definition in_range (lo hi b : Z) : bool := (lo <=? b) && (b <=? hi).

(** The bounds on the second byte that a first byte imposes (RFC 3629). *)
Definition second_lo (b0 : Z) : Z :=
  if b0 =? 0xE0 then 0xA0 else if b0 =? 0xF0 then 0x90 else 0x80.
Definition second_hi (b0 : Z) : Z :=
  if b0 =? 0xED then 0x9F else if b0 =? 0xF4 then 0x8F else 0xBF.

Definition cont (b : Z) : bool := in_range 0x80 0xBF b.
Definition second_ok (b0 b1 : Z) : bool := in_range (second_lo b0) (second_hi b0) b1.

(** The first rune of a string and its width in bytes. *)
Definition decode1 (s : string) : option (Z * nat) :=
  match s with
  | "" => None
  | String c0 r0 =>
      let b0 := byte_val c0 in
      if b0 <? 0x80 then Some (b0, 1%nat)
      else
        match r0 with
        | String c1 r1 =>
            let b1 := byte_val c1 in
            if in_range 0xC2 0xDF b0 && cont b1
            then Some ((b0 - 0xC0) * 64 + (b1 - 0x80), 2%nat)
            else
              match r1 with
              | String c2 r2 =>
                  let b2 := byte_val c2 in
                  if in_range 0xE0 0xEF b0 && second_ok b0 b1 && cont b2
                  then Some (((b0 - 0xE0) * 64 + (b1 - 0x80)) * 64 + (b2 - 0x80), 3%nat)
                  else
                    match r2 with
                    | String c3 _ =>
                        let b3 := byte_val c3 in
                        if in_range 0xF0 0xF4 b0 && second_ok b0 b1 && cont b2 && cont b3
                        then Some ((((b0 - 0xF0) * 64 + (b1 - 0x80)) * 64
                                     + (b2 - 0x80)) * 64 + (b3 - 0x80), 4%nat)
                        else Some (RuneError, 1%nat)
                    | "" => Some (RuneError, 1%nat)
                    end
              | "" => Some (RuneError, 1%nat)
              end
        | "" => Some (RuneError, 1%nat)
        end
  end.

(** A rune with the bytes it was decoded from. *)
Definition chunk : Type := Z * string.

Fixpoint runes_fuel (fuel : nat) (s : string) : list chunk :=
  match fuel with
  | O => []
  | S fuel =>
      match decode1 s with
      | None => []
      | Some (r, w) => (r, str_take w s) :: runes_fuel fuel (str_drop w s)
      end
  end.

(** Every rune takes a byte at least, so the length is fuel enough. *)
Definition runes (s : string) : list chunk := runes_fuel (String.length s) s.

(** [len([]rune(s))]. *)
Definition rune_count (s : string) : Z := Z.of_nat (length (runes s)).

Definition bytes_of (l : list chunk) : string := foldr (λ c acc, c.2 +:+ acc) "" l.

(** ** White space *)

(** [unicode.IsSpace]. *)
Definition IsSpace (r : Z) : bool :=
  in_range 9 13 r || (r =? 32) || (r =? 0x85) || (r =? 0xA0) || (r =? 0x1680)
  || in_range 0x2000 0x200A r || (r =? 0x2028) || (r =? 0x2029) || (r =? 0x202F)
  || (r =? 0x205F) || (r =? 0x3000).

(** The maximal runs of runes that are not white space. *)
Fixpoint words (l : list chunk) : list (list chunk) :=
  match l with
  | [] => []
  | c :: l' =>
      if IsSpace c.1 then words l'
      else
        match l' with
        | [] => [[c]]
        | d :: _ =>
            if IsSpace d.1 then [c] :: words l'
            else match words l' with w :: ws => (c :: w) :: ws | [] => [[c]] end
        end
  end.

(** [strings.Fields]. *)
Definition Fields (s : string) : list string := bytes_of <$> words (runes s).

(** [strings.Join]. *)
Fixpoint Join (l : list string) (sep : string) : string :=
  match l with
  | [] => ""
  | [x] => x
  | x :: l' => x +:+ sep +:+ Join l' sep
  end.

Fixpoint drop_spaces (l : list chunk) : list chunk :=
  match l with
  | c :: l' => if IsSpace c.1 then drop_spaces l' else l
  | [] => []
  end.

(** [strings.TrimSpace]. *)
Definition TrimSpace (s : string) : string :=
  bytes_of (reverse (drop_spaces (reverse (drop_spaces (runes s))))).

(** ** Splitting *)

(** [strings.Split(s, sep)] for a one-byte separator. *)
Fixpoint Split (s : string) (sep : ascii) : list string :=
  match s with
  | "" => [""]
  | String c s' =>
      if bool_decide (c = sep) then "" :: Split s' sep
      else match Split s' sep with
           | x :: l => String c x :: l
           | [] => [String c ""]
           end
  end.

(** [strings.Cut(s, sep)] for a one-byte separator. *)
Fixpoint Cut (s : string) (sep : ascii) : option (string * string) :=
  match s with
  | "" => None
  | String c s' =>
      if bool_decide (c = sep) then Some ("", s')
      else match Cut s' sep with
           | Some (before, after) => Some (String c before, after)
           | None => None
           end
  end.

(** Does a byte occur in a string? *)
Fixpoint str_has (c : ascii) (s : string) : bool :=
  match s with
  | "" => false
  | String c' s' => bool_decide (c' = c) || str_has c s'
  end.

(** ** Rendering *)

Definition hex_digit (n : Z) : ascii :=
  if n <? 10 then byte_of (48 + n) else byte_of (87 + n).

(** [hex.EncodeToString], also [fmt.Sprintf("%x", bytes)]. *)
Fixpoint hex_of (s : string) : string :=
  match s with
  | "" => ""
  | String c s' =>
      String (hex_digit (byte_val c `div` 16))
        (String (hex_digit (byte_val c `mod` 16)) (hex_of s'))
  end.

(** [strconv.Itoa], [FormatInt(_, 10)], [%d]. *)
Definition Itoa (z : Z) : string := pretty z.

Definition FormatBool (b : bool) : string := if b then "true" else "false".

(** ASCII case folding, which is all [strings.EqualFold] does on two strings
    one of which holds only ASCII letters other than k and s. *)
Definition fold_ascii (c : ascii) : ascii :=
  let b := byte_val c in if in_range 65 90 b then byte_of (b + 32) else c.

Fixpoint equal_fold_ascii (a b : string) : bool :=
  match a, b with
  | "", "" => true
  | String x a, String y b => bool_decide (fold_ascii x = fold_ascii y) && equal_fold_ascii a b
  | _, _ => false
  end.

(** One rune as [strconv.Quote] writes it. Runes above ASCII are taken to be
    printable, and so are left as they are. *)
Definition quote_rune (c : chunk) : string :=
  let '(r, bytes) := c in
  let esc (x : ascii) := String (byte_of 92) (String x "") in
  if (r =? RuneError) && (String.length bytes =? 1)%nat then esc (byte_of 120) +:+ hex_of bytes
  else if r =? 7 then esc (byte_of 97) else if r =? 8 then esc (byte_of 98)
  else if r =? 9 then esc (byte_of 116) else if r =? 10 then esc (byte_of 110)
  else if r =? 11 then esc (byte_of 118) else if r =? 12 then esc (byte_of 102)
  else if r =? 13 then esc (byte_of 114)
  else if (r =? 34) || (r =? 92) then esc (byte_of r)
  else if (r <? 32) || (r =? 127) then esc (byte_of 120) +:+ hex_of bytes
  else bytes.

(** The verb [%q]. *)
Definition quoted (s : string) : string :=
  String (byte_of 34) (foldr (λ c acc, quote_rune c +:+ acc) "" (runes s) +:+ String (byte_of 34) "").

(** ** Lemmas: strings *)

Lemma str_app_cons c a b : String c a +:+ b = String c (a +:+ b).
Proof. done. Qed.

Lemma str_app_nil_l b : "" +:+ b = b.
Proof. done. Qed.

Lemma str_app_length (a b : string) :
  String.length (a +:+ b) = (String.length a + String.length b)%nat.
Proof. induction a as [|c a IH]; [done|]. rewrite str_app_cons. simpl. by rewrite IH. Qed.

Lemma str_app_nil_r (a : string) : a +:+ "" = a.
Proof. induction a as [|c a IH]; [done|]. by rewrite str_app_cons, IH. Qed.

Lemma str_app_assoc (a b c : string) : a +:+ b +:+ c = (a +:+ b) +:+ c.
Proof. induction a as [|x a IH]; [done|]. by rewrite !str_app_cons, IH. Qed.

Lemma str_take_drop n s : str_take n s +:+ str_drop n s = s.
Proof.
  revert s. induction n as [|n IH]; intros [|c s]; simpl; [done..|].
  by rewrite str_app_cons, IH.
Qed.

Lemma str_take_length n s : (n ≤ String.length s)%nat → String.length (str_take n s) = n.
Proof.
  revert s. induction n as [|n IH]; intros [|c s] H; simpl in *; [done|done|lia|].
  rewrite IH; lia.
Qed.

Lemma str_drop_length n s : String.length (str_drop n s) = (String.length s - n)%nat.
Proof. revert s. induction n as [|n IH]; intros [|c s]; simpl; auto. Qed.

Lemma str_take_app a b : str_take (String.length a) (a +:+ b) = a.
Proof.
  induction a as [|c a IH]; [done|]. rewrite str_app_cons. simpl. by rewrite IH.
Qed.

Lemma str_drop_app a b : str_drop (String.length a) (a +:+ b) = b.
Proof. induction a as [|c a IH]; simpl; [done|]. by rewrite IH. Qed.

Lemma HasPrefix_app p s : HasPrefix (p +:+ s) p = true.
Proof.
  unfold HasPrefix. induction p as [|c p IH]; [by destruct s|].
  rewrite str_app_cons. simpl. destruct (Ascii.ascii_dec c c); [done|congruence].
Qed.

Lemma HasPrefix_spec p s : HasPrefix s p = true → s = p +:+ str_drop (String.length p) s.
Proof.
  unfold HasPrefix. revert s. induction p as [|c p IH]; intros [|d s] H; simpl in *; try done.
  destruct (Ascii.ascii_dec c d) as [->|]; [|done]. by rewrite str_app_cons, <- IH.
Qed.

Lemma str_has_app c a b : str_has c (a +:+ b) = str_has c a || str_has c b.
Proof.
  induction a as [|x a IH]; [done|]. rewrite str_app_cons. simpl. by rewrite IH, orb_assoc.
Qed.

(** A separator that does not occur in the first halves splits a string in one
    way only. *)
Lemma sep_split c a b a' b' :
  str_has c a = false → str_has c a' = false →
  a +:+ String c b = a' +:+ String c b' → a = a' ∧ b = b'.
Proof.
  revert a'. induction a as [|x a IH]; intros [|y a'] Ha Ha' Heq;
    rewrite ?str_app_cons, ?str_app_nil_l in Heq; simpl in *; simplify_eq.
  - done.
  - by rewrite bool_decide_eq_true_2 in Ha'.
  - by rewrite bool_decide_eq_true_2 in Ha.
  - apply orb_false_iff in Ha as [_ Ha]. apply orb_false_iff in Ha' as [_ Ha'].
    destruct (IH _ Ha Ha' H) as [-> ->]. done.
Qed.

Lemma byte_val_range c : 0 ≤ byte_val c < 256.
Proof.
  unfold byte_val. pose proof (Ascii.N_ascii_bounded c). lia.
Qed.

Lemma byte_of_val c : byte_of (byte_val c) = c.
Proof. unfold byte_of, byte_val. rewrite N2Z.id. apply Ascii.ascii_N_embedding. Qed.

Lemma byte_val_of z : 0 ≤ z < 256 → byte_val (byte_of z) = z.
Proof.
  intros Hz. unfold byte_of, byte_val. rewrite Ascii.N_ascii_embedding; lia.
Qed.

(** ** Lemmas: runes *)

Lemma decode1_width s r w : decode1 s = Some (r, w) → (1 ≤ w ≤ String.length s)%nat.
Proof.
  unfold decode1. intros H.
  destruct s as [|c0 [|c1 [|c2 [|c3 s]]]]; simpl in *; cases; simplify_eq; lia.
Qed.

Lemma decode1_None s : decode1 s = None → s = "".
Proof.
  unfold decode1. intros H. destruct s as [|c0 [|c1 [|c2 [|c3 s]]]]; simpl in *; [done|..];
    exfalso; cases; congruence.
Qed.

Lemma runes_fuel_enough n m s :
  (String.length s ≤ n)%nat → (String.length s ≤ m)%nat → runes_fuel n s = runes_fuel m s.
Proof.
  revert m s. induction n as [|n IH]; intros m s Hn Hm.
  - destruct s; [|simpl in Hn; lia]. by destruct m.
  - destruct m as [|m]; [destruct s; [done|simpl in Hm; lia]|]. simpl.
    destruct (decode1 s) as [[r w]|] eqn:Hd; [|done].
    apply decode1_width in Hd. f_equal. apply IH; rewrite str_drop_length; lia.
Qed.

Lemma runes_unfold s :
  runes s = match decode1 s with
            | None => []
            | Some (r, w) => (r, str_take w s) :: runes (str_drop w s)
            end.
Proof.
  unfold runes. destruct s as [|c s]; [done|].
  change (String.length (String c s)) with (S (String.length s)).
  change (runes_fuel (S (String.length s)) (String c s)) with
    (match decode1 (String c s) with
     | None => []
     | Some (r, w) => (r, str_take w (String c s)) :: runes_fuel (String.length s) (str_drop w (String c s))
     end).
  destruct (decode1 (String c s)) as [[r w]|] eqn:Hd; [|done].
  apply decode1_width in Hd. f_equal. apply runes_fuel_enough; [|done].
  rewrite str_drop_length. simpl in *. lia.
Qed.

(** Induction on a string, rune by rune. *)
Lemma rune_ind (P : string → Prop) :
  P "" →
  (∀ s r w, decode1 s = Some (r, w) → P (str_drop w s) → P s) →
  ∀ s, P s.
Proof.
  intros H0 HS s. remember (String.length s) as n eqn:Hn.
  assert (String.length s ≤ n)%nat as Hle by lia. clear Hn. revert s Hle.
  induction n as [|n IH]; intros s Hle.
  - destruct s; [done|simpl in Hle; lia].
  - destruct (decode1 s) as [[r w]|] eqn:Hd.
    + pose proof (decode1_width _ _ _ Hd). eapply HS; [done|]. apply IH.
      rewrite str_drop_length. lia.
    + by apply decode1_None in Hd as ->.
Qed.

(** Decoding loses no byte. *)
Lemma bytes_of_runes s : bytes_of (runes s) = s.
Proof.
  induction s as [|s r w Hd IH] using rune_ind; [done|].
  rewrite runes_unfold, Hd. simpl. rewrite IH. apply str_take_drop.
Qed.

Lemma runes_length_le s : (length (runes s) ≤ String.length s)%nat.
Proof.
  induction s as [|s r w Hd IH] using rune_ind; [done|].
  rewrite runes_unfold, Hd. simpl. rewrite str_drop_length in IH.
  apply decode1_width in Hd. lia.
Qed.

Lemma rune_count_bounds s : 0 ≤ rune_count s ≤ go_len s.
Proof. unfold rune_count, go_len. pose proof (runes_length_le s). lia. Qed.

Lemma runes_nil s : runes s = [] ↔ s = "".
Proof.
  split; [|by intros ->]. intros H. rewrite <- (bytes_of_runes s), H. done.
Qed.

Lemma rune_count_zero s : rune_count s = 0 ↔ s = "".
Proof.
  unfold rune_count. rewrite <- runes_nil. destruct (runes s); simpl; split; (done || lia).
Qed.

(** ** Lemmas: white space

    Decoding looks ahead, so cutting a string at white space could in principle
    change how its last bytes decode. It does not: no rune continues into an
    ASCII byte or past the end. *)

Fixpoint good (l : list chunk) : Prop :=
  match l with
  | [] => True
  | c :: l' => decode1 (c.2 +:+ bytes_of l') = Some (c.1, String.length c.2) ∧ good l'
  end.

Lemma good_runes s : good (runes s).
Proof.
  induction s as [|s r w Hd IH] using rune_ind; [done|].
  rewrite runes_unfold, Hd. simpl. split; [|done].
  rewrite bytes_of_runes, str_take_drop, Hd.
  rewrite str_take_length; [done|]. apply decode1_width in Hd. lia.
Qed.

Lemma runes_good l : good l → runes (bytes_of l) = l.
Proof.
  induction l as [|c l IH]; simpl; [done|]. intros [Hd Hl].
  rewrite runes_unfold, Hd, str_take_app, str_drop_app, IH by done. by destruct c.
Qed.

Definition ascii_tail (Y : string) : Prop :=
  match Y with "" => True | String a _ => byte_val a < 128 end.

Lemma cont_ascii b : b < 128 → cont b = false.
Proof. intros. unfold cont, in_range. apply andb_false_iff. left. lia. Qed.

Lemma second_ok_ascii b0 b : b < 128 → second_ok b0 b = false.
Proof.
  intros. unfold second_ok, in_range, second_lo. apply andb_false_iff. left.
  cases; lia.
Qed.

Lemma decode1_ascii c s : byte_val c < 128 → decode1 (String c s) = Some (byte_val c, 1%nat).
Proof. intros H. unfold decode1. by rewrite (proj2 (Z.ltb_lt _ _) H). Qed.

Lemma decode1_cut u X Y r k :
  u ≠ "" → ascii_tail Y → decode1 (u +:+ X) = Some (r, k) → (k ≤ String.length u)%nat →
  decode1 (u +:+ Y) = Some (r, k).
Proof.
  intros Hu HY Hd Hk. unfold decode1 in *.
  destruct u as [|c0 [|c1 [|c2 [|c3 u]]]]; [done|..];
    rewrite ?str_app_cons, ?str_app_nil_l in *; simpl in Hk; [| | |exact Hd];
    destruct Y as [|a Y]; simpl in HY;
    rewrite ?(cont_ascii (byte_val a)), ?(fun b => second_ok_ascii b (byte_val a)) by done;
    rewrite ?andb_false_r, ?andb_false_l; cases; simplify_eq; try done; try lia.
Qed.

Lemma bytes_of_app l1 l2 : bytes_of (l1 ++ l2) = bytes_of l1 +:+ bytes_of l2.
Proof. induction l1 as [|c l1 IH]; simpl; [done|]. by rewrite IH, str_app_assoc. Qed.

Lemma good_cut w tl tl' :
  good (w ++ tl) → ascii_tail (bytes_of tl') → good tl' → good (w ++ tl').
Proof.
  intros Hw Htl' Hg. induction w as [|c w IH]; [done|].
  simpl in Hw. destruct Hw as [Hd Hw]. simpl. split; [|by apply IH].
  rewrite bytes_of_app, str_app_assoc in *.
  eapply decode1_cut; [|done|exact Hd|rewrite str_app_length; lia].
  intros He. apply decode1_width in Hd. destruct (c.2); [simpl in Hd; lia|done].
Qed.

Lemma good_app_r l1 l2 : good (l1 ++ l2) → good l2.
Proof. induction l1 as [|c l1 IH]; simpl; [done|]. intros [_ H]. auto. Qed.

Definition space_chunk : chunk := (32, " ").

(** The chunks of [Join (bytes_of <$> ws) " "]. *)
Fixpoint spaced (ws : list (list chunk)) : list chunk :=
  match ws with
  | [] => []
  | [w] => w
  | w :: ws' => w ++ space_chunk :: spaced ws'
  end.

Lemma Join_spaced ws : Join (bytes_of <$> ws) " " = bytes_of (spaced ws).
Proof.
  induction ws as [|w [|w' ws] IH]; [done..|].
  change (Join (bytes_of <$> w :: w' :: ws) " ")
    with (bytes_of w +:+ " " +:+ Join (bytes_of <$> w' :: ws) " ").
  change (spaced (w :: w' :: ws)) with (w ++ space_chunk :: spaced (w' :: ws)).
  by rewrite IH, bytes_of_app.
Qed.

Definition space_led (l : list chunk) : Prop :=
  match l with [] => True | c :: _ => IsSpace c.1 = true end.

Definition a_word (w : list chunk) : Prop :=
  w ≠ [] ∧ Forall (λ c, IsSpace c.1 = false) w.

Lemma words_head (d : chunk) (l : list chunk) :
  IsSpace d.1 = false →
  ∃ w tl, d :: l = (d :: w) ++ tl ∧ Forall (λ c, IsSpace c.1 = false) (d :: w) ∧ space_led tl.
Proof.
  revert d. induction l as [|e l IH]; intros d Hd.
  - exists [], []. by repeat constructor.
  - destruct (IsSpace e.1) eqn:He.
    + exists [], (e :: l). by repeat constructor.
    + destruct (IH e He) as (w & tl & Heq & Hall & Htl). exists (e :: w), tl.
      rewrite Heq. repeat split; [|done]. by constructor.
Qed.

Lemma words_word w tl : a_word w → space_led tl → words (w ++ tl) = w :: words tl.
Proof.
  intros [Hne Hall] Htl. induction w as [|c w IH]; [done|].
  apply Forall_cons_1 in Hall as [Hc Hall]. simpl. rewrite Hc.
  destruct w as [|d w]; simpl.
  - destruct tl as [|e tl]; [done|]. simpl in Htl. simpl. by rewrite Htl.
  - apply Forall_cons_1 in Hall as Hall'. destruct Hall' as [Hd _]. rewrite Hd.
    specialize (IH ltac:(done) Hall). simpl in IH. rewrite Hd in IH. by rewrite IH.
Qed.

(** Induction on a list of chunks, word by word. *)
Lemma words_ind (P : list chunk → Prop) :
  P [] →
  (∀ c l, IsSpace c.1 = true → P l → P (c :: l)) →
  (∀ w tl, a_word w → space_led tl → P tl → P (w ++ tl)) →
  ∀ l, P l.
Proof.
  intros H0 Hs Hw l. remember (length l) as n eqn:Hn.
  assert (length l ≤ n)%nat as Hle by lia. clear Hn. revert l Hle.
  induction n as [|n IH]; intros [|c l] Hle; simpl in Hle; [done|lia|done|].
  destruct (IsSpace c.1) eqn:Hc; [apply Hs; [done|apply IH; lia]|].
  destruct (words_head c l Hc) as (w & tl & Heq & Hall & Htl). rewrite Heq.
  apply Hw; [by split|done|]. apply IH.
  apply (f_equal length) in Heq. rewrite length_app in Heq. simpl in Heq. lia.
Qed.

Lemma words_are_words l : Forall a_word (words l).
Proof.
  induction l as [|c l Hc IH|w tl Hw Htl IH] using words_ind; [constructor| |].
  - simpl. by rewrite Hc.
  - rewrite words_word by done. by constructor.
Qed.

Lemma good_spaced l : good l → good (spaced (words l)).
Proof.
  induction l as [|c l Hc IH|w tl Hw Htl IH] using words_ind; intros Hg; [done| |].
  - simpl. rewrite Hc. apply IH, Hg.
  - rewrite words_word by done. specialize (IH (good_app_r _ _ Hg)).
    destruct (words tl) as [|w' ws] eqn:Hws.
    + rewrite <- (app_nil_r (spaced [w])). by apply (good_cut _ tl).
    + change (spaced (w :: w' :: ws)) with (w ++ space_chunk :: spaced (w' :: ws)).
      apply (good_cut _ tl); [done|by vm_compute|]. split; [|done].
      apply decode1_ascii. by vm_compute.
Qed.

Lemma words_spaced ws : Forall a_word ws → words (spaced ws) = ws.
Proof.
  induction ws as [|w [|w' ws] IH]; intros Hall; [done| |].
  - apply Forall_cons_1 in Hall as [Hw _]. simpl.
    rewrite <- (app_nil_r w) at 1. by rewrite words_word.
  - apply Forall_cons_1 in Hall as [Hw Hall].
    change (spaced (w :: w' :: ws)) with (w ++ space_chunk :: spaced (w' :: ws)).
    rewrite words_word by done.
    change (words (space_chunk :: spaced (w' :: ws))) with (words (spaced (w' :: ws))).
    by rewrite IH.
Qed.

(** Joining the fields of a string with single blanks keeps its fields. *)
Lemma Fields_Join s : Fields (Join (Fields s) " ") = Fields s.
Proof.
  unfold Fields. rewrite Join_spaced, runes_good by apply good_spaced, good_runes.
  by rewrite words_spaced by apply words_are_words.
Qed.

(** ** Decimal integers *)

Definition is_digit (c : ascii) : bool := in_range 48 57 (byte_val c).

(** The value of a string of digits, from the left. *)
Fixpoint digits_val (acc : Z) (s : string) : option Z :=
  match s with
  | "" => Some acc
  | String c s' => if is_digit c then digits_val (10 * acc + (byte_val c - 48)) s' else None
  end%string.

(** [strconv.ParseInt(s, 10, bits)]; [None] is a syntax or range error. *)
Definition ParseInt (s : string) (bits : Z) : option Z :=
  let parse body sign :=
    if String.eqb body "" then None
    else match digits_val 0 body with
         | Some v => if in_range (- 2 ^ (bits - 1)) (2 ^ (bits - 1) - 1) (sign * v)
                     then Some (sign * v) else None
         | None => None
         end in
  match s with
  | String c body =>
      if (byte_val c =? 43)%Z then parse body 1
      else if (byte_val c =? 45)%Z then parse body (-1)
      else parse s 1
  | "" => None
  end%string.

Lemma digit_char_val x : (x < 10)%N → byte_val (pretty_N_char x) = 48 + Z.of_N x.
Proof.
  intros Hx. assert (x = 0 ∨ x = 1 ∨ x = 2 ∨ x = 3 ∨ x = 4 ∨ x = 5 ∨ x = 6 ∨ x = 7 ∨ x = 8 ∨ x = 9)%N
    as Hor by lia.
  by repeat destruct Hor as [->|Hor]; [..|subst].
Qed.

Lemma pretty_N_go_all (P : ascii → Prop) x s :
  (∀ y, (y < 10)%N → P (pretty_N_char y)) →
  (∀ c, str_has c s = true → P c) → ∀ c, str_has c (pretty_N_go x s) = true → P c.
Proof.
  intros HP. revert s. induction (N.lt_wf_0 x) as [x _ IH]. intros s Hs c.
  destruct (decide (0 < x)%N) as [Hx|Hx].
  - rewrite pretty_N_go_step by done. apply IH; [by apply N.div_lt|].
    intros c'. simpl. intros [Heq|Hin]%orb_true_iff; [|by apply Hs].
    apply bool_decide_eq_true in Heq as <-. apply HP. apply N.mod_lt. lia.
  - replace x with 0%N by lia. rewrite pretty_N_go_0. apply Hs.
Qed.

(** [Itoa] writes digits, after a minus sign when negative. *)
Lemma Itoa_chars z c : str_has c (Itoa z) = true → is_digit c = true ∨ byte_val c = 45.
Proof.
  assert (∀ x c', str_has c' (pretty_N_go x "") = true → is_digit c' = true) as Hgo.
  { intros x. apply pretty_N_go_all; [|done]. intros y Hy. unfold is_digit, in_range.
    rewrite digit_char_val by done. apply andb_true_iff. rewrite !Z.leb_le. lia. }
  unfold Itoa. destruct z as [|p|p]; intros H.
  - simpl in H. apply orb_true_iff in H as [H|]; [|done].
    apply bool_decide_eq_true in H as <-. by left.
  - left. exact (Hgo (N.pos p) _ H).
  - change (pretty (Z.neg p)) with ("-" +:+ pretty (Z.pos p)) in H.
    rewrite str_app_cons, str_app_nil_l in H. simpl in H. apply orb_true_iff in H as [H|H].
    + apply bool_decide_eq_true in H as <-. by right.
    + left. exact (Hgo (N.pos p) _ H).
Qed.

Lemma is_digit_char y : (y < 10)%N → is_digit (pretty_N_char y) = true.
Proof.
  intros Hy. unfold is_digit, in_range. rewrite digit_char_val by done.
  apply andb_true_iff. rewrite !Z.leb_le. lia.
Qed.

Lemma digits_val_go x s : digits_val 0 (pretty_N_go x s) = digits_val (Z.of_N x) s.
Proof.
  revert s. induction (N.lt_wf_0 x) as [x _ IH]. intros s.
  destruct (decide (0 < x)%N) as [Hx|Hx].
  - rewrite pretty_N_go_step by done. rewrite IH by (by apply N.div_lt). simpl.
    assert (x `mod` 10 < 10)%N as Hm by (apply N.mod_lt; lia).
    rewrite is_digit_char, digit_char_val by done. f_equal.
    pose proof (N.div_mod' x 10). lia.
  - replace x with 0%N by lia. by rewrite pretty_N_go_0.
Qed.

Lemma pretty_N_go_nonempty x : (0 < x)%N → pretty_N_go x "" ≠ "".
Proof.
  intros Hx Heq. pose proof (digits_val_go x "") as H. rewrite Heq in H. simpl in H.
  simplify_eq. lia.
Qed.

Lemma ParseInt_Itoa z bits :
  - 2 ^ (bits - 1) ≤ z < 2 ^ (bits - 1) → ParseInt (Itoa z) bits = Some z.
Proof.
  intros Hz.
  assert (in_range (- 2 ^ (bits - 1)) (2 ^ (bits - 1) - 1) z = true) as Hin
    by (unfold in_range; apply andb_true_iff; rewrite !Z.leb_le; lia).
  assert (∀ p, digits_val 0 (pretty (Z.pos p)) = Some (Z.pos p)) as Hval
    by (intros p; apply (digits_val_go (N.pos p) "")).
  assert (∀ p, String.eqb (pretty (Z.pos p)) "" = false) as Hne
    by (intros p; apply String.eqb_neq, (pretty_N_go_nonempty (N.pos p)); lia).
  unfold Itoa, ParseInt. destruct z as [|p|p].
  - transitivity (if in_range (- 2 ^ (bits - 1)) (2 ^ (bits - 1) - 1) 0 then Some 0 else None);
      [reflexivity|by rewrite Hin].
  - pose proof (Hval p) as Hv. pose proof (Hne p) as Hnp.
    destruct (pretty (Z.pos p)) as [|c s] eqn:Hp; [done|].
    assert (is_digit c = true) as Hd by (simpl in Hv; by destruct (is_digit c)).
    unfold is_digit, in_range in Hd. apply andb_true_iff in Hd as [H1 H2]. zbool.
    rewrite (proj2 (Z.eqb_neq (byte_val c) 43)), (proj2 (Z.eqb_neq (byte_val c) 45)) by lia.
    rewrite Hnp, Hv, Z.mul_1_l. by rewrite Hin.
  - change (pretty (Z.neg p)) with (String (byte_of 45) (pretty (Z.pos p))).
    change (byte_val (byte_of 45)) with 45.
    change (45 =? 43) with false. change (45 =? 45) with true. cbv beta iota zeta.
    rewrite Hne, Hval. replace (-1 * Z.pos p) with (Z.neg p) by lia. by rewrite Hin.
Qed.

(** [Join] can be undone when the separator occurs in no element. *)
Lemma Join_inj c l1 l2 :
  Forall (λ s, str_has c s = false) l1 → Forall (λ s, str_has c s = false) l2 →
  length l1 = length l2 →
  Join l1 (String c "") = Join l2 (String c "") → l1 = l2.
Proof.
  revert l2. induction l1 as [|x l1 IH]; intros [|y l2] H1 H2 Hlen Heq; try done.
  apply Forall_cons_1 in H1 as [Hx H1]. apply Forall_cons_1 in H2 as [Hy H2].
  simpl in Hlen. destruct l1 as [|x' l1], l2 as [|y' l2]; try done; [simpl in Heq; by subst|].
  change (x +:+ String c "" +:+ Join (x' :: l1) (String c "") =
          y +:+ String c "" +:+ Join (y' :: l2) (String c "")) in Heq.
  rewrite !(str_app_cons c), !str_app_nil_l in Heq.
  apply sep_split in Heq as [-> Heq]; [|done..]. f_equal. apply IH; auto.
Qed.

Lemma str_has_Join c sep l :
  str_has c sep = false → Forall (λ s, str_has c s = false) l → str_has c (Join l sep) = false.
Proof.
  intros Hsep Hl. induction Hl as [|x l Hx Hl IH]; [done|].
  destruct l as [|y l]; [done|].
  change (Join (x :: y :: l) sep) with (x +:+ sep +:+ Join (y :: l) sep).
  by rewrite !str_has_app, Hx, Hsep, IH.
Qed.

(** ** Error texts *)

(** Drop the zeros a rendered fraction ends in. *)
Fixpoint rstrip_zeros (fuel : nat) (digits width : Z) : Z * Z :=
  match fuel with
  | O => (digits, width)
  | S fuel' => if (digits `mod` 10 =? 0) && (0 <? width)
               then rstrip_zeros fuel' (digits `div` 10) (width - 1) else (digits, width)
  end.

Fixpoint pad_zeros (n : nat) (s : string) : string :=
  match n with O => s | S n' => String (byte_of 48) (pad_zeros n' s) end.

(** [Duration.String] of a duration of a second or more. *)
Definition Duration_String (d : Z) : string :=
  let secs := d `div` Second in
  let '(frac, width) := rstrip_zeros 9 (d `mod` Second) 9 in
  let f := if width =? 0 then ""
           else "." +:+ pad_zeros (Z.to_nat width - String.length (Itoa frac)) (Itoa frac) in
  let m := secs `div` 60 in
  (if m <? 60 then (if m =? 0 then "" else Itoa m +:+ "m")
   else Itoa (m `div` 60) +:+ "h" +:+ Itoa (m `mod` 60) +:+ "m")
    +:+ Itoa (secs `mod` 60) +:+ f +:+ "s".

Definition GrpcCode_String (c : GrpcCode) : string :=
  match c with
  | CodeUnknown => "Unknown"
  | CodeResourceExhausted => "ResourceExhausted"
  | CodeOther 0 => "OK" | CodeOther 1 => "Canceled" | CodeOther 3 => "InvalidArgument"
  | CodeOther 4 => "DeadlineExceeded" | CodeOther 5 => "NotFound" | CodeOther 6 => "AlreadyExists"
  | CodeOther 7 => "PermissionDenied" | CodeOther 9 => "FailedPrecondition"
  | CodeOther 10 => "Aborted" | CodeOther 11 => "OutOfRange" | CodeOther 12 => "Unimplemented"
  | CodeOther 13 => "Internal" | CodeOther 14 => "Unavailable" | CodeOther 15 => "DataLoss"
  | CodeOther 16 => "Unauthenticated"
  | CodeOther n => "Code(" +:+ Itoa n +:+ ")"
  end.

(** [err.Error()]. *)
Fixpoint Error_String (e : gerr) : string :=
  match e with
  | ESentinel s => sentinel_msg s
  | ENew msg => msg
  | EWrap pre e post => pre +:+ Error_String e +:+ post
  | EWrap2 pre e1 mid e2 post => pre +:+ Error_String e1 +:+ mid +:+ Error_String e2 +:+ post
  | EStatus code msg => "rpc error: code = " +:+ GrpcCode_String code +:+ " desc = " +:+ msg
  | EOverload o => "overloaded: class=" +:+ ov_Class o +:+ " retry_after="
                     +:+ Duration_String (ov_RetryAfter o)
  | EInvalidRange reason => reason
  end.

Example Duration_String_tests :
  Duration_String Second = "1s" ∧ Duration_String (1500 * Millisecond) = "1.5s" ∧
  Duration_String (90 * Second) = "1m30s" ∧ Duration_String (3605 * Second) = "1h0m5s".
Proof. by vm_compute. Qed.
