(* ===== verification/Float.v ===== *)
(** * Floating point

    Go's [float64] and [float32] (and Lua's numbers) are IEEE 754 binary
    formats with rounding to nearest, ties to even. [SpecFloat], the standard
    library's executable specification of them, is the model; this file names
    the operations the gateway uses and proves what the other files need: where a
    product of two positive doubles lands, and that on integers below 2^53 the
    operations are exact. *)

From stdpp Require Import base gmap strings list pretty numbers.
From Stdlib Require Import SpecFloat.
From S2P Require Import Prelude GoString.

Definition f64_of_Z (z : Z) : spec_float := binary_normalize 53 1024 z 0 false.
Definition f64_add : spec_float → spec_float → spec_float := SFadd 53 1024.
Definition f64_sub : spec_float → spec_float → spec_float := SFsub 53 1024.
Definition f64_mul : spec_float → spec_float → spec_float := SFmul 53 1024.
Definition f64_div : spec_float → spec_float → spec_float := SFdiv 53 1024.

(** Conversion to an integer truncates towards zero. Go leaves the result of an
    out-of-range conversion to the implementation; no use here is out of range. *)
Definition f64_trunc (x : spec_float) : Z :=
  match x with
  | S754_finite s m e => cond_Zopp s (Z.shiftl (Z.pos m) e)
  | _ => 0
  end.

(** [math.Ceil] and [math.Floor] of a finite number, as integers. *)
Definition f64_floor (x : spec_float) : Z :=
  match x with
  | S754_finite s m e => Z.shiftl (cond_Zopp s (Z.pos m)) e
  | _ => 0
  end.
Definition f64_ceil (x : spec_float) : Z := - f64_floor (SFopp x).

(** Round a non-negative rational to the nearest integer, ties to even. *)
Definition round_half_even (num den : Z) : Z :=
  let q := num `div` den in
  let r := num `mod` den in
  if 2 * r <? den then q
  else if den <? 2 * r then q + 1
  else if Z.even q then q else q + 1.

Definition pad4 (n : Z) : string :=
  Itoa (n `div` 1000) +:+ Itoa ((n `div` 100) `mod` 10)
    +:+ Itoa ((n `div` 10) `mod` 10) +:+ Itoa (n `mod` 10).

(** [strconv.FormatFloat(v, 'f', 4, 64)]: the exact value, rounded to four
    decimals. *)
Definition FormatFloat4 (v : spec_float) : string :=
  match v with
  | S754_zero s => (if s then "-" else "") +:+ "0.0000"
  | S754_infinity s => if s then "-Inf" else "+Inf"
  | S754_nan => "NaN"
  | S754_finite s m e =>
      let n := if 0 <=? e then Z.pos m * 2 ^ e * 10000
               else round_half_even (Z.pos m * 10000) (2 ^ (- e)) in
      (if s then "-" else "") +:+ Itoa (n `div` 10000) +:+ "." +:+ pad4 (n `mod` 10000)
  end.

(** ** Lemmas *)

Lemma digits2_pos_bounds p :
  2 ^ (Z.pos (digits2_pos p) - 1) ≤ Z.pos p < 2 ^ Z.pos (digits2_pos p).
Proof.
  induction p as [p IH|p IH|]; simpl digits2_pos; [| |by vm_compute].
  all: rewrite Pos2Z.inj_succ, Z.pow_succ_r by lia.
  all: replace (Z.succ (Z.pos (digits2_pos p)) - 1) with (Z.succ (Z.pos (digits2_pos p) - 1)) by lia.
  all: rewrite Z.pow_succ_r by lia; lia.
Qed.

Lemma Zdigits2_bounds m : 0 < m → 2 ^ (Zdigits2 m - 1) ≤ m < 2 ^ Zdigits2 m ∧ 0 < Zdigits2 m.
Proof.
  destruct m as [|p|p]; [lia| |lia]. intros _. simpl.
  pose proof (digits2_pos_bounds p). lia.
Qed.

(** What the shifted record remembers of the bits shifted out. *)
Definition shr_inv (m n : Z) (r : shr_record) : Prop :=
  ∃ rem, m = 2 ^ n * shr_m r + rem ∧ 0 ≤ rem < 2 ^ n ∧ 0 ≤ shr_m r ∧
    match shr_r r, shr_s r with
    | false, false => rem = 0
    | false, true => 0 < 2 * rem < 2 ^ n
    | true, false => 2 * rem = 2 ^ n
    | true, true => 2 ^ n < 2 * rem
    end.

Lemma shr_inv_step m n r : 0 ≤ n → shr_inv m n r → shr_inv m (n + 1) (shr_1 r).
Proof.
  intros Hn (rem & Hm & Hrem & Hpos & Hloc). unfold shr_inv.
  rewrite Z.pow_add_r by lia. change (2 ^ 1) with 2.
  generalize dependent (2 ^ n). intros N Hm Hrem Hloc.
  destruct r as [[|[p|p|]|p] b s]; simpl in *; [..|lia].
  - exists rem. destruct b, s; simpl; lia.
  - exists (N + rem). rewrite Pos2Z.inj_xI in Hm. destruct b, s; simpl; split_and!; nia.
  - exists rem. rewrite Pos2Z.inj_xO in Hm. destruct b, s; simpl; split_and!; lia.
  - exists (N + rem). destruct b, s; simpl; split_and!; lia.
Qed.

Lemma iter_shr_inv m p r n :
  0 ≤ n → shr_inv m n r → shr_inv m (n + Z.pos p) (iter_pos shr_1 p r).
Proof.
  revert r n. induction p as [p IH|p IH|]; intros r n Hn Hr; simpl.
  - specialize (IH _ (n + 1) ltac:(lia) (shr_inv_step _ _ _ Hn Hr)) as H1.
    specialize (IH _ (n + 1 + Z.pos p) ltac:(lia) H1) as H2.
    replace (n + Z.pos p~1) with (n + 1 + Z.pos p + Z.pos p) by lia. done.
  - specialize (IH _ n Hn Hr) as H1. specialize (IH _ (n + Z.pos p) ltac:(lia) H1) as H2.
    replace (n + Z.pos p~0) with (n + Z.pos p + Z.pos p) by lia. done.
  - by apply shr_inv_step.
Qed.

Lemma round_shr_inv m n r :
  0 ≤ n → shr_inv m n r →
  let q := round_nearest_even (shr_m r) (loc_of_shr_record r) in
  2 * Z.abs (q * 2 ^ n - m) ≤ 2 ^ n ∧ m `div` 2 ^ n ≤ q ≤ m `div` 2 ^ n + 1.
Proof.
  intros Hn (rem & Hm & Hrem & Hpos & Hloc).
  assert (m `div` 2 ^ n = shr_m r) as Hdiv.
  { rewrite Hm, Z.mul_comm, Z.div_add_l, Z.div_small; lia. }
  rewrite Hdiv. clear Hdiv. generalize dependent (2 ^ n). intros N Hm Hrem Hloc.
  destruct r as [q b s]; simpl in *.
  destruct b, s; simpl; try (destruct (Z.even q)); split; try lia; nia.
Qed.

Lemma Zdigits2_le m d : 0 < m → 0 ≤ d → m < 2 ^ d → Zdigits2 m ≤ d.
Proof.
  intros Hm Hd Hlt. destruct (Zdigits2_bounds m Hm) as [[Hlo _] Hpos].
  destruct (Z.le_gt_cases (Zdigits2 m) d); [done|].
  assert (2 ^ d ≤ 2 ^ (Zdigits2 m - 1)) by (apply Z.pow_le_mono_r; lia). lia.
Qed.

(** Renormalising after the rounding: the mantissa may have reached [2^53]. *)
Lemma shr_fexp_renorm q e :
  0 < q ≤ 2 ^ 53 → -900 ≤ e ≤ 900 →
  ∃ p e', shr_m (shr_fexp 53 1024 q e loc_Exact).1 = Z.pos p ∧
    (shr_fexp 53 1024 q e loc_Exact).2 = e' ∧ e' ≤ 971 ∧ Z.shiftl (Z.pos p) e' = Z.shiftl q e.
Proof.
  intros Hq He. destruct (Z.eq_dec q (2 ^ 53)) as [->|Hne].
  - unfold shr_fexp. change (Zdigits2 (2 ^ 53)) with 54.
    replace (fexp 53 1024 (54 + e) - e) with 1 by (unfold fexp, SpecFloat.emin; lia).
    exists (2 ^ 52)%positive, (e + 1). split_and!; [done|done|lia|].
    rewrite Z.add_comm, <-Z.shiftl_shiftl by lia. done.
  - pose proof (Zdigits2_le q 53 ltac:(lia) ltac:(lia) ltac:(lia)).
    unfold shr_fexp.
    assert (fexp 53 1024 (Zdigits2 q + e) - e ≤ 0) as Hle
      by (unfold fexp, SpecFloat.emin; lia).
    destruct q as [|p|p]; [lia| |lia]. exists p, e.
    destruct (_ - e) as [|p'|p']; [|lia|]; simpl; split_and!; auto; lia.
Qed.

(** Rounding a positive mantissa to 53 bits: [q] is the rounded quotient by
    [2^k], and the truncated result is [q * 2^(k+e)] truncated. *)
Lemma round_aux_trunc m e :
  0 < m → -900 ≤ e → Zdigits2 m + e ≤ 900 →
  let k := Z.max 0 (Zdigits2 m - 53) in
  ∃ q, 2 * Z.abs (q * 2 ^ k - m) ≤ 2 ^ k ∧ m `div` 2 ^ k ≤ q ∧
    f64_trunc (binary_round_aux 53 1024 false m e loc_Exact) = Z.shiftl q (k + e).
Proof.
  intros Hm He Hd k. destruct (Zdigits2_bounds m Hm) as [Hdig Hdpos].
  set (q := round_nearest_even (shr_m (shr_fexp 53 1024 m e loc_Exact).1)
              (loc_of_shr_record (shr_fexp 53 1024 m e loc_Exact).1)).
  assert (2 * Z.abs (q * 2 ^ k - m) ≤ 2 ^ k ∧ m `div` 2 ^ k ≤ q ≤ m `div` 2 ^ k + 1 ∧
          (shr_fexp 53 1024 m e loc_Exact).2 = e + k) as (Hnear & Hfl & Hexp).
  { assert (fexp 53 1024 (Zdigits2 m + e) - e ≤ 0 ∧ k = 0 ∨
            fexp 53 1024 (Zdigits2 m + e) - e = k ∧ 0 < k) as Hk
      by (unfold fexp, SpecFloat.emin, k; lia).
    subst q. unfold shr_fexp. simpl shr_record_of_loc.
    destruct Hk as [[Hk Hk0]|[-> Hk]].
    - rewrite Hk0. destruct (_ - e) as [|p|p]; [|lia|];
        simpl; rewrite Z.div_1_r; repeat split; lia.
    - destruct k as [|p|p] eqn:Hkp; [lia| |lia].
      assert (shr_inv m (0 + Z.pos p) (iter_pos shr_1 p
                {| shr_m := m; shr_r := false; shr_s := false |})) as Hinv.
      { apply iter_shr_inv; [done|]. exists 0. simpl. repeat split; lia. }
      apply round_shr_inv in Hinv as [H1 H2]; [|lia]. rewrite Z.add_0_l in *. done. }
  exists q. split_and!; [done|lia|].
  assert (0 < q ≤ 2 ^ 53) as Hq.
  { assert (k = 0 ∧ m < 2 ^ 53 ∨ Zdigits2 m = 53 + k ∧ 0 < k) as [[-> Hlt]|[Hk Hk0]].
    { subst k. destruct (Z.le_gt_cases (Zdigits2 m) 53); [left|right; lia].
      split; [lia|]. eapply Z.lt_le_trans; [apply Hdig|]. apply Z.pow_le_mono_r; lia. }
    - change (2 ^ 0) with 1 in *. rewrite Z.div_1_r in Hfl. lia.
    - rewrite Hk in Hdig. rewrite Z.pow_add_r in Hdig by lia.
      replace (53 + k - 1) with (52 + k) in Hdig by lia. rewrite Z.pow_add_r in Hdig by lia.
      assert (2 ^ 52 ≤ m `div` 2 ^ k < 2 ^ 53) as [? ?].
      { split; [apply Z.div_le_lower_bound|apply Z.div_lt_upper_bound]; lia. }
      lia. }
  unfold binary_round_aux. destruct (shr_fexp 53 1024 m e loc_Exact) as [r e'] eqn:Hshr.
  simpl in Hexp, q. subst e'.
  destruct (shr_fexp_renorm q (e + k) Hq) as (p & e'' & Hp & He'' & Hmax & Hshift); [lia|].
  fold q. destruct (shr_fexp 53 1024 q (e + k) loc_Exact) as [r' e3]. simpl in Hp, He''.
  subst e3. rewrite Hp. rewrite (proj2 (Z.leb_le e'' (1024 - 53))) by lia.
  simpl. by rewrite Hshift, (Z.add_comm k).
Qed.

Lemma shr_fexp_noop m e :
  fexp 53 1024 (Zdigits2 m + e) - e ≤ 0 →
  shr_fexp 53 1024 m e loc_Exact = ({| shr_m := m; shr_r := false; shr_s := false |}, e).
Proof.
  intros H. unfold shr_fexp. destruct (_ - e) as [|p|p]; [done|lia|done].
Qed.

Lemma Zdigits2_unique m d : 0 < d → 2 ^ (d - 1) ≤ m < 2 ^ d → Zdigits2 m = d.
Proof.
  intros Hd [Hlo Hhi]. assert (0 < 2 ^ (d - 1)) by (apply Z.pow_pos_nonneg; lia).
  pose proof (Zdigits2_le m d ltac:(lia) ltac:(lia) Hhi).
  destruct (Zdigits2_bounds m ltac:(lia)) as [[_ Hup] Hpos].
  destruct (Z.le_gt_cases d (Zdigits2 m)); [lia|].
  assert (2 ^ Zdigits2 m ≤ 2 ^ (d - 1)) by (apply Z.pow_le_mono_r; lia). lia.
Qed.

(** Shifting out zeros loses nothing. *)
Lemma shr_exact m q :
  0 ≤ m →
  iter_pos shr_1 q {| shr_m := m * 2 ^ Z.pos q; shr_r := false; shr_s := false |} =
    {| shr_m := m; shr_r := false; shr_s := false |}.
Proof.
  intros Hm. assert (0 < 2 ^ Z.pos q) as HN by (apply Z.pow_pos_nonneg; lia).
  assert (shr_inv (m * 2 ^ Z.pos q) (0 + Z.pos q)
    (iter_pos shr_1 q {| shr_m := m * 2 ^ Z.pos q; shr_r := false; shr_s := false |})) as Hinv.
  { apply iter_shr_inv; [done|]. exists 0. cbn [shr_m shr_r shr_s]. change (2 ^ 0) with 1. repeat split; nia. }
  destruct (iter_pos _ _ _) as [r b s]. destruct Hinv as (rem & Heq & Hrem & Hr & Hbs). cbn [shr_m shr_r shr_s] in *.
  rewrite Z.add_0_l in *. generalize dependent (2 ^ Z.pos q). intros N HN Heq Hrem Hbs.
  assert (N * (m - r) = rem) as Hmr by lia.
  assert (m - r < 1) as H1 by (apply Z.nle_gt; intros H1; nia).
  assert (- 1 < m - r) as H2 by (apply Z.nle_gt; intros H2; nia).
  assert (r = m) as -> by lia. assert (rem = 0) as -> by lia. destruct b, s; [lia..|done].
Qed.

(** A 53-bit mantissa with zeros after it is not rounded. *)
Lemma round_exact m n e :
  2 ^ 52 ≤ Z.pos m < 2 ^ 53 → 0 ≤ n → -900 ≤ e ≤ 900 →
  binary_round_aux 53 1024 false (Z.pos m * 2 ^ n) (e - n) loc_Exact = S754_finite false m e.
Proof.
  intros Hm Hn He.
  assert (Zdigits2 (Z.pos m * 2 ^ n) = 53 + n) as Hd.
  { apply Zdigits2_unique; [lia|]. replace (53 + n - 1) with (52 + n) by lia. rewrite !Z.pow_add_r by lia.
    assert (0 < 2 ^ n) by (apply Z.pow_pos_nonneg; lia). generalize dependent (2 ^ n). intros N HN.
    change (2 ^ 53) with (2 * 2 ^ 52) in *. nia. }
  unfold binary_round_aux.
  assert (shr_fexp 53 1024 (Z.pos m * 2 ^ n) (e - n) loc_Exact =
    ({| shr_m := Z.pos m; shr_r := false; shr_s := false |}, e)) as ->.
  { unfold shr_fexp. rewrite Hd. replace (fexp 53 1024 (53 + n + (e - n)) - (e - n)) with n
      by (unfold fexp, SpecFloat.emin; lia). cbn [shr_record_of_loc].
    destruct n as [|q|q]; [|by cbn [shr]; rewrite shr_exact by lia; f_equal; lia|lia].
    cbn [shr]. rewrite Z.sub_0_r. change (2 ^ 0) with 1. by rewrite Z.mul_1_r. }
  cbn [round_nearest_even shr_m loc_of_shr_record].
  assert (Zdigits2 (Z.pos m) = 53) as Hdm by (by apply Zdigits2_unique).
  rewrite shr_fexp_noop by (rewrite Hdm; unfold fexp, SpecFloat.emin; lia). cbn [shr_m].
  by rewrite (proj2 (Z.leb_le e (1024 - 53))) by lia.
Qed.

Lemma shl_align_fst m e e' : e' ≤ e → Z.pos (shl_align m e e').1 = Z.pos m * 2 ^ (e - e').
Proof.
  intros He. unfold shl_align. destruct (e' - e) as [|p|p] eqn:Hp; [|lia|]; cbn [fst].
  - replace (e - e') with 0 by lia. lia.
  - change (PosDef.Pos.iter xO m p) with (Zpower.shift_pos p m). rewrite Zpower.shift_pos_correct.
    replace (e - e') with (Z.pos p) by lia. change (2 ^ Z.pos p) with (Z.pow_pos 2 p). lia.
Qed.

(** An integer of at most 53 bits, however it is scaled, is a double, exactly. *)
Lemma normalize_exact L k :
  0 < L < 2 ^ 53 → 0 ≤ k ≤ 52 →
  let d := Zdigits2 L in
  ∃ m, binary_normalize 53 1024 (L * 2 ^ k) (- k) false = S754_finite false m (d - 53) ∧
       Z.pos m = L * 2 ^ (53 - d) ∧ 0 < d ≤ 53 ∧ 2 ^ 52 ≤ Z.pos m < 2 ^ 53.
Proof.
  intros HL Hk d.
  destruct (Zdigits2_bounds L ltac:(lia)) as [Hdig Hd0]. fold d in Hdig, Hd0.
  pose proof (Zdigits2_le L 53 ltac:(lia) ltac:(lia) ltac:(lia)) as Hd53. fold d in Hd53.
  assert (0 < 2 ^ k) by (apply Z.pow_pos_nonneg; lia).
  assert (0 < 2 ^ (53 - d)) by (apply Z.pow_pos_nonneg; lia).
  assert (2 ^ 52 ≤ L * 2 ^ (53 - d) < 2 ^ 53) as Hm53.
  { replace (2 ^ 52) with (2 ^ (d - 1) * 2 ^ (53 - d)) by (rewrite <-Z.pow_add_r by lia; f_equal; lia).
    replace (2 ^ 53) with (2 ^ d * 2 ^ (53 - d)) by (rewrite <-Z.pow_add_r by lia; f_equal; lia). nia. }
  destruct (L * 2 ^ (53 - d)) as [|m|m] eqn:Hm; [lia| |lia]. exists m. split_and!; [|done|lia..].
  destruct (L * 2 ^ k) as [|p|p] eqn:Hp; [nia| |nia].
  assert (Zdigits2 (Z.pos p) = d + k) as Hdp.
  { apply Zdigits2_unique; [lia|]. rewrite <-Hp. replace (d + k - 1) with (d - 1 + k) by lia.
    rewrite !Z.pow_add_r by lia. nia. }
  cbn [binary_normalize]. unfold binary_round. change (Z.pos (digits2_pos p)) with (Zdigits2 (Z.pos p)). rewrite Hdp.
  replace (fexp 53 1024 (d + k + - k)) with (d - 53) by (unfold fexp, SpecFloat.emin; lia).
  destruct (Z.le_gt_cases (d - 53) (- k)) as [Hle|Hgt].
  - pose proof (shl_align_fst p (- k) (d - 53) Hle) as Hal.
    assert ((shl_align p (- k) (d - 53)).2 = d - 53) as Hal2.
    { unfold shl_align. destruct (d - 53 - - k) as [|?|?] eqn:?; cbn; lia. }
    destruct (shl_align p (- k) (d - 53)) as [mz ez]. cbn [fst snd] in *. subst ez.
    rewrite Hal, <-Hp, <-Z.mul_assoc, <-Z.pow_add_r by lia.
    replace (k + (- k - (d - 53))) with (53 - d) by lia. rewrite Hm.
    rewrite <-(round_exact m 0 (d - 53)) by lia. by rewrite Z.mul_1_r, Z.sub_0_r.
  - assert (shl_align p (- k) (d - 53) = (p, - k)) as -> by (unfold shl_align; destruct (d - 53 - - k) eqn:?; [done..|lia]).
    rewrite <-(round_exact m (d - 53 + k) (d - 53)) by lia. f_equal; [|lia].
    rewrite <-Hp, <-Hm, <-Z.mul_assoc, <-Z.pow_add_r by lia. f_equal. f_equal. lia.
Qed.

(** A positive integer of at most 53 bits is a double, exactly. *)
Lemma f64_of_Z_pos L :
  0 < L < 2 ^ 53 →
  let d := Zdigits2 L in
  ∃ m, f64_of_Z L = S754_finite false m (d - 53) ∧ Z.pos m = L * 2 ^ (53 - d) ∧
       0 < d ≤ 53 ∧ 2 ^ 52 ≤ Z.pos m < 2 ^ 53.
Proof. intros HL. pose proof (normalize_exact L 0 HL) as H. rewrite Z.mul_1_r in H. by apply H. Qed.

(** On such integers the operations are those of the integers. *)
Lemma f64_sub_Z a b : 0 ≤ b ≤ a → a < 2 ^ 53 → f64_sub (f64_of_Z a) (f64_of_Z b) = f64_of_Z (a - b).
Proof.
  intros Hb Ha. destruct (Z.eq_dec b 0) as [->|Hb0].
  { rewrite Z.sub_0_r. destruct (Z.eq_dec a 0) as [->|]; [done|].
    by destruct (f64_of_Z_pos a ltac:(lia)) as (m & -> & _). }
  destruct (f64_of_Z_pos a ltac:(lia)) as (ma & -> & Hma & Hda & _).
  destruct (f64_of_Z_pos b ltac:(lia)) as (mb & -> & Hmb & Hdb & _).
  assert (Zdigits2 b ≤ Zdigits2 a) as Hdd.
  { apply Zdigits2_le; [lia..|]. pose proof (proj1 (Zdigits2_bounds a ltac:(lia))). lia. }
  unfold f64_sub, SFsub. rewrite Z.min_r by lia. cbn [cond_Zopp].
  rewrite !shl_align_fst by lia. rewrite Hma, Hmb, <-!Z.mul_assoc, <-!Z.pow_add_r by lia.
  replace (53 - Zdigits2 a + (Zdigits2 a - 53 - (Zdigits2 b - 53))) with (53 - Zdigits2 b) by lia.
  replace (53 - Zdigits2 b + (Zdigits2 b - 53 - (Zdigits2 b - 53))) with (53 - Zdigits2 b) by lia.
  rewrite <-Z.mul_sub_distr_r. destruct (Z.eq_dec a b) as [->|Hne]; [by rewrite Z.sub_diag|].
  replace (Zdigits2 b - 53) with (- (53 - Zdigits2 b)) by lia.
  destruct (normalize_exact (a - b) (53 - Zdigits2 b)) as (m & -> & Hm & _); [lia..|].
  destruct (f64_of_Z_pos (a - b)) as (m' & -> & Hm' & _); [lia|]. by assert (m = m') as -> by lia.
Qed.

Lemma f64_add_Z a b : 0 ≤ a → 0 ≤ b → a + b < 2 ^ 53 → f64_add (f64_of_Z a) (f64_of_Z b) = f64_of_Z (a + b).
Proof.
  intros Ha Hb Hab. destruct (Z.eq_dec a 0) as [->|Ha0], (Z.eq_dec b 0) as [->|Hb0]; [done|..].
  - rewrite Z.add_0_l. by destruct (f64_of_Z_pos b ltac:(lia)) as (m & -> & _).
  - rewrite Z.add_0_r. by destruct (f64_of_Z_pos a ltac:(lia)) as (m & -> & _).
  - destruct (f64_of_Z_pos a ltac:(lia)) as (ma & -> & Hma & Hda & _).
    destruct (f64_of_Z_pos b ltac:(lia)) as (mb & -> & Hmb & Hdb & _).
    unfold f64_add, SFadd. set (e := Z.min _ _). cbn [cond_Zopp].
    rewrite !shl_align_fst by lia. rewrite Hma, Hmb, <-!Z.mul_assoc, <-!Z.pow_add_r by lia.
    replace (53 - Zdigits2 a + (Zdigits2 a - 53 - e)) with (- e) by lia.
    replace (53 - Zdigits2 b + (Zdigits2 b - 53 - e)) with (- e) by lia.
    rewrite <-Z.mul_add_distr_r. replace e with (- (- e)) at 2 by lia.
    destruct (normalize_exact (a + b) (- e)) as (m & -> & Hm & _); [lia..|].
    destruct (f64_of_Z_pos (a + b)) as (m' & -> & Hm' & _); [lia|]. by assert (m = m') as -> by lia.
Qed.

Lemma f64_compare_Z a b : 0 ≤ a < 2 ^ 53 → 0 ≤ b < 2 ^ 53 → SFcompare (f64_of_Z a) (f64_of_Z b) = Some (a ?= b).
Proof.
  intros Ha Hb. destruct (Z.eq_dec a 0) as [->|Ha0], (Z.eq_dec b 0) as [->|Hb0]; [done|..].
  - destruct (f64_of_Z_pos b ltac:(lia)) as (m & -> & _). cbn [SFcompare]. by destruct b; try lia.
  - destruct (f64_of_Z_pos a ltac:(lia)) as (m & -> & _). cbn [SFcompare]. by destruct a; try lia.
  - destruct (f64_of_Z_pos a ltac:(lia)) as (ma & -> & Hma & Hda & _).
    destruct (f64_of_Z_pos b ltac:(lia)) as (mb & -> & Hmb & Hdb & _).
    pose proof (proj1 (Zdigits2_bounds a ltac:(lia))) as Hba. pose proof (proj1 (Zdigits2_bounds b ltac:(lia))) as Hbb.
    cbn [SFcompare]. f_equal. destruct (Z.compare_spec (Zdigits2 a - 53) (Zdigits2 b - 53)) as [Heq|Hlt|Hgt].
    + change (Pos.compare_cont Eq ma mb) with (Z.pos ma ?= Z.pos mb). rewrite Hma, Hmb.
      replace (Zdigits2 b) with (Zdigits2 a) by lia.
      assert (0 < 2 ^ (53 - Zdigits2 a)) by (apply Z.pow_pos_nonneg; lia).
      destruct (Z.compare_spec a b); [subst; apply Z.compare_refl|apply Z.compare_lt_iff|apply Z.compare_gt_iff]; nia.
    + symmetry. apply Z.compare_lt_iff. assert (2 ^ Zdigits2 a ≤ 2 ^ (Zdigits2 b - 1)) by (apply Z.pow_le_mono_r; lia). lia.
    + symmetry. apply Z.compare_gt_iff. assert (2 ^ Zdigits2 b ≤ 2 ^ (Zdigits2 a - 1)) by (apply Z.pow_le_mono_r; lia). lia.
Qed.

Lemma f64_ltb_Z a b : 0 ≤ a < 2 ^ 53 → 0 ≤ b < 2 ^ 53 → SFltb (f64_of_Z a) (f64_of_Z b) = (a <? b).
Proof. intros Ha Hb. unfold SFltb. rewrite f64_compare_Z by done. unfold Z.ltb. by destruct (a ?= b). Qed.

Lemma f64_leb_Z a b : 0 ≤ a < 2 ^ 53 → 0 ≤ b < 2 ^ 53 → SFleb (f64_of_Z a) (f64_of_Z b) = (a <=? b).
Proof. intros Ha Hb. unfold SFleb. rewrite f64_compare_Z by done. unfold Z.leb. by destruct (a ?= b). Qed.

Lemma f64_floor_Z a : 0 ≤ a < 2 ^ 53 → f64_floor (f64_of_Z a) = a.
Proof.
  intros Ha. destruct (Z.eq_dec a 0) as [->|]; [done|].
  destruct (f64_of_Z_pos a ltac:(lia)) as (m & -> & Hm & Hd & _). cbn [f64_floor cond_Zopp].
  replace (Zdigits2 a - 53) with (- (53 - Zdigits2 a)) by lia.
  rewrite Z.shiftl_opp_r, Z.shiftr_div_pow2, Hm by lia. apply Z.div_mul.
  assert (0 < 2 ^ (53 - Zdigits2 a)) by (apply Z.pow_pos_nonneg; lia). lia.
Qed.

Lemma f64_add_zero a s : 0 ≤ a < 2 ^ 53 → f64_add (f64_of_Z a) (S754_zero s) = f64_of_Z a.
Proof.
  intros Ha. destruct (Z.eq_dec a 0) as [->|]; [by destruct s|].
  by destruct (f64_of_Z_pos a ltac:(lia)) as (m & -> & _).
Qed.

(** ** Division and multiplication of positive numbers *)

Lemma iter_shr_m p r : 0 ≤ shr_m r → shr_m (iter_pos shr_1 p r) = shr_m r `div` 2 ^ Z.pos p.
Proof.
  assert (∀ r, 0 ≤ shr_m r → shr_m (shr_1 r) = shr_m r `div` 2) as H1.
  { intros [[|[q|q|]|q] b c] Hr; cbn in *; try done; try lia.
    - rewrite Pos2Z.inj_xI. dlia.
    - rewrite Pos2Z.inj_xO. dlia. }
  revert r. induction p as [p IH|p IH|]; intros r Hr; cbn [iter_pos].
  - assert (0 ≤ shr_m (shr_1 r)) by (rewrite H1 by done; apply Z.div_pos; lia).
    assert (0 < 2 ^ Z.pos p) by (apply Z.pow_pos_nonneg; lia).
    rewrite IH by (rewrite IH by done; by apply Z.div_pos). rewrite IH, H1 by done.
    rewrite !Z.div_div by nia. f_equal. rewrite (Pos2Z.inj_xI p), Z.pow_add_r, Z.mul_comm by lia.
    replace (2 * Z.pos p) with (Z.pos p + Z.pos p) by lia. rewrite Z.pow_add_r by lia. change (2 ^ 1) with 2. lia.
  - assert (0 < 2 ^ Z.pos p) by (apply Z.pow_pos_nonneg; lia).
    rewrite IH by (rewrite IH by done; by apply Z.div_pos). rewrite IH by done.
    rewrite Z.div_div by nia. f_equal. rewrite (Pos2Z.inj_xO p).
    replace (2 * Z.pos p) with (Z.pos p + Z.pos p) by lia. by rewrite Z.pow_add_r by lia.
  - by apply H1.
Qed.

(** A positive number whose exponent is at most [B] either way. *)
Definition tame (B : Z) (x : spec_float) : Prop :=
  ∃ m e, x = S754_finite false m e ∧ - B ≤ e ≤ B ∧ Z.pos m ≤ 2 ^ 53.

Lemma round_aux_tame m e l B :
  0 < m → - B ≤ e → Zdigits2 m + e ≤ B → e ≤ B → B ≤ 800 → tame (B + 1) (binary_round_aux 53 1024 false m e l).
Proof.
  intros Hm He Hd HeB HB. destruct (Zdigits2_bounds m Hm) as [Hdig Hdpos].
  set (k := Z.max 0 (Zdigits2 m - 53)).
  assert (shr_m (shr_fexp 53 1024 m e l).1 = m `div` 2 ^ k ∧ (shr_fexp 53 1024 m e l).2 = e + k) as [Hs1 Hs2].
  { assert (shr_m (shr_record_of_loc m l) = m) as Hrec by (by destruct l as [|[]]).
    assert (fexp 53 1024 (Zdigits2 m + e) - e ≤ 0 ∧ k = 0 ∨ fexp 53 1024 (Zdigits2 m + e) - e = k ∧ 0 < k) as Hk
      by (unfold fexp, SpecFloat.emin, k; lia).
    unfold shr_fexp. destruct Hk as [[Hk Hk0]|[-> Hk]].
    - rewrite Hk0. change (2 ^ 0) with 1. rewrite Z.div_1_r.
      destruct (_ - e) as [|q|q]; [|lia|]; cbn [shr fst snd]; (split; [done|lia]).
    - destruct k as [|q|q]; [lia| |lia]. cbn [shr fst snd]. rewrite iter_shr_m by lia. by rewrite Hrec. }
  unfold binary_round_aux. destruct (shr_fexp 53 1024 m e l) as [r e'] eqn:Hr. cbn [fst snd] in Hs1, Hs2. subst e'.
  set (q := round_nearest_even (shr_m r) (loc_of_shr_record r)).
  assert (shr_m r ≤ q ≤ shr_m r + 1) as Hq.
  { unfold q, round_nearest_even. destruct (loc_of_shr_record r) as [|[]]; try lia. destruct (Z.even _); lia. }
  assert (0 < q ≤ 2 ^ 53) as Hq53.
  { destruct (Z.le_gt_cases (Zdigits2 m) 53) as [Hle|Hgt].
    - assert (k = 0) as Hk by lia. rewrite Hk in Hs1. change (2 ^ 0) with 1 in Hs1. rewrite Z.div_1_r in Hs1.
      assert (2 ^ Zdigits2 m ≤ 2 ^ 53) by (apply Z.pow_le_mono_r; lia). lia.
    - assert (Zdigits2 m = 53 + k) as Hk by lia. rewrite Hk in Hdig. rewrite Z.pow_add_r in Hdig by lia.
      replace (53 + k - 1) with (52 + k) in Hdig by lia. rewrite Z.pow_add_r in Hdig by lia.
      assert (0 < 2 ^ k) by (apply Z.pow_pos_nonneg; lia).
      assert (2 ^ 52 ≤ m `div` 2 ^ k < 2 ^ 53) by (split; [apply Z.div_le_lower_bound|apply Z.div_lt_upper_bound]; lia).
      lia. }
  assert (Zdigits2 q ≤ 54) as Hdq by (apply Zdigits2_le; lia).
  assert (q < 2 ^ 53 → Zdigits2 q ≤ 53) as Hdq' by (intros ?; apply Zdigits2_le; lia).
  unfold shr_fexp. cbn [shr_record_of_loc].
  destruct (fexp 53 1024 (Zdigits2 q + (e + k)) - (e + k)) as [|n|n] eqn:Hn; cbn [shr shr_m].
  - destruct q as [|p|p] eqn:Hqp; [lia| |lia]. rewrite (proj2 (Z.leb_le (e + k) (1024 - 53))) by lia.
    exists p, (e + k). split_and!; [done|lia..].
  - assert (q = 2 ^ 53 ∧ n = 1%positive) as [-> ->].
    { unfold fexp, SpecFloat.emin in Hn. destruct (Z.eq_dec q (2 ^ 53)) as [->|]; [|lia].
      split; [done|]. change (Zdigits2 (2 ^ 53)) with 54 in Hn. lia. }
    change (shr_m (iter_pos shr_1 1 _)) with (2 ^ 52). cbn [Z.pow].
    rewrite (proj2 (Z.leb_le (e + k + 1) (1024 - 53))) by lia.
    eexists _, (e + k + 1). split_and!; [done|lia..].
  - destruct q as [|p|p] eqn:Hqp; [lia| |lia]. rewrite (proj2 (Z.leb_le (e + k) (1024 - 53))) by lia.
    exists p, (e + k). split_and!; [done|lia..].
Qed.

Lemma pos_digits m : Z.pos m ≤ 2 ^ 53 → 1 ≤ Zdigits2 (Z.pos m) ≤ 54.
Proof.
  intros Hm. destruct (Zdigits2_bounds (Z.pos m)) as [_ ?]; [lia|]. split; [lia|]. apply Zdigits2_le; lia.
Qed.

Lemma f64_of_Z_tame L : 0 < L < 2 ^ 53 → tame 52 (f64_of_Z L).
Proof. intros HL. destruct (f64_of_Z_pos L HL) as (m & -> & _ & Hd & Hm). exists m, (Zdigits2 L - 53). split_and!; [done|lia..]. Qed.

Lemma f64_mul_tame B1 B2 x y : tame B1 x → tame B2 y → B1 + B2 ≤ 600 → tame (B1 + B2 + 120) (f64_mul x y).
Proof.
  intros (m1 & e1 & -> & He1 & Hm1) (m2 & e2 & -> & He2 & Hm2) HB. cbn [f64_mul SFmul xorb].
  assert (Zdigits2 (Z.pos (m1 * m2)) ≤ 107) as Hd.
  { apply Zdigits2_le; [lia..|]. rewrite Pos2Z.inj_mul. change (2 ^ 107) with (2 ^ 54 * 2 ^ 53).
    change (2 ^ 54) with (2 * 2 ^ 53). nia. }
  replace (B1 + B2 + 120) with (B1 + B2 + 119 + 1) by lia. apply round_aux_tame; lia.
Qed.

Lemma f64_div_tame B1 B2 x y : tame B1 x → tame B2 y → B1 + B2 ≤ 600 → tame (B1 + B2 + 120) (f64_div x y).
Proof.
  intros (m1 & e1 & -> & He1 & Hm1) (m2 & e2 & -> & He2 & Hm2) HB. cbn [f64_div SFdiv xorb]. unfold SFdiv_core_binary.
  pose proof (pos_digits m1 Hm1) as Hd1. pose proof (pos_digits m2 Hm2) as Hd2.
  set (d1 := Zdigits2 (Z.pos m1)) in *. set (d2 := Zdigits2 (Z.pos m2)) in *.
  set (e := Z.min (fexp 53 1024 (d1 + e1 - (d2 + e2))) (e1 - e2)).
  assert (e ≤ e1 - e2 ∧ e ≤ d1 - d2 + e1 - e2 - 53 ∧ e1 - e2 - 110 ≤ e) as (Hle & Hle2 & Hge)
    by (unfold e, fexp, SpecFloat.emin; lia).
  assert (match e1 - e2 - e with Z.pos _ => Z.shiftl (Z.pos m1) (e1 - e2 - e) | 0 => Z.pos m1 | Z.neg _ => 0 end =
    Z.pos m1 * 2 ^ (e1 - e2 - e)) as ->.
  { destruct (e1 - e2 - e) as [|s|s] eqn:Hs; [change (2 ^ 0) with 1; lia|by rewrite Z.shiftl_mul_pow2 by lia|lia]. }
  set (s := e1 - e2 - e). pose proof (Z_div_mod (Z.pos m1 * 2 ^ s) (Z.pos m2)) as Hdm.
  destruct (Z.div_eucl _ _) as [q r]. destruct Hdm as [Hq Hr]; [lia|].
  assert (0 ≤ s) as Hs0 by lia. assert (0 < 2 ^ s) by (apply Z.pow_pos_nonneg; lia).
  assert (Z.pos m2 < Z.pos m1 * 2 ^ s) as Hbig.
  { destruct (Zdigits2_bounds (Z.pos m1)) as [[Hlo _] _]; [lia|]. destruct (Zdigits2_bounds (Z.pos m2)) as [[_ Hhi] _]; [lia|].
    fold d1 in Hlo. fold d2 in Hhi. assert (2 ^ d2 ≤ 2 ^ (d1 - 1) * 2 ^ s) by
      (rewrite <-Z.pow_add_r by lia; apply Z.pow_le_mono_r; lia). nia. }
  assert (0 < q) as Hq0 by nia.
  assert (Zdigits2 q ≤ d1 + s) as Hdq.
  { apply Zdigits2_le; [done|lia|]. rewrite Z.pow_add_r by lia.
    destruct (Zdigits2_bounds (Z.pos m1)) as [[_ Hhi] _]; [lia|]. fold d1 in Hhi.
    assert (1 * q ≤ Z.pos m2 * q) by (apply Z.mul_le_mono_nonneg_r; lia).
    apply Z.le_lt_trans with (Z.pos m1 * 2 ^ s); [lia|]. by apply Z.mul_lt_mono_pos_r. }
  replace (B1 + B2 + 120) with (B1 + B2 + 119 + 1) by lia. apply round_aux_tame; lia.
Qed.

Lemma f64_ceil_tame B x : tame B x → 0 < f64_ceil x.
Proof.
  intros (m & e & -> & _). unfold f64_ceil. cbn [SFopp negb f64_floor cond_Zopp].
  destruct (Z.le_gt_cases 0 e) as [He|He].
  - rewrite Z.shiftl_mul_pow2 by done. assert (0 < 2 ^ e) by (by apply Z.pow_pos_nonneg). nia.
  - replace e with (- - e) by lia. rewrite Z.shiftl_opp_r, Z.shiftr_div_pow2 by lia.
    assert (0 < 2 ^ (- e)) as Hp by (apply Z.pow_pos_nonneg; lia).
    assert ((- Z.pos m) `div` 2 ^ (- e) < 0) by (apply Z.div_lt_upper_bound; lia). lia.
Qed.

(** ** Shortest decimal rendering *)

(** The double nearest to [p / q]. *)
Definition f64_of_ratio (p q : positive) : spec_float :=
  let '(m, e, l) := SFdiv_core_binary 53 1024 (Z.pos p) 0 (Z.pos q) 0 in
  binary_round_aux 53 1024 false m e l.

(** The exact value of a positive finite double as a ratio. *)
Definition ratio_of (m : positive) (e : Z) : Z * Z :=
  if 0 <=? e then (Z.pos m * 2 ^ e, 1) else (Z.pos m, 2 ^ (- e)).

(** The decimal exponent [x] with [10^(x-1) <= num/den < 10^x], found from
    [x] downwards. *)
Fixpoint dec_exp (fuel : nat) (num den x : Z) : Z :=
  match fuel with
  | O => x
  | S fuel' =>
      let low := if 0 <=? x - 1 then den * 10 ^ (x - 1) <=? num
                 else den <=? num * 10 ^ (1 - x) in
      if low then x else dec_exp fuel' num den (x - 1)
  end.

(** [n] significant digits of [num/den] with decimal exponent [x]. *)
Definition sig_digits (num den x n : Z) : Z :=
  if 0 <=? n - x then round_half_even (num * 10 ^ (n - x)) den
  else round_half_even num (den * 10 ^ (x - n)).

Definition ratio_to_f64 (d shift : Z) : spec_float :=
  if 0 <=? shift then f64_of_ratio (Z.to_pos (d * 10 ^ shift)) 1
  else f64_of_ratio (Z.to_pos d) (Z.to_pos (10 ^ (- shift))).

(** The fewest digits that read back as the same double, from [n] up: the
    digits and their decimal exponent. *)
Fixpoint shortest (fuel : nat) (v : spec_float) (num den x n : Z) : Z * Z :=
  let d := sig_digits num den x n in
  match fuel with
  | O => (d, x - n)
  | S fuel' => if SFeqb (ratio_to_f64 d (x - n)) v then (d, x - n)
               else shortest fuel' v num den x (n + 1)
  end.

Fixpoint strip_zeros (fuel : nat) (d shift : Z) : Z * Z :=
  match fuel with
  | O => (d, shift)
  | S fuel' => if (d `mod` 10 =? 0) && negb (d =? 0) then strip_zeros fuel' (d `div` 10) (shift + 1)
               else (d, shift)
  end.

Fixpoint zeros (n : nat) : string := match n with O => "" | S n' => String (byte_of 48) (zeros n') end.

(** [fmt]'s [%v] of a [float64]: [%g] with the shortest precision, in exponent
    form below 1e-4 and from 1e21 on. *)
Definition FormatG (v : spec_float) : string :=
  match v with
  | S754_zero s => if s then "-0" else "0"
  | S754_infinity s => if s then "-Inf" else "+Inf"
  | S754_nan => "NaN"
  | S754_finite s m e =>
      let '(num, den) := ratio_of m e in
      let x := dec_exp 700 num den 310 in
      let '(d0, shift0) := shortest 17 (S754_finite false m e) num den x 1 in
      let '(d, shift) := strip_zeros 20 d0 shift0 in
      let digits := Itoa d in
      let n := go_len digits in
      let point := n + shift in
      (if s then "-" else "") +:+
      (if (point - 1 <? -4) || (21 <=? point - 1) then
         let ex := Z.abs (point - 1) in
         str_take 1 digits +:+ (if 1 <? n then "." +:+ str_drop 1 digits else "")
           +:+ "e" +:+ (if point - 1 <? 0 then "-" else "+")
           +:+ (if ex <? 10 then "0" else "") +:+ Itoa ex
       else if point <=? 0 then "0." +:+ zeros (Z.to_nat (- point)) +:+ digits
       else if n <=? point then digits +:+ zeros (Z.to_nat (point - n))
       else str_take (Z.to_nat point) digits +:+ "." +:+ str_drop (Z.to_nat point) digits)
  end.

Example FormatG_tests :
  FormatG (f64_div (f64_of_Z 8) (f64_of_Z 10)) = "0.8" ∧ FormatG (f64_of_Z 50) = "50" ∧
  FormatG (f64_div (f64_of_Z 1) (f64_of_Z 3)) = "0.3333333333333333" ∧
  FormatG (f64_div (f64_of_Z 105) (f64_of_Z 100)) = "1.05" ∧
  FormatG (f64_div (f64_of_Z 1) (f64_of_Z 100000)) = "1e-05" ∧
  FormatG (f64_mul (f64_of_Z 1000000000000) (f64_of_Z 1000000000000)) = "1e+24".
Proof. by vm_compute. Qed.
