(* ===== verification/Calendar.v ===== *)
(** * The UTC calendar

    The parts of Go's [time] package the gateway's monthly and daily windows
    use: [Year], [Month], [time.Date], [AddDate], [Truncate] to a day and the
    ["200601"] layout. Instants are nanoseconds since January 1, year 1, UTC. *)

From Stdlib Require Import Ascii.
From stdpp Require Import base gmap strings list pretty numbers.
From S2P Require Import Prelude GoString Float.

Definition Day : Z := 24 * Hour.

Definition is_leap (y : Z) : bool :=
  (y `mod` 4 =? 0) && (negb (y `mod` 100 =? 0) || (y `mod` 400 =? 0)).

(** Days from January 1, year 1 to January 1 of year [y]. *)
Definition days_before_year (y : Z) : Z :=
  365 * (y - 1) + (y - 1) `div` 4 - (y - 1) `div` 100 + (y - 1) `div` 400.

(** Days from January 1 to the first of month [m]; month 13 is the next year. *)
Definition days_before_month (y m : Z) : Z :=
  match m with
  | 1 => 0 | 2 => 31 | 3 => 59 | 4 => 90 | 5 => 120 | 6 => 151 | 7 => 181
  | 8 => 212 | 9 => 243 | 10 => 273 | 11 => 304 | 12 => 334 | _ => 365
  end + (if (2 <? m) && is_leap y then 1 else 0).

(** The year and the day of the year (from 0) of a day number: cut off the
    400-year, 100-year, 4-year and 1-year cycles in turn. *)
Definition year_yday (d : Z) : Z * Z :=
  let n400 := d `div` 146097 in let d := d - 146097 * n400 in
  let n100 := d `div` 36524 in let n100 := n100 - n100 `div` 4 in
  let d := d - 36524 * n100 in
  let n4 := d `div` 1461 in let d := d - 1461 * n4 in
  let n1 := d `div` 365 in let n1 := n1 - n1 `div` 4 in let d := d - 365 * n1 in
  (400 * n400 + 100 * n100 + 4 * n4 + n1 + 1, d).

(** The month whose first day is the last one not after day [yday]. *)
Fixpoint month_down (fuel : nat) (y yday m : Z) : Z :=
  match fuel with
  | O => 1
  | S fuel' => if days_before_month y m <=? yday then m else month_down fuel' y yday (m - 1)
  end.

Definition day_of (t : Z) : Z := t `div` Day.
Definition Year (t : Z) : Z := (year_yday (day_of t)).1.
Definition YearDay0 (t : Z) : Z := (year_yday (day_of t)).2.
Definition Month (t : Z) : Z := month_down 11 (Year t) (YearDay0 t) 12.

(** [time.Date(y, m, 1, 0, 0, 0, 0, time.UTC)] for a month from 1 to 13: the
    thirteenth normalises to January of the next year. *)
Definition Date1 (y m : Z) : Z := (days_before_year y + days_before_month y m) * Day.

Definition month_start (t : Z) : Z := Date1 (Year t) (Month t).
(** [from.AddDate(0, 1, 0)] of the first of the month [t] is in. *)
Definition next_month (t : Z) : Z := Date1 (Year t) (Month t + 1).

Definition pad2 (n : Z) : string := Itoa (n `div` 10) +:+ Itoa (n `mod` 10).

(** [t.UTC().Format("200601")]. *)
Definition Format200601 (t : Z) : string := pad4 (Year t) +:+ pad2 (Month t).

(** [t.UTC().Truncate(24*time.Hour)], and SQL's [(t at time zone 'UTC')::date]. *)
Definition day_start (t : Z) : Z := (t `div` Day) * Day.

(** The day of the month, from 1. *)
Definition DayOfMonth (t : Z) : Z := YearDay0 t - days_before_month (Year t) (Month t) + 1.

(** [t.UTC().Format(time.DateOnly)]. *)
Definition FormatDateOnly (t : Z) : string :=
  pad4 (Year t) +:+ "-" +:+ pad2 (Month t) +:+ "-" +:+ pad2 (DayOfMonth t).

(** [time.Parse(time.DateOnly, s)]: four digits, two and two, a month of the
    year and a day of the month; the midnight it starts at. *)
Definition digit_of (c : ascii) : option Z :=
  let d := byte_val c - 48 in if (0 <=? d) && (d <? 10) then Some d else None.

Definition ParseDateOnly (s : string) : option Z :=
  match s with
  | String a (String b (String c (String d (String h1 (String e (String f
      (String h2 (String g (String h EmptyString))))))))) =>
      match digit_of a, digit_of b, digit_of c, digit_of d, digit_of e, digit_of f, digit_of g, digit_of h with
      | Some a, Some b, Some c, Some d, Some e, Some f, Some g, Some h =>
          let year := 1000 * a + 100 * b + 10 * c + d in
          let month := 10 * e + f in
          let day := 10 * g + h in
          if Ascii.eqb h1 "-"%char && Ascii.eqb h2 "-"%char && (1 <=? month) && (month <=? 12) &&
             (1 <=? day) && (day <=? days_before_month year (month + 1) - days_before_month year month)
          then Some (Date1 year month + (day - 1) * Day) else None
      | _, _, _, _, _, _, _, _ => None
      end
  | _ => None
  end.

(** [t.AddDate(0, n, 0)]: the same day [n] months on, a day the month does not
    have running over into the next. *)
Definition AddMonths (t n : Z) : Z :=
  let m := Month t - 1 + n in
  Date1 (Year t + m `div` 12) (m `mod` 12 + 1) + (DayOfMonth t - 1) * Day + t `mod` Day.

(** *** [time.Parse(time.RFC3339, s)]

    The layout's elements are read from the left, each returning what is left of
    the text. Beyond the RFC, the hour may be one digit and the seconds may have
    a fraction after a point or a comma, of which nine digits count. *)

(** [getnum]: two digits, or one when that is allowed. *)
Definition getnum (fixed : bool) (s : string) : option (Z * string) :=
  match s with
  | String a (String b rest) =>
      match digit_of a, digit_of b with
      | Some x, Some y => Some (10 * x + y, rest)
      | Some x, None => if fixed then None else Some (x, String b rest)
      | None, _ => None
      end
  | String a EmptyString => if fixed then None else (λ x, (x, EmptyString)) <$> digit_of a
  | EmptyString => None
  end.

Definition expect (c : ascii) (s : string) : option string :=
  match s with String c' rest => if Ascii.eqb c' c then Some rest else None | EmptyString => None end.

(** Two digits of at most [most], then [c]. *)
Definition number_then (fixed : bool) (least most : Z) (s : string) : option (Z * string) :=
  match getnum fixed s with
  | Some (x, rest) => if (least <=? x) && (x <=? most) then Some (x, rest) else None
  | None => None
  end.

(** The digits of a fraction: their value as nanoseconds, and the rest. *)
Fixpoint fraction (scale : Z) (s : string) : Z * string :=
  match s with
  | String c rest =>
      match digit_of c with
      | Some x => let '(n, rest') := fraction (scale `div` 10) rest in (x * scale + n, rest')
      | None => (0, s)
      end
  | EmptyString => (0, s)
  end.

Definition seconds_fraction (s : string) : Z * string :=
  match s with
  | String p (String d _ as rest) =>
      if (Ascii.eqb p "."%char || Ascii.eqb p ","%char) && bool_decide (digit_of d ≠ None)
      then fraction 100000000 rest else (0, s)
  | _ => (0, s)
  end.

(** [Z], or a signed offset: its nanoseconds east of UTC. *)
Definition zone_offset (s : string) : option (Z * string) :=
  match s with
  | String sign rest =>
      if Ascii.eqb sign "Z"%char then Some (0, rest)
      else
        h ← number_then true 0 24 rest;
        colon ← expect ":"%char h.2;
        m ← number_then true 0 60 colon;
        let offset := h.1 * Hour + m.1 * Minute in
        if Ascii.eqb sign "+"%char then Some (offset, m.2)
        else if Ascii.eqb sign "-"%char then Some (- offset, m.2) else None
  | EmptyString => None
  end.

Definition ParseRFC3339 (s : string) : option Z :=
  match s with
  | String a (String b (String c (String d rest))) =>
      a ← digit_of a; b ← digit_of b; c ← digit_of c; d ← digit_of d;
      let year := 1000 * a + 100 * b + 10 * c + d in
      rest ← expect "-"%char rest; month ← number_then true 1 12 rest;
      rest ← expect "-"%char month.2; day ← number_then true 0 99 rest;
      rest ← expect "T"%char day.2; hour ← number_then false 0 23 rest;
      rest ← expect ":"%char hour.2; minute ← number_then true 0 59 rest;
      rest ← expect ":"%char minute.2; second ← number_then true 0 59 rest;
      let '(ns, rest) := seconds_fraction second.2 in
      zone ← zone_offset rest;
      if String.eqb zone.2 EmptyString && (1 <=? day.1) &&
         (day.1 <=? days_before_month year (month.1 + 1) - days_before_month year month.1)
      then Some (Date1 year month.1 + (day.1 - 1) * Day + hour.1 * Hour + minute.1 * Minute
                 + second.1 * Second + ns - zone.1)
      else None
  | _ => None
  end.

(** ** Lemmas *)

Lemma is_leap_days y : 1 ≤ y → days_before_year (y + 1) = days_before_year y + 365 + (if is_leap y then 1 else 0).
Proof.
  intros Hy. unfold days_before_year, is_leap. replace (y + 1 - 1) with y by lia.
  destruct (y `mod` 4 =? 0) eqn:?, (y `mod` 100 =? 0) eqn:?, (y `mod` 400 =? 0) eqn:?;
    zbool; simpl; Z.to_euclidean_division_equations; lia.
Qed.

Lemma year_yday_spec d :
  0 ≤ d →
  let '(y, yday) := year_yday d in
  1 ≤ y ∧ d = days_before_year y + yday ∧ 0 ≤ yday ∧ d < days_before_year (y + 1).
Proof.
  intros Hd. unfold year_yday, days_before_year.
  Z.to_euclidean_division_equations. lia.
Qed.

Lemma month_cases m (P : Z → Prop) :
  1 ≤ m ≤ 12 →
  P 1 → P 2 → P 3 → P 4 → P 5 → P 6 → P 7 → P 8 → P 9 → P 10 → P 11 → P 12 → P m.
Proof.
  intros Hm. intros.
  assert (m = 1 ∨ m = 2 ∨ m = 3 ∨ m = 4 ∨ m = 5 ∨ m = 6 ∨ m = 7 ∨ m = 8 ∨ m = 9 ∨
          m = 10 ∨ m = 11 ∨ m = 12) as Hor by lia.
  by repeat destruct Hor as [->|Hor]; [..|subst].
Qed.

Lemma month_step y m :
  1 ≤ m ≤ 12 → 28 ≤ days_before_month y (m + 1) - days_before_month y m ≤ 31.
Proof.
  intros Hm.
  refine (month_cases m (λ m, 28 ≤ days_before_month y (m + 1) - days_before_month y m ≤ 31)
            Hm _ _ _ _ _ _ _ _ _ _ _ _); unfold days_before_month; simpl; destruct (is_leap y); lia.
Qed.

Lemma month_mono y m n : 1 ≤ m → m ≤ n → n ≤ 13 → days_before_month y m ≤ days_before_month y n.
Proof.
  intros Hm Hmn. revert n Hmn. refine (Zlt_lower_bound_ind _ m _).
  intros n IH Hmn Hn. destruct (decide (n = m)) as [->|Hne]; [lia|].
  specialize (IH (n - 1)). pose proof (month_step y (n - 1)).
  replace (n - 1 + 1) with n in * by lia. lia.
Qed.

Lemma month_down_spec y yday fuel :
  (fuel ≤ 11)%nat → 0 ≤ yday < days_before_month y (Z.of_nat fuel + 2) →
  let m := month_down fuel y yday (Z.of_nat fuel + 1) in
  1 ≤ m ≤ 12 ∧ days_before_month y m ≤ yday < days_before_month y (m + 1).
Proof.
  induction fuel as [|fuel IH]; intros Hf Hy; cbn [month_down].
  - assert (days_before_month y 1 = 0) by done. split; [lia|].
    replace (1 + 1) with (Z.of_nat 0 + 2) by lia. lia.
  - destruct (_ <=? yday) eqn:Hle; zbool.
    + split; [lia|]. replace (Z.of_nat (S fuel) + 1 + 1) with (Z.of_nat (S fuel) + 2) by lia. lia.
    + replace (Z.of_nat (S fuel) + 1 - 1) with (Z.of_nat fuel + 1) by lia. apply IH; [lia|].
      replace (Z.of_nat fuel + 2) with (Z.of_nat (S fuel) + 1) by lia. lia.
Qed.

Lemma date_spec t :
  0 ≤ t →
  1 ≤ Year t ∧ 1 ≤ Month t ∧ Month t ≤ 12 ∧
  days_before_month (Year t) (Month t) ≤ YearDay0 t < days_before_month (Year t) (Month t + 1) ∧
  day_of t = days_before_year (Year t) + YearDay0 t ∧ 0 ≤ YearDay0 t ∧
  day_of t < days_before_year (Year t + 1).
Proof.
  intros Ht. assert (0 ≤ day_of t) as Hd by (apply Z.div_pos; [done|by vm_compute]).
  pose proof (year_yday_spec (day_of t) Hd) as Hy.
  unfold Month.
  destruct (year_yday (day_of t)) as [y yd] eqn:Hyy.
  assert (Year t = y ∧ YearDay0 t = yd) as [-> ->] by (unfold Year, YearDay0; by rewrite Hyy).
  destruct Hy as (Hy1 & Hday & Hyd & Hlt).
  pose proof (is_leap_days y Hy1) as Hl.
  destruct (month_down_spec y yd 11) as [Hm Hrange]; [done| |].
  { change (Z.of_nat 11 + 2) with 13. unfold days_before_month. simpl. lia. }
  change (Z.of_nat 11 + 1) with 12 in *. lia.
Qed.

(** Two months are the same or one ends before the other starts. *)
Lemma year_mono y y' : 1 ≤ y → y ≤ y' → days_before_year y ≤ days_before_year y'.
Proof. intros. unfold days_before_year. Z.to_euclidean_division_equations. lia. Qed.

Lemma month13 y : 1 ≤ y → days_before_year y + days_before_month y 13 = days_before_year (y + 1).
Proof. intros Hy. rewrite is_leap_days by done. unfold days_before_month. simpl. lia. Qed.

Lemma Day_pos : 0 < Day.
Proof. by vm_compute. Qed.

Lemma month_start_eq t :
  month_start t = (days_before_year (Year t) + days_before_month (Year t) (Month t)) * Day.
Proof. reflexivity. Qed.
Lemma next_month_eq t :
  next_month t = (days_before_year (Year t) + days_before_month (Year t) (Month t + 1)) * Day.
Proof. reflexivity. Qed.

Lemma month_bounds t : 0 ≤ t → month_start t ≤ t < next_month t.
Proof.
  intros Ht. destruct (date_spec t Ht) as (? & ? & ? & Hm & Hd & _). pose proof Day_pos.
  rewrite month_start_eq, next_month_eq.
  assert (t = Day * day_of t + t `mod` Day ∧ 0 ≤ t `mod` Day < Day) as [Htd Hmod]
    by (split; [apply Z.div_mod; lia|apply Z.mod_pos_bound; lia]).
  split; nia.
Qed.

Lemma month_length t : 0 ≤ t → 0 < next_month t - month_start t ≤ 31 * Day.
Proof.
  intros Ht. destruct (date_spec t Ht) as (? & ? & ? & _). pose proof Day_pos.
  pose proof (month_step (Year t) (Month t)). rewrite month_start_eq, next_month_eq. nia.
Qed.

Lemma Date1_nonneg y m : 1 ≤ y → 1 ≤ m ≤ 13 → 0 ≤ Date1 y m.
Proof.
  intros Hy Hm. unfold Date1. pose proof Day_pos. apply Z.mul_nonneg_nonneg; [|lia].
  pose proof (month_mono y 1 m). pose proof (year_mono 1 y).
  assert (days_before_month y 1 = 0 ∧ days_before_year 1 = 0) by done. lia.
Qed.

(** The calendar fields of an instant inside a given month. *)
Lemma date_unique y m s :
  1 ≤ y → 1 ≤ m ≤ 12 →
  (days_before_year y + days_before_month y m) * Day ≤ s
    < (days_before_year y + days_before_month y (m + 1)) * Day →
  Year s = y ∧ Month s = m.
Proof.
  intros Hy Hm Hin. pose proof Day_pos as HD.
  pose proof (Date1_nonneg y m Hy ltac:(lia)) as Hs. unfold Date1 in Hs.
  destruct (date_spec s ltac:(lia)) as (Hy' & Hm1' & Hm12' & Hm' & Hd' & Hyd' & Hlt').
  assert (days_before_year y + days_before_month y m ≤ day_of s <
          days_before_year y + days_before_month y (m + 1)) as Hday.
  { unfold day_of. split; [apply Z.div_le_lower_bound|apply Z.div_lt_upper_bound]; lia. }
  pose proof (month13 y Hy) as H13. pose proof (month13 (Year s) Hy') as H13'.
  pose proof (month_mono y (m + 1) 13). pose proof (month_mono (Year s) (Month s + 1) 13).
  pose proof (month_mono y 1 m) as Ha.
  assert (days_before_month y 1 = 0) by done.
  assert (Year s = y) as Hyear.
  { destruct (Z.lt_trichotomy (Year s) y) as [Hl|[|Hl]]; [|done|].
    - pose proof (year_mono (Year s + 1) y). lia.
    - pose proof (year_mono (y + 1) (Year s)). lia. }
  split; [done|]. rewrite Hyear in *.
  destruct (Z.lt_trichotomy (Month s) m) as [Hl|[|Hl]]; [|done|].
  - pose proof (month_mono y (Month s + 1) m). lia.
  - pose proof (month_mono y (m + 1) (Month s)). lia.
Qed.

(** The calendar fields are determined by the window [t] falls in. *)
Lemma month_unique t t' :
  0 ≤ t → month_start t ≤ t' < next_month t → Year t' = Year t ∧ Month t' = Month t.
Proof.
  intros Ht Hin. destruct (date_spec t Ht) as (Hy & ? & ? & _).
  apply date_unique; [exact Hy|lia|].
  rewrite month_start_eq, next_month_eq in Hin. exact Hin.
Qed.

(** ** Decimal digits *)

Definition dec_val (s : string) : Z :=
  (fix go (acc : Z) (s : string) : Z :=
     match s with
     | "" => acc
     | String c s' => go (10 * acc + (byte_val c - 48)) s'
     end%string) 0 s.

Lemma Itoa_digit d : 0 ≤ d < 10 → ∃ c, Itoa d = String c "" ∧ byte_val c = 48 + d.
Proof.
  intros Hd.
  assert (d = 0 ∨ d = 1 ∨ d = 2 ∨ d = 3 ∨ d = 4 ∨ d = 5 ∨ d = 6 ∨ d = 7 ∨ d = 8 ∨ d = 9)
    as Hor by lia.
  repeat destruct Hor as [->|Hor]; [..|subst]; eexists; split; reflexivity.
Qed.

Lemma Format200601_val t :
  0 ≤ t → Year t ≤ 9999 → dec_val (Format200601 t) = 100 * Year t + Month t.
Proof.
  intros Ht Hy. destruct (date_spec t Ht) as (? & ? & ? & _).
  unfold Format200601, pad4, pad2.
  assert (0 ≤ Year t `div` 1000 < 10) as Hdy by (Z.to_euclidean_division_equations; lia).
  assert (∀ z, 0 ≤ z `mod` 10 < 10) as Hmod by (intros; apply Z.mod_pos_bound; lia).
  assert (0 ≤ Month t `div` 10 < 10) as Hdm by (Z.to_euclidean_division_equations; lia).
  destruct (Itoa_digit _ Hdy) as (c1 & -> & E1).
  destruct (Itoa_digit _ (Hmod (Year t `div` 100))) as (c2 & -> & E2).
  destruct (Itoa_digit _ (Hmod (Year t `div` 10))) as (c3 & -> & E3).
  destruct (Itoa_digit _ (Hmod (Year t))) as (c4 & -> & E4).
  destruct (Itoa_digit _ Hdm) as (c5 & -> & E5).
  destruct (Itoa_digit _ (Hmod (Month t))) as (c6 & -> & E6).
  repeat (rewrite str_app_cons || rewrite str_app_nil_l). cbv beta iota delta [dec_val].
  rewrite E1, E2, E3, E4, E5, E6. Z.to_euclidean_division_equations. lia.
Qed.

Lemma Format200601_inj t t' :
  0 ≤ t → 0 ≤ t' → Year t ≤ 9999 → Year t' ≤ 9999 →
  Format200601 t = Format200601 t' → Year t = Year t' ∧ Month t = Month t'.
Proof.
  intros Ht Ht' Hy Hy' Heq.
  destruct (date_spec t Ht) as (? & ? & ? & _). destruct (date_spec t' Ht') as (? & ? & ? & _).
  assert (dec_val (Format200601 t) = dec_val (Format200601 t')) as Hv by (by rewrite Heq).
  rewrite !Format200601_val in Hv by done. lia.
Qed.

(** ** Days and dates *)

Lemma day_start_le t : day_start t ≤ t < day_start t + Day.
Proof. unfold day_start. pose proof Day_pos. pose proof (Z.mod_pos_bound t Day). pose proof (Z.div_mod t Day). lia. Qed.

Lemma day_start_idem t : day_start (day_start t) = day_start t.
Proof. unfold day_start. rewrite Z.div_mul; [done|]. pose proof Day_pos. lia. Qed.

(** The day an instant belongs to. *)
Lemma day_start_iff d t : day_start d = d → day_start t = d ↔ d ≤ t < d + Day.
Proof.
  intros Hd. pose proof (day_start_le t). split; [by intros <-|]. intros Ht.
  unfold day_start in *. pose proof Day_pos. rewrite <-Hd in *. f_equal.
  symmetry. apply (Z.div_unique_pos t Day (d `div` Day) (t - d `div` Day * Day)); lia.
Qed.

Lemma day_start_mono s t : s ≤ t → day_start s ≤ day_start t.
Proof.
  intros Hst. unfold day_start. pose proof Day_pos. apply Z.mul_le_mono_nonneg_r; [lia|].
  apply Z.div_le_mono; lia.
Qed.

Lemma date_of_parts t :
  0 ≤ t → Date1 (Year t) (Month t) + (DayOfMonth t - 1) * Day = day_start t.
Proof.
  intros Ht. destruct (date_spec t Ht) as (_ & _ & _ & _ & Hd & _).
  unfold Date1, DayOfMonth, day_start. fold (day_of t). rewrite Hd. lia.
Qed.

(** One decimal digit, printed and read back. *)
Lemma Itoa_digit_of d : 0 ≤ d < 10 → ∃ c, Itoa d = String c "" ∧ digit_of c = Some d.
Proof.
  intros Hd. destruct (Itoa_digit d Hd) as (c & -> & Hc). exists c. split; [done|].
  unfold digit_of. rewrite Hc. replace (48 + d - 48) with d by lia.
  destruct (Z.leb_spec 0 d), (Z.ltb_spec d 10); done || lia.
Qed.

(** A date is read back as the midnight it was printed from. *)
Lemma ParseDateOnly_Format t :
  0 ≤ t → Year t ≤ 9999 → ParseDateOnly (FormatDateOnly t) = Some (day_start t).
Proof.
  intros Ht Hy. destruct (date_spec t Ht) as (? & ? & ? & Hm & Hd & Hyd & _).
  assert (1 ≤ DayOfMonth t ≤ days_before_month (Year t) (Month t + 1) - days_before_month (Year t) (Month t))
    as Hdom by (unfold DayOfMonth; lia).
  pose proof (month_step (Year t) (Month t) ltac:(lia)) as Hstep.
  rewrite <-(date_of_parts t Ht). unfold FormatDateOnly. revert Hdom Hstep. generalize (DayOfMonth t). intros dom Hdom Hstep.
  unfold pad4, pad2.
  destruct (Itoa_digit_of (Year t `div` 1000)) as (c1 & -> & E1); [dlia|].
  destruct (Itoa_digit_of ((Year t `div` 100) `mod` 10)) as (c2 & -> & E2); [dlia|].
  destruct (Itoa_digit_of ((Year t `div` 10) `mod` 10)) as (c3 & -> & E3); [dlia|].
  destruct (Itoa_digit_of (Year t `mod` 10)) as (c4 & -> & E4); [dlia|].
  destruct (Itoa_digit_of (Month t `div` 10)) as (c5 & -> & E5); [dlia|].
  destruct (Itoa_digit_of (Month t `mod` 10)) as (c6 & -> & E6); [dlia|].
  destruct (Itoa_digit_of (dom `div` 10)) as (c7 & -> & E7); [dlia|].
  destruct (Itoa_digit_of (dom `mod` 10)) as (c8 & -> & E8); [dlia|].
  repeat (rewrite str_app_cons || rewrite str_app_nil_l).
  unfold ParseDateOnly. rewrite E1, E2, E3, E4, E5, E6, E7, E8. cbv zeta.
  replace (1000 * _ + _ + _ + _) with (Year t) by dlia.
  replace (10 * (Month t `div` 10) + _) with (Month t) by dlia.
  replace (10 * (dom `div` 10) + _) with dom by dlia.
  rewrite !Ascii.eqb_refl.
  destruct (Z.leb_spec 1 (Month t)), (Z.leb_spec (Month t) 12), (Z.leb_spec 1 dom),
    (Z.leb_spec dom (days_before_month (Year t) (Month t + 1) - days_before_month (Year t) (Month t)));
    simpl; done || lia.
Qed.

(** Up to the 28th, adding months lands in the month asked for. *)
Lemma AddMonths_month t n :
  0 ≤ t → 0 ≤ n → DayOfMonth t ≤ 28 →
  let m := Month t - 1 + n in
  Year (AddMonths t n) = Year t + m `div` 12 ∧ Month (AddMonths t n) = m `mod` 12 + 1.
Proof.
  intros Ht Hn Hd m. destruct (date_spec t Ht) as (? & ? & ? & Hm & _). pose proof Day_pos as HD.
  assert (1 ≤ DayOfMonth t) as Hd1 by (unfold DayOfMonth; lia).
  assert (0 ≤ m `div` 12 ∧ 0 ≤ m `mod` 12 < 12) as [Hq Hr] by (unfold m; dlia).
  pose proof (month_step (Year t + m `div` 12) (m `mod` 12 + 1) ltac:(lia)) as Hstep.
  pose proof (Z.mod_pos_bound t Day HD) as Hmod.
  apply date_unique; [lia|lia|]. unfold AddMonths. fold m. cbv zeta. unfold Date1 in *.
  assert (0 ≤ (DayOfMonth t - 1) * Day) by (apply Z.mul_nonneg_nonneg; lia).
  assert ((DayOfMonth t - 1) * Day ≤ 27 * Day) by (apply Z.mul_le_mono_nonneg_r; lia).
  set (a := days_before_year _). set (b := days_before_month _ (m `mod` 12 + 1)) in *.
  set (c := days_before_month _ (m `mod` 12 + 1 + 1)) in *.
  assert ((a + b + 28) * Day ≤ (a + c) * Day) by (apply Z.mul_le_mono_nonneg_r; lia).
  lia.
Qed.

(** The next month starts where the calendar says. *)
Lemma Date1_normal y m : 1 ≤ y → 1 ≤ m ≤ 13 → Date1 y m = Date1 (y + (m - 1) `div` 12) ((m - 1) `mod` 12 + 1).
Proof.
  intros Hy Hm. destruct (decide (m = 13)) as [->|Hne].
  - change ((13 - 1) `div` 12) with 1. change ((13 - 1) `mod` 12 + 1) with 1. unfold Date1.
    pose proof (month13 y Hy). assert (days_before_month (y + 1) 1 = 0) by done. f_equal. lia.
  - replace ((m - 1) `div` 12) with 0 by dlia. replace ((m - 1) `mod` 12 + 1) with m by dlia. by rewrite Z.add_0_r.
Qed.

Lemma AddMonths_next t :
  0 ≤ t → DayOfMonth t ≤ 28 → month_start (AddMonths t 1) = next_month t.
Proof.
  intros Ht Hd. destruct (AddMonths_month t 1 Ht ltac:(lia) Hd) as [Hy Hm].
  destruct (date_spec t Ht) as (? & ? & ? & _).
  unfold month_start, next_month. rewrite Hy, Hm, (Date1_normal (Year t) (Month t + 1)) by lia.
  by replace (Month t + 1 - 1) with (Month t - 1 + 1) by lia.
Qed.

Lemma next_month_date t : 0 ≤ t →
  Year (next_month t) = Year t + Month t `div` 12 ∧ Month (next_month t) = Month t `mod` 12 + 1.
Proof.
  intros Ht. destruct (date_spec t Ht) as (? & ? & ? & _). pose proof Day_pos.
  unfold next_month. rewrite Date1_normal by lia. replace (Month t + 1 - 1) with (Month t) by lia.
  assert (0 ≤ Month t `div` 12 ∧ 0 ≤ Month t `mod` 12 < 12) as [??] by dlia.
  apply date_unique; [lia|lia|]. unfold Date1. split; [apply Z.le_refl|].
  pose proof (month_step (Year t + Month t `div` 12) (Month t `mod` 12 + 1) ltac:(lia)).
  apply Z.mul_lt_mono_pos_r; lia.
Qed.

Lemma AddMonths_next2 t :
  0 ≤ t → DayOfMonth t ≤ 28 → month_start (AddMonths t 2) = next_month (next_month t).
Proof.
  intros Ht Hd. destruct (AddMonths_month t 2 Ht ltac:(lia) Hd) as [Hy Hm].
  destruct (date_spec t Ht) as (? & ? & ? & _). destruct (next_month_date t Ht) as [Hny Hnm].
  unfold month_start, next_month at 1. rewrite Hy, Hm, Hny, Hnm.
  clear Hy Hm Hny Hnm Hd. revert H. generalize (Year t). intros y Hy.
  assert (Date1 (y + 1) 1 = Date1 y 13) as H13.
  { unfold Date1. pose proof (month13 y Hy). assert (days_before_month (y + 1) 1 = 0) by done. f_equal. lia. }
  refine (month_cases (Month t) (λ m, Date1 (y + (m - 1 + 2) `div` 12) ((m - 1 + 2) `mod` 12 + 1) =
      Date1 (y + m `div` 12) (m `mod` 12 + 1 + 1)) ltac:(lia) _ _ _ _ _ _ _ _ _ _ _ _); try reflexivity.
  change (11 `div` 12) with 0. rewrite Z.add_0_r. exact H13.
Qed.

Example RFC3339_offset :
  ParseRFC3339 "2026-01-02T03:04:05.25+07:00" =
  Some (Date1 2026 1 + Day - 4 * Hour + 4 * Minute + 5 * Second + 250 * Millisecond).
Proof. by vm_compute. Qed.

Example RFC3339_refused :
  ParseRFC3339 "2026-02-29T00:00:00Z" = None ∧ ParseRFC3339 "2026-01-02T03:04:05" = None ∧
  ParseRFC3339 "2026-01-02T24:00:00Z" = None ∧ ParseRFC3339 "2026-01-02T3:04:05Z " = None.
Proof. by vm_compute. Qed.
