(* ===== verification/Refine.v ===== *)
(** * Refinement between stores

    A computation over one store that answers what a computation over another
    answers, and keeps the relation between the stores: values related, errors
    equal, under the same faults. Used where the code's own representation (rows,
    stream messages) is modelled beneath a component's. *)

From stdpp Require Import base list.
From S2P Require Import Prelude.

(** Related results: values by [Q], errors by equality. *)
Definition res_rel {A B} (Q : A → B → Prop) (r : res A) (s : res B) : Prop :=
  match r, s with
  | Ok a, Ok b => Q a b
  | Err e, Err e' => e = e'
  | _, _ => False
  end.

(** A relation between stores that a call's fault does not break. *)
Class FaultBlind `{HasFaults W, HasFaults V} (R : W → V → Prop) : Prop := {
  same_faults t w : R t w → faults t = faults w;
  faults_set t w fs : R t w → R (set_faults fs t) (set_faults fs w);
}.

Section refine.
Context `{FaultBlind W V R}.

Definition relates {A B} (Q : A → B → Prop) (m : ST W A) (s : ST V B) : Prop :=
  ∀ t w, R t w → res_rel Q (m t).1 (s w).1 ∧ R (m t).2 (s w).2.

Definition refines {A} (m : ST W A) (s : ST V A) : Prop :=
  ∀ t w, R t w → (m t).1 = (s w).1 ∧ R (m t).2 (s w).2.

Lemma relates_refines {A} (m : ST W A) (s : ST V A) : relates eq m s → refines m s.
Proof.
  intros Hm t w Hs. destruct (Hm t w Hs) as [Hr Hs']. split; [|done].
  destruct (m t).1, (s w).1; cbn in Hr; by subst.
Qed.

Lemma relates_mono {A B} (Q Q' : A → B → Prop) m s : (∀ a b, Q a b → Q' a b) → relates Q m s → relates Q' m s.
Proof.
  intros HQ Hm t w Hs. destruct (Hm t w Hs) as [Hr Hs']. split; [|done].
  destruct (m t).1, (s w).1; cbn in *; auto.
Qed.

Lemma relates_ret {A B} (Q : A → B → Prop) a b : Q a b → relates Q (sret a) (sret b).
Proof. intros Hq t w Hs. by split. Qed.

Lemma relates_fail {A B} (Q : A → B → Prop) e : relates Q (sfail e) (sfail e).
Proof. intros t w Hs. by split. Qed.

Lemma relates_bind {A B A' B'} (Q : A → B → Prop) (Q' : A' → B' → Prop) m s k l :
  relates Q m s → (∀ a b, Q a b → relates Q' (k a) (l b)) → relates Q' (sbind m k) (sbind s l).
Proof.
  intros Hm Hk t w Hs. unfold sbind. destruct (Hm t w Hs) as [Hr Hs'].
  destruct (m t) as [[a|e] t'], (s w) as [[b|e'] w']; cbn in Hr; try done. by apply (Hk a b).
Qed.

Lemma relates_wrap {A B} (Q : A → B → Prop) pre m s : relates Q m s → relates Q (swrap pre m) (swrap pre s).
Proof.
  intros Hm t w Hs. unfold swrap. destruct (Hm t w Hs) as [Hr Hs'].
  destruct (m t) as [[a|e] t'], (s w) as [[b|e'] w']; cbn in Hr |- *; try done. by subst.
Qed.

Lemma relates_port {A B} (Q : A → B → Prop) op (op' : ST V B) : relates Q op op' → relates Q (port op) (port op').
Proof.
  intros Hop t w Hs. unfold port. rewrite (same_faults _ _ Hs). destruct (faults w) as [|[] rest].
  - by apply Hop.
  - by apply Hop, faults_set.
  - split; [done|by apply faults_set].
  - split; [done|]. by apply Hop, faults_set.
Qed.
End refine.
