(* ===== verification/Audio.v ===== *)
(** * WAV headers

    [internal/audio/wav.go]: the 44-byte RIFF header the gateway puts before the
    worker's PCM16 mono, the duration a number of PCM bytes lasts, and the size
    check. Integers are kept at their Go widths; [le] is
    [binary.LittleEndian.Append...]. [parse_header] is a reader of the format,
    written from the format's layout and not from the writer. *)

From stdpp Require Import base gmap strings list pretty numbers.
From S2P Require Import Prelude GoString.

Definition HeaderSize : Z := 44.
Definition bitsPerSample : Z := 16.
Definition channels : Z := 1.
Definition pcmFormatCode : Z := 1.
Definition UnknownSize : Z := MaxUint32.

(** Conversion to an unsigned [w]-bit integer. *)
Definition uint (w z : Z) : Z := z `mod` 2 ^ w.

(** [n] bytes of [z], least significant first. *)
Fixpoint le (n : nat) (z : Z) : string :=
  match n with
  | O => ""
  | S n' => String (byte_of (z `mod` 256)) (le n' (z `div` 256))
  end.

(** The header's bytes, once the guards have passed. *)
Definition header_bytes (sampleRate dataSize riffSize : Z) : string :=
  let byteRate := uint 32 (uint 32 (uint 32 sampleRate * channels) * bitsPerSample) `div` 8 in
  let blockAlign := (channels * bitsPerSample) `div` 8 in
  "RIFF" +:+ le 4 riffSize +:+ "WAVE" +:+ "fmt " +:+ le 4 16 +:+ le 2 pcmFormatCode
    +:+ le 2 channels +:+ le 4 (uint 32 sampleRate) +:+ le 4 byteRate
    +:+ le 2 blockAlign +:+ le 2 bitsPerSample +:+ "data" +:+ le 4 dataSize.

(** [WriteHeader]: [w] is the writer, which may refuse the bytes. *)
Definition WriteHeader (w : string → option gerr) (sampleRate dataSize : Z) : option gerr :=
  if sampleRate <=? 0 then
    Some (ENew ("write wav header: sample rate " +:+ Itoa sampleRate +:+ " is not positive"))
  else
    let write riffSize :=
      match w (header_bytes sampleRate dataSize riffSize) with
      | Some err => Some (wrapf "write wav header: " err)
      | None => None
      end in
    if dataSize =? UnknownSize then write UnknownSize
    else if MaxUint32 - HeaderSize <? dataSize then
      Some (ENew ("write wav header: " +:+ Itoa dataSize
                    +:+ " bytes exceeds what RIFF can describe"))
    else write (uint 32 (dataSize + HeaderSize - 8)).

Definition DurationMS (pcmBytes sampleRate : Z) : Z :=
  if (sampleRate <=? 0) || (pcmBytes <=? 0) then 0
  else
    let samples := Z.quot pcmBytes (bitsPerSample `div` 8) in
    let ms := Z.quot (int64 (samples * 1000)) sampleRate in
    if MaxInt32 <? ms then MaxInt32 else int32 ms.

Definition PCMSize (pcmBytes : Z) : res Z :=
  if pcmBytes <? 0 then Err (ENew ("negative pcm size " +:+ Itoa pcmBytes))
  else if MaxUint32 - HeaderSize <? pcmBytes then
    Err (ENew (Itoa pcmBytes +:+ " bytes exceeds what RIFF can describe"))
  else Ok (uint 32 pcmBytes).

(** ** The format, from the reader's side *)

Fixpoint read_le (s : string) : Z :=
  match s with
  | "" => 0
  | String c s' => byte_val c + 256 * read_le s'
  end%string.

Record wav_info : Type := {
  wi_riff_size : Z; wi_format : Z; wi_channels : Z; wi_rate : Z;
  wi_byte_rate : Z; wi_block_align : Z; wi_bits : Z; wi_data_size : Z; wi_data : string;
}.

Definition field (s : string) (off len : nat) : string := str_take len (str_drop off s).

(** A canonical 44-byte header and the bytes after it. *)
Definition parse_header (s : string) : option wav_info :=
  if (go_len s <? 44) || negb (String.eqb (field s 0 4) "RIFF")
     || negb (String.eqb (field s 8 8) "WAVEfmt ") || negb (read_le (field s 16 4) =? 16)
     || negb (String.eqb (field s 36 4) "data")
  then None
  else Some {|
    wi_riff_size := read_le (field s 4 4);
    wi_format := read_le (field s 20 2);
    wi_channels := read_le (field s 22 2);
    wi_rate := read_le (field s 24 4);
    wi_byte_rate := read_le (field s 28 4);
    wi_block_align := read_le (field s 32 2);
    wi_bits := read_le (field s 34 2);
    wi_data_size := read_le (field s 40 4);
    wi_data := str_drop 44 s;
  |}.

(** ** Lemmas *)

Lemma le_length n z : String.length (le n z) = n.
Proof. revert z. induction n as [|n IH]; intros z; simpl; [done|]. by rewrite IH. Qed.

Lemma read_le_le n z : 0 ≤ z < 256 ^ Z.of_nat n → read_le (le n z) = z.
Proof.
  revert z. induction n as [|n IH]; intros z Hz; [simpl in *; lia|].
  rewrite Nat2Z.inj_succ, Z.pow_succ_r in Hz by lia.
  cbn [le read_le]. rewrite byte_val_of by (apply Z.mod_pos_bound; lia).
  rewrite IH; [pose proof (Z.div_mod z 256); lia|].
  split; [apply Z.div_pos; lia|]. apply Z.div_lt_upper_bound; lia.
Qed.

Lemma uint_id w z : 0 ≤ z < 2 ^ w → uint w z = z.
Proof. intros. unfold uint. by rewrite Z.mod_small. Qed.

(** Reading the field that starts after [a] and spans [b]. *)
Lemma field_app a b c : field (a +:+ b +:+ c) (String.length a) (String.length b) = b.
Proof. unfold field. by rewrite str_drop_app, str_take_app. Qed.

Lemma field_skip a s off len :
  field (a +:+ s) (String.length a + off) len = field s off len.
Proof. unfold field. induction a as [|c a IH]; [done|]. rewrite str_app_cons. apply IH. Qed.

Lemma header_length rate size riff : go_len (header_bytes rate size riff) = HeaderSize.
Proof. reflexivity. Qed.

Lemma parse_header_bytes rate size riff pcm :
  0 < rate ≤ MaxInt32 → 0 ≤ size ≤ MaxUint32 → 0 ≤ riff ≤ MaxUint32 →
  parse_header (header_bytes rate size riff +:+ pcm) =
    Some {| wi_riff_size := riff; wi_format := 1; wi_channels := 1; wi_rate := rate;
            wi_byte_rate := uint 32 (rate * 16) `div` 8; wi_block_align := 2; wi_bits := 16;
            wi_data_size := size; wi_data := pcm |}.
Proof.
  unfold MaxInt32, MaxUint32. intros Hr Hs Hri.
  assert (uint 32 rate = rate) as Hrate by (apply uint_id; lia).
  assert (0 ≤ uint 32 (rate * 16) `div` 8 < 256 ^ Z.of_nat 4) as Hbyte.
  { pose proof (Z.mod_pos_bound (rate * 16) (2 ^ 32) ltac:(lia)) as Hm. unfold uint.
    split; [apply Z.div_pos; lia|]. apply Z.div_lt_upper_bound; lia. }
  set (s := header_bytes rate size riff +:+ pcm).
  assert (44 ≤ go_len s) as Hlen.
  { subst s. unfold go_len. rewrite str_app_length, Nat2Z.inj_add.
    change (Z.of_nat (String.length (header_bytes rate size riff))) with 44. lia. }
  unfold parse_header. rewrite (proj2 (Z.ltb_ge (go_len s) 44)) by lia.
  change (field s 0 4) with "RIFF". change (field s 8 8) with "WAVEfmt ".
  change (field s 16 4) with (le 4 16). change (field s 36 4) with "data".
  change (field s 4 4) with (le 4 riff). change (field s 20 2) with (le 2 1).
  change (field s 22 2) with (le 2 1). change (field s 24 4) with (le 4 (uint 32 rate)).
  change (field s 28 4) with (le 4 (uint 32 (uint 32 (uint 32 rate * 1) * 16) `div` 8)).
  change (field s 32 2) with (le 2 2). change (field s 34 2) with (le 2 16).
  change (field s 40 4) with (le 4 size). change (str_drop 44 s) with pcm.
  rewrite Hrate, Z.mul_1_r, Hrate.
  rewrite (read_le_le 4 riff), (read_le_le 4 rate), (read_le_le 4 size),
    (read_le_le 4 (_ `div` 8)) by (simpl in *; lia).
  reflexivity.
Qed.

(** Every size [PCMSize] accepts is one [WriteHeader] accepts. *)
Lemma WriteHeader_known w rate size :
  0 < rate → 0 ≤ size ≤ MaxUint32 - HeaderSize →
  WriteHeader w rate size =
    match w (header_bytes rate size (size + 36)) with
    | Some err => Some (wrapf "write wav header: " err)
    | None => None
    end.
Proof.
  intros Hr Hs. unfold WriteHeader, UnknownSize, HeaderSize, MaxUint32 in *.
  rewrite (proj2 (Z.leb_gt rate 0)), (proj2 (Z.eqb_neq size 4294967295)),
    (proj2 (Z.ltb_ge (4294967295 - 44) size)) by lia.
  rewrite uint_id by lia. by replace (size + 44 - 8) with (size + 36) by lia.
Qed.

Lemma PCMSize_spec n :
  match PCMSize n with
  | Ok size => size = n ∧ 0 ≤ n ≤ MaxUint32 - HeaderSize
  | Err _ => n < 0 ∨ MaxUint32 - HeaderSize < n
  end.
Proof.
  unfold PCMSize, MaxUint32, HeaderSize. cases; zbool; try lia.
  rewrite uint_id by lia. lia.
Qed.

(** ** Properties *)

(** A header round trip. For PCM of a size [PCMSize] accepts and a sample
    rate below 2^28, [WriteHeader] succeeds exactly when its writer does, the
    bytes it hands the writer are 44, and a reader of the RIFF layout gets back
    PCM16 mono at that rate: the RIFF size is the file's length less 8, the byte
    rate is twice the sample rate, and the data size is the length of the bytes
    that follow. While streaming ([UnknownSize]) both sizes read as unknown. *)
Theorem wav_roundtrip rate pcm size :
  0 < rate < 2 ^ 28 →
  PCMSize (go_len pcm) = Ok size →
  ∃ h hs,
    (∀ w, WriteHeader w rate size = wrapf "write wav header: " <$> w h) ∧
    (∀ w, WriteHeader w rate UnknownSize = wrapf "write wav header: " <$> w hs) ∧
    go_len h = HeaderSize ∧ go_len hs = HeaderSize ∧
    parse_header (h +:+ pcm) =
      Some {| wi_riff_size := go_len (h +:+ pcm) - 8; wi_format := pcmFormatCode;
              wi_channels := channels; wi_rate := rate; wi_byte_rate := 2 * rate;
              wi_block_align := 2; wi_bits := bitsPerSample;
              wi_data_size := go_len pcm; wi_data := pcm |} ∧
    parse_header (hs +:+ pcm) =
      Some {| wi_riff_size := UnknownSize; wi_format := pcmFormatCode;
              wi_channels := channels; wi_rate := rate; wi_byte_rate := 2 * rate;
              wi_block_align := 2; wi_bits := bitsPerSample;
              wi_data_size := UnknownSize; wi_data := pcm |}.
Proof.
  intros Hr Hsize. pose proof (PCMSize_spec (go_len pcm)) as Hspec. rewrite Hsize in Hspec.
  destruct Hspec as [-> Hn].
  assert (2 * rate = uint 32 (rate * 16) `div` 8) as Hbyte
    by (rewrite uint_id by lia; replace (rate * 16) with (2 * rate * 8) by lia;
        by rewrite Z.div_mul).
  exists (header_bytes rate (go_len pcm) (go_len pcm + 36)),
    (header_bytes rate UnknownSize UnknownSize).
  split_and!; [| |done|done| |].
  - intros w. rewrite WriteHeader_known by lia. by destruct (w _).
  - intros w. unfold WriteHeader. rewrite (proj2 (Z.leb_gt rate 0)) by lia. simpl.
    by destruct (w _).
  - rewrite Hbyte. unfold MaxUint32, HeaderSize in *.
    rewrite parse_header_bytes by (unfold MaxInt32, MaxUint32; lia).
    do 2 f_equal. unfold go_len. rewrite str_app_length, Nat2Z.inj_add.
    change (Z.of_nat (String.length (header_bytes _ _ _))) with 44. lia.
  - rewrite Hbyte. apply parse_header_bytes; unfold MaxInt32, UnknownSize, MaxUint32; lia.
Qed.

Lemma wav_roundtrip_witness :
  ∃ h hs,
    (∀ w, WriteHeader w 24000 4 = wrapf "write wav header: " <$> w h) ∧
    (∀ w, WriteHeader w 24000 UnknownSize = wrapf "write wav header: " <$> w hs) ∧
    go_len h = HeaderSize ∧ go_len hs = HeaderSize ∧
    parse_header (h +:+ "abcd") =
      Some {| wi_riff_size := go_len (h +:+ "abcd") - 8; wi_format := pcmFormatCode;
              wi_channels := channels; wi_rate := 24000; wi_byte_rate := 2 * 24000;
              wi_block_align := 2; wi_bits := bitsPerSample;
              wi_data_size := go_len "abcd"; wi_data := "abcd" |} ∧
    parse_header (hs +:+ "abcd") =
      Some {| wi_riff_size := UnknownSize; wi_format := pcmFormatCode;
              wi_channels := channels; wi_rate := 24000; wi_byte_rate := 2 * 24000;
              wi_block_align := 2; wi_bits := bitsPerSample;
              wi_data_size := UnknownSize; wi_data := "abcd" |}.
Proof. apply (wav_roundtrip 24000 "abcd" 4); [lia|reflexivity]. Defined.

(** [DurationMS] is the exact number of whole milliseconds clamped to
    [MaxInt32], never negative, and monotone in the number of bytes, for every
    buffer below 2^54 bytes, where its 64-bit product cannot overflow. *)
Theorem DurationMS_spec bytes rate :
  bytes < 2 ^ 54 →
  (0 < bytes → 0 < rate →
     DurationMS bytes rate = Z.min MaxInt32 ((bytes `div` 2 * 1000) `div` rate)) ∧
  (bytes ≤ 0 ∨ rate ≤ 0 → DurationMS bytes rate = 0) ∧
  0 ≤ DurationMS bytes rate ≤ MaxInt32 ∧
  (∀ bytes', bytes' ≤ bytes → DurationMS bytes' rate ≤ DurationMS bytes rate).
Proof.
  assert (∀ b, 0 < b < 2 ^ 54 → 0 < rate →
    DurationMS b rate = Z.min MaxInt32 ((b `div` 2 * 1000) `div` rate) ∧
    0 ≤ (b `div` 2 * 1000) `div` rate) as Hpos.
  { intros b Hb Hr. unfold DurationMS.
    rewrite (proj2 (Z.leb_gt rate 0)), (proj2 (Z.leb_gt b 0)) by lia. simpl.
    change (bitsPerSample `div` 8) with 2. rewrite (Z.quot_div_nonneg b 2) by lia.
    assert (0 ≤ b `div` 2 < 2 ^ 53) by (split; [apply Z.div_pos|apply Z.div_lt_upper_bound]; lia).
    rewrite int64_id by (unfold in_int64, MinInt64, MaxInt64; lia).
    rewrite Z.quot_div_nonneg by lia.
    assert (0 ≤ (b `div` 2 * 1000) `div` rate) by (apply Z.div_pos; lia).
    split; [|done]. case_match; zbool; [lia|].
    rewrite int32_id by (unfold in_int32, MinInt32, MaxInt32 in *; lia). lia. }
  assert (∀ b, b ≤ 0 ∨ rate ≤ 0 → DurationMS b rate = 0) as Hzero.
  { intros b Hb. unfold DurationMS.
    destruct Hb; [rewrite orb_comm|]; by rewrite (proj2 (Z.leb_le _ 0)) by done. }
  intros Hlt.
  assert (∀ b, b < 2 ^ 54 → 0 ≤ DurationMS b rate ≤ MaxInt32) as Hrange.
  { intros b Hb. destruct (Z.le_gt_cases b 0); [rewrite Hzero by lia; unfold MaxInt32; lia|].
    destruct (Z.le_gt_cases rate 0); [rewrite Hzero by lia; unfold MaxInt32; lia|].
    destruct (Hpos b) as [-> ?]; unfold MaxInt32; lia. }
  split_and!; [intros; by apply Hpos| intros; by apply Hzero|by apply Hrange..|].
  intros b' Hb'.
  destruct (Z.le_gt_cases b' 0); [rewrite (Hzero b') by lia; by apply Hrange|].
  destruct (Z.le_gt_cases rate 0); [rewrite !Hzero by lia; lia|].
  rewrite (proj1 (Hpos b' ltac:(lia) ltac:(lia))), (proj1 (Hpos bytes ltac:(lia) ltac:(lia))).
  assert ((b' `div` 2 * 1000) `div` rate ≤ (bytes `div` 2 * 1000) `div` rate); [|lia].
  apply Z.div_le_mono; [lia|]. apply Z.mul_le_mono_nonneg_r; [lia|]. apply Z.div_le_mono; lia.
Qed.

Lemma DurationMS_spec_witness :
  DurationMS 48000 24000 = Z.min MaxInt32 ((48000 `div` 2 * 1000) `div` 24000).
Proof. apply (DurationMS_spec 48000 24000); lia. Defined.
