(* ===== verification/Quota.v ===== *)
(** * The monthly character allowance

    [internal/quota]: the check before a synthesis, the record after it, and the
    hourly reconcile against the database; [internal/storage/redis/counter.go]
    is the store they run on, and [internal/synth/quotaport.go] the adapter the
    synthesis uses. The store is an interface ([Counter] and its laws
    [CounterLaws]); [RedisCounter] is the instance. *)

From stdpp Require Import base gmap strings list pretty numbers sorting.
From Stdlib Require Import Ascii SpecFloat.
From S2P Require Import Prelude GoString Float Calendar.

(** ** The port *)

(** [Add] and [Set] may fail, and may then have been applied or not. The
    second argument is the instant of the call. *)
Class Counter (S : Type) : Type := {
  Get : S → Z → string → res Z;
  Add : S → Z → string → Z → Z → option gerr * S;
  Set_ : S → Z → string → Z → Z → option gerr * S;
}.

(** What the quota service relies on: [view s t k] is what key [k] holds at
    time [t] if nothing else is written; [healthy] a store that answers. *)
Class CounterLaws (S : Type) `{Counter S} : Type := {
  view : S → Z → string → Z;
  healthy : S → Prop;
  Get_view s now k v : Get s now k = Ok v → v = view s now k;
  Get_healthy s now k : healthy s → is_Ok (Get s now k) = true;
  Add_healthy s now k d ttl : healthy s → healthy (Add s now k d ttl).2;
  Set_healthy s now k v ttl :
    healthy s → (Set_ s now k v ttl).1 = None ∧ healthy (Set_ s now k v ttl).2;
  Add_view s now k d ttl s' t :
    Add s now k d ttl = (None, s') → now ≤ t < now + ttl → view s' t k = view s now k + d;
  Add_other s now k d ttl t k' : k' ≠ k → view (Add s now k d ttl).2 t k' = view s t k';
  Set_view s now k v ttl s' t :
    Set_ s now k v ttl = (None, s') → now ≤ t < now + ttl → view s' t k = v;
  Set_other s now k v ttl t k' : k' ≠ k → view (Set_ s now k v ttl).2 t k' = view s t k';
}.

(** ** [quota.go] *)

(** [1.05] as a [float64]: 4728779608739021 / 2^52. *)
Definition GraceFactor : spec_float := S754_finite false 4728779608739021 (-52).
Definition counterTTL : Z := 40 * 24 * Hour.

Record Decision : Type := {
  Allowed : bool;
  Used : Z;
  Limit : Z;
  Ceiling : Z;
}.

(** [usage:{tenant_id}:{yyyymm}]; a tenant is its UUID's text. *)
Definition quota_key (tenantID : string) (at_ : Z) : string :=
  "usage:" +:+ tenantID +:+ ":" +:+ Format200601 at_.

Definition ceiling_of (planLimit : Z) : Z :=
  f64_trunc (f64_mul (f64_of_Z planLimit) GraceFactor).

Section service.
Context {S : Type} `{Counter S}.

Definition used (s : S) (now : Z) (tenantID : string) : res Z :=
  rmap_err (wrapf "read usage: ") (Get s now (quota_key tenantID now)).

Definition Check_ (s : S) (now : Z) (tenantID : string) (planLimit chars : Z) : res Decision :=
  if planLimit <=? 0 then
    Ok {| Allowed := true; Used := 0; Limit := planLimit; Ceiling := 0 |}
  else
    rbind (used s now tenantID) (λ u,
      let ceiling := ceiling_of planLimit in
      Ok {| Allowed := int64 (u + chars) <=? ceiling; Used := u; Limit := planLimit;
            Ceiling := ceiling |}).

Definition wrap_error (pre : string) (p : option gerr * S) : option gerr * S :=
  match p with
  | (Some err, s') => (Some (wrapf pre err), s')
  | (None, s') => (None, s')
  end.

Definition Record_ (s : S) (now : Z) (tenantID : string) (chars : Z) : option gerr * S :=
  if chars <=? 0 then (None, s)
  else wrap_error "record usage: " (Add s now (quota_key tenantID now) chars counterTTL).

Definition SetMonth (s : S) (now : Z) (tenantID : string) (month chars : Z) : option gerr * S :=
  wrap_error "set usage: " (Set_ s now (quota_key tenantID month) chars counterTTL).

(** ** [reconcile.go] *)

(** The loop of [RunOnce]. [clock i] is the service's clock when the [i]-th
    total is handled; the count is of corrected tenants. *)
Fixpoint reconcile_loop (s : S) (clock : nat → Z) (from : Z) (totals : list (string * Z))
    (i : nat) (corrected : Z) : option gerr * S * Z :=
  match totals with
  | [] => (None, s, corrected)
  | (tenantID, chars) :: rest =>
      match used s (clock i) tenantID with
      | Err err => (Some (wrapf ("read counter for " +:+ tenantID +:+ ": ") err), s, corrected)
      | Ok before =>
          if before =? chars then
            reconcile_loop s clock from rest (i + 1)%nat corrected
          else
            match SetMonth s (clock i) tenantID from chars with
            | (Some err, s') =>
                (Some (wrapf ("correct counter for " +:+ tenantID +:+ ": ") err), s', corrected)
            | (None, s') =>
                reconcile_loop s' clock from rest (i + 1)%nat (corrected + 1)
            end
      end
  end.

(** [Reconciler.RunOnce]: [source from to] is the database's answer. *)
Definition RunOnce (s : S) (now : Z) (clock : nat → Z)
    (source : Z → Z → res (list (string * Z))) : option gerr * S * Z :=
  let from := month_start now in
  let to := next_month now in
  match source from to with
  | Err err => (Some (wrapf "read authoritative usage: " err), s, 0)
  | Ok totals => reconcile_loop s clock from totals 0 0
  end.

(** ** [synth/quotaport.go] *)

Record Allowance : Type := { al_Allowed : bool; al_Used : Z }.

Definition QuotaAdapter_Check (s : S) (now : Z) (tenantID : string) (planLimit chars : Z)
    : res Allowance :=
  rbind (rmap_err (wrapf "quota check: ") (Check_ s now tenantID planLimit chars)) (λ d,
    Ok {| al_Allowed := Allowed d; al_Used := Used d |}).

Definition QuotaAdapter_Record (s : S) (now : Z) (tenantID : string) (chars : Z)
    : option gerr * S :=
  wrap_error "quota record: " (Record_ s now tenantID chars).
End service.

(** ** [storage/redis/counter.go] *)

(** Keys with an expiry, and whether the server answers. *)
Record RedisCounter : Type := {
  kv : gmap string (Z * Z);
  up : bool;
}.

Definition redis_down : gerr := ENew "redis unavailable".

(** A key past its expiry is absent. *)
Definition live (s : RedisCounter) (now : Z) (k : string) : option Z :=
  match kv s !! k with
  | Some (v, expiry) => if now <? expiry then Some v else None
  | None => None
  end.

Definition redis_Get (s : RedisCounter) (now : Z) (k : string) : res Z :=
  if up s then Ok (default 0 (live s now k))
  else Err (wrapf ("get " +:+ k +:+ ": ") redis_down).

(** [MULTI; INCRBY; EXPIRE; EXEC]. An increment past 64 bits is refused and
    leaves the value, and the [EXPIRE] after it still runs. *)
Definition redis_Add (s : RedisCounter) (now : Z) (k : string) (delta ttl : Z)
    : option gerr * RedisCounter :=
  if up s then
    let old := default 0 (live s now k) in
    if (MinInt64 <=? old + delta) && (old + delta <=? MaxInt64) then
      (None, {| kv := <[k := (old + delta, now + ttl)]> (kv s); up := up s |})
    else
      (Some (wrapf ("add " +:+ k +:+ ": ") (ENew "increment or decrement would overflow")),
       match live s now k with
       | Some v => {| kv := <[k := (v, now + ttl)]> (kv s); up := up s |}
       | None => s
       end)
  else (Some (wrapf ("add " +:+ k +:+ ": ") redis_down), s).

Definition redis_Set (s : RedisCounter) (now : Z) (k : string) (v ttl : Z)
    : option gerr * RedisCounter :=
  if up s then (None, {| kv := <[k := (v, now + ttl)]> (kv s); up := up s |})
  else (Some (wrapf ("set " +:+ k +:+ ": ") redis_down), s).

#[export] Instance RedisCounter_ops : Counter RedisCounter :=
  {| Get := redis_Get; Add := redis_Add; Set_ := redis_Set |}.

Ltac live_cases := unfold live; simpl; repeat first
  [ rewrite lookup_insert_eq | rewrite lookup_insert_ne by congruence
  | rewrite (proj2 (Z.ltb_lt _ _)) by lia ].

#[export] Program Instance RedisCounter_laws : CounterLaws RedisCounter := {|
  view s t k := default 0 (live s t k);
  healthy s := up s = true;
|}.
Next Obligation. unfold Get; simpl; unfold redis_Get. intros. by cases. Qed.
Next Obligation. unfold Get; simpl; unfold redis_Get. intros s now k Hup. by rewrite Hup. Qed.
Next Obligation. unfold Add; simpl; unfold redis_Add. intros s now k d ttl Hup. rewrite Hup. by cases. Qed.
Next Obligation. unfold Set_; simpl; unfold redis_Set. intros s now k v ttl Hup. by rewrite Hup. Qed.
Next Obligation.
  unfold Add; simpl; unfold redis_Add. intros s now k d ttl s' t Hadd Ht.
  cases. by live_cases.
Qed.
Next Obligation.
  unfold Add; simpl; unfold redis_Add. intros s now k d ttl t k' Hne.
  destruct (up s); [|done]. destruct (_ && _); [by live_cases|].
  destruct (live s now k); [by live_cases|done].
Qed.
Next Obligation.
  unfold Set_; simpl; unfold redis_Set. intros s now k v ttl s' t Hset Ht.
  cases. by live_cases.
Qed.
Next Obligation.
  unfold Set_; simpl; unfold redis_Set. intros s now k v ttl t k' Hne.
  destruct (up s); [|done]. by live_cases.
Qed.

(** ** Lemmas *)

(** The double product lands in the right integer: with [L < 2^47] the two
    roundings ([1.05] itself and the product) stay below a twentieth. *)
Lemma ceiling_of_exact L : 0 < L < 2 ^ 47 → ceiling_of L = (21 * L) `div` 20.
Proof.
  intros HL. unfold ceiling_of, GraceFactor.
  destruct (f64_of_Z_pos L ltac:(lia)) as (M & -> & HM & Hd & HMr).
  pose proof (Zdigits2_le L 47 ltac:(lia) ltac:(lia) ltac:(lia)) as Hd47.
  set (d := Zdigits2 L) in *. set (c := 4728779608739021).
  unfold f64_mul, SFmul. cbn [xorb].
  change (Z.pos (M * 4728779608739021)) with (Z.pos M * c).
  assert (Zdigits2 (Z.pos M * c) ≤ 106) as Hdig.
  { apply Zdigits2_le; [lia|lia|]. subst c. lia. }
  assert (105 ≤ Zdigits2 (Z.pos M * c)) as Hdig'.
  { destruct (Zdigits2_bounds (Z.pos M * c) ltac:(lia)) as [[_ Hup] ?].
    destruct (Z.le_gt_cases 105 (Zdigits2 (Z.pos M * c))); [done|].
    assert (2 ^ Zdigits2 (Z.pos M * c) ≤ 2 ^ 104) by (apply Z.pow_le_mono_r; lia).
    subst c. lia. }
  destruct (round_aux_trunc (Z.pos M * c) (d - 53 + -52)) as (q & Hnear & Hfl & ->); [lia..|].
  replace (Z.max 0 (Zdigits2 (Z.pos M * c) - 53)) with (Zdigits2 (Z.pos M * c) - 53) in * by lia.
  set (k := Zdigits2 (Z.pos M * c) - 53) in *.
  rewrite Z.shiftl_div_pow2 by lia.
  set (s := - (k + (d - 53 + -52))).
  assert (5 ≤ s) as Hs by lia.
  (* everything scaled by 2^(105 - d) = 2^k * 2^s *)
  assert (Z.pos M * c = L * c * 2 ^ (53 - d)) as HMc by (rewrite HM; ring).
  assert (2 ^ k * 2 ^ s = 2 ^ 52 * 2 ^ (53 - d)) as Hscale
    by (rewrite <-!Z.pow_add_r by lia; f_equal; lia).
  assert (0 < 2 ^ k ∧ 0 < 2 ^ (53 - d)) as [HA HB] by (split; apply Z.pow_pos_nonneg; lia).
  assert (32 ≤ 2 ^ s) as HS by (change 32 with (2 ^ 5); apply Z.pow_le_mono_r; lia).
  pose proof (Z.div_mod (21 * L) 20 ltac:(lia)) as Hdm.
  pose proof (Z.mod_pos_bound (21 * L) 20 ltac:(lia)) as Hr.
  set (v := (21 * L) `div` 20) in *. set (r := (21 * L) `mod` 20) in *.
  assert (20 * c = 21 * 2 ^ 52 + 4) as Hc by reflexivity.
  clearbody s k v r d c. generalize dependent (2 ^ s). generalize dependent (2 ^ k).
  generalize dependent (2 ^ (53 - d)). intros B HM HMc HB A Hnear Hfl HA T Hscale HT.
  assert (20 * (Z.pos M * c) = A * T * (20 * v + r) + 4 * (L * B)) as Hm
    by (rewrite HMc, Hscale; nia).
  assert (L * B ≤ 2 ^ 47 * B) as HLB by nia.
  assert (A * 32 ≤ A * T) as HAT by nia.
  assert (A * T * r ≤ 19 * (A * T)) as Hr19 by nia.
  assert (0 ≤ A * T * r) as Hr0 by nia.
  symmetry. apply (Z.div_unique _ _ _ (q - T * v)); [left|lia].
  assert (T * v ≤ q) as Hlow.
  { etrans; [|exact Hfl]. apply Z.div_le_lower_bound; nia. }
  assert (A * q < A * (T * (v + 1))) as Hup by nia.
  nia.
Qed.

Definition same_month (t t' : Z) : Prop := month_start t ≤ t' < next_month t.

Lemma quota_key_month tid t t' : 0 ≤ t → same_month t t' → quota_key tid t' = quota_key tid t.
Proof.
  intros Ht Hm. destruct (month_unique t t' Ht Hm) as [HY HM].
  unfold quota_key, Format200601. by rewrite HY, HM.
Qed.

Lemma quota_key_inj tid tid' t t' :
  str_has ":"%char tid = false → str_has ":"%char tid' = false →
  0 ≤ t → 0 ≤ t' → Year t ≤ 9999 → Year t' ≤ 9999 →
  quota_key tid t = quota_key tid' t' → tid = tid' ∧ same_month t t'.
Proof.
  unfold quota_key. intros Htid Htid' Ht Ht' Hy Hy' Heq.
  apply (inj (String.append "usage:")) in Heq.
  rewrite !(str_app_cons ":"%char), !str_app_nil_l in Heq.
  apply sep_split in Heq as [-> Hfmt]; [|done..]. split; [done|].
  destruct (Format200601_inj t t' Ht Ht' Hy Hy' Hfmt) as [HY HM].
  pose proof (month_bounds t' Ht') as Hb.
  unfold same_month. rewrite month_start_eq, next_month_eq in *. by rewrite HY, HM.
Qed.

Section laws.
Context {S : Type} `{CounterLaws S}.

(** One recorded synthesis: when, whose, how many characters. *)
Record consumption : Type := { c_at : Z; c_tenant : string; c_chars : Z }.

(** Record a list of syntheses; the error of the first failure. *)
Fixpoint record_all (s : S) (l : list consumption) : option gerr * S :=
  match l with
  | [] => (None, s)
  | c :: rest =>
      match Record_ s (c_at c) (c_tenant c) (c_chars c) with
      | (Some err, s') => (Some err, s')
      | (None, s') => record_all s' rest
      end
  end.

(** What tenant [tid] consumed in the month [t] is in. *)
Definition consumed (tid : string) (t : Z) (l : list consumption) : Z :=
  foldr (λ c n, (if bool_decide (c_tenant c = tid ∧ same_month t (c_at c))
                 then Z.max 0 (c_chars c) else 0) + n) 0 l.

Lemma Record_spec s now tid chars s' :
  Record_ s now tid chars = (None, s') →
  (∀ k t, k ≠ quota_key tid now → view s' t k = view s t k) ∧
  (∀ t, now ≤ t < now + counterTTL → (∀ t', now ≤ t' ≤ t →
     view s t' (quota_key tid now) = view s t (quota_key tid now)) →
   view s' t (quota_key tid now) = view s t (quota_key tid now) + Z.max 0 chars).
Proof.
  unfold Record_. intros Hrec. destruct (chars <=? 0) eqn:Hc; zbool.
  - simplify_eq. split; [done|]. intros. lia.
  - destruct (Add s now _ chars counterTTL) as [[err|] s1] eqn:Hadd; simplify_eq/=. split.
    + intros k t Hk. pose proof (Add_other s now (quota_key tid now) chars counterTTL t k Hk) as Ho.
      by rewrite Hadd in Ho.
    + intros t Ht Hconst. rewrite (Add_view _ _ _ _ _ _ _ Hadd Ht).
      rewrite (Hconst now) by lia. lia.
Qed.

Definition instant_ok (t : Z) : Prop := 0 ≤ t < days_before_year 10000 * Day.

Lemma record_all_view tid t base l s s' t0 :
  instant_ok t → str_has ":"%char tid = false →
  Forall (λ c, instant_ok (c_at c) ∧ str_has ":"%char (c_tenant c) = false ∧
               t0 ≤ c_at c ≤ t) l →
  StronglySorted (λ c c', c_at c ≤ c_at c') l →
  record_all s l = (None, s') →
  (∀ t', t0 ≤ t' ≤ t → view s t' (quota_key tid t) = base) → t0 ≤ t →
  view s' t (quota_key tid t) = base + consumed tid t l.
Proof.
  intros Ht Htid. revert s t0 base.
  induction l as [|c l IH]; intros s t0 base Hall Hsort Hrec Hbase Ht0; simpl in *.
  - simplify_eq. rewrite Hbase by lia. lia.
  - apply Forall_cons_1 in Hall as [(Hc & Hct & Hbetween) Hall].
    apply StronglySorted_inv in Hsort as [Hsort Hle].
    destruct (Record_ s (c_at c) (c_tenant c) (c_chars c)) as [[err|] s1] eqn:Hr; simplify_eq.
    destruct (Record_spec _ _ _ _ _ Hr) as [Hother Hsame].
    assert (Forall (λ c', instant_ok (c_at c') ∧ str_has ":"%char (c_tenant c') = false ∧
              c_at c ≤ c_at c' ≤ t) l) as Hall'.
    { rewrite Forall_forall in Hall, Hle |- *. intros c' Hin.
      destruct (Hall c' Hin) as (? & ? & ?). specialize (Hle c' Hin). split_and!; try done; lia. }
    destruct (decide (c_tenant c = tid ∧ same_month t (c_at c))) as [[Htc Hm]|Hno].
    + rewrite bool_decide_eq_true_2 by done. rewrite Z.add_assoc.
      assert (quota_key (c_tenant c) (c_at c) = quota_key tid t) as Hk
        by (rewrite Htc; apply quota_key_month; [apply Ht|done]).
      apply (IH s1 (c_at c)); [done..| |lia]. intros t' Ht'. rewrite Hk in Hsame.
      pose proof (month_length t (proj1 Ht)). pose proof (month_bounds t (proj1 Ht)).
      rewrite Hsame, Hbase; [lia|lia| |].
      * destruct Hm. change counterTTL with (40 * Day). change Day with 86400000000000 in *. lia.
      * intros t'' ?. rewrite !Hbase by lia. done.
    + rewrite bool_decide_eq_false_2 by done. rewrite Z.add_0_l.
      apply (IH s1 (c_at c)); [done..| |lia]. intros t' Ht'. rewrite Hother; [apply Hbase; lia|].
      intros Hk. apply Hno.
      assert (∀ x, instant_ok x → Year x ≤ 9999) as Hyear.
      { intros x Hx. destruct (date_spec x (proj1 Hx)) as (HY & _ & _ & _ & Hd & Hy0 & _).
        destruct (Z.le_gt_cases (Year x) 9999); [done|].
        pose proof (year_mono 10000 (Year x)). unfold instant_ok in Hx.
        assert (day_of x < days_before_year 10000)
          by (apply Z.div_lt_upper_bound; [apply Day_pos|lia]). lia. }
      apply quota_key_inj in Hk as [-> Hm]; [..|apply Hyear; done|apply Hyear; done];
        try done; try apply Ht; try apply Hc.
Qed.
(** How many tenants' counters differ from the authoritative totals. *)
Definition wrong (s : S) (now : Z) (totals : list (string * Z)) : Z :=
  countb (λ tc, negb (view s now (quota_key tc.1 now) =? tc.2)) totals.

(** No counter of the month expires before [t]. *)
Definition stable (now t : Z) (s : S) (totals : list (string * Z)) : Prop :=
  ∀ tc, tc ∈ totals → ∀ t', now ≤ t' ≤ t →
    view s t' (quota_key tc.1 now) = view s now (quota_key tc.1 now).

Section reconcile.
Variables (now t : Z) (clock : nat → Z).
Hypothesis Hnow : instant_ok now.
Hypothesis Hclock : ∀ i, now ≤ clock i ≤ t.
Hypothesis Ht : t < next_month now.

Lemma clock_key tid i : quota_key tid (clock i) = quota_key tid now.
Proof.
  apply quota_key_month; [apply Hnow|]. pose proof (Hclock i).
  pose proof (month_bounds now (proj1 Hnow)). split; lia.
Qed.

Lemma month_key tid : quota_key tid (month_start now) = quota_key tid now.
Proof.
  apply quota_key_month; [apply Hnow|]. pose proof (month_bounds now (proj1 Hnow)).
  split; lia.
Qed.

Lemma tenant_keys_ne tid tid' :
  str_has ":"%char tid = false → str_has ":"%char tid' = false → tid ≠ tid' →
  quota_key tid now ≠ quota_key tid' now.
Proof.
  intros H1 H2 Hne Heq. apply Hne. unfold quota_key in Heq.
  apply (inj (String.append "usage:")) in Heq.
  rewrite !(str_app_cons ":"%char), !str_app_nil_l in Heq.
  by apply sep_split in Heq as [-> _].
Qed.

Lemma within_ttl i t' : clock i ≤ t' → t' ≤ t → clock i ≤ t' < clock i + counterTTL.
Proof.
  intros. pose proof (Hclock i). pose proof (month_length now (proj1 Hnow)).
  pose proof (month_bounds now (proj1 Hnow)).
  change counterTTL with (40 * Day). change Day with 86400000000000 in *. lia.
Qed.

Lemma reconcile_loop_spec totals s i n :
  healthy s → NoDup totals.*1 → Forall (λ tc, str_has ":"%char tc.1 = false) totals →
  stable now t s totals →
  ∃ s', reconcile_loop s clock (month_start now) totals i n = (None, s', n + wrong s now totals) ∧
    healthy s' ∧
    (∀ tc, tc ∈ totals → view s' t (quota_key tc.1 now) = tc.2) ∧
    (∀ k t', (∀ tc, tc ∈ totals → k ≠ quota_key tc.1 now) → view s' t' k = view s t' k).
Proof.
  revert s i n. induction totals as [|[tid chars] rest IH]; intros s i n Hh Hnd Hcol Hst.
  { exists s. unfold wrong. simpl. rewrite Z.add_0_r. split_and!; [done..| |done]. set_solver. }
  simpl in Hnd. apply NoDup_cons in Hnd as [Hnin Hnd].
  apply Forall_cons_1 in Hcol as [Hc0 Hcol]. simpl in Hc0.
  assert (∀ tc, tc ∈ rest → quota_key tc.1 now ≠ quota_key tid now) as Hne.
  { intros tc Hin. rewrite Forall_forall in Hcol. apply tenant_keys_ne; [by apply Hcol|done|].
    intros <-. apply Hnin. apply list_elem_of_fmap. by exists tc. }
  assert (now ≤ t) as Hnt by (pose proof (Hclock i); lia).
  pose proof (Hst (tid, chars) ltac:(set_solver)) as Hst0. simpl in Hst0.
  cbn [reconcile_loop]. unfold used. rewrite clock_key.
  pose proof (Get_healthy s (clock i) (quota_key tid now) Hh) as Hget.
  destruct (Get s (clock i) _) as [v|] eqn:Hgv; [|done]. simpl.
  apply Get_view in Hgv as ->. rewrite Hst0 by (pose proof (Hclock i); lia).
  unfold wrong. simpl. destruct (view s now (quota_key tid now) =? chars) eqn:Hv; zbool; simpl.
  - destruct (IH s (i + 1)%nat n Hh Hnd Hcol) as (s' & Hrun & Hh' & Hall & Hother).
    { intros tc Hin. apply Hst. set_solver. }
    exists s'. rewrite Z.add_0_l. split_and!; [done..| |].
    + intros tc [->|Hin]%elem_of_cons; [|by apply Hall]. simpl.
      rewrite Hother by (intros tc' Hin'; by apply not_eq_sym, Hne). rewrite Hst0 by lia. done.
    + intros k t' Hk. apply Hother. intros tc Hin. apply Hk. set_solver.
  - unfold SetMonth. rewrite month_key.
    destruct (Set_healthy s (clock i) (quota_key tid now) chars counterTTL Hh) as [Hset Hh1].
    pose proof (Set_other s (clock i) (quota_key tid now) chars counterTTL) as Hso.
    destruct (Set_ s (clock i) _ chars counterTTL) as [e s1] eqn:Hs1. simpl in Hset, Hh1, Hso.
    subst e. simpl.
    assert (∀ tc t', tc ∈ rest → view s1 t' (quota_key tc.1 now) = view s t' (quota_key tc.1 now))
      as Hrest by (intros; apply Hso; by apply Hne).
    destruct (IH s1 (i + 1)%nat (n + 1) Hh1 Hnd Hcol) as (s' & Hrun & Hh' & Hall & Hother).
    { intros tc Hin t' Ht'. rewrite !Hrest by done. apply Hst; [set_solver|done]. }
    exists s'. split_and!; [|done| |].
    + rewrite Hrun. f_equal.
      replace (wrong s1 now rest) with (wrong s now rest); [unfold wrong; lia|].
      unfold wrong. apply countb_ext. intros tc Hin. by rewrite Hrest.
    + intros tc [->|Hin]%elem_of_cons; [|by apply Hall]. simpl.
      rewrite Hother by (intros tc' Hin'; by apply not_eq_sym, Hne).
      eapply Set_view; [done|]. apply within_ttl; [apply Hclock|lia].
    + intros k t' Hk. rewrite Hother by (intros tc Hin; apply Hk; set_solver).
      apply Hso. apply (Hk (tid, chars)). set_solver.
Qed.
End reconcile.
End laws.

(** The job over any answer of the database. *)
Lemma reconcile_run {S} `{CounterLaws S} (s : S) now t clock source totals :
  instant_ok now → (∀ i, now ≤ clock i ≤ t) → t < next_month now →
  source (month_start now) (next_month now) = Ok totals →
  NoDup totals.*1 → Forall (λ tc, str_has ":"%char tc.1 = false) totals →
  healthy s → stable now t s totals →
  ∃ s', RunOnce s now clock source = (None, s', wrong s now totals) ∧
    (∀ tid chars, (tid, chars) ∈ totals → used s' t tid = Ok chars) ∧
    (∀ tid t', tid ∉ totals.*1 → str_has ":"%char tid = false →
       view s' t' (quota_key tid now) = view s t' (quota_key tid now)).
Proof.
  intros Hnow Hclock Ht Hsrc Hnd Hcol Hh Hst. unfold RunOnce. rewrite Hsrc.
  destruct (reconcile_loop_spec now t clock Hnow Hclock Ht totals s 0 0 Hh Hnd Hcol Hst)
    as (s' & -> & Hh' & Hall & Hother).
  exists s'. rewrite Z.add_0_l. split_and!; [done| |].
  - intros tid chars Hin. unfold used.
    assert (quota_key tid t = quota_key tid now) as ->.
    { apply quota_key_month; [apply Hnow|]. pose proof (Hclock 0%nat).
      pose proof (month_bounds now (proj1 Hnow)). split; lia. }
    pose proof (Get_healthy s' t (quota_key tid now) Hh') as Hget.
    destruct (Get s' t _) as [v|] eqn:Hgv; [|done]. apply Get_view in Hgv as ->. simpl.
    f_equal. apply (Hall (tid, chars) Hin).
  - intros tid t' Hnin Htid. apply Hother. intros tc Hin. rewrite Forall_forall in Hcol.
    apply tenant_keys_ne; [done|by apply Hcol|]. intros ->. apply Hnin.
    apply list_elem_of_fmap. by exists tc.
Qed.

(** ** Properties *)

(** C37. The quota check grants exactly the 5% of grace. For a positive
    allowance below 2^47 characters, on a store that answers, [Check] consumes
    nothing, and allows a request if and only if it keeps the month's total
    within 21/20 of the allowance: the [float64] product truncates to
    [floor(21 * limit / 20)] with no rounding error. An allowance of zero or
    less is pay-as-you-go: always allowed, the store not read. *)
Theorem check_grace {S} `{CounterLaws S} (s : S) now tid limit chars :
  limit < 2 ^ 47 →
  (0 < limit → healthy s → in_int64 (view s now (quota_key tid now) + chars) →
     let u := view s now (quota_key tid now) in
     Check_ s now tid limit chars =
       Ok {| Allowed := 20 * (u + chars) <=? 21 * limit; Used := u; Limit := limit;
             Ceiling := (21 * limit) `div` 20 |}) ∧
  (limit ≤ 0 → Check_ s now tid limit chars =
     Ok {| Allowed := true; Used := 0; Limit := limit; Ceiling := 0 |}).
Proof.
  intros Hlt. unfold Check_, used. split.
  - intros Hpos Hh Hin. rewrite (proj2 (Z.leb_gt limit 0)) by done.
    pose proof (Get_healthy s now (quota_key tid now) Hh) as Hget.
    destruct (Get s now _) as [v|] eqn:Hgv; [|done]. apply Get_view in Hgv as ->. simpl.
    rewrite int64_id by done. rewrite ceiling_of_exact by lia. do 2 f_equal.
    apply eq_bool_prop_intro. rewrite !Is_true_true, !Z.leb_le.
    Z.to_euclidean_division_equations; lia.
  - intros Hnonpos. by rewrite (proj2 (Z.leb_le limit 0)).
Qed.

(** A store to try the theorems on: one tenant with 104 characters used in
    the month of instant 0, kept for 40 days. *)
Definition redis_demo (used : Z) : RedisCounter :=
  {| kv := <[quota_key "t" 0 := (used, counterTTL)]> ∅; up := true |}.

Lemma check_grace_witness :
  Check_ (redis_demo 104) 5 "t" 100 1 =
    Ok {| Allowed := true; Used := 104; Limit := 100; Ceiling := 105 |} ∧
  Check_ (redis_demo 104) 5 "t" 100 2 =
    Ok {| Allowed := false; Used := 104; Limit := 100; Ceiling := 105 |}.
Proof.
  split.
  - refine (eq_trans (proj1 (check_grace (redis_demo 104) 5 "t" 100 1 _) _ _ _) _); by vm_compute.
  - refine (eq_trans (proj1 (check_grace (redis_demo 104) 5 "t" 100 2 _) _ _ _) _); by vm_compute.
Defined.

(** The counter is the sum of the month. Whatever syntheses, of any tenant
    and in any months, are recorded in time order with every write answered,
    the month-to-date count of a tenant is what it was before plus the
    characters of exactly its own records of that month: no other tenant's or
    month's record reaches its key, and the 40-day TTL never drops a count
    inside its month. *)
Theorem month_total {S} `{CounterLaws S} (s s' : S) tid t t0 base l :
  instant_ok t → t0 ≤ t → str_has ":"%char tid = false →
  Forall (λ c, instant_ok (c_at c) ∧ str_has ":"%char (c_tenant c) = false ∧
               t0 ≤ c_at c ≤ t) l →
  StronglySorted (λ c c', c_at c ≤ c_at c') l →
  (∀ t', t0 ≤ t' ≤ t → view s t' (quota_key tid t) = base) →
  record_all s l = (None, s') →
  healthy s' →
  used s' t tid = Ok (base + consumed tid t l).
Proof.
  intros Ht Ht0 Htid Hall Hsort Hbase Hrec Hh. unfold used.
  pose proof (Get_healthy s' t (quota_key tid t) Hh) as Hget.
  destruct (Get s' t _) as [v|] eqn:Hgv; [|done]. apply Get_view in Hgv as ->. simpl.
  f_equal. by eapply record_all_view.
Qed.

Lemma month_total_witness :
  let l := [{| c_at := 1; c_tenant := "t"; c_chars := 30 |};
            {| c_at := 2; c_tenant := "u"; c_chars := 7 |};
            {| c_at := 20 * Day; c_tenant := "t"; c_chars := 12 |};
            {| c_at := 31 * Day; c_tenant := "t"; c_chars := 9 |}] in
  used (record_all (redis_demo 50) l).2 (30 * Day) "t" = Ok 92 ∧
  used (record_all (redis_demo 50) l).2 (31 * Day) "t" = Ok 9.
Proof.
  intros l. split; [by vm_compute|].
  refine (month_total (redis_demo 50) _ "t" (31 * Day) 0 0 l _ _ _ _ _ _ _ _);
    [split; by vm_compute|by vm_compute|by vm_compute| | | |by vm_compute|by vm_compute].
  - repeat constructor; by vm_compute.
  - repeat constructor; by vm_compute.
  - intros t' _. reflexivity.
Defined.
