(* ===== verification/Cache.v ===== *)
(** * The audio cache

    [internal/cache]: the canonical key a synthesis is cached under, and the
    [Manager] over its three stores. The stores are the adapters' code:
    the Redis index ([storage/redis/cacheindex.go]), the bucket
    ([storage/s3/s3.go]) and the catalogue table ([storage/postgres/cacherepo.go],
    whose statements are [cache.sql]). Every call to a store goes through
    [port], so it may be refused or its answer lost. SHA-256 is a parameter. *)

From stdpp Require Import base gmap strings list pretty numbers.
From Stdlib Require Import Ascii SpecFloat.
From S2P Require Import Prelude GoString Float.

(** ** [key.go] *)

Record Params : Type := {
  CFGScale : spec_float;
  AudioTemperature : spec_float;
  AudioTopK : Z;
  AudioTopP : spec_float;
  AudioRepetitionPenalty : spec_float;
  EOAExtraFrames : Z;
  SampleRate : Z;
}.

Record Input : Type := {
  ModelVersion : string;
  VoiceID : string;
  Normalize : bool;
  In_Params : Params;
  Text : string;
}.

Definition canonicalFloat (v : spec_float) : string := FormatFloat4 v.

Definition canonicalParams (p : Params) : string :=
  Join [ "cfg=" +:+ canonicalFloat (CFGScale p);
         "temp=" +:+ canonicalFloat (AudioTemperature p);
         "topk=" +:+ Itoa (AudioTopK p);
         "topp=" +:+ canonicalFloat (AudioTopP p);
         "rep=" +:+ canonicalFloat (AudioRepetitionPenalty p);
         "eoa=" +:+ Itoa (EOAExtraFrames p);
         "rate=" +:+ Itoa (SampleRate p) ] ",".

Definition CanonicalText (text : string) : string := Join (Fields text) " ".

(** The bytes the key is the digest of. *)
Definition key_material (in_ : Input) : string :=
  ModelVersion in_ +:+ "|" +:+ VoiceID in_ +:+ "|" +:+ FormatBool (Normalize in_)
    +:+ "|" +:+ canonicalParams (In_Params in_) +:+ "|" +:+ CanonicalText (Text in_).

(** A key is its digest's bytes; [Key_String] is its [String] method. *)
Definition Derive (sha256 : string → string) (in_ : Input) : string := sha256 (key_material in_).
Definition Key_String (k : string) : string := hex_of k.

(** ** [cache.go]: data *)

Definition IndexTTL : Z := 30 * 24 * Hour.

Record Entry : Type := {
  S3Key : string;
  Format : string;
  En_DurationMS : Z;
  Bytes : Z;
}.

Definition ObjectKey (key : string) : string :=
  let hex := Key_String key in
  "cache/" +:+ str_take 2 hex +:+ "/" +:+ hex +:+ ".pcm".

(** ** The stores *)

(** One row of [audio_cache]. *)
Record cache_row : Type := {
  cr_entry : Entry;
  cr_hit_count : Z;
  cr_last_hit_at : Z;
}.

Record CacheWorld : Type := {
  cw_index : gmap string (gmap string string * Z);
  cw_objects : gmap string string;
  cw_rows : gmap string cache_row;
  cw_now : Z;
  cw_faults : list fault;
}.

Definition set_index (f : gmap string (gmap string string * Z) → gmap string (gmap string string * Z))
    (w : CacheWorld) : CacheWorld :=
  {| cw_index := f (cw_index w); cw_objects := cw_objects w; cw_rows := cw_rows w;
     cw_now := cw_now w; cw_faults := cw_faults w |}.
Definition set_objects (f : gmap string string → gmap string string) (w : CacheWorld) : CacheWorld :=
  {| cw_index := cw_index w; cw_objects := f (cw_objects w); cw_rows := cw_rows w;
     cw_now := cw_now w; cw_faults := cw_faults w |}.
Definition set_rows (f : gmap string cache_row → gmap string cache_row) (w : CacheWorld) : CacheWorld :=
  {| cw_index := cw_index w; cw_objects := cw_objects w; cw_rows := f (cw_rows w);
     cw_now := cw_now w; cw_faults := cw_faults w |}.
Definition advance (dt : Z) (w : CacheWorld) : CacheWorld :=
  {| cw_index := cw_index w; cw_objects := cw_objects w; cw_rows := cw_rows w;
     cw_now := cw_now w + dt; cw_faults := cw_faults w |}.

#[export] Instance CacheWorld_faults : HasFaults CacheWorld := {|
  faults := cw_faults;
  set_faults fs w :=
    {| cw_index := cw_index w; cw_objects := cw_objects w; cw_rows := cw_rows w;
       cw_now := cw_now w; cw_faults := fs |};
|}.

Definition CM (A : Type) : Type := ST CacheWorld A.

(** ** [storage/redis/cacheindex.go] *)

Definition indexKey (key : string) : string := "cache:" +:+ Key_String key.

(** The unexpired hash at a key. *)
Definition hash_at (w : CacheWorld) (k : string) : option (gmap string string) :=
  match cw_index w !! k with
  | Some (h, expiry) => if cw_now w <? expiry then Some h else None
  | None => None
  end.

Definition HGetAll (k : string) : CM (gmap string string) :=
  port (λ w, (Ok (default ∅ (hash_at w k)), w)).
Definition Expire (k : string) (ttl : Z) : CM () :=
  port (λ w, (Ok (), match hash_at w k with
                     | Some h => set_index (<[k := (h, cw_now w + ttl)]>) w
                     | None => w
                     end)).

Definition Index_Get (key : string) : CM Entry :=
  let* fields := swrap "read cache index: " (HGetAll (indexKey key)) in
  if bool_decide (fields = ∅) then sfail (ESentinel ErrMiss)
  else match ParseInt (default "" (fields !! "duration_ms")) 32 with
  | None => sfail (ESentinel ErrMiss)
  | Some duration =>
      match ParseInt (default "" (fields !! "bytes")) 64 with
      | None => sfail (ESentinel ErrMiss)
      | Some size =>
          swrap "refresh cache index ttl: " (Expire (indexKey key) IndexTTL) ;*
          sret {| S3Key := default "" (fields !! "s3_key");
                  Format := default "" (fields !! "format");
                  En_DurationMS := duration; Bytes := size |}
      end
  end.

(** The fields [Put] writes, over those already there. *)
Definition hset_entry (entry : Entry) (h : gmap string string) : gmap string string :=
  <["s3_key" := S3Key entry]> (<["format" := Format entry]>
    (<["duration_ms" := Itoa (En_DurationMS entry)]> (<["bytes" := Itoa (Bytes entry)]> h))).

Definition Index_Put (key : string) (entry : Entry) (ttl : Z) : CM () :=
  swrap "write cache index: " (port (λ w,
    (Ok (), set_index (<[indexKey key :=
       (hset_entry entry (default ∅ (hash_at w (indexKey key))), cw_now w + ttl)]>) w))).

Definition Index_Delete (key : string) : CM () :=
  swrap "delete cache index: " (port (λ w, (Ok (), set_index (delete (indexKey key)) w))).

(** ** [storage/s3/s3.go] *)

Definition Store_Get (s3Key : string) : CM string := λ w,
  match port (λ w, (Ok (cw_objects w !! s3Key), w)) w with
  | (Ok (Some body), w') => (Ok body, w')
  | (Ok None, w') => (Err (ESentinel ErrMiss), w')
  | (Err e, w') => (Err (wrapf ("get " +:+ s3Key +:+ ": ") e), w')
  end.
(** A size of 0 or more is sent as the content length, which must be the body's. *)
Definition Store_Put (s3Key body : string) (size : Z) : CM () :=
  swrap ("put " +:+ s3Key +:+ ": ") (port (λ w,
    if (0 <=? size) && negb (size =? go_len body) then
      (Err (ENew "content length does not match the body"), w)
    else (Ok (), set_objects (<[s3Key := body]>) w))).
Definition Store_Delete (s3Key : string) : CM () :=
  swrap ("delete " +:+ s3Key +:+ ": ") (port (λ w, (Ok (), set_objects (delete s3Key) w))).

(** ** [storage/postgres/cacherepo.go] and [cache.sql] *)

(** The table's check constraints. *)
Definition row_ok (key : string) (entry : Entry) : bool :=
  (go_len key =? 32) && (0 <=? En_DurationMS entry) && (0 <=? Bytes entry).

Definition Catalogue_Record (key : string) (entry : Entry) : CM () :=
  swrap "upsert cache entry: " (port (λ w,
    if row_ok key entry then
      (Ok (), set_rows (<[key :=
         {| cr_entry := entry;
            cr_hit_count := from_option cr_hit_count 0 (cw_rows w !! key);
            cr_last_hit_at := cw_now w |}]>) w)
    else (Err (ENew "new row violates check constraint"), w))).

Definition Catalogue_Touch (key : string) : CM () :=
  swrap "touch cache entry: " (port (λ w,
    (Ok (), match cw_rows w !! key with
            | Some r => set_rows (<[key := {| cr_entry := cr_entry r;
                                              cr_hit_count := cr_hit_count r + 1;
                                              cr_last_hit_at := cw_now w |}]>) w
            | None => w
            end))).

(** ** [cache.go]: the manager *)

(** [Lookup] returns an entry, a reader and an error; the reader may come with
    an error. A reader is the bytes it will deliver. *)
Definition Lookup (key : string) : CM ((Entry * string) * option gerr) :=
  let* entry := Index_Get key in
  try r := Store_Get (S3Key entry) in
  match r with
  | Err _ =>
      swrap "drop stale index entry: " (Index_Delete key) ;*
      sfail (ESentinel ErrMiss)
  | Ok body =>
      try r := Catalogue_Touch key in
      match r with
      | Err err => sret ((entry, body), Some (wrapf "touch cache entry: " err))
      | Ok _ => sret ((entry, body), None)
      end
  end.

(** The entry [Store] writes: the default object key filled in. *)
Definition stored_entry (key : string) (entry : Entry) : Entry :=
  if String.eqb (S3Key entry) "" then
    {| S3Key := ObjectKey key; Format := Format entry;
       En_DurationMS := En_DurationMS entry; Bytes := Bytes entry |}
  else entry.

Definition Store (key : string) (entry : Entry) (body : string) : CM () :=
  let entry := stored_entry key entry in
  swrap "put audio: " (Store_Put (S3Key entry) body (Bytes entry)) ;*
  swrap "record cache entry: " (Catalogue_Record key entry) ;*
  swrap "index cache entry: " (Index_Put key entry IndexTTL).

(** ** Lemmas: the key *)

(** The separators of the key material never occur in a rendered number. *)
Definition sep (c : ascii) : Prop := c = ","%char ∨ c = "|"%char.

Lemma Itoa_sep c z : sep c → str_has c (Itoa z) = false.
Proof.
  intros Hc. destruct (str_has c (Itoa z)) eqn:H; [|done].
  apply Itoa_chars in H. by destruct Hc as [->| ->], H.
Qed.

Lemma FormatFloat4_sep c v : sep c → str_has c (FormatFloat4 v) = false.
Proof.
  intros Hc. pose proof (λ z, Itoa_sep c z Hc) as HI. unfold FormatFloat4, pad4.
  destruct v as [[]|[]| |[] m e]; rewrite ?str_has_app, ?HI; by destruct Hc as [->| ->].
Qed.

Definition param_fields (p : Params) : list string :=
  [ "cfg=" +:+ canonicalFloat (CFGScale p);
    "temp=" +:+ canonicalFloat (AudioTemperature p);
    "topk=" +:+ Itoa (AudioTopK p);
    "topp=" +:+ canonicalFloat (AudioTopP p);
    "rep=" +:+ canonicalFloat (AudioRepetitionPenalty p);
    "eoa=" +:+ Itoa (EOAExtraFrames p);
    "rate=" +:+ Itoa (SampleRate p) ].

Lemma param_fields_sep c p : sep c → Forall (λ s, str_has c s = false) (param_fields p).
Proof.
  intros Hc. unfold param_fields, canonicalFloat.
  repeat constructor; rewrite str_has_app, ?FormatFloat4_sep, ?Itoa_sep by done;
    by destruct Hc as [->| ->].
Qed.

(** Equal knobs: the floats agree to four decimals, the integers agree. *)
Definition params_equiv (p q : Params) : Prop :=
  canonicalFloat (CFGScale p) = canonicalFloat (CFGScale q) ∧
  canonicalFloat (AudioTemperature p) = canonicalFloat (AudioTemperature q) ∧
  AudioTopK p = AudioTopK q ∧
  canonicalFloat (AudioTopP p) = canonicalFloat (AudioTopP q) ∧
  canonicalFloat (AudioRepetitionPenalty p) = canonicalFloat (AudioRepetitionPenalty q) ∧
  EOAExtraFrames p = EOAExtraFrames q ∧ SampleRate p = SampleRate q.

Lemma canonicalParams_inj p q : canonicalParams p = canonicalParams q ↔ params_equiv p q.
Proof.
  split.
  - intros Heq. apply (Join_inj ","%char (param_fields p) (param_fields q)) in Heq;
      [|apply param_fields_sep; left; reflexivity|apply param_fields_sep; left; reflexivity|done].
    unfold param_fields in Heq. simplify_eq. unfold params_equiv. split_and!; congruence.
  - intros (H1 & H2 & H3 & H4 & H5 & H6 & H7). unfold canonicalParams. congruence.
Qed.

Lemma canonicalParams_bar p : str_has "|"%char (canonicalParams p) = false.
Proof.
  apply (str_has_Join "|"%char "," (param_fields p)); [done|].
  apply param_fields_sep. right. reflexivity.
Qed.

Lemma CanonicalText_inj s t : CanonicalText s = CanonicalText t ↔ Fields s = Fields t.
Proof.
  unfold CanonicalText. split; [|congruence]. intros Heq.
  rewrite <-(Fields_Join s), <-(Fields_Join t). by rewrite Heq.
Qed.

Definition bar_free (in_ : Input) : Prop :=
  str_has "|"%char (ModelVersion in_) = false ∧ str_has "|"%char (VoiceID in_) = false.

Lemma key_material_inj i j :
  bar_free i → bar_free j →
  key_material i = key_material j ↔
    ModelVersion i = ModelVersion j ∧ VoiceID i = VoiceID j ∧ Normalize i = Normalize j ∧
    params_equiv (In_Params i) (In_Params j) ∧ Fields (Text i) = Fields (Text j).
Proof.
  intros [Hm Hv] [Hm' Hv']. rewrite <-canonicalParams_inj, <-CanonicalText_inj.
  unfold key_material. split; [|intros (-> & -> & -> & -> & ->); done]. intros Heq.
  rewrite !(str_app_cons "|"%char), !str_app_nil_l in Heq.
  apply sep_split in Heq as [-> Heq]; [|done..].
  apply sep_split in Heq as [-> Heq]; [|done..].
  apply sep_split in Heq as [Hn Heq]; [|by destruct (Normalize i)|by destruct (Normalize j)].
  apply sep_split in Heq as [-> ->]; [|apply canonicalParams_bar..].
  split_and!; try done. by destruct (Normalize i), (Normalize j).
Qed.

(** ** Lemmas: the stores *)

Lemma hset_fields e h :
  hset_entry e h !! "s3_key" = Some (S3Key e) ∧ hset_entry e h !! "format" = Some (Format e) ∧
  hset_entry e h !! "duration_ms" = Some (Itoa (En_DurationMS e)) ∧
  hset_entry e h !! "bytes" = Some (Itoa (Bytes e)) ∧ hset_entry e h ≠ ∅.
Proof.
  unfold hset_entry. split_and!;
    repeat first [rewrite lookup_insert_eq | rewrite lookup_insert_ne by done]; try done.
  apply insert_non_empty.
Qed.

Definition entry_ok (e : Entry) : Prop := 0 ≤ En_DurationMS e ≤ MaxInt32 ∧ 0 ≤ Bytes e ≤ MaxInt64.

Lemma entry_parses e :
  entry_ok e → ParseInt (Itoa (En_DurationMS e)) 32 = Some (En_DurationMS e) ∧
               ParseInt (Itoa (Bytes e)) 64 = Some (Bytes e).
Proof.
  unfold entry_ok, MaxInt32, MaxInt64. intros. split; apply ParseInt_Itoa; simpl; lia.
Qed.

Lemma hex_of_inj s t : hex_of s = hex_of t → s = t.
Proof.
  revert t. induction s as [|c s IH]; intros [|d t]; simpl; try done. intros Heq.
  injection Heq as H1 H2 H3. f_equal; [|by apply IH].
  assert (∀ n, 0 ≤ n < 16 → byte_val (hex_digit n) = if n <? 10 then 48 + n else 87 + n) as Hd
    by (intros n Hn; unfold hex_digit; destruct (n <? 10) eqn:?; zbool; apply byte_val_of; lia).
  assert (∀ n m, 0 ≤ n < 16 → 0 ≤ m < 16 → hex_digit n = hex_digit m → n = m) as Hinj.
  { intros n m Hn Hm Hnm. assert (byte_val (hex_digit n) = byte_val (hex_digit m)) as Hv
      by (by rewrite Hnm). rewrite !Hd in Hv by done.
    destruct (n <? 10) eqn:?, (m <? 10) eqn:?; zbool; lia. }
  pose proof (byte_val_range c). pose proof (byte_val_range d).
  apply Hinj in H1; [|split; [apply Z.div_pos|apply Z.div_lt_upper_bound]; lia..].
  apply Hinj in H2; [|apply Z.mod_pos_bound; lia..].
  rewrite <-(byte_of_val c), <-(byte_of_val d). f_equal.
  rewrite (Z.div_mod (byte_val c) 16), (Z.div_mod (byte_val d) 16) by lia. lia.
Qed.

(** What the index says of a key, as [Index_Get] reads it. *)
Definition index_entry (w : CacheWorld) (key : string) : option Entry :=
  match hash_at w (indexKey key) with
  | Some h =>
      if bool_decide (h = ∅) then None
      else match ParseInt (default "" (h !! "duration_ms")) 32,
                 ParseInt (default "" (h !! "bytes")) 64 with
           | Some d, Some n =>
               Some {| S3Key := default "" (h !! "s3_key"); Format := default "" (h !! "format");
                       En_DurationMS := d; Bytes := n |}
           | _, _ => None
           end
  | None => None
  end.

(** What a lookup answers when every store answers. *)
Definition lookup_answer (w : CacheWorld) (key : string) : res ((Entry * string) * option gerr) :=
  match index_entry w key with
  | Some e => match cw_objects w !! S3Key e with
              | Some body => Ok ((e, body), None)
              | None => Err (ESentinel ErrMiss)
              end
  | None => Err (ESentinel ErrMiss)
  end.

Ltac answered := unfold swrap, stry, sbind, sret, sfail; cbn beta iota;
  repeat (rewrite port_answered by done; cbn beta iota).

Lemma Lookup_answer w key : cw_faults w = [] → (Lookup key w).1 = lookup_answer w key.
Proof.
  intros Hf. unfold Lookup, Index_Get, HGetAll, lookup_answer, index_entry. answered.
  destruct (hash_at w (indexKey key)) as [h|] eqn:Hh; simpl; [|done].
  case_bool_decide; [done|].
  destruct (ParseInt _ 32) as [d|]; [|done]. destruct (ParseInt _ 64) as [n|]; [|done].
  unfold Expire. answered. rewrite Hh. unfold Store_Get. answered. simpl.
  destruct (cw_objects w !! _) as [body|]; cbn beta iota.
  - unfold Catalogue_Touch. answered. by destruct (cw_rows _ !! key).
  - unfold Index_Delete. by answered.
Qed.

(** The row after a lookup that found the audio. *)
Lemma Lookup_touches w key e body :
  cw_faults w = [] → lookup_answer w key = Ok ((e, body), None) →
  cw_rows (Lookup key w).2 !! key =
    (λ r, {| cr_entry := cr_entry r; cr_hit_count := cr_hit_count r + 1;
             cr_last_hit_at := cw_now w |}) <$> cw_rows w !! key.
Proof.
  intros Hf. unfold Lookup, Index_Get, HGetAll, lookup_answer, index_entry. answered.
  destruct (hash_at w (indexKey key)) as [h|] eqn:Hh; simpl; [|done].
  case_bool_decide; [done|].
  destruct (ParseInt _ 32) as [d|]; [|done]. destruct (ParseInt _ 64) as [n|]; [|done].
  unfold Expire. answered. rewrite Hh. unfold Store_Get. answered. simpl.
  destruct (cw_objects w !! _) as [body'|]; [|done]; intros; simplify_eq/=.
  unfold Catalogue_Touch. answered. simpl.
  destruct (cw_rows w !! key) as [r|] eqn:Hr; simpl; [by rewrite lookup_insert_eq|by rewrite Hr].
Qed.

Lemma index_entry_put w key e expiry h objs rows now fs :
  entry_ok e → now < expiry →
  index_entry {| cw_index := <[indexKey key := (hset_entry e h, expiry)]> w; cw_objects := objs;
                 cw_rows := rows; cw_now := now; cw_faults := fs |} key = Some e.
Proof.
  intros He Hnow. unfold index_entry, hash_at. simpl. rewrite lookup_insert_eq.
  rewrite (proj2 (Z.ltb_lt now expiry)) by done.
  destruct (hset_fields e h) as (-> & -> & -> & -> & Hne). rewrite bool_decide_eq_false_2 by done.
  simpl. destruct (entry_parses e He) as [-> ->]. by destruct e.
Qed.

Lemma indexKey_inj k k' : indexKey k = indexKey k' → k = k'.
Proof. intros H. apply (inj (String.append "cache:")) in H. by apply hex_of_inj. Qed.

(** ** Lemmas: no dangling index entry *)

Definition no_dangling (w : CacheWorld) : Prop :=
  ∀ key e, index_entry w key = Some e → is_Some (cw_objects w !! S3Key e).

Lemma no_dangling_faults fs w : no_dangling w → no_dangling (set_faults fs w).
Proof. done. Qed.

Lemma no_dangling_objects w k body : no_dangling w → no_dangling (set_objects <[k := body]> w).
Proof.
  intros Hw key e He. specialize (Hw key e He). simpl.
  destruct (decide (S3Key e = k)) as [->|]; [by rewrite lookup_insert_eq|].
  by rewrite lookup_insert_ne.
Qed.

Lemma no_dangling_rows w f : no_dangling w → no_dangling (set_rows f w).
Proof. done. Qed.

Lemma no_dangling_delete w k : no_dangling w → no_dangling (set_index (delete k) w).
Proof.
  intros Hw key e. unfold index_entry, hash_at. simpl. intros He. apply (Hw key e).
  unfold index_entry, hash_at. destruct (decide (k = indexKey key)) as [->|Hne].
  - by rewrite lookup_delete_eq in He.
  - by rewrite lookup_delete_ne in He.
Qed.

Lemma no_dangling_expire w k h expiry :
  hash_at w k = Some h → no_dangling w → no_dangling (set_index <[k := (h, expiry)]> w).
Proof.
  intros Hh Hw key e. unfold index_entry. intros He. apply (Hw key e). unfold index_entry.
  destruct (decide (k = indexKey key)) as [->|Hne].
  - rewrite Hh. unfold hash_at in He. simpl in He. rewrite lookup_insert_eq in He.
    by destruct (_ <? _).
  - unfold hash_at in *. simpl in He. by rewrite lookup_insert_ne in He.
Qed.

Lemma no_dangling_put w key e h expiry :
  is_Some (cw_objects w !! S3Key e) → no_dangling w →
  no_dangling (set_index <[indexKey key := (hset_entry e h, expiry)]> w).
Proof.
  intros Hobj Hw key' e'. unfold index_entry, hash_at. simpl.
  destruct (decide (key' = key)) as [->|Hne].
  - rewrite lookup_insert_eq. destruct (_ <? _); [|done].
    destruct (hset_fields e h) as (-> & -> & -> & -> & Hnz).
    rewrite bool_decide_eq_false_2 by done. simpl. intros. by cases.
  - rewrite lookup_insert_ne by (intros Heq; apply indexKey_inj in Heq; congruence).
    intros He. apply (Hw key' e'). done.
Qed.

#[export] Hint Resolve no_dangling_faults no_dangling_objects no_dangling_rows
  no_dangling_delete no_dangling_expire : gateway.

Lemma keeps_no_dangling_port {A} (op : CM A) : keeps no_dangling op → keeps no_dangling (port op).
Proof. apply keeps_port. auto with gateway. Qed.
#[export] Hint Resolve keeps_no_dangling_port : gateway.

Lemma Index_Get_keeps key : keeps no_dangling (Index_Get key).
Proof.
  unfold Index_Get. apply keeps_bind.
  { apply keeps_wrap, keeps_no_dangling_port. by intros w. }
  intros fields. repeat case_match; auto with gateway.
  apply keeps_bind; [|intros; by apply keeps_ret].
  apply keeps_wrap, keeps_no_dangling_port. intros w Hw. simpl.
  destruct (hash_at w _) eqn:?; auto with gateway.
Qed.

Lemma Lookup_keeps key : keeps no_dangling (Lookup key).
Proof.
  unfold Lookup. apply keeps_bind; [apply Index_Get_keeps|]. intros e.
  apply keeps_try.
  { intros w Hw. unfold Store_Get.
    pose proof (keeps_no_dangling_port (λ w, (Ok (cw_objects w !! S3Key e), w)) (λ w H, H) w Hw) as Hp.
    by destruct (port _ w) as [[[body|]|err] w']. }
  intros [body|err].
  - apply keeps_try; [|intros []; apply keeps_ret].
    apply keeps_wrap, keeps_no_dangling_port. intros w Hw. simpl. by case_match.
  - apply keeps_bind; [|intros; apply keeps_fail]. apply keeps_wrap, keeps_wrap, keeps_no_dangling_port.
    intros w Hw. simpl. auto with gateway.
Qed.

(** No dangling entry, and the object at [k] is there. *)
Definition backed (k : string) (w : CacheWorld) : Prop :=
  no_dangling w ∧ is_Some (cw_objects w !! k).

Lemma backed_faults k fs w : backed k w → backed k (set_faults fs w).
Proof. done. Qed.

Lemma Store_Put_backed k body size w :
  no_dangling w →
  match Store_Put k body size w with
  | (Ok _, w') => backed k w'
  | (Err _, w') => no_dangling w'
  end.
Proof.
  intros Hw. unfold Store_Put, swrap, port.
  assert (∀ fs, backed k (set_objects <[k := body]> (set_faults fs w))) as Hb.
  { intros fs. split; [by apply no_dangling_objects|]. simpl. by rewrite lookup_insert_eq. }
  assert (backed k (set_objects <[k := body]> w)) as Hb'
    by (split; [by apply no_dangling_objects|]; simpl; by rewrite lookup_insert_eq).
  destruct (faults w) as [|[] fs]; [| |done|];
    destruct ((0 <=? size) && negb (size =? go_len body)); simpl; try done;
    first [apply Hb' | apply (Hb fs)].
Qed.

Lemma Catalogue_Record_backed k key e : keeps (backed k) (Catalogue_Record key e).
Proof.
  apply keeps_wrap, keeps_port; [intros; by apply backed_faults|].
  intros w [Hw Hk]. destruct (row_ok key e); [|done]. simpl. split; [by apply no_dangling_rows|done].
Qed.

Lemma Index_Put_backed key e ttl : keeps (backed (S3Key e)) (Index_Put key e ttl).
Proof.
  apply keeps_wrap, keeps_port; [intros; by apply backed_faults|].
  intros w [Hw Hk]. simpl. split; [by apply no_dangling_put|done].
Qed.

Lemma Store_keeps key e body : keeps no_dangling (Store key e body).
Proof.
  intros w Hw. unfold Store. set (e' := stored_entry key e).
  pose proof (Store_Put_backed (S3Key e') body (Bytes e') w Hw) as Hput.
  unfold sbind, swrap at 1. destruct (Store_Put _ _ _ w) as [[[]|err] w1]; [|done].
  assert (keeps (backed (S3Key e'))
    (sbind (swrap "record cache entry: " (Catalogue_Record key e'))
       (λ _, swrap "index cache entry: " (Index_Put key e' IndexTTL)))) as Hk.
  { apply keeps_bind; [apply keeps_wrap, Catalogue_Record_backed|].
    intros _. apply keeps_wrap, Index_Put_backed. }
  apply (Hk w1 Hput).
Qed.

(** The world after a [Store] every store answers. *)
Lemma Store_answered key e body w :
  cw_faults w = [] → go_len key = 32 → entry_ok e → Bytes e = go_len body →
  let e' := stored_entry key e in
  Store key e body w =
    (Ok (), set_index <[indexKey key :=
              (hset_entry e' (default ∅ (hash_at w (indexKey key))), cw_now w + IndexTTL)]>
            (set_rows <[key := {| cr_entry := e';
                                  cr_hit_count := from_option cr_hit_count 0 (cw_rows w !! key);
                                  cr_last_hit_at := cw_now w |}]>
              (set_objects <[S3Key e' := body]> w))).
Proof.
  intros Hf Hk [Hd Hb] Hlen e'. unfold Store. fold e'.
  assert (En_DurationMS e' = En_DurationMS e ∧ Bytes e' = Bytes e) as [Hd' Hb']
    by (subst e'; unfold stored_entry; by case_match).
  unfold Store_Put. answered. rewrite Hb', Hlen, Z.eqb_refl, andb_false_r. cbn beta iota.
  unfold Catalogue_Record. answered. unfold row_ok. rewrite Hk, Hd', Hb'.
  rewrite (proj2 (Z.leb_le 0 (En_DurationMS e))), (proj2 (Z.leb_le 0 (Bytes e))) by lia.
  cbn. unfold Index_Put. answered. done.
Qed.

(** ** Properties *)


Definition demo_input (temp : spec_float) (text : string) : Input := {|
  ModelVersion := "v1"; VoiceID := "vi-1"; Normalize := true;
  In_Params := {| CFGScale := f64_of_Z 2; AudioTemperature := temp; AudioTopK := 50;
                  AudioTopP := f64_of_Z 1; AudioRepetitionPenalty := f64_of_Z 1;
                  EOAExtraFrames := 0; SampleRate := 24000 |};
  Text := text |}.


(** C29. What is stored is what is found. With every store answering, storing
    valid audio succeeds, and any lookup of that key within the 30-day TTL
    returns the entry with its object key filled in and exactly the bytes
    stored, counts one more hit in the catalogue, and does not disturb what any
    other key whose entry names another object answers. *)
Theorem store_then_lookup key e body w dt :
  cw_faults w = [] → go_len key = 32 → entry_ok e → Bytes e = go_len body → 0 ≤ dt < IndexTTL →
  let w' := (Store key e body w).2 in
  let e' := stored_entry key e in
  (Store key e body w).1 = Ok () ∧
  (Lookup key (advance dt w')).1 = Ok ((e', body), None) ∧
  (cr_hit_count <$> cw_rows (Lookup key (advance dt w')).2 !! key) =
    Some (from_option cr_hit_count 0 (cw_rows w !! key) + 1) ∧
  (∀ key', key' ≠ key →
     (∀ e1, index_entry w key' = Some e1 → S3Key e1 ≠ S3Key e') →
     (Lookup key' w').1 = (Lookup key' w).1).
Proof.
  intros Hf Hk He Hlen Hdt w' e'. subst w'. rewrite (Store_answered key e body w Hf Hk He Hlen).
  fold e'. cbn [fst snd].
  set (w' := set_index _ _).
  assert (entry_ok e') as He' by (subst e'; unfold stored_entry; by case_match).
  assert (index_entry (advance dt w') key = Some e') as Hidx
    by (apply index_entry_put; [done|simpl; lia]).
  assert (lookup_answer (advance dt w') key = Ok ((e', body), None)) as Hans.
  { unfold lookup_answer. rewrite Hidx. simpl. by rewrite lookup_insert_eq. }
  split_and!; [done| | |].
  - by rewrite Lookup_answer.
  - rewrite (Lookup_touches _ _ e' body) by done. simpl. by rewrite lookup_insert_eq.
  - intros key' Hne Hobj. rewrite !Lookup_answer by done. unfold lookup_answer.
    assert (index_entry w' key' = index_entry w key') as ->.
    { unfold index_entry, hash_at. simpl.
      by rewrite lookup_insert_ne by (intros Heq; apply indexKey_inj in Heq; congruence). }
    destruct (index_entry w key') as [e1|]; [|done]. simpl.
    by rewrite lookup_insert_ne by (apply not_eq_sym, Hobj; done).
Qed.

Definition demo_world : CacheWorld :=
  {| cw_index := ∅; cw_objects := ∅; cw_rows := ∅; cw_now := 7; cw_faults := [] |}.
Definition demo_key : string := "0123456789abcdef0123456789abcdef".
Definition demo_entry : Entry :=
  {| S3Key := ""; Format := "pcm"; En_DurationMS := 12; Bytes := 4 |}.

Lemma store_then_lookup_witness :
  let w' := (Store demo_key demo_entry "abcd" demo_world).2 in
  (Lookup demo_key (advance 9 w')).1 =
    Ok ((stored_entry demo_key demo_entry, "abcd"), None).
Proof.
  refine (proj1 (proj2 (store_then_lookup demo_key demo_entry "abcd" demo_world 9 _ _ _ _ _)));
    by vm_compute.
Defined.

(** C30. An index entry never outlives its object. Whatever calls to the stores
    are refused or lose their answers, [Store] (object first, index last) and
    [Lookup] keep every unexpired, readable index entry pointing at an object
    that exists. *)
Theorem cache_no_dangling key e body w :
  no_dangling w → no_dangling (Store key e body w).2 ∧ no_dangling (Lookup key w).2.
Proof. intros Hw. split; [by apply Store_keeps|by apply Lookup_keeps]. Qed.

(** The index write's answer is lost: the caller sees an error, the entry is
    there, and its object too. *)
Lemma cache_no_dangling_witness :
  let w := set_faults [Answered; Answered; Unacknowledged] demo_world in
  no_dangling (Store demo_key demo_entry "abcd" w).2 ∧ no_dangling (Lookup demo_key w).2.
Proof.
  intros w. apply (cache_no_dangling demo_key demo_entry "abcd" w).
  intros k e'. by vm_compute.
Defined.
