(* ===== verification/Degrade.v ===== *)
(** * The degrade window

    [internal/degrade/degrade.go]: how long a dependency's outage is ignored. *)

From stdpp Require Import base gmap strings list pretty numbers.
From S2P Require Import Prelude.

Definition Window : Z := 60 * Second.

Record Breaker : Type := { window : Z; since : Z }.

Definition New (window : Z) : Breaker := {| window := window; since := zero_time |}.

(** [now] is the breaker's clock at the call. *)
Definition Tolerate (b : Breaker) (now : Z) : bool * Breaker :=
  let b' := if IsZero (since b) then {| window := window b; since := now |} else b in
  (time_sub now (since b') <=? window b', b').

Definition Succeed (b : Breaker) : Breaker := {| window := window b; since := zero_time |}.

Definition Degraded (b : Breaker) : bool := negb (IsZero (since b)).

(** ** The calls a dependency's users make *)

Inductive observation : Type :=
| Failed_at (t : Z)
| Succeeded.

Definition observe (b : Breaker) (o : observation) : Breaker :=
  match o with
  | Failed_at t => (Tolerate b t).2
  | Succeeded => Succeed b
  end.

(** The reference: when the current run of failures began. *)
Fixpoint outage_start (l : list observation) : option Z :=
  match l with
  | [] => None
  | Succeeded :: _ => None
  | Failed_at t :: older => match outage_start older with Some t0 => Some t0 | None => Some t end
  end.

(** The breaker after a history, the most recent observation first. *)
Fixpoint after (w : Z) (l : list observation) : Breaker :=
  match l with
  | [] => New w
  | o :: older => observe (after w older) o
  end.

Definition real_time (o : observation) : Prop :=
  match o with Failed_at t => 0 < t | Succeeded => True end.

Lemma after_spec w l :
  Forall real_time l →
  window (after w l) = w ∧ since (after w l) = default zero_time (outage_start l) ∧
  (∀ t, outage_start l = Some t → 0 < t).
Proof.
  induction 1 as [|o l Ho Hl (Hw & Hs & Hp)]; [done|].
  destruct o as [t|]; simpl; [|done].
  unfold Tolerate. rewrite Hs. destruct (outage_start l) as [t0|] eqn:Ht0; simpl.
  - assert (0 < t0) by auto. unfold IsZero, zero_time.
    rewrite (proj2 (Z.eqb_neq t0 0)) by lia. simpl. split_and!; [done..|]. intros; by simplify_eq.
  - split_and!; [done..|]. intros; by simplify_eq.
Qed.

(** The window measures a continuous outage. After any history of failures
    and successes, a failure at [now] is tolerated if and only if the failures
    since the last success began at most the window ago (a first failure always
    is), and the dependency reads as degraded exactly while such a run lasts. *)
Theorem tolerate_continuous w l now :
  0 ≤ w < MaxInt64 → Forall real_time l → 0 < now →
  (Tolerate (after w l) now).1 = (now - default now (outage_start l) <=? w) ∧
  Degraded (after w l) = bool_decide (is_Some (outage_start l)).
Proof.
  intros Hw Hl Hnow. destruct (after_spec w l Hl) as (Hwin & Hs & Hp).
  unfold Tolerate, Degraded. rewrite Hs, Hwin. unfold IsZero, zero_time.
  assert (∀ a b, (time_sub a b <=? w) = (a - b <=? w)) as Hsub.
  { intros a b. apply eq_bool_prop_intro. rewrite !Is_true_true, !Z.leb_le.
    unfold time_sub, MinInt64, MaxInt64 in *. lia. }
  destruct (outage_start l) as [t0|] eqn:Ht0; simpl.
  - assert (0 < t0) by auto. rewrite (proj2 (Z.eqb_neq t0 0)) by lia. simpl.
    rewrite Hs, Hwin. simpl. by rewrite Hsub.
  - by rewrite Hsub.
Qed.

(** A blip, a success, then an outage of 61 seconds: the last call is refused,
    although the failure one second before it was not. *)
Lemma tolerate_continuous_witness :
  let l := [Failed_at (70 * Second); Failed_at (11 * Second); Succeeded; Failed_at Second] in
  (Tolerate (after Window l) (71 * Second)).1 = true ∧
  (Tolerate (after Window l) (72 * Second)).1 = false.
Proof.
  intros l.
  assert (Forall real_time l) as Hl by (repeat constructor).
  split;
    [rewrite (proj1 (tolerate_continuous Window l (71 * Second) ltac:(by vm_compute) Hl eq_refl))
    |rewrite (proj1 (tolerate_continuous Window l (72 * Second) ltac:(by vm_compute) Hl eq_refl))];
    by vm_compute.
Defined.
