(* ===== verification/RateLimit.v ===== *)
(** * Rate and concurrency limits

    [internal/ratelimit]: the [Limiter] and the three Lua scripts it runs
    ([lua/lease.lua], [lua/renew.lua], [lua/token_bucket.lua]). A script is one
    atomic step of the Redis server; the gateways call it with their own clocks,
    which the model does not assume to agree. Lua's numbers are doubles: the
    lease scripts compute on millisecond integers far below 2^53, where doubles
    are exact, and are modelled on [Z]; the token bucket is modelled on
    [SpecFloat]. *)

From stdpp Require Import base gmap strings list pretty numbers.
From Stdlib Require Import SpecFloat.
From S2P Require Import Prelude GoString Float.

(** ** Data *)

Definition LeaseTTL : Z := 60 * Second.
Definition refillWindow : Z := Minute.

(** 1970-01-01 in nanoseconds since year 1. *)
Definition UnixEpoch : Z := 62135596800 * Second.
Definition UnixMilli (t : Z) : Z := (t - UnixEpoch) `div` Millisecond.

(** A tenant's sorted set: lease id to expiry in milliseconds, and the
    server's own expiry of the key. *)
Record LeaseSet : Type := { members : gmap string Z; set_expiry : Z }.

(** A bucket's hash, and the server's expiry of the key. *)
Record Bucket : Type := { tokens : spec_float; updated_ms : Z; bucket_expiry : Z }.

Record LimiterWorld : Type := {
  conc : gmap string LeaseSet;
  rl : gmap string Bucket;
  server_ms : Z;
  lw_faults : list fault;
}.

#[export] Instance LimiterWorld_faults : HasFaults LimiterWorld := {|
  faults := lw_faults;
  set_faults fs w :=
    {| conc := conc w; rl := rl w; server_ms := server_ms w; lw_faults := fs |};
|}.

Definition set_conc (f : gmap string LeaseSet → gmap string LeaseSet) (w : LimiterWorld) : LimiterWorld :=
  {| conc := f (conc w); rl := rl w; server_ms := server_ms w; lw_faults := lw_faults w |}.
Definition set_rl (f : gmap string Bucket → gmap string Bucket) (w : LimiterWorld) : LimiterWorld :=
  {| conc := conc w; rl := f (rl w); server_ms := server_ms w; lw_faults := lw_faults w |}.

Definition LM (A : Type) : Type := ST LimiterWorld A.

(** A value of a script's reply as the client decodes it. *)
Inductive reply : Type := RInt (z : Z) | ROther.

(** ** The scripts *)

(** The key's members, none when the server has expired it. *)
Definition zset (w : LimiterWorld) (k : string) : gmap string Z :=
  match conc w !! k with
  | Some s => if server_ms w <? set_expiry s then members s else ∅
  | None => ∅
  end.

Definition expiry_of (w : LimiterWorld) (k : string) : Z :=
  from_option set_expiry 0 (conc w !! k).

Definition zcard (m : gmap string Z) : Z := Z.of_nat (size m).

(** [lease.lua]. *)
Definition lease_script (k : string) (limit now_ms ttl_ms : Z) (lease_id : string) : LM (list reply) :=
  λ w,
  let live := filter (λ p, now_ms < p.2) (zset w k) in
  let active := zcard live in
  if limit <=? active then
    (Ok [RInt 0; RInt active], set_conc <[k := {| members := live; set_expiry := expiry_of w k |}]> w)
  else
    (Ok [RInt 1; RInt (active + 1)],
     set_conc <[k := {| members := <[lease_id := now_ms + ttl_ms]> live;
                        set_expiry := server_ms w + ttl_ms * 2 |}]> w).

(** [renew.lua]. *)
Definition renew_script (k : string) (now_ms ttl_ms : Z) (lease_id : string) : LM Z :=
  λ w,
  match zset w k !! lease_id with
  | None => (Ok 0, w)
  | Some _ =>
      (Ok 1, set_conc <[k := {| members := <[lease_id := now_ms + ttl_ms]> (zset w k);
                                set_expiry := server_ms w + ttl_ms * 2 |}]> w)
  end.

(** [token_bucket.lua]. *)
Definition token_bucket_script (k : string) (capacity : Z) (refill_per_sec : spec_float)
    (now_ms cost : Z) : LM (list reply) := λ w,
  let '(tokens0, updated0) :=
    match rl w !! k with
    | Some b => if server_ms w <? bucket_expiry b then (tokens b, updated_ms b)
                else (f64_of_Z capacity, now_ms)
    | None => (f64_of_Z capacity, now_ms)
    end in
  let elapsed_ms := Z.max 0 (now_ms - updated0) in
  let refilled := f64_add tokens0 (f64_mul (f64_div (f64_of_Z elapsed_ms) (f64_of_Z 1000)) refill_per_sec) in
  let tokens := if SFltb refilled (f64_of_Z capacity) then refilled else f64_of_Z capacity in
  let expiry := server_ms w +
    f64_ceil (f64_mul (f64_div (f64_of_Z capacity) refill_per_sec) (f64_of_Z 2000)) in
  if SFleb (f64_of_Z cost) tokens then
    let tokens := f64_sub tokens (f64_of_Z cost) in
    (Ok [RInt 1; RInt (f64_floor tokens); RInt 0],
     set_rl <[k := {| tokens := tokens; updated_ms := now_ms; bucket_expiry := expiry |}]> w)
  else
    let missing := f64_sub (f64_of_Z cost) tokens in
    (Ok [RInt 0; RInt (f64_floor tokens);
         RInt (f64_ceil (f64_mul (f64_div missing refill_per_sec) (f64_of_Z 1000)))],
     set_rl <[k := {| tokens := tokens; updated_ms := now_ms; bucket_expiry := expiry |}]> w).

(** ** [ratelimit.go] *)

Definition rateKey (keyID : string) : string := "rl:" +:+ keyID.
Definition concKey (tenantID : string) : string := "conc:" +:+ tenantID.

Record RateDecision : Type := {
  Allowed : bool;
  Limit : Z;
  Remaining : Z;
  RetryAfter : Z;
}.

Definition triple (reply : list reply) : res (Z * Z * Z) :=
  match reply with
  | RInt a :: RInt b :: RInt c :: _ => Ok (a, b, c)
  | _ => Err (ENew "malformed script reply")
  end.

Definition Allow (keyID : string) (perMinute now : Z) : LM RateDecision :=
  if perMinute <=? 0 then sfail (ENew ("invalid rate limit " +:+ Itoa perMinute))
  else
    let refillPerSec := f64_div (f64_of_Z perMinute) (f64_of_Z 60) in
    let* reply := swrap "token bucket: "
      (port (token_bucket_script (rateKey keyID) perMinute refillPerSec (UnixMilli now) 1)) in
    match triple reply with
    | Err err => sfail err
    | Ok (allowed, remaining, retryMS) =>
        sret {| Allowed := allowed =? 1; Limit := perMinute; Remaining := remaining;
                RetryAfter := int64 (retryMS * Millisecond) |}
    end.

Record Lease : Type := { ID : string; TenantID : string }.

(** [Acquire]; [id] is the fresh UUID, [None] is [ok = false]. *)
Definition Acquire (tenantID : string) (limit now : Z) (id : string) : LM (option Lease) :=
  if limit <=? 0 then sfail (ENew ("invalid concurrency limit " +:+ Itoa limit))
  else
    let lease := {| ID := id; TenantID := tenantID |} in
    let* reply := swrap "acquire lease: "
      (port (lease_script (concKey tenantID) limit (UnixMilli now) (Milliseconds LeaseTTL) (ID lease))) in
    match reply with
    | RInt acquired :: _ => sret (if acquired =? 1 then Some lease else None)
    | _ => sfail (ENew "acquire lease: malformed reply")
    end.

Definition Renew (lease : Lease) (now : Z) : LM () :=
  let* reply := swrap "renew lease: "
    (port (renew_script (concKey (TenantID lease)) (UnixMilli now) (Milliseconds LeaseTTL) (ID lease))) in
  if reply =? 1 then sret () else sfail (ESentinel ErrLeaseLost).

Definition Release (lease : Lease) : LM () :=
  swrap "release lease: " (port (λ w,
    let k := concKey (TenantID lease) in
    (Ok (), set_conc <[k := {| members := delete (ID lease) (zset w k);
                               set_expiry := expiry_of w k |}]> w))).

(** ** [synth/leaseport.go] *)

(** A held lease is the limiter's lease; [None] when the tenant is at its limit. *)
Definition LeaseAdapter_Acquire (tenantID : string) (limit now : Z) (id : string) : LM (option Lease) :=
  swrap "acquire lease: " (Acquire tenantID limit now id).
Definition heldLease_Renew (lease : Lease) (now : Z) : LM () := swrap "renew lease: " (Renew lease now).
Definition heldLease_Release (lease : Lease) (w : LimiterWorld) : LimiterWorld := (Release lease w).2.

(** The leases a gateway whose clock shows [now] counts as held. *)
Definition held (w : LimiterWorld) (tenantID : string) (now : Z) : Z :=
  zcard (filter (λ p, UnixMilli now ≤ p.2) (zset w (concKey tenantID))).

Definition Active (tenantID : string) (now : Z) : LM Z :=
  swrap "count leases: " (port (λ w, (Ok (held w tenantID now), w))).

(** ** Executions: any gateways' calls in any order, and the server's clock *)

Inductive call : Type :=
| CAcquire (tenantID : string) (limit now : Z) (id : string)
| CRenew (lease : Lease) (now : Z)
| CRelease (lease : Lease)
| CServerClock (ms : Z).

Definition exec (c : call) (w : LimiterWorld) : LimiterWorld :=
  match c with
  | CAcquire tid limit now id => (Acquire tid limit now id w).2
  | CRenew lease now => (Renew lease now w).2
  | CRelease lease => (Release lease w).2
  | CServerClock ms =>
      {| conc := conc w; rl := rl w; server_ms := ms; lw_faults := lw_faults w |}
  end.

Definition exec_all (l : list call) (w : LimiterWorld) : LimiterWorld :=
  foldl (λ w c, exec c w) w l.

(** ** Lemmas *)

(** Every tenant's sorted set is within the limit [lim] gives it. *)
Definition bounded (lim : string → Z) (w : LimiterWorld) : Prop :=
  ∀ k s, conc w !! k = Some s → zcard (members s) ≤ lim k.

Lemma bounded_faults lim fs w : bounded lim w → bounded lim (set_faults fs w).
Proof. done. Qed.

Lemma zcard_insert m id e : zcard (<[id := e]> m) ≤ zcard m + 1.
Proof.
  unfold zcard. destruct (m !! id) eqn:Hm.
  - rewrite map_size_insert_Some by eauto. lia.
  - rewrite map_size_insert_None by done. lia.
Qed.

Lemma zcard_update m id e x : m !! id = Some x → zcard (<[id := e]> m) = zcard m.
Proof. intros Hm. unfold zcard. by rewrite map_size_insert_Some by eauto. Qed.

Lemma zcard_sub (m m' : gmap string Z) : m ⊆ m' → zcard m ≤ zcard m'.
Proof.
  intros Hsub. unfold zcard. apply inj_le.
  rewrite <-!size_dom. apply subseteq_size. by apply subseteq_dom.
Qed.

Lemma zset_le lim w k : (∀ k, 0 ≤ lim k) → bounded lim w → zcard (zset w k) ≤ lim k.
Proof.
  intros Hlim Hw. unfold zset. destruct (conc w !! k) as [s|] eqn:Hs; [|apply Hlim].
  destruct (_ <? _); [by apply (Hw k s)|apply Hlim].
Qed.

Lemma bounded_insert lim w k s :
  bounded lim w → zcard (members s) ≤ lim k → bounded lim (set_conc <[k := s]> w).
Proof.
  intros Hw Hs k' s' Hk'. simpl in Hk'. destruct (decide (k' = k)) as [->|Hne].
  - rewrite lookup_insert_eq in Hk'. by simplify_eq.
  - rewrite lookup_insert_ne in Hk' by done. by apply (Hw k').
Qed.

Section bound.
Variable lim : string → Z.
Hypothesis Hlim : ∀ k, 0 ≤ lim k.

Lemma lease_script_bounded k limit now ttl id :
  limit ≤ lim k → keeps (bounded lim) (lease_script k limit now ttl id).
Proof.
  intros Hl w Hw. unfold lease_script. pose proof (zset_le lim w k Hlim Hw) as Hz.
  set (live := filter _ _).
  assert (zcard live ≤ zcard (zset w k)) as Hlive by apply zcard_sub, map_filter_subseteq.
  destruct (limit <=? zcard live) eqn:Hle; zbool; simpl; apply bounded_insert; simpl; try done.
  - lia.
  - pose proof (zcard_insert live id (now + ttl)). lia.
Qed.

Lemma Acquire_bounded tid limit now id :
  limit ≤ lim (concKey tid) → keeps (bounded lim) (Acquire tid limit now id).
Proof.
  intros Hl. unfold Acquire. destruct (limit <=? 0); [apply keeps_fail|].
  apply keeps_bind.
  - apply keeps_wrap, keeps_port; [intros; by apply bounded_faults|]. by apply lease_script_bounded.
  - intros [|[] ?]; auto with gateway.
Qed.

Lemma Renew_bounded lease now : keeps (bounded lim) (Renew lease now).
Proof.
  unfold Renew. apply keeps_bind; [|intros; case_match; auto with gateway].
  apply keeps_wrap, keeps_port; [intros; by apply bounded_faults|].
  intros w Hw. unfold renew_script. destruct (zset w _ !! ID lease) eqn:Hz; [|done].
  apply bounded_insert; [done|]. simpl. rewrite (zcard_update _ _ _ _ Hz).
  by apply zset_le.
Qed.

Lemma Release_bounded lease : keeps (bounded lim) (Release lease).
Proof.
  apply keeps_wrap, keeps_port; [intros; by apply bounded_faults|].
  intros w Hw. simpl. apply bounded_insert; [done|]. simpl.
  etrans; [apply zcard_sub, delete_subseteq|]. by apply zset_le.
Qed.
End bound.

(** A call that respects the tenants' limits. *)
Definition within (lim : string → Z) (c : call) : Prop :=
  match c with CAcquire tid limit _ _ => limit ≤ lim (concKey tid) | _ => True end.

Lemma exec_bounded lim c w :
  (∀ k, 0 ≤ lim k) → within lim c → bounded lim w → bounded lim (exec c w).
Proof.
  intros Hlim Hc Hw. destruct c; simpl.
  - by apply Acquire_bounded.
  - by apply Renew_bounded.
  - by apply Release_bounded.
  - done.
Qed.

(** What [Acquire] does when Redis answers. *)
Lemma Acquire_answered tid limit now id w :
  0 < limit → lw_faults w = [] →
  let k := concKey tid in
  let live := filter (λ p, UnixMilli now < p.2) (zset w k) in
  Acquire tid limit now id w =
    if limit <=? zcard live then
      (Ok None, set_conc <[k := {| members := live; set_expiry := expiry_of w k |}]> w)
    else
      (Ok (Some {| ID := id; TenantID := tid |}),
       set_conc <[k := {| members := <[id := UnixMilli now + 60000]> live;
                          set_expiry := server_ms w + 120000 |}]> w).
Proof.
  intros Hpos Hf k live. unfold Acquire. rewrite (proj2 (Z.leb_gt limit 0)) by done.
  unfold sbind, swrap. rewrite port_answered by done. unfold lease_script. simpl ID.
  fold k live. change (Milliseconds LeaseTTL) with 60000. by destruct (limit <=? zcard live).
Qed.

Lemma Renew_answered lease now w e :
  faults w = [] → zset w (concKey (TenantID lease)) !! ID lease = Some e →
  (Renew lease now w).1 = Ok ().
Proof.
  intros Hf He. unfold Renew, sbind, swrap. rewrite port_answered by done.
  unfold renew_script. by rewrite He.
Qed.

Lemma concKey_inj t t' : concKey t = concKey t' → t = t'.
Proof. apply (inj (String.append "conc:")). Qed.

(** The lease is in its tenant's set until at least [e], and the server keeps
    the key until at least [s0 + 120000]. *)
Definition holds (lease : Lease) (e s0 : Z) (w : LimiterWorld) : Prop :=
  s0 ≤ server_ms w < s0 + 120000 ∧
  ∃ s e', conc w !! concKey (TenantID lease) = Some s ∧ s0 + 120000 ≤ set_expiry s ∧
    members s !! ID lease = Some e' ∧ e ≤ e'.

(** Calls that do not take the lease away: nobody releases it, an [Acquire] of
    its tenant runs on a clock before its expiry and with a fresh id, a renewal
    does not shorten it, and the server's clock stays below the key's expiry. *)
Definition spares (lease : Lease) (e s0 : Z) (c : call) : Prop :=
  match c with
  | CAcquire tid _ now id => tid = TenantID lease → UnixMilli now < e ∧ id ≠ ID lease
  | CRenew lease' now => lease' = lease → e ≤ UnixMilli now + 60000
  | CRelease lease' => lease' ≠ lease
  | CServerClock ms => s0 ≤ ms < s0 + 120000
  end.

Lemma holds_zset lease e s0 w :
  holds lease e s0 w → ∃ e', zset w (concKey (TenantID lease)) !! ID lease = Some e' ∧ e ≤ e'.
Proof.
  intros (Hms & s & e' & Hs & Hexp & He & Hle). exists e'. split; [|done].
  unfold zset. by rewrite Hs, (proj2 (Z.ltb_lt (server_ms w) (set_expiry s))) by lia.
Qed.

Lemma holds_insert lease e s0 k s w :
  holds lease e s0 w →
  (k = concKey (TenantID lease) →
     s0 + 120000 ≤ set_expiry s ∧ ∃ e', members s !! ID lease = Some e' ∧ e ≤ e') →
  holds lease e s0 (set_conc <[k := s]> w).
Proof.
  intros (Hms & s' & e' & Hs & Hexp & He & Hle) Hk. split; [done|]. simpl.
  destruct (decide (k = concKey (TenantID lease))) as [Heq|Hne].
  - destruct (Hk Heq) as (Hexp' & e2 & He2 & Hle2). exists s, e2. rewrite Heq, lookup_insert_eq. done.
  - exists s', e'. by rewrite lookup_insert_ne.
Qed.

Lemma holds_faults lease e s0 fs w : holds lease e s0 w → holds lease e s0 (set_faults fs w).
Proof. done. Qed.

Lemma holds_expiry lease e s0 w :
  holds lease e s0 w → s0 + 120000 ≤ expiry_of w (concKey (TenantID lease)).
Proof. intros (_ & s & e' & Hs & Hexp & _). unfold expiry_of. by rewrite Hs. Qed.

Lemma exec_holds lease e s0 c w :
  spares lease e s0 c → holds lease e s0 w → holds lease e s0 (exec c w).
Proof.
  intros Hc Hw. destruct c as [tid limit now id|lease' now|lease'|ms]; simpl in *.
  - refine (_ w Hw). change (keeps (holds lease e s0) (Acquire tid limit now id)). unfold Acquire.
    destruct (limit <=? 0); [apply keeps_fail|]. apply keeps_bind; [|intros [|[] ?]; auto with gateway].
    apply keeps_wrap, keeps_port; [intros; by apply holds_faults|].
    clear w Hw. intros w Hw. unfold lease_script.
    destruct (holds_zset _ _ _ _ Hw) as (e' & He' & Hle). pose proof (holds_expiry _ _ _ _ Hw).
    case_match; simpl; apply holds_insert; [done| |done|]; simpl;
      intros Htid%concKey_inj; destruct (Hc Htid) as [Hnow Hid]; subst tid.
    + split; [done|]. exists e'. split; [|done]. apply map_lookup_filter_Some. simpl. split; [done|lia].
    + destruct Hw as [Hms _]. change (Milliseconds LeaseTTL) with 60000. split; [lia|]. exists e'. split; [|done].
      rewrite lookup_insert_ne by done. apply map_lookup_filter_Some. simpl. split; [done|lia].
  - refine (_ w Hw). change (keeps (holds lease e s0) (Renew lease' now)). unfold Renew.
    apply keeps_bind; [|intros; case_match; auto with gateway].
    apply keeps_wrap, keeps_port; [intros; by apply holds_faults|].
    clear w Hw. intros w Hw. unfold renew_script. destruct (zset w _ !! _) as [x|] eqn:Hx; [|done].
    destruct (holds_zset _ _ _ _ Hw) as (e' & He' & Hle).
    simpl. apply holds_insert; [done|]. simpl. intros Htid%concKey_inj. rewrite Htid.
    destruct Hw as [Hms _]. change (Milliseconds LeaseTTL) with 60000. split; [lia|].
    destruct (decide (ID lease' = ID lease)) as [Hid|Hid].
    + rewrite Hid, lookup_insert_eq. eexists; split; [done|]. apply Hc.
      destruct lease', lease; simpl in *; congruence.
    + rewrite lookup_insert_ne by done. eauto.
  - refine (_ w Hw). change (keeps (holds lease e s0) (Release lease')). unfold Release.
    apply keeps_wrap, keeps_port; [intros; by apply holds_faults|].
    clear w Hw. intros w Hw. destruct (holds_zset _ _ _ _ Hw) as (e' & He' & Hle).
    pose proof (holds_expiry _ _ _ _ Hw).
    simpl. apply holds_insert; [done|]. simpl. intros Htid%concKey_inj. rewrite Htid.
    split; [done|]. exists e'. split; [|done]. rewrite lookup_delete_ne; [done|].
    intros Hid. apply Hc. destruct lease', lease; simpl in *; congruence.
  - destruct Hw as [_ Hw]. by split.
Qed.

Lemma exec_all_holds lease e s0 l w :
  Forall (spares lease e s0) l → holds lease e s0 w → holds lease e s0 (exec_all l w).
Proof.
  intros Hl. revert w. induction Hl as [|c l Hc Hl IH]; intros w Hw; [done|].
  apply IH. by apply exec_holds.
Qed.

(** ** Properties *)

(** C21. Concurrency is never above the plan. Starting from any state within the
    limits (the empty one is), after any interleaving of [Acquire], [Renew] and
    [Release] calls by gateways with arbitrary clocks, of lost answers and of
    server key expiries, where each [Acquire] passes at most its tenant's limit,
    every tenant's set holds at most that many leases. *)
Theorem lease_limit lim l w tid now :
  (∀ k, 0 ≤ lim k) → Forall (within lim) l → bounded lim w →
  bounded lim (exec_all l w) ∧ held (exec_all l w) tid now ≤ lim (concKey tid).
Proof.
  intros Hlim Hl Hw.
  assert (bounded lim (exec_all l w)) as Hb.
  { revert w Hw. induction Hl as [|c l Hc Hl IH]; intros w Hw; [done|].
    apply IH. by apply exec_bounded. }
  split; [done|]. etrans; [apply zcard_sub, map_filter_subseteq|]. by apply zset_le.
Qed.

Definition empty_limiter : LimiterWorld :=
  {| conc := ∅; rl := ∅; server_ms := 0; lw_faults := [] |}.
Definition at_ms (ms : Z) : Z := UnixEpoch + ms * Millisecond.

(** Three gateways, limit 2: the third lease is refused until the first expires. *)
Lemma lease_limit_witness :
  let l := [CAcquire "t" 2 (at_ms 10) "a"; CAcquire "t" 2 (at_ms 5) "b";
            CAcquire "t" 2 (at_ms 59999) "c"; CAcquire "t" 2 (at_ms 60007) "d"] in
  bounded (λ _, 2) (exec_all l empty_limiter) ∧
  held (exec_all l empty_limiter) "t" (at_ms 60007) ≤ 2.
Proof.
  intros l. apply (lease_limit (λ _, 2) l empty_limiter "t" (at_ms 60007)).
  - done.
  - repeat constructor; done.
  - by intros k s [=].
Defined.

(** A lease is granted when there is room and kept while it is renewed. When
    Redis answers, [Acquire] grants exactly when fewer than [limit] leases
    expire after the caller's clock. A granted lease, through any later calls
    by anyone that spare it (each answered, refused or unacknowledged), is
    still there to renew; and releasing it gives the slot back. *)
Theorem lease_granted tid limit now id w l :
  0 < limit → lw_faults w = [] → zset w (concKey tid) !! id = None →
  let lease := {| ID := id; TenantID := tid |} in
  let e := UnixMilli now + 60000 in
  let live := filter (λ p, UnixMilli now < p.2) (zset w (concKey tid)) in
  (Acquire tid limit now id w).1 =
    Ok (if zcard live <? limit then Some lease else None) ∧
  (zcard live < limit →
     let w1 := (Acquire tid limit now id w).2 in
     (Forall (spares lease e (server_ms w)) l →
        let w2 := exec_all l w1 in
        ∀ now', (Renew lease now' (set_faults [] w2)).1 = Ok ()) ∧
     zset (Release lease w1).2 (concKey tid) = live).
Proof.
  intros Hpos Hf Hfresh lease e live. rewrite Acquire_answered by done. fold live.
  assert ((limit <=? zcard live) = negb (zcard live <? limit)) as ->
    by (by rewrite <-Z.leb_antisym).
  split; [by destruct (zcard live <? limit)|]. intros Hroom.
  rewrite (proj2 (Z.ltb_lt _ _) Hroom). simpl. split.
  - intros Hl now'.
    set (w1 := set_conc _ w).
    assert (holds lease e (server_ms w) w1) as Hw1.
    { split; [simpl; lia|]. eexists _, e. simpl. rewrite lookup_insert_eq. split; [done|].
      simpl. rewrite lookup_insert_eq. split_and!; [lia|done|lia]. }
    assert (holds lease e (server_ms w) (exec_all l w1)) as Hw2.
    { by apply exec_all_holds. }
    destruct (holds_zset _ _ _ _ (holds_faults _ _ _ [] _ Hw2)) as (e' & He' & _).
    by eapply Renew_answered.
  - unfold Release, swrap. rewrite port_answered by done. cbn [snd].
    unfold zset at 1, expiry_of. simpl. rewrite !lookup_insert_eq. simpl.
    rewrite (proj2 (Z.ltb_lt _ _)) by lia. unfold zset. simpl. rewrite lookup_insert_eq. simpl.
    rewrite (proj2 (Z.ltb_lt _ _)) by lia. rewrite delete_insert_id; [done|].
    subst live. by rewrite map_lookup_filter, Hfresh.
Qed.

(** A second gateway with a slower clock takes and loses slots meanwhile. *)
Lemma lease_granted_witness :
  let l := [CAcquire "t" 2 (at_ms 5) "b"; CServerClock 119999; CAcquire "t" 2 (at_ms 60009) "c";
            CRelease {| ID := "b"; TenantID := "t" |}] in
  let w1 := (Acquire "t" 2 (at_ms 10) "a" empty_limiter).2 in
  (Renew {| ID := "a"; TenantID := "t" |} (at_ms 9) (set_faults [] (exec_all l w1))).1 = Ok ().
Proof.
  intros l w1.
  pose proof (lease_granted "t" 2 (at_ms 10) "a" empty_limiter l eq_refl eq_refl eq_refl) as [_ H].
  refine (proj1 (H _) _ (at_ms 9)); [by vm_compute|].
  apply Forall_fold_right. simpl. split_and!; try done.
Defined.
