(* ===== verification/RateBucket.v ===== *)
(** * The token bucket

    What [lua/token_bucket.lua] and [Limiter.Allow] promise: how many requests of
    one key are let through at one instant, and what gateways whose clocks
    disagree can do to that. The bucket's level is a double; on whole numbers
    below 2^53 its arithmetic is exact. *)

From stdpp Require Import base gmap strings list pretty numbers.
From Stdlib Require Import SpecFloat.
From S2P Require Import Prelude GoString Float RateLimit.

(** Requests of one key, one after another, each with its gateway's clock. *)
Fixpoint allow_each (keyID : string) (perMinute : Z) (clocks : list Z) (w : LimiterWorld)
    : list (res RateDecision) * LimiterWorld :=
  match clocks with
  | [] => ([], w)
  | now :: rest =>
      let (d, w) := Allow keyID perMinute now w in
      let (ds, w) := allow_each keyID perMinute rest w in
      (d :: ds, w)
  end.

Definition granted (r : res RateDecision) : bool := match r with Ok d => Allowed d | Err _ => false end.

(** ** Lemmas *)

(** The bucket holds [n] tokens as of [now_ms], and its key has not expired. *)
Definition level (k : string) (n now_ms : Z) (w : LimiterWorld) : Prop :=
  ∃ b, rl w !! k = Some b ∧ tokens b = f64_of_Z n ∧ updated_ms b = now_ms ∧ server_ms w < bucket_expiry b.

(** No bucket, or one the server has dropped. *)
Definition idle (k : string) (w : LimiterWorld) : Prop :=
  match rl w !! k with Some b => bucket_expiry b ≤ server_ms w | None => True end.

Section at_an_instant.
Variables (k : string) (capacity : Z) (refill : spec_float) (B now_ms : Z).
Hypotheses (Hcap : 0 < capacity < 2 ^ 53) (Hrefill : tame B refill) (HB : B ≤ 300).

Lemma no_refill : f64_mul (f64_div (f64_of_Z (Z.max 0 (now_ms - now_ms))) (f64_of_Z 1000)) refill = S754_zero false.
Proof. rewrite Z.sub_diag. by destruct Hrefill as (m & e & -> & _). Qed.

Lemma wait_pos n unit :
  0 < n < 2 ^ 53 → 0 < unit < 2 ^ 53 → 0 < f64_ceil (f64_mul (f64_div (f64_of_Z n) refill) (f64_of_Z unit)).
Proof.
  intros Hn Hu.
  eapply f64_ceil_tame, f64_mul_tame; [eapply f64_div_tame; [by apply f64_of_Z_tame|done|]|by apply f64_of_Z_tame|]; lia.
Qed.

(** The script on a bucket of [n] tokens, at the instant of the last update. *)
Lemma script_at n w :
  0 ≤ n ≤ capacity → level k n now_ms w ∨ n = capacity ∧ idle k w →
  let '(r, w') := token_bucket_script k capacity refill now_ms 1 w in
  server_ms w' = server_ms w ∧ lw_faults w' = lw_faults w ∧
  if 1 <=? n then r = Ok [RInt 1; RInt (n - 1); RInt 0] ∧ level k (n - 1) now_ms w'
  else (∃ retry, 0 < retry ∧ r = Ok [RInt 0; RInt 0; RInt retry]) ∧ level k 0 now_ms w'.
Proof.
  intros Hn Hlev. unfold token_bucket_script.
  assert ((match rl w !! k with
     | Some b => if server_ms w <? bucket_expiry b then (tokens b, updated_ms b) else (f64_of_Z capacity, now_ms)
     | None => (f64_of_Z capacity, now_ms) end) = (f64_of_Z n, now_ms)) as ->.
  { destruct Hlev as [(b & -> & <- & <- & Hlt)|[-> Hidle]]; [by rewrite (proj2 (Z.ltb_lt _ _) Hlt)|].
    unfold idle in Hidle. destruct (rl w !! k) as [b|]; [|done]. by rewrite (proj2 (Z.ltb_ge _ _) Hidle). }
  rewrite no_refill, f64_add_zero, f64_ltb_Z by lia.
  assert ((if n <? capacity then f64_of_Z n else f64_of_Z capacity) = f64_of_Z n) as ->
    by (destruct (Z.ltb_spec n capacity); [done|f_equal; lia]).
  rewrite f64_leb_Z by lia. pose proof (wait_pos capacity 2000 Hcap ltac:(lia)) as Hlife.
  set (life := f64_ceil (f64_mul (f64_div (f64_of_Z capacity) refill) (f64_of_Z 2000))) in *. clearbody life.
  destruct (Z.leb_spec 1 n) as [Hle|Hlt].
  - rewrite f64_sub_Z, f64_floor_Z by lia. cbn. split_and!; [done..|].
    unfold level. cbn. rewrite lookup_insert_eq. eexists. split_and!; [done..|]. cbn. lia.
  - assert (n = 0) as -> by lia. rewrite f64_sub_Z, f64_floor_Z by lia. rewrite Z.sub_0_r.
    pose proof (wait_pos 1 1000 ltac:(lia) ltac:(lia)) as Hretry.
    set (retry := f64_ceil (f64_mul (f64_div (f64_of_Z 1) refill) (f64_of_Z 1000))) in *. clearbody retry. cbn. split_and!; [done..| |].
    + by exists retry.
    + unfold level. cbn. rewrite lookup_insert_eq. eexists. split_and!; [done..|]. cbn. lia.
Qed.
End at_an_instant.

(** What a request is told. *)
Definition allowed_with (perMinute remaining : Z) : RateDecision :=
  {| Allowed := true; Limit := perMinute; Remaining := remaining; RetryAfter := 0 |}.

Definition refused_at (perMinute : Z) (r : res RateDecision) : Prop :=
  ∃ retry, 0 < retry ∧ r = Ok {| Allowed := false; Limit := perMinute; Remaining := 0; RetryAfter := int64 (retry * Millisecond) |}.

Lemma refill_tame perMinute : 0 < perMinute < 2 ^ 53 → tame 224 (f64_div (f64_of_Z perMinute) (f64_of_Z 60)).
Proof. intros H. apply (f64_div_tame 52 52); [by apply f64_of_Z_tame|by apply f64_of_Z_tame|lia]. Qed.

Lemma Allow_at keyID perMinute now n w :
  0 < perMinute < 2 ^ 53 → lw_faults w = [] → 0 ≤ n ≤ perMinute →
  level (rateKey keyID) n (UnixMilli now) w ∨ n = perMinute ∧ idle (rateKey keyID) w →
  let '(r, w') := Allow keyID perMinute now w in
  lw_faults w' = [] ∧
  if 1 <=? n then r = Ok (allowed_with perMinute (n - 1)) ∧ level (rateKey keyID) (n - 1) (UnixMilli now) w'
  else refused_at perMinute r ∧ level (rateKey keyID) 0 (UnixMilli now) w'.
Proof.
  intros Hp Hf Hn Hlev. unfold Allow. rewrite (proj2 (Z.leb_gt perMinute 0)) by lia.
  unfold sbind, swrap. rewrite port_answered by done.
  pose proof (script_at (rateKey keyID) perMinute _ 224 (UnixMilli now) Hp (refill_tame perMinute Hp) ltac:(lia) n w Hn Hlev) as H.
  destruct (token_bucket_script _ _ _ _ _ w) as [r w']. destruct H as (_ & Hf' & H). rewrite Hf in Hf'.
  destruct (1 <=? n).
  - destruct H as [-> H]. by split_and!.
  - destruct H as [(retry & Hr & ->) H]. split_and!; [done| |done]. by exists retry.
Qed.

(** ** Properties *)

(** C22. A burst is bounded by the plan's rate, exactly. Of any number of requests
    of one key that reach an unused bucket at one instant, the first
    [perMinute] are allowed, each told one less remaining than the one before
    it, and every later one is refused with nothing remaining and a positive
    time to wait. *)
Theorem bucket_burst keyID perMinute now n w :
  0 < perMinute ≤ MaxInt32 → lw_faults w = [] → idle (rateKey keyID) w →
  let ds := (allow_each keyID perMinute (replicate n now) w).1 in
  length ds = n ∧
  ∀ i d, ds !! i = Some d →
    if Z.of_nat i <? perMinute then d = Ok (allowed_with perMinute (perMinute - 1 - Z.of_nat i))
    else refused_at perMinute d.
Proof.
  intros Hp Hf Hidle. cbv zeta. unfold MaxInt32 in Hp. assert (0 < perMinute < 2 ^ 53) as Hp' by lia.
  assert (∀ n left w, lw_faults w = [] → 0 ≤ left ≤ perMinute →
    level (rateKey keyID) left (UnixMilli now) w ∨ left = perMinute ∧ idle (rateKey keyID) w →
    let ds := (allow_each keyID perMinute (replicate n now) w).1 in
    length ds = n ∧ ∀ i d, ds !! i = Some d →
      if Z.of_nat i <? left then d = Ok (allowed_with perMinute (left - 1 - Z.of_nat i)) else refused_at perMinute d) as H;
    [|by apply H; [done|lia|right]].
  clear Hf Hidle w n. induction n as [|n IH]; intros left w Hf Hl Hlev; cbn; [done|].
  pose proof (Allow_at keyID perMinute now left w Hp' Hf Hl Hlev) as Ha.
  destruct (Allow keyID perMinute now w) as [d w1]. destruct Ha as [Hf1 Ha].
  set (left' := if 1 <=? left then left - 1 else 0).
  assert (level (rateKey keyID) left' (UnixMilli now) w1) as Hlev1
    by (unfold left'; destruct (1 <=? left); apply Ha).
  destruct (IH left' w1 Hf1 ltac:(unfold left'; destruct (Z.leb_spec 1 left); lia) (or_introl Hlev1)) as [Hlen Hds].
  destruct (allow_each _ _ _ w1) as [ds w2]. cbn in *. split; [lia|]. intros [|i] d' Hi; cbn in Hi.
  - injection Hi as <-. destruct (Z.leb_spec 1 left).
    + rewrite (proj2 (Z.ltb_lt _ _)) by lia. destruct Ha as [-> _]. do 2 f_equal. lia.
    + rewrite (proj2 (Z.ltb_ge _ _)) by lia. by destruct Ha.
  - specialize (Hds i d' Hi). unfold left' in Hds. destruct (Z.leb_spec 1 left).
    + assert ((Z.of_nat (S i) <? left) = (Z.of_nat i <? left - 1)) as ->
        by (destruct (Z.ltb_spec (Z.of_nat i) (left - 1)); [apply Z.ltb_lt|apply Z.ltb_ge]; lia).
      destruct (_ <? _); [|done]. rewrite Hds. do 2 f_equal. lia.
    + rewrite (proj2 (Z.ltb_ge _ _)) in Hds by lia. by rewrite (proj2 (Z.ltb_ge _ _)) by lia.
Qed.

(** Two gateways whose clocks are two seconds apart void a limit of sixty a
    minute: the script moves the bucket's time back to the slower clock's, so
    the faster one is credited the same two seconds again and again. *)
Example skewed_clocks_void_the_limit :
  let clocks := concat (replicate 150 [at_ms 10000; at_ms 8000]) in
  forallb granted (allow_each "k" 60 clocks empty_limiter).1 = true ∧ length clocks = 300%nat.
Proof. split; [by vm_compute|done]. Qed.

(** One clock, the same requests: sixty pass. *)
Example one_clock_keeps_the_limit :
  countb granted (allow_each "k" 60 (replicate 300 (at_ms 10000)) empty_limiter).1 = 60.
Proof. by vm_compute. Qed.

(** ** Witness *)

Lemma bucket_burst_witness :
  length (allow_each "k" 3 (replicate 5 (at_ms 7)) empty_limiter).1 = 5%nat.
Proof. refine (proj1 (bucket_burst "k" 3 (at_ms 7) 5 empty_limiter _ eq_refl _)); [by vm_compute|done]. Defined.
