(* ===== verification/Pool.v ===== *)
(** * The worker pool

    [internal/dispatch/worker.go] and [pool.go]: each worker's last known state,
    the health probe's circuit breaker, and the choice of a worker. A probe's
    reply is the environment's. [rtf] is a [float32], only compared. *)

From stdpp Require Import base gmap strings pretty numbers list.
From Stdlib Require Import SpecFloat.
From S2P Require Import Prelude GoString.

(** ** [worker.go] *)

Definition HealthInterval : Z := 5 * Second.
Definition ProbeInterval : Z := 30 * Second.
Definition FailureThreshold : Z := 3.

Record Snapshot : Type := {
  Addr : string;
  Ready : bool;
  ModelVersion : string;
  SlotsTotal : Z;
  SlotsBusy : Z;
  RTFEWMA : spec_float;
  VoiceIDs : list string;
  Ejected : bool;
  Failures : Z;
  LastSeen : Z;
}.

Definition Free (s : Snapshot) : Z :=
  let free := int32 (SlotsTotal s - SlotsBusy s) in
  if free <? 0 then 0 else free.

Definition Selectable (s : Snapshot) : bool := Ready s && negb (Ejected s) && (0 <? Free s).

(** [pool.go]'s options, with their defaults. *)
Record Options : Type := {
  opt_HealthInterval : Z;
  opt_ProbeInterval : Z;
  opt_FailureThreshold : Z;
  opt_Tick : Z;
}.

Definition withDefaults (o : Options) : Options := {|
  opt_HealthInterval := if opt_HealthInterval o <=? 0 then HealthInterval else opt_HealthInterval o;
  opt_ProbeInterval := if opt_ProbeInterval o <=? 0 then ProbeInterval else opt_ProbeInterval o;
  opt_FailureThreshold :=
    if opt_FailureThreshold o <=? 0 then FailureThreshold else opt_FailureThreshold o;
  opt_Tick := if opt_Tick o <=? 0 then Second else opt_Tick o;
|}.

Record worker : Type := {
  addr : string;
  opts : Options;
  state : Snapshot;
  lastProbe : Z;
}.

Definition f32_zero : spec_float := S754_zero false.
Definition f32_one : spec_float := binary_normalize 24 128 1 0 false.
Definition MaxFloat32 : spec_float := S754_finite false 16777215 104.

Definition newWorker (addr : string) (opts : Options) : worker := {|
  addr := addr; opts := opts;
  state := {| Addr := addr; Ready := false; ModelVersion := ""; SlotsTotal := 0; SlotsBusy := 0;
              RTFEWMA := f32_zero; VoiceIDs := []; Ejected := false; Failures := 0;
              LastSeen := zero_time |};
  lastProbe := zero_time;
|}.

(** What a worker answers to [Health]. *)
Record HealthReply : Type := {
  hr_Ready : bool; hr_ModelVersion : string; hr_SlotsTotal : Z; hr_SlotsBusy : Z;
  hr_RtfEwma : spec_float; hr_VoiceIds : list string;
}.

(** [probe]: [None] is a failed RPC; [now] is when it returned. *)
Definition probe (w : worker) (reply : option HealthReply) (now : Z) : worker :=
  match reply with
  | None =>
      let s := state w in
      let failures := Failures s + 1 in
      {| addr := addr w; opts := opts w;
         state := {| Addr := Addr s; Ready := false; ModelVersion := ModelVersion s;
                     SlotsTotal := SlotsTotal s; SlotsBusy := SlotsBusy s;
                     RTFEWMA := RTFEWMA s; VoiceIDs := VoiceIDs s;
                     Ejected := if opt_FailureThreshold (opts w) <=? failures then true else Ejected s;
                     Failures := failures; LastSeen := LastSeen s |};
         lastProbe := now |}
  | Some r =>
      {| addr := addr w; opts := opts w;
         state := {| Addr := addr w; Ready := hr_Ready r; ModelVersion := hr_ModelVersion r;
                     SlotsTotal := hr_SlotsTotal r; SlotsBusy := hr_SlotsBusy r;
                     RTFEWMA := hr_RtfEwma r; VoiceIDs := hr_VoiceIds r;
                     Ejected := false; Failures := 0; LastSeen := now |};
         lastProbe := now |}
  end.

Definition dueAt (w : worker) (now : Z) : Z :=
  if IsZero (lastProbe w) then now
  else lastProbe w + (if Ejected (state w) then opt_ProbeInterval (opts w)
                      else opt_HealthInterval (opts w)).

(** ** [pool.go] *)

Definition Pool : Type := list worker.

Definition NewPool (addrs : list string) (o : Options) : res Pool :=
  match addrs with
  | [] => Err (ENew "no worker addresses configured")
  | _ => Ok ((λ a, newWorker a (withDefaults o)) <$> addrs)
  end.

(** [probeDue]: the due workers are probed concurrently, each its own state;
    [health i] is the reply of the [i]-th. *)
Definition probeDue (p : Pool) (now : Z) (health : nat → option HealthReply) : Pool :=
  imap (λ i w, if now <? dueAt w now then w else probe w (health i) now) p.

Definition Snapshots (p : Pool) : list Snapshot := state <$> p.

Record Client : Type := { cl_Addr : string; cl_ModelVersion : string }.

(** [Pick]'s scan: the best worker so far with its free slots and its RTF. *)
Definition pick_step (best : option worker * Z * spec_float) (w : worker)
    : option worker * Z * spec_float :=
  let '(b, bestFree, bestRTF) := best in
  let snap := state w in
  if negb (Selectable snap) then best
  else
    let free := Free snap in
    let rtf := if SFeqb (RTFEWMA snap) f32_zero then f32_one else RTFEWMA snap in
    if (bestFree <? free) || ((free =? bestFree) && SFltb rtf bestRTF)
    then (Some w, free, rtf) else best.

Definition pick_worker (p : Pool) : option worker :=
  (foldl pick_step (None, -1, MaxFloat32) p).1.1.

Definition Pick (p : Pool) : res Client :=
  match pick_worker p with
  | None => Err (ESentinel ErrNoWorker)
  | Some w => Ok {| cl_Addr := Addr (state w); cl_ModelVersion := ModelVersion (state w) |}
  end.

Definition with_busy (w : worker) (busy : Z) : worker :=
  let s := state w in
  {| addr := addr w; opts := opts w;
     state := {| Addr := Addr s; Ready := Ready s; ModelVersion := ModelVersion s;
                 SlotsTotal := SlotsTotal s; SlotsBusy := busy; RTFEWMA := RTFEWMA s;
                 VoiceIDs := VoiceIDs s; Ejected := Ejected s; Failures := Failures s;
                 LastSeen := LastSeen s |};
     lastProbe := lastProbe w |}.

Definition clamp_busy (w : worker) (delta : Z) : Z :=
  let busy := int32 (SlotsBusy (state w) + delta) in
  let busy := if busy <? 0 then 0 else busy in
  if SlotsTotal (state w) <? busy then SlotsTotal (state w) else busy.

Fixpoint adjustBusy (p : Pool) (a : string) (delta : Z) : Pool :=
  match p with
  | [] => []
  | w :: rest =>
      if bool_decide (addr w = a) then with_busy w (clamp_busy w delta) :: rest
      else w :: adjustBusy rest a delta
  end.

Definition NoteSlotTaken (p : Pool) (a : string) : Pool := adjustBusy p a 1.
Definition NoteSlotFreed (p : Pool) (a : string) : Pool := adjustBusy p a (-1).

(** In rotation: ready and not ejected. *)
Definition in_rotation (s : Snapshot) : bool := Ready s && negb (Ejected s).

Definition AdvertisedVoices (p : Pool) : gmap string string :=
  foldl (λ m s, if in_rotation s
                then foldl (λ m id, <[id := ModelVersion s]> m) m (VoiceIDs s) else m)
        ∅ (Snapshots p).

Definition pool_ModelVersion (p : Pool) : string :=
  match List.find in_rotation (Snapshots p) with
  | Some s => ModelVersion s
  | None => ""
  end.

Definition pool_Ready (p : Pool) : option gerr :=
  if existsb in_rotation (Snapshots p) then None
  else Some (sentinelf ErrNoWorker "no ready worker").

(** ** Lemmas: the choice *)

Lemma pick_fold l best :
  let '(b, f, r) := best in
  let '(b', f', r') := foldl pick_step best l in
  f ≤ f' ∧
  (b' = b ∧ f' = f ∨ ∃ w, b' = Some w ∧ w ∈ l ∧ Selectable (state w) = true ∧ f' = Free (state w)) ∧
  (∀ w, w ∈ l → Selectable (state w) = true → Free (state w) ≤ f').
Proof.
  revert best. induction l as [|w l IH]; intros [[b f] r]; simpl.
  { split_and!; [lia|by left|]. by intros ? ?%elem_of_nil. }
  unfold pick_step. destruct (Selectable (state w)) eqn:Hsel; cbn [negb]. fold pick_step.
  - destruct (_ || _) eqn:Hbetter.
    + specialize (IH (Some w, Free (state w), if SFeqb (RTFEWMA (state w)) f32_zero
                                                then f32_one else RTFEWMA (state w))).
      cbn beta iota in IH. destruct (foldl _ _ l) as [[b' f'] r'].
      destruct IH as (Hle & Hor & Hall).
      assert (f ≤ Free (state w)) as Hf.
      { apply orb_true_iff in Hbetter as [H|H]; zbool; [lia|]. destruct H. zbool. lia. }
      split_and!; [lia| |].
      * right. destruct Hor as [[-> ->]|(w' & -> & Hin & Hs & ->)].
        -- exists w. split_and!; [done|by left|done..].
        -- exists w'. split_and!; [done|by right|done..].
      * intros w' [->|Hin]%elem_of_cons Hs; [lia|by apply Hall].
    + specialize (IH (b, f, r)). cbn beta iota in IH. destruct (foldl _ _ l) as [[b' f'] r'].
      destruct IH as (Hle & Hor & Hall). apply orb_false_iff in Hbetter as [Hlt _]. zbool.
      split_and!; [lia| |].
      * destruct Hor as [?|(w' & -> & Hin & Hs & ->)]; [by left|].
        right. exists w'. split_and!; [done|by right|done..].
      * intros w' [->|Hin]%elem_of_cons Hs; [lia|by apply Hall].
  - specialize (IH (b, f, r)). cbn beta iota in IH. destruct (foldl _ _ l) as [[b' f'] r'].
    destruct IH as (Hle & Hor & Hall). split_and!; [lia| |].
    + destruct Hor as [?|(w' & -> & Hin & Hs & ->)]; [by left|].
      right. exists w'. split_and!; [done|by right|done..].
    + intros w' [->|Hin]%elem_of_cons Hs; [congruence|by apply Hall].
Qed.

Lemma Free_nonneg s : 0 ≤ Free s.
Proof. unfold Free. case_match; zbool; lia. Qed.

Lemma pick_worker_spec p :
  match pick_worker p with
  | Some w => w ∈ p ∧ Selectable (state w) = true ∧
              ∀ w', w' ∈ p → Selectable (state w') = true → Free (state w') ≤ Free (state w)
  | None => ∀ w, w ∈ p → Selectable (state w) = false
  end.
Proof.
  pose proof (pick_fold p (None, -1, MaxFloat32)) as H. cbn beta iota in H.
  unfold pick_worker. destruct (foldl _ _ p) as [[b f] r]. destruct H as (Hle & Hor & Hall). simpl.
  destruct Hor as [[-> ->]|(w & -> & Hin & Hs & ->)]; [|done].
  intros w Hin. destruct (Selectable (state w)) eqn:Hs; [|done].
  specialize (Hall w Hin Hs). pose proof (Free_nonneg (state w)). lia.
Qed.

(** ** The circuit breaker along a worker's history *)

Inductive worker_event : Type :=
| EProbed (reply : option HealthReply) (at_ : Z)
| EBusy (delta : Z).

Definition worker_step (w : worker) (e : worker_event) : worker :=
  match e with
  | EProbed reply at_ => probe w reply at_
  | EBusy delta => with_busy w (clamp_busy w delta)
  end.

(** A worker after a history, the most recent event first. *)
Fixpoint worker_after (a : string) (o : Options) (l : list worker_event) : worker :=
  match l with
  | [] => newWorker a o
  | e :: older => worker_step (worker_after a o older) e
  end.

(** The reference: probes failed since the last that answered, and what the
    most recent probe answered. *)
Fixpoint failed_run (l : list worker_event) : Z :=
  match l with
  | [] => 0
  | EProbed None _ :: older => failed_run older + 1
  | EProbed (Some _) _ :: _ => 0
  | EBusy _ :: older => failed_run older
  end.

Fixpoint last_reply (l : list worker_event) : option (option HealthReply * Z) :=
  match l with
  | [] => None
  | EProbed r at_ :: _ => Some (r, at_)
  | EBusy _ :: older => last_reply older
  end.

Lemma failed_run_nonneg l : 0 ≤ failed_run l.
Proof. induction l as [|[[]|] l IH]; simpl; lia. Qed.

Lemma worker_after_spec a o l :
  0 < opt_FailureThreshold o →
  let w := worker_after a o l in
  addr w = a ∧ Addr (state w) = a ∧ opts w = o ∧ Failures (state w) = failed_run l ∧
  Ejected (state w) = (opt_FailureThreshold o <=? failed_run l) ∧
  Ready (state w) = match last_reply l with Some (Some r, _) => hr_Ready r | _ => false end ∧
  lastProbe w = from_option snd zero_time (last_reply l).
Proof.
  intros Ho. induction l as [|e l (Ha & Ha' & Hop & Hf & He & Hr & Hp)].
  { simpl. split_and!; try done. by rewrite (proj2 (Z.leb_gt _ _)). }
  destruct e as [[r|] at_|delta]; simpl.
  - split_and!; try done. by rewrite (proj2 (Z.leb_gt _ _)).
  - rewrite Hop, Hf, He. split_and!; try done.
    destruct (opt_FailureThreshold o <=? failed_run l + 1) eqn:H1; [done|].
    zbool. apply Z.leb_gt. lia.
  - done.
Qed.

(** ** Slots *)

(** A snapshot whose counts are those of a sane worker. *)
Definition sane (s : Snapshot) : Prop :=
  0 ≤ SlotsBusy s ≤ MaxInt32 ∧ 0 ≤ SlotsTotal s ≤ MaxInt32.

Lemma Free_sane s : sane s → Free s = Z.max 0 (SlotsTotal s - SlotsBusy s).
Proof.
  intros [Hb Ht]. unfold Free, MaxInt32 in *.
  rewrite int32_id by (unfold in_int32, MinInt32, MaxInt32; lia).
  case_match; zbool; lia.
Qed.

Definition slots_total (p : Pool) : Z :=
  foldr (λ w n, (if in_rotation (state w) then SlotsTotal (state w) else 0) + n) 0 p.
Definition slots_free (p : Pool) : Z :=
  foldr (λ w n, (if in_rotation (state w) then Free (state w) else 0) + n) 0 p.

Lemma slots_free_nonneg p : 0 ≤ slots_free p.
Proof.
  induction p as [|w p IH]; simpl; [done|]. pose proof (Free_nonneg (state w)).
  destruct (in_rotation _); lia.
Qed.

(** A worker's state carries its own address. *)
Definition own_addr (w : worker) : Prop := Addr (state w) = addr w.

(** A slot taken on the chosen worker is one slot less, of the same total. *)
Lemma adjust_taken p w :
  NoDup (addr <$> p) → w ∈ p → sane (state w) → Selectable (state w) = true →
  slots_free (NoteSlotTaken p (addr w)) = slots_free p - 1 ∧
  slots_total (NoteSlotTaken p (addr w)) = slots_total p.
Proof.
  intros Hnd Hin Hsane Hsel. unfold NoteSlotTaken. induction p as [|x p IH]; [by apply elem_of_nil in Hin|].
  simpl in Hnd. apply NoDup_cons in Hnd as [Hnin Hnd]. simpl. apply elem_of_cons in Hin as [<-|Hin].
  - rewrite bool_decide_eq_true_2 by done. simpl.
    unfold Selectable in Hsel. apply andb_true_iff in Hsel as [Hrot Hfree]. apply Z.ltb_lt in Hfree.
    unfold in_rotation. simpl. rewrite Hrot.
    rewrite (Free_sane _ Hsane) in Hfree |- *. destruct Hsane as [Hb Ht].
    assert (clamp_busy w 1 = SlotsBusy (state w) + 1) as Hc.
    { unfold clamp_busy. rewrite int32_id by (unfold in_int32, MinInt32, MaxInt32 in *; lia).
      destruct (SlotsBusy (state w) + 1 <? 0) eqn:?; zbool; [lia|].
      destruct (SlotsTotal (state w) <? SlotsBusy (state w) + 1) eqn:?; zbool; lia. }
    rewrite Free_sane by (split; simpl; rewrite ?Hc; lia). simpl. rewrite Hc. lia.
  - rewrite bool_decide_eq_false_2 by (intros Heq; apply Hnin, list_elem_of_fmap; by exists w).
    simpl. destruct (IH Hnd Hin) as [-> ->]. lia.
Qed.

Lemma adjust_addrs p a d : addr <$> adjustBusy p a d = addr <$> p.
Proof.
  induction p as [|w p IH]; simpl; [done|]. case_bool_decide; [done|]. rewrite !fmap_cons. by rewrite IH.
Qed.

(** ** Properties *)

(** The least busy worker is chosen. [Pick] answers a worker of the pool that
    is ready, not ejected and has a free slot, with the most free slots of all
    such workers; it answers [ErrNoWorker] exactly when there is none. *)
Theorem pick_least_busy p :
  Forall own_addr p →
  match Pick p with
  | Ok c => ∃ w, w ∈ p ∧ cl_Addr c = addr w ∧ Selectable (state w) = true ∧
                 cl_ModelVersion c = ModelVersion (state w) ∧
                 ∀ w', w' ∈ p → Selectable (state w') = true → Free (state w') ≤ Free (state w)
  | Err e => e = ESentinel ErrNoWorker ∧ ∀ w, w ∈ p → Selectable (state w) = false
  end.
Proof.
  intros Hown. unfold Pick. pose proof (pick_worker_spec p) as H.
  destruct (pick_worker p) as [w|]; [|done]. destruct H as (Hin & Hs & Hall).
  exists w. rewrite Forall_forall in Hown. split_and!; try done. exact (Hown w Hin).
Qed.

(** The circuit. After any history of probes and slot adjustments, a worker's
    failure count is the length of its current run of failed probes, it is
    ejected exactly when that run reached the threshold, it is ready only if its
    latest probe answered ready, and it is next due one probe interval after the
    latest probe when ejected, one health interval otherwise. *)
Theorem circuit a o l now :
  let o := withDefaults o in
  let w := worker_after a o l in
  Failures (state w) = failed_run l ∧
  Ejected (state w) = (opt_FailureThreshold o <=? failed_run l) ∧
  (Ready (state w) = true ↔ ∃ r t, last_reply l = Some (Some r, t) ∧ hr_Ready r = true) ∧
  dueAt w now =
    match last_reply l with
    | Some (_, t) =>
        if IsZero t then now
        else t + (if opt_FailureThreshold o <=? failed_run l then opt_ProbeInterval o
                  else opt_HealthInterval o)
    | None => now
    end.
Proof.
  intros o' w.
  assert (0 < opt_FailureThreshold o') as Ho
    by (unfold o', withDefaults; simpl; case_match; zbool; [by vm_compute|lia]).
  destruct (worker_after_spec a o' l Ho) as (_ & _ & Hop & Hf & He & Hr & Hp).
  fold w in Hop, Hf, He, Hr, Hp. split_and!; [done..| |].
  - rewrite Hr. destruct (last_reply l) as [[[r|] t]|]; split; try done.
    + intros. by exists r, t.
    + by intros (r' & t' & [= -> ->] & ?).
    + by intros (r' & t' & [=] & ?).
    + by intros (r' & t' & [=] & ?).
  - unfold dueAt. rewrite Hp, He, Hop. by destruct (last_reply l) as [[r t]|].
Qed.

Lemma pick_least_busy_witness :
  let w a total busy :=
    probe (newWorker a (withDefaults {| opt_HealthInterval := 0; opt_ProbeInterval := 0;
                                        opt_FailureThreshold := 0; opt_Tick := 0 |}))
      (Some {| hr_Ready := true; hr_ModelVersion := "v1"; hr_SlotsTotal := total;
               hr_SlotsBusy := busy; hr_RtfEwma := f32_zero; hr_VoiceIds := [] |}) 1 in
  let p := [w "a" 2 1; w "b" 4 1; w "c" 9 9] in
  Pick p = Ok {| cl_Addr := "b"; cl_ModelVersion := "v1" |} ∧
  ∃ x, x ∈ p ∧ "b"%string = addr x ∧ Selectable (state x) = true ∧ "v1"%string = ModelVersion (state x) ∧
       ∀ w', w' ∈ p → Selectable (state w') = true → Free (state w') ≤ Free (state x).
Proof.
  intros w p. split; [by vm_compute|].
  exact (pick_least_busy p ltac:(repeat constructor)).
Defined.
