(* ===== verification/Dispatch.v ===== *)
(** * Admission to the fleet

    [internal/dispatch/queue.go]: the [Dispatcher]'s bookkeeping, one function
    per critical section, and [Reserve] as a thread of those sections. Many
    callers run [Reserve] at once against one dispatcher: [step] interleaves
    their atomic sections with the clock, health probes and releases. Metrics and
    logs are left out. *)

From stdpp Require Import base gmap strings pretty numbers list.
From S2P Require Import Prelude GoString Pool.

(** ** Data *)

(** [type Class int]. *)
Definition Class_ : Type := Z.
Definition ClassStream : Class_ := 0.
Definition ClassSync : Class_ := 1.
Definition ClassBatch : Class_ := 2.

Definition Class_String (c : Class_) : string :=
  match c with 0 => "stream" | 1 => "sync" | 2 => "batch" | _ => "unknown" end.

Definition StreamWait : Z := 2 * Second.
Definition SyncWait : Z := 10 * Second.
Definition BatchWait : Z := 5 * Minute.
Definition recheckInterval : Z := 50 * Millisecond.
Definition MinRetryAfter : Z := Second.
Definition MaxRetryAfter : Z := 30 * Second.
Definition StreamReservePercent : Z := 30.
Definition QueueDepthPerSlot : Z := 2.
Definition MinQueueDepth : Z := 2.
Definition initialServiceTime : Z := Second.

Definition defaultWait (c : Class_) : Z :=
  match c with 0 => StreamWait | 1 => SyncWait | 2 => BatchWait | _ => SyncWait end.

(** [free] is the one-slot signal channel: is a signal waiting in it? *)
Record Dispatcher : Type := {
  pool : Pool;
  inFlight : gmap Class_ Z;
  waiting : gmap Class_ Z;
  serviceTime : Z;
  free : bool;
}.

Definition NewDispatcher (p : Pool) : Dispatcher :=
  {| pool := p; inFlight := ∅; waiting := ∅; serviceTime := initialServiceTime; free := false |}.

(** A Go map read: absent is zero. *)
Definition at_class (m : gmap Class_ Z) (c : Class_) : Z := default 0 (m !! c).

Record Reservation : Type := { Client_ : Client; class : Class_; started : Z }.

(** ** The critical sections *)

Definition capacity (d : Dispatcher) : Z * Z :=
  let total := slots_total (pool d) in
  let free := slots_free (pool d) in
  (total, if free <? 0 then 0 else free).

Definition reservedForStream (total : Z) : Z := Z.quot (total * StreamReservePercent) 100.

Definition shouldRefuse (d : Dispatcher) (c : Class_) : bool * string :=
  let '(total, free) := capacity d in
  if 0 <? free then (false, "")
  else
    let limit := total * QueueDepthPerSlot in
    let limit := if limit <? MinQueueDepth then MinQueueDepth else limit in
    let depth := at_class (waiting d) c in
    if limit <=? depth then (true, "queue full")
    else
      let slots := if total <? 1 then 1 else total in
      let expected := int64 ((Z.quot (depth + 1) slots + 1) * serviceTime d) in
      if defaultWait c <? expected then (true, "expected wait exceeds the class budget")
      else (false, "").

Definition tryReserve (d : Dispatcher) (c : Class_) (now : Z) : option Reservation * Dispatcher :=
  let '(capacityTotal, capacityFree) := capacity d in
  if capacityFree <=? 0 then (None, d)
  else if negb (c =? ClassStream) && (capacityFree <=? reservedForStream capacityTotal)
  then (None, d)
  else match Pick (pool d) with
  | Err _ => (None, d)
  | Ok client =>
      (Some {| Client_ := client; class := c; started := now |},
       {| pool := NoteSlotTaken (pool d) (cl_Addr client);
          inFlight := <[c := at_class (inFlight d) c + 1]> (inFlight d);
          waiting := waiting d; serviceTime := serviceTime d; free := free d |})
  end.

Definition decr (m : gmap Class_ Z) (c : Class_) : gmap Class_ Z :=
  <[c := if at_class m c - 1 <? 0 then 0 else at_class m c - 1]> m.

Definition releaseSlot (d : Dispatcher) (c : Class_) (elapsed : Z) : Dispatcher :=
  {| pool := pool d; inFlight := decr (inFlight d) c; waiting := waiting d;
     serviceTime := Z.quot (int64 (int64 (serviceTime d * 3) + elapsed)) 4;
     free := true |}.

(** A reservation's [release], run once: the thread below forgets it after. *)
Definition Release (d : Dispatcher) (r : Reservation) (now : Z) : Dispatcher :=
  releaseSlot
    {| pool := NoteSlotFreed (pool d) (cl_Addr (Client_ r)); inFlight := inFlight d;
       waiting := waiting d; serviceTime := serviceTime d; free := free d |}
    (class r) (time_sub now (started r)).

Definition enter (d : Dispatcher) (c : Class_) : Dispatcher :=
  {| pool := pool d; inFlight := inFlight d;
     waiting := <[c := at_class (waiting d) c + 1]> (waiting d);
     serviceTime := serviceTime d; free := free d |}.

Definition leave (d : Dispatcher) (c : Class_) : Dispatcher :=
  {| pool := pool d; inFlight := inFlight d; waiting := decr (waiting d) c;
     serviceTime := serviceTime d; free := free d |}.

Definition overload (d : Dispatcher) (c : Class_) : gerr :=
  let waiting := at_class (waiting d) c in
  let '(total, _) := capacity d in
  let perSlot := if 0 <? total then Z.quot (waiting + total - 1) total else waiting in
  let retry := int64 (perSlot * serviceTime d) in
  let retry := if retry <? MinRetryAfter then MinRetryAfter
               else if MaxRetryAfter <? retry then MaxRetryAfter else retry in
  EOverload {| ov_RetryAfter := retry; ov_Class := Class_String c; ov_Waiting := waiting |}.

Record Stats_ : Type := {
  st_InFlight : gmap Class_ Z; st_Waiting : gmap Class_ Z; st_ServiceTime : Z;
  st_FreeSlots : Z; st_TotalSlots : Z;
}.
Definition Stats (d : Dispatcher) : Stats_ :=
  {| st_InFlight := inFlight d; st_Waiting := waiting d; st_ServiceTime := serviceTime d;
     st_FreeSlots := (capacity d).2; st_TotalSlots := (capacity d).1 |}.

(** ** [Reserve] as a thread *)

(** Where a caller is. [AtTry t] remembers the clock the budget check read,
    [None] on the first attempt; [AtWait until] sleeps on the timer and the
    signal; [AtReturn r] has its result and the deferred [leave] to run. *)
Inductive pc : Type :=
| AtStart
| AtEnter
| AtCheck (first : bool)
| AtTry (checked : option Z)
| AtRemaining
| AtWait (until : Z)
| AtOverload
| AtReturn (r : res Reservation)
| Returned (r : res Reservation)
| Released.

Record caller : Type := { c_class : Class_; c_deadline : Z; c_checked : option Z; c_pc : pc }.

Definition at_pc (c : caller) (p : pc) : caller :=
  {| c_class := c_class c; c_deadline := c_deadline c; c_checked := c_checked c; c_pc := p |}.

(** What ends a wait. *)
Inductive wake : Type := WakeCancelled | WakeTimer | WakeSignal.

(** One atomic section of [Reserve] at time [now]; [w] is used by a wait only.
    [None]: not able to move. *)
Definition reserve_step (d : Dispatcher) (now : Z) (w : wake) (c : caller)
    : option (Dispatcher * caller) :=
  match c_pc c with
  | AtStart =>
      if (shouldRefuse d (c_class c)).1
      then Some (d, at_pc c (Returned (Err (overload d (c_class c)))))
      else Some (d, at_pc c AtEnter)
  | AtEnter => Some (enter d (c_class c), at_pc c (AtCheck true))
  | AtCheck first =>
      if negb first && (c_deadline c <? now)
      then Some (d, at_pc c AtOverload)
      else
        let checked := if first then None else Some now in
        Some (d, {| c_class := c_class c; c_deadline := c_deadline c; c_checked := checked;
                    c_pc := AtTry checked |})
  | AtTry _ =>
      match tryReserve d (c_class c) now with
      | (Some r, d') => Some (d', at_pc c (AtReturn (Ok r)))
      | (None, d') => Some (d', at_pc c AtRemaining)
      end
  | AtRemaining =>
      let remaining := time_sub (c_deadline c) now in
      if remaining <=? 0 then Some (d, at_pc c AtOverload)
      else
        let remaining := if recheckInterval <? remaining then recheckInterval else remaining in
        Some (d, at_pc c (AtWait (now + remaining)))
  | AtWait until =>
      match w with
      | WakeCancelled => Some (d, at_pc c (AtReturn (Err (ESentinel CtxCanceled))))
      | WakeTimer => if until <=? now then Some (d, at_pc c (AtCheck false)) else None
      | WakeSignal =>
          if free d then
            Some ({| pool := pool d; inFlight := inFlight d; waiting := waiting d;
                     serviceTime := serviceTime d; free := false |}, at_pc c (AtCheck false))
          else None
      end
  | AtOverload => Some (d, at_pc c (AtReturn (Err (overload d (c_class c)))))
  | AtReturn r => Some (leave d (c_class c), at_pc c (Returned r))
  | Returned _ | Released => None
  end.

(** The whole gateway: the dispatcher, its callers and the clock. *)
Record system : Type := { sys_d : Dispatcher; sys_callers : list caller; sys_now : Z }.

Inductive step : system → system → Prop :=
| step_arrive d cs now c :
    step {| sys_d := d; sys_callers := cs; sys_now := now |}
         {| sys_d := d; sys_now := now;
            sys_callers := cs ++ [{| c_class := c; c_deadline := now + defaultWait c;
                                     c_checked := None; c_pc := AtStart |}] |}
| step_caller d cs now i c w d' c' :
    cs !! i = Some c → reserve_step d now w c = Some (d', c') →
    step {| sys_d := d; sys_callers := cs; sys_now := now |}
         {| sys_d := d'; sys_callers := <[i := c']> cs; sys_now := now |}
| step_release d cs now i c r :
    cs !! i = Some c → c_pc c = Returned (Ok r) →
    step {| sys_d := d; sys_callers := cs; sys_now := now |}
         {| sys_d := Release d r now; sys_callers := <[i := at_pc c Released]> cs; sys_now := now |}
| step_health d cs now health :
    step {| sys_d := d; sys_callers := cs; sys_now := now |}
         {| sys_d := {| pool := probeDue (pool d) now health; inFlight := inFlight d;
                        waiting := waiting d; serviceTime := serviceTime d; free := free d |};
            sys_callers := cs; sys_now := now |}
| step_clock d cs now now' :
    now ≤ now' →
    step {| sys_d := d; sys_callers := cs; sys_now := now |}
         {| sys_d := d; sys_callers := cs; sys_now := now' |}.

Definition initial (p : Pool) (now : Z) : system :=
  {| sys_d := NewDispatcher p; sys_callers := []; sys_now := now |}.

(** ** Lemmas *)

Lemma at_class_insert m c v c' :
  at_class (<[c := v]> m) c' = if bool_decide (c = c') then v else at_class m c'.
Proof.
  unfold at_class. case_bool_decide as H; [subst; by rewrite lookup_insert_eq|by rewrite lookup_insert_ne].
Qed.

Lemma overload_bounds d c :
  ∃ o, overload d c = EOverload o ∧ MinRetryAfter ≤ ov_RetryAfter o ≤ MaxRetryAfter ∧
       ov_Waiting o = at_class (waiting d) c ∧ ov_Class o = Class_String c.
Proof.
  unfold overload. destruct (capacity d) as [total f]. eexists. split; [done|]. simpl.
  split; [|done]. unfold MinRetryAfter, MaxRetryAfter.
  change (30 * Second) with 30000000000. change Second with 1000000000. cases; zbool; lia.
Qed.

(** Between [enter] and [leave]. *)
Definition queued (cl : Class_) (c : caller) : bool :=
  (c_class c =? cl) &&
  match c_pc c with
  | AtStart | AtEnter | Returned _ | Released => false
  | _ => true
  end.

(** Has a reservation it has not released. *)
Definition holding (cl : Class_) (c : caller) : bool :=
  match c_pc c with
  | AtReturn (Ok r) | Returned (Ok r) => class r =? cl
  | _ => false
  end.

Definition caller_ok (c : caller) : Prop :=
  (∀ t, c_checked c = Some t → t ≤ c_deadline c) ∧
  (∀ u, c_pc c = AtWait u → u ≤ c_deadline c) ∧
  (∀ r, c_pc c = AtReturn (Ok r) ∨ c_pc c = Returned (Ok r) → class r = c_class c) ∧
  (∀ e, c_pc c = AtReturn (Err e) ∨ c_pc c = Returned (Err e) →
     e = ESentinel CtxCanceled ∨
     ∃ o, e = EOverload o ∧ MinRetryAfter ≤ ov_RetryAfter o ≤ MaxRetryAfter).

Definition one (b : bool) : Z := if b then 1 else 0.

Lemma tryReserve_class d c now r d' : tryReserve d c now = (Some r, d') → class r = c.
Proof.
  unfold tryReserve. destruct (capacity d) as [t f]. intros. by cases.
Qed.

Lemma tryReserve_effect d c now :
  let '(o, d') := tryReserve d c now in
  waiting d' = waiting d ∧
  ∀ cl, at_class (inFlight d') cl =
    at_class (inFlight d) cl + one (match o with Some _ => c =? cl | None => false end).
Proof.
  unfold tryReserve. destruct (capacity d) as [t f].
  assert (∀ cl, at_class (inFlight d) cl = at_class (inFlight d) cl + 0) by (intros; lia).
  destruct (f <=? 0); [done|]. destruct (_ && _); [done|]. destruct (Pick (pool d)); [|done].
  simpl. split; [done|]. intros cl. rewrite at_class_insert.
  destruct (Z.eqb_spec c cl); [rewrite bool_decide_eq_true_2 by done; subst|rewrite bool_decide_eq_false_2 by done];
    unfold one; lia.
Qed.

(** A step that changes no counter of this caller's: the goals that are left are
    about what it may hold or report. *)
Ltac settles := split_and!; try done; try (intros; lia); unfold caller_ok; split_and?; simpl; try done; try by intros ? [|].

(** One atomic section changes the counters as it changes the caller's place. *)
Lemma reserve_step_effect d now w c d' c' :
  reserve_step d now w c = Some (d', c') → caller_ok c →
  (∀ cl, one (queued cl c) ≤ at_class (waiting d) cl) →
  caller_ok c' ∧ c_class c' = c_class c ∧ c_deadline c' = c_deadline c ∧
  (∀ cl, at_class (waiting d') cl = at_class (waiting d) cl - one (queued cl c) + one (queued cl c')) ∧
  (∀ cl, at_class (inFlight d') cl = at_class (inFlight d) cl - one (holding cl c) + one (holding cl c')).
Proof.
  intros Hstep (Hchk & Hwait & Hheld & Herr) Hpos. unfold reserve_step in Hstep.
  destruct c as [cc dl ch pc]; simpl in *. unfold queued, holding, at_pc in *.
  destruct pc as [| |first|chk| |until| |r|r|]; simpl in *.
  - destruct (overload_bounds d cc) as (o & Ho & Hb & _).
    destruct (shouldRefuse d cc).1; simplify_eq/=; settles. intros e [|]; simplify_eq. right. eauto.
  - simplify_eq/=. settles. intros cl. rewrite at_class_insert, !andb_false_r, andb_true_r. unfold one.
    destruct (Z.eqb_spec cc cl); [rewrite bool_decide_eq_true_2 by done; subst|rewrite bool_decide_eq_false_2 by done]; lia.
  - destruct (negb first && (dl <? now)) eqn:Hover; simplify_eq/=; settles.
    destruct first; [done|]. simpl in Hover. zbool. intros; simplify_eq. lia.
  - pose proof (tryReserve_effect d cc now) as Heff. pose proof (tryReserve_class d cc now) as Hcl.
    destruct (tryReserve d cc now) as [[r|] d1]; simplify_eq/=; destruct Heff as [-> Hin]; settles.
    + intros r' [|]; simplify_eq. by apply (Hcl r' d').
    + intros cl. rewrite Hin, (Hcl r d') by done. unfold one. lia.
    + intros cl. rewrite Hin. unfold one. lia.
  - destruct (time_sub dl now <=? 0) eqn:Hrem; simplify_eq/=; settles.
    intros u. zbool. unfold time_sub, MinInt64, MaxInt64 in *. case_match; zbool; intros; simplify_eq; lia.
  - destruct w; simpl in *; [|destruct (until <=? now)|destruct (free d)]; simplify_eq/=; settles.
    intros e [|]; simplify_eq. by left.
  - simplify_eq/=. destruct (overload_bounds d' cc) as (o & Ho & Hb & _). settles.
    intros e [|]; simplify_eq. right. eauto.
  - simplify_eq/=. settles.
    + intros r' [|]; simplify_eq. apply Hheld. by left.
    + intros e [|]; simplify_eq. apply Herr. by left.
    + intros cl. specialize (Hpos cl). unfold decr. rewrite at_class_insert.
      rewrite !andb_false_r, andb_true_r in *. unfold one in *.
      destruct (Z.eqb_spec cc cl); [rewrite bool_decide_eq_true_2 by done; subst|rewrite bool_decide_eq_false_2 by done];
        [|lia]. case_match; zbool; lia.
  - done.
  - done.
Qed.

(** The counters are exact, and every caller is within its budget. *)
Definition consistent (s : system) : Prop :=
  (∀ cl, at_class (waiting (sys_d s)) cl = countb (queued cl) (sys_callers s)) ∧
  (∀ cl, at_class (inFlight (sys_d s)) cl = countb (holding cl) (sys_callers s)) ∧
  Forall caller_ok (sys_callers s).

Lemma one_le_countb (f : caller → bool) l i c : l !! i = Some c → one (f c) ≤ countb f l.
Proof.
  intros Hi. pose proof (countb_nonneg f l). unfold one.
  destruct (f c) eqn:Hf; [|done]. pose proof (countb_lookup_pos f l i c Hi Hf). lia.
Qed.

Lemma countb_insert_one (f : caller → bool) l i c c' :
  l !! i = Some c → countb f (<[i:=c']> l) = countb f l - one (f c) + one (f c').
Proof. apply countb_insert. Qed.

Lemma step_consistent s s' : consistent s → step s s' → consistent s'.
Proof.
  intros (Hw & Hi & Hok) Hstep. destruct Hstep as
    [d cs now c|d cs now i c w d' c' Hc Hr|d cs now i c r Hc Hpc|d cs now health|d cs now now' Hle];
    unfold consistent in *; simpl in *.
  - split_and!.
    + intros cl. rewrite countb_app, Hw. simpl.
      assert (∀ dl, queued cl {| c_class := c; c_deadline := dl; c_checked := None;
                                 c_pc := AtStart |} = false) as -> by (intros; apply andb_false_r).
      lia.
    + intros cl. rewrite countb_app, Hi. simpl. lia.
    + apply Forall_app. split; [done|]. constructor; [|done]. split_and!; simpl; try done; by intros ? [|].
  - pose proof (Forall_lookup_1 _ _ _ _ Hok Hc) as Hcok.
    destruct (reserve_step_effect _ _ _ _ _ _ Hr Hcok) as (Hok' & _ & _ & Hw' & Hi').
    { intros cl. rewrite Hw. by apply (one_le_countb _ _ i). }
    split_and!.
    + intros cl. rewrite (countb_insert_one _ cs i c c' Hc), Hw', Hw. done.
    + intros cl. rewrite (countb_insert_one _ cs i c c' Hc), Hi', Hi. done.
    + by apply Forall_insert.
  - pose proof (Forall_lookup_1 _ _ _ _ Hok Hc) as Hcok.
    split_and!.
    + intros cl. rewrite (countb_insert_one _ cs i c (at_pc c Released) Hc), Hw.
      assert (queued cl c = false ∧ queued cl (at_pc c Released) = false) as [-> ->]
        by (unfold queued; rewrite Hpc; split; apply andb_false_r).
      lia.
    + intros cl. rewrite (countb_insert_one _ cs i c (at_pc c Released) Hc).
      pose proof (one_le_countb (holding cl) cs i c Hc) as Hone.
      rewrite <-(Hi cl) in Hone |- *. unfold decr. rewrite at_class_insert.
      assert (holding cl c = (class r =? cl) ∧ holding cl (at_pc c Released) = false)
        as [Hh ->] by (unfold holding; by rewrite Hpc).
      rewrite Hh in *. simpl. unfold one in *.
      destruct (Z.eqb_spec (class r) cl) as [Heq|Hne];
        [rewrite bool_decide_eq_true_2 by done|rewrite bool_decide_eq_false_2 by done; lia].
      rewrite Heq. case_match; zbool; lia.
    + apply Forall_insert; [done|]. destruct Hcok as (Hchk & _).
      split_and!; simpl; try done; by intros ? [|].
  - done.
  - done.
Qed.

Lemma reachable_consistent p now s : rtc step (initial p now) s → consistent s.
Proof.
  apply rtc_invariant; [intros; by eapply step_consistent|].
  split_and!; simpl; [done|done|constructor].
Qed.

(** ** Properties *)


(** A ready worker with [total] slots, [busy] of them busy. *)
Definition demo_worker (a : string) (total busy : Z) : worker :=
  probe (newWorker a (withDefaults {| opt_HealthInterval := 0; opt_ProbeInterval := 0;
                                      opt_FailureThreshold := 0; opt_Tick := 0 |}))
    (Some {| hr_Ready := true; hr_ModelVersion := "v1"; hr_SlotsTotal := total;
             hr_SlotsBusy := busy; hr_RtfEwma := f32_zero; hr_VoiceIds := ["vi-1"] |}) 1.

(** One stream caller arrives, enters and takes the only slot. *)
Definition demo_held : system :=
  let p := [demo_worker "w" 1 0] in
  let r := {| Client_ := {| cl_Addr := "w"; cl_ModelVersion := "v1" |}; class := 0; started := 5 |} in
  {| sys_d := {| pool := NoteSlotTaken p "w"; inFlight := {[0 := 1]}; waiting := {[0 := 1]};
                 serviceTime := initialServiceTime; free := false |};
     sys_callers := [{| c_class := 0; c_deadline := 5 + StreamWait; c_checked := None;
                        c_pc := AtReturn (Ok r) |}];
     sys_now := 5 |}.

Lemma demo_reachable : rtc step (initial [demo_worker "w" 1 0] 5) demo_held.
Proof.
  unfold initial. eapply rtc_l; [apply (step_arrive _ _ _ 0)|].
  do 4 (eapply rtc_l; [eapply (step_caller _ _ _ 0 _ WakeTimer); reflexivity|]).
  vm_compute. apply rtc_refl.
Qed.


(** Streams keep their reserve. On a pool of distinct, sane workers, a
    reservation is granted to a stream exactly when a slot is free, and to any
    other class exactly when more than the 30% reserve is free; a grant takes one
    slot of a selectable worker, so after any grant to another class at least the
    reserve is still free. *)
Theorem stream_reserve d c now :
  NoDup (addr <$> pool d) → Forall own_addr (pool d) →
  Forall (λ w, sane (state w)) (pool d) →
  let total := slots_total (pool d) in
  let free := slots_free (pool d) in
  match tryReserve d c now with
  | (Some r, d') =>
      0 < free ∧ (c ≠ ClassStream → reservedForStream total < free) ∧
      slots_free (pool d') = free - 1 ∧ slots_total (pool d') = total ∧
      (c ≠ ClassStream → reservedForStream (slots_total (pool d')) ≤ slots_free (pool d')) ∧
      class r = c ∧ started r = now
  | (None, d') => d' = d ∧ (free = 0 ∨ c ≠ ClassStream ∧ free ≤ reservedForStream total)
  end.
Proof.
  intros Hnd Hown Hsane total free. unfold tryReserve, capacity.
  pose proof (slots_free_nonneg (pool d)) as Hnn. fold total free in Hnn |- *.
  rewrite (proj2 (Z.ltb_ge free 0)) by done.
  destruct (free <=? 0) eqn:Hf; zbool; [split; [done|lia]|].
  destruct (negb (c =? ClassStream) && (free <=? reservedForStream total)) eqn:Hres.
  { zbool. split; [done|]. by right. }
  unfold Pick. pose proof (pick_worker_spec (pool d)) as Hp.
  destruct (pick_worker (pool d)) as [w|].
  - destruct Hp as (Hin & Hsel & _). rewrite Forall_forall in Hown, Hsane. simpl.
    assert (Addr (state w) = addr w) as -> by exact (Hown w Hin).
    destruct (adjust_taken (pool d) w Hnd Hin (Hsane w Hin) Hsel) as [-> ->].
    assert (c ≠ ClassStream → reservedForStream total < free) as Hlt.
    { intros Hc. apply andb_false_iff in Hres as [H|H]; zbool; [congruence|lia]. }
    fold total free. split_and!; try done. intros Hc. specialize (Hlt Hc). lia.
  - exfalso. assert (free = 0); [|lia]. unfold free. clear -Hp.
    induction (pool d) as [|w p IH]; [done|]. simpl.
    rewrite IH by (intros; apply Hp; by right).
    specialize (Hp w ltac:(by left)). unfold Selectable in Hp. unfold in_rotation.
    pose proof (Free_nonneg (state w)).
    destruct (Ready (state w) && negb (Ejected (state w))); simpl in *; zbool; lia.
Qed.

Lemma stream_reserve_witness :
  let d := NewDispatcher [demo_worker "a" 5 3; demo_worker "b" 5 4] in
  (tryReserve d ClassBatch 7).1 = None ∧
  slots_free (pool (tryReserve d ClassStream 7).2) = 2.
Proof.
  intros d.
  assert (NoDup (addr <$> pool d)) as H1 by (by apply (bool_decide_unpack _); vm_compute).
  assert (Forall own_addr (pool d)) as H2 by (repeat constructor).
  assert (Forall (λ w, sane (state w)) (pool d)) as H3 by (repeat constructor; by vm_compute).
  split; [by vm_compute|].
  exact (proj1 (proj2 (proj2 (stream_reserve d ClassStream 7 H1 H2 H3)))).
Defined.

(** Who is turned away at the door. A caller is refused before queueing
    exactly when no slot is free and either its class already has twice the
    fleet's slots waiting (at least 2) or the queue ahead of it would outlast its
    budget. So with a slot free nobody is refused, and when the free slots are
    all within the stream reserve a caller of another class is admitted however
    long its queue is, although it cannot be given a slot. *)
Theorem refusal d c now :
  let total := slots_total (pool d) in
  let depth := at_class (waiting d) c in
  ((shouldRefuse d c).1 = true ↔
     slots_free (pool d) = 0 ∧
     (Z.max MinQueueDepth (QueueDepthPerSlot * total) ≤ depth ∨
      defaultWait c < int64 ((Z.quot (depth + 1) (Z.max 1 total) + 1) * serviceTime d))) ∧
  (c ≠ ClassStream → 0 < slots_free (pool d) ≤ reservedForStream total →
     (shouldRefuse d c).1 = false ∧ tryReserve d c now = (None, d)).
Proof.
  intros total depth. pose proof (slots_free_nonneg (pool d)) as Hnn. split.
  - unfold shouldRefuse, capacity. fold total depth.
    rewrite (proj2 (Z.ltb_ge (slots_free (pool d)) 0)) by done.
    destruct (0 <? slots_free (pool d)) eqn:Hf; zbool; simpl; [split; [done|lia]|].
    assert ((if total * QueueDepthPerSlot <? MinQueueDepth then MinQueueDepth
             else total * QueueDepthPerSlot) = Z.max MinQueueDepth (QueueDepthPerSlot * total)) as ->
      by (case_match; zbool; lia).
    assert ((if total <? 1 then 1 else total) = Z.max 1 total) as -> by (case_match; zbool; lia).
    destruct (_ <=? depth) eqn:Hd; zbool; simpl; [split; [lia|done]|].
    destruct (defaultWait c <? _) eqn:Hw; zbool; simpl; (split; [try done; lia|]); [done|].
    intros [_ [|]]; lia.
  - intros Hc Hf. unfold shouldRefuse, tryReserve, capacity. fold total.
    rewrite (proj2 (Z.ltb_ge (slots_free (pool d)) 0)) by done.
    rewrite (proj2 (Z.ltb_lt 0 (slots_free (pool d)))) by lia. split; [done|].
    rewrite (proj2 (Z.leb_gt (slots_free (pool d)) 0)) by lia.
    rewrite (proj2 (Z.eqb_neq c ClassStream)) by done.
    by rewrite (proj2 (Z.leb_le (slots_free (pool d)) (reservedForStream total))) by lia.
Qed.

(** Ten slots, two of them free: a thousandth batch caller still queues. *)
Lemma refusal_witness :
  let d := {| pool := [demo_worker "a" 10 8]; inFlight := ∅; waiting := {[ClassBatch := 1000]};
              serviceTime := initialServiceTime; free := false |} in
  (shouldRefuse d ClassBatch).1 = false ∧ tryReserve d ClassBatch 7 = (None, d).
Proof. intros d. apply (refusal d ClassBatch 7); [done|by vm_compute]. Defined.
