(* ===== verification/ReserveEnd.v ===== *)
(** * Every reservation comes to an end

    One caller of [Reserve] ([dispatch/queue.go]), whatever the other callers,
    the workers and the clock do to the dispatcher between its steps: how many
    steps it takes at most, and that it is never stuck. *)

From stdpp Require Import base gmap strings pretty numbers list.
From S2P Require Import Prelude GoString Pool Dispatch.

(** What [Reserve] starts as. *)
Definition arrival (cl : Class_) (now : Z) : caller :=
  {| c_class := cl; c_deadline := now + defaultWait cl; c_checked := None; c_pc := AtStart |}.

(** The caller was woken by a freed slot. *)
Definition signalled (c : caller) (w : wake) : bool :=
  match c_pc c, w with AtWait _, WakeSignal => true | _, _ => false end.

(** [own_run t c n s t' c']: from time [t] the caller takes [n] steps of its own,
    [s] of them on a signal, and is [c'] at [t']. Before each step the clock may
    have moved on and the dispatcher may be in any state. *)
Inductive own_run : Z → caller → nat → nat → Z → caller → Prop :=
| own_nil t t' c : t ≤ t' → own_run t c 0 0 t' c
| own_step t t1 d w c d' c1 n s t' c' :
    t ≤ t1 → reserve_step d t1 w c = Some (d', c1) → own_run t1 c1 n s t' c' →
    own_run t c (S n) ((if signalled c w then 1 else 0) + s) t' c'.

Lemma own_step_unsignalled t t1 d w c d' c1 n s t' c' :
  t ≤ t1 → reserve_step d t1 w c = Some (d', c1) → signalled c w = false → own_run t1 c1 n s t' c' →
  own_run t c (S n) s t' c'.
Proof.
  intros Ht Hs Hw Hrun. pose proof (own_step t t1 d w c d' c1 n s t' c' Ht Hs Hrun) as H. by rewrite Hw in H.
Qed.

(** Waits of at most [recheckInterval] that fit before the deadline. *)
Definition waits_in (x : Z) : Z := (Z.max 0 x + recheckInterval - 1) `div` recheckInterval.

(** Steps left, when no signal comes. *)
Definition steps_left (t : Z) (c : caller) : Z :=
  let k := waits_in (c_deadline c - t) in
  match c_pc c with
  | AtStart => 7 + 4 * k | AtEnter => 6 + 4 * k | AtCheck _ => 5 + 4 * k | AtTry _ => 4 + 4 * k
  | AtRemaining => 3 + 4 * k | AtWait u => 6 + 4 * waits_in (c_deadline c - u)
  | AtOverload => 2 | AtReturn _ => 1 | Returned _ | Released => 0
  end.

(** A wait ends soon, and by the deadline. *)
Definition wait_ok (t : Z) (c : caller) : Prop :=
  match c_pc c with AtWait u => u ≤ t + recheckInterval ∧ u ≤ c_deadline c | _ => True end.

Lemma recheck_value : recheckInterval = 50000000.
Proof. done. Qed.

Lemma waits_in_mono x y : x ≤ y → waits_in x ≤ waits_in y.
Proof. unfold waits_in. rewrite recheck_value. intros. dlia. Qed.

Lemma waits_in_nonneg x : 0 ≤ waits_in x.
Proof. unfold waits_in. rewrite recheck_value. dlia. Qed.

Lemma waits_in_step x : 0 < x → waits_in (x - Z.min recheckInterval x) = waits_in x - 1.
Proof. unfold waits_in. rewrite recheck_value. intros. dlia. Qed.

Lemma waits_in_interval x y : x ≤ y + recheckInterval → waits_in x ≤ waits_in y + 1.
Proof. unfold waits_in. rewrite recheck_value. intros. dlia. Qed.

Lemma steps_left_time t t' c : t ≤ t' → steps_left t' c ≤ steps_left t c.
Proof.
  intros Ht. unfold steps_left. pose proof (waits_in_mono (c_deadline c - t') (c_deadline c - t) ltac:(lia)).
  destruct (c_pc c); lia.
Qed.

(** The wait [AtRemaining] computes. *)
Lemma remaining_wait d t : 0 < time_sub d t →
  (if recheckInterval <? time_sub d t then recheckInterval else time_sub d t) = Z.min recheckInterval (d - t) ∧ 0 < d - t.
Proof.
  unfold time_sub, MinInt64, MaxInt64. rewrite recheck_value. intros H.
  destruct (Z.ltb_spec 50000000 (Z.max (-9223372036854775808) (Z.min 9223372036854775807 (d - t)))); lia.
Qed.

(** A step costs one, or is paid for by a signal. *)
Lemma own_step_cost d t w c d' c1 :
  wait_ok t c → reserve_step d t w c = Some (d', c1) →
  c_deadline c1 = c_deadline c ∧ wait_ok t c1 ∧
  1 + steps_left t c1 ≤ steps_left t c + 4 * (if signalled c w then 1 else 0).
Proof.
  intros Hw. unfold reserve_step, steps_left, signalled. destruct c as [cl dl ck p].
  cbn -[shouldRefuse tryReserve overload enter leave waits_in time_sub] in Hw |- *.
  pose proof (waits_in_nonneg (dl - t)) as Hk. destruct p;
    cbn -[shouldRefuse tryReserve overload enter leave waits_in time_sub] in Hw |- *.
  - destruct (shouldRefuse d cl).1; intros Heq; simplify_eq/=; (split_and!; [done|exact I|lia]).
  - intros Heq; simplify_eq/=. split_and!; [done|exact I|lia].
  - destruct (negb _ && _); intros Heq; simplify_eq/=; (split_and!; [done|exact I|lia]).
  - destruct (tryReserve d cl t) as [[r|] d1]; intros Heq; simplify_eq/=; (split_and!; [done|exact I|lia]).
  - destruct (Z.leb_spec (time_sub dl t) 0) as [|Hrem]; intros Heq; simplify_eq/=; [split_and!; [done|exact I|lia]|].
    destruct (remaining_wait dl t Hrem) as [-> Hpos]. split_and!; [done|unfold wait_ok; cbn; lia|].
    replace (dl - (t + Z.min recheckInterval (dl - t))) with (dl - t - Z.min recheckInterval (dl - t)) by lia.
    rewrite waits_in_step by done. lia.
  - destruct Hw as [Hw1 Hw2]. pose proof (waits_in_nonneg (dl - until)). destruct w.
    + intros Heq; simplify_eq/=. split_and!; [done|exact I|lia].
    + destruct (Z.leb_spec until t) as [Hu|]; [|done]. intros Heq; simplify_eq/=. split_and!; [done|exact I|].
      pose proof (waits_in_mono (dl - t) (dl - until) ltac:(lia)). lia.
    + destruct (free d); [|done]. intros Heq; simplify_eq/=. split_and!; [done|exact I|].
      pose proof (waits_in_interval (dl - t) (dl - until) ltac:(lia)). lia.
  - intros Heq; simplify_eq/=. split_and!; [done|exact I|lia].
  - intros Heq; simplify_eq/=. split_and!; [done|exact I|lia].
  - done.
  - done.
Qed.

Lemma wait_ok_time t t' c : t ≤ t' → wait_ok t c → wait_ok t' c.
Proof. unfold wait_ok. destruct (c_pc c); lia. Qed.

Lemma own_run_cost t c n s t' c' :
  own_run t c n s t' c' → wait_ok t c →
  c_deadline c' = c_deadline c ∧ wait_ok t' c' ∧
  Z.of_nat n + steps_left t' c' ≤ steps_left t c + 4 * Z.of_nat s.
Proof.
  induction 1 as [t t' c Ht|t t1 d w c d' c1 n s t' c' Ht Hstep _ IH]; intros Hw.
  { split_and!; [done|by eapply wait_ok_time|]. pose proof (steps_left_time t t' c Ht). lia. }
  destruct (own_step_cost _ _ _ _ _ _ (wait_ok_time _ _ _ Ht Hw) Hstep) as (Hd & Hw1 & Hc).
  destruct (IH Hw1) as (Hd' & Hw' & Hc'). split_and!; [congruence|done|].
  pose proof (steps_left_time t t1 c Ht). destruct (signalled c w); lia.
Qed.

Lemma steps_left_nonneg t c : 0 ≤ steps_left t c.
Proof.
  unfold steps_left. pose proof (waits_in_nonneg (c_deadline c - t)).
  destruct (c_pc c); try lia. pose proof (waits_in_nonneg (c_deadline c - until)). lia.
Qed.

(** Only a wait can keep a caller from moving. *)
Lemma never_stuck d t c :
  wait_ok t c → c_deadline c ≤ t →
  (∃ r, c_pc c = Returned r) ∨ c_pc c = Released ∨ ∃ w d' c', reserve_step d t w c = Some (d', c').
Proof.
  intros Hw Ht. unfold reserve_step. unfold wait_ok in Hw. destruct (c_pc c) as [| |b|k| |u| |r|r|] eqn:Hpc; eauto.
  all: right; right; exists WakeTimer; repeat case_match; eauto.
  zbool. lia.
Qed.

(** ** Properties *)

(** C9. [Reserve] always returns. Whatever the other callers, the releases, the
    health probes and the clock do between its steps, a call of a class takes at
    most seven steps and four more for each 50 ms re-check that fits in the class
    budget and for each time it is woken by a freed slot; and it is never stuck:
    until it has returned, at its deadline at the latest, it can take a step. *)
Theorem reserve_terminates cl t0 n s t c :
  own_run t0 (arrival cl t0) n s t c →
  Z.of_nat n ≤ 7 + 4 * waits_in (defaultWait cl) + 4 * Z.of_nat s ∧
  ((∃ r, c_pc c = Returned r) ∨ c_pc c = Released ∨
   ∀ d t', t ≤ t' → t0 + defaultWait cl ≤ t' → ∃ w d' c', reserve_step d t' w c = Some (d', c')).
Proof.
  intros Hrun. destruct (own_run_cost _ _ _ _ _ _ Hrun I) as (Hd & Hw & Hc). split.
  - pose proof (steps_left_nonneg t c). unfold steps_left at 2 in Hc. cbn in Hc.
    replace (t0 + defaultWait cl - t0) with (defaultWait cl) in Hc by lia. lia.
  - destruct (c_pc c) eqn:Hpc; eauto; right; right; intros d t' Ht Hdl;
      (destruct (never_stuck d t' c) as [[r1 Hr]|[Hr|Hstep]];
        [by apply (wait_ok_time t)|rewrite Hd; done|congruence|congruence|done]).
Qed.

(** A stream caller on a gateway without workers: five steps to its first wait. *)
Lemma reserve_terminates_witness :
  let d := NewDispatcher [] in
  ∃ c, own_run 0 (arrival ClassStream 0) 5 0 0 c ∧ c_pc c = AtWait recheckInterval ∧
    (∃ w d' c', reserve_step d StreamWait w c = Some (d', c')) ∧ 7 + 4 * waits_in (defaultWait ClassStream) = 167.
Proof.
  intros d.
  assert (∃ c, own_run 0 (arrival ClassStream 0) 5 0 0 c ∧ c_pc c = AtWait recheckInterval) as (c & Hrun & Hpc).
  { eexists. split.
    - do 5 (eapply (own_step_unsignalled _ 0 d WakeTimer); [lia|reflexivity|reflexivity|]). by apply own_nil.
    - reflexivity. }
  exists c. split_and!; [done|done| |reflexivity].
  destruct (reserve_terminates ClassStream 0 5 0 0 c Hrun) as [_ [[r Hr]|[Hr|Hstep]]]; [congruence|congruence|].
  by apply Hstep.
Defined.
