(* ===== verification/Jobs.v ===== *)
(** * Jobs: data, validation, the body fingerprint

    [internal/jobs/jobs.go]. SHA-256 is a parameter. *)

From stdpp Require Import base gmap strings pretty numbers list.
From Stdlib Require Import SpecFloat.
From S2P Require Import Prelude GoString Float Cache.

Definition MaxTextChars : Z := 100000.
Definition MaxMetadataKeys : Z := 10.
Definition OutputURLTTL : Z := 24 * Hour.
Definition maxIdempotencyLen : Z := 255.

Inductive Status : Type :=
| StatusQueued | StatusSegmenting | StatusSynthesizing | StatusMerging
| StatusCompleted | StatusFailed | StatusCancelled.

#[global] Instance Status_eq_dec : EqDecision Status.
Proof. solve_decision. Defined.

Definition Status_String (s : Status) : string :=
  match s with
  | StatusQueued => "queued" | StatusSegmenting => "segmenting"
  | StatusSynthesizing => "synthesizing" | StatusMerging => "merging"
  | StatusCompleted => "completed" | StatusFailed => "failed" | StatusCancelled => "cancelled"
  end.

Definition Terminal (s : Status) : bool :=
  bool_decide (s = StatusCompleted) || bool_decide (s = StatusFailed) || bool_decide (s = StatusCancelled).

(** A UUID is its text; a pointer that may be nil is an option. *)
Record Job : Type := {
  ID : string;
  TenantID : string;
  KeyID : string;
  IdempotencyKey : string;
  status : Status;
  VoiceID : string;
  Format : string;
  SampleRate : Z;
  Normalize : bool;
  params : Params;
  TotalChars : Z;
  SegmentsTotal : option Z;
  SegmentsDone : Z;
  OutputS3Key : string;
  DurationMS : option Z;
  WebhookURL : string;
  Metadata : gmap string string;
  Error : string;
  CreatedAt : Z;
  UpdatedAt : Z;
  CompletedAt : option Z;
}.

Inductive SegmentStatus : Type := SegmentPending | SegmentRunning | SegmentDone | SegmentFailed.

#[global] Instance SegmentStatus_eq_dec : EqDecision SegmentStatus.
Proof. solve_decision. Defined.

Record Segment : Type := {
  sg_JobID : string;
  sg_Seq : Z;
  sg_TextHash : string;
  sg_Chars : Z;
  sg_Status : SegmentStatus;
  sg_Attempts : Z;
  sg_S3Key : string;
  sg_LastError : string;
}.

Record Request : Type := {
  rq_TenantID : string;
  rq_KeyID : string;
  rq_IdempotencyKey : string;
  rq_Text : string;
  rq_VoiceID : string;
  rq_Format : string;
  rq_SampleRate : Z;
  rq_Normalize : bool;
  rq_Params : Params;
  rq_WebhookURL : string;
  rq_Metadata : gmap string string;
}.

(** [fmt]'s [%v] of the parameters. *)
Definition Params_v (p : Params) : string :=
  "{" +:+ Join [ FormatG (CFGScale p); FormatG (AudioTemperature p); Itoa (AudioTopK p);
                 FormatG (AudioTopP p); FormatG (AudioRepetitionPenalty p);
                 Itoa (EOAExtraFrames p); Itoa (Cache.SampleRate p) ] " " +:+ "}".

(** The bytes [BodyHash] digests. *)
Definition body_fields (r : Request) : string :=
  rq_VoiceID r +:+ "|" +:+ rq_Format r +:+ "|" +:+ Itoa (rq_SampleRate r) +:+ "|"
    +:+ FormatBool (rq_Normalize r) +:+ "|" +:+ Params_v (rq_Params r) +:+ "|"
    +:+ rq_WebhookURL r +:+ "|" +:+ CanonicalText (rq_Text r).

Definition BodyHash (sha256 : string → string) (r : Request) : string := sha256 (body_fields r).
Definition BodyFingerprint (sha256 : string → string) (r : Request) : string :=
  hex_of (BodyHash sha256 r).

(** [runeCount] of a text: its runes, saturating at the limit. *)
Definition runeCount (text : string) : Z :=
  if MaxTextChars <? rune_count text then MaxTextChars else rune_count text.

Lemma runeCount_range text : 0 ≤ runeCount text ≤ MaxTextChars.
Proof.
  pose proof (rune_count_bounds text). unfold runeCount.
  destruct (Z.ltb_spec MaxTextChars (rune_count text)); [by unfold MaxTextChars|lia].
Qed.

Definition Chars (r : Request) : Z := runeCount (rq_Text r).

Definition invalid {A} (reason : string) : res A := Err (sentinelf JobsErrInvalidRequest reason).

(** The defaults [Validate] writes into the request. *)
Definition fill_defaults (r : Request) : Request := {|
  rq_TenantID := rq_TenantID r; rq_KeyID := rq_KeyID r;
  rq_IdempotencyKey := rq_IdempotencyKey r; rq_Text := rq_Text r; rq_VoiceID := rq_VoiceID r;
  rq_Format := if String.eqb (rq_Format r) "" then "mp3" else rq_Format r;
  rq_SampleRate := if rq_SampleRate r =? 0 then 48000 else rq_SampleRate r;
  rq_Normalize := rq_Normalize r; rq_Params := rq_Params r;
  rq_WebhookURL := rq_WebhookURL r; rq_Metadata := rq_Metadata r;
|}.

Definition known_format (f : string) : bool :=
  String.eqb f "mp3" || String.eqb f "ogg_opus" || String.eqb f "wav".
Definition known_rate (n : Z) : bool :=
  (n =? 8000) || (n =? 16000) || (n =? 24000) || (n =? 48000).

(** [Validate]: the request with its defaults, or the first failing check. *)
Definition Validate (r : Request) (maxJobChars : Z) : res Request :=
  let len := rune_count (rq_Text r) in
  if len =? 0 then invalid "text must not be empty"
  else if MaxTextChars <? len then
    Err (sentinelf JobsErrTextTooLong
           ("text is " +:+ Itoa len +:+ " characters, the limit is " +:+ Itoa MaxTextChars))
  else if (0 <? maxJobChars) && (maxJobChars <? runeCount (rq_Text r)) then
    Err (sentinelf ErrPlanLimit
           (Itoa len +:+ " characters, this plan allows " +:+ Itoa maxJobChars))
  else if String.eqb (rq_IdempotencyKey r) "" then invalid "Idempotency-Key header is required"
  else if maxIdempotencyLen <? go_len (rq_IdempotencyKey r) then invalid "Idempotency-Key is too long"
  else if String.eqb (rq_VoiceID r) "" then invalid "voice is required"
  else
    let r := fill_defaults r in
    if negb (known_format (rq_Format r)) then
      invalid ("unknown format " +:+ quoted (rq_Format r))
    else if negb (known_rate (rq_SampleRate r)) then
      invalid ("unsupported sample_rate " +:+ Itoa (rq_SampleRate r))
    else if MaxMetadataKeys <? Z.of_nat (size (rq_Metadata r)) then
      invalid ("at most " +:+ Itoa MaxMetadataKeys +:+ " metadata keys")
    else Ok r.

(** [findSegment] of [orchestrator.go]. *)
Definition findSegment (segments : list Segment) (seq : Z) : option Segment :=
  List.find (λ s, sg_Seq s =? seq) segments.

(** The metadata keys the gateway keeps for itself. *)
Definition fingerprintKey : string := "_body_sha256".
Definition modelVersionKey : string := "_model_version".

(** The cache key of one segment; the engine derives the same one. *)
Definition segmentHash (sha256 : string → string) (job : Job) (text : string) : string :=
  Derive sha256 {| ModelVersion := default "" (Metadata job !! modelVersionKey);
                   Cache.VoiceID := VoiceID job; Cache.Normalize := Normalize job;
                   In_Params := params job; Text := text |}.

(** ** Properties *)

(** What the contract promises of an accepted request, stated from the contract:
    the text's length in characters, not bytes, against both limits, and every
    field within its allowed set with the defaults filled in. *)
Definition acceptable (maxJobChars : Z) (r : Request) : Prop :=
  0 < rune_count (rq_Text r) ≤ MaxTextChars ∧
  (0 < maxJobChars → rune_count (rq_Text r) ≤ maxJobChars) ∧
  rq_IdempotencyKey r ≠ "" ∧ go_len (rq_IdempotencyKey r) ≤ maxIdempotencyLen ∧
  rq_VoiceID r ≠ "" ∧
  rq_Format r ∈ [""; "mp3"; "ogg_opus"; "wav"] ∧
  rq_SampleRate r ∈ [0; 8000; 16000; 24000; 48000] ∧
  Z.of_nat (size (rq_Metadata r)) ≤ MaxMetadataKeys.

Lemma known_format_spec f : known_format f = true ↔ f ∈ ["mp3"; "ogg_opus"; "wav"].
Proof.
  unfold known_format. rewrite !orb_true_iff, !String.eqb_eq. set_solver.
Qed.

Lemma known_rate_spec n : known_rate n = true ↔ n ∈ [8000; 16000; 24000; 48000].
Proof. unfold known_rate. rewrite !orb_true_iff, !Z.eqb_eq. set_solver. Qed.

Lemma fill_defaults_idem r : fill_defaults (fill_defaults r) = fill_defaults r.
Proof.
  unfold fill_defaults. simpl.
  destruct (String.eqb (rq_Format r) "") eqn:Hf, (rq_SampleRate r =? 0) eqn:Hr; simpl; rewrite ?Hf, ?Hr; done.
Qed.

Lemma format_filled r : rq_Format r ∈ [""; "mp3"; "ogg_opus"; "wav"] ↔ known_format (rq_Format (fill_defaults r)) = true.
Proof.
  cbn. destruct (String.eqb_spec (rq_Format r) "") as [->|Hne]; [split; [done|set_solver]|].
  rewrite known_format_spec. set_solver.
Qed.

Lemma rate_filled r :
  rq_SampleRate r ∈ [0; 8000; 16000; 24000; 48000] ↔ known_rate (rq_SampleRate (fill_defaults r)) = true.
Proof.
  cbn. destruct (Z.eqb_spec (rq_SampleRate r) 0) as [->|Hne]; [split; [done|set_solver]|].
  rewrite known_rate_spec. set_solver.
Qed.

Lemma acceptable_filled m r : acceptable m r → acceptable m (fill_defaults r).
Proof. unfold acceptable. rewrite !format_filled, !rate_filled, fill_defaults_idem. done. Qed.

(** The two errors that tell the caller more than that the request is invalid. *)
Definition too_long (maxJobChars : Z) (r : Request) (e : gerr) : Prop :=
  errors_Is e JobsErrTextTooLong = bool_decide (MaxTextChars < rune_count (rq_Text r)) ∧
  errors_Is e ErrPlanLimit =
    bool_decide (rune_count (rq_Text r) ≤ MaxTextChars ∧ 0 < rune_count (rq_Text r) ∧
                 0 < maxJobChars < rune_count (rq_Text r)).

Lemma invalid_not_long m r reason :
  0 < rune_count (rq_Text r) ≤ MaxTextChars → (0 < m → rune_count (rq_Text r) ≤ m) →
  too_long m r (sentinelf JobsErrInvalidRequest reason).
Proof.
  intros Hn Hm. unfold too_long. rewrite !errors_Is_sentinelf. rewrite !(bool_decide_eq_false_2 (_ = _)) by done.
  rewrite !bool_decide_eq_false_2; try done; lia.
Qed.

Lemma Validate_verdict m r :
  match Validate r m with
  | Ok r' => acceptable m r ∧ r' = fill_defaults r
  | Err e => ¬ acceptable m r ∧ too_long m r e
  end.
Proof.
  pose proof (rune_count_bounds (rq_Text r)) as Hrc.
  assert (acceptable m r ↔ _) as Hacc by (unfold acceptable; rewrite format_filled, rate_filled; reflexivity).
  generalize dependent (acceptable m r). intros A Hacc. unfold Validate, runeCount, invalid. set (n := rune_count (rq_Text r)) in *.
  destruct (n =? 0) eqn:H1; zbool.
  { split; [rewrite Hacc; lia|]. unfold too_long. rewrite !errors_Is_sentinelf. fold n.
    split; symmetry; rewrite bool_decide_eq_false_2; try done; unfold MaxTextChars in *; lia. }
  destruct (MaxTextChars <? n) eqn:H2; zbool.
  { split; [rewrite Hacc; lia|]. unfold too_long. rewrite !errors_Is_sentinelf. fold n.
    split; symmetry; [by rewrite bool_decide_eq_true_2|rewrite bool_decide_eq_false_2; [done|lia]]. }
  destruct ((0 <? m) && (m <? n)) eqn:H3.
  { zbool. split; [rewrite Hacc; lia|]. unfold too_long. rewrite !errors_Is_sentinelf. fold n.
    split; symmetry; [rewrite bool_decide_eq_false_2; [done|lia]|rewrite bool_decide_eq_true_2; [done|lia]]. }
  assert (0 < m → n ≤ m) as Hplan by (intros Hp; apply andb_false_iff in H3 as [H|H]; zbool; lia).
  assert (∀ reason, too_long m r (sentinelf JobsErrInvalidRequest reason)) as Herr
    by (intros; apply invalid_not_long; fold n; [lia|done]).
  destruct (String.eqb_spec (rq_IdempotencyKey r) "") as [H4|H4]; [split; [rewrite Hacc; tauto|apply Herr]|].
  destruct (maxIdempotencyLen <? go_len (rq_IdempotencyKey r)) eqn:H5; zbool; [split; [rewrite Hacc; lia|apply Herr]|].
  destruct (String.eqb_spec (rq_VoiceID r) "") as [H6|H6]; [split; [rewrite Hacc; tauto|apply Herr]|]. cbv zeta.
  destruct (known_format _) eqn:H7; cbn [negb]; [|split; [rewrite Hacc; by intros (?&?&?&?&?&?&?)|apply Herr]].
  destruct (known_rate _) eqn:H8; cbn [negb]; [|split; [rewrite Hacc; by intros (?&?&?&?&?&?&?&?)|apply Herr]].
  cbn [rq_Metadata fill_defaults].
  destruct (MaxMetadataKeys <? _) eqn:H9; zbool; [split; [rewrite Hacc; lia|apply Herr]|]. rewrite Hacc. split_and!; auto; lia.
Qed.

(** Job validation is exact. A request is accepted if and only if it is
    acceptable by the contract, and what is accepted is the request with the
    default format and rate filled in, which validates to itself; a text over a
    limit is refused with the sentinel of that limit. *)
Theorem Validate_exact r maxJobChars :
  (acceptable maxJobChars r ↔ is_Ok (Validate r maxJobChars) = true) ∧
  (∀ r', Validate r maxJobChars = Ok r' →
     r' = fill_defaults r ∧ known_format (rq_Format r') = true ∧
     known_rate (rq_SampleRate r') = true ∧ Validate r' maxJobChars = Ok r') ∧
  (∀ e, Validate r maxJobChars = Err e →
     errors_Is e JobsErrTextTooLong = bool_decide (MaxTextChars < rune_count (rq_Text r)) ∧
     errors_Is e ErrPlanLimit =
       bool_decide (rune_count (rq_Text r) ≤ MaxTextChars ∧ 0 < rune_count (rq_Text r) ∧
                    0 < maxJobChars < rune_count (rq_Text r))).
Proof.
  pose proof (Validate_verdict maxJobChars r) as Hv. destruct (Validate r maxJobChars) as [r'|e]; destruct Hv as [Ha Hr].
  - subst r'. split_and!; [done| |done]. intros r' [= <-].
    pose proof (Validate_verdict maxJobChars (fill_defaults r)) as Hv.
    split_and!; [done|by apply format_filled, Ha|by apply rate_filled, Ha|].
    destruct (Validate (fill_defaults r) maxJobChars) as [r2|e]; destruct Hv as [Ha2 Hr2].
    + by rewrite Hr2, fill_defaults_idem.
    + by destruct Ha2; apply acceptable_filled.
  - split_and!; [done|done|]. by intros e' [= <-].
Qed.

Definition demo_request (text : string) : Request := {|
  rq_TenantID := "t"; rq_KeyID := "k"; rq_IdempotencyKey := "once"; rq_Text := text;
  rq_VoiceID := "vi-1"; rq_Format := ""; rq_SampleRate := 0; rq_Normalize := true;
  rq_Params := {| CFGScale := f64_of_Z 2; AudioTemperature := f64_of_Z 1; AudioTopK := 50;
                  AudioTopP := f64_of_Z 1; AudioRepetitionPenalty := f64_of_Z 1;
                  EOAExtraFrames := 0; Cache.SampleRate := 24000 |};
  rq_WebhookURL := ""; rq_Metadata := ∅ |}.

(** The fingerprint says what the contract calls the same job, up to its
    separator. Submissions with equal fields, and texts equal up to white space,
    have equal fingerprints whatever their metadata, tenant, key or idempotency
    key; a digest that does not collide tells two requests apart unless their
    rendered fields coincide; and the unescaped separator makes two different
    requests coincide. *)
Theorem BodyHash_fields sha256 r r' :
  (sha256 (body_fields r) = sha256 (body_fields r') → body_fields r = body_fields r') →
  (BodyFingerprint sha256 r = BodyFingerprint sha256 r' ↔ body_fields r = body_fields r') ∧
  (rq_VoiceID r = rq_VoiceID r' → rq_Format r = rq_Format r' →
   rq_SampleRate r = rq_SampleRate r' → rq_Normalize r = rq_Normalize r' →
   rq_Params r = rq_Params r' → rq_WebhookURL r = rq_WebhookURL r' →
   Fields (rq_Text r) = Fields (rq_Text r') →
   BodyFingerprint sha256 r = BodyFingerprint sha256 r') ∧
  ∃ a b, rq_Text a ≠ rq_Text b ∧ rq_WebhookURL a ≠ rq_WebhookURL b ∧
         BodyFingerprint sha256 a = BodyFingerprint sha256 b.
Proof.
  intros Hsha. unfold BodyFingerprint, BodyHash. split_and!.
  - split; [|congruence]. intros Heq. by apply Hsha, hex_of_inj.
  - intros Hv Hf Hr Hn Hp Hw Ht. unfold body_fields, CanonicalText.
    by rewrite Hv, Hf, Hr, Hn, Hp, Hw, Ht.
  - pose (with_url r url := {|
      rq_TenantID := rq_TenantID r; rq_KeyID := rq_KeyID r;
      rq_IdempotencyKey := rq_IdempotencyKey r; rq_Text := rq_Text r; rq_VoiceID := rq_VoiceID r;
      rq_Format := rq_Format r; rq_SampleRate := rq_SampleRate r; rq_Normalize := rq_Normalize r;
      rq_Params := rq_Params r; rq_WebhookURL := url; rq_Metadata := rq_Metadata r |}).
    exists (with_url (demo_request "b|c") "https://h/"), (with_url (demo_request "c") "https://h/|b").
    split_and!; [done..|]. do 2 f_equal.
Qed.

Lemma BodyHash_fields_witness :
  BodyFingerprint (λ s, s) (demo_request " xin   chao") =
  BodyFingerprint (λ s, s) (demo_request "xin chao ").
Proof.
  refine (proj1 (proj2 (BodyHash_fields (λ s, s) (demo_request " xin   chao")
            (demo_request "xin chao ") (λ H, H))) _ _ _ _ _ _ _); reflexivity.
Defined.
