(* ===== verification/JobStore.v ===== *)
(** * The job aggregate's store

    The world the job service and the orchestrator act on: the two tables
    ([migrations/00002_jobs_and_usage.sql]) behind
    [storage/postgres/jobrepo.go], whose statements are [queries/jobs.sql]; the
    bucket's objects ([storage/s3/jobtexts.go]); and the two Redis streams
    ([storage/redis/jobqueue.go]). Each statement is one atomic step; each call
    goes through [port]. Rows, not rendered SQL, are stored: the JSON columns
    hold the Go values themselves, and the foreign key to [tenants] is not
    checked. *)

From stdpp Require Import base gmap strings pretty numbers list.
From Stdlib Require Import SpecFloat.
From S2P Require Import Prelude GoString Float Cache Jobs.

(** ** The world *)

(** A Redis stream with its one consumer group: the entries in order of their
    ids, the last id delivered, and the delivered entries not yet acknowledged
    with the time of their last delivery. Trimming is not modelled. *)
Record stream : Type := {
  st_entries : list (Z * (string * Z));
  st_next : Z;
  st_last : Z;
  st_pending : gmap Z Z;
}.

Definition empty_stream : stream :=
  {| st_entries := []; st_next := 1; st_last := 0; st_pending := ∅ |}.

Inductive StreamName : Type := StreamJobs | StreamSegments.

Record QueueEntry : Type := { qe_ID : Z; qe_JobID : string; qe_Seq : Z; qe_Stream : StreamName }.

Record JobWorld : Type := {
  jw_jobs : gmap string Job;
  jw_segs : gmap (string * Z) Segment;
  jw_objects : gmap string string;
  jw_streams : StreamName → stream;
  jw_now : Z;
  jw_faults : list fault;
}.

#[export] Instance JobWorld_faults : HasFaults JobWorld := {|
  faults := jw_faults;
  set_faults fs w :=
    {| jw_jobs := jw_jobs w; jw_segs := jw_segs w; jw_objects := jw_objects w;
       jw_streams := jw_streams w;
       jw_now := jw_now w; jw_faults := fs |};
|}.

Definition set_jobs (m : gmap string Job) (w : JobWorld) : JobWorld :=
  {| jw_jobs := m; jw_segs := jw_segs w; jw_objects := jw_objects w;
     jw_streams := jw_streams w;
     jw_now := jw_now w; jw_faults := jw_faults w |}.
Definition set_segs (m : gmap (string * Z) Segment) (w : JobWorld) : JobWorld :=
  {| jw_jobs := jw_jobs w; jw_segs := m; jw_objects := jw_objects w;
     jw_streams := jw_streams w;
     jw_now := jw_now w; jw_faults := jw_faults w |}.
Definition set_objs (m : gmap string string) (w : JobWorld) : JobWorld :=
  {| jw_jobs := jw_jobs w; jw_segs := jw_segs w; jw_objects := m;
     jw_streams := jw_streams w;
     jw_now := jw_now w; jw_faults := jw_faults w |}.
Definition set_stream (n : StreamName) (st : stream) (w : JobWorld) : JobWorld :=
  {| jw_jobs := jw_jobs w; jw_segs := jw_segs w; jw_objects := jw_objects w;
     jw_streams := λ n', match n, n' with
                         | StreamJobs, StreamJobs | StreamSegments, StreamSegments => st
                         | _, _ => jw_streams w n'
                         end;
     jw_now := jw_now w; jw_faults := jw_faults w |}.
Definition pass_time (dt : Z) (w : JobWorld) : JobWorld :=
  {| jw_jobs := jw_jobs w; jw_segs := jw_segs w; jw_objects := jw_objects w;
     jw_streams := jw_streams w; jw_now := jw_now w + dt; jw_faults := jw_faults w |}.

Definition JM (A : Type) : Type := ST JobWorld A.

(** ** [jobs.sql]: updates of one job row *)

(** [update jobs set ...]: the trigger stamps [updated_at]. *)
Definition update_job (now : Z) (st : Status) (total : option Z) (done : Z) (out : string)
    (dur : option Z) (err : string) (completed : option Z) (j : Job) : Job :=
  {| ID := ID j; TenantID := TenantID j; KeyID := KeyID j; IdempotencyKey := IdempotencyKey j;
     status := st; VoiceID := VoiceID j; Format := Format j; SampleRate := SampleRate j;
     Normalize := Normalize j; params := params j; TotalChars := TotalChars j;
     SegmentsTotal := total; SegmentsDone := done; OutputS3Key := out; DurationMS := dur;
     WebhookURL := WebhookURL j; Metadata := Metadata j; Error := err; CreatedAt := CreatedAt j;
     UpdatedAt := now; CompletedAt := completed |}.

Definition with_status (now : Z) (st : Status) (j : Job) : Job :=
  update_job now st (SegmentsTotal j) (SegmentsDone j) (OutputS3Key j) (DurationMS j) (Error j)
    (CompletedAt j) j.
Definition cancelled (now : Z) (j : Job) : Job :=
  update_job now StatusCancelled (SegmentsTotal j) (SegmentsDone j) (OutputS3Key j) (DurationMS j)
    (Error j) (Some now) j.
Definition segmented (now total : Z) (j : Job) : Job :=
  update_job now StatusSynthesizing (Some total) (SegmentsDone j) (OutputS3Key j) (DurationMS j)
    (Error j) (CompletedAt j) j.
Definition one_more_done (now : Z) (j : Job) : Job :=
  update_job now (status j) (SegmentsTotal j) (SegmentsDone j + 1) (OutputS3Key j) (DurationMS j)
    (Error j) (CompletedAt j) j.
Definition failed (now : Z) (reason : string) (j : Job) : Job :=
  update_job now StatusFailed (SegmentsTotal j) (SegmentsDone j) (OutputS3Key j) (DurationMS j)
    reason (Some now) j.
Definition completed (now : Z) (out : string) (dur : Z) (j : Job) : Job :=
  update_job now StatusCompleted (SegmentsTotal j) (SegmentsDone j) out (Some dur) (Error j)
    (Some now) j.

(** [update jobs set ... where id = $1 and <cond>], answering the rows affected. *)
Definition update_where (jobID : string) (cond : Job → bool) (f : Z → Job → Job) : JM Z :=
  port (λ w,
    match jw_jobs w !! jobID with
    | Some j => if cond j then (Ok 1, set_jobs (<[jobID := f (jw_now w) j]> (jw_jobs w)) w)
                else (Ok 0, w)
    | None => (Ok 0, w)
    end).

Definition live (s : Status) : bool := negb (Terminal s).

Definition affected (pre : string) (m : JM Z) : JM bool :=
  let* n := swrap pre m in sret (0 <? n).

(** ** [jobrepo.go]: the tenant's half *)

(** The check constraints on [jobs] a [Job] value can break. *)
Definition job_row_ok (j : Job) : bool :=
  known_format (Format j) && known_rate (SampleRate j) && (0 <=? TotalChars j).

(** [json.Marshal] refuses a float that is not a number. *)
Definition json_float (v : spec_float) : bool :=
  match v with S754_infinity _ | S754_nan => false | _ => true end.
Definition json_params (p : Params) : bool :=
  json_float (CFGScale p) && json_float (AudioTemperature p) && json_float (AudioTopP p)
    && json_float (AudioRepetitionPenalty p).

Definition same_submission (tenantID key : string) (j : Job) : bool :=
  String.eqb (TenantID j) tenantID && String.eqb (IdempotencyKey j) key.

(** The row [insert into jobs ... returning *] makes of a job. *)
Definition inserted (now : Z) (j : Job) : Job :=
  {| ID := ID j; TenantID := TenantID j; KeyID := KeyID j; IdempotencyKey := IdempotencyKey j;
     status := StatusQueued; VoiceID := VoiceID j; Format := Format j;
     SampleRate := SampleRate j; Normalize := Normalize j; params := params j;
     TotalChars := TotalChars j; SegmentsTotal := None; SegmentsDone := 0; OutputS3Key := "";
     DurationMS := None; WebhookURL := WebhookURL j; Metadata := Metadata j; Error := "";
     CreatedAt := now; UpdatedAt := now; CompletedAt := None |}.

Definition Create (job : Job) : JM Job :=
  if negb (json_params (params job)) then
    sfail (wrapf "encode params: " (ENew "json: unsupported value"))
  else
    swrap "insert job: " (port (λ w,
      if negb (job_row_ok job) then (Err (ENew "new row violates check constraint"), w)
      else match jw_jobs w !! ID job with
      | Some _ => (Err (ENew "duplicate key value violates unique constraint"), w)
      | None =>
          match find_row (same_submission (TenantID job) (IdempotencyKey job)) (jw_jobs w) with
          | Some _ => (Err (ENew "duplicate key value violates unique constraint"), w)
          | None =>
              let row := inserted (jw_now w) job in
              (Ok row, set_jobs (<[ID job := row]> (jw_jobs w)) w)
          end
      end)).

(** [:one] queries: no row is [ErrNotFound], any other error is wrapped. *)
Definition one_row (pre : string) (q : JobWorld → option Job) : JM Job := λ w,
  match port (λ w, (Ok (q w), w)) w with
  | (Ok (Some j), w') => (Ok j, w')
  | (Ok None, w') => (Err (ESentinel ErrNotFound), w')
  | (Err e, w') => (Err (wrapf pre e), w')
  end.

Definition ByIdempotencyKey (tenantID key : string) : JM Job :=
  one_row "get job by idempotency key: " (λ w, find_row (same_submission tenantID key) (jw_jobs w)).

Definition Get (tenantID jobID : string) : JM Job :=
  one_row "get job: " (λ w,
    match jw_jobs w !! jobID with
    | Some j => if String.eqb (TenantID j) tenantID then Some j else None
    | None => None
    end).

Definition ByID (jobID : string) : JM Job := one_row "get job by id: " (λ w, jw_jobs w !! jobID).

Definition List_ (tenantID : string) (before : option Z) (limit : Z) : JM (list Job) :=
  swrap "list jobs: " (port (λ w,
    (Ok (take (Z.to_nat limit)
           (order_by (λ a b, CreatedAt b <? CreatedAt a)
              (List.filter (λ j, String.eqb (TenantID j) tenantID &&
                                 match before with Some b => CreatedAt j <? b | None => true end)
                 (snd <$> map_to_list (jw_jobs w))))), w))).

Definition Cancel (tenantID jobID : string) : JM bool :=
  affected "cancel job: "
    (update_where jobID (λ j, String.eqb (TenantID j) tenantID && live (status j)) cancelled).

(** ** [jobrepo.go]: the orchestrator's half *)

Definition Transition (jobID : string) (from to : Status) : JM bool :=
  affected "transition job: "
    (update_where jobID (λ j, bool_decide (status j = from)) (λ now, with_status now to)).

Definition SetSegmentsTotal (jobID : string) (total : Z) : JM bool :=
  affected "set segments total: "
    (update_where jobID (λ j, bool_decide (status j = StatusSegmenting)) (λ now, segmented now total)).

(** The foreign key and check constraints of [job_segments]. *)
Definition CreateSegment (jobID : string) (seq : Z) (textHash : string) (chars : Z) : JM () :=
  swrap "create segment: " (port (λ w,
    if negb ((0 <=? seq) && (go_len textHash =? 32) && (0 <=? chars)) then
      (Err (ENew "new row violates check constraint"), w)
    else match jw_jobs w !! jobID with
    | None => (Err (ENew "insert violates foreign key constraint"), w)
    | Some _ =>
        match jw_segs w !! (jobID, seq) with
        | Some _ => (Ok (), w)
        | None =>
            (Ok (), set_segs (<[(jobID, seq) :=
               {| sg_JobID := jobID; sg_Seq := seq; sg_TextHash := textHash; sg_Chars := chars;
                  sg_Status := SegmentPending; sg_Attempts := 0; sg_S3Key := "";
                  sg_LastError := "" |}]> (jw_segs w)) w)
        end
    end)).

(** A job's segment rows, [order by seq]. *)
Definition job_segments (m : gmap (string * Z) Segment) (jobID : string) : list Segment :=
  order_by (λ a b, sg_Seq a <? sg_Seq b)
    (List.filter (λ s, String.eqb (sg_JobID s) jobID) (snd <$> map_to_list m)).

Definition Segments (jobID : string) : JM (list Segment) :=
  swrap "list segments: " (port (λ w, (Ok (job_segments (jw_segs w) jobID), w))).

Definition with_seg (st : SegmentStatus) (attempts : Z) (s3Key lastError : string) (s : Segment)
    : Segment :=
  {| sg_JobID := sg_JobID s; sg_Seq := sg_Seq s; sg_TextHash := sg_TextHash s;
     sg_Chars := sg_Chars s; sg_Status := st; sg_Attempts := attempts; sg_S3Key := s3Key;
     sg_LastError := lastError |}.

Definition claimable (s : SegmentStatus) : bool :=
  bool_decide (s = SegmentPending) || bool_decide (s = SegmentFailed).

Definition ClaimSegment (jobID : string) (seq : Z) : JM bool :=
  affected "claim segment: " (port (λ w,
    match jw_segs w !! (jobID, seq) with
    | Some s =>
        if claimable (sg_Status s) then
          (Ok 1, set_segs (<[(jobID, seq) :=
             with_seg SegmentRunning (sg_Attempts s + 1) (sg_S3Key s) (sg_LastError s) s]>
             (jw_segs w)) w)
        else (Ok 0, w)
    | None => (Ok 0, w)
    end)).

(** One statement: the segment's update and the job's counter. *)
Definition CompleteSegment (jobID : string) (seq : Z) (s3Key : string) : JM () :=
  swrap "complete segment: " (port (λ w,
    match jw_segs w !! (jobID, seq) with
    | Some s =>
        if bool_decide (sg_Status s = SegmentRunning) then
          let w := set_segs (<[(jobID, seq) :=
                     with_seg SegmentDone (sg_Attempts s) s3Key (sg_LastError s) s]> (jw_segs w)) w in
          (Ok (), match jw_jobs w !! jobID with
                  | Some j => set_jobs (<[jobID := one_more_done (jw_now w) j]> (jw_jobs w)) w
                  | None => w
                  end)
        else (Ok (), w)
    | None => (Ok (), w)
    end)).

Definition FailSegment (jobID : string) (seq : Z) (reason : string) : JM () :=
  swrap "fail segment: " (port (λ w,
    match jw_segs w !! (jobID, seq) with
    | Some s => (Ok (), set_segs (<[(jobID, seq) :=
                  with_seg SegmentFailed (sg_Attempts s) (sg_S3Key s) reason s]> (jw_segs w)) w)
    | None => (Ok (), w)
    end)).

Definition not_done (s : Segment) : bool := negb (bool_decide (sg_Status s = SegmentDone)).

Definition UnfinishedSegments (jobID : string) : JM Z :=
  swrap "count unfinished segments: " (port (λ w,
    (Ok (countb not_done (job_segments (jw_segs w) jobID)), w))).

Definition Fail (jobID reason : string) : JM () :=
  swrap "fail job: "
    (update_where jobID (λ j, live (status j)) (λ now, failed now reason)) ;*
  sret ().

Definition Complete (jobID outputKey : string) (durationMS : Z) : JM bool :=
  affected "complete job: "
    (update_where jobID (λ j, bool_decide (status j = StatusMerging))
       (λ now, completed now outputKey durationMS)).

Definition Stuck (before limit : Z) : JM (list Job) :=
  swrap "list stuck jobs: " (port (λ w,
    (Ok (take (Z.to_nat limit)
           (order_by (λ a b, UpdatedAt a <? UpdatedAt b)
              (List.filter (λ j, live (status j) && (UpdatedAt j <? before))
                 (snd <$> map_to_list (jw_jobs w))))), w))).

(** ** [jobtexts.go] *)

Definition InputKey (tenantID jobID : string) : string :=
  "jobs/" +:+ tenantID +:+ "/" +:+ jobID +:+ "/input.txt".

Definition pad5 (n : Z) : string :=
  (if n <? 10 then "0000" else if n <? 100 then "000" else if n <? 1000 then "00"
   else if n <? 10000 then "0" else "") +:+ Itoa n.

Definition SegmentKey (tenantID jobID : string) (seq : Z) : string :=
  "jobs/" +:+ tenantID +:+ "/" +:+ jobID +:+ "/seg/" +:+ pad5 seq +:+ ".pcm".

Definition OutputKey (tenantID jobID format : string) : string :=
  let ext := if String.eqb format "mp3" then "mp3"
             else if String.eqb format "ogg_opus" then "ogg"
             else if String.eqb format "wav" then "wav" else "bin" in
  "jobs/" +:+ tenantID +:+ "/" +:+ jobID +:+ "/output." +:+ ext.

Definition object_put (key body : string) : JM () :=
  swrap ("put " +:+ key +:+ ": ") (port (λ w, (Ok (), set_objs (<[key := body]> (jw_objects w)) w))).

Definition object_get (key : string) : JM string := λ w,
  match port (λ w, (Ok (jw_objects w !! key), w)) w with
  | (Ok (Some body), w') => (Ok body, w')
  | (Ok None, w') => (Err (ESentinel ErrMiss), w')
  | (Err e, w') => (Err (wrapf ("get " +:+ key +:+ ": ") e), w')
  end.

Definition PutText (tenantID jobID text : string) : JM () :=
  swrap "put job text: " (object_put (InputKey tenantID jobID) text).
Definition GetText (tenantID jobID : string) : JM string :=
  swrap "get job text: " (object_get (InputKey tenantID jobID)).
Definition DeleteText (tenantID jobID : string) : JM () :=
  swrap "delete job text: "
    (swrap ("delete " +:+ InputKey tenantID jobID +:+ ": ")
       (port (λ w, (Ok (), set_objs (delete (InputKey tenantID jobID) (jw_objects w)) w)))).
Definition PutSegment (tenantID jobID : string) (seq : Z) (pcm : string) : JM string :=
  swrap "put segment: " (object_put (SegmentKey tenantID jobID seq) pcm) ;*
  sret (SegmentKey tenantID jobID seq).

(** ** [jobqueue.go] *)

Definition stream_key (n : StreamName) : string :=
  match n with StreamJobs => "jobs:pending" | StreamSegments => "jobs:segments" end.

(** [XADD]. *)
Definition stream_add (n : StreamName) (jobID : string) (seq : Z) : JM () :=
  swrap ("enqueue on " +:+ stream_key n +:+ ": ") (port (λ w,
    let st := jw_streams w n in
    (Ok (), set_stream n {| st_entries := st_entries st ++ [(st_next st, (jobID, seq))];
                            st_next := st_next st + 1; st_last := st_last st;
                            st_pending := st_pending st |} w))).

Definition Enqueue (jobID : string) : JM () := stream_add StreamJobs jobID 0.
Definition EnqueueSegment (jobID : string) (seq : Z) : JM () := stream_add StreamSegments jobID seq.

Definition to_entry (n : StreamName) (e : Z * (string * Z)) : QueueEntry :=
  {| qe_ID := e.1; qe_JobID := e.2.1; qe_Seq := e.2.2; qe_Stream := n |}.

(** [XREADGROUP ... >]: entries never delivered, now delivered. *)
Definition Claim (n : StreamName) (count : Z) : JM (list QueueEntry) :=
  swrap ("read group on " +:+ stream_key n +:+ ": ") (port (λ w,
    let st := jw_streams w n in
    let fresh := take (Z.to_nat count) (List.filter (λ e, st_last st <? e.1) (st_entries st)) in
    (Ok (to_entry n <$> fresh),
     set_stream n {| st_entries := st_entries st; st_next := st_next st;
                     st_last := foldl (λ m e, Z.max m e.1) (st_last st) fresh;
                     st_pending := foldl (λ m e, <[e.1 := jw_now w]> m) (st_pending st) fresh |} w))).

(** [XAUTOCLAIM]: pending entries idle for at least [idle], delivered again. *)
Definition ClaimStale (n : StreamName) (idle count : Z) : JM (list QueueEntry) :=
  swrap ("autoclaim on " +:+ stream_key n +:+ ": ") (port (λ w,
    let st := jw_streams w n in
    let stale := take (Z.to_nat count)
      (List.filter (λ e, match st_pending st !! e.1 with
                         | Some t => idle <=? jw_now w - t
                         | None => false
                         end) (st_entries st)) in
    (Ok (to_entry n <$> stale),
     set_stream n {| st_entries := st_entries st; st_next := st_next st; st_last := st_last st;
                     st_pending := foldl (λ m e, <[e.1 := jw_now w]> m) (st_pending st) stale |} w))).

(** [XACK]. *)
Definition Ack (n : StreamName) (id : Z) : JM () :=
  swrap ("ack " +:+ Itoa id +:+ " on " +:+ stream_key n +:+ ": ") (port (λ w,
    let st := jw_streams w n in
    (Ok (), set_stream n {| st_entries := st_entries st; st_next := st_next st;
                            st_last := st_last st; st_pending := delete id (st_pending st) |} w))).

(** ** Lemmas: how a job may evolve *)

(** The edges of FL-03. *)
Inductive edge : Status → Status → Prop :=
| edge_segment : edge StatusQueued StatusSegmenting
| edge_synthesize : edge StatusSegmenting StatusSynthesizing
| edge_merge : edge StatusSynthesizing StatusMerging
| edge_complete : edge StatusMerging StatusCompleted
| edge_fail s : live s = true → edge s StatusFailed
| edge_cancel s : live s = true → edge s StatusCancelled.

(** What a job's row may become: its status moves along FL-03, what the tenant
    submitted never changes, finished segments are never forgotten, and a
    terminal row's outcome is final. *)
Record job_evolves (j j' : Job) : Prop := {
  je_status : rtc edge (status j) (status j');
  je_submitted : ID j' = ID j ∧ TenantID j' = TenantID j ∧ KeyID j' = KeyID j ∧
    IdempotencyKey j' = IdempotencyKey j ∧ VoiceID j' = VoiceID j ∧ Format j' = Format j ∧
    SampleRate j' = SampleRate j ∧ Normalize j' = Normalize j ∧ params j' = params j ∧
    TotalChars j' = TotalChars j ∧ WebhookURL j' = WebhookURL j ∧ Metadata j' = Metadata j ∧
    CreatedAt j' = CreatedAt j;
  je_done : SegmentsDone j ≤ SegmentsDone j';
  je_final : Terminal (status j) = true →
    status j' = status j ∧ OutputS3Key j' = OutputS3Key j ∧ DurationMS j' = DurationMS j ∧
    Error j' = Error j ∧ CompletedAt j' = CompletedAt j;
}.

#[export] Instance job_evolves_preorder : PreOrder job_evolves.
Proof.
  split.
  - intros j. split; [apply rtc_refl|split_and!; done|lia|done].
  - intros j1 j2 j3 [H1 H2 H3 H4] [K1 K2 K3 K4]. split.
    + by etrans.
    + intuition congruence.
    + lia.
    + intros Ht. destruct (H4 Ht) as (E1 & E2 & E3 & E4 & E5). rewrite <-E1 in Ht.
      destruct (K4 Ht) as (F1 & F2 & F3 & F4 & F5). split_and!; congruence.
Qed.

(** One row per tenant and idempotency key, and every row under its id. *)
Definition unique_rows (m : gmap string Job) : Prop :=
  (∀ k j, m !! k = Some j → ID j = k) ∧
  (∀ k1 k2 j1 j2, m !! k1 = Some j1 → m !! k2 = Some j2 →
     TenantID j1 = TenantID j2 → IdempotencyKey j1 = IdempotencyKey j2 → k1 = k2).

(** The rows evolve, and new ones keep the table's keys unique. *)
Record evolves (w w' : JobWorld) : Prop := {
  ev_rows id j : jw_jobs w !! id = Some j → ∃ j', jw_jobs w' !! id = Some j' ∧ job_evolves j j';
  ev_unique : unique_rows (jw_jobs w) → unique_rows (jw_jobs w');
}.

#[export] Instance evolves_preorder : PreOrder evolves.
Proof.
  split.
  - intros w. split; [|done]. intros id j Hj. exists j. by split.
  - intros w1 w2 w3 [H12 U12] [H23 U23]. split; [|by auto]. intros id j Hj.
    destruct (H12 id j Hj) as (j2 & Hj2 & E12).
    destruct (H23 id j2 Hj2) as (j3 & Hj3 & E23). exists j3. split; [done|]. by etrans.
Qed.

Lemma evolves_same w w' : jw_jobs w' = jw_jobs w → evolves w w'.
Proof. intros Heq. split; [|by rewrite Heq]. intros id j Hj. exists j. rewrite Heq. by split. Qed.

Lemma evolves_faults fs w : evolves w (set_faults fs w).
Proof. by apply evolves_same. Qed.

Lemma evolves_port {A} (op : JM A) : moves evolves op → moves evolves (port op).
Proof. apply moves_port; [apply _|apply evolves_faults]. Qed.

(** A call that leaves the job rows alone. *)
Lemma evolves_port_same {A} (op : JM A) :
  (∀ w, jw_jobs (op w).2 = jw_jobs w) → moves evolves (port op).
Proof. intros H. apply evolves_port. intros w. by apply evolves_same. Qed.

Lemma unique_rows_update m id j j' :
  m !! id = Some j → job_evolves j j' → unique_rows m → unique_rows (<[id := j']> m).
Proof.
  intros Hj He [Hid Hu]. destruct (je_submitted _ _ He) as (E1 & E2 & _ & E3 & _). split.
  - intros k x [[<- <-]|[_ Hk]]%lookup_insert_Some; [|auto]. rewrite E1. auto.
  - intros k1 k2 x1 x2 [[<- <-]|[Hn1 H1]]%lookup_insert_Some [[<- <-]|[Hn2 H2]]%lookup_insert_Some;
      rewrite ?E2, ?E3; eauto.
Qed.

Lemma evolves_insert w id j j' :
  jw_jobs w !! id = Some j → job_evolves j j' → evolves w (set_jobs (<[id := j']> (jw_jobs w)) w).
Proof.
  intros Hj He. split; [|by apply (unique_rows_update _ _ j)]. intros id' j1 Hj1. simpl.
  destruct (decide (id' = id)) as [->|Hne].
  - exists j'. rewrite lookup_insert_eq. simplify_eq. done.
  - exists j1. by rewrite lookup_insert_ne.
Qed.

Lemma evolves_update id cond f :
  (∀ now j, cond j = true → job_evolves j (f now j)) → moves evolves (update_where id cond f).
Proof.
  intros Hf. apply evolves_port. intros w. destruct (jw_jobs w !! id) as [j|] eqn:Hj; [|done].
  destruct (cond j) eqn:Hc; [|done]. apply (evolves_insert w id j); [done|]. by apply Hf.
Qed.

Lemma evolves_affected pre m : moves evolves m → moves evolves (affected pre m).
Proof.
  intros Hm. apply moves_bind; [apply _|by apply moves_wrap|]. intros. by apply moves_ret, _.
Qed.

(** A live row may take one edge; counters and outcomes as they are. *)
Lemma job_evolves_edge now st total out dur err comp j :
  edge (status j) st → job_evolves j (update_job now st total (SegmentsDone j) out dur err comp j).
Proof.
  intros He. split; simpl; [by apply rtc_once|split_and!; done|lia|].
  intros Ht. exfalso. inversion He as [Hs|Hs|Hs|Hs|s Hl Hs|s Hl Hs]; subst;
    first [by rewrite <-Hs in Ht | unfold live in Hl; by rewrite Ht in Hl].
Qed.

Lemma unique_rows_insert m j :
  m !! ID j = None → find_row (same_submission (TenantID j) (IdempotencyKey j)) m = None →
  unique_rows m → unique_rows (<[ID j := j]> m).
Proof.
  intros Hnone Hfind [Hid Hu].
  assert (∀ k x, m !! k = Some x → TenantID x = TenantID j → IdempotencyKey x ≠ IdempotencyKey j) as Hf.
  { intros k x Hx Ht Hk. pose proof (find_row_None _ _ Hfind k x Hx) as H. unfold same_submission in H.
    by rewrite Ht, Hk, !String.eqb_refl in H. }
  split.
  - intros k x [[<- <-]|[_ Hk]]%lookup_insert_Some; auto.
  - intros k1 k2 x1 x2 [[<- <-]|[Hn1 H1]]%lookup_insert_Some [[<- <-]|[Hn2 H2]]%lookup_insert_Some Ht Hk;
      [done| | |by eauto]; exfalso; [eapply Hf; [exact H2|done..]|eapply Hf; [exact H1|done..]].
Qed.

Lemma Create_evolves job : moves evolves (Create job).
Proof.
  unfold Create. destruct (negb (json_params _)); [apply moves_fail, _|].
  apply moves_wrap, evolves_port. intros w.
  destruct (negb (job_row_ok job)); [done|]. destruct (jw_jobs w !! ID job) eqn:Hid; [done|].
  destruct (find_row _ _) eqn:Hfind; [done|]. split; simpl.
  - intros id j Hj. exists j. rewrite lookup_insert_ne by congruence. by split.
  - by apply (unique_rows_insert _ (inserted (jw_now w) job)).
Qed.

Lemma one_row_evolves pre q : moves evolves (one_row pre q).
Proof.
  intros w. unfold one_row.
  pose proof (evolves_port_same (λ w, (Ok (q w), w)) (λ w, eq_refl) w) as H.
  by destruct (port _ w) as [[[j|]|e] w'].
Qed.

Lemma object_get_evolves key : moves evolves (object_get key).
Proof.
  intros w. unfold object_get.
  pose proof (evolves_port_same (λ w, (Ok (jw_objects w !! key), w)) (λ w, eq_refl) w) as H.
  by destruct (port _ w) as [[[j|]|e] w'].
Qed.

Lemma Cancel_evolves tid id : moves evolves (Cancel tid id).
Proof.
  apply evolves_affected, evolves_update. intros now j [_ Hl]%andb_true_iff.
  by apply job_evolves_edge, edge_cancel.
Qed.

Lemma Transition_evolves id from to : edge from to → moves evolves (Transition id from to).
Proof.
  intros He. apply evolves_affected, evolves_update. intros now j Hs. zbool. subst from.
  by apply job_evolves_edge.
Qed.

Lemma SetSegmentsTotal_evolves id total : moves evolves (SetSegmentsTotal id total).
Proof.
  apply evolves_affected, evolves_update. intros now j Hs. zbool.
  apply job_evolves_edge. rewrite Hs. constructor.
Qed.

Lemma Fail_evolves id reason : moves evolves (Fail id reason).
Proof.
  apply moves_bind; [apply _| |intros; apply moves_ret, _]. apply moves_wrap, evolves_update.
  intros now j Hl. by apply job_evolves_edge, edge_fail.
Qed.

Lemma Complete_evolves id out dur : moves evolves (Complete id out dur).
Proof.
  apply evolves_affected, evolves_update. intros now j Hs. zbool.
  apply job_evolves_edge. rewrite Hs. constructor.
Qed.

Lemma CompleteSegment_evolves id seq key : moves evolves (CompleteSegment id seq key).
Proof.
  apply moves_wrap, evolves_port. intros w. destruct (jw_segs w !! _) as [s|]; [|done].
  case_bool_decide; [|done]. simpl.
  destruct (jw_jobs w !! id) as [j|] eqn:Hj; [|by apply evolves_same]. simpl.
  set (w' := set_segs _ w). etrans; [by apply (evolves_same w w')|].
  apply (evolves_insert w' id j); [done|].
  split; simpl; [apply rtc_refl|split_and!; done|lia|done].
Qed.

Lemma CreateSegment_evolves id seq h chars : moves evolves (CreateSegment id seq h chars).
Proof. apply moves_wrap, evolves_port_same. intros w. by cases. Qed.

Lemma Segments_evolves id : moves evolves (Segments id).
Proof. by apply moves_wrap, evolves_port_same. Qed.

Lemma ClaimSegment_evolves id seq : moves evolves (ClaimSegment id seq).
Proof. apply evolves_affected, evolves_port_same. intros w. by cases. Qed.

Lemma FailSegment_evolves id seq reason : moves evolves (FailSegment id seq reason).
Proof. apply moves_wrap, evolves_port_same. intros w. by cases. Qed.

Lemma UnfinishedSegments_evolves id : moves evolves (UnfinishedSegments id).
Proof. by apply moves_wrap, evolves_port_same. Qed.

Lemma Stuck_evolves before limit : moves evolves (Stuck before limit).
Proof. by apply moves_wrap, evolves_port_same. Qed.

Lemma List_evolves tid before limit : moves evolves (List_ tid before limit).
Proof. by apply moves_wrap, evolves_port_same. Qed.

Lemma GetText_evolves tid id : moves evolves (GetText tid id).
Proof. apply moves_wrap, object_get_evolves. Qed.

Lemma DeleteText_evolves tid id : moves evolves (DeleteText tid id).
Proof. by apply moves_wrap, moves_wrap, evolves_port_same. Qed.

Lemma object_put_evolves key body : moves evolves (object_put key body).
Proof. by apply moves_wrap, evolves_port_same. Qed.

Lemma PutText_evolves tid id text : moves evolves (PutText tid id text).
Proof. apply moves_wrap, object_put_evolves. Qed.

Lemma Claim_evolves n count : moves evolves (Claim n count).
Proof. by apply moves_wrap, evolves_port_same. Qed.

Lemma ClaimStale_evolves n idle count : moves evolves (ClaimStale n idle count).
Proof. by apply moves_wrap, evolves_port_same. Qed.

Lemma Ack_evolves n id : moves evolves (Ack n id).
Proof. by apply moves_wrap, evolves_port_same. Qed.

Lemma Enqueue_evolves id : moves evolves (Enqueue id).
Proof. by apply moves_wrap, evolves_port_same. Qed.

Lemma EnqueueSegment_evolves id seq : moves evolves (EnqueueSegment id seq).
Proof. by apply moves_wrap, evolves_port_same. Qed.

#[export] Hint Resolve Create_evolves one_row_evolves object_get_evolves Cancel_evolves
  Transition_evolves SetSegmentsTotal_evolves Fail_evolves Complete_evolves
  CompleteSegment_evolves CreateSegment_evolves Segments_evolves ClaimSegment_evolves
  FailSegment_evolves UnfinishedSegments_evolves Stuck_evolves List_evolves GetText_evolves
  DeleteText_evolves PutText_evolves Claim_evolves ClaimStale_evolves Ack_evolves Enqueue_evolves EnqueueSegment_evolves : gateway.
