(* ===== verification/JobRows.v ===== *)
(** * The job tables as Postgres holds them

    [storage/postgres/jobrepo.go] over the statements of [db/jobs.sql.go], on the
    rows themselves: statuses are texts, absent values are [NULL], parameters and
    metadata are JSON bytes that [toJob] reads back and may refuse. [JobStore]
    states what the repository promises on jobs and segments; the property says
    that each operation here does what the one of the same name does there.

    JSON and Postgres's [jsonb] are a parameter ([Encoding]); a [jsonb] column
    gives back other bytes than it was given. [gen_uuid] is [uuid.New], taken as
    new. *)

From stdpp Require Import base gmap strings pretty numbers list.
From Stdlib Require Import SpecFloat.
From S2P Require Import Prelude GoString Float Refine Cache Jobs JobStore.

(** [db.Job]. *)
Record JobRow : Type := {
  jr_ID : string;
  jr_TenantID : string;
  jr_ApiKeyID : string;
  jr_IdempotencyKey : string;
  jr_Status : string;
  jr_VoiceID : string;
  jr_Format : string;
  jr_SampleRate : Z;
  jr_Normalize : bool;
  jr_Params : string;
  jr_TotalChars : Z;
  jr_SegmentsTotal : option Z;
  jr_SegmentsDone : Z;
  jr_OutputS3Key : option string;
  jr_DurationMs : option Z;
  jr_WebhookUrl : option string;
  jr_WebhookAttempts : Z;
  jr_Metadata : string;
  jr_Error : option string;
  jr_CreatedAt : Z;
  jr_UpdatedAt : Z;
  jr_CompletedAt : option Z;
}.

(** [db.JobSegment]. *)
Record JobSegment : Type := {
  js_ID : string;
  js_JobID : string;
  js_Seq : Z;
  js_TextHash : string;
  js_Chars : Z;
  js_Status : string;
  js_Attempts : Z;
  js_S3Key : option string;
  js_LastError : option string;
}.

(** The database: the two tables (segments under their unique key) and [now()]. *)
Record Tables : Type := {
  t_jobs : gmap string JobRow;
  t_segs : gmap (string * Z) JobSegment;
  t_now : Z;
  t_faults : list fault;
}.

#[export] Instance Tables_faults : HasFaults Tables := {|
  faults := t_faults;
  set_faults fs t := {| t_jobs := t_jobs t; t_segs := t_segs t; t_now := t_now t; t_faults := fs |};
|}.

Definition put_jobs (m : gmap string JobRow) (t : Tables) : Tables :=
  {| t_jobs := m; t_segs := t_segs t; t_now := t_now t; t_faults := t_faults t |}.
Definition put_segs (m : gmap (string * Z) JobSegment) (t : Tables) : Tables :=
  {| t_jobs := t_jobs t; t_segs := m; t_now := t_now t; t_faults := t_faults t |}.

Definition TM (A : Type) : Type := ST Tables A.

(** [encoding/json] for the two documents, and what a [jsonb] column answers for
    what it is given ([None]: refused). *)
Class Encoding : Type := {
  marshal_params : Params → option string;
  unmarshal_params : string → res Params;
  marshal_metadata : gmap string string → string;
  unmarshal_metadata : string → res (gmap string string);
  jsonb : string → option string;
}.

(** ** The statements *)

(** [update jobs set ... where id = $1 and <cond>]: the trigger stamps
    [updated_at]. *)
Definition stamped (now : Z) (st : string) (total : option Z) (done : Z) (out : option string)
    (dur : option Z) (err : option string) (comp : option Z) (r : JobRow) : JobRow :=
  {| jr_ID := jr_ID r; jr_TenantID := jr_TenantID r; jr_ApiKeyID := jr_ApiKeyID r;
     jr_IdempotencyKey := jr_IdempotencyKey r; jr_Status := st; jr_VoiceID := jr_VoiceID r;
     jr_Format := jr_Format r; jr_SampleRate := jr_SampleRate r; jr_Normalize := jr_Normalize r;
     jr_Params := jr_Params r; jr_TotalChars := jr_TotalChars r; jr_SegmentsTotal := total;
     jr_SegmentsDone := done; jr_OutputS3Key := out; jr_DurationMs := dur;
     jr_WebhookUrl := jr_WebhookUrl r; jr_WebhookAttempts := jr_WebhookAttempts r;
     jr_Metadata := jr_Metadata r; jr_Error := err; jr_CreatedAt := jr_CreatedAt r;
     jr_UpdatedAt := now; jr_CompletedAt := comp |}.

Definition update_jobs (id : string) (cond : JobRow → bool) (f : Z → JobRow → JobRow) : TM Z :=
  port (λ t,
    match t_jobs t !! id with
    | Some r => if cond r then (Ok 1, put_jobs (<[id := f (t_now t) r]> (t_jobs t)) t) else (Ok 0, t)
    | None => (Ok 0, t)
    end).

(** [status in ('queued', 'segmenting', 'synthesizing', 'merging')]. *)
Definition in_flight (st : string) : bool :=
  bool_decide (st ∈ ["queued"; "segmenting"; "synthesizing"; "merging"]%string).

Definition CancelJob (id tenantID : string) : TM Z :=
  update_jobs id (λ r, String.eqb (jr_TenantID r) tenantID && in_flight (jr_Status r))
    (λ now r, stamped now "cancelled" (jr_SegmentsTotal r) (jr_SegmentsDone r) (jr_OutputS3Key r)
                (jr_DurationMs r) (jr_Error r) (Some now) r).

Definition CompleteJob (id : string) (out : option string) (dur : option Z) : TM Z :=
  update_jobs id (λ r, String.eqb (jr_Status r) "merging")
    (λ now r, stamped now "completed" (jr_SegmentsTotal r) (jr_SegmentsDone r) out dur (jr_Error r) (Some now) r).

Definition FailJob (id : string) (err : option string) : TM Z :=
  update_jobs id (λ r, negb (bool_decide (jr_Status r ∈ ["completed"; "failed"; "cancelled"]%string)))
    (λ now r, stamped now "failed" (jr_SegmentsTotal r) (jr_SegmentsDone r) (jr_OutputS3Key r)
                (jr_DurationMs r) err (Some now) r).

Definition SetJobSegmentsTotal (id : string) (total : option Z) : TM Z :=
  update_jobs id (λ r, String.eqb (jr_Status r) "segmenting")
    (λ now r, stamped now "synthesizing" total (jr_SegmentsDone r) (jr_OutputS3Key r) (jr_DurationMs r)
                (jr_Error r) (jr_CompletedAt r) r).

Definition TransitionJob (id from to : string) : TM Z :=
  update_jobs id (λ r, String.eqb (jr_Status r) from)
    (λ now r, stamped now to (jr_SegmentsTotal r) (jr_SegmentsDone r) (jr_OutputS3Key r) (jr_DurationMs r)
                (jr_Error r) (jr_CompletedAt r) r).

(** [:one] queries: [None] is [pgx.ErrNoRows]. *)
Definition GetJob (id tenantID : string) : TM (option JobRow) :=
  port (λ t, (Ok (match t_jobs t !! id with
                  | Some r => if String.eqb (jr_TenantID r) tenantID then Some r else None
                  | None => None
                  end), t)).

Definition GetJobByID (id : string) : TM (option JobRow) := port (λ t, (Ok (t_jobs t !! id), t)).

Definition same_key (tenantID key : string) (r : JobRow) : bool :=
  String.eqb (jr_TenantID r) tenantID && String.eqb (jr_IdempotencyKey r) key.

Definition GetJobByIdempotencyKey (tenantID key : string) : TM (option JobRow) :=
  port (λ t, (Ok (find_row (same_key tenantID key) (t_jobs t)), t)).

Definition ListJobs (tenantID : string) (limit : Z) (before : option Z) : TM (list JobRow) :=
  port (λ t,
    (Ok (take (Z.to_nat limit)
           (order_by (λ a b, jr_CreatedAt b <? jr_CreatedAt a)
              (List.filter (λ r, String.eqb (jr_TenantID r) tenantID &&
                                 match before with Some b => jr_CreatedAt r <? b | None => true end)
                 (snd <$> map_to_list (t_jobs t))))), t)).

Definition StuckJobs (before limit : Z) : TM (list JobRow) :=
  port (λ t,
    (Ok (take (Z.to_nat limit)
           (order_by (λ a b, jr_UpdatedAt a <? jr_UpdatedAt b)
              (List.filter (λ r, in_flight (jr_Status r) && (jr_UpdatedAt r <? before))
                 (snd <$> map_to_list (t_jobs t))))), t)).

(** [db.CreateJobParams]. *)
Record CreateJobParams : Type := {
  cj_ID : string; cj_TenantID : string; cj_ApiKeyID : string; cj_IdempotencyKey : string;
  cj_VoiceID : string; cj_Format : string; cj_SampleRate : Z; cj_Normalize : bool; cj_Params : string;
  cj_TotalChars : Z; cj_WebhookUrl : option string; cj_Metadata : string;
}.

Definition new_row (now : Z) (params metadata : string) (a : CreateJobParams) : JobRow :=
  {| jr_ID := cj_ID a; jr_TenantID := cj_TenantID a; jr_ApiKeyID := cj_ApiKeyID a;
     jr_IdempotencyKey := cj_IdempotencyKey a; jr_Status := "queued"; jr_VoiceID := cj_VoiceID a;
     jr_Format := cj_Format a; jr_SampleRate := cj_SampleRate a; jr_Normalize := cj_Normalize a;
     jr_Params := params; jr_TotalChars := cj_TotalChars a; jr_SegmentsTotal := None;
     jr_SegmentsDone := 0; jr_OutputS3Key := None; jr_DurationMs := None;
     jr_WebhookUrl := cj_WebhookUrl a; jr_WebhookAttempts := 0; jr_Metadata := metadata;
     jr_Error := None; jr_CreatedAt := now; jr_UpdatedAt := now; jr_CompletedAt := None |}.

Section statements.
Context `{Encoding}.

(** [insert into jobs (...) values (...) returning ...]. *)
Definition CreateJob (a : CreateJobParams) : TM JobRow :=
  port (λ t,
    match jsonb (cj_Params a), jsonb (cj_Metadata a) with
    | Some params, Some metadata =>
        if negb (known_format (cj_Format a) && known_rate (cj_SampleRate a) && (0 <=? cj_TotalChars a)) then
          (Err (ENew "new row violates check constraint"), t)
        else match t_jobs t !! cj_ID a with
        | Some _ => (Err (ENew "duplicate key value violates unique constraint"), t)
        | None =>
            match find_row (same_key (cj_TenantID a) (cj_IdempotencyKey a)) (t_jobs t) with
            | Some _ => (Err (ENew "duplicate key value violates unique constraint"), t)
            | None =>
                let row := new_row (t_now t) params metadata a in
                (Ok row, put_jobs (<[cj_ID a := row]> (t_jobs t)) t)
            end
        end
    | _, _ => (Err (ENew "invalid input syntax for type json"), t)
    end).

Definition set_segment (st : string) (attempts : Z) (s3Key lastError : option string) (s : JobSegment) : JobSegment :=
  {| js_ID := js_ID s; js_JobID := js_JobID s; js_Seq := js_Seq s; js_TextHash := js_TextHash s;
     js_Chars := js_Chars s; js_Status := st; js_Attempts := attempts; js_S3Key := s3Key;
     js_LastError := lastError |}.

(** [insert into job_segments ... on conflict (job_id, seq) do nothing]. *)
Definition CreateJobSegment (id jobID : string) (seq : Z) (textHash : string) (chars : Z) : TM () :=
  port (λ t,
    if negb ((0 <=? seq) && (go_len textHash =? 32) && (0 <=? chars)) then
      (Err (ENew "new row violates check constraint"), t)
    else match t_jobs t !! jobID with
    | None => (Err (ENew "insert violates foreign key constraint"), t)
    | Some _ =>
        match t_segs t !! (jobID, seq) with
        | Some _ => (Ok (), t)
        | None =>
            (Ok (), put_segs (<[(jobID, seq) :=
               {| js_ID := id; js_JobID := jobID; js_Seq := seq; js_TextHash := textHash; js_Chars := chars;
                  js_Status := "pending"; js_Attempts := 0; js_S3Key := None; js_LastError := None |}]>
               (t_segs t)) t)
        end
    end).

Definition segments_of (m : gmap (string * Z) JobSegment) (jobID : string) : list JobSegment :=
  order_by (λ a b, js_Seq a <? js_Seq b)
    (List.filter (λ s, String.eqb (js_JobID s) jobID) (snd <$> map_to_list m)).

Definition ListJobSegments (jobID : string) : TM (list JobSegment) :=
  port (λ t, (Ok (segments_of (t_segs t) jobID), t)).

Definition CountUnfinishedSegments (jobID : string) : TM Z :=
  port (λ t, (Ok (countb (λ s, negb (String.eqb (js_Status s) "done")) (segments_of (t_segs t) jobID)), t)).

Definition ClaimJobSegment (jobID : string) (seq : Z) : TM Z :=
  port (λ t,
    match t_segs t !! (jobID, seq) with
    | Some s =>
        if bool_decide (js_Status s ∈ ["pending"; "failed"]%string) then
          (Ok 1, put_segs (<[(jobID, seq) :=
             set_segment "running" (js_Attempts s + 1) (js_S3Key s) (js_LastError s) s]> (t_segs t)) t)
        else (Ok 0, t)
    | None => (Ok 0, t)
    end).

(** [with done as (update job_segments ... returning job_id) update jobs ...]:
    the job id returned is the one asked for. *)
Definition CompleteJobSegment (jobID : string) (seq : Z) (s3Key : option string) : TM Z :=
  port (λ t,
    match t_segs t !! (jobID, seq) with
    | Some s =>
        if String.eqb (js_Status s) "running" then
          let t := put_segs (<[(jobID, seq) :=
                     set_segment "done" (js_Attempts s) s3Key (js_LastError s) s]> (t_segs t)) t in
          match t_jobs t !! jobID with
          | Some r => (Ok 1, put_jobs (<[jobID :=
                        stamped (t_now t) (jr_Status r) (jr_SegmentsTotal r) (jr_SegmentsDone r + 1)
                          (jr_OutputS3Key r) (jr_DurationMs r) (jr_Error r) (jr_CompletedAt r) r]> (t_jobs t)) t)
          | None => (Ok 0, t)
          end
        else (Ok 0, t)
    | None => (Ok 0, t)
    end).

Definition FailJobSegment (jobID : string) (seq : Z) (lastError : option string) : TM Z :=
  port (λ t,
    match t_segs t !! (jobID, seq) with
    | Some s => (Ok 1, put_segs (<[(jobID, seq) :=
                   set_segment "failed" (js_Attempts s) (js_S3Key s) lastError s]> (t_segs t)) t)
    | None => (Ok 0, t)
    end).

(** ** [jobrepo.go] *)

Definition nullableString (v : string) : option string := if String.eqb v "" then None else Some v.

(** The texts of the check constraint; Go casts the column to its string type. *)
Definition Status_of (st : string) : option Status :=
  List.find (λ s, String.eqb (Status_String s) st)
    [StatusQueued; StatusSegmenting; StatusSynthesizing; StatusMerging; StatusCompleted; StatusFailed; StatusCancelled].

Definition zero_params : Params :=
  {| CFGScale := S754_zero false; AudioTemperature := S754_zero false; AudioTopK := 0;
     AudioTopP := S754_zero false; AudioRepetitionPenalty := S754_zero false; EOAExtraFrames := 0;
     Cache.SampleRate := 0 |}.

(** The columns that are read as they are, and those that were decoded. *)
Definition job_with (p : Params) (m : gmap string string) (st : Status) (r : JobRow) : Job :=
  {| ID := jr_ID r; TenantID := jr_TenantID r; KeyID := jr_ApiKeyID r; IdempotencyKey := jr_IdempotencyKey r;
     status := st; VoiceID := jr_VoiceID r; Format := jr_Format r; SampleRate := jr_SampleRate r;
     Normalize := jr_Normalize r; params := p; TotalChars := jr_TotalChars r;
     SegmentsTotal := jr_SegmentsTotal r; SegmentsDone := jr_SegmentsDone r;
     OutputS3Key := default "" (jr_OutputS3Key r); DurationMS := jr_DurationMs r;
     WebhookURL := default "" (jr_WebhookUrl r); Metadata := m; Error := default "" (jr_Error r);
     CreatedAt := jr_CreatedAt r; UpdatedAt := jr_UpdatedAt r; CompletedAt := jr_CompletedAt r |}.

Definition row_params (r : JobRow) : res Params :=
  if 0 <? go_len (jr_Params r) then rmap_err (wrapf "decode params: ") (unmarshal_params (jr_Params r)) else Ok zero_params.
Definition row_metadata (r : JobRow) : res (gmap string string) :=
  if 0 <? go_len (jr_Metadata r) then rmap_err (wrapf "decode metadata: ") (unmarshal_metadata (jr_Metadata r)) else Ok ∅.

Definition toJob (r : JobRow) : res Job :=
  match row_params r with
  | Err e => Err e
  | Ok p =>
      match row_metadata r with
      | Err e => Err e
      | Ok m =>
          match Status_of (jr_Status r) with
          | Some st => Ok (job_with p m st r)
          | None => Err (ENew "the row violates the check constraint on status")
          end
      end
  end.
End statements.

(** A segment's status text; as for [Status_of]. *)
Definition SegmentStatus_of (st : string) : option SegmentStatus :=
  if String.eqb st "pending" then Some SegmentPending
  else if String.eqb st "running" then Some SegmentRunning
  else if String.eqb st "done" then Some SegmentDone
  else if String.eqb st "failed" then Some SegmentFailed
  else None.

Definition segment_with (st : SegmentStatus) (s : JobSegment) : Segment :=
  {| sg_JobID := js_JobID s; sg_Seq := js_Seq s; sg_TextHash := js_TextHash s; sg_Chars := js_Chars s;
     sg_Status := st; sg_Attempts := js_Attempts s; sg_S3Key := default "" (js_S3Key s);
     sg_LastError := default "" (js_LastError s) |}.

Definition toSegment (s : JobSegment) : res Segment :=
  match SegmentStatus_of (js_Status s) with
  | Some st => Ok (segment_with st s)
  | None => Err (ENew "the row violates the check constraint on status")
  end.

(** The loops over rows: the first that is refused ends them. *)
Fixpoint each {A B} (f : A → res B) (l : list A) : res (list B) :=
  match l with
  | [] => Ok []
  | x :: l =>
      match f x with
      | Err e => Err e
      | Ok y => match each f l with Ok ys => Ok (y :: ys) | Err e => Err e end
      end
  end.

Definition answer {A} (r : res A) : TM A := λ t, (r, t).

Module Repository.
Section repository.
Context `{Encoding}.

Definition Create (job : Job) : TM Job :=
  match marshal_params (params job) with
  | None => sfail (wrapf "encode params: " (ENew "json: unsupported value"))
  | Some p =>
      let* row := swrap "insert job: " (CreateJob
        {| cj_ID := ID job; cj_TenantID := TenantID job; cj_ApiKeyID := KeyID job;
           cj_IdempotencyKey := IdempotencyKey job; cj_VoiceID := VoiceID job;
           cj_Format := Format job; cj_SampleRate := SampleRate job;
           cj_Normalize := Normalize job; cj_Params := p; cj_TotalChars := TotalChars job;
           cj_WebhookUrl := nullableString (WebhookURL job);
           cj_Metadata := marshal_metadata (Metadata job) |}) in
      answer (toJob row)
  end.

(** A [:one] query and [toJob]. *)
Definition one (pre : string) (q : TM (option JobRow)) : TM Job :=
  let* found := swrap pre q in
  match found with
  | None => sfail (ESentinel ErrNotFound)
  | Some row => answer (toJob row)
  end.

Definition ByIdempotencyKey (tenantID key : string) : TM Job :=
  one "get job by idempotency key: " (GetJobByIdempotencyKey tenantID key).
Definition Get (tenantID jobID : string) : TM Job := one "get job: " (GetJob jobID tenantID).
Definition ByID (jobID : string) : TM Job := one "get job by id: " (GetJobByID jobID).

Definition List_ (tenantID : string) (before : option Z) (limit : Z) : TM (list Job) :=
  let* rows := swrap "list jobs: " (ListJobs tenantID limit before) in
  answer (each toJob rows).
Definition Stuck (before limit : Z) : TM (list Job) :=
  let* rows := swrap "list stuck jobs: " (StuckJobs before limit) in
  answer (each toJob rows).

(** [affected > 0]. *)
Definition changed (pre : string) (m : TM Z) : TM bool := let* n := swrap pre m in sret (0 <? n).
Definition done_with (pre : string) (m : TM Z) : TM () := swrap pre m ;* sret ().

Definition Cancel (tenantID jobID : string) : TM bool := changed "cancel job: " (CancelJob jobID tenantID).
Definition Transition (jobID : string) (from to : Status) : TM bool :=
  changed "transition job: " (TransitionJob jobID (Status_String from) (Status_String to)).
Definition SetSegmentsTotal (jobID : string) (total : Z) : TM bool :=
  changed "set segments total: " (SetJobSegmentsTotal jobID (Some total)).
Definition Complete (jobID outputKey : string) (durationMS : Z) : TM bool :=
  changed "complete job: " (CompleteJob jobID (Some outputKey) (Some durationMS)).
Definition Fail (jobID reason : string) : TM () := done_with "fail job: " (FailJob jobID (Some reason)).

Definition CreateSegment (gen_uuid jobID : string) (seq : Z) (textHash : string) (chars : Z) : TM () :=
  swrap "create segment: " (CreateJobSegment gen_uuid jobID seq textHash chars).
Definition Segments (jobID : string) : TM (list Segment) :=
  let* rows := swrap "list segments: " (ListJobSegments jobID) in
  answer (each toSegment rows).
Definition ClaimSegment (jobID : string) (seq : Z) : TM bool :=
  changed "claim segment: " (ClaimJobSegment jobID seq).
Definition CompleteSegment (jobID : string) (seq : Z) (s3Key : string) : TM () :=
  done_with "complete segment: " (CompleteJobSegment jobID seq (Some s3Key)).
Definition FailSegment (jobID : string) (seq : Z) (reason : string) : TM () :=
  done_with "fail segment: " (FailJobSegment jobID seq (Some reason)).
Definition UnfinishedSegments (jobID : string) : TM Z :=
  swrap "count unfinished segments: " (CountUnfinishedSegments jobID).
End repository.
End Repository.

(** ** Lemmas *)

(** Lists over the rows, and over what they show. *)
Section lists.
Context {A B : Type} (f : A → B).

Lemma filter_shown (p : A → bool) (p' : B → bool) l :
  (∀ x, x ∈ l → p x = p' (f x)) → List.filter p' (f <$> l) = f <$> List.filter p l.
Proof.
  induction l as [|x l IH]; intros Hp; [done|]. cbn. rewrite <-(Hp x) by by left.
  destruct (p x); cbn; rewrite <-IH by (intros; apply Hp; by right); done.
Qed.

Lemma find_shown (p : A → bool) (p' : B → bool) l :
  (∀ x, x ∈ l → p x = p' (f x)) → List.find p' (f <$> l) = f <$> List.find p l.
Proof.
  induction l as [|x l IH]; intros Hp; [done|]. cbn. rewrite <-(Hp x) by by left.
  destruct (p x); [done|]. apply IH. intros. apply Hp. by right.
Qed.

Lemma insert_shown (b : A → A → bool) (b' : B → B → bool) x l :
  (∀ y, y ∈ l → b y x = b' (f y) (f x)) → insert_by b' (f x) (f <$> l) = f <$> insert_by b x l.
Proof.
  induction l as [|y l IH]; intros Hb; [done|]. cbn. rewrite <-(Hb y) by by left.
  destruct (b y x); [|done]. cbn. f_equal. apply IH. intros. apply Hb. by right.
Qed.

Lemma order_shown (b : A → A → bool) (b' : B → B → bool) l :
  (∀ x y, x ∈ l → y ∈ l → b x y = b' (f x) (f y)) → order_by b' (f <$> l) = f <$> order_by b l.
Proof.
  induction l as [|x l IH]; intros Hb; [done|]. cbn. fold (order_by b l). fold (order_by b' (f <$> l)).
  rewrite IH by (intros; apply Hb; by right). apply insert_shown. intros y Hy%order_by_elem. apply Hb; [by right|by left].
Qed.

Lemma countb_shown (p : A → bool) (p' : B → bool) l :
  (∀ x, x ∈ l → p x = p' (f x)) → countb p' (f <$> l) = countb p l.
Proof.
  induction l as [|x l IH]; intros Hp; [done|]. cbn. rewrite <-(Hp x) by by left. unfold countb in IH.
  rewrite IH by (intros; apply Hp; by right). done.
Qed.
End lists.

Lemma each_Ok {A B} (g : A → res B) (f : A → B) l : (∀ x, x ∈ l → g x = Ok (f x)) → each g l = Ok (f <$> l).
Proof.
  induction l as [|x l IH]; intros Hl; [done|]. cbn. rewrite (Hl x) by by left.
  by rewrite IH by (intros; apply Hl; by right).
Qed.

(** ** What a database shows *)

Section refinement.
Context `{Encoding}.

Definition readable (r : JobRow) : Prop := ∃ j, toJob r = Ok j.
Definition readable_segment (s : JobSegment) : Prop := ∃ g, toSegment s = Ok g.

(** The job of a readable row. *)
Definition job_of (r : JobRow) : Job :=
  match toJob r with Ok j => j | Err _ => job_with zero_params ∅ StatusQueued r end.
Definition segment_of (s : JobSegment) : Segment :=
  match toSegment s with Ok g => g | Err _ => segment_with SegmentPending s end.

Record shows (t : Tables) (w : JobWorld) : Prop := {
  sh_jobs : jw_jobs w = job_of <$> t_jobs t;
  sh_segs : jw_segs w = segment_of <$> t_segs t;
  sh_readable : map_Forall (λ _, readable) (t_jobs t);
  sh_readable_segs : map_Forall (λ _, readable_segment) (t_segs t);
  sh_now : jw_now w = t_now t;
  sh_faults : jw_faults w = t_faults t;
}.

#[export] Instance shows_blind : FaultBlind shows.
Proof. split; [by intros t w []|]. intros t w fs []. by split. Qed.

(** The operation on rows answers what the one on jobs answers. *)
Abbreviation refines := (Refine.refines (R := shows)).
Abbreviation relates := (Refine.relates (R := shows)).

(** A query's result decoded. *)
Lemma relates_answer {A B} (m : TM A) (s : JM B) (f : A → res B) :
  relates (λ a b, f a = Ok b) m s → relates eq (let* a := m in answer (f a)) s.
Proof.
  intros Hm t w Hs. destruct (Hm t w Hs) as [Hr Hs']. unfold sbind, answer.
  destruct (m t) as [[a|e] t'], (s w) as [[b|e'] w']; cbn in *; try done. by rewrite Hr.
Qed.

(** ** Rows and jobs *)

Lemma Status_of_String st : Status_of (Status_String st) = Some st.
Proof. by destruct st. Qed.

Lemma Status_of_text st s : Status_of st = Some s → st = Status_String s.
Proof. unfold Status_of. intros [_ Hs]%List.find_some. by apply String.eqb_eq in Hs. Qed.

Lemma toJob_Ok r j :
  toJob r = Ok j ↔ row_params r = Ok (params j) ∧ row_metadata r = Ok (Metadata j) ∧
    jr_Status r = Status_String (status j) ∧ j = job_with (params j) (Metadata j) (status j) r.
Proof.
  unfold toJob. split.
  - destruct (row_params r) as [p|]; [|done]. destruct (row_metadata r) as [m|]; [|done].
    destruct (Status_of (jr_Status r)) as [st|] eqn:Hst; [|done]. intros [= <-]. split_and!; [done..| |done].
    by apply Status_of_text.
  - intros (-> & -> & Hst & Hj). rewrite Hst, Status_of_String. by rewrite <-Hj.
Qed.

(** An update keeps the JSON columns. *)
Lemma toJob_stamped now st total done_ out dur err comp r j :
  toJob r = Ok j →
  toJob (stamped now (Status_String st) total done_ out dur err comp r) =
    Ok (update_job now st total done_ (default "" out) dur (default "" err) comp j).
Proof.
  intros (Hp & Hm & Hst & Hj)%toJob_Ok. unfold toJob. unfold row_params, row_metadata in *.
  cbn [jr_Params jr_Metadata jr_Status stamped]. rewrite Hp, Hm, Status_of_String. f_equal. by rewrite Hj.
Qed.

Lemma eqb_String (a b : Status) : String.eqb (Status_String a) (Status_String b) = bool_decide (a = b).
Proof. by destruct a, b. Qed.

Lemma in_flight_live s : in_flight (Status_String s) = live s.
Proof. by destruct s. Qed.

Lemma shows_lookup t w id : shows t w → jw_jobs w !! id = job_of <$> t_jobs t !! id.
Proof. intros Hs. by rewrite (sh_jobs _ _ Hs), lookup_fmap. Qed.

Lemma job_of_Ok r j : toJob r = Ok j → job_of r = j.
Proof. unfold job_of. by intros ->. Qed.

Lemma shows_put_jobs t w id r j :
  shows t w → toJob r = Ok j → shows (put_jobs (<[id := r]> (t_jobs t)) t) (set_jobs (<[id := j]> (jw_jobs w)) w).
Proof.
  intros [Hj Hg Hr Hrg Hn Hf] Hrow. split; try done; cbn.
  - by rewrite fmap_insert, Hj, (job_of_Ok _ _ Hrow).
  - apply map_Forall_insert_2; [by exists j|done].
Qed.

Lemma update_relates id cond cond' f f' :
  (∀ r j, toJob r = Ok j → cond r = cond' j ∧ ∀ now, toJob (f now r) = Ok (f' now j)) →
  relates eq (update_jobs id cond f) (update_where id cond' f').
Proof.
  intros Hc. apply relates_port. intros t w Hs. cbn. rewrite (shows_lookup _ _ _ Hs).
  destruct (t_jobs t !! id) as [r|] eqn:Hr; [|done]. cbn. destruct (sh_readable _ _ Hs id r Hr) as [j Hj].
  rewrite (job_of_Ok _ _ Hj), (sh_now _ _ Hs). destruct (Hc r j Hj) as [-> Hf]. destruct (cond' j); [|done].
  split; [done|]. by apply shows_put_jobs.
Qed.

Lemma changed_refines pre m s : relates eq m s → refines (Repository.changed pre m) (affected pre s).
Proof.
  intros Hm. apply relates_refines. eapply relates_bind; [by apply relates_wrap|]. intros a b ->. by apply relates_ret.
Qed.

(** A row's columns, as the job's fields. *)
Lemma toJob_fields r j :
  toJob r = Ok j →
  jr_ID r = ID j ∧ jr_TenantID r = TenantID j ∧ jr_IdempotencyKey r = IdempotencyKey j ∧
  jr_Status r = Status_String (status j) ∧ jr_CreatedAt r = CreatedAt j ∧ jr_UpdatedAt r = UpdatedAt j.
Proof. intros (_ & _ & Hst & Hj)%toJob_Ok. by rewrite Hj. Qed.

(** A statement that moves a job to [st']: its condition and its columns. *)
Lemma update_to id cond cond' st' total done_ out dur err comp f' :
  (∀ r j, toJob r = Ok j → cond r = cond' j) →
  (∀ now r j, toJob r = Ok j →
     f' now j = update_job now st' (total now r) (done_ now r) (default "" (out now r)) (dur now r)
                  (default "" (err now r)) (comp now r) j) →
  relates eq
    (update_jobs id cond (λ now r, stamped now (Status_String st') (total now r) (done_ now r) (out now r)
                                     (dur now r) (err now r) (comp now r) r))
    (update_where id cond' f').
Proof.
  intros Hc Hf. apply update_relates. intros r j Hj. split; [by apply Hc|]. intros now.
  rewrite (toJob_stamped _ st' _ _ _ _ _ _ _ j Hj). f_equal. symmetry. by apply Hf.
Qed.

(** The columns of a row as its job's fields. *)
Ltac columns := intros *; intros (_ & _ & _ & Hj)%toJob_Ok; by rewrite Hj.

Lemma Cancel_refines tid id : refines (Repository.Cancel tid id) (JobStore.Cancel tid id).
Proof.
  apply changed_refines, (update_to _ _ _ StatusCancelled); [|columns].
  intros r j (_ & -> & _ & -> & _)%toJob_fields. by rewrite in_flight_live.
Qed.

Lemma Transition_refines id from to : refines (Repository.Transition id from to) (JobStore.Transition id from to).
Proof.
  apply changed_refines, update_to; [|columns]. intros r j (_ & _ & _ & -> & _)%toJob_fields. apply eqb_String.
Qed.

Lemma SetSegmentsTotal_refines id total : refines (Repository.SetSegmentsTotal id total) (JobStore.SetSegmentsTotal id total).
Proof.
  apply changed_refines, (update_to _ _ _ StatusSynthesizing); [|columns].
  intros r j (_ & _ & _ & -> & _)%toJob_fields. apply (eqb_String _ StatusSegmenting).
Qed.

Lemma Complete_refines id out dur : refines (Repository.Complete id out dur) (JobStore.Complete id out dur).
Proof.
  apply changed_refines, (update_to _ _ _ StatusCompleted); [|columns].
  intros r j (_ & _ & _ & -> & _)%toJob_fields. apply (eqb_String _ StatusMerging).
Qed.

Lemma Fail_refines id reason : refines (Repository.Fail id reason) (JobStore.Fail id reason).
Proof.
  apply relates_refines. eapply relates_bind; [|intros a b _; by apply relates_ret].
  apply relates_wrap, (update_to _ _ _ StatusFailed); [|columns].
  intros r j (_ & _ & _ & -> & _)%toJob_fields. by destruct (status j).
Qed.

(** ** Reads *)

(** A query whose rows are those of the jobs the query on jobs finds. *)
Lemma one_refines pre q q' :
  (∀ t w, shows t w → q' w = job_of <$> q t ∧ ∀ r, q t = Some r → readable r) →
  refines (Repository.one pre (port (λ t, (Ok (q t), t)))) (one_row pre q').
Proof.
  intros Hq t w Hs. unfold Repository.one, one_row.
  pose proof (relates_port (λ o o', o' = job_of <$> o ∧ ∀ r, o = Some r → readable r)
    (λ t, (Ok (q t), t)) (λ w, (Ok (q' w), w))) as Hp.
  destruct (Hp ltac:(intros t1 w1 H1; split; [exact (Hq t1 w1 H1)|done]) t w Hs) as [Hr Hs']. unfold sbind, swrap.
  destruct (port (λ t, (Ok (q t), t)) t) as [[o|e] t'], (port (λ w, (Ok (q' w), w)) w) as [[o'|e'] w']; cbn in Hr; try done.
  - destruct Hr as [-> Hr]. destruct o as [r|]; [|done]. destruct (Hr r eq_refl) as [j Hj]. cbn.
    by rewrite (job_of_Ok _ _ Hj), Hj.
  - cbn. by subst.
Qed.

Lemma ByID_refines id : refines (Repository.ByID id) (JobStore.ByID id).
Proof.
  apply one_refines. intros t w Hs. split; [by apply shows_lookup|]. intros r Hr. by apply (sh_readable _ _ Hs id).
Qed.

Lemma Get_refines tid id : refines (Repository.Get tid id) (JobStore.Get tid id).
Proof.
  apply one_refines. intros t w Hs. rewrite (shows_lookup _ _ _ Hs).
  destruct (t_jobs t !! id) as [r|] eqn:Hr; [|done]. destruct (sh_readable _ _ Hs id r Hr) as [j Hj]. cbn.
  rewrite (job_of_Ok _ _ Hj). pose proof (toJob_fields _ _ Hj) as (_ & -> & _).
  destruct (String.eqb (TenantID j) tid); [|done]. cbn. rewrite (job_of_Ok _ _ Hj). split; [done|]. intros ? [= <-]. by exists j.
Qed.

(** The rows of the table, and the jobs they show. *)
Lemma shows_list t w : shows t w → snd <$> map_to_list (jw_jobs w) = job_of <$> (snd <$> map_to_list (t_jobs t)).
Proof.
  intros Hs. rewrite (sh_jobs _ _ Hs), map_to_list_fmap, <-!list_fmap_compose. by apply list_fmap_ext; intros ? [].
Qed.

Lemma shows_row t w r : shows t w → r ∈ snd <$> map_to_list (t_jobs t) → toJob r = Ok (job_of r).
Proof.
  intros Hs ([id r'] & -> & Hin%elem_of_map_to_list)%list_elem_of_fmap. cbn.
  destruct (sh_readable _ _ Hs id r' Hin) as [j Hj]. by rewrite Hj, (job_of_Ok _ _ Hj).
Qed.

Lemma same_key_shown t w tid key r :
  shows t w → r ∈ snd <$> map_to_list (t_jobs t) → same_key tid key r = same_submission tid key (job_of r).
Proof.
  intros Hs Hr. pose proof (toJob_fields _ _ (shows_row _ _ _ Hs Hr)) as (_ & HT & HI & _).
  unfold same_key, same_submission. by rewrite HT, HI.
Qed.

Lemma find_shows t w tid key :
  shows t w → find_row (same_submission tid key) (jw_jobs w) = job_of <$> find_row (same_key tid key) (t_jobs t).
Proof.
  intros Hs. unfold find_row. rewrite (shows_list _ _ Hs). apply find_shown. intros r Hr. by apply (same_key_shown t w).
Qed.

Lemma ByIdempotencyKey_refines tid key :
  refines (Repository.ByIdempotencyKey tid key) (JobStore.ByIdempotencyKey tid key).
Proof.
  apply one_refines. intros t w Hs. split; [by apply find_shows|].
  intros r [_ [k Hk]]%find_row_Some. by apply (sh_readable _ _ Hs k).
Qed.

(** A page of rows: filtered, ordered and cut. *)
Lemma page_refines pre (p : JobRow → bool) (p' : Job → bool) b b' limit :
  (∀ r j, toJob r = Ok j → p r = p' j) →
  (∀ r1 j1 r2 j2, toJob r1 = Ok j1 → toJob r2 = Ok j2 → b r1 r2 = b' j1 j2) →
  refines
    (let* rows := swrap pre (port (λ t,
       (Ok (take (Z.to_nat limit) (order_by b (List.filter p (snd <$> map_to_list (t_jobs t))))), t))) in
     answer (each toJob rows))
    (swrap pre (port (λ w,
       (Ok (take (Z.to_nat limit) (order_by b' (List.filter p' (snd <$> map_to_list (jw_jobs w))))), w)))).
Proof.
  intros Hp Hb. apply relates_refines, relates_answer, relates_wrap, relates_port. intros t w Hs. split; [|done]. cbn.
  pose proof (λ r, shows_row t w r Hs) as Hrow. rewrite (shows_list _ _ Hs).
  assert (∀ r, r ∈ List.filter p (snd <$> map_to_list (t_jobs t)) → toJob r = Ok (job_of r)) as Hrow'.
  { intros r [Hr _]%list_elem_of_In%List.filter_In. by apply Hrow, list_elem_of_In. }
  rewrite (filter_shown job_of p p') by (intros r Hr; by apply Hp, Hrow).
  rewrite (order_shown job_of b b') by (intros r1 r2 H1 H2; apply Hb; by apply Hrow').
  rewrite <-fmap_take. apply each_Ok. intros r Hr. apply Hrow'.
  pose proof (elem_of_sublist _ _ _ Hr (sublist_take _ _)) as Hin. by apply order_by_elem in Hin.
Qed.

Lemma List_refines tid before limit : refines (Repository.List_ tid before limit) (JobStore.List_ tid before limit).
Proof.
  apply page_refines.
  - by intros r j (_ & -> & _ & _ & -> & _)%toJob_fields.
  - by intros r1 j1 r2 j2 (_ & _ & _ & _ & -> & _)%toJob_fields (_ & _ & _ & _ & -> & _)%toJob_fields.
Qed.

Lemma Stuck_refines before limit : refines (Repository.Stuck before limit) (JobStore.Stuck before limit).
Proof.
  apply page_refines.
  - intros r j (_ & _ & _ & -> & _ & ->)%toJob_fields. by rewrite in_flight_live.
  - by intros r1 j1 r2 j2 (_ & _ & _ & _ & _ & ->)%toJob_fields (_ & _ & _ & _ & _ & ->)%toJob_fields.
Qed.

(** ** Creation *)

(** JSON and [jsonb] give a job's parameters and metadata back, or the
    parameters cannot be encoded. *)
Definition json_exact (j : Job) : Prop :=
  if json_params (params j) then
    ∃ p p' m', marshal_params (params j) = Some p ∧ jsonb p = Some p' ∧ unmarshal_params p' = Ok (params j) ∧
      0 < go_len p' ∧ jsonb (marshal_metadata (Metadata j)) = Some m' ∧ unmarshal_metadata m' = Ok (Metadata j) ∧
      0 < go_len m'
  else marshal_params (params j) = None.

Lemma default_nullable s : default "" (nullableString s) = s.
Proof. unfold nullableString. by destruct (String.eqb_spec s ""). Qed.

Lemma Create_refines job : json_exact job → refines (Repository.Create job) (JobStore.Create job).
Proof.
  intros Hjson. unfold Repository.Create, JobStore.Create. unfold json_exact in Hjson.
  destruct (json_params (params job)); cbn [negb]; [|rewrite Hjson; apply relates_refines, relates_fail].
  destruct Hjson as (p & p' & m' & -> & Hp & Hup & Hlp & Hm & Hum & Hlm).
  apply relates_refines, relates_answer, relates_wrap, relates_port. intros t w Hs. cbn. rewrite Hp, Hm. unfold job_row_ok.
  destruct (negb _); [done|]. rewrite (shows_lookup _ _ _ Hs). destruct (t_jobs t !! ID job); [done|]. cbn.
  rewrite (find_shows _ _ _ _ Hs). destruct (find_row (same_key _ _) (t_jobs t)); [done|]. cbn.
  rewrite (sh_now _ _ Hs). set (row := new_row _ _ _ _).
  assert (toJob row = Ok (inserted (t_now t) job)) as Hrow.
  { apply toJob_Ok. unfold row_params, row_metadata. cbn. apply Z.ltb_lt in Hlp, Hlm. rewrite Hlp, Hlm, Hup, Hum.
    split_and!; [done..|]. unfold inserted, job_with. cbn. by rewrite default_nullable. }
  split; [exact Hrow|]. by apply shows_put_jobs.
Qed.

(** ** Segments *)

Lemma toSegment_Ok s g :
  toSegment s = Ok g ↔ SegmentStatus_of (js_Status s) = Some (sg_Status g) ∧ g = segment_with (sg_Status g) s.
Proof.
  unfold toSegment. destruct (SegmentStatus_of (js_Status s)) as [st|] eqn:Hst; split; try done.
  - by intros [= <-].
  - intros [[= <-] Hg]. by rewrite <-Hg.
  - by intros [? _].
Qed.

Lemma segment_of_Ok s g : toSegment s = Ok g → segment_of s = g.
Proof. unfold segment_of. by intros ->. Qed.

Lemma segment_texts s st : SegmentStatus_of s = Some st →
  s = match st with SegmentPending => "pending" | SegmentRunning => "running" | SegmentDone => "done" | SegmentFailed => "failed" end%string.
Proof. unfold SegmentStatus_of. intros H0. repeat (case_match; simplify_eq); by apply String.eqb_eq. Qed.

Lemma shows_segment t w k : shows t w → jw_segs w !! k = segment_of <$> t_segs t !! k.
Proof. intros Hs. by rewrite (sh_segs _ _ Hs), lookup_fmap. Qed.

Lemma shows_put_segs t w k s g :
  shows t w → toSegment s = Ok g → shows (put_segs (<[k := s]> (t_segs t)) t) (set_segs (<[k := g]> (jw_segs w)) w).
Proof.
  intros [Hj Hg Hr Hrg Hn Hf] Hrow. split; try done; cbn.
  - by rewrite fmap_insert, Hg, (segment_of_Ok _ _ Hrow).
  - apply map_Forall_insert_2; [by exists g|done].
Qed.

(** An update of a segment that sets its status to one of the constraint's. *)
Lemma toSegment_set text st attempts key err s g :
  SegmentStatus_of text = Some st → toSegment s = Ok g →
  toSegment (set_segment text attempts key err s) = Ok (with_seg st attempts (default "" key) (default "" err) g).
Proof.
  intros Ht [_ Hg]%toSegment_Ok. unfold toSegment. cbn. rewrite Ht. by rewrite Hg.
Qed.

Lemma segments_list t w : shows t w → snd <$> map_to_list (jw_segs w) = segment_of <$> (snd <$> map_to_list (t_segs t)).
Proof.
  intros Hs. rewrite (sh_segs _ _ Hs), map_to_list_fmap, <-!list_fmap_compose. by apply list_fmap_ext; intros ? [].
Qed.

Lemma segments_row t w s : shows t w → s ∈ snd <$> map_to_list (t_segs t) → toSegment s = Ok (segment_of s).
Proof.
  intros Hs ([k s'] & -> & Hin%elem_of_map_to_list)%list_elem_of_fmap. cbn.
  destruct (sh_readable_segs _ _ Hs k s' Hin) as [g Hg]. by rewrite Hg, (segment_of_Ok _ _ Hg).
Qed.

Lemma segments_shown t w id :
  shows t w → job_segments (jw_segs w) id = segment_of <$> segments_of (t_segs t) id ∧
              ∀ s, s ∈ segments_of (t_segs t) id → toSegment s = Ok (segment_of s).
Proof.
  intros Hs. pose proof (λ s, segments_row t w s Hs) as Hrow. unfold job_segments, segments_of.
  assert (∀ s, s ∈ List.filter (λ s, String.eqb (js_JobID s) id) (snd <$> map_to_list (t_segs t)) →
    toSegment s = Ok (segment_of s)) as Hrow'.
  { intros s [Hin _]%list_elem_of_In%List.filter_In. by apply Hrow, list_elem_of_In. }
  split; [|intros s Hin%order_by_elem; by apply Hrow']. rewrite (segments_list _ _ Hs).
  rewrite (filter_shown segment_of (λ s, String.eqb (js_JobID s) id)).
  - apply order_shown. intros s1 s2 [_ H1]%Hrow'%toSegment_Ok [_ H2]%Hrow'%toSegment_Ok. by rewrite H1, H2.
  - intros s [_ Hg]%Hrow%toSegment_Ok. by rewrite Hg.
Qed.

Lemma Segments_refines id : refines (Repository.Segments id) (JobStore.Segments id).
Proof.
  apply relates_refines, relates_answer, relates_wrap, relates_port. intros t w Hs. split; [|done]. cbn.
  destruct (segments_shown t w id Hs) as [-> Hrow]. by apply each_Ok.
Qed.

Lemma UnfinishedSegments_refines id : refines (Repository.UnfinishedSegments id) (JobStore.UnfinishedSegments id).
Proof.
  apply relates_refines, relates_wrap, relates_port. intros t w Hs. split; [|done]. cbn.
  destruct (segments_shown t w id Hs) as [-> Hrow]. symmetry. apply countb_shown.
  intros s [Hst _]%Hrow%toSegment_Ok. apply segment_texts in Hst. rewrite Hst. unfold not_done. by destruct (sg_Status _).
Qed.

Lemma CreateSegment_refines u id seq h chars :
  refines (Repository.CreateSegment u id seq h chars) (JobStore.CreateSegment id seq h chars).
Proof.
  apply relates_refines, relates_wrap, relates_port. intros t w Hs. destruct (negb _); [done|].
  rewrite (shows_lookup _ _ _ Hs). destruct (t_jobs t !! id); [|done]. cbn. rewrite (shows_segment _ _ _ Hs).
  destruct (t_segs t !! (id, seq)); [done|]. split; [done|]. by apply shows_put_segs.
Qed.

Lemma ClaimSegment_refines id seq : refines (Repository.ClaimSegment id seq) (JobStore.ClaimSegment id seq).
Proof.
  apply changed_refines, relates_port. intros t w Hs. rewrite (shows_segment _ _ _ Hs).
  destruct (t_segs t !! (id, seq)) as [s|] eqn:Hin; [|done]. destruct (sh_readable_segs _ _ Hs _ s Hin) as [g Hg]. cbn.
  rewrite (segment_of_Ok _ _ Hg). pose proof Hg as [Hst Hg']%toSegment_Ok. apply segment_texts in Hst.
  assert (bool_decide (js_Status s ∈ ["pending"; "failed"]%string) = claimable (sg_Status g)) as ->
    by (rewrite Hst; by destruct (sg_Status g)).
  destruct (claimable _); [|done]. split; [done|]. apply shows_put_segs; [done|].
  rewrite (toSegment_set _ SegmentRunning _ _ _ _ g) by done. by rewrite Hg'.
Qed.

Lemma done_refines pre (m : TM Z) (s : JM ()) :
  relates (λ _ _, True) m s → refines (Repository.done_with pre m) (swrap pre s).
Proof.
  intros Hm t w Hs. unfold Repository.done_with, sbind, swrap. destruct (Hm t w Hs) as [Hr Hs'].
  destruct (m t) as [[a|e] t'], (s w) as [[[]|e'] w']; cbn in *; try done. by subst.
Qed.

Lemma FailSegment_refines id seq reason : refines (Repository.FailSegment id seq reason) (JobStore.FailSegment id seq reason).
Proof.
  apply done_refines, relates_port. intros t w Hs. rewrite (shows_segment _ _ _ Hs).
  destruct (t_segs t !! (id, seq)) as [s|] eqn:Hin; [|done]. destruct (sh_readable_segs _ _ Hs _ s Hin) as [g Hg]. cbn.
  rewrite (segment_of_Ok _ _ Hg). split; [done|]. apply shows_put_segs; [done|].
  rewrite (toSegment_set _ SegmentFailed _ _ _ _ g) by done. apply toSegment_Ok in Hg as [_ Hg]. by rewrite Hg.
Qed.

Lemma CompleteSegment_refines id seq key :
  refines (Repository.CompleteSegment id seq key) (JobStore.CompleteSegment id seq key).
Proof.
  apply done_refines, relates_port. intros t w Hs. rewrite (shows_segment _ _ _ Hs).
  destruct (t_segs t !! (id, seq)) as [s|] eqn:Hin; [|done]. destruct (sh_readable_segs _ _ Hs _ s Hin) as [g Hg]. cbn.
  rewrite (segment_of_Ok _ _ Hg). pose proof Hg as [Hst Hg']%toSegment_Ok. apply segment_texts in Hst.
  assert (String.eqb (js_Status s) "running" = bool_decide (sg_Status g = SegmentRunning)) as ->
    by (rewrite Hst; by destruct (sg_Status g)).
  case_bool_decide; [|done]. rewrite (shows_lookup _ _ _ Hs).
  assert (shows (put_segs (<[(id, seq) := set_segment "done" (js_Attempts s) (Some key) (js_LastError s) s]> (t_segs t)) t)
    (set_segs (<[(id, seq) := with_seg SegmentDone (sg_Attempts g) key (sg_LastError g) g]> (jw_segs w)) w)) as Hs1.
  { apply shows_put_segs; [done|]. rewrite (toSegment_set _ SegmentDone _ _ _ _ g) by done. by rewrite Hg'. }
  destruct (t_jobs t !! id) as [r|] eqn:Hr; [|by split]. destruct (sh_readable _ _ Hs id r Hr) as [j Hj]. cbn.
  rewrite (job_of_Ok _ _ Hj), (sh_now _ _ Hs). split; [done|]. pose proof Hj as (_ & _ & Hstat & Hj')%toJob_Ok.
  rewrite Hstat. apply (shows_put_jobs _ _ id _ _ Hs1). rewrite (toJob_stamped _ _ _ _ _ _ _ _ _ j Hj). by rewrite Hj'.
Qed.
End refinement.

(** ** Properties *)

#[local] Abbreviation refines := (Refine.refines (R := shows)).

(** C15. The repository keeps its contract on the rows. Where a database's rows
    are read back as a state of jobs and segments, each operation answers what
    the one of the same name answers there, whatever becomes of its call, and
    leaves rows read back as what that one leaves: statuses as texts, NULL for
    what is empty, JSON for parameters and metadata, the trigger's stamp and the
    statements' conditions included. A job is created so when JSON gives its
    parameters and metadata back, or cannot encode them. *)
Theorem jobrepo_refines `{Encoding} :
  (∀ j, json_exact j → refines (Repository.Create j) (JobStore.Create j)) ∧
  (∀ tid key, refines (Repository.ByIdempotencyKey tid key) (JobStore.ByIdempotencyKey tid key)) ∧
  (∀ tid id, refines (Repository.Get tid id) (JobStore.Get tid id)) ∧
  (∀ id, refines (Repository.ByID id) (JobStore.ByID id)) ∧
  (∀ tid before limit, refines (Repository.List_ tid before limit) (JobStore.List_ tid before limit)) ∧
  (∀ before limit, refines (Repository.Stuck before limit) (JobStore.Stuck before limit)) ∧
  (∀ tid id, refines (Repository.Cancel tid id) (JobStore.Cancel tid id)) ∧
  (∀ id from to, refines (Repository.Transition id from to) (JobStore.Transition id from to)) ∧
  (∀ id total, refines (Repository.SetSegmentsTotal id total) (JobStore.SetSegmentsTotal id total)) ∧
  (∀ id out dur, refines (Repository.Complete id out dur) (JobStore.Complete id out dur)) ∧
  (∀ id reason, refines (Repository.Fail id reason) (JobStore.Fail id reason)) ∧
  (∀ u id seq h chars, refines (Repository.CreateSegment u id seq h chars) (JobStore.CreateSegment id seq h chars)) ∧
  (∀ id, refines (Repository.Segments id) (JobStore.Segments id)) ∧
  (∀ id seq, refines (Repository.ClaimSegment id seq) (JobStore.ClaimSegment id seq)) ∧
  (∀ id seq key, refines (Repository.CompleteSegment id seq key) (JobStore.CompleteSegment id seq key)) ∧
  (∀ id seq reason, refines (Repository.FailSegment id seq reason) (JobStore.FailSegment id seq reason)) ∧
  (∀ id, refines (Repository.UnfinishedSegments id) (JobStore.UnfinishedSegments id)).
Proof.
  split_and!; intros; auto using Create_refines, ByIdempotencyKey_refines, Get_refines, ByID_refines, List_refines,
    Stuck_refines, Cancel_refines, Transition_refines, SetSegmentsTotal_refines, Complete_refines, Fail_refines,
    CreateSegment_refines, Segments_refines, ClaimSegment_refines, CompleteSegment_refines, FailSegment_refines,
    UnfinishedSegments_refines.
Qed.

(** JSON for one submission; [jsonb] spaces what it is given. *)
Definition demo_encoding (p : Params) : Encoding := {|
  marshal_params q := if json_params q then Some "{params}"%string else None;
  unmarshal_params s := if String.eqb s "{ params }" then Ok p else Err (ENew "unexpected end of JSON input");
  marshal_metadata _ := "{}";
  unmarshal_metadata s := if String.eqb s "{ }" then Ok ∅ else Err (ENew "unexpected end of JSON input");
  jsonb s := if String.eqb s "{params}" then Some "{ params }"%string
             else if String.eqb s "{}" then Some "{ }"%string else None;
|}.

Definition no_rows (fs : list fault) : Tables := {| t_jobs := ∅; t_segs := ∅; t_now := 5; t_faults := fs |}.
Definition no_jobs (fs : list fault) : JobWorld :=
  {| jw_jobs := ∅; jw_segs := ∅; jw_objects := ∅; jw_streams _ := empty_stream; jw_now := 5; jw_faults := fs |}.

Definition row_job : Job := {|
  ID := "j"; TenantID := "t"; KeyID := "k"; IdempotencyKey := "once"; status := StatusQueued;
  VoiceID := "vi-1"; Format := "mp3"; SampleRate := 48000; Normalize := true;
  params := rq_Params (demo_request ""); TotalChars := 12; SegmentsTotal := None;
  SegmentsDone := 0; OutputS3Key := ""; DurationMS := None; WebhookURL := "https://example.com/";
  Metadata := ∅; Error := ""; CreatedAt := 0; UpdatedAt := 0; CompletedAt := None |}.

(** A row created, cancelled, and read back. *)
Example row_cancelled :
  let e := demo_encoding (params row_job) in
  let t := (Repository.Cancel "t" "j" (Repository.Create row_job (no_rows [])).2).2 in
  (option_map (λ r, (jr_Status r, jr_WebhookUrl r, jr_Params r)) (t_jobs t !! "j"%string),
   match (Repository.ByID "j" t).1 with Ok j => Some (status j, CompletedAt j, WebhookURL j) | Err _ => None end)
  = (Some ("cancelled", Some "https://example.com/", "{ params }"), Some (StatusCancelled, Some 5, "https://example.com/"))%string.
Proof. by vm_compute. Qed.

Lemma jobrepo_refines_witness :
  let e := demo_encoding (params row_job) in
  (Repository.Create row_job (no_rows [Answered])).1 = (JobStore.Create row_job (no_jobs [Answered])).1 ∧
  shows (Repository.Create row_job (no_rows [Answered])).2 (JobStore.Create row_job (no_jobs [Answered])).2.
Proof.
  intros e. apply (proj1 jobrepo_refines).
  - exists "{params}"%string, "{ params }"%string, "{ }"%string. by vm_compute.
  - by split.
Defined.
