(* ===== verification/JobWire.v ===== *)
(** * The job streams as Redis holds them

    [redis/jobqueue.go] and its adapter over the messages themselves: an entry is
    a map of fields, read back by [toEntry], which a message written by something
    else may not be. [JobStore] states what the queue promises on entries; the
    property says that each operation here does what the one of the same name
    does there, and what becomes of a message that is not an entry.

    [uuid.Parse] is a parameter; [fmt.Sscanf] is followed for the one format
    used, on ASCII white space. Trimming is not modelled. *)

From stdpp Require Import base gmap strings pretty numbers sorting list.
From S2P Require Import Prelude GoString Refine Cache Jobs JobStore.

(** A field's value as go-redis may give it: [any]. *)
Inductive value : Type := VString (s : string) | VInt64 (n : Z) | VOther.

(** [goredis.XMessage]. *)
Record XMessage : Type := { xm_ID : Z; xm_Values : gmap string value }.

(** A stream and, once it is created, its consumer group. *)
Record Group : Type := { gr_last : Z; gr_pending : gmap Z Z }.
Record Wire : Type := { wi_messages : list XMessage; wi_next : Z; wi_group : option Group }.

Record Redis : Type := {
  re_streams : StreamName → Wire;
  re_now : Z;
  re_faults : list fault;
}.

#[export] Instance Redis_faults : HasFaults Redis := {|
  faults := re_faults;
  set_faults fs r := {| re_streams := re_streams r; re_now := re_now r; re_faults := fs |};
|}.

Definition put_wire (n : StreamName) (x : Wire) (r : Redis) : Redis :=
  {| re_streams := λ n', match n, n' with
                         | StreamJobs, StreamJobs | StreamSegments, StreamSegments => x
                         | _, _ => re_streams r n'
                         end;
     re_now := re_now r; re_faults := re_faults r |}.

Definition QM (A : Type) : Type := ST Redis A.

(** ** The commands *)

Definition with_group (g : option Group) (x : Wire) : Wire :=
  {| wi_messages := wi_messages x; wi_next := wi_next x; wi_group := g |}.

Definition no_group : gerr := ENew "NOGROUP No such key or consumer group".
Definition busy_group : gerr := ENew "BUSYGROUP Consumer Group name already exists".

(** [XGROUP CREATE stream group 0 MKSTREAM]. *)
Definition XGroupCreateMkStream (n : StreamName) : QM () := port (λ r,
  match wi_group (re_streams r n) with
  | Some _ => (Err busy_group, r)
  | None => (Ok (), put_wire n (with_group (Some {| gr_last := 0; gr_pending := ∅ |}) (re_streams r n)) r)
  end).

Definition XAdd (n : StreamName) (values : gmap string value) : QM () := port (λ r,
  let x := re_streams r n in
  (Ok (), put_wire n {| wi_messages := wi_messages x ++ [{| xm_ID := wi_next x; xm_Values := values |}];
                        wi_next := wi_next x + 1; wi_group := wi_group x |} r)).

(** The messages are delivered at [now]. *)
Definition delivered (now : Z) (l : list XMessage) (p : gmap Z Z) : gmap Z Z :=
  foldl (λ m e, <[xm_ID e := now]> m) p l.

(** [XREADGROUP GROUP group consumer COUNT count STREAMS stream >]; nothing
    waiting is no message. *)
Definition XReadGroup (n : StreamName) (count : Z) : QM (list XMessage) := port (λ r,
  let x := re_streams r n in
  match wi_group x with
  | None => (Err no_group, r)
  | Some g =>
      let fresh := take (Z.to_nat count) (List.filter (λ e, gr_last g <? xm_ID e) (wi_messages x)) in
      (Ok fresh, put_wire n (with_group (Some {|
         gr_last := foldl (λ m e, Z.max m (xm_ID e)) (gr_last g) fresh;
         gr_pending := delivered (re_now r) fresh (gr_pending g) |}) x) r)
  end).

(** [XAUTOCLAIM stream group consumer idle 0-0 COUNT count]. *)
Definition XAutoClaim (n : StreamName) (idle count : Z) : QM (list XMessage) := port (λ r,
  let x := re_streams r n in
  match wi_group x with
  | None => (Err no_group, r)
  | Some g =>
      let stale := take (Z.to_nat count)
        (List.filter (λ e, match gr_pending g !! xm_ID e with
                           | Some t => idle <=? re_now r - t
                           | None => false
                           end) (wi_messages x)) in
      (Ok stale, put_wire n (with_group (Some {|
         gr_last := gr_last g; gr_pending := delivered (re_now r) stale (gr_pending g) |}) x) r)
  end).

(** [XACK]: no error without a group. *)
Definition XAck (n : StreamName) (id : Z) : QM () := port (λ r,
  let x := re_streams r n in
  (Ok (), match wi_group x with
          | None => r
          | Some g => put_wire n (with_group (Some {| gr_last := gr_last g; gr_pending := delete id (gr_pending g) |}) x) r
          end)).

(** ** [jobqueue.go] *)

Definition isBusyGroup (e : gerr) : bool := String.eqb (Error_String e) "BUSYGROUP Consumer Group name already exists".

Fixpoint ensure_each (l : list StreamName) : QM () :=
  match l with
  | [] => sret ()
  | n :: l =>
      try r := XGroupCreateMkStream n in
      match r with
      | Ok _ => ensure_each l
      | Err e => if isBusyGroup e then ensure_each l else sfail (wrapf ("create group on " +:+ stream_key n +:+ ": ") e)
      end
  end.

Definition EnsureGroups : QM () := ensure_each [StreamJobs; StreamSegments].

Definition add (n : StreamName) (values : gmap string value) : QM () :=
  swrap ("enqueue on " +:+ stream_key n +:+ ": ") (XAdd n values).

(** A UUID is its text; go-redis writes a number as its digits. *)
Definition job_values (jobID : string) : gmap string value := {[ "job_id"%string := VString jobID ]}.
Definition segment_values (jobID : string) (seq : Z) : gmap string value :=
  <["seq"%string := VString (Itoa seq)]> (job_values jobID).

Definition Enqueue (jobID : string) : QM () := add StreamJobs (job_values jobID).
Definition EnqueueSegment (jobID : string) (seq : Z) : QM () := add StreamSegments (segment_values jobID seq).

Definition Ack (n : StreamName) (id : Z) : QM () :=
  swrap ("ack " +:+ Itoa id +:+ " on " +:+ stream_key n +:+ ": ") (XAck n id).

(** [fmt.Sscanf(v, "%d", &parsed)] for an [int32]: white space, a sign, digits;
    what follows them is not looked at. *)
Fixpoint leading_digits (s : string) : string :=
  match s with
  | String c rest => if is_digit c then String c (leading_digits rest) else ""
  | "" => ""
  end%string.

Definition scan_token (s : string) : string :=
  match s with
  | String c rest => if ((byte_val c =? 43) || (byte_val c =? 45))%Z then String c (leading_digits rest) else leading_digits s
  | "" => ""
  end%string.

Fixpoint skip_space (s : string) : option string :=
  match s with
  | String c rest =>
      if (byte_val c =? 10)%Z then None
      else if (in_range 9 13 (byte_val c) || (byte_val c =? 32))%Z then skip_space rest else Some s
  | "" => Some s
  end%string.

Definition Sscanf_d (s : string) : option Z :=
  match skip_space s with
  | None => None
  | Some s =>
      match ParseInt (scan_token s) 64 with
      | Some z => if in_range MinInt32 MaxInt32 z then Some z else None
      | None => None
      end
  end.

Definition toInt32 (v : value) : option Z :=
  match v with
  | VString s => Sscanf_d s
  | VInt64 n => if (MaxInt32 <? n) || (n <? MinInt32) then None else Some (int32 n)
  | VOther => None
  end.

Section queue.
(** [uuid.Parse], to the canonical text. *)
Variable parse_uuid : string → option string.

Definition toEntry (n : StreamName) (m : XMessage) : option QueueEntry :=
  match xm_Values m !! "job_id"%string with
  | Some (VString raw) =>
      match parse_uuid raw with
      | None => None
      | Some jobID =>
          let seq := match xm_Values m !! "seq"%string with
                     | Some v => default 0 (toInt32 v)
                     | None => 0
                     end in
          Some {| qe_ID := xm_ID m; qe_JobID := jobID; qe_Seq := seq; qe_Stream := n |}
      end
  | _ => None
  end.

(** The entries of the messages read; one that is none is acknowledged. *)
Fixpoint sort_out (n : StreamName) (l : list XMessage) : QM (list QueueEntry) :=
  match l with
  | [] => sret []
  | m :: l =>
      match toEntry n m with
      | None => try _ := Ack n (xm_ID m) in sort_out n l
      | Some e => let* entries := sort_out n l in sret (e :: entries)
      end
  end.

Definition claim (n : StreamName) (count : Z) : QM (list QueueEntry) :=
  let* messages := swrap ("read group on " +:+ stream_key n +:+ ": ") (XReadGroup n count) in
  sort_out n messages.

Definition claimStale (n : StreamName) (idle count : Z) : QM (list QueueEntry) :=
  let* messages := swrap ("autoclaim on " +:+ stream_key n +:+ ": ") (XAutoClaim n idle count) in
  sret (omap (toEntry n) messages).
End queue.

(** ** Lemmas *)

Lemma leading_digits_all s : (∀ c, str_has c s = true → is_digit c = true) → leading_digits s = s.
Proof.
  induction s as [|c s IH]; intros Hs; [done|]. cbn. rewrite (Hs c) by (cbn; by rewrite bool_decide_eq_true_2).
  f_equal. apply IH. intros c' Hc. apply Hs. cbn. by rewrite Hc, orb_true_r.
Qed.

Lemma digits_first s : s ≠ "" → (∀ c, str_has c s = true → is_digit c = true) →
  skip_space s = Some s ∧ scan_token s = s.
Proof.
  intros Hne Hs. destruct s as [|c s]; [done|].
  assert (is_digit c = true) as Hd by (apply Hs; cbn; by rewrite bool_decide_eq_true_2).
  pose proof (leading_digits_all _ Hs) as Hall. unfold is_digit, in_range in Hd. apply andb_true_iff in Hd as [H1 H2]. zbool.
  cbn [skip_space scan_token]. unfold in_range. rewrite (proj2 (Z.eqb_neq (byte_val c) 10)), (proj2 (Z.eqb_neq (byte_val c) 32)),
    (proj2 (Z.eqb_neq (byte_val c) 43)), (proj2 (Z.eqb_neq (byte_val c) 45)), (proj2 (Z.leb_gt (byte_val c) 13)), andb_false_r by lia.
  by split.
Qed.

Lemma pretty_pos_digits p c : str_has c (pretty (Z.pos p)) = true → is_digit c = true.
Proof. apply (pretty_N_go_all (λ c, is_digit c = true) (N.pos p) ""); [|done]. intros y Hy. by apply is_digit_char. Qed.

Lemma Itoa_token z : skip_space (Itoa z) = Some (Itoa z) ∧ scan_token (Itoa z) = Itoa z.
Proof.
  unfold Itoa. destruct z as [|p|p]; [done| |].
  - apply digits_first; [apply (pretty_N_go_nonempty (N.pos p)); lia|]. intros c. apply pretty_pos_digits.
  - change (pretty (Z.neg p)) with (String (byte_of 45) (pretty (Z.pos p))). split; [done|].
    cbn [scan_token]. change (byte_val (byte_of 45)) with 45. cbn. f_equal. apply leading_digits_all. apply pretty_pos_digits.
Qed.

(** A number written is read back. *)
Lemma Sscanf_Itoa z : in_int32 z → Sscanf_d (Itoa z) = Some z.
Proof.
  intros Hz. unfold Sscanf_d. destruct (Itoa_token z) as [-> ->]. unfold in_int32, MinInt32, MaxInt32 in *.
  rewrite ParseInt_Itoa by (cbn; lia). unfold in_range. rewrite !(proj2 (Z.leb_le _ _)) by lia. done.
Qed.

Section refinement.
Variable parse_uuid : string → option string.
Local Abbreviation toEntry := (toEntry parse_uuid).

(** A message that is read back as an entry. *)
Definition shows_entry (n : StreamName) (m : XMessage) (e : Z * (string * Z)) : Prop :=
  toEntry n m = Some (to_entry n e).

Record shows_stream (n : StreamName) (x : Wire) (st : stream) : Prop := {
  ss_messages : Forall2 (shows_entry n) (wi_messages x) (st_entries st);
  ss_next : wi_next x = st_next st;
  ss_group : wi_group x = Some {| gr_last := st_last st; gr_pending := st_pending st |};
}.

Record shows (r : Redis) (w : JobWorld) : Prop := {
  sh_streams n : shows_stream n (re_streams r n) (jw_streams w n);
  sh_now : re_now r = jw_now w;
  sh_faults : re_faults r = jw_faults w;
}.

#[export] Instance shows_blind : FaultBlind shows.
Proof. split; [by intros r w []|]. intros r w fs []. by split. Qed.

Abbreviation relates := (Refine.relates (R := shows)).

Lemma shows_put r w n x st : shows r w → shows_stream n x st → shows (put_wire n x r) (set_stream n st w).
Proof. intros [Hs Hn Hf] Hx. split; [|done..]. intros k. specialize (Hs k). by destruct n, k. Qed.

Lemma shows_entry_ID n m e : shows_entry n m e → xm_ID m = e.1.
Proof.
  unfold shows_entry, JobWire.toEntry. destruct (xm_Values m !! _) as [[raw| |]|]; try done.
  destruct (parse_uuid raw); [|done]. by intros [= -> _ _].
Qed.

Lemma Forall2_filter_both {A B} (P : A → B → Prop) f g l k :
  (∀ x y, P x y → f x = g y) → Forall2 P l k → Forall2 P (List.filter f l) (List.filter g k).
Proof.
  intros Hfg. induction 1 as [|x y l k Hxy Hl IH]; [constructor|]. cbn. rewrite (Hfg x y Hxy).
  destruct (g y); [by constructor|done].
Qed.

Lemma foldl_both {A B C} (P : A → B → Prop) (f : C → A → C) (g : C → B → C) l k c :
  (∀ c x y, P x y → f c x = g c y) → Forall2 P l k → foldl f c l = foldl g c k.
Proof. intros Hfg Hl. revert c. induction Hl as [|x y l k Hxy Hl IH]; intros c; [done|]. cbn. by rewrite (Hfg c x y). Qed.

Lemma add_relates n values jobID seq :
  (∀ id, shows_entry n {| xm_ID := id; xm_Values := values |} (id, (jobID, seq))) →
  relates eq (add n values) (stream_add n jobID seq).
Proof.
  intros He. apply relates_wrap, relates_port. intros r w Hs. split; [done|]. apply shows_put; [done|].
  destruct (sh_streams _ _ Hs n) as [Hm Hn Hg]. split; cbn; [|by rewrite Hn|done].
  apply Forall2_app; [done|]. rewrite Hn. by constructor.
Qed.

Lemma Enqueue_relates jobID : parse_uuid jobID = Some jobID → relates eq (Enqueue jobID) (JobStore.Enqueue jobID).
Proof.
  intros Hid. apply add_relates. intros id. unfold shows_entry, JobWire.toEntry, job_values. cbn.
  rewrite lookup_singleton_eq, Hid. by rewrite lookup_singleton_ne.
Qed.

Lemma EnqueueSegment_relates jobID seq :
  parse_uuid jobID = Some jobID → in_int32 seq →
  relates eq (EnqueueSegment jobID seq) (JobStore.EnqueueSegment jobID seq).
Proof.
  intros Hid Hseq. apply add_relates. intros id. unfold shows_entry, JobWire.toEntry, segment_values, job_values. cbn.
  rewrite lookup_insert_ne, lookup_singleton_eq, Hid by done. rewrite lookup_insert_eq. cbn [toInt32].
  by rewrite Sscanf_Itoa.
Qed.

(** Messages that are entries are sorted out at no cost. *)
Lemma sort_out_shown n l es r :
  Forall2 (shows_entry n) l es → sort_out parse_uuid n l r = (Ok (to_entry n <$> es), r).
Proof. induction 1 as [|m e l es Hm Hl IH]; [done|]. cbn. rewrite Hm. unfold sbind. by rewrite IH. Qed.

Lemma omap_shown n l es : Forall2 (shows_entry n) l es → omap (toEntry n) l = to_entry n <$> es.
Proof. induction 1 as [|m e l es Hm Hl IH]; [done|]. cbn. by rewrite Hm, IH. Qed.

(** A read, and what is made of its messages. *)
Lemma read_relates {A} n pre (m : QM (list XMessage)) (s : JM (list (Z * (string * Z)))) (k : list XMessage → QM A)
    (s' : JM A) f :
  relates (Forall2 (shows_entry n)) m s →
  (∀ l es r, Forall2 (shows_entry n) l es → k l r = (Ok (f es), r)) →
  (∀ w, s' w = match s w with (Ok es, w') => (Ok (f es), w') | (Err e, w') => (Err (wrapf pre e), w') end) →
  relates eq (sbind (swrap pre m) k) s'.
Proof.
  intros Hm Hk Hs r w Hrw. unfold sbind, swrap. rewrite Hs. destruct (Hm r w Hrw) as [Hr Hs'].
  destruct (m r) as [[l|e] r'], (s w) as [[es|e'] w']; cbn in Hr, Hs' |- *; try done.
  - rewrite (Hk l es r' Hr). by split.
  - by subst.
Qed.

Lemma delivered_both n now l es p :
  Forall2 (shows_entry n) l es → delivered now l p = foldl (λ m e, <[e.1 := now]> m) p es.
Proof. apply foldl_both. intros c m e Hm. by rewrite (shows_entry_ID _ _ _ Hm). Qed.

Lemma take_filter_both n f g l es k :
  (∀ m e, shows_entry n m e → f m = g e) → Forall2 (shows_entry n) l es →
  Forall2 (shows_entry n) (take k (List.filter f l)) (take k (List.filter g es)).
Proof. intros Hfg Hl. apply Forall2_take. by eapply Forall2_filter_both. Qed.

Lemma claim_relates n count : relates eq (claim parse_uuid n count) (JobStore.Claim n count).
Proof.
  eapply (read_relates n _ _ (port (λ w,
    let st := jw_streams w n in
    let fresh := take (Z.to_nat count) (List.filter (λ e, st_last st <? e.1) (st_entries st)) in
    (Ok fresh, set_stream n {| st_entries := st_entries st; st_next := st_next st;
       st_last := foldl (λ m e, Z.max m e.1) (st_last st) fresh;
       st_pending := foldl (λ m e, <[e.1 := jw_now w]> m) (st_pending st) fresh |} w)))).
  - apply relates_port. intros r w Hs. destruct (sh_streams _ _ Hs n) as [Hm Hn Hg]. cbv zeta. rewrite Hg.
    assert (Forall2 (shows_entry n)
      (take (Z.to_nat count) (List.filter (λ e, st_last (jw_streams w n) <? xm_ID e) (wi_messages (re_streams r n))))
      (take (Z.to_nat count) (List.filter (λ e, st_last (jw_streams w n) <? e.1) (st_entries (jw_streams w n))))) as Hf.
    { apply take_filter_both; [|done]. intros m e He. by rewrite (shows_entry_ID _ _ _ He). }
    split; [exact Hf|]. apply shows_put; [done|]. split; [done..|]. cbn.
    rewrite (delivered_both n _ _ _ _ Hf), (sh_now _ _ Hs). do 2 f_equal. apply (foldl_both (shows_entry n)); [|done].
    intros c m e He. by rewrite (shows_entry_ID _ _ _ He).
  - intros l es r Hl. by apply sort_out_shown.
  - intros w. unfold JobStore.Claim, swrap, port. by destruct (faults w) as [|[] rest].
Qed.

Lemma claimStale_relates n idle count : relates eq (claimStale parse_uuid n idle count) (JobStore.ClaimStale n idle count).
Proof.
  eapply (read_relates n _ _ (port (λ w,
    let st := jw_streams w n in
    let stale := take (Z.to_nat count)
      (List.filter (λ e, match st_pending st !! e.1 with Some t => idle <=? jw_now w - t | None => false end) (st_entries st)) in
    (Ok stale, set_stream n {| st_entries := st_entries st; st_next := st_next st; st_last := st_last st;
       st_pending := foldl (λ m e, <[e.1 := jw_now w]> m) (st_pending st) stale |} w)))).
  - apply relates_port. intros r w Hs. destruct (sh_streams _ _ Hs n) as [Hm Hn Hg]. cbv zeta. rewrite Hg. cbn [gr_pending gr_last].
    match goal with |- context [take (Z.to_nat count) (List.filter ?f (wi_messages _))] =>
      match goal with |- context [take (Z.to_nat count) (List.filter ?g (st_entries _))] =>
        assert (Forall2 (shows_entry n) (take (Z.to_nat count) (List.filter f (wi_messages (re_streams r n))))
          (take (Z.to_nat count) (List.filter g (st_entries (jw_streams w n))))) as Hf end end.
    { apply take_filter_both; [|done]. intros m e He. by rewrite (shows_entry_ID _ _ _ He), (sh_now _ _ Hs). }
    split; [exact Hf|]. apply shows_put; [done|]. split; [done..|]. cbn.
    by rewrite (delivered_both n _ _ _ _ Hf), (sh_now _ _ Hs).
  - intros l es r Hl. unfold sret. by rewrite (omap_shown n l es).
  - intros w. unfold JobStore.ClaimStale, swrap, port. by destruct (faults w) as [|[] rest].
Qed.

Lemma Ack_relates n id : relates eq (Ack n id) (JobStore.Ack n id).
Proof.
  apply relates_wrap, relates_port. intros r w Hs. destruct (sh_streams _ _ Hs n) as [Hm Hn Hg]. cbn. rewrite Hg.
  split; [done|]. by apply shows_put.
Qed.

(** A group that is there is left as it is. *)
Lemma EnsureGroups_shown r w : shows r w → re_faults r = [] → EnsureGroups r = (Ok (), r).
Proof.
  intros Hs Hf. pose proof (ss_group _ _ _ (sh_streams _ _ Hs StreamJobs)) as Hj.
  pose proof (ss_group _ _ _ (sh_streams _ _ Hs StreamSegments)) as Hg.
  unfold EnsureGroups, ensure_each, stry, XGroupCreateMkStream. rewrite port_answered by done. rewrite Hj. cbn.
  rewrite port_answered by done. by rewrite Hg.
Qed.
End refinement.

(** ** Messages that are no entries *)

Section stray.
Variable parse_uuid : string → option string.

(** What a claim leaves pending of the messages it read. *)
Definition forgotten (n : StreamName) (l : list XMessage) (p : gmap Z Z) : gmap Z Z :=
  foldl (λ p m, match toEntry parse_uuid n m with None => delete (xm_ID m) p | Some _ => p end) p l.

Lemma forgotten_lookup n l p id :
  forgotten n l p !! id =
  if existsb (λ m, (xm_ID m =? id) && bool_decide (toEntry parse_uuid n m = None)) l then None else p !! id.
Proof.
  unfold forgotten. revert p. induction l as [|m l IH]; intros p; [done|]. cbn. rewrite IH.
  destruct (existsb _ l); [by rewrite orb_true_r|]. rewrite orb_false_r.
  destruct (toEntry parse_uuid n m) as [e|].
  - by rewrite bool_decide_eq_false_2, andb_false_r by done.
  - rewrite bool_decide_eq_true_2, andb_true_r by done. destruct (Z.eqb_spec (xm_ID m) id) as [->|].
    + apply lookup_delete_eq.
    + by apply lookup_delete_ne.
Qed.

Lemma sort_out_run n l r g :
  re_faults r = [] → wi_group (re_streams r n) = Some g →
  ∃ r', sort_out parse_uuid n l r = (Ok (omap (toEntry parse_uuid n) l), r') ∧ re_faults r' = [] ∧
    wi_group (re_streams r' n) = Some {| gr_last := gr_last g; gr_pending := forgotten n l (gr_pending g) |}.
Proof.
  revert r g. induction l as [|m l IH]; intros r g Hf Hg; cbn [sort_out].
  - exists r. by destruct g.
  - cbn [omap list_omap forgotten foldl]. destruct (toEntry parse_uuid n m) as [e|].
    + unfold sbind. destruct (IH r g Hf Hg) as (r' & -> & Hr'). by exists r'.
    + unfold stry, Ack, swrap, XAck. rewrite port_answered by done. cbv zeta. rewrite Hg. cbn.
      destruct (IH (put_wire n (with_group (Some {| gr_last := gr_last g; gr_pending := delete (xm_ID m) (gr_pending g) |})
        (re_streams r n)) r) {| gr_last := gr_last g; gr_pending := delete (xm_ID m) (gr_pending g) |}) as (r' & -> & Hr');
        [done|by destruct n|]. by exists r'.
Qed.

Lemma delivered_lookup now l p id :
  delivered now l p !! id = if existsb (λ m, xm_ID m =? id) l then Some now else p !! id.
Proof.
  unfold delivered. revert p. induction l as [|m l IH]; intros p; [done|]. cbn. rewrite IH.
  destruct (existsb _ l); [by rewrite orb_true_r|]. rewrite orb_false_r. destruct (Z.eqb_spec (xm_ID m) id) as [->|].
  - apply lookup_insert_eq.
  - by apply lookup_insert_ne.
Qed.

(** What a claim and a claim of stale messages make of messages of any kind. *)
Lemma claim_sorts_out n count r g :
  re_faults r = [] → wi_group (re_streams r n) = Some g →
  let l := take (Z.to_nat count) (List.filter (λ m, gr_last g <? xm_ID m) (wi_messages (re_streams r n))) in
  ∃ r' g', claim parse_uuid n count r = (Ok (omap (toEntry parse_uuid n) l), r') ∧
    wi_group (re_streams r' n) = Some g' ∧
    ∀ m, m ∈ l → toEntry parse_uuid n m = None → gr_pending g' !! xm_ID m = None.
Proof.
  intros Hf Hg l. unfold claim, XReadGroup. unfold sbind at 1, swrap. rewrite port_answered by done. cbv zeta. rewrite Hg.
  cbn. fold l. destruct (sort_out_run n l (put_wire n (with_group (Some {|
     gr_last := foldl (λ m e, Z.max m (xm_ID e)) (gr_last g) l; gr_pending := delivered (re_now r) l (gr_pending g) |})
     (re_streams r n)) r) {| gr_last := foldl (λ m e, Z.max m (xm_ID e)) (gr_last g) l;
     gr_pending := delivered (re_now r) l (gr_pending g) |}) as (r' & -> & _ & Hg'); [done|by destruct n|].
  eexists r', _. split; [done|]. split; [exact Hg'|]. intros m Hm Hbad. cbn. rewrite forgotten_lookup.
  assert (existsb (λ m', (xm_ID m' =? xm_ID m) && bool_decide (toEntry parse_uuid n m' = None)) l = true) as ->; [|done].
  apply existsb_exists. exists m. split; [by apply list_elem_of_In|]. by rewrite Z.eqb_refl, bool_decide_eq_true_2.
Qed.

Lemma claimStale_keeps n idle count r g :
  re_faults r = [] → wi_group (re_streams r n) = Some g →
  ∃ es r' g', claimStale parse_uuid n idle count r = (Ok es, r') ∧ wi_group (re_streams r' n) = Some g' ∧
    ∀ id, is_Some (gr_pending g !! id) → is_Some (gr_pending g' !! id).
Proof.
  intros Hf Hg. unfold claimStale, XAutoClaim, sbind, swrap. rewrite port_answered by done. cbv zeta. rewrite Hg.
  eexists _, _, _. split; [done|]. split; [by destruct n|]. intros id Hid. cbn. rewrite delivered_lookup. by destruct (existsb _ _).
Qed.
End stray.

(** ** Properties *)

#[local] Abbreviation refines parse := (Refine.refines (R := shows parse)).

(** C16. The queue keeps its contract on Redis's messages. Where the messages on
    the streams are read back as entries, and the groups are there, each
    operation answers what the one of the same name answers on entries, whatever
    becomes of its call, and leaves messages read back as that one leaves; what
    is enqueued is read back, for a job id [uuid.Parse] takes and a 32-bit
    segment number. A message that is no entry is passed over by a claim and
    acknowledged. *)
Theorem jobqueue_refines (parse_uuid : string → option string) :
  (∀ id, parse_uuid id = Some id → refines parse_uuid (Enqueue id) (JobStore.Enqueue id)) ∧
  (∀ id seq, parse_uuid id = Some id → in_int32 seq →
     refines parse_uuid (EnqueueSegment id seq) (JobStore.EnqueueSegment id seq)) ∧
  (∀ n count, refines parse_uuid (claim parse_uuid n count) (JobStore.Claim n count)) ∧
  (∀ n idle count, refines parse_uuid (claimStale parse_uuid n idle count) (JobStore.ClaimStale n idle count)) ∧
  (∀ n id, refines parse_uuid (Ack n id) (JobStore.Ack n id)) ∧
  (∀ n count r g, re_faults r = [] → wi_group (re_streams r n) = Some g →
     let l := take (Z.to_nat count) (List.filter (λ m, gr_last g <? xm_ID m) (wi_messages (re_streams r n))) in
     ∃ r' g', claim parse_uuid n count r = (Ok (omap (toEntry parse_uuid n) l), r') ∧
       wi_group (re_streams r' n) = Some g' ∧
       ∀ m, m ∈ l → toEntry parse_uuid n m = None → gr_pending g' !! xm_ID m = None).
Proof.
  split_and!; intros; [apply relates_refines..|].
  - by apply Enqueue_relates.
  - by apply EnqueueSegment_relates.
  - apply claim_relates.
  - apply claimStale_relates.
  - apply Ack_relates.
  - by apply claim_sorts_out.
Qed.

(** Two messages, one by another hand, on streams whose groups were created. *)
Definition demo_parse (s : string) : option string := if String.eqb s "j" then Some s else None.
Definition empty_redis : Redis :=
  {| re_streams _ := {| wi_messages := []; wi_next := 1; wi_group := None |}; re_now := 7; re_faults := [] |}.
Definition demo_redis : Redis :=
  (add StreamSegments {[ "job"%string := VString "j" ]} (EnqueueSegment "j" (-12) (EnsureGroups empty_redis).2).2).2.

Example demo_claim :
  let (r, s) := claim demo_parse StreamSegments 16 demo_redis in
  (r, map_to_list <$> (gr_pending <$> wi_group (re_streams s StreamSegments)))
  = (Ok [{| qe_ID := 1; qe_JobID := "j"; qe_Seq := -12; qe_Stream := StreamSegments |}], Some [(1, 7)]).
Proof. by vm_compute. Qed.

(** A segment number that cannot be read is taken for segment 0. *)
Example bad_number_is_zero :
  toEntry demo_parse StreamSegments
    {| xm_ID := 1; xm_Values := <["seq"%string := VString "twelve"]> (job_values "j") |}
  = Some {| qe_ID := 1; qe_JobID := "j"; qe_Seq := 0; qe_Stream := StreamSegments |}.
Proof. by vm_compute. Qed.

Lemma jobqueue_refines_witness :
  (EnqueueSegment "j" (-12) (EnsureGroups empty_redis).2).1 =
    (JobStore.EnqueueSegment "j" (-12)
       {| jw_jobs := ∅; jw_segs := ∅; jw_objects := ∅; jw_streams _ := empty_stream; jw_now := 7; jw_faults := [] |}).1 ∧
  shows demo_parse (EnqueueSegment "j" (-12) (EnsureGroups empty_redis).2).2
    (JobStore.EnqueueSegment "j" (-12)
       {| jw_jobs := ∅; jw_segs := ∅; jw_objects := ∅; jw_streams _ := empty_stream; jw_now := 7; jw_faults := [] |}).2.
Proof.
  apply (proj1 (proj2 (jobqueue_refines demo_parse)) "j"%string (-12)); [done|by vm_compute|].
  split; [|done..]. intros [|]; split; (done || constructor).
Defined.
