(* ===== verification/Orchestrator.v ===== *)
(** * The job orchestrator

    [internal/jobs/orchestrator.go], over the store of [JobStore]. The engine
    (what asks the workers to split, synthesize and merge) and the notifier are
    interfaces: any operations on the world. A handler is a sequence of store
    calls, each of which may be refused or lose its answer, and returns at the
    first error it does not handle. *)

From stdpp Require Import base gmap strings pretty numbers list.
From S2P Require Import Prelude GoString Cache Jobs JobStore.

Definition MaxSegmentAttempts : Z := 3.
Definition ReconcileInterval : Z := 60 * Second.
Definition StuckAfter : Z := 2 * Minute.
Definition claimBatch : Z := 16.
Definition SegmentBackoff : list Z := [5 * Second; 30 * Second; 120 * Second].

Record SegmentResult : Type := { sr_S3Key : string; sr_DurationMS : Z; sr_Cached : bool }.

(** The ports the state machine does not implement, and the digest. *)
Class Ports : Type := {
  sha256 : string → string;
  Split : Job → string → JM (list string);
  Synthesize : Job → Z → string → JM SegmentResult;
  Merge : Job → list string → JM (string * Z);
  JobFinished : option (Job → JM ());
}.

(** The rows of the job aggregate are as they were. *)
Definition rows_same (w w' : JobWorld) : Prop :=
  jw_jobs w' = jw_jobs w ∧ jw_segs w' = jw_segs w.

#[export] Instance rows_same_preorder : PreOrder rows_same.
Proof. split; [done|]. intros w1 w2 w3 [] []. split; congruence. Qed.

(** What the orchestrator relies on: the engine and the notifier do not write
    the job aggregate. *)
Class PortLaws `{Ports} : Prop := {
  Split_rows job text : moves rows_same (Split job text);
  Synthesize_rows job seq text : moves rows_same (Synthesize job seq text);
  Merge_rows job keys : moves rows_same (Merge job keys);
  JobFinished_rows f job : JobFinished = Some f → moves rows_same (f job);
}.

(** Waiting; an interrupted wait is the context's cancellation. *)
Definition sleep (d : Z) : JM () := port (λ w, (Ok (), pass_time d w)).

(** [time.Now()]. *)
Definition clock : JM Z := λ w, (Ok (jw_now w), w).

Section orchestrator.
Context `{Ports}.

(** ** Ending a job *)

Definition cleanUp (job : Job) : JM () :=
  try _ := DeleteText (TenantID job) (ID job) in sret ().

Definition notify (jobID : string) : JM () :=
  match JobFinished with
  | None => sret ()
  | Some f =>
      try r := ByID jobID in
      match r with
      | Err _ => sret ()
      | Ok job => try _ := f job in sret ()
      end
  end.

Definition failJob (job : Job) (reason : string) : JM () :=
  Fail (ID job) reason ;*
  cleanUp job ;*
  notify (ID job).

(** The keys to merge, or the first segment that is not ready. *)
Fixpoint merge_keys (segments : list Segment) : Z + list string :=
  match segments with
  | [] => inr []
  | s :: rest =>
      if negb (bool_decide (sg_Status s = SegmentDone)) || String.eqb (sg_S3Key s) ""
      then inl (sg_Seq s)
      else match merge_keys rest with
           | inl seq => inl seq
           | inr keys => inr (sg_S3Key s :: keys)
           end
  end.

Definition finish (job : Job) : JM () :=
  if Terminal (status job) then sret ()
  else
    let* moved := Transition (ID job) StatusSynthesizing StatusMerging in
    if negb moved && negb (bool_decide (status job = StatusMerging)) then sret ()
    else
      let* segments := Segments (ID job) in
      match merge_keys segments with
      | inl seq => failJob job ("segment " +:+ Itoa seq +:+ " is not ready to merge")
      | inr keys =>
          try r := Merge job keys in
          match r with
          | Err err => failJob job ("merge failed: " +:+ Error_String err)
          | Ok (outputKey, durationMS) =>
              let* _ := Complete (ID job) outputKey durationMS in
              cleanUp job ;*
              notify (ID job)
          end
      end.

(** ** Fanning out *)

(** Queue every segment that is not done; how many were. *)
Fixpoint enqueue_unfinished (jobID : string) (segments : list Segment) (queued : Z) : JM Z :=
  match segments with
  | [] => sret queued
  | s :: rest =>
      if bool_decide (sg_Status s = SegmentDone) then enqueue_unfinished jobID rest queued
      else
        swrap ("queue segment " +:+ Itoa (sg_Seq s) +:+ ": ") (EnqueueSegment jobID (sg_Seq s)) ;*
        enqueue_unfinished jobID rest (queued + 1)
  end.

Definition fanOut (job : Job) : JM () :=
  let* segments := Segments (ID job) in
  let* queued := enqueue_unfinished (ID job) segments 0 in
  if queued =? 0 then finish job else sret ().

(** Load the job a stream entry names; [None] when its row is gone. *)
Definition load (jobID : string) : JM (option Job) :=
  try r := ByID jobID in
  match r with
  | Err err => if errors_Is err ErrNotFound then sret None else sfail (wrapf "load job: " err)
  | Ok job => sret (Some job)
  end.

Fixpoint record_segments (job : Job) (seq : Z) (segments : list string) : JM () :=
  match segments with
  | [] => sret ()
  | text :: rest =>
      swrap ("record segment " +:+ Itoa seq +:+ ": ")
        (CreateSegment (ID job) (int32 seq) (segmentHash sha256 job text) (runeCount text)) ;*
      record_segments job (seq + 1) rest
  end.

(** What [handleJob] does once the job is in segmenting. *)
Definition segment_job (job : Job) : JM () :=
  try r := GetText (TenantID job) (ID job) in
  match r with
  | Err err => failJob job ("input text unavailable: " +:+ Error_String err)
  | Ok text =>
      try r := Split job text in
      match r with
      | Err err => failJob job ("segmentation failed: " +:+ Error_String err)
      | Ok segments =>
          let n := Z.of_nat (length segments) in
          if n =? 0 then failJob job "segmentation produced nothing"
          else if MaxTextChars <? n then
            failJob job ("segmentation produced " +:+ Itoa n +:+ " segments")
          else
            record_segments job 0 segments ;*
            let* _ := SetSegmentsTotal (ID job) (int32 n) in
            let* refreshed := swrap "reload job: " (ByID (ID job)) in
            fanOut refreshed
      end
  end.

Definition handleJob (entry : QueueEntry) : JM () :=
  let* found := load (qe_JobID entry) in
  match found with
  | None => sret ()
  | Some job =>
      if Terminal (status job) then sret ()
      else if bool_decide (status job = StatusSynthesizing) || bool_decide (status job = StatusMerging)
      then fanOut job
      else if bool_decide (status job = StatusSegmenting) then segment_job job
      else
        let* moved := Transition (ID job) StatusQueued StatusSegmenting in
        if negb moved then sret () else segment_job job
  end.

(** ** One segment *)

Definition retryOrFail (job : Job) (segment : Segment) (reason : string) : JM () :=
  FailSegment (ID job) (sg_Seq segment) reason ;*
  if MaxSegmentAttempts <=? sg_Attempts segment then
    failJob job ("segment " +:+ Itoa (sg_Seq segment) +:+ " failed after "
                   +:+ Itoa (sg_Attempts segment) +:+ " attempts: " +:+ reason)
  else
    let i := Z.min (sg_Attempts segment - 1) (Z.of_nat (length SegmentBackoff) - 1) in
    let backoff := default 0 (SegmentBackoff !! Z.to_nat i) in
    try r := sleep backoff in
    match r with
    | Err _ => sret ()
    | Ok _ => EnqueueSegment (ID job) (sg_Seq segment)
    end.

(** What [handleSegment] does with the segment it has claimed. *)
Definition run_segment (job : Job) (seq : Z) : JM () :=
  let* segments := Segments (ID job) in
  match findSegment segments seq with
  | None => sfail (ENew ("segment " +:+ Itoa seq +:+ " of job " +:+ ID job +:+ " is missing"))
  | Some current =>
      try r := GetText (TenantID job) (ID job) in
      match r with
      | Err err => retryOrFail job current ("input text unavailable: " +:+ Error_String err)
      | Ok text =>
          try r := Split job text in
          match (match r with Ok pieces => pieces !! Z.to_nat seq | Err _ => None end) with
          | None => retryOrFail job current "segment text could not be recovered"
          | Some piece =>
              try r := Synthesize job seq piece in
              match r with
              | Err err => retryOrFail job current (Error_String err)
              | Ok result =>
                  CompleteSegment (ID job) seq (sr_S3Key result) ;*
                  let* remaining := UnfinishedSegments (ID job) in
                  if 0 <? remaining then sret ()
                  else
                    let* refreshed := swrap "reload job: " (ByID (ID job)) in
                    finish refreshed
              end
          end
      end
  end.

Definition handleSegment (entry : QueueEntry) : JM () :=
  let* found := load (qe_JobID entry) in
  match found with
  | None => sret ()
  | Some job =>
      if Terminal (status job) then sret ()
      else
        let* claimed := ClaimSegment (ID job) (qe_Seq entry) in
        if claimed then run_segment job (qe_Seq entry) else sret ()
  end.

(** ** The loops *)

Definition handle (n : StreamName) : QueueEntry → JM () :=
  match n with StreamJobs => handleJob | StreamSegments => handleSegment end.

(** Handle claimed entries, acknowledging each whatever became of it. *)
Fixpoint process (n : StreamName) (entries : list QueueEntry) : JM () :=
  match entries with
  | [] => sret ()
  | e :: rest =>
      try _ := handle n e in
      try _ := Ack n (qe_ID e) in
      process n rest
  end.

(** One turn of [consume]. *)
Definition consume_once (n : StreamName) : JM () :=
  try r := Claim n claimBatch in
  match r with
  | Err _ => try _ := sleep Second in sret ()
  | Ok entries => process n entries
  end.

Fixpoint requeue (stuck : list Job) : JM () :=
  match stuck with
  | [] => sret ()
  | job :: rest => swrap ("requeue job " +:+ ID job +:+ ": ") (Enqueue (ID job)) ;* requeue rest
  end.

Definition recover (n : StreamName) : JM () :=
  let* entries := swrap ("claim stale on " +:+ stream_key n +:+ ": ")
                    (ClaimStale n (5 * Minute) claimBatch) in
  process n entries.

Definition ReconcileOnce : JM () :=
  let* now := clock in
  let* stuck := swrap "find stuck jobs: " (Stuck (now - StuckAfter) 100) in
  requeue stuck ;*
  recover StreamJobs ;*
  recover StreamSegments.
End orchestrator.

(** ** Lemmas: every handler evolves the jobs *)

Lemma sleep_evolves d : moves evolves (sleep d).
Proof. by apply evolves_port_same. Qed.

(** Walk a handler call by call. *)
Ltac moving :=
  repeat first
    [ solve [eauto 2 with gateway]
    | match goal with
      | |- moves _ (sret _) => apply moves_ret; apply _
      | |- moves _ (sfail _) => apply moves_fail; apply _
      | |- moves _ (sbind _ _) => apply moves_bind; [apply _| |intros ?]
      | |- moves _ (stry _ _) => apply moves_try; [apply _| |intros ?]
      | |- moves _ (swrap _ _) => apply moves_wrap
      | |- moves _ (match _ with _ => _ end) => case_match
      end ].

#[export] Hint Resolve sleep_evolves : gateway.

Lemma rows_same_evolves {A} (m : JM A) : moves rows_same m → moves evolves m.
Proof. intros Hm w. apply evolves_same, Hm. Qed.

Section evolve.
Context `{PortLaws}.

Lemma Split_evolves job text : moves evolves (Split job text).
Proof. apply rows_same_evolves, Split_rows. Qed.

Lemma Synthesize_evolves job seq text : moves evolves (Synthesize job seq text).
Proof. apply rows_same_evolves, Synthesize_rows. Qed.

Lemma Merge_evolves job keys : moves evolves (Merge job keys).
Proof. apply rows_same_evolves, Merge_rows. Qed.

Lemma JobFinished_evolves f job : JobFinished = Some f → moves evolves (f job).
Proof. intros Hf. by apply rows_same_evolves, JobFinished_rows. Qed.

Lemma cleanUp_evolves job : moves evolves (cleanUp job).
Proof. unfold cleanUp. moving. Qed.

Lemma notify_evolves id : moves evolves (notify id).
Proof.
  unfold notify. destruct JobFinished eqn:Hf; [|moving].
  moving. by apply JobFinished_evolves.
Qed.

Lemma failJob_evolves job reason : moves evolves (failJob job reason).
Proof. unfold failJob. moving; auto using cleanUp_evolves, notify_evolves. Qed.

Lemma finish_evolves job : moves evolves (finish job).
Proof.
  unfold finish. moving; auto using failJob_evolves, cleanUp_evolves, notify_evolves, Merge_evolves.
  apply Transition_evolves. constructor.
Qed.

Lemma enqueue_unfinished_evolves id segs n : moves evolves (enqueue_unfinished id segs n).
Proof. revert n. induction segs as [|s segs IH]; intros n; simpl; moving. Qed.

Lemma fanOut_evolves job : moves evolves (fanOut job).
Proof. unfold fanOut. moving; auto using finish_evolves, enqueue_unfinished_evolves. Qed.

Lemma load_evolves id : moves evolves (load id).
Proof. unfold load. moving. Qed.

Lemma record_segments_evolves job seq l : moves evolves (record_segments job seq l).
Proof. revert seq. induction l as [|t l IH]; intros seq; simpl; moving. Qed.

Lemma segment_job_evolves job : moves evolves (segment_job job).
Proof.
  unfold segment_job. moving;
    auto using failJob_evolves, fanOut_evolves, record_segments_evolves, Split_evolves, one_row_evolves.
Qed.

Lemma handleJob_evolves e : moves evolves (handleJob e).
Proof.
  unfold handleJob. moving; auto using load_evolves, fanOut_evolves, segment_job_evolves.
  apply Transition_evolves. constructor.
Qed.

Lemma retryOrFail_evolves job s reason : moves evolves (retryOrFail job s reason).
Proof. unfold retryOrFail. moving; auto using failJob_evolves, EnqueueSegment_evolves with gateway. Qed.

Lemma run_segment_evolves job seq : moves evolves (run_segment job seq).
Proof.
  unfold run_segment. moving;
    auto using retryOrFail_evolves, finish_evolves, Split_evolves, Synthesize_evolves, one_row_evolves.
Qed.

Lemma handleSegment_evolves e : moves evolves (handleSegment e).
Proof. unfold handleSegment. moving; auto using load_evolves, run_segment_evolves. Qed.

Lemma process_evolves n l : moves evolves (process n l).
Proof.
  induction l as [|e l IH]; simpl; moving. destruct n; [apply handleJob_evolves|apply handleSegment_evolves].
Qed.

Lemma consume_once_evolves n : moves evolves (consume_once n).
Proof. unfold consume_once. moving; auto using process_evolves. Qed.

Lemma requeue_evolves l : moves evolves (requeue l).
Proof. induction l as [|j l IH]; simpl; moving. Qed.

Lemma recover_evolves n : moves evolves (recover n).
Proof. unfold recover. moving. apply process_evolves. Qed.

Lemma clock_evolves : moves evolves clock.
Proof. by intros w. Qed.

Lemma ReconcileOnce_evolves : moves evolves ReconcileOnce.
Proof. unfold ReconcileOnce. moving; auto using clock_evolves, requeue_evolves, recover_evolves. Qed.
End evolve.

(** ** Everything that acts on jobs *)

(** One action of any process: a turn of either consumer, a reconcile, a
    tenant's cancel or a job row created, or time passing; [fs] is what will
    happen to the action's calls. *)
Inductive act `{Ports} : JobWorld → JobWorld → Prop :=
| act_consume n fs w : act w (consume_once n (set_faults fs w)).2
| act_reconcile fs w : act w (ReconcileOnce (set_faults fs w)).2
| act_cancel tid id fs w : act w (Cancel tid id (set_faults fs w)).2
| act_create job fs w : act w (Create job (set_faults fs w)).2
| act_time dt w : 0 ≤ dt → act w (pass_time dt w).

Lemma act_evolves `{PortLaws} w w' : act w w' → evolves w w'.
Proof.
  intros [n fs w1|fs w1|tid id fs w1|job fs w1|dt w1 _];
    try (etrans; [apply (evolves_faults fs)|]).
  - apply consume_once_evolves.
  - apply ReconcileOnce_evolves.
  - apply Cancel_evolves.
  - apply Create_evolves.
  - by apply evolves_same.
Qed.

(** ** A small engine, for concrete runs: a text is cut at white space *)

Definition demo_ports : Ports := {|
  sha256 _ := "0123456789abcdef0123456789abcdef";
  Split _ text := sret (Fields text);
  Synthesize job seq text :=
    let* key := PutSegment (TenantID job) (ID job) seq text in
    sret {| sr_S3Key := key; sr_DurationMS := 40; sr_Cached := false |};
  Merge job keys :=
    object_put (OutputKey (TenantID job) (ID job) (Format job)) "audio" ;*
    sret (OutputKey (TenantID job) (ID job) (Format job), 40 * Z.of_nat (length keys));
  JobFinished := None;
|}.

Lemma rows_same_port {A} (op : JM A) : moves rows_same op → moves rows_same (port op).
Proof. apply moves_port; [apply _|done]. Qed.

#[export] Instance demo_laws : @PortLaws demo_ports.
Proof.
  assert (∀ key body, moves rows_same (object_put key body)) as Hput.
  { intros key body. by apply moves_wrap, rows_same_port. }
  split.
  - intros job text. apply moves_ret, _.
  - intros job seq text. apply moves_bind; [apply _| |intros; apply moves_ret, _].
    apply moves_bind; [apply _| |intros; apply moves_ret, _]. apply moves_wrap, Hput.
  - intros job keys. apply moves_bind; [apply _|apply Hput|intros; apply moves_ret, _].
  - done.
Qed.

Definition demo_job : Job := inserted 1000 {|
  ID := "j"; TenantID := "t"; KeyID := "k"; IdempotencyKey := "once"; status := StatusQueued;
  VoiceID := "vi-1"; Format := "mp3"; SampleRate := 48000; Normalize := true;
  params := rq_Params (demo_request ""); TotalChars := 12; SegmentsTotal := None;
  SegmentsDone := 0; OutputS3Key := ""; DurationMS := None; WebhookURL := ""; Metadata := ∅;
  Error := ""; CreatedAt := 0; UpdatedAt := 0; CompletedAt := None |}.

Definition demo_world (fs : list fault) : JobWorld := {|
  jw_jobs := {[ "j"%string := demo_job ]}; jw_segs := ∅;
  jw_objects := {[ InputKey "t" "j" := "mot hai ba"%string ]};
  jw_streams n := match n with
    | StreamJobs => {| st_entries := [(1, ("j"%string, 0))]; st_next := 2; st_last := 0;
                       st_pending := ∅ |}
    | StreamSegments => empty_stream
    end;
  jw_now := 2000; jw_faults := fs |}.

(** Two turns of the consumers complete the job. *)
Example demo_run :
  option_map (λ j, (status j, SegmentsDone j, DurationMS j, OutputS3Key j))
    (jw_jobs (consume_once (H := demo_ports) StreamSegments
       (consume_once (H := demo_ports) StreamJobs (demo_world [])).2).2 !! "j"%string)
  = Some (StatusCompleted, 3, Some 120, "jobs/t/j/output.mp3"%string).
Proof. vm_compute. reflexivity. Qed.

(** ** Properties *)


