(* ===== verification/JobRun.v ===== *)
(** * A job from where it was left to its end

    The orchestrator's handlers run end to end when every call is answered, for
    a job just submitted or one whose segments an earlier attempt has recorded or
    synthesized in part ([resumable]): the order and the number of deliveries of
    the segments' stream entries do not matter. [IdealPorts] is what is asked of
    the engine: that a split depends on the text and the normalisation only, and
    that segments and output land where [jobtexts.go] puts them. *)

From stdpp Require Import base gmap strings pretty numbers sorting list.
From S2P Require Import Prelude GoString Cache Jobs JobStore Orchestrator.

(** Every segment row is under its own key. *)
Definition rows_keyed (m : gmap (string * Z) Segment) : Prop :=
  ∀ id seq s, m !! (id, seq) = Some s → sg_JobID s = id ∧ sg_Seq s = seq.

Lemma job_segments_elem m id s :
  rows_keyed m → s ∈ job_segments m id ↔ m !! (id, sg_Seq s) = Some s.
Proof.
  intros Hk. unfold job_segments. rewrite order_by_elem.
  rewrite list_elem_of_In, List.filter_In, <-list_elem_of_In, list_elem_of_fmap, String.eqb_eq. split.
  - intros [([[k1 k2] s'] & -> & Hin) Hid]. simpl in *. apply elem_of_map_to_list in Hin.
    destruct (Hk _ _ _ Hin) as [<- <-]. by rewrite Hid in Hin.
  - intros Hs. split; [|by apply (Hk _ _ _ Hs)].
    exists ((id, sg_Seq s), s). split; [done|]. by apply elem_of_map_to_list.
Qed.

Lemma job_segments_sorted m id : rows_keyed m → StronglySorted (ascending sg_Seq) (job_segments m id).
Proof.
  intros Hk. unfold job_segments. apply (order_by_sorted sg_Seq).
  assert (∀ l, l ⊆+ map_to_list m → NoDup l →
    NoDup (sg_Seq <$> List.filter (λ s, String.eqb (sg_JobID s) id) (snd <$> l))) as H;
    [|apply H; [done|apply NoDup_map_to_list]].
  intros l Hsub. induction l as [|[[k1 k2] s] l IH]; intros Hnd; [constructor|].
  apply NoDup_cons in Hnd as [Hnin Hnd].
  assert (l ⊆+ map_to_list m) as Hsub' by (etrans; [by apply submseteq_cons|done]).
  assert (∀ x, x ∈ (k1, k2, s) :: l → m !! x.1 = Some x.2) as Hin.
  { intros [x1 x2] Hx. apply elem_of_map_to_list. by apply (elem_of_submseteq _ _ _ Hx). }
  cbn. destruct (String.eqb_spec (sg_JobID s) id) as [Hid|]; [|by apply IH].
  cbn. apply NoDup_cons. split; [|by apply IH].
  intros Hseq. apply Hnin. apply list_elem_of_fmap in Hseq as (s' & Hseq & Hs').
  apply list_elem_of_In, List.filter_In in Hs' as [Hs' Hid'].
  apply list_elem_of_In, list_elem_of_fmap in Hs' as ([[k1' k2'] s2] & -> & Hl).
  apply String.eqb_eq in Hid'. simpl in *.
  pose proof (Hin (k1, k2, s) ltac:(by left)) as Hm1. pose proof (Hin (k1', k2', s2) ltac:(by right)) as Hm2.
  simpl in Hm1, Hm2, Hseq, Hid'. destruct (Hk _ _ _ Hm1) as [E1 E2]. destruct (Hk _ _ _ Hm2) as [E3 E4].
  assert (k1' = k1 ∧ k2' = k2) as [-> ->] by (split; congruence).
  assert (s2 = s) as -> by congruence. done.
Qed.

(** The rows of a job whose segments are 0 to [n-1]. *)
Lemma job_segments_eq m id n (f : Z → Segment) :
  rows_keyed m → 0 ≤ n →
  (∀ i, 0 ≤ i < n → m !! (id, i) = Some (f i)) →
  (∀ i, ¬ 0 ≤ i < n → m !! (id, i) = None) →
  job_segments m id = f <$> seqZ 0 n.
Proof.
  intros Hk Hn Hin Hout.
  assert (∀ i, 0 ≤ i < n → sg_Seq (f i) = i) as Hseq by (intros i Hi; by apply (Hk id i), Hin).
  apply (ascending_ext sg_Seq).
  - by apply job_segments_sorted.
  - assert (∀ k, 0 ≤ k → StronglySorted (ascending sg_Seq) (f <$> seqZ (n - k) k) ∨ n < k) as Hs.
    { apply natlike_ind; [left; constructor|]. intros k Hk0 [IH|?]; [|right; lia].
      destruct (Z.le_gt_cases (Z.succ k) n); [left|right; lia].
      rewrite seqZ_cons by lia. rewrite fmap_cons.
      replace (Z.succ (n - Z.succ k)) with (n - k) by lia.
      replace (Z.pred (Z.succ k)) with k by lia. constructor; [done|].
      apply Forall_forall. intros s Hs. apply list_elem_of_fmap in Hs as (i & -> & Hi).
      apply elem_of_seqZ in Hi. unfold ascending. rewrite !Hseq by lia. lia. }
    destruct (Hs n Hn) as [H|]; [|lia]. by rewrite Z.sub_diag in H.
  - intros s. rewrite job_segments_elem by done. rewrite list_elem_of_fmap. split.
    + intros Hs. exists (sg_Seq s). rewrite elem_of_seqZ.
      destruct (decide (0 ≤ sg_Seq s < n)) as [Hi|Hi]; [|by rewrite Hout in Hs].
      rewrite Hin in Hs by done. split; [congruence|lia].
    + intros (i & -> & Hi). apply elem_of_seqZ in Hi. rewrite Hseq by lia. by rewrite Hin by lia.
Qed.

(** ** An engine whose calls succeed *)

(** Work done for a job that shows in no row, no stream and not in its text. *)
Record undisturbed (job : Job) (w w' : JobWorld) : Prop := {
  un_jobs : jw_jobs w' = jw_jobs w;
  un_segs : jw_segs w' = jw_segs w;
  un_streams : jw_streams w' = jw_streams w;
  un_faults : jw_faults w' = jw_faults w;
  un_text : jw_objects w' !! InputKey (TenantID job) (ID job) = jw_objects w !! InputKey (TenantID job) (ID job);
}.

#[export] Instance undisturbed_preorder job : PreOrder (undisturbed job).
Proof. split; [done|]. intros w1 w2 w3 [] []. split; congruence. Qed.

Lemma undisturbed_objs job objs w :
  objs !! InputKey (TenantID job) (ID job) = jw_objects w !! InputKey (TenantID job) (ID job) →
  undisturbed job w (set_objs objs w).
Proof. by intros H. Qed.

Class IdealPorts `{Ports} : Type := {
  pieces : bool → string → list string;
  merged_ms : Job → list string → Z;
  digest_length s : go_len (sha256 s) = 32;
  Split_ideal job text w :
    jw_faults w = [] → ∃ w', Split job text w = (Ok (pieces (Normalize job) text), w') ∧ undisturbed job w w';
  Synthesize_ideal job seq text w :
    jw_faults w = [] → ∃ r w', Synthesize job seq text w = (Ok r, w') ∧ undisturbed job w w' ∧
      sr_S3Key r = SegmentKey (TenantID job) (ID job) seq;
  Merge_ideal job keys w :
    jw_faults w = [] → ∃ w',
      Merge job keys w = (Ok (OutputKey (TenantID job) (ID job) (Format job), merged_ms job keys), w') ∧
      undisturbed job w w';
  JobFinished_ideal f job w :
    JobFinished = Some f → jw_faults w = [] → ∃ r w', f job w = (r, w') ∧ undisturbed job w w';
}.

(** ** Running operations that answer *)

Lemma bind_ok {W A B} (m : ST W A) (k : A → ST W B) w a w' :
  m w = (Ok a, w') → sbind m k w = k a w'.
Proof. intros Hm. unfold sbind. by rewrite Hm. Qed.

Lemma try_run {W A B} (m : ST W A) (k : res A → ST W B) w r w' :
  m w = (r, w') → stry m k w = k r w'.
Proof. intros Hm. unfold stry. by rewrite Hm. Qed.

Lemma wrap_ok {W A} pre (m : ST W A) w a w' : m w = (Ok a, w') → swrap pre m w = (Ok a, w').
Proof. intros Hm. unfold swrap. by rewrite Hm. Qed.

Lemma ByID_run id w j : jw_faults w = [] → jw_jobs w !! id = Some j → ByID id w = (Ok j, w).
Proof. intros Hf Hj. unfold ByID, one_row. rewrite port_answered by done. by rewrite Hj. Qed.

Lemma load_run id w j : jw_faults w = [] → jw_jobs w !! id = Some j → load id w = (Ok (Some j), w).
Proof. intros Hf Hj. unfold load. by erewrite try_run by by apply ByID_run. Qed.

Lemma update_run pre id cond f w j :
  jw_faults w = [] → jw_jobs w !! id = Some j → cond j = true →
  affected pre (update_where id cond f) w =
    (Ok true, set_jobs (<[id := f (jw_now w) j]> (jw_jobs w)) w).
Proof.
  intros Hf Hj Hc. unfold affected, update_where.
  erewrite bind_ok; [|apply wrap_ok; rewrite port_answered by done; rewrite Hj, Hc; reflexivity].
  done.
Qed.

Lemma GetText_run tid id w text :
  jw_faults w = [] → jw_objects w !! InputKey tid id = Some text →
  GetText tid id w = (Ok text, w).
Proof.
  intros Hf Ht. unfold GetText. apply wrap_ok. unfold object_get.
  rewrite port_answered by done. by rewrite Ht.
Qed.

Lemma Ack_run n k w : jw_faults w = [] → ∃ st, Ack n k w = (Ok (), set_stream n st w).
Proof. intros Hf. eexists. unfold Ack. apply wrap_ok. by rewrite port_answered. Qed.

(** Marking one more segment done. *)
Definition also (done : Z → bool) (i : Z) : Z → bool := λ x, (x =? i) || done x.

Lemma countb_also_in done i l :
  NoDup l → i ∈ l → done i = false → countb (also done i) l = countb done l + 1.
Proof.
  intros Hnd Hin Hd. induction l as [|x l IH]; [set_solver|].
  apply NoDup_cons in Hnd as [Hx Hnd]. simpl. unfold also at 1.
  destruct (Z.eqb_spec x i) as [->|Hne].
  - rewrite Hd, (countb_ext (also done i) done l); [simpl; lia|]. intros y Hy. unfold also.
    by destruct (Z.eqb_spec y i) as [->|].
  - rewrite IH by set_solver. simpl. lia.
Qed.

Lemma countb_true {A} (l : list A) : countb (λ _, true) l = Z.of_nat (length l).
Proof. induction l; simpl in *; lia. Qed.

Lemma countb_false {A} (l : list A) : countb (λ _, false) l = 0.
Proof. by induction l. Qed.

(** The segments that are not done. *)
Definition left_to_do (done : Z → bool) (l : list Z) : list Z := List.filter (λ i, negb (done i)) l.

Lemma left_to_do_length done l : Z.of_nat (length (left_to_do done l)) = Z.of_nat (length l) - countb done l.
Proof.
  unfold left_to_do. induction l as [|i l IH]; [done|]. cbn [List.filter countb foldr]. fold (countb done l).
  destruct (done i); cbn [negb length]; lia.
Qed.

Section run.
Context `{IdealPorts}.

(** The job as submitted, its text and its pieces. *)
Variables (job0 : Job) (text : string).
Local Abbreviation id := (ID job0).
Local Abbreviation tid := (TenantID job0).
Local Abbreviation parts := (pieces (Normalize job0) text).
Local Abbreviation n := (Z.of_nat (length parts)).
Local Abbreviation input := (InputKey tid id).
Hypothesis Hn : 0 < n ≤ MaxTextChars.

(** The same submission in another state. *)
Definition same_job (j : Job) : Prop :=
  ID j = id ∧ TenantID j = tid ∧ Normalize j = Normalize job0 ∧ Format j = Format job0.

(** The row recorded for a piece. *)
Definition fresh_row (i : Z) : Segment :=
  {| sg_JobID := id; sg_Seq := i;
     sg_TextHash := segmentHash sha256 job0 (default "" (parts !! Z.to_nat i));
     sg_Chars := runeCount (default "" (parts !! Z.to_nat i));
     sg_Status := SegmentPending; sg_Attempts := 0; sg_S3Key := ""; sg_LastError := "" |}.

(** A row that is done, or that a worker may claim. *)
Definition row_ok (i : Z) (s : Segment) : Prop :=
  sg_JobID s = id ∧ sg_Seq s = i ∧
  (sg_Status s = SegmentDone ∧ sg_S3Key s = SegmentKey tid id i ∨ claimable (sg_Status s) = true).

(** The rows an earlier attempt has left; none for a new job. *)
Variable old : Z → option Segment.
Hypothesis Hold : ∀ i s, old i = Some s → 0 ≤ i < n ∧ row_ok i s.

(** What a segment starts from, and whether it was done already. *)
Definition start (i : Z) : Segment := default (fresh_row i) (old i).
Definition was_done (i : Z) : bool := bool_decide (sg_Status (start i) = SegmentDone).

(** The row of a segment synthesized now, and of any segment once those of
    [done] are. *)
Definition done_row (i : Z) : Segment :=
  with_seg SegmentDone (sg_Attempts (start i) + 1) (SegmentKey tid id i) (sg_LastError (start i)) (start i).
Definition seg_row (done : Z → bool) (i : Z) : Segment :=
  if was_done i then start i else if done i then done_row i else start i.

Definition covers (done : Z → bool) : Prop := ∀ i, was_done i = true → done i = true.

Lemma start_ok i : row_ok i (start i).
Proof.
  unfold start. destruct (old i) as [s|] eqn:Hs; [by apply Hold|]. split_and!; [done..|by right].
Qed.

Lemma seg_row_spec done i :
  covers done →
  sg_JobID (seg_row done i) = id ∧ sg_Seq (seg_row done i) = i ∧
  if done i then sg_Status (seg_row done i) = SegmentDone ∧ sg_S3Key (seg_row done i) = SegmentKey tid id i
  else seg_row done i = start i ∧ claimable (sg_Status (start i)) = true.
Proof.
  intros Hc. destruct (start_ok i) as (H1 & H2 & H3). unfold seg_row. specialize (Hc i).
  destruct (was_done i) eqn:Hw.
  - rewrite Hc by done. unfold was_done in Hw. zbool. split_and!; [done..|].
    destruct H3 as [[_ H3]|H3]; [done|]. by rewrite Hw in H3.
  - unfold was_done in Hw. zbool. destruct (done i); [by split_and!|]. split_and!; [done..|].
    by destruct H3 as [[H3 _]|H3].
Qed.

(** The job's segment rows are [f 0] to [f (n-1)]. *)
Record rows (f : Z → Segment) (m : gmap (string * Z) Segment) : Prop := {
  rows_are_keyed : rows_keyed m;
  rows_in i : 0 ≤ i < n → m !! (id, i) = Some (f i);
  rows_out i : ¬ 0 ≤ i < n → m !! (id, i) = None;
}.

(** Exactly the segments of [done] are done, and the job's status is [st]. *)
Record stage (st : Status) (done : Z → bool) (w : JobWorld) : Prop := {
  wk_faults : jw_faults w = [];
  wk_covers : covers done;
  wk_rows : rows (seg_row done) (jw_segs w);
  wk_text : jw_objects w !! input = Some text;
  wk_job : ∃ j, jw_jobs w !! id = Some j ∧ same_job j ∧ status j = st ∧
             SegmentsTotal j = Some n ∧ SegmentsDone j = countb done (seqZ 0 n);
}.
Abbreviation working := (stage StatusSynthesizing).

(** Once the job is complete. *)
Record finished (w : JobWorld) : Prop := {
  fin_faults : jw_faults w = [];
  fin_rows : rows (seg_row (λ _, true)) (jw_segs w);
  fin_text : jw_objects w !! input = None;
  fin_job : ∃ j jm, jw_jobs w !! id = Some j ∧ same_job j ∧ status j = StatusCompleted ∧
    SegmentsTotal j = Some n ∧ SegmentsDone j = n ∧ same_job jm ∧
    OutputS3Key j = OutputKey tid id (Format job0) ∧
    DurationMS j = Some (merged_ms jm (SegmentKey tid id <$> seqZ 0 n));
}.

Lemma rows_segments f m : rows f m → job_segments m id = f <$> seqZ 0 n.
Proof. intros [Hk Hin Hout]. apply job_segments_eq; [done|lia|done|done]. Qed.

Lemma rows_ext f g m : (∀ i, 0 ≤ i < n → f i = g i) → rows f m → rows g m.
Proof. intros Hfg [Hk Hin Hout]. split; [done| |done]. intros i Hi. rewrite <-Hfg by done. auto. Qed.

(** Rewriting the row of one segment. *)
Definition put_row (f : Z → Segment) (i : Z) (s : Segment) : Z → Segment :=
  λ x, if x =? i then s else f x.

Lemma rows_put f m i s :
  rows f m → 0 ≤ i < n → sg_JobID s = id → sg_Seq s = i →
  rows (put_row f i s) (<[(id, i) := s]> m).
Proof.
  intros [Hk Hin Hout] Hi Hid Hs. split.
  - intros k1 k2 s' Hl. apply lookup_insert_Some in Hl as [[[= <- <-] <-]|[_ Hl]]; [done|by apply Hk].
  - intros x Hx. unfold put_row. destruct (Z.eqb_spec x i) as [->|Hne].
    + by rewrite lookup_insert_eq.
    + rewrite lookup_insert_ne by congruence. auto.
  - intros x Hx. rewrite lookup_insert_ne by (intros [= ->]; lia). auto.
Qed.

Lemma segments_read f w :
  rows f (jw_segs w) → jw_faults w = [] → Segments id w = (Ok (f <$> seqZ 0 n), w).
Proof.
  intros Hr Hf. unfold Segments. apply wrap_ok. rewrite port_answered by done.
  by rewrite (rows_segments f).
Qed.

Lemma unfinished_read f w :
  rows f (jw_segs w) → jw_faults w = [] →
  UnfinishedSegments id w = (Ok (countb (λ i, not_done (f i)) (seqZ 0 n)), w).
Proof.
  intros Hr Hf. unfold UnfinishedSegments. apply wrap_ok. rewrite port_answered by done.
  rewrite (rows_segments f) by done. do 2 f_equal. generalize (seqZ 0 n) as l.
  induction l as [|i l IH]; [done|]. rewrite fmap_cons. simpl. by rewrite IH.
Qed.

Lemma findSegment_fmap f i :
  (∀ x, 0 ≤ x < n → sg_Seq (f x) = x) → 0 ≤ i < n →
  findSegment (f <$> seqZ 0 n) i = Some (f i).
Proof.
  intros Hf Hi. unfold findSegment.
  destruct (List.find _ _) as [s|] eqn:Hs.
  - apply List.find_some in Hs as [Hin Heq]. zbool.
    apply list_elem_of_In, list_elem_of_fmap in Hin as (x & -> & Hx).
    apply elem_of_seqZ in Hx. rewrite Hf in Heq by lia. by subst x.
  - exfalso. eapply List.find_none in Hs.
    + apply Z.eqb_neq in Hs. by apply Hs, (Hf i).
    + apply list_elem_of_In, list_elem_of_fmap. exists i. split; [done|]. apply elem_of_seqZ. lia.
Qed.

Lemma countb_also done i :
  0 ≤ i < n → done i = false → countb (also done i) (seqZ 0 n) = countb done (seqZ 0 n) + 1.
Proof. intros Hi Hd. apply countb_also_in; [apply NoDup_seqZ|apply elem_of_seqZ; lia|done]. Qed.

(** ** Finishing *)

Lemma merge_keys_done (done : Z → bool) l :
  covers done → (∀ i, i ∈ l → done i = true) →
  merge_keys (seg_row done <$> l) = inr (SegmentKey tid id <$> l).
Proof.
  intros Hc. induction l as [|i l IH]; intros Hd; [done|]. rewrite !fmap_cons. cbn [merge_keys].
  rewrite IH by (intros; apply Hd; by right).
  destruct (seg_row_spec done i Hc) as (_ & _ & Hsp). rewrite (Hd i) in Hsp by by left. destruct Hsp as [-> ->].
  by rewrite bool_decide_eq_true_2.
Qed.

Lemma cleanUp_run job w :
  jw_faults w = [] →
  cleanUp job w = (Ok (), set_objs (delete (InputKey (TenantID job) (ID job)) (jw_objects w)) w).
Proof.
  intros Hf. unfold cleanUp. erewrite try_run; [done|].
  unfold DeleteText. apply wrap_ok, wrap_ok. by rewrite port_answered.
Qed.

Lemma notify_run w k j :
  jw_faults w = [] → jw_jobs w !! k = Some j → ∃ w', notify k w = (Ok (), w') ∧ undisturbed j w w'.
Proof.
  intros Hf Hj. unfold notify. destruct JobFinished as [f|] eqn:HJ; [|by exists w].
  erewrite try_run by by apply ByID_run.
  destruct (JobFinished_ideal f j w HJ Hf) as (r & w' & Hr & Hu). exists w'. by erewrite try_run by exact Hr.
Qed.

Lemma finished_undisturbed job w w' : same_job job → undisturbed job w w' → finished w → finished w'.
Proof.
  intros (HID & HT & _) [E1 E2 E3 E4 E5] [Hf Hr Ht Hj]. rewrite HID, HT in E5.
  split; [by rewrite E4|by rewrite E2|by rewrite E5|by rewrite E1].
Qed.

Lemma countb_full (done : Z → bool) :
  countb done (seqZ 0 n) = n → ∀ i, 0 ≤ i < n → done i = true.
Proof.
  intros Hc i Hi. destruct (done i) eqn:Hd; [done|]. exfalso.
  pose proof (countb_also done i Hi Hd). pose proof (countb_le_length (also done i) (seqZ 0 n)) as Hl.
  rewrite length_seqZ in Hl. lia.
Qed.

(** Entering the merge, or finding it entered. *)
Lemma to_merging st done w j :
  st = StatusSynthesizing ∨ st = StatusMerging → stage st done w → jw_jobs w !! id = Some j →
  ∃ moved jm, Transition id StatusSynthesizing StatusMerging w =
      (Ok moved, set_jobs (<[id := jm]> (jw_jobs w)) w) ∧
    (moved = true ∨ status j = StatusMerging) ∧ same_job jm ∧ status jm = StatusMerging ∧
    SegmentsTotal jm = Some n ∧ SegmentsDone jm = countb done (seqZ 0 n).
Proof.
  intros Hst [Hf _ _ _ (j' & Hj' & (HID & HT & HN & HF) & Hs & Htot & Hd)] Hj. assert (j' = j) as -> by congruence.
  unfold Transition. destruct Hst as [-> | ->].
  - exists true, (with_status (jw_now w) StatusMerging j). split_and!; try done; [|by left].
    apply (update_run _ id _ (λ now, with_status now StatusMerging) w j); [done..|by rewrite Hs].
  - exists false, j. split_and!; try done; [|by right].
    unfold affected, update_where. erewrite bind_ok; [|apply wrap_ok; rewrite port_answered by done;
      rewrite Hj, Hs, bool_decide_eq_false_2 by done; reflexivity].
    rewrite insert_id by done. by destruct w.
Qed.

Lemma finish_run st done w j :
  st = StatusSynthesizing ∨ st = StatusMerging →
  stage st done w → countb done (seqZ 0 n) = n → jw_jobs w !! id = Some j →
  ∃ w', finish j w = (Ok (), w') ∧ finished w' ∧ jw_streams w' = jw_streams w.
Proof.
  intros Hst Hw Hall Hj. destruct (to_merging st done w j Hst Hw Hj) as (moved & jm & Hmove & Hm & Hsm & Hsj & Htot & Hdone).
  destruct Hw as [Hf Hc Hr Ht (j' & Hj' & (HID & HT & HN & HF) & Hs & _)]. assert (j' = j) as -> by congruence.
  pose proof (countb_full done Hall) as Hd.
  unfold finish. rewrite HID, Hs. assert (Terminal st = false) as -> by by destruct Hst as [-> | ->]. cbv iota.
  erewrite bind_ok by exact Hmove.
  assert (negb moved && negb (bool_decide (st = StatusMerging)) = false) as ->
    by (destruct Hm as [-> |Hm]; [done|]; rewrite (bool_decide_eq_true_2 (st = StatusMerging)), andb_false_r; congruence).
  set (w1 := set_jobs _ w).
  erewrite bind_ok; [|by apply (segments_read (seg_row done))].
  rewrite merge_keys_done; [|done|intros i Hi%elem_of_seqZ; apply Hd; lia].
  destruct (Merge_ideal j (SegmentKey tid id <$> seqZ 0 n) w1 Hf) as (w2 & HM & [E1 E2 E3 E4 E5]).
  erewrite try_run by exact HM. cbv beta iota.
  assert (jw_jobs w2 !! id = Some jm) as Hj2 by (rewrite E1; apply lookup_insert_eq).
  assert (jw_faults w2 = []) as Hf2 by by rewrite E4.
  erewrite bind_ok; [|eapply (update_run _ id _ _ w2); [done|exact Hj2|by rewrite Hsj]].
  set (w3 := set_jobs _ w2).
  erewrite bind_ok; [|by apply cleanUp_run]. set (w4 := set_objs _ w3).
  set (jc := completed (jw_now w2) (OutputKey (TenantID j) (ID j) (Format j)) (merged_ms j (SegmentKey tid id <$> seqZ 0 n)) jm).
  assert (jw_jobs w4 !! id = Some jc) as Hj4 by apply lookup_insert_eq.
  destruct (notify_run w4 id jc Hf2 Hj4) as (w5 & Hrun & Hu). rewrite Hrun. exists w5.
  split; [done|]. split; [|rewrite (un_streams _ _ _ Hu); exact E3].
  apply (finished_undisturbed jc w4 w5); [done|done|]. split.
  - done.
  - apply (rows_ext (seg_row done)); [|unfold w4; cbn; by rewrite E2]. intros i Hi. unfold seg_row. by rewrite Hd.
  - unfold w4. cbn. rewrite HT, HID. by rewrite lookup_delete_eq.
  - eexists _, j. split; [exact Hj4|]. cbn. rewrite HT, HID, HF. split_and!; try done. lia.
Qed.

(** ** One delivery of a segment *)

(** Where the job is once the segments of [done] are synthesized. *)
Definition reached (done : Z → bool) (w : JobWorld) : Prop :=
  if countb done (seqZ 0 n) =? n then finished w else working done w.

Lemma reached_ext d d' w : (∀ i, d i = d' i) → reached d w → reached d' w.
Proof.
  intros Hd. unfold reached.
  rewrite (countb_ext d d') by (intros; apply Hd).
  destruct (_ =? n); [done|]. intros [Hf Hc Hr Ht (j & Hj & Hs & Hst & Htot & Hdone)]. split.
  - done.
  - intros i Hi. rewrite <-Hd. by apply Hc.
  - apply (rows_ext (seg_row d)); [|done]. intros i Hi. unfold seg_row. by rewrite Hd.
  - done.
  - exists j. split_and!; try done. by rewrite <-(countb_ext d d') by (intros; apply Hd).
Qed.

Lemma reached_also_done d i w : d i = true → reached d w → reached (also d i) w.
Proof.
  intros Hd. apply reached_ext. intros x. unfold also. by destruct (Z.eqb_spec x i) as [->|].
Qed.

Lemma reached_also_finished d i w :
  countb d (seqZ 0 n) = n → 0 ≤ i < n → finished w → reached (also d i) w.
Proof.
  intros Hall Hi Hw. apply reached_also_done; [by apply countb_full|].
  unfold reached. by rewrite (proj2 (Z.eqb_eq _ _) Hall).
Qed.

Lemma covers_also d i : covers d → covers (also d i).
Proof. intros Hc x Hx. unfold also. rewrite Hc by done. apply orb_true_r. Qed.

(** The row of a segment a worker holds. *)
Definition running_row (i : Z) : Segment :=
  with_seg SegmentRunning (sg_Attempts (start i) + 1) (sg_S3Key (start i)) (sg_LastError (start i)) (start i).

Definition claimed (i : Z) (w : JobWorld) : JobWorld :=
  set_segs (<[(id, i) := running_row i]> (jw_segs w)) w.

Lemma claim_run d i w :
  working d w → 0 ≤ i < n →
  ClaimSegment id i w = if d i then (Ok false, w) else (Ok true, claimed i w).
Proof.
  intros [Hf Hc Hr _ _] Hi. unfold ClaimSegment, affected. pose proof (rows_in _ _ Hr i Hi) as Hrow.
  destruct (seg_row_spec d i Hc) as (_ & _ & Hsp).
  destruct (d i); destruct Hsp as [Hsp1 Hsp2]; (erewrite bind_ok;
    [|apply wrap_ok; rewrite port_answered by done; rewrite Hrow, Hsp1, ?Hsp2; reflexivity]); done.
Qed.

Lemma complete_run w i s j key :
  jw_faults w = [] → jw_segs w !! (id, i) = Some s → sg_Status s = SegmentRunning →
  jw_jobs w !! id = Some j →
  CompleteSegment id i key w =
    (Ok (), set_jobs (<[id := one_more_done (jw_now w) j]> (jw_jobs w))
              (set_segs (<[(id, i) := with_seg SegmentDone (sg_Attempts s) key (sg_LastError s) s]>
                 (jw_segs w)) w)).
Proof.
  intros Hf Hs Hst Hj. unfold CompleteSegment. apply wrap_ok. rewrite port_answered by done.
  rewrite Hs, Hst. rewrite bool_decide_eq_true_2 by done. cbv zeta. cbn [jw_jobs set_segs].
  by rewrite Hj.
Qed.

Lemma countb_not_done d l :
  covers d → countb (λ x, not_done (seg_row d x)) l = Z.of_nat (length l) - countb d l.
Proof.
  intros Hc. induction l as [|x l IH]; [done|]. cbn [countb foldr length]. fold (countb d l).
  fold (countb (λ x, not_done (seg_row d x)) l). rewrite IH.
  assert (not_done (seg_row d x) = negb (d x)) as ->.
  { unfold not_done. destruct (seg_row_spec d x Hc) as (_ & _ & Hsp).
    destruct (d x); destruct Hsp as [-> Hsp]; [done|]. by destruct (sg_Status (start x)). }
  destruct (d x); cbn [negb]; lia.
Qed.

(** The claimed segment is synthesized and recorded; the last one also finishes
    the job. *)
Lemma run_segment_run d i w j :
  working d w → 0 ≤ i < n → d i = false → jw_jobs w !! id = Some j → same_job j →
  ∃ w', run_segment j i (claimed i w) = (Ok (), w') ∧ reached (also d i) w'.
Proof.
  intros Hw Hi Hd Hj (HID & HT & HN & HF).
  destruct Hw as [Hf Hc Hr Ht (j1 & Hj1 & Hs1 & Hst & Htot & Hdone)].
  assert (j1 = j) as -> by congruence.
  set (w1 := claimed i w).
  destruct (start_ok i) as (Hok1 & Hok2 & _).
  assert (rows (put_row (seg_row d) i (running_row i)) (jw_segs w1)) as Hr1 by by apply rows_put.
  unfold run_segment. rewrite HID, HT.
  erewrite bind_ok by by apply segments_read.
  rewrite findSegment_fmap;
    [|intros x Hx; unfold put_row; destruct (Z.eqb_spec x i); [by subst|by apply seg_row_spec]|done].
  erewrite try_run by by apply (GetText_run _ _ _ text). cbv beta iota.
  destruct (Split_ideal j text w1 Hf) as (w1' & HSp & Hu1). erewrite try_run by exact HSp. cbv beta iota. rewrite HN.
  destruct (parts !! Z.to_nat i) as [piece|] eqn:Hpiece; [|apply lookup_ge_None in Hpiece; lia].
  destruct (Synthesize_ideal j i piece w1') as (r & w2 & HS & Hu2 & Hkey); [by rewrite (un_faults _ _ _ Hu1)|].
  assert (undisturbed j w1 w2) as [E1 E2 E3 E4 E5] by by etrans. clear Hu1 Hu2.
  rewrite HID, HT in Hkey, E5. erewrite try_run by exact HS. cbv beta iota.
  erewrite bind_ok; [|apply (complete_run w2 i (running_row i) j);
    [by rewrite E4|rewrite E2; apply lookup_insert_eq|done|by rewrite E1]].
  cbv beta. match goal with |- context [set_jobs ?m ?x] => set (w3 := set_jobs m x) end.
  assert (rows (seg_row (also d i)) (jw_segs w3)) as Hr3.
  { apply (rows_ext (put_row (put_row (seg_row d) i (running_row i)) i
      (with_seg SegmentDone (sg_Attempts (running_row i)) (sr_S3Key r) (sg_LastError (running_row i)) (running_row i)))).
    - intros x Hx. unfold put_row, also, seg_row. destruct (Z.eqb_spec x i) as [->|]; [|done].
      rewrite Hkey. destruct (was_done i) eqn:Hwd; [|done]. by rewrite Hc in Hd.
    - unfold w3. cbn. rewrite E2. by apply rows_put. }
  assert (jw_faults w3 = []) as Hf3 by (unfold w3; cbn; by rewrite E4).
  assert (working (also d i) w3) as Hw3.
  { split; [done|by apply covers_also|done| |].
    - unfold w3. cbn. by rewrite E5.
    - eexists. split; [apply lookup_insert_eq|]. cbn. split_and!; try done.
      by rewrite Hdone, countb_also. }
  erewrite bind_ok by by apply (unfinished_read (seg_row (also d i))).
  rewrite countb_not_done by by apply covers_also.
  pose proof (countb_le_length (also d i) (seqZ 0 n)) as Hle. rewrite length_seqZ in *.
  unfold reached. destruct (Z.ltb_spec 0 (Z.of_nat (Z.to_nat n) - countb (also d i) (seqZ 0 n))) as [Hlt|Hge].
  - exists w3. rewrite (proj2 (Z.eqb_neq _ _)) by lia. done.
  - erewrite bind_ok; [|apply wrap_ok, ByID_run; [done|apply lookup_insert_eq]].
    rewrite (proj2 (Z.eqb_eq _ _)) by lia.
    destruct (finish_run _ _ _ _ (or_introl eq_refl) Hw3 ltac:(lia) (lookup_insert_eq _ _ _)) as (w' & Hrun & Hfin & _).
    exists w'. split; [exact Hrun|done].
Qed.

Lemma handleSegment_run d e w :
  reached d w → qe_JobID e = id → 0 ≤ qe_Seq e < n →
  ∃ w', handleSegment e w = (Ok (), w') ∧ reached (also d (qe_Seq e)) w'.
Proof.
  intros Hw Hid Hi. unfold handleSegment. rewrite Hid. unfold reached in Hw.
  destruct (Z.eqb_spec (countb d (seqZ 0 n)) n) as [Hall|Hsome].
  - pose proof Hw as [Hf _ _ (j & jm & Hj & _ & Hst & _)].
    erewrite bind_ok by by apply load_run. cbv beta iota. rewrite Hst. exists w. split; [done|].
    by apply reached_also_finished.
  - pose proof Hw as [Hf _ _ _ (j & Hj & Hs & Hst & _)].
    erewrite bind_ok by by apply load_run. cbv beta iota. rewrite Hst. change (Terminal StatusSynthesizing) with false.
    cbv iota. rewrite (proj1 Hs). pose proof (claim_run d (qe_Seq e) w Hw Hi) as Hc.
    destruct (d (qe_Seq e)) eqn:Hd; erewrite bind_ok by exact Hc; cbv beta iota.
    + exists w. split; [done|]. apply reached_also_done; [done|].
      unfold reached. by rewrite (proj2 (Z.eqb_neq _ _) Hsome).
    + by apply run_segment_run.
Qed.

(** ** Any order, any number of deliveries *)

Lemma reached_stream d k st w : reached d w → reached d (set_stream k st w).
Proof.
  unfold reached. destruct (_ =? n); intros [Hf Hr Ht Hj]; by split.
Qed.

Lemma process_segments l d w :
  reached d w → Forall (λ e, qe_JobID e = id ∧ 0 ≤ qe_Seq e < n) l →
  ∃ w', process StreamSegments l w = (Ok (), w') ∧
        reached (foldl (λ d e, also d (qe_Seq e)) d l) w'.
Proof.
  revert d w. induction l as [|e l IH]; intros d w Hw Hl; [by exists w|].
  apply Forall_cons in Hl as [[Hid Hi] Hl].
  destruct (handleSegment_run d e w Hw Hid Hi) as (w1 & Hrun & Hw1).
  assert (jw_faults w1 = []) as Hf1.
  { unfold reached in Hw1. destruct (_ =? n) in Hw1; [apply Hw1|apply (wk_faults _ _ _ Hw1)]. }
  destruct (Ack_run StreamSegments (qe_ID e) w1 Hf1) as [st Hack].
  destruct (IH (also d (qe_Seq e)) (set_stream StreamSegments st w1)) as (w' & Hrest & Hw');
    [by apply reached_stream|done|].
  exists w'. split; [|done]. cbn [process handle]. erewrite try_run by exact Hrun.
  by erewrite try_run by exact Hack.
Qed.

Lemma foldl_also d l i :
  foldl (λ d e, also d (qe_Seq e)) d l i = d i || bool_decide (i ∈ qe_Seq <$> l).
Proof.
  revert d. induction l as [|e l IH]; intros d; simpl; [by rewrite orb_false_r|].
  rewrite IH. unfold also. destruct (Z.eqb_spec i (qe_Seq e)) as [->|Hne]; cbn [orb].
  - symmetry. apply orb_true_iff. right. apply bool_decide_eq_true_2. by left.
  - f_equal. apply bool_decide_ext. rewrite elem_of_cons. tauto.
Qed.

(** Deliveries of every segment that was not done. *)
Lemma process_all_segments l w :
  reached was_done w → Forall (λ e, qe_JobID e = id ∧ 0 ≤ qe_Seq e < n) l →
  (∀ i, 0 ≤ i < n → was_done i = false → i ∈ qe_Seq <$> l) →
  finished (process StreamSegments l w).2.
Proof.
  intros Hw Hl Hall.
  destruct (process_segments l _ w Hw Hl) as (w' & -> & Hw'). simpl. unfold reached in Hw'.
  assert (countb (foldl (λ d e, also d (qe_Seq e)) was_done l) (seqZ 0 n) = n) as Hc.
  { rewrite (countb_ext _ (λ _, true)).
    - rewrite countb_true, length_seqZ. lia.
    - intros i Hi%elem_of_seqZ. rewrite foldl_also. destruct (was_done i) eqn:Hi'; [done|].
      apply bool_decide_eq_true_2, Hall; [lia|done]. }
  by rewrite (proj2 (Z.eqb_eq _ _) Hc) in Hw'.
Qed.

(** ** From the job's entry to the segments' queue *)

(** A job that can go on: its text is stored, no segment is running, and its
    status agrees with its rows. *)
Record resumable (w : JobWorld) : Prop := {
  rs_faults : jw_faults w = [];
  rs_keyed : rows_keyed (jw_segs w);
  rs_rows i : jw_segs w !! (id, i) = old i;
  rs_text : jw_objects w !! input = Some text;
  rs_job : jw_jobs w !! id = Some job0;
  rs_done : SegmentsDone job0 = countb was_done (seqZ 0 n);
  rs_status : match status job0 with
    | StatusQueued | StatusSegmenting => True
    | StatusSynthesizing => SegmentsTotal job0 = Some n ∧ ∀ i, 0 ≤ i < n → is_Some (old i)
    | StatusMerging => SegmentsTotal job0 = Some n ∧ ∀ i, 0 ≤ i < n → was_done i = true
    | _ => False
    end;
}.

(** A job just created: queued, its text stored, no segment yet. *)
Record submitted (w : JobWorld) : Prop := {
  sub_faults : jw_faults w = [];
  sub_keyed : rows_keyed (jw_segs w);
  sub_segs i : jw_segs w !! (id, i) = None;
  sub_text : jw_objects w !! input = Some text;
  sub_job : jw_jobs w !! id = Some job0;
  sub_status : status job0 = StatusQueued;
  sub_done : SegmentsDone job0 = 0;
}.

(** The rows once the first [k] pieces are recorded. *)
Definition recorded (k : Z) (m : gmap (string * Z) Segment) : Prop :=
  rows_keyed m ∧
  ∀ i, m !! (id, i) = match old i with
                      | Some s => Some s
                      | None => if (0 <=? i) && (i <? k) then Some (fresh_row i) else None
                      end.

Lemma recorded_put k m :
  0 ≤ k → old k = None → recorded k m → recorded (k + 1) (<[(id, k) := fresh_row k]> m).
Proof.
  intros Hk0 Hko [Hk Hrec]. split.
  - intros k1 k2 s' Hl. apply lookup_insert_Some in Hl as [[[= <- <-] <-]|[_ Hl]]; [done|by apply Hk].
  - intros i. destruct (decide (i = k)) as [->|Hne].
    + by rewrite lookup_insert_eq, Hko, (proj2 (Z.leb_le _ _)), (proj2 (Z.ltb_lt _ _)) by lia.
    + rewrite lookup_insert_ne by congruence. rewrite Hrec. destruct (old i); [done|].
      destruct (Z.leb_spec 0 i), (Z.ltb_spec i k), (Z.ltb_spec i (k + 1)); simpl; lia || done.
Qed.

(** Recording a piece that is recorded changes nothing. *)
Lemma CreateSegment_run w j k piece :
  jw_faults w = [] → jw_jobs w !! id = Some j → recorded k (jw_segs w) → 0 ≤ k →
  parts !! Z.to_nat k = Some piece →
  ∃ m, CreateSegment id (int32 k) (segmentHash sha256 job0 piece) (runeCount piece) w = (Ok (), set_segs m w) ∧
       recorded (k + 1) m.
Proof.
  intros Hf Hj [Hk Hrec] Hk0 Hp. pose proof (lookup_lt_Some _ _ _ Hp) as Hlt.
  rewrite int32_id by (unfold in_int32, MinInt32, MaxInt32, MaxTextChars in *; lia).
  assert (go_len (segmentHash sha256 job0 piece) = 32) as Hlen by apply digest_length.
  pose proof (runeCount_range piece) as Hrp.
  exists (if old k is Some _ then jw_segs w else <[(id, k) := fresh_row k]> (jw_segs w)). split.
  - unfold CreateSegment. apply wrap_ok. rewrite port_answered by done.
    rewrite Hlen, !(proj2 (Z.leb_le _ _)) by lia. cbn [andb negb Z.eqb Pos.eqb]. rewrite Hj, Hrec.
    destruct (old k); [by destruct w|]. rewrite (proj2 (Z.ltb_ge _ _)), andb_false_r by lia.
    unfold fresh_row. by rewrite Hp.
  - destruct (old k) as [s|] eqn:Hko; [|by apply recorded_put]. split; [done|].
    intros i. rewrite Hrec. destruct (old i) eqn:Hoi; [done|].
    destruct (Z.leb_spec 0 i), (Z.ltb_spec i k), (Z.ltb_spec i (k + 1)); simpl; try (lia || done).
    assert (i = k) by lia. congruence.
Qed.

Lemma record_segments_run l k w j :
  jw_faults w = [] → jw_jobs w !! id = Some j → recorded k (jw_segs w) → 0 ≤ k ≤ n →
  drop (Z.to_nat k) parts = l →
  ∃ m, record_segments job0 k l w = (Ok (), set_segs m w) ∧ recorded n m.
Proof.
  revert k w. induction l as [|piece l IH]; intros k w Hf Hj Hrec Hk0 Hl.
  - exists (jw_segs w). split; [by destruct w|].
    apply (f_equal length) in Hl. rewrite length_drop in Hl. simpl in Hl.
    by replace n with k by lia.
  - assert (parts !! Z.to_nat k = Some piece) as Hp.
    { rewrite <-(Nat.add_0_r (Z.to_nat k)), <-lookup_drop, Hl. done. }
    pose proof (lookup_lt_Some _ _ _ Hp) as Hlt.
    cbn [record_segments].
    destruct (CreateSegment_run w j k piece Hf Hj Hrec ltac:(lia) Hp) as (m & Hrun & Hm).
    erewrite bind_ok by by apply wrap_ok.
    destruct (IH (k + 1) (set_segs m w)) as (m' & Hrun' & Hm'); [done|done|done|lia| |by exists m'].
    replace (Z.to_nat (k + 1)) with (Z.to_nat k + 1)%nat by lia.
    by rewrite <-drop_drop, Hl.
Qed.


(** Two worlds that differ in their streams only. *)
Record same_but_streams (w w' : JobWorld) : Prop := {
  sbs_jobs : jw_jobs w' = jw_jobs w;
  sbs_segs : jw_segs w' = jw_segs w;
  sbs_objects : jw_objects w' = jw_objects w;
  sbs_faults : jw_faults w' = jw_faults w;
}.

(** What a stream's entries say, without their ids. *)
Definition queued_on (k : StreamName) (w : JobWorld) : list (string * Z) :=
  snd <$> st_entries (jw_streams w k).

Lemma enqueue_unfinished_run done l q w :
  jw_faults w = [] → covers done →
  ∃ w', enqueue_unfinished id (seg_row done <$> l) q w =
          (Ok (q + Z.of_nat (length (left_to_do done l))), w') ∧
        same_but_streams w w' ∧
        queued_on StreamSegments w' = queued_on StreamSegments w ++ (pair id <$> left_to_do done l).
Proof.
  intros Hf Hc. revert q w Hf. induction l as [|i l IH]; intros q w Hf.
  - exists w. rewrite Z.add_0_r, app_nil_r. by repeat split.
  - rewrite fmap_cons. cbn [enqueue_unfinished left_to_do List.filter].
    destruct (seg_row_spec done i Hc) as (_ & Hseq & Hsp).
    destruct (done i); cbn [negb]; destruct Hsp as [Hsp1 Hsp2].
    + rewrite bool_decide_eq_true_2 by done. by apply IH.
    + rewrite bool_decide_eq_false_2 by (rewrite Hsp1; by intros Heq; rewrite Heq in Hsp2).
      rewrite Hseq. unfold EnqueueSegment, stream_add.
      erewrite bind_ok; [|apply wrap_ok, wrap_ok; rewrite port_answered by done; reflexivity].
      match goal with |- context [enqueue_unfinished _ _ _ ?x] => set (w1 := x) end.
      destruct (IH (q + 1) w1 Hf) as (w' & Hrun & [E1 E2 E3 E4] & Hq). exists w'. split_and!.
      * rewrite Hrun. f_equal. f_equal. cbn. unfold left_to_do. lia.
      * by split.
      * rewrite Hq. unfold queued_on at 1, w1. cbn. rewrite fmap_app, <-app_assoc. done.
Qed.

Lemma stage_streams st done w w' : same_but_streams w w' → stage st done w → stage st done w'.
Proof.
  intros [E1 E2 E3 E4] [Hf Hc Hr Ht Hj]. split; [by rewrite E4|done|by rewrite E2|by rewrite E3|by rewrite E1].
Qed.

(** Queueing what is left, or finishing when nothing is. *)
Lemma fanOut_run st done w j :
  st = StatusSynthesizing ∨ st = StatusMerging ∧ countb done (seqZ 0 n) = n →
  stage st done w → jw_jobs w !! id = Some j →
  ∃ w', fanOut j w = (Ok (), w') ∧ reached done w' ∧
        queued_on StreamSegments w' = queued_on StreamSegments w ++ (pair id <$> left_to_do done (seqZ 0 n)).
Proof.
  intros Hst Hw Hj. pose proof Hw as [Hf Hc Hr _ (j' & Hj' & (HID & _) & _)].
  assert (j' = j) as -> by congruence. unfold fanOut. rewrite HID.
  erewrite bind_ok by by apply (segments_read (seg_row done)).
  destruct (enqueue_unfinished_run done (seqZ 0 n) 0 w Hf Hc) as (w1 & Hrun & Hsame & Hq).
  erewrite bind_ok by exact Hrun. rewrite left_to_do_length, length_seqZ.
  assert (stage st done w1) as Hw1 by by eapply stage_streams.
  unfold reached. destruct (Z.eqb_spec (countb done (seqZ 0 n)) n) as [Hall|Hsome].
  - rewrite (proj2 (Z.eqb_eq _ _)) by lia.
    destruct (finish_run st done w1 j) as (w' & Hfin & Hdone & Hstr);
      [destruct Hst as [?|[? _]]; auto|done|done|by rewrite (sbs_jobs _ _ Hsame)|].
    exists w'. split_and!; [done|done|]. unfold queued_on. rewrite Hstr. exact Hq.
  - destruct Hst as [-> |[_ ?]]; [|lia]. rewrite (proj2 (Z.eqb_neq _ _)).
    + by exists w1.
    + pose proof (left_to_do_length done (seqZ 0 n)) as Hl. rewrite length_seqZ in Hl.
      pose proof (countb_le_length done (seqZ 0 n)) as Hle. rewrite length_seqZ in Hle. lia.
Qed.

(** Cutting the text, recording a row for each piece that has none, and queueing
    what is not done. *)
Lemma segment_job_run w j :
  jw_faults w = [] → recorded 0 (jw_segs w) → jw_objects w !! input = Some text →
  jw_jobs w !! id = Some j → same_job j → status j = StatusSegmenting →
  SegmentsDone j = countb was_done (seqZ 0 n) →
  ∃ w', segment_job job0 w = (Ok (), w') ∧ reached was_done w' ∧
        queued_on StreamSegments w' = queued_on StreamSegments w ++ (pair id <$> left_to_do was_done (seqZ 0 n)).
Proof.
  intros Hf Hrec Ht Hj (HID & HT & HN & HF) Hst Hdone. unfold segment_job.
  erewrite try_run by by apply (GetText_run _ _ w text). cbv beta iota.
  destruct (Split_ideal job0 text w Hf) as (ws & HSp & [E1 E2 E3 E4 E5]).
  erewrite try_run by exact HSp. cbv beta zeta iota.
  rewrite (proj2 (Z.eqb_neq _ _)), (proj2 (Z.ltb_ge _ _)) by lia.
  rewrite <-E1 in Hj. rewrite <-E2 in Hrec. rewrite <-E4 in Hf. rewrite <-E5 in Ht. unfold queued_on. rewrite <-E3.
  destruct (record_segments_run parts 0 ws j Hf Hj Hrec ltac:(lia) eq_refl) as (m & Hrun & Hm & Hrow).
  erewrite bind_ok by exact Hrun. set (w2 := set_segs m ws). unfold SetSegmentsTotal.
  erewrite bind_ok; [|apply (update_run _ _ _ (λ now, segmented now (int32 n)) w2 j); [done..|by rewrite Hst]].
  set (w3 := set_jobs _ w2).
  erewrite bind_ok; [|apply wrap_ok, ByID_run; [done|apply lookup_insert_eq]].
  apply (fanOut_run StatusSynthesizing was_done w3 _ (or_introl eq_refl)); [|apply lookup_insert_eq]. split.
  - done.
  - by intros i.
  - split; [done| |].
    + intros i Hi. unfold w3, w2. cbn. rewrite Hrow. unfold seg_row, start.
      rewrite (proj2 (Z.leb_le _ _)), (proj2 (Z.ltb_lt _ _)) by lia. by destruct (was_done i), (old i).
    + intros i Hi. unfold w3, w2. cbn. rewrite Hrow. destruct (old i) as [s|] eqn:Hs; [by apply Hold in Hs as [? _]|].
      destruct (Z.leb_spec 0 i), (Z.ltb_spec i n); simpl; try done. lia.
  - done.
  - eexists. split; [apply lookup_insert_eq|]. cbn.
    rewrite int32_id by (unfold in_int32, MinInt32, MaxInt32, MaxTextChars in *; lia). by split_and!.
Qed.

(** The rows are all there: a stage of the work. *)
Lemma resumable_stage w :
  resumable w → SegmentsTotal job0 = Some n → (∀ i, 0 ≤ i < n → is_Some (old i)) → stage (status job0) was_done w.
Proof.
  intros [Hf Hk Hrows Ht Hj Hdone Hst] Htot Hall. split; [done|by intros i| |done|by exists job0]. split; [done| |].
  - intros i Hi. rewrite Hrows. unfold seg_row, start. destruct (Hall i Hi) as [s ->]. by destruct (was_done i).
  - intros i Hi. rewrite Hrows. destruct (old i) as [s|] eqn:Hs; [by apply Hold in Hs as [? _]|done].
Qed.

(** Handling the job's entry, wherever the job was left. *)
Lemma handleJob_run e w :
  resumable w → qe_JobID e = id →
  ∃ w', handleJob e w = (Ok (), w') ∧ reached was_done w' ∧
        queued_on StreamSegments w' = queued_on StreamSegments w ++ (pair id <$> left_to_do was_done (seqZ 0 n)).
Proof.
  intros Hres Hid. pose proof Hres as [Hf Hk Hrows Ht Hj Hdone Hst]. unfold handleJob. rewrite Hid.
  erewrite bind_ok by by apply load_run. cbv beta iota.
  assert (recorded 0 (jw_segs w)) as Hrec.
  { split; [done|]. intros i. rewrite Hrows. destruct (old i); [done|].
    by destruct (Z.leb_spec 0 i), (Z.ltb_spec i 0); simpl; try lia. }
  assert (∀ st, SegmentsTotal job0 = Some n → (∀ i, 0 ≤ i < n → is_Some (old i)) → status job0 = st →
    stage st was_done w) as Hstage by (intros st Htot Hall <-; by apply resumable_stage).
  destruct (status job0) eqn:Hs; try done; match goal with |- context [Terminal ?s] => change (Terminal s) with false end;
    rewrite ?bool_decide_eq_false_2, ?bool_decide_eq_true_2 by done; cbn [orb].
  - unfold Transition. erewrite bind_ok; [|apply (update_run _ _ _ (λ now, with_status now StatusSegmenting) w job0);
      [done..|by rewrite Hs]].
    cbn [negb].
    destruct (segment_job_run (set_jobs (<[id := with_status (jw_now w) StatusSegmenting job0]> (jw_jobs w)) w)
      (with_status (jw_now w) StatusSegmenting job0)) as (w' & H1 & H2 & H3);
      [done|done|done|apply lookup_insert_eq|done|done|done|]. by exists w'.
  - by apply (segment_job_run w job0).
  - destruct Hst as [Htot Hall]. apply (fanOut_run StatusSynthesizing); [by left|by apply Hstage|done].
  - destruct Hst as [Htot Hall]. apply (fanOut_run StatusMerging); [right; split; [done|]| |done].
    + rewrite (countb_ext _ (λ _, true)), countb_true, length_seqZ; [lia|].
      intros i Hi%elem_of_seqZ. apply Hall. lia.
    + apply Hstage; [done| |done]. intros i Hi. specialize (Hall i Hi). unfold was_done, start in Hall.
      destruct (old i); [done|]. by zbool.
Qed.
End run.

Definition no_rows : Z → option Segment := λ _, None.

Section fresh.
Context `{IdealPorts} (job0 : Job) (text : string).

Lemma no_rows_ok n (P : Z → Segment → Prop) i s : no_rows i = Some s → 0 ≤ i < n ∧ P i s.
Proof. done. Qed.

Lemma fresh_left n : left_to_do (was_done job0 text no_rows) (seqZ 0 n) = seqZ 0 n.
Proof. unfold left_to_do. induction (seqZ 0 n) as [|i l IH]; [done|]. cbn. by rewrite IH. Qed.

Lemma submitted_resumable w : submitted job0 text w → resumable job0 text no_rows w.
Proof.
  intros [Hf Hk Hs Ht Hj Hst Hd]. split; try done; [|by rewrite Hst].
  rewrite Hd. symmetry. apply (countb_false (A := Z)).
Qed.
End fresh.

(** ** Properties *)

(** C11. A job runs to completion whatever the deliveries. When every call is
    answered, handling a created job's entry queues each of its segments once,
    in order; and then any sequence of deliveries of those entries, in any order
    and with any repetition, that delivers each at least once, leaves the job
    completed: every segment synthesized exactly once, the count of finished
    segments equal to the total, the segments' audio merged in text order under
    the output key, and the stored text gone. *)
Theorem job_completes `{IdealPorts} job0 text w e l :
  let parts := pieces (Normalize job0) text in
  let n := Z.of_nat (length parts) in
  let queued := pair (ID job0) <$> seqZ 0 n in
  0 < n ≤ MaxTextChars →
  submitted job0 text w → qe_JobID e = ID job0 →
  let w1 := (handleJob e w).2 in
  queued_on StreamSegments w1 = queued_on StreamSegments w ++ queued ∧
  ((∀ d, d ∈ l → (qe_JobID d, qe_Seq d) ∈ queued) →
   (∀ q, q ∈ queued → q ∈ (λ d, (qe_JobID d, qe_Seq d)) <$> l) →
   finished job0 text no_rows (process StreamSegments l w1).2).
Proof.
  intros parts n queued Hn Hsub He w1. subst w1.
  destruct (handleJob_run job0 text Hn no_rows (no_rows_ok _ _) e w (submitted_resumable _ _ w Hsub) He)
    as (w1 & -> & Hw1 & Hq). cbn [snd]. rewrite fresh_left in Hq.
  split; [exact Hq|]. intros Hdel Hall.
  apply (process_all_segments job0 text Hn no_rows (no_rows_ok _ _)); [done| |].
  - apply Forall_forall. intros d Hd%Hdel. apply list_elem_of_fmap in Hd as (i & [= Hid Hseq] & Hi).
    apply elem_of_seqZ in Hi. rewrite Hid, Hseq. split; [done|]. change (0 ≤ i < n). lia.
  - intros i Hi _. assert ((ID job0, i) ∈ queued) as Hin.
    { apply list_elem_of_fmap. exists i. split; [done|]. apply elem_of_seqZ.
      change (0 ≤ i < n) in Hi. lia. }
    apply Hall, list_elem_of_fmap in Hin as (d & [= _ ->] & Hd). by apply list_elem_of_fmap_2.
Qed.

#[export] Instance demo_ideal : @IdealPorts demo_ports.
Proof.
  refine (@Build_IdealPorts demo_ports (λ _, Fields) (λ _ keys, 40 * Z.of_nat (length keys)) _ _ _ _ _).
  - done.
  - intros job text w Hf. by exists w.
  - intros job seq text w Hf. eexists _, _. split_and!.
    + unfold Synthesize, demo_ports, PutSegment. erewrite bind_ok; [reflexivity|].
      erewrite bind_ok; [reflexivity|]. apply wrap_ok, wrap_ok. by rewrite port_answered.
    + apply undisturbed_objs. rewrite lookup_insert_ne; [done|]. unfold SegmentKey, InputKey.
      intros Heq. repeat (apply (inj (String.append _)) in Heq). done.
    + done.
  - intros job keys w Hf. eexists. split.
    + unfold Merge, demo_ports. erewrite bind_ok; [reflexivity|]. apply wrap_ok. by rewrite port_answered.
    + apply undisturbed_objs. rewrite lookup_insert_ne; [done|]. unfold OutputKey, InputKey.
      intros Heq. repeat (apply (inj (String.append _)) in Heq). done.
  - done.
Defined.

(** The entries of a three-segment job, late, out of order and repeated. *)
Lemma job_completes_witness :
  let entry seq := {| qe_ID := seq + 1; qe_JobID := "j"; qe_Seq := seq; qe_Stream := StreamSegments |} in
  finished (H0 := demo_ideal) demo_job "mot hai ba" no_rows
    (process (H := demo_ports) StreamSegments (entry <$> [2; 0; 2; 1; 0])
       (handleJob (H := demo_ports) (entry 0) (demo_world [])).2).2.
Proof.
  intros entry.
  refine (proj2 (job_completes (H := demo_ports) (H0 := demo_ideal) demo_job "mot hai ba" (demo_world []) (entry 0)
    (entry <$> [2; 0; 2; 1; 0]) _ _ _) _ _).
  - by vm_compute.
  - split; done.
  - done.
  - change (pair (ID demo_job) <$> _) with [("j"%string, 0); ("j"%string, 1); ("j"%string, 2)].
    intros d Hd. repeat (apply elem_of_cons in Hd as [->|Hd]; [set_solver|]). by apply elem_of_nil in Hd.
  - change (pair (ID demo_job) <$> _) with [("j"%string, 0); ("j"%string, 1); ("j"%string, 2)].
    set_solver.
Defined.
