(* ===== verification/JobRecover.v ===== *)
(** * A job through failures

    What calls that fail, lose their answers or never come (a process that died)
    can leave of one job, and that the orchestrator takes it up again from
    there. The handlers are followed call by call with a small program logic
    over what the job's row, its segments' rows and its stored text are. *)

From stdpp Require Import base gmap strings pretty numbers sorting list.
From S2P Require Import Prelude GoString Cache Jobs JobStore Orchestrator JobRun.

(** What the engine may do when its calls fail: it leaves the rows and the job's
    text alone, and what it reports without an error is so. *)
Definition calm (job : Job) (w w' : JobWorld) : Prop :=
  jw_jobs w' = jw_jobs w ∧ jw_segs w' = jw_segs w ∧
  jw_objects w' !! InputKey (TenantID job) (ID job) = jw_objects w !! InputKey (TenantID job) (ID job).

Class SoundPorts `{IdealPorts} : Prop := {
  Split_sound job text w :
    calm job w (Split job text w).2 ∧
    ∀ l, (Split job text w).1 = Ok l → l = pieces (Normalize job) text;
  Synthesize_sound job seq text w :
    calm job w (Synthesize job seq text w).2 ∧
    ∀ r, (Synthesize job seq text w).1 = Ok r → sr_S3Key r = SegmentKey (TenantID job) (ID job) seq;
  Merge_sound job keys w :
    calm job w (Merge job keys w).2 ∧
    ∀ key d, (Merge job keys w).1 = Ok (key, d) → key = OutputKey (TenantID job) (ID job) (Format job);
  JobFinished_sound f job w : JobFinished = Some f → calm job w (f job w).2;
}.

Section recover.
Context `{SoundPorts}.
Variables (job0 : Job) (text : string).
Local Abbreviation id := (ID job0).
Local Abbreviation tid := (TenantID job0).
Local Abbreviation parts := (pieces (Normalize job0) text).
Local Abbreviation n := (Z.of_nat (length parts)).
Local Abbreviation input := (InputKey tid id).
Hypothesis Hn : 0 < n ≤ MaxTextChars.

(** ** What is seen of the job *)

Record View : Type := { v_job : Job; v_rows : Z → option Segment; v_text : option string }.

Record has (v : View) (w : JobWorld) : Prop := {
  has_job : jw_jobs w !! id = Some (v_job v);
  has_keyed : rows_keyed (jw_segs w);
  has_rows i : jw_segs w !! (id, i) = v_rows v i;
  has_text : jw_objects w !! input = v_text v;
}.

Definition is_done (f : Z → option Segment) (i : Z) : bool :=
  match f i with Some s => bool_decide (sg_Status s = SegmentDone) | None => false end.

Definition all_done (f : Z → option Segment) : Prop := ∀ i, 0 ≤ i < n → is_done f i = true.

(** Row, segments and text agree. *)
Record fit (v : View) : Prop := {
  fit_same : same_job job0 (v_job v);
  fit_text : Terminal (status (v_job v)) = false → v_text v = Some text;
  fit_rows i s : v_rows v i = Some s →
    0 ≤ i < n ∧ (sg_JobID s = id ∧ sg_Seq s = i) ∧ (sg_Status s = SegmentDone → sg_S3Key s = SegmentKey tid id i);
  fit_count : SegmentsDone (v_job v) = countb (is_done (v_rows v)) (seqZ 0 n);
  fit_status : match status (v_job v) with
    | StatusSynthesizing => SegmentsTotal (v_job v) = Some n ∧ ∀ i, 0 ≤ i < n → is_Some (v_rows v i)
    | StatusMerging => SegmentsTotal (v_job v) = Some n ∧ all_done (v_rows v)
    | StatusCompleted =>
        SegmentsTotal (v_job v) = Some n ∧ all_done (v_rows v) ∧
        OutputS3Key (v_job v) = OutputKey tid id (Format job0) ∧ is_Some (DurationMS (v_job v))
    | _ => True
    end;
}.

Definition good (w : JobWorld) : Prop := ∃ v, has v w ∧ fit v.

Definition with_job (j : Job) (v : View) : View := {| v_job := j; v_rows := v_rows v; v_text := v_text v |}.
Definition with_row (i : Z) (s : Segment) (v : View) : View :=
  {| v_job := v_job v; v_rows x := if x =? i then Some s else v_rows v x; v_text := v_text v |}.
Definition with_text (t : option string) (v : View) : View :=
  {| v_job := v_job v; v_rows := v_rows v; v_text := t |}.

(** ** A program logic *)

(** From a world that shows [v], [m] answers and shows what [Q] says, or returns
    an error and leaves the job fit. *)
Definition does {A} (v : View) (m : JM A) (Q : A → View → Prop) : Prop :=
  ∀ w, has v w → match m w with
                 | (Ok a, w') => ∃ v', has v' w' ∧ Q a v'
                 | (Err _, w') => good w'
                 end.

(** [m] leaves what is seen as it is. *)
Definition rests {A} (v : View) (m : JM A) (Q : A → Prop) : Prop :=
  ∀ w, has v w → has v (m w).2 ∧ ∀ a, (m w).1 = Ok a → Q a.

Lemma has_faults v fs w : has v w → has v (set_faults fs w).
Proof. intros [Hj Hk Hr Ht]. by split. Qed.

Lemma does_ret {A} v (a : A) (Q : A → View → Prop) : Q a v → does v (sret a) Q.
Proof. intros Hq w Hw. exists v. auto. Qed.

Lemma does_fail {A} v e (Q : A → View → Prop) : fit v → does v (sfail e) Q.
Proof. intros Hf w Hw. exists v. auto. Qed.

Lemma does_bind {A B} v (m : JM A) (k : A → JM B) Q R :
  does v m Q → (∀ a v', Q a v' → does v' (k a) R) → does v (sbind m k) R.
Proof.
  intros Hm Hk w Hw. unfold sbind. specialize (Hm w Hw). destruct (m w) as [[a|e] w']; [|done].
  destruct Hm as (v' & Hw' & Hq). by apply (Hk a v').
Qed.

Lemma does_wrap {A} pre v (m : JM A) Q : does v m Q → does v (swrap pre m) Q.
Proof. intros Hm w Hw. specialize (Hm w Hw). unfold swrap. by destruct (m w) as [[a|e] w']. Qed.

Lemma does_mono {A} v (m : JM A) (Q R : A → View → Prop) :
  does v m Q → (∀ a v', Q a v' → R a v') → does v m R.
Proof.
  intros Hm HQ w Hw. specialize (Hm w Hw). destruct (m w) as [[a|e] w']; [|done].
  destruct Hm as (v' & ? & ?). eauto.
Qed.

(** A call: refused, lost, or answered. *)
Lemma does_port {A} v (op : JM A) (Q : A → View → Prop) :
  fit v →
  (∀ w, has v w → ∃ r v', (op w).1 = r ∧ has v' (op w).2 ∧ fit v' ∧ ∀ a, r = Ok a → Q a v') →
  does v (port op) Q.
Proof.
  intros Hf Hop w Hw. unfold port.
  assert (∀ w, has v w → match op w with (Ok a, w') => ∃ v', has v' w' ∧ Q a v' | (Err _, w') => good w' end) as Hrun.
  { intros w1 Hw1. destruct (Hop w1 Hw1) as (r & v' & Hr & Hv & Hfit & Hq).
    destruct (op w1) as [[a|e] w']; cbn in *; [exists v'; subst; auto|by exists v']. }
  destruct (faults w) as [|[] rest].
  - by apply Hrun.
  - by apply Hrun, has_faults.
  - exists v. split; [by apply has_faults|done].
  - destruct (Hop (set_faults rest w)) as (_ & v' & _ & Hv & Hfit & _); [by apply has_faults|]. by exists v'.
Qed.

Lemma does_try {A B} v (m : JM A) (k : res A → JM B) Q R :
  rests v m Q → (∀ r, (∀ a, r = Ok a → Q a) → does v (k r) R) → does v (stry m k) R.
Proof.
  intros Hm Hk w Hw. unfold stry. destruct (Hm w Hw) as [Hw' Hq]. destruct (m w) as [r w'].
  by apply (Hk r Hq).
Qed.

Lemma does_rests {A} v (m : JM A) (Q : A → Prop) :
  fit v → rests v m Q → does v m (λ a v', v' = v ∧ Q a).
Proof.
  intros Hf Hm w Hw. destruct (Hm w Hw) as [Hw' Hq]. destruct (m w) as [[a|e] w']; [|by exists v].
  exists v. split; [done|]. split; [done|]. by apply Hq.
Qed.

Lemma rests_wrap {A} pre v (m : JM A) Q : rests v m Q → rests v (swrap pre m) Q.
Proof. intros Hm w Hw. destruct (Hm w Hw). unfold swrap. by destruct (m w) as [[a|e] w']. Qed.

Lemma rests_port {A} v (op : JM A) (Q : A → Prop) : rests v op Q → rests v (port op) Q.
Proof.
  intros Hop w Hw. unfold port. destruct (faults w) as [|[] rest].
  - by apply Hop.
  - by apply Hop, has_faults.
  - split; [by apply has_faults|done].
  - split; [by apply Hop, has_faults|done].
Qed.

Lemma rests_calm {A} v job (m : JM A) (Q : A → Prop) :
  same_job job0 job → (∀ w, calm job w (m w).2 ∧ ∀ a, (m w).1 = Ok a → Q a) → rests v m Q.
Proof.
  intros (HID & HT & _) Hm w [Hj Hk Hr Ht]. destruct (Hm w) as [(E1 & E2 & E3) Hq]. rewrite HID, HT in E3.
  split; [|done]. split; [by rewrite E1|by rewrite E2|intros; by rewrite E2|by rewrite E3].
Qed.

(** ** The store's calls *)

Lemma rests_mono {A} v (m : JM A) (Q R : A → Prop) : rests v m Q → (∀ a, Q a → R a) → rests v m R.
Proof. intros Hm HQ w Hw. destruct (Hm w Hw). split; eauto. Qed.

Lemma ByID_rests v : rests v (ByID id) (λ j, j = v_job v).
Proof.
  intros w Hw. unfold ByID, one_row.
  pose proof (rests_port v (λ w, (Ok (jw_jobs w !! id), w)) (λ o, o = Some (v_job v))) as Hp.
  destruct (Hp ltac:(intros w1 Hw1; split; [done|intros ? [= <-]; apply Hw1]) w Hw) as [Hw' Hq].
  destruct (port _ w) as [[o|e] w']; cbn in *; [|done]. rewrite (Hq o eq_refl). split; [done|]. by intros ? [= <-].
Qed.

Lemma load_rests v : rests v (load id) (λ o, o = None ∨ o = Some (v_job v)).
Proof.
  intros w Hw. unfold load, stry. destruct (ByID_rests v w Hw) as [Hw' Hq].
  destruct (ByID id w) as [[j|e] w']; cbn in *.
  - split; [done|]. intros ? [= <-]. right. f_equal. auto.
  - destruct (errors_Is e ErrNotFound); (split; [done|]); [|done]. intros ? [= <-]. by left.
Qed.

Lemma Segments_rests v : rests v (Segments id) (λ l, ∀ s, s ∈ l ↔ v_rows v (sg_Seq s) = Some s).
Proof.
  apply rests_wrap, rests_port. intros w Hw. split; [done|]. intros ? [= <-] s.
  rewrite job_segments_elem by apply Hw. by rewrite (has_rows _ _ Hw).
Qed.

Lemma UnfinishedSegments_rests v :
  rests v (UnfinishedSegments id)
    (λ x, (0 <? x) = false → ∀ i s, v_rows v i = Some s → sg_Status s = SegmentDone).
Proof.
  apply rests_wrap, rests_port. intros w Hw. split; [done|]. intros ? [= <-] Hx i s Hs.
  apply Z.ltb_ge in Hx. pose proof (countb_nonneg not_done (job_segments (jw_segs w) id)) as Hnn.
  assert (countb not_done (job_segments (jw_segs w) id) = 0) as Hz by lia.
  apply countb_zero in Hz. rewrite Forall_forall in Hz.
  assert (sg_Seq s = i) as Hi by (apply (has_keyed _ _ Hw id i); by rewrite (has_rows _ _ Hw)).
  assert (s ∈ job_segments (jw_segs w) id) as Hin.
  { rewrite job_segments_elem by apply Hw. by rewrite Hi, (has_rows _ _ Hw). }
  specialize (Hz s Hin). unfold not_done in Hz. by zbool.
Qed.

Lemma EnqueueSegment_rests v k i : rests v (EnqueueSegment k i) (λ _, True).
Proof. apply rests_wrap, rests_port. intros w [Hj Hk Hr Ht]. by split. Qed.

Lemma sleep_rests v d : rests v (sleep d) (λ _, True).
Proof. apply rests_port. intros w [Hj Hk Hr Ht]. by split. Qed.

Lemma GetText_rests v : rests v (GetText tid id) (λ t, v_text v = Some t).
Proof.
  apply rests_wrap. intros w Hw. unfold object_get.
  pose proof (rests_port v (λ w, (Ok (jw_objects w !! input), w)) (λ o, o = v_text v)) as Hp.
  destruct (Hp ltac:(intros w1 Hw1; split; [done|intros ? [= <-]; apply Hw1]) w Hw) as [Hw' Hq].
  destruct (port _ w) as [[[t|]|e] w']; cbn in *; (split; [done|]); [|done..]. intros ? [= <-]. symmetry. auto.
Qed.

Lemma has_with_job v w j : has v w → has (with_job j v) (set_jobs (<[id := j]> (jw_jobs w)) w).
Proof. intros [Hj Hk Hr Ht]. split; try done. apply lookup_insert_eq. Qed.

Lemma has_with_row v w i s :
  has v w → sg_JobID s = id → sg_Seq s = i → has (with_row i s v) (set_segs (<[(id, i) := s]> (jw_segs w)) w).
Proof.
  intros [Hj Hk Hr Ht] Hid Hs. split; [done| | |done].
  - intros k1 k2 s' Hl. cbn in Hl. apply lookup_insert_Some in Hl as [[[= <- <-] <-]|[_ Hl]]; [done|by apply Hk].
  - intros x. cbn. destruct (Z.eqb_spec x i) as [->|Hne].
    + by rewrite lookup_insert_eq.
    + by rewrite lookup_insert_ne by congruence.
Qed.

(** An update of the job's row. *)
Lemma update_does v pre cond f :
  fit v → (cond (v_job v) = true → ∀ now, fit (with_job (f now (v_job v)) v)) →
  does v (affected pre (update_where id cond f))
    (λ b v', b = cond (v_job v) ∧ fit v' ∧
             if cond (v_job v) then ∃ now, v' = with_job (f now (v_job v)) v else v' = v).
Proof.
  intros Hf Hc. unfold affected. eapply does_bind with (Q := λ x v', (0 <? x) = cond (v_job v) ∧ fit v' ∧
    if cond (v_job v) then ∃ now, v' = with_job (f now (v_job v)) v else v' = v).
  - apply does_wrap, does_port; [done|]. intros w Hw. rewrite (has_job _ _ Hw).
    destruct (cond (v_job v)) eqn:Hcond.
    + eexists _, (with_job (f (jw_now w) (v_job v)) v). split_and!; [done|by apply has_with_job|auto|].
      intros ? [= <-]. eauto.
    + eexists _, v. split_and!; [done|done|done|]. intros ? [= <-]. eauto.
  - intros x v' (Hx & Hfit & Hv). apply does_ret. auto.
Qed.

(** A row rewritten that stays done, or stays not done. *)
Lemma fit_with_row v i s :
  fit v → 0 ≤ i < n → sg_JobID s = id ∧ sg_Seq s = i → (sg_Status s = SegmentDone → sg_S3Key s = SegmentKey tid id i) →
  bool_decide (sg_Status s = SegmentDone) = is_done (v_rows v) i → fit (with_row i s v).
Proof.
  intros [Hs Ht Hr Hc Hst] Hi Hids Hkey Hd.
  assert (∀ x, is_done (v_rows (with_row i s v)) x = is_done (v_rows v) x) as Hsame.
  { intros x. unfold is_done at 1, with_row. cbn [v_rows]. destruct (Z.eqb_spec x i) as [->|]; [exact Hd|done]. }
  split; [done|done| | |].
  - intros x s' Hx. cbn in Hx. destruct (Z.eqb_spec x i) as [->|]; [|by apply Hr]. by injection Hx as <-.
  - cbn [v_job with_row]. rewrite Hc. symmetry. apply countb_ext. intros x _. apply Hsame.
  - assert (all_done (v_rows v) → all_done (v_rows (with_row i s v))) as Hall
      by (intros Hall x Hx; rewrite Hsame; by apply Hall).
    change (v_job (with_row i s v)) with (v_job v). destruct (status (v_job v)); try done.
    + destruct Hst as [Htot Hin]. split; [done|]. intros x Hx. cbn. destruct (x =? i); [done|]. by apply Hin.
    + destruct Hst; auto.
    + destruct Hst as (? & ? & ? & ?). auto.
Qed.

(** Recording a piece: its row is there, and nothing else changed. *)
Lemma CreateSegment_does v i h c :
  fit v → 0 ≤ i < n →
  does v (CreateSegment id i h c)
    (λ _ v', fit v' ∧ v_job v' = v_job v ∧ v_text v' = v_text v ∧ is_Some (v_rows v' i) ∧
             ∀ x, is_Some (v_rows v x) → is_Some (v_rows v' x)).
Proof.
  intros Hf Hi. apply does_wrap, does_port; [done|]. intros w Hw.
  destruct (negb _); [eexists _, v; by split_and!|]. rewrite (has_job _ _ Hw), (has_rows _ _ Hw).
  destruct (v_rows v i) as [s|] eqn:Hs.
  - eexists _, v. split_and!; [done|done|done|]. intros _ _. by rewrite Hs.
  - eexists _, (with_row i _ v). split_and!; [done|by apply has_with_row| |].
    + apply fit_with_row; [done..|]. unfold is_done. by rewrite Hs.
    + intros _ _. split_and!; try done; [|cbn; by rewrite Z.eqb_refl|intros x Hx; cbn; by destruct (x =? i)].
      apply fit_with_row; [done..|]. unfold is_done. by rewrite Hs.
Qed.

Definition running_at (i : Z) (v : View) : Prop := ∃ s, v_rows v i = Some s ∧ sg_Status s = SegmentRunning.

Lemma ClaimSegment_does v i :
  fit v →
  does v (ClaimSegment id i)
    (λ b v', fit v' ∧ v_job v' = v_job v ∧ v_text v' = v_text v ∧ if b then running_at i v' else True).
Proof.
  intros Hf. unfold ClaimSegment, affected.
  eapply does_bind with (Q := λ x v', fit v' ∧ v_job v' = v_job v ∧ v_text v' = v_text v ∧
    if 0 <? x then running_at i v' else True); [|intros x v' Hq; by apply does_ret].
  apply does_wrap, does_port; [done|]. intros w Hw. rewrite (has_rows _ _ Hw).
  destruct (v_rows v i) as [s|] eqn:Hs; [|eexists _, v; split_and!; [done..|by intros ? [= <-]]].
  destruct (claimable (sg_Status s)) eqn:Hcl; [|eexists _, v; split_and!; [done..|by intros ? [= <-]]].
  destruct (fit_rows _ Hf i s Hs) as (Hi & [E1 E2] & Hkey).
  assert (fit (with_row i (with_seg SegmentRunning (sg_Attempts s + 1) (sg_S3Key s) (sg_LastError s) s) v)) as Hfit.
  { apply fit_with_row; [done..|]. unfold is_done. rewrite Hs. by destruct (sg_Status s). }
  eexists _, _. split_and!; [done|by apply has_with_row|done|]. intros ? [= <-]. split_and!; [done..|].
  eexists. cbn. by rewrite Z.eqb_refl.
Qed.

Lemma FailSegment_does v i reason :
  fit v → running_at i v →
  does v (FailSegment id i reason) (λ _ v', fit v' ∧ v_job v' = v_job v).
Proof.
  intros Hf (s & Hs & Hrun). apply does_wrap, does_port; [done|]. intros w Hw. rewrite (has_rows _ _ Hw), Hs.
  destruct (fit_rows _ Hf i s Hs) as (Hi & [E1 E2] & Hkey).
  assert (fit (with_row i (with_seg SegmentFailed (sg_Attempts s) (sg_S3Key s) reason s) v)) as Hfit.
  { apply fit_with_row; [done..|]. unfold is_done. by rewrite Hs, Hrun. }
  eexists _, _. split_and!; [done|by apply has_with_row|done|]. auto.
Qed.

(** A segment recorded done: its row and the job's count move together. *)
Lemma fit_complete v i s now :
  fit v → v_rows v i = Some s → sg_Status s = SegmentRunning →
  fit (with_job (one_more_done now (v_job v))
         (with_row i (with_seg SegmentDone (sg_Attempts s) (SegmentKey tid id i) (sg_LastError s) s) v)).
Proof.
  intros [Hsame Ht Hr Hc Hst] Hs Hrun. destruct (Hr i s Hs) as (Hi & Hids & _).
  assert (is_done (v_rows v) i = false) as Hnot by (unfold is_done; by rewrite Hs, Hrun).
  split; [done|done| | |].
  - intros x s' Hx. cbn in Hx. destruct (Z.eqb_spec x i) as [->|]; [|by apply Hr]. injection Hx as <-. by split.
  - cbn [v_job with_job SegmentsDone one_more_done update_job]. rewrite Hc.
    rewrite <-(countb_also_in (is_done (v_rows v)) i (seqZ 0 n)) by first [apply NoDup_seqZ|apply elem_of_seqZ; lia|done].
    apply countb_ext. intros x _. unfold also, is_done. cbn. by destruct (x =? i).
  - cbn. destruct (status (v_job v)); try done.
    + destruct Hst as [Htot Hin]. split; [done|]. intros x Hx. destruct (x =? i); [done|]. by apply Hin.
    + destruct Hst as [_ Hall]. by rewrite Hall in Hnot.
    + destruct Hst as (_ & Hall & _). by rewrite Hall in Hnot.
Qed.

Lemma CompleteSegment_does v i :
  fit v → running_at i v →
  does v (CompleteSegment id i (SegmentKey tid id i)) (λ _ v', fit v' ∧ status (v_job v') = status (v_job v)).
Proof.
  intros Hf (s & Hs & Hrun). apply does_wrap, does_port; [done|]. intros w Hw. rewrite (has_rows _ _ Hw), Hs, Hrun.
  rewrite bool_decide_eq_true_2 by done. cbv zeta. cbn [jw_jobs set_segs]. rewrite (has_job _ _ Hw).
  destruct (fit_rows _ Hf i s Hs) as (Hi & [E1 E2] & Hkey).
  pose proof (fit_complete v i s (jw_now w) Hf Hs Hrun) as Hfit.
  eexists _, _. split_and!; [done| |exact Hfit|intros _ _; by split].
  cbn [snd jw_now set_segs].
  exact (has_with_job _ _ (one_more_done (jw_now w) (v_job v)) (has_with_row v w i
    (with_seg SegmentDone (sg_Attempts s) (SegmentKey tid id i) (sg_LastError s) s) Hw E1 E2)).
Qed.

(** ** Ending a job *)

Lemma fit_text_gone v : fit v → Terminal (status (v_job v)) = true → fit (with_text None v).
Proof. intros [Hs Ht Hr Hc Hst] Hterm. split; try done. cbn. by rewrite Hterm. Qed.

Lemma DeleteText_does v :
  fit v → Terminal (status (v_job v)) = true → does v (DeleteText tid id) (λ _ v', fit v').
Proof.
  intros Hf Hterm. apply does_wrap, does_wrap, does_port; [done|]. intros w [Hj Hk Hr Ht].
  eexists _, (with_text None v). pose proof (fit_text_gone v Hf Hterm). split_and!; [done| |done|done].
  split; try done. apply lookup_delete_eq.
Qed.

Lemma cleanUp_does v job :
  same_job job0 job → fit v → Terminal (status (v_job v)) = true → does v (cleanUp job) (λ _ v', fit v').
Proof.
  intros (HID & HT & _) Hf Hterm w Hw. unfold cleanUp, stry. rewrite HID, HT.
  pose proof (DeleteText_does v Hf Hterm w Hw) as Hd. by destruct (DeleteText tid id w) as [[u|e] w'].
Qed.

Lemma notify_does v : fit v → does v (notify id) (λ _ v', v' = v).
Proof.
  intros Hf. unfold notify. destruct JobFinished as [f|] eqn:HJ; [|by apply does_ret].
  eapply does_try; [apply ByID_rests|]. intros [j|e] Hj; [|by apply does_ret].
  eapply does_try with (Q := λ _, True); [|intros; by apply does_ret].
  apply (rests_calm v j); [|intros w; split; [by apply JobFinished_sound|done]].
  rewrite (Hj j eq_refl). by apply Hf.
Qed.

Lemma failJob_does v job reason : same_job job0 job → fit v → does v (failJob job reason) (λ _ v', fit v').
Proof.
  intros Hsame Hf. unfold failJob. pose proof Hsame as (HID & _). rewrite HID.
  eapply does_bind with (Q := λ _ v', fit v' ∧ Terminal (status (v_job v')) = true).
  - unfold Fail. eapply does_bind with (Q := λ _ v', fit v' ∧ Terminal (status (v_job v')) = true);
      [|intros x v' Hq; by apply does_ret].
    apply does_wrap, does_port; [done|]. intros w Hw. rewrite (has_job _ _ Hw).
    destruct (live (status (v_job v))) eqn:Hl.
    + assert (fit (with_job (failed (jw_now w) reason (v_job v)) v)) as Hfit by (destruct Hf; by split).
      eexists _, _. split_and!; [done|by apply has_with_job|done|done].
    + unfold live in Hl. apply negb_false_iff in Hl. by eexists _, v.
  - intros _ v1 [Hf1 Hterm]. eapply does_bind; [by apply cleanUp_does|]. intros ? v2 Hf2.
    eapply does_mono; [by apply notify_does|]. cbv beta. by intros ? v3 ->.
Qed.

(** What a handler answers is not asked for; the job it leaves is fit. *)
Definition safe (v : View) (m : JM ()) : Prop := does v m (λ _ v', fit v').

Lemma safe_bind {A} v (m : JM A) (k : A → JM ()) Q :
  does v m Q → (∀ a v', Q a v' → safe v' (k a)) → safe v (sbind m k).
Proof. intros Hm Hk. by eapply does_bind. Qed.

Lemma safe_call {A} v (m : JM A) (k : A → JM ()) (Q : A → Prop) :
  fit v → rests v m Q → (∀ a, Q a → safe v (k a)) → safe v (sbind m k).
Proof.
  intros Hf Hm Hk. eapply does_bind; [by apply does_rests|]. intros a v' [-> Hq]. by apply Hk.
Qed.

Lemma safe_ret v a : fit v → safe v (sret a).
Proof. intros Hf. by apply does_ret. Qed.

(** The row of the job completed. *)
Lemma fit_completed v now d :
  fit v → status (v_job v) = StatusMerging →
  fit (with_job (completed now (OutputKey tid id (Format job0)) d (v_job v)) v).
Proof. intros [Hs Ht Hr Hc Hst] Hm. rewrite Hm in Hst. destruct Hst. by split. Qed.

Lemma merged_safe v job r :
  same_job job0 job → fit v → status (v_job v) = StatusMerging →
  (∀ key d, r = Ok (key, d) → key = OutputKey tid id (Format job0)) →
  safe v (match r with
          | Err err => failJob job ("merge failed: " +:+ Error_String err)
          | Ok (outputKey, durationMS) =>
              let* _ := Complete (ID job) outputKey durationMS in cleanUp job ;* notify (ID job)
          end).
Proof.
  intros Hsame Hf Hst Hr. destruct r as [[key d]|e]; [|by apply failJob_does].
  rewrite (Hr key d eq_refl). pose proof Hsame as (HID & _). rewrite HID. unfold Complete.
  eapply safe_bind.
  { apply (update_does v); [done|]. intros _ now. by apply fit_completed. }
  cbv beta. rewrite Hst, bool_decide_eq_true_2 by done. intros b v1 (-> & Hf1 & now & ->).
  eapply safe_bind; [by apply cleanUp_does|]. intros ? v2 Hf2. cbv beta in Hf2.
  eapply does_mono; [by apply notify_does|]. cbv beta. by intros ? v3 ->.
Qed.

Lemma finish_safe v :
  fit v → (status (v_job v) = StatusSynthesizing → all_done (v_rows v)) → safe v (finish (v_job v)).
Proof.
  intros Hf Hall. pose proof (fit_same _ Hf) as Hsame. pose proof Hsame as (HID & HT & HN & HF). unfold finish.
  destruct (Terminal (status (v_job v))); [by apply safe_ret|]. rewrite HID.
  eapply safe_bind.
  { apply (update_does v); [done|]. intros Hst now. zbool. pose proof (fit_status _ Hf) as Hs. rewrite Hst in Hs.
    destruct Hf. split; try done; [by intros _; apply fit_text0; rewrite Hst|]. cbn. destruct Hs. auto. }
  cbv beta. intros moved v1 (-> & Hf1 & Hv1).
  assert (negb (bool_decide (status (v_job v) = StatusSynthesizing)) && negb (bool_decide (status (v_job v) = StatusMerging)) = false →
    status (v_job v1) = StatusMerging) as Hmerging.
  { intros Hor. destruct (bool_decide_reflect (status (v_job v) = StatusSynthesizing)); [by destruct Hv1 as [now ->]|].
    subst v1. by apply negb_false_iff, bool_decide_eq_true in Hor. }
  destruct (_ && _); [by apply safe_ret|]. specialize (Hmerging eq_refl).
  eapply safe_call; [done|apply Segments_rests|]. intros segments _.
  destruct (merge_keys segments) as [seq|keys]; [by apply failJob_does|].
  eapply does_try with (Q := λ p, p.1 = OutputKey tid id (Format job0)).
  - apply (rests_calm v1 (v_job v)); [done|]. intros w. destruct (Merge_sound (v_job v) keys w) as [Hc Hk].
    split; [done|]. intros [key d] Hr. rewrite <-HT, <-HF, <-HID. by eapply Hk.
  - intros r Hr. rewrite <-HID. apply merged_safe; [done|done|done|]. intros key d ->. by apply (Hr (key, d)).
Qed.

(** ** Fanning out *)

Lemma enqueue_unfinished_rests v l q :
  rests v (enqueue_unfinished id l q)
    (λ x, q ≤ x ∧ (x = q → ∀ s, s ∈ l → sg_Status s = SegmentDone)).
Proof.
  revert q. induction l as [|s l IH]; intros q; cbn [enqueue_unfinished].
  - intros w Hw. split; [done|]. intros ? [= <-]. split; [lia|]. by intros _ s Hs%not_elem_of_nil.
  - case_bool_decide as Hs.
    + eapply rests_mono; [apply IH|]. intros x [Hle Hx]. split; [done|]. intros Heq s' [-> |Hin]%elem_of_cons; auto.
    + intros w Hw. unfold sbind.
      destruct (rests_wrap ("queue segment " +:+ Itoa (sg_Seq s) +:+ ": ") v _ _ (EnqueueSegment_rests v id (sg_Seq s)) w Hw) as [Hw' _].
      destruct (swrap _ _ w) as [[u|e] w']; [|done]. destruct (IH (q + 1) w' Hw') as [Hw2 Hx]. split; [done|].
      intros x Hr. destruct (Hx x Hr). split; [lia|]. lia.
Qed.

(** Rows that are all there and all done. *)
Lemma fit_all_done v :
  fit v → (∀ i s, v_rows v i = Some s → sg_Status s = SegmentDone) →
  status (v_job v) = StatusSynthesizing → all_done (v_rows v).
Proof.
  intros Hf Hd Hst. pose proof (fit_status _ Hf) as Hs. rewrite Hst in Hs. destruct Hs as [_ Hin].
  intros i Hi. unfold is_done. destruct (Hin i Hi) as [s Hsi]. rewrite Hsi. apply bool_decide_eq_true_2. by eapply Hd.
Qed.

Lemma fanOut_safe v : fit v → safe v (fanOut (v_job v)).
Proof.
  intros Hf. pose proof (fit_same _ Hf) as (HID & _). unfold fanOut. rewrite HID.
  eapply safe_call; [done|apply Segments_rests|]. intros l Hl. cbv beta in Hl.
  eapply safe_call; [done|apply enqueue_unfinished_rests|]. intros x [_ Hx]. cbv beta in Hx.
  destruct (Z.eqb_spec x 0) as [Hz|]; [|by apply safe_ret]. apply finish_safe; [done|].
  apply fit_all_done; [done|]. intros i s Hs. apply Hx; [done|]. apply Hl.
  destruct (fit_rows _ Hf i s Hs) as (_ & [_ ->] & _). done.
Qed.

(** ** The job's entry *)

Lemma load_safe v (k : option Job → JM ()) :
  fit v → safe v (k None) → safe v (k (Some (v_job v))) → safe v (sbind (load id) k).
Proof. intros Hf Hnone Hsome. eapply safe_call; [done|apply load_rests|]. by intros o [-> | ->]. Qed.

Lemma record_segments_does v job k l :
  ID job = id → fit v → 0 ≤ k → k + Z.of_nat (length l) ≤ n →
  does v (record_segments job k l)
    (λ _ v', fit v' ∧ v_job v' = v_job v ∧ (∀ x, is_Some (v_rows v x) → is_Some (v_rows v' x)) ∧
             ∀ x, k ≤ x < k + Z.of_nat (length l) → is_Some (v_rows v' x)).
Proof.
  intros HID. revert v k. induction l as [|t l IH]; intros v k Hf Hk Hl; cbn [record_segments].
  - apply does_ret. split_and!; [done..|]. cbn. lia.
  - rewrite HID. cbn [length] in Hl |- *.
    rewrite int32_id by (unfold in_int32, MinInt32, MaxInt32, MaxTextChars in *; lia).
    eapply does_bind; [apply does_wrap, CreateSegment_does; [done|lia]|].
    intros ? v1 (Hf1 & Hj1 & _ & Hk1 & Hin1). eapply does_mono; [apply (IH v1 (k + 1)); [done|lia|lia]|].
    intros ? v2 (Hf2 & Hj2 & Hin2 & Hall). split_and!; [done|congruence|auto|].
    intros x Hx. destruct (decide (x = k)) as [->|]; [by apply Hin2|]. apply Hall. lia.
Qed.

Lemma segment_job_safe v job :
  same_job job0 job → fit v → status (v_job v) = StatusSegmenting → safe v (segment_job job).
Proof.
  intros Hsame Hf Hst. pose proof Hsame as (HID & HT & HN & HF). unfold segment_job. rewrite HT, HID.
  eapply does_try; [apply GetText_rests|]. intros [t|e] Ht; [|by apply failJob_does].
  assert (t = text) as ->.
  { specialize (Ht t eq_refl). cbv beta in Ht. rewrite (fit_text _ Hf) in Ht by by rewrite Hst. congruence. }
  eapply does_try with (Q := λ l, l = parts).
  { apply (rests_calm v job); [done|]. intros w. destruct (Split_sound job text w) as [Hc Hl]. rewrite <-HN. auto. }
  intros [l|e] Hl; [|by apply failJob_does]. rewrite (Hl l eq_refl). cbv zeta.
  rewrite (proj2 (Z.eqb_neq _ _)), (proj2 (Z.ltb_ge _ _)) by lia.
  eapply safe_bind; [apply (record_segments_does v job 0 parts); [done|done|lia|lia]|].
  intros ? v1 (Hf1 & Hj1 & _ & Hall).
  assert (∀ now, fit (with_job (segmented now (int32 n) (v_job v1)) v1)) as Hf2.
  { intros now. rewrite int32_id by (unfold in_int32, MinInt32, MaxInt32, MaxTextChars in *; lia).
    destruct Hf1 as [Hs1 Ht1 Hr1 Hc1 Hst1]. split; try done. intros _. apply Ht1. by rewrite Hj1, Hst. }
  eapply safe_bind; [apply (update_does v1); [done|auto]|]. intros b v2 (_ & Hfit2 & _). cbv beta in *.
  eapply safe_call; [done|apply rests_wrap, ByID_rests|]. intros j ->. by apply fanOut_safe.
Qed.

Lemma handleJob_safe v e : qe_JobID e = id → fit v → safe v (handleJob e).
Proof.
  intros Hid Hf. unfold handleJob. rewrite Hid. apply load_safe; [done|by apply safe_ret|].
  destruct (Terminal _); [by apply safe_ret|]. destruct (_ || _); [by apply fanOut_safe|].
  case_bool_decide as Hst; [apply segment_job_safe; [apply Hf|done|done]|].
  pose proof (fit_same _ Hf) as (HID & _). rewrite HID.
  eapply safe_bind.
  { apply (update_does v); [done|]. intros Hq now. zbool. destruct Hf as [Hs Ht Hr Hc _]. split; try done.
    intros _. apply Ht. by rewrite Hq. }
  cbv beta. intros moved v1 (-> & Hf1 & Hv1).
  destruct (bool_decide _); cbn [negb]; [|by apply safe_ret].
  destruct Hv1 as [now ->]. apply segment_job_safe; [apply Hf|done|done].
Qed.

(** ** A segment's entry *)

Lemma retryOrFail_safe v job s reason :
  same_job job0 job → fit v → running_at (sg_Seq s) v → safe v (retryOrFail job s reason).
Proof.
  intros Hsame Hf Hrun. pose proof Hsame as (HID & _). unfold retryOrFail. rewrite HID.
  eapply safe_bind; [by apply FailSegment_does|]. intros ? v1 [Hf1 Hj1].
  destruct (MaxSegmentAttempts <=? sg_Attempts s); [by apply failJob_does|]. cbv zeta.
  eapply does_try; [apply sleep_rests|]. intros [u|e] _; [|by apply safe_ret].
  eapply does_mono; [apply does_rests; [done|apply EnqueueSegment_rests]|]. by intros ? v2 [-> _].
Qed.

Lemma run_segment_safe v job seq :
  same_job job0 job → fit v → Terminal (status (v_job v)) = false → running_at seq v → safe v (run_segment job seq).
Proof.
  intros Hsame Hf Hlive Hrun. pose proof Hsame as (HID & HT & HN & HF). unfold run_segment. rewrite HID, HT.
  eapply safe_call; [done|apply Segments_rests|]. intros l Hl. cbv beta in Hl.
  unfold findSegment. destruct (List.find _ l) as [cur|] eqn:Hcur; [|by apply does_fail].
  apply List.find_some in Hcur as [Hin Hseq]. apply Z.eqb_eq in Hseq. subst seq.
  assert (∀ reason, safe v (retryOrFail job cur reason)) as Hretry by (intros; by apply retryOrFail_safe).
  eapply does_try; [apply GetText_rests|]. intros [t|e] Ht; [|by apply Hretry].
  eapply does_try with (Q := λ l, l = pieces (Normalize job) t).
  { apply (rests_calm v job); [done|]. intros w. apply Split_sound. }
  intros r Hr. destruct (match r with Ok pieces => _ | Err _ => None end) as [piece|]; [|by apply Hretry].
  eapply does_try with (Q := λ r, sr_S3Key r = SegmentKey tid id (sg_Seq cur)).
  { apply (rests_calm v job); [done|]. intros w. rewrite <-HT, <-HID. apply Synthesize_sound. }
  intros [res|e] Hres; [|by apply Hretry]. rewrite (Hres res eq_refl).
  eapply safe_bind; [by apply CompleteSegment_does|]. intros ? v1 [Hf1 Hst1].
  eapply safe_call; [done|apply UnfinishedSegments_rests|]. intros x Hx. cbv beta in Hx.
  destruct (0 <? x) eqn:Hzero; [by apply safe_ret|].
  eapply safe_call; [done|apply rests_wrap, ByID_rests|]. intros j ->. apply finish_safe; [done|].
  apply fit_all_done; [done|]. by apply Hx.
Qed.

Lemma handleSegment_safe v e : qe_JobID e = id → fit v → safe v (handleSegment e).
Proof.
  intros Hid Hf. unfold handleSegment. rewrite Hid. apply load_safe; [done|by apply safe_ret|].
  destruct (Terminal _) eqn:Hlive; [by apply safe_ret|].
  pose proof (fit_same _ Hf) as Hsame. pose proof Hsame as (HID & _). rewrite HID.
  eapply safe_bind; [by apply ClaimSegment_does|]. intros b v1 (Hf1 & Hj1 & _ & Hrun).
  destruct b; [|by apply safe_ret]. rewrite <-Hj1. apply run_segment_safe; [apply Hf1|done|by rewrite Hj1|done].
Qed.

(** ** What can happen to the job *)

(** Everything outside the handlers of this job: other jobs, the streams, the
    clock, other objects. *)
Definition elsewhere (w w' : JobWorld) : Prop :=
  jw_jobs w' !! id = jw_jobs w !! id ∧ (∀ i, jw_segs w' !! (id, i) = jw_segs w !! (id, i)) ∧
  jw_objects w' !! input = jw_objects w !! input ∧ rows_keyed (jw_segs w').

(** One event: an entry of the job or of a segment is handled, whatever becomes
    of the calls; its tenant cancels it; or something happens elsewhere. A
    process that dies is one none of whose later calls is made. *)
Inductive job_act : JobWorld → JobWorld → Prop :=
| ja_job fs e w : qe_JobID e = id → job_act w (handleJob e (set_faults fs w)).2
| ja_segment fs e w : qe_JobID e = id → job_act w (handleSegment e (set_faults fs w)).2
| ja_cancel fs t w : job_act w (Cancel t id (set_faults fs w)).2
| ja_elsewhere w w' : elsewhere w w' → job_act w w'.

Lemma does_good {A} v (m : JM A) fs w : does v m (λ _ v', fit v') → has v w → good (m (set_faults fs w)).2.
Proof.
  intros Hm Hw. specialize (Hm _ (has_faults v fs w Hw)). destruct (m _) as [[a|e] w']; [|done].
  destruct Hm as (v' & ? & ?). by exists v'.
Qed.

Lemma job_act_good w w' : good w → job_act w w' → good w'.
Proof.
  intros (v & Hw & Hf). destruct 1 as [fs e w Hid|fs e w Hid|fs t w|w w' (E1 & E2 & E3 & E4)].
  - eapply does_good; [by apply (handleJob_safe v)|done].
  - eapply does_good; [by apply (handleSegment_safe v)|done].
  - eapply (does_good v); [|done]. eapply does_mono; [apply (update_does v); [done|]|by intros ? ? (_ & ? & _)].
    intros _ now. destruct Hf. by split.
  - exists v. split; [|done]. destruct Hw as [Hj Hk Hr Ht].
    split; [by rewrite E1|done|intros i; by rewrite E2|by rewrite E3].
Qed.

Lemma submitted_good w : submitted job0 text w → good w.
Proof.
  intros [Hf Hk Hs Ht Hj Hst Hd]. exists {| v_job := job0; v_rows := no_rows; v_text := Some text |}.
  split; [by split|]. split; try done; cbn.
  - rewrite Hd. symmetry. apply (countb_false (A := Z)).
  - by rewrite Hst.
Qed.

(** The rows of the job as they are. *)
Definition rows_of (w : JobWorld) (i : Z) : option Segment := jw_segs w !! (id, i).

(** A live job none of whose segments is running can go on. *)
Lemma good_resumable w v :
  has v w → fit v → Terminal (status (v_job v)) = false →
  (∀ i s, rows_of w i = Some s → sg_Status s ≠ SegmentRunning) →
  (∀ i s, rows_of w i = Some s → 0 ≤ i < n ∧ row_ok (v_job v) i s) ∧
  (∀ i, was_done (v_job v) text (rows_of w) i = is_done (rows_of w) i) ∧
  resumable (v_job v) text (rows_of w) (set_faults [] w).
Proof.
  intros [Hj Hk Hr Ht] [(HID & HT & HN & HF) Htext Hrows Hcount Hst] Hlive Hrun.
  assert (∀ i, was_done (v_job v) text (rows_of w) i = is_done (rows_of w) i) as Hwd.
  { intros i. unfold was_done, start, is_done. by destruct (rows_of w i). }
  assert (∀ i, v_rows v i = rows_of w i) as Heq by by intros i; rewrite <-Hr.
  assert (∀ i, is_done (v_rows v) i = is_done (rows_of w) i) as Hdone by (intros i; unfold is_done; by rewrite Heq).
  split_and!; [|done|].
  - intros i s Hs. destruct (Hrows i s) as (Hi & [E1 E2] & Hkey); [by rewrite Heq|]. split; [done|].
    unfold row_ok. rewrite HID, HT. split_and!; [done..|]. specialize (Hrun i s Hs).
    destruct (sg_Status s) eqn:Hs'; [by right|done|by left; auto|by right].
  - split; try done.
    + intros i. by rewrite HID.
    + cbn. rewrite HID, HT. rewrite Ht. auto.
    + by rewrite HID.
    + rewrite Hcount, HN. apply countb_ext. intros i _. by rewrite Hdone, Hwd.
    + destruct (status (v_job v)); try done; rewrite HN.
      * destruct Hst as [Htot Hin]. split; [done|]. intros i Hi. rewrite <-Heq. auto.
      * destruct Hst as [Htot Hin]. split; [done|]. intros i Hi. rewrite Hwd, <-Hdone. auto.
Qed.
End recover.

(** ** Properties *)

(** C12. A job survives failures. Start from a job just submitted and let its
    entries, and its segments', be handled any number of times in any order,
    any calls refused, their answers lost, or never made, its tenant cancel it
    and anything happen elsewhere. Its row still counts the segments whose rows
    are done, and if it is completed it is really complete. If it is neither
    ended nor has a segment marked running, then once calls are answered, one
    delivery of its entry queues the segments that are not done, and any
    deliveries that cover these complete the job, each synthesized once more and
    none that was done synthesized again. *)
Theorem job_recovers `{SoundPorts} job0 text w0 w :
  let id := ID job0 in
  let n := Z.of_nat (length (pieces (Normalize job0) text)) in
  let todo := left_to_do (is_done (rows_of job0 w)) (seqZ 0 n) in
  0 < n ≤ MaxTextChars → submitted job0 text w0 → rtc (job_act job0) w0 w →
  ∃ j, jw_jobs w !! id = Some j ∧ same_job job0 j ∧
    SegmentsDone j = countb (is_done (rows_of job0 w)) (seqZ 0 n) ∧
    (status j = StatusCompleted → todo = [] ∧ SegmentsTotal j = Some n ∧ SegmentsDone j = n ∧
       OutputS3Key j = OutputKey (TenantID job0) id (Format job0)) ∧
    (Terminal (status j) = false → (∀ i s, rows_of job0 w i = Some s → sg_Status s ≠ SegmentRunning) →
     ∀ e l, qe_JobID e = id →
       let w1 := (handleJob e (set_faults [] w)).2 in
       queued_on StreamSegments w1 = queued_on StreamSegments w ++ (pair id <$> todo) ∧
       ((∀ d, d ∈ l → qe_JobID d = id ∧ 0 ≤ qe_Seq d < n) → (∀ i, i ∈ todo → i ∈ qe_Seq <$> l) →
        finished j text (rows_of job0 w) (process StreamSegments l w1).2)).
Proof.
  intros id n todo Hn Hsub Hrun.
  assert (good job0 text w) as (v & Hw & Hf).
  { eapply (rtc_invariant (job_act job0)); [|by apply submitted_good|exact Hrun].
    intros a b Ha Hab. by eapply job_act_good. }
  pose proof (fit_same _ _ _ Hf) as Hsame. pose proof Hsame as (HID & HT & HN & HF).
  assert (∀ i, v_rows v i = rows_of job0 w i) as Heq by (intros i; symmetry; apply Hw).
  assert (SegmentsDone (v_job v) = countb (is_done (rows_of job0 w)) (seqZ 0 n)) as Hcount.
  { rewrite (fit_count _ _ _ Hf). apply countb_ext. intros i _. unfold is_done. by rewrite Heq. }
  exists (v_job v). split_and!; [apply Hw|done|done| |].
  - intros Hst. pose proof (fit_status _ _ _ Hf) as Hs. rewrite Hst in Hs. destruct Hs as (Htot & Hall & Hout & _).
    assert (countb (is_done (rows_of job0 w)) (seqZ 0 n) = n) as Hfull.
    { rewrite (countb_ext _ (λ _, true)), countb_true, length_seqZ; [unfold n; lia|].
      intros i Hi%elem_of_seqZ. unfold is_done. rewrite <-Heq. apply Hall. unfold n in Hi. lia. }
    split_and!; [|done|by rewrite Hcount|done]. apply nil_length_inv, Nat2Z.inj.
    unfold todo. rewrite left_to_do_length, Hfull, length_seqZ. cbn. unfold n. lia.
  - intros Hlive Hnone e l He. cbv zeta.
    destruct (good_resumable job0 text w v Hw Hf Hlive Hnone) as (Hold & Hwd & Hres).
    assert (left_to_do (was_done (v_job v) text (rows_of job0 w)) (seqZ 0 n) = todo) as Htodo.
    { unfold todo, left_to_do. apply List.filter_ext. intros i. by rewrite Hwd. }
    unfold n, id, todo in *. rewrite <-HN, <-HID in *.
    destruct (handleJob_run (v_job v) text Hn (rows_of job0 w) Hold e (set_faults [] w) Hres He) as (w1 & -> & Hw1 & Hq).
    cbn [snd]. rewrite Htodo in Hq. split; [exact Hq|]. intros Hl Hcover.
    apply (process_all_segments _ _ Hn _ Hold); [done|by apply Forall_forall|].
    intros i Hi Hd. apply Hcover. apply list_elem_of_In, List.filter_In. split.
    + apply list_elem_of_In, elem_of_seqZ. unfold n. rewrite <-HN. lia.
    + by rewrite <-Hwd, Hd.
Qed.

(** ** A job interrupted *)

Lemma put_calm job key body w :
  key ≠ InputKey (TenantID job) (ID job) → calm job w (object_put key body w).2.
Proof.
  intros Hk. unfold calm, object_put, swrap, port. cbn [faults JobWorld_faults].
  destruct (jw_faults w) as [|[] fs]; cbn [fst snd jw_jobs jw_segs jw_objects set_objs set_faults JobWorld_faults];
    split_and!; try done; by rewrite lookup_insert_ne.
Qed.

#[export] Instance demo_sound : @SoundPorts demo_ports demo_ideal.
Proof.
  assert (∀ t j rest, rest ≠ "input.txt" → "jobs/" +:+ t +:+ "/" +:+ j +:+ "/" +:+ rest ≠ InputKey t j) as Hne.
  { intros t j rest Hr Heq. unfold InputKey in Heq. repeat (apply (inj (String.append _)) in Heq). by injection Heq. }
  split; cbn.
  - intros job text w. split; [done|]. by intros l [= <-].
  - intros job seq text w. unfold PutSegment, sbind, swrap.
    pose proof (put_calm job (SegmentKey (TenantID job) (ID job) seq) text w) as Hp.
    unfold SegmentKey in *. specialize (Hp ltac:(by apply (Hne _ _ ("seg/" +:+ _)))).
    destruct (object_put _ _ w) as [[u|e] w']; cbn in *; (split; [done|]); [by intros r [= <-]|done].
  - intros job keys w. unfold sbind.
    pose proof (put_calm job (OutputKey (TenantID job) (ID job) (Format job)) "audio" w) as Hp.
    unfold OutputKey in *. specialize (Hp ltac:(by apply (Hne _ _ ("output." +:+ _)))).
    destruct (object_put _ _ w) as [[u|e] w']; cbn in *; (split; [done|]); [by intros key d [= <- <-]|done].
  - done.
Qed.

(** The gateway dies after it has recorded two of the three segments' rows. *)
Definition first_entry : QueueEntry := {| qe_ID := 1; qe_JobID := "j"; qe_Seq := 0; qe_Stream := StreamJobs |}.
Definition segment_entry (seq : Z) : QueueEntry :=
  {| qe_ID := seq + 2; qe_JobID := "j"; qe_Seq := seq; qe_Stream := StreamSegments |}.
Definition died : JobWorld :=
  (handleJob (H := demo_ports) first_entry
     (set_faults (replicate 5 Answered ++ replicate 20 Refused) (demo_world []))).2.

Example died_where :
  (option_map status (jw_jobs died !! "j"%string), sg_Seq <$> job_segments (jw_segs died) "j")
  = (Some StatusSegmenting, [0; 1]).
Proof. by vm_compute. Qed.

(** Another takes the job up: its entry, then the segments', in any order. *)
Lemma job_recovers_witness :
  ∃ j, finished (H0 := demo_ideal) j "mot hai ba" (rows_of demo_job died)
    (process (H := demo_ports) StreamSegments (segment_entry <$> [2; 0; 0; 1])
       (handleJob (H := demo_ports) first_entry (set_faults [] died)).2).2.
Proof.
  destruct (job_recovers (H := demo_ports) (H0 := demo_ideal) demo_job "mot hai ba" (demo_world []) died)
    as (j & Hj & _ & _ & _ & Hlive).
  - by vm_compute.
  - by split.
  - eapply rtc_l; [|apply rtc_refl]. by apply (ja_job (H := demo_ports) demo_job (replicate 5 Answered ++ replicate 20 Refused) first_entry (demo_world [])).
  - exists j. refine (proj2 (Hlive _ _ first_entry (segment_entry <$> [2; 0; 0; 1]) eq_refl) _ _).
    + vm_compute in Hj. by injection Hj as <-.
    + intros i s Hs. assert (map_Forall (λ _ s, sg_Status s ≠ SegmentRunning) (jw_segs died)) as Hall
        by (apply (bool_decide_unpack _); by vm_compute).
      exact (Hall _ _ Hs).
    + change (Z.of_nat _) with 3. intros d Hd.
      repeat (apply elem_of_cons in Hd as [->|Hd]; [by split|]). by apply elem_of_nil in Hd.
    + intros i Hi%list_elem_of_In%List.filter_In%proj1%list_elem_of_In%elem_of_seqZ. change (Z.of_nat _) with 3 in Hi.
      assert (i = 0 ∨ i = 1 ∨ i = 2) as [-> |[-> | ->]] by lia; by apply (bool_decide_unpack _).
Defined.
