(* ===== verification/JobQueue.v ===== *)
(** * No live job is forgotten

    The jobs' stream between the reconciler, which queues what has not moved for
    two minutes, and the consumers, which take sixteen entries a turn: whatever
    the other jobs are, a live job's entry is handed to the handler within a
    bounded number of turns, while calls are answered. A consumer's turn is one
    step, beside which the other loops and the requests run ([beside]). What the
    handler then makes of the job is [JobRun]'s and [JobRecover]'s matter. The
    reconciler's limit of a hundred is needed: [Stuck_passes_over]. *)

From stdpp Require Import base gmap strings pretty numbers sorting list.
From S2P Require Import Prelude GoString Cache Jobs JobStore Orchestrator JobRun.

#[export] Instance StreamName_eq_dec : EqDecision StreamName.
Proof. solve_decision. Defined.

(** Entries are numbered in order, below the next number. *)
Definition earlier (a b : Z * (string * Z)) : Prop := a.1 < b.1.

Record ordered (st : stream) : Prop := {
  od_sorted : StronglySorted earlier (st_entries st);
  od_below : Forall (λ e : Z * (string * Z), e.1 < st_next st) (st_entries st);
  od_last : st_last st < st_next st;
}.

(** The entries no consumer was given. *)
Definition undelivered (st : stream) : list (Z * (string * Z)) :=
  List.filter (λ e, st_last st <? e.1) (st_entries st).

(** Every call is answered, and the streams are in order. *)
Definition calm_streams (w : JobWorld) : Prop := jw_faults w = [] ∧ ∀ k, ordered (jw_streams w k).

(** ** Claiming is first in, first out *)

Lemma filter_later l a b : a ≤ b →
  List.filter (λ e : Z * (string * Z), b <? e.1) (List.filter (λ e, a <? e.1) l) = List.filter (λ e, b <? e.1) l.
Proof.
  intros Hab. induction l as [|e l IH]; [done|]. cbn. destruct (Z.ltb_spec a e.1) as [Ha|Ha]; cbn.
  - by rewrite IH.
  - destruct (Z.ltb_spec b e.1); [lia|done].
Qed.

(** The last id delivered after entries are. *)
Definition last_of (m : Z) (l : list (Z * (string * Z))) : Z := foldl (λ m e, Z.max m e.1) m l.

Lemma last_of_le l : ∀ m, m ≤ last_of m l ∧ ∀ e, e ∈ l → e.1 ≤ last_of m l.
Proof.
  induction l as [|x l IH]; intros m; cbn; [split; [lia|by intros e Hin%elem_of_nil]|].
  destruct (IH (Z.max m x.1)) as [Hm Hl]. unfold last_of in *. split; [lia|].
  intros e [-> |He]%elem_of_cons; [lia|]. by apply Hl.
Qed.

Lemma last_of_lt l : ∀ m b, m < b → (∀ e, e ∈ l → e.1 < b) → last_of m l < b.
Proof.
  induction l as [|x l IH]; intros m b Hm Hl; [done|]. cbn. apply IH.
  - specialize (Hl x ltac:(by left)). lia.
  - intros e He. apply Hl. by right.
Qed.

Lemma claim_drops st k :
  ordered st →
  List.filter (λ e, last_of (st_last st) (take k (undelivered st)) <? e.1) (st_entries st) = drop k (undelivered st).
Proof.
  intros [Hs _ _]. set (f := undelivered st). set (b := last_of _ _).
  destruct (last_of_le (take k f) (st_last st)) as [Hb Htake]. fold b in Hb, Htake.
  rewrite <-(filter_later _ (st_last st) b) by done. fold (undelivered st). fold f.
  rewrite <-(take_drop k f) at 1. rewrite List.filter_app.
  rewrite (filter_none _ (take k f)); [|intros e He; apply Z.ltb_ge; by apply Htake].
  apply filter_all. intros e He. apply Z.ltb_lt. apply last_of_lt.
  - assert (e ∈ f) as Hf by (rewrite <-(take_drop k f); by apply elem_of_app; right).
    apply list_elem_of_In, List.filter_In in Hf as [_ Hf]. by apply Z.ltb_lt.
  - intros x Hx. apply (StronglySorted_app_1_elem_of earlier (take k f) (drop k f)); [|done..].
    rewrite take_drop. by apply sorted_filter.
Qed.


(** ** Adding *)

Section flows.
Variable q : StreamName.

(** While calls are answered, entries are only added to the stream, after those
    there are. *)
Definition grown (st st' : stream) (l : list (Z * (string * Z))) : Prop :=
  st_entries st' = st_entries st ++ l ∧ undelivered st' = undelivered st ++ l.

Definition flows (w w' : JobWorld) : Prop :=
  calm_streams w → calm_streams w' ∧ ∃ l, grown (jw_streams w q) (jw_streams w' q) l.

Lemma grown_refl st st' : st_entries st' = st_entries st → undelivered st' = undelivered st → ∃ l, grown st st' l.
Proof. intros E1 E2. exists []. split; by rewrite app_nil_r. Qed.

#[export] Instance flows_preorder : PreOrder flows.
Proof.
  split.
  - intros w Hw. split; [done|]. by apply grown_refl.
  - intros w1 w2 w3 H1 H2 Hw. destruct (H1 Hw) as [Hw2 [l1 [E1 F1]]]. destruct (H2 Hw2) as [Hw3 [l2 [E2 F2]]].
    split; [done|]. exists (l1 ++ l2). split; by rewrite ?E2, ?E1, ?F2, ?F1, app_assoc.
Qed.

(** A call that leaves the streams alone. *)
Lemma flows_same w w' : jw_streams w' = jw_streams w → jw_faults w' = jw_faults w → flows w w'.
Proof.
  intros E1 E2 [Hf Ho]. split; [split; [by rewrite E2|by rewrite E1]|]. rewrite E1. by apply grown_refl.
Qed.

Lemma flows_port {A} (op : JM A) : moves flows op → moves flows (port op).
Proof. intros Hop w [Hf Ho]. unfold port. cbn [faults JobWorld_faults]. rewrite Hf. by apply Hop. Qed.

Lemma flows_port_same {A} (op : JM A) :
  (∀ w, jw_streams (op w).2 = jw_streams w ∧ jw_faults (op w).2 = jw_faults w) → moves flows (port op).
Proof. intros H. apply flows_port. intros w. by apply flows_same; apply H. Qed.

Lemma streams_set n k st w :
  jw_streams (set_stream n st w) k = if decide (k = n) then st else jw_streams w k.
Proof. by destruct n, k. Qed.

(** One stream replaced, in order and with its entries and perhaps more. *)
Lemma flows_stream n st w :
  (ordered (jw_streams w n) → ordered st ∧ (n = q → ∃ l, grown (jw_streams w n) st l)) →
  flows w (set_stream n st w).
Proof.
  intros Hst [Hf Ho]. destruct (Hst (Ho n)) as [Hos Hl]. split.
  - split; [done|]. intros k. rewrite streams_set. by case_decide.
  - rewrite streams_set. case_decide as Hq; [rewrite Hq; by apply Hl|]. by apply grown_refl.
Qed.

Lemma stream_add_flows n id seq : moves flows (stream_add n id seq).
Proof.
  apply moves_wrap, flows_port. intros w. apply flows_stream. intros [Hs Hb Hl]. split.
  - split; cbn; [| |lia].
    + apply StronglySorted_app_2; [|done|by repeat constructor]. intros a b Ha ->%list_elem_of_singleton.
      rewrite Forall_forall in Hb. by apply (Hb a).
    + apply Forall_app. split; [|repeat constructor; cbn; lia]. eapply Forall_impl; [exact Hb|]. cbn. lia.
  - intros _. exists [(st_next (jw_streams w n), (id, seq))]. split; [done|]. unfold undelivered. cbn. rewrite List.filter_app. cbn.
    by rewrite (proj2 (Z.ltb_lt _ _)) by lia.
Qed.

Lemma Enqueue_flows id : moves flows (Enqueue id).
Proof. apply stream_add_flows. Qed.

Lemma EnqueueSegment_flows id seq : moves flows (EnqueueSegment id seq).
Proof. apply stream_add_flows. Qed.

(** Calls that change only what is pending. *)
Lemma flows_pending n p w :
  flows w (set_stream n {| st_entries := st_entries (jw_streams w n); st_next := st_next (jw_streams w n);
                           st_last := st_last (jw_streams w n); st_pending := p |} w).
Proof.
  apply flows_stream. intros [Hs Hb Hl]. split; [by split|]. intros _. by apply grown_refl.
Qed.

Lemma Ack_flows n k : moves flows (Ack n k).
Proof. apply moves_wrap, flows_port. intros w. apply flows_pending. Qed.

Lemma ClaimStale_flows n idle count : moves flows (ClaimStale n idle count).
Proof. apply moves_wrap, flows_port. intros w. apply flows_pending. Qed.

(** Calls that leave the streams alone. *)
Ltac still := intros; repeat first
  [ apply moves_wrap | apply flows_port_same; intros; cbv zeta; repeat (case_match; cbn [fst snd]); by split ].

Lemma one_row_flows pre f : moves flows (one_row pre f).
Proof.
  intros w. unfold one_row. pose proof (flows_port_same (λ w, (Ok (f w), w)) ltac:(by split) w) as Hp.
  destruct (port _ w) as [[[j|]|e] w']; exact Hp.
Qed.

Lemma ByID_flows id : moves flows (ByID id).
Proof. apply one_row_flows. Qed.

Lemma object_get_flows key : moves flows (object_get key).
Proof.
  intros w. unfold object_get. pose proof (flows_port_same (λ w, (Ok (jw_objects w !! key), w)) ltac:(by split) w) as Hp.
  destruct (port _ w) as [[[j|]|e] w']; exact Hp.
Qed.

Lemma GetText_flows t id : moves flows (GetText t id).
Proof. apply moves_wrap, object_get_flows. Qed.

Lemma affected_flows pre m : moves flows m → moves flows (affected pre m).
Proof.
  intros Hm. apply moves_bind; [apply _| |intros; apply moves_ret, _]. by apply moves_wrap.
Qed.

Lemma update_flows pre id cond f : moves flows (affected pre (update_where id cond f)).
Proof. apply affected_flows. still. Qed.

Lemma Transition_flows id from to : moves flows (Transition id from to).
Proof. apply update_flows. Qed.
Lemma Cancel_flows t id : moves flows (Cancel t id).
Proof. apply update_flows. Qed.
Lemma SetSegmentsTotal_flows id total : moves flows (SetSegmentsTotal id total).
Proof. apply update_flows. Qed.
Lemma Complete_flows id out d : moves flows (Complete id out d).
Proof. apply update_flows. Qed.
Lemma Fail_flows id reason : moves flows (Fail id reason).
Proof. apply moves_bind; [apply _|still|intros; apply moves_ret, _]. Qed.
Lemma Segments_flows id : moves flows (Segments id).
Proof. still. Qed.
Lemma UnfinishedSegments_flows id : moves flows (UnfinishedSegments id).
Proof. still. Qed.
Lemma CreateSegment_flows id i h c : moves flows (CreateSegment id i h c).
Proof. still. Qed.
Lemma ClaimSegment_flows id i : moves flows (ClaimSegment id i).
Proof. apply affected_flows. still. Qed.
Lemma CompleteSegment_flows id i key : moves flows (CompleteSegment id i key).
Proof.
  apply moves_wrap, flows_port. intros w. destruct (jw_segs w !! (id, i)) as [s|]; [|done].
  case_bool_decide; [|done]. cbn. destruct (jw_jobs w !! id); by apply flows_same.
Qed.
Lemma FailSegment_flows id i reason : moves flows (FailSegment id i reason).
Proof. still. Qed.
Lemma DeleteText_flows t id : moves flows (DeleteText t id).
Proof. still. Qed.
Lemma PutText_flows t id text : moves flows (PutText t id text).
Proof. unfold PutText, object_put. still. Qed.
Lemma Stuck_flows before limit : moves flows (Stuck before limit).
Proof. still. Qed.
Lemma sleep_flows d : moves flows (sleep d).
Proof. still. Qed.
Lemma Create_flows job : moves flows (Create job).
Proof. unfold Create. destruct (negb _); [apply moves_fail, _|still]. Qed.

(** ** The handlers *)

Context `{IdealPorts}.

Lemma flows_ideal {A} job (m : JM A) :
  (∀ w, jw_faults w = [] → undisturbed job w (m w).2) → moves flows m.
Proof.
  intros Hm w Hw. pose proof (Hm w (proj1 Hw)) as [_ _ Es Ef _]. by apply (flows_same w (m w).2 Es Ef).
Qed.

Lemma Split_flows job text : moves flows (Split job text).
Proof. apply (flows_ideal job). intros w Hf. by destruct (Split_ideal job text w Hf) as (w' & -> & ?). Qed.
Lemma Synthesize_flows job seq text : moves flows (Synthesize job seq text).
Proof. apply (flows_ideal job). intros w Hf. by destruct (Synthesize_ideal job seq text w Hf) as (r & w' & -> & ? & _). Qed.
Lemma Merge_flows job keys : moves flows (Merge job keys).
Proof. apply (flows_ideal job). intros w Hf. by destruct (Merge_ideal job keys w Hf) as (w' & -> & ?). Qed.
Lemma JobFinished_flows f job : JobFinished = Some f → moves flows (f job).
Proof.
  intros HJ. apply (flows_ideal job). intros w Hf. by destruct (JobFinished_ideal f job w HJ Hf) as (r & w' & -> & ?).
Qed.

Local Hint Resolve Ack_flows ByID_flows GetText_flows Transition_flows Cancel_flows SetSegmentsTotal_flows
  Complete_flows Fail_flows Segments_flows UnfinishedSegments_flows CreateSegment_flows ClaimSegment_flows
  CompleteSegment_flows FailSegment_flows DeleteText_flows Stuck_flows sleep_flows Create_flows Enqueue_flows
  EnqueueSegment_flows ClaimStale_flows Split_flows Synthesize_flows Merge_flows JobFinished_flows : gateway.

Lemma cleanUp_flows job : moves flows (cleanUp job).
Proof. unfold cleanUp. moving. Qed.
Local Hint Resolve cleanUp_flows : gateway.

Lemma notify_flows id : moves flows (notify id).
Proof. unfold notify. destruct JobFinished eqn:HJ; moving. Qed.
Local Hint Resolve notify_flows : gateway.

Lemma failJob_flows job reason : moves flows (failJob job reason).
Proof. unfold failJob. moving. Qed.
Local Hint Resolve failJob_flows : gateway.

Lemma finish_flows job : moves flows (finish job).
Proof. unfold finish. moving. Qed.
Local Hint Resolve finish_flows : gateway.

Lemma enqueue_unfinished_flows id l k : moves flows (enqueue_unfinished id l k).
Proof. revert k. induction l as [|s l IH]; intros k; cbn [enqueue_unfinished]; moving; apply IH. Qed.
Local Hint Resolve enqueue_unfinished_flows : gateway.

Lemma fanOut_flows job : moves flows (fanOut job).
Proof. unfold fanOut. moving. Qed.
Local Hint Resolve fanOut_flows : gateway.

Lemma load_flows id : moves flows (load id).
Proof. unfold load. moving. Qed.
Local Hint Resolve load_flows : gateway.

Lemma record_segments_flows job k l : moves flows (record_segments job k l).
Proof. revert k. induction l as [|t l IH]; intros k; cbn [record_segments]; moving; apply IH. Qed.
Local Hint Resolve record_segments_flows : gateway.

Lemma segment_job_flows job : moves flows (segment_job job).
Proof. unfold segment_job. moving. Qed.
Local Hint Resolve segment_job_flows : gateway.

Lemma handleJob_flows e : moves flows (handleJob e).
Proof. unfold handleJob. moving. Qed.

Lemma retryOrFail_flows job s reason : moves flows (retryOrFail job s reason).
Proof. unfold retryOrFail. moving. Qed.
Local Hint Resolve retryOrFail_flows : gateway.

Lemma run_segment_flows job seq : moves flows (run_segment job seq).
Proof. unfold run_segment. moving. Qed.
Local Hint Resolve run_segment_flows : gateway.

Lemma handleSegment_flows e : moves flows (handleSegment e).
Proof. unfold handleSegment. moving. Qed.

Lemma process_flows n l : moves flows (process n l).
Proof.
  induction l as [|e l IH]; cbn [process]; [apply moves_ret, _|].
  apply moves_try; [apply _|destruct n; [apply handleJob_flows|apply handleSegment_flows]|intros _].
  apply moves_try; [apply _|apply Ack_flows|by intros _].
Qed.

Lemma requeue_flows l : moves flows (requeue l).
Proof. induction l as [|j l IH]; cbn [requeue]; moving. Qed.

Lemma recover_flows n : moves flows (recover n).
Proof.
  apply moves_bind; [apply _|apply moves_wrap, ClaimStale_flows|]. intros. apply process_flows.
Qed.

Lemma ReconcileOnce_flows : moves flows ReconcileOnce.
Proof.
  apply moves_bind; [apply _|intros w; by apply flows_same|]. intros now.
  apply moves_bind; [apply _|apply moves_wrap, Stuck_flows|]. intros stuck.
  apply moves_bind; [apply _|apply requeue_flows|]. intros _.
  apply moves_bind; [apply _|apply recover_flows|]. intros _. apply recover_flows.
Qed.
End flows.

(** ** Turns *)

Section turns.
Context `{IdealPorts}.
Variable q : StreamName.

(** The worlds in which [k] turns begin, with nothing beside them. *)
Fixpoint turns (k : nat) (w : JobWorld) : list JobWorld :=
  match k with
  | O => []
  | S k => w :: turns k (consume_once q w).2
  end.

(** What goes on beside the turns of the stream's consumers. *)
Inductive beside : JobWorld → JobWorld → Prop :=
| be_consume n w : n ≠ q → beside w (consume_once n w).2
| be_reconcile w : beside w (ReconcileOnce w).2
| be_create job w : beside w (Create job w).2
| be_text tid id text w : beside w (PutText tid id text w).2
| be_enqueue id w : beside w (Enqueue id w).2
| be_cancel tid id w : beside w (Cancel tid id w).2
| be_time dt w : beside w (pass_time dt w).

(** An execution, and the worlds in which its turns begin. *)
Inductive runs : JobWorld → list JobWorld → Prop :=
| run_end w : runs w []
| run_turn w l : runs (consume_once q w).2 l → runs w (w :: l)
| run_beside w w' l : beside w w' → runs w' l → runs w l.

Lemma turns_run k w : runs w (turns k w).
Proof. revert w. induction k; intros w; cbn [turns]; by constructor. Qed.

(** The turn begun in [w] hands [d] to its handler in [wk]. *)
Definition hands (d : QueueEntry) (w wk : JobWorld) : Prop :=
  ∃ before after w1, Claim q claimBatch w = (Ok (before ++ d :: after), w1) ∧ wk = (process q before w1).2 ∧
    (consume_once q w).2 = (process q after (Ack q (qe_ID d) (handle q d wk).2).2).2.

Lemma process_app n l1 l2 w : (process n (l1 ++ l2) w).2 = (process n l2 (process n l1 w).2).2.
Proof.
  revert w. induction l1 as [|e l1 IH]; intros w; [done|]. cbn [app process]. unfold stry.
  destruct (handle n e w) as [r1 w1]. destruct (Ack n (qe_ID e) w1) as [r2 w2]. apply IH.
Qed.

Lemma process_cons n e l w : (process n (e :: l) w).2 = (process n l (Ack n (qe_ID e) (handle n e w).2).2).2.
Proof.
  cbn [process]. unfold stry. destruct (handle n e w) as [r1 w1]. cbn. by destruct (Ack n (qe_ID e) w1) as [r2 w2].
Qed.

(** A claim takes the first sixteen. *)
Lemma Claim_run n w :
  calm_streams w →
  ∃ w1, Claim n claimBatch w = (Ok (to_entry n <$> take 16 (undelivered (jw_streams w n))), w1) ∧ calm_streams w1 ∧
    (∀ k, k ≠ n → jw_streams w1 k = jw_streams w k) ∧
    undelivered (jw_streams w1 n) = drop 16 (undelivered (jw_streams w n)).
Proof.
  intros [Hf Ho]. eexists. split; [unfold Claim; apply wrap_ok; by rewrite port_answered|]. split_and!.
  - split; [done|]. intros k. rewrite streams_set. case_decide; [|done]. destruct (Ho n) as [Hs Hb Hl]. split; cbn; [done..|].
    apply last_of_lt; [done|]. intros e He. rewrite Forall_forall in Hb. apply Hb.
    pose proof (elem_of_sublist _ _ _ He (sublist_take _ _)) as [Hin _]%list_elem_of_In%List.filter_In.
    by apply list_elem_of_In.
  - intros k Hk. by rewrite streams_set, decide_False.
  - rewrite streams_set, decide_True by done. by apply (claim_drops (jw_streams w n) 16).
Qed.

Lemma consume_flows n w : n ≠ q → flows q w (consume_once n w).2.
Proof.
  intros Hn Hw. unfold consume_once, stry. destruct (Claim_run n w Hw) as (w1 & -> & Hw1 & Hu & _).
  destruct (process_flows q n (to_entry n <$> take 16 (undelivered (jw_streams w n))) w1 Hw1) as [Hw2 Hl].
  split; [exact Hw2|]. by rewrite Hu in Hl by done.
Qed.

Lemma beside_flows w w' : beside w w' → flows q w w'.
Proof.
  destruct 1; [by apply consume_flows|by apply ReconcileOnce_flows|by apply Create_flows|by apply PutText_flows|by apply Enqueue_flows|
    by apply Cancel_flows|by apply flows_same].
Qed.

(** Every entry is handed to its handler, in turn. *)
Lemma entry_handed w l a e b :
  runs w l → calm_streams w → undelivered (jw_streams w q) = a ++ e :: b → Z.of_nat (length a) < 16 * Z.of_nat (length l) →
  ∃ w1 wk, w1 ∈ l ∧ hands (to_entry q e) w1 wk ∧ calm_streams wk.
Proof.
  intros Hr. revert a b. induction Hr as [w|w l Hr IH|w w' l Hb Hr IH]; intros a b Hw Hu Hlen.
  - cbn in Hlen. lia.
  - destruct (Claim_run q w Hw) as (w1 & HC & Hw1 & _ & Hu1).
    destruct (decide (length a < 16)%nat) as [Ha|Ha].
    + exists w, (process q (to_entry q <$> a) w1).2. split; [by left|]. split; [|by apply process_flows].
      rewrite Hu, take_app_ge in HC by lia. destruct (16 - length a)%nat as [|k] eqn:Hk; [lia|].
      cbn [take] in HC. rewrite fmap_app, fmap_cons in HC.
      eexists _, _, w1. split; [exact HC|]. split; [done|]. unfold consume_once, stry. rewrite HC.
      by rewrite process_app, process_cons.
    + assert (consume_once q w = process q (to_entry q <$> take 16 (undelivered (jw_streams w q))) w1) as Hrun
        by (unfold consume_once, stry; by rewrite HC).
      destruct (process_flows q q (to_entry q <$> take 16 (undelivered (jw_streams w q))) w1 Hw1) as [Hw2 [l2 [_ Hl2]]].
      rewrite <-Hrun in Hw2, Hl2. rewrite Hu1, Hu, drop_app_le in Hl2 by lia.
      destruct (IH (drop 16 a) (b ++ l2)) as (w3 & wk & Hin & Hh & Hwk); [done| | |].
      * rewrite Hl2. by rewrite <-app_assoc.
      * rewrite length_drop. cbn [length] in Hlen. lia.
      * exists w3, wk. split; [by right|done].
  - destruct (beside_flows _ _ Hb Hw) as [Hw' [l2 [_ Hl2]]]. apply (IH a (b ++ l2)); [done| |done].
    rewrite Hl2, Hu. by rewrite <-app_assoc.
Qed.
End turns.

(** ** The reconciler *)

(** One of the first by a key. *)
Lemma early_taken {A} (key : A → Z) l x k :
  StronglySorted (λ a b, (key b <? key a) = false) l → x ∈ l →
  countb (λ y, key y <=? key x) l ≤ Z.of_nat k → x ∈ take k l.
Proof.
  intros Hs. revert k. induction Hs as [|y l Hs IH Hy]; intros k Hin Hk; [by apply elem_of_nil in Hin|].
  assert (key y ≤ key x) as Hle.
  { apply elem_of_cons in Hin as [-> |Hin]; [done|]. rewrite Forall_forall in Hy. by apply Z.ltb_ge, Hy. }
  pose proof (countb_nonneg (λ y, key y <=? key x) l) as Hnn.
  cbn [countb foldr] in Hk. fold (countb (λ y, key y <=? key x) l) in Hk. rewrite (proj2 (Z.leb_le _ _)) in Hk by done.
  destruct k as [|k]; [lia|]. cbn [take]. apply elem_of_cons in Hin as [-> |Hin]; [by left|]. right. apply IH; [done|lia].
Qed.

Lemma late_dropped {A} (key : A → Z) l x k :
  StronglySorted (λ a b, (key b <? key a) = false) l → x ∈ take k l → countb (λ y, key y <? key x) l < Z.of_nat k.
Proof.
  intros Hs. revert k. induction Hs as [|y l Hs IH Hy]; intros [|k] Hin; try by apply elem_of_nil in Hin.
  cbn [take] in Hin. cbn [countb foldr]. fold (countb (λ y, key y <? key x) l).
  apply elem_of_cons in Hin as [-> |Hin].
  - rewrite Z.ltb_irrefl. assert (countb (λ z, key z <? key y) l = 0) as ->; [|lia]. by apply countb_zero.
  - specialize (IH k Hin). destruct (key y <? key x); lia.
Qed.

(** Live and not updated since. *)
Definition waits_since (t : Z) (j : Job) : bool := live (status j) && (UpdatedAt j <=? t).

Lemma Stuck_run w limit before j :
  calm_streams w → j ∈ snd <$> map_to_list (jw_jobs w) → live (status j) = true → UpdatedAt j < before →
  countb (waits_since (UpdatedAt j)) (snd <$> map_to_list (jw_jobs w)) ≤ limit →
  ∃ l, Stuck before limit w = (Ok l, w) ∧ j ∈ l ∧ Z.of_nat (length l) ≤ limit.
Proof.
  intros [Hf Ho] Hj Hlive Hold Hc. pose proof (countb_nonneg (waits_since (UpdatedAt j)) (snd <$> map_to_list (jw_jobs w))) as Hnn.
  eexists. split; [unfold Stuck; apply wrap_ok; by rewrite port_answered|]. split; [|rewrite length_take; lia].
  apply (early_taken UpdatedAt); [|rewrite order_by_elem|].
  - apply order_by_ordered; cbn; intros *; rewrite ?Z.ltb_lt, ?Z.ltb_ge; lia.
  - apply list_elem_of_In, List.filter_In. split; [by apply list_elem_of_In|]. by rewrite Hlive, (proj2 (Z.ltb_lt _ _)).
  - rewrite (countb_perm _ _ _ (order_by_perm _ _)), countb_filter. etrans; [|etrans; [exact Hc|lia]].
    apply countb_le. intros x. unfold waits_since. by destruct (live (status x)), (UpdatedAt x <? before).
Qed.

(** The limit: a job is passed over while a hundred live ones have rested
    longer. *)
Lemma Stuck_passes_over w before limit j l w' :
  calm_streams w → 0 ≤ limit → Stuck before limit w = (Ok l, w') →
  limit ≤ countb (λ i, live (status i) && (UpdatedAt i <? UpdatedAt j)) (snd <$> map_to_list (jw_jobs w)) → j ∉ l.
Proof.
  intros [Hf Ho] Hl HS Hc Hin. unfold Stuck, swrap in HS. rewrite port_answered in HS by done. injection HS as <- <-.
  pose proof (elem_of_sublist _ _ _ Hin (sublist_take _ _)) as Hj.
  apply (late_dropped UpdatedAt) in Hin; [|apply order_by_ordered; intros *; rewrite ?Z.ltb_lt, ?Z.ltb_ge; lia].
  rewrite order_by_elem in Hj. apply list_elem_of_In, List.filter_In in Hj as [_ Hj].
  apply andb_true_iff in Hj as [_ Hj%Z.ltb_lt].
  rewrite (countb_perm _ _ _ (order_by_perm _ _)), countb_filter, Z2Nat.id in Hin by done.
  enough (countb (λ i, live (status i) && (UpdatedAt i <? UpdatedAt j)) (snd <$> map_to_list (jw_jobs w)) ≤
    countb (λ i, live (status i) && (UpdatedAt i <? before) && (UpdatedAt i <? UpdatedAt j)) (snd <$> map_to_list (jw_jobs w))) by lia.
  apply countb_le. intros i [-> Hi%Z.ltb_lt]%andb_true_iff. cbn.
  by rewrite !(proj2 (Z.ltb_lt _ _)) by lia.
Qed.

Section reconcile.
Context `{IdealPorts}.

Lemma requeue_run l w :
  calm_streams w →
  ∃ w1 es, requeue l w = (Ok (), w1) ∧ calm_streams w1 ∧
    undelivered (jw_streams w1 StreamJobs) = undelivered (jw_streams w StreamJobs) ++ es ∧
    snd <$> es = (λ j, (ID j, 0)) <$> l.
Proof.
  revert w. induction l as [|j l IH]; intros w Hw; cbn [requeue].
  - exists w, []. by rewrite app_nil_r.
  - destruct (Enqueue_flows StreamJobs (ID j) w Hw) as [Hw1 _]. destruct Hw as [Hf Ho].
    unfold Enqueue, stream_add in Hw1 |- *. erewrite bind_ok by (do 2 apply wrap_ok; by rewrite port_answered).
    unfold swrap in Hw1. rewrite port_answered in Hw1 by done. cbn [snd] in Hw1.
    destruct (IH _ Hw1) as (w2 & es & Hrun & Hw2 & Hu & He). exists w2, ((st_next (jw_streams w StreamJobs), (ID j, 0)) :: es).
    split_and!; [done|done| |by rewrite !fmap_cons, He]. rewrite Hu. unfold undelivered at 1. cbn.
    rewrite List.filter_app. cbn. destruct (Ho StreamJobs) as [_ _ Hl].
    by rewrite (proj2 (Z.ltb_lt _ _)), <-app_assoc by lia.
Qed.

(** After a reconcile, an entry for each job it found is on the stream, after
    those there were. *)
Lemma ReconcileOnce_run w l :
  calm_streams w → Stuck (jw_now w - StuckAfter) 100 w = (Ok l, w) →
  calm_streams (ReconcileOnce w).2 ∧
  ∃ es more, undelivered (jw_streams (ReconcileOnce w).2 StreamJobs) = undelivered (jw_streams w StreamJobs) ++ es ++ more ∧
    snd <$> es = (λ j, (ID j, 0)) <$> l.
Proof.
  intros Hw HS. unfold ReconcileOnce. erewrite bind_ok by reflexivity. erewrite bind_ok by by apply wrap_ok.
  destruct (requeue_run l w Hw) as (w1 & es & Hrun & Hw1 & Hu & He). erewrite bind_ok by exact Hrun.
  assert (moves (flows StreamJobs) (recover StreamJobs ;* recover StreamSegments)) as Hrest
    by (apply moves_bind; [apply _|by apply recover_flows|intros _; by apply recover_flows]).
  destruct (Hrest w1 Hw1) as [Hw2 [more [_ Hmore]]]. split; [done|]. exists es, more. split; [|done].
  by rewrite Hmore, Hu, <-app_assoc.
Qed.
End reconcile.

(** No live job is forgotten. Let a live job have rested for more than two
    minutes, at most a hundred live jobs as long (itself counted), while calls
    are answered. After a reconcile its entry is on the jobs' stream, and
    whatever else goes on, within as many turns of the consumers as the entries
    before it take, sixteen a turn, one of them hands an entry of the job to
    the handler. *)
Theorem job_attended `{IdealPorts} w j l :
  calm_streams w → jw_jobs w !! ID j = Some j → live (status j) = true → UpdatedAt j < jw_now w - StuckAfter →
  countb (waits_since (UpdatedAt j)) (snd <$> map_to_list (jw_jobs w)) ≤ 100 →
  runs StreamJobs (ReconcileOnce w).2 l →
  Z.of_nat (length (undelivered (jw_streams w StreamJobs))) + 100 ≤ 16 * Z.of_nat (length l) →
  ∃ d w1 wk, qe_JobID d = ID j ∧ w1 ∈ l ∧ hands StreamJobs d w1 wk ∧ jw_faults wk = [].
Proof.
  intros Hw Hj Hlive Hold Hc Hr Hlen.
  destruct (Stuck_run w 100 (jw_now w - StuckAfter) j) as (ls & HS & Hin & Hls); [done| |done..|].
  { apply list_elem_of_fmap. exists (ID j, j). split; [done|]. by apply elem_of_map_to_list. }
  destruct (ReconcileOnce_run w ls Hw HS) as (Hw1 & es & more & Hu & He).
  assert ((ID j, 0) ∈ snd <$> es) as (e & He1 & He2)%list_elem_of_fmap.
  { rewrite He. apply list_elem_of_fmap. by exists j. }
  apply list_elem_of_split in He2 as (a & b & ->).
  assert (length (a ++ e :: b) = length ls) as Hl by (apply (f_equal length) in He; by rewrite !length_fmap in He).
  rewrite length_app in Hl. cbn [length] in Hl.
  destruct (entry_handed StreamJobs _ l (undelivered (jw_streams w StreamJobs) ++ a) e (b ++ more) Hr Hw1)
    as (w2 & wk & Hw2 & Hh & Hwk).
  - rewrite Hu, <-!app_assoc. by cbn.
  - rewrite length_app. lia.
  - exists (to_entry StreamJobs e), w2, wk. split; [|split_and!; [done..|apply Hwk]]. cbn. by rewrite <-He1.
Qed.

Lemma job_attended_witness :
  let w := pass_time (3 * Minute) (demo_world []) in
  ∃ d w1 wk, qe_JobID d = "j"%string ∧
    w1 ∈ turns (H := demo_ports) StreamJobs 7 (ReconcileOnce (H := demo_ports) w).2 ∧
    hands (H := demo_ports) StreamJobs d w1 wk ∧ jw_faults wk = [].
Proof.
  apply (job_attended (H := demo_ports) (H0 := demo_ideal) (pass_time (3 * Minute) (demo_world [])) demo_job).
  - split; [done|]. intros [|]; (split; [repeat constructor..|done]).
  - by vm_compute.
  - done.
  - done.
  - by vm_compute.
  - apply turns_run.
  - by vm_compute.
Defined.
