(* ===== verification/JobStuck.v ===== *)
(** * A segment left running

    A segment is claimed by marking its row running, and only a pending or
    failed row can be claimed. What becomes of a job one of whose segments was
    claimed by a process that never recorded an outcome (it died, or the
    statement that records it failed) is a property of all the handlers
    together. *)

From stdpp Require Import base gmap strings pretty numbers sorting list.
From S2P Require Import Prelude GoString Cache Jobs JobStore Orchestrator JobRun.

(** Every job row is under its own id. *)
Definition jobs_keyed (m : gmap string Job) : Prop := map_Forall (λ id j, ID j = id) m.

Section stuck.
Variables (id : string) (seq : Z).

(** Where a job that waits for a segment can be. *)
Definition waiting (s : Status) : Prop :=
  s = StatusSynthesizing ∨ s = StatusFailed ∨ s = StatusCancelled.

Record stuck (w : JobWorld) : Prop := {
  sk_jobs : jobs_keyed (jw_jobs w);
  sk_segs : rows_keyed (jw_segs w);
  sk_running : ∃ s, jw_segs w !! (id, seq) = Some s ∧ sg_Status s = SegmentRunning;
  sk_waiting : ∃ j, jw_jobs w !! id = Some j ∧ waiting (status j);
}.

Lemma stuck_same w w' :
  jw_jobs w' = jw_jobs w → jw_segs w' = jw_segs w → stuck w → stuck w'.
Proof. intros E1 E2 [H1 H2 H3 H4]. split; by rewrite ?E1, ?E2. Qed.

Lemma stuck_port {A} (op : JM A) Q : holds stuck op Q → holds stuck (port op) Q.
Proof. apply holds_port. intros fs w. by apply stuck_same. Qed.

(** Calls that write no row. *)
Lemma stuck_port_same {A} (op : JM A) :
  (∀ w, jw_jobs (op w).2 = jw_jobs w ∧ jw_segs (op w).2 = jw_segs w) →
  holds stuck (port op) (λ _, True).
Proof. intros H. apply stuck_port. intros w Hw. split; [|done]. by eapply stuck_same; [apply H..|]. Qed.

Lemma stuck_rows_same {A} (m : JM A) : moves rows_same m → holds stuck m (λ _, True).
Proof. intros H w Hw. split; [|done]. destruct (H w). by eapply stuck_same. Qed.

Lemma stuck_set_job w k j j' :
  stuck w → jw_jobs w !! k = Some j → ID j' = ID j → (k = id → waiting (status j')) →
  stuck (set_jobs (<[k := j']> (jw_jobs w)) w).
Proof.
  intros [H1 H2 H3 (j0 & Hj0 & Hw0)] Hj Hid Hst. split; [| done | done |].
  - apply map_Forall_insert_2; [|done]. rewrite Hid. by apply (H1 k j).
  - cbn. destruct (decide (k = id)) as [->|Hne].
    + exists j'. rewrite lookup_insert_eq. auto.
    + exists j0. by rewrite lookup_insert_ne.
Qed.

Lemma stuck_set_seg w k i s :
  stuck w → (k, i) ≠ (id, seq) → sg_JobID s = k → sg_Seq s = i →
  stuck (set_segs (<[(k, i) := s]> (jw_segs w)) w).
Proof.
  intros [H1 H2 (s0 & Hs0 & Hr0) H4] Hne Hk Hi. split; [done| | |done].
  - intros k1 k2 s' Hl. cbn in Hl. apply lookup_insert_Some in Hl as [[[= <- <-] <-]|[_ Hl]]; [done|].
    by apply H2.
  - exists s0. cbn. by rewrite lookup_insert_ne.
Qed.

(** An update the waiting job's row does not match, or one that keeps it
    waiting. *)
Lemma stuck_update k cond f :
  (∀ now j, ID (f now j) = ID j) →
  (k = id → ∀ now j, waiting (status j) → cond j = true → waiting (status (f now j))) →
  holds stuck (update_where k cond f) (λ _, True).
Proof.
  intros Hid Hst. apply stuck_port. intros w Hw. split; [|done].
  destruct (jw_jobs w !! k) as [j|] eqn:Hj; [|done]. destruct (cond j) eqn:Hc; [|done]. cbn.
  eapply stuck_set_job; [done..|]. intros ->. apply Hst; [done| |done].
  destruct (sk_waiting _ Hw) as (j0 & Hj0 & Hw0). by simplify_eq.
Qed.

Lemma stuck_affected pre m : holds stuck m (λ _, True) → holds stuck (affected pre m) (λ _, True).
Proof. intros Hm. eapply holds_bind; [by apply holds_wrap|]. intros. by apply holds_ret. Qed.

Lemma stuck_one_row pre q Q :
  (∀ w j, stuck w → q w = Some j → Q j) → holds stuck (one_row pre q) Q.
Proof.
  intros HQ w Hw.
  pose proof (stuck_port (λ w, (Ok (q w), w)) (λ r, ∀ j, r = Some j → Q j)) as H.
  destruct (H) with (w := w) as [H1 H2]; [intros w0 Hw0; split; [done|]; intros ? [= <-]; eauto|done|].
  unfold one_row. destruct (port _ w) as [[[j|]|e] w']; cbn in *; (split; [done|]); try done.
  intros ? [= <-]. by eapply H2.
Qed.

(** ** The store's operations *)

Lemma ByID_stuck k : holds stuck (ByID k) (λ j, ID j = k ∧ (k = id → waiting (status j))).
Proof.
  apply stuck_one_row. intros w j [H1 _ _ (j0 & Hj0 & Hw0)] Hj. split; [by apply (H1 k j)|].
  intros ->. by simplify_eq.
Qed.

Lemma Cancel_stuck tid k : holds stuck (Cancel tid k) (λ _, True).
Proof. apply stuck_affected, stuck_update; [done|]. intros. right. by right. Qed.

Lemma Fail_stuck k reason : holds stuck (Fail k reason) (λ _, True).
Proof.
  eapply holds_bind; [|intros; by apply holds_ret].
  apply holds_wrap, stuck_update; [done|]. intros. right. by left.
Qed.

Lemma Transition_stuck k from to :
  k ≠ id ∨ ¬ waiting from → holds stuck (Transition k from to) (λ _, True).
Proof.
  intros Hor. apply stuck_affected, stuck_update; [done|]. intros -> now j Hw Hc. zbool.
  destruct Hor as [?|Hnw]; [done|]. by rewrite Hc in Hw.
Qed.

Lemma SetSegmentsTotal_stuck k total : holds stuck (SetSegmentsTotal k total) (λ _, True).
Proof. apply stuck_affected, stuck_update; [done|]. intros. by left. Qed.

Lemma Complete_stuck k out dur : holds stuck (Complete k out dur) (λ _, True).
Proof.
  apply stuck_affected, stuck_update; [done|]. intros _ now j [?|[?|?]] Hc; zbool; congruence.
Qed.

Lemma Create_stuck job : holds stuck (Create job) (λ _, True).
Proof.
  unfold Create. destruct (negb _); [apply holds_fail|]. apply holds_wrap, stuck_port. intros w Hw.
  split; [|done]. destruct (negb _); [done|]. destruct (jw_jobs w !! ID job) eqn:Hid; [done|].
  destruct (find_row _ _); [done|]. destruct Hw as [H1 H2 H3 (j0 & Hj0 & Hw0)]. split; [|done..|].
  - by apply map_Forall_insert_2.
  - exists j0. cbn. rewrite lookup_insert_ne by congruence. done.
Qed.

Lemma CreateSegment_stuck k i h c : holds stuck (CreateSegment k i h c) (λ _, True).
Proof.
  apply holds_wrap, stuck_port. intros w Hw. split; [|done].
  destruct (negb _); [done|]. destruct (jw_jobs w !! k); [|done].
  destruct (jw_segs w !! (k, i)) eqn:Hs; [done|]. cbn. apply stuck_set_seg; [done| |done..].
  intros Heq. destruct (sk_running _ Hw) as (s & Hs' & _). congruence.
Qed.

(** The segment is never claimed again. *)
Lemma ClaimSegment_stuck k i :
  holds stuck (ClaimSegment k i) (λ claimed, claimed = true → (k, i) ≠ (id, seq)).
Proof.
  apply (holds_bind _ _ _ (λ n, 0 < n → (k, i) ≠ (id, seq))).
  - apply holds_wrap, stuck_port. intros w Hw. destruct (jw_segs w !! (k, i)) as [s|] eqn:Hs.
    + destruct (claimable (sg_Status s)) eqn:Hc.
      * assert ((k, i) ≠ (id, seq)) as Hne.
        { intros Heq. destruct (sk_running _ Hw) as (s' & Hs' & Hr). rewrite Heq, Hs' in Hs.
          simplify_eq. by rewrite Hr in Hc. }
        split; [|done]. cbn. destruct (sk_segs _ Hw _ _ _ Hs). by apply stuck_set_seg.
      * split; [done|]. by intros ? [= <-].
    + split; [done|]. by intros ? [= <-].
  - intros n Hne. apply holds_ret. intros Hlt. zbool. auto.
Qed.

Lemma CompleteSegment_stuck k i key :
  (k, i) ≠ (id, seq) → holds stuck (CompleteSegment k i key) (λ _, True).
Proof.
  intros Hne. apply holds_wrap, stuck_port. intros w Hw. split; [|by cases].
  destruct (jw_segs w !! (k, i)) as [s|] eqn:Hs; [|done]. case_bool_decide; [|done]. cbv zeta.
  destruct (sk_segs _ Hw _ _ _ Hs).
  assert (stuck (set_segs (<[(k, i) := with_seg SegmentDone (sg_Attempts s) key (sg_LastError s) s]>
    (jw_segs w)) w)) as Hw' by by apply stuck_set_seg.
  cbn [jw_jobs set_segs]. destruct (jw_jobs w !! k) as [j|] eqn:Hj; [|done]. cbn [snd].
  refine (stuck_set_job _ k j (one_more_done (jw_now w) j) Hw' Hj eq_refl _). intros ->.
  destruct (sk_waiting _ Hw) as (j0 & Hj0 & Hw0). by simplify_eq.
Qed.

Lemma FailSegment_stuck k i reason :
  (k, i) ≠ (id, seq) → holds stuck (FailSegment k i reason) (λ _, True).
Proof.
  intros Hne. apply holds_wrap, stuck_port. intros w Hw. split; [|by cases].
  destruct (jw_segs w !! (k, i)) as [s|] eqn:Hs; [|done]. cbn. destruct (sk_segs _ Hw _ _ _ Hs).
  by apply stuck_set_seg.
Qed.

(** The job's segments always show it running, so one is always unfinished. *)
Definition shows_running (k : string) (l : list Segment) : Prop :=
  k = id → ∃ s, s ∈ l ∧ sg_Status s = SegmentRunning.

Lemma job_segments_running w k : stuck w → shows_running k (job_segments (jw_segs w) k).
Proof.
  intros Hw ->. destruct (sk_running _ Hw) as (s & Hs & Hr). exists s. split; [|done].
  rewrite job_segments_elem by apply Hw. by destruct (sk_segs _ Hw _ _ _ Hs) as [_ ->].
Qed.

Lemma Segments_stuck k : holds stuck (Segments k) (shows_running k).
Proof.
  apply holds_wrap, stuck_port. intros w Hw. split; [done|]. intros ? [= <-].
  by apply job_segments_running.
Qed.

Lemma UnfinishedSegments_stuck k : holds stuck (UnfinishedSegments k) (λ r, k = id → 0 < r).
Proof.
  apply holds_wrap, stuck_port. intros w Hw. split; [done|]. intros ? [= <-] Hk.
  destruct (job_segments_running w k Hw Hk) as (s & Hs & Hr).
  apply list_elem_of_lookup in Hs as [i Hi]. eapply countb_lookup_pos; [exact Hi|].
  unfold not_done. by rewrite Hr.
Qed.

Lemma object_get_stuck key : holds stuck (object_get key) (λ _, True).
Proof.
  apply stuck_rows_same. intros w. unfold object_get.
  pose proof (rows_same_port (λ w, (Ok (jw_objects w !! key), w))) as H.
  specialize (H (λ w, reflexivity w) w). by destruct (port _ w) as [[[]|] ?].
Qed.

(** ** The handlers *)

Section handlers.
Context `{PortLaws}.

Lemma stuck_rows_port {A} pre (op : JM A) :
  (∀ w, jw_jobs (op w).2 = jw_jobs w ∧ jw_segs (op w).2 = jw_segs w) →
  holds stuck (swrap pre (port op)) (λ _, True).
Proof. intros Hop. by apply holds_wrap, stuck_port_same. Qed.

Lemma queue_stuck k i : holds stuck (EnqueueSegment k i) (λ _, True).
Proof. by apply stuck_rows_port. Qed.

Lemma Enqueue_stuck k : holds stuck (Enqueue k) (λ _, True).
Proof. by apply stuck_rows_port. Qed.

Lemma GetText_stuck t k : holds stuck (GetText t k) (λ _, True).
Proof. apply holds_wrap, object_get_stuck. Qed.

Lemma cleanUp_stuck job : holds stuck (cleanUp job) (λ _, True).
Proof.
  eapply holds_try; [apply holds_wrap; by apply stuck_rows_port|]. intros. by apply holds_ret.
Qed.

Lemma notify_stuck k : holds stuck (notify k) (λ _, True).
Proof.
  unfold notify. destruct JobFinished as [f|] eqn:Hf; [|by apply holds_ret].
  eapply holds_try; [apply ByID_stuck|]. intros [j|e] _; [|by apply holds_ret].
  eapply holds_try; [by eapply stuck_rows_same, JobFinished_rows|]. intros. by apply holds_ret.
Qed.

Lemma failJob_stuck job reason : holds stuck (failJob job reason) (λ _, True).
Proof.
  eapply holds_bind; [apply Fail_stuck|]. intros _ _.
  eapply holds_bind; [apply cleanUp_stuck|]. intros _ _. apply notify_stuck.
Qed.

Lemma finish_stuck job : ID job ≠ id → holds stuck (finish job) (λ _, True).
Proof.
  intros Hne. unfold finish. destruct (Terminal _); [by apply holds_ret|].
  eapply holds_bind; [by apply Transition_stuck; left|]. intros moved _.
  destruct (_ && _); [by apply holds_ret|].
  eapply holds_bind; [apply Segments_stuck|]. intros segs _.
  destruct (merge_keys segs); [apply failJob_stuck|].
  eapply holds_try; [apply stuck_rows_same, Merge_rows|].
  intros [[out dur]|e] _; [|apply failJob_stuck].
  eapply holds_bind; [apply Complete_stuck|]. intros _ _.
  eapply holds_bind; [apply cleanUp_stuck|]. intros _ _. apply notify_stuck.
Qed.

Lemma enqueue_unfinished_stuck k segs q :
  holds stuck (enqueue_unfinished k segs q)
    (λ r, q ≤ r ∧ ((∃ s, s ∈ segs ∧ sg_Status s = SegmentRunning) → q < r)).
Proof.
  revert q. induction segs as [|s segs IH]; intros q; cbn [enqueue_unfinished].
  - apply holds_ret. split; [lia|]. intros (s & Hs & _). by apply elem_of_nil in Hs.
  - case_bool_decide as Hd.
    + eapply holds_mono; [apply IH|]. intros r [H1 H2]. split; [done|].
      intros (s' & [->|Hs]%elem_of_cons & Hr); [congruence|eauto].
    + eapply holds_bind; [apply holds_wrap, queue_stuck|]. intros _ _.
      eapply holds_mono; [apply IH|]. intros r [H1 _]. split; intros; lia.
Qed.

(** A job with a running segment is queued again, never finished. *)
Lemma fanOut_stuck job : holds stuck (fanOut job) (λ _, True).
Proof.
  unfold fanOut. eapply holds_bind; [apply Segments_stuck|]. intros segs Hsegs.
  eapply holds_bind; [apply enqueue_unfinished_stuck|]. intros r [_ Hr].
  destruct (Z.eqb_spec r 0) as [->|]; [|by apply holds_ret].
  apply finish_stuck. intros Heq. specialize (Hr (Hsegs Heq)). lia.
Qed.

Lemma load_stuck k :
  holds stuck (load k)
    (λ r, ∀ j, r = Some j → ID j = k ∧ (k = id → waiting (status j))).
Proof.
  unfold load. eapply holds_try; [apply ByID_stuck|]. intros [j|e] Hj.
  - apply holds_ret. intros ? [= <-]. by apply Hj.
  - destruct (errors_Is _ _); [by apply holds_ret|apply holds_fail].
Qed.

Lemma record_segments_stuck job i l : holds stuck (record_segments job i l) (λ _, True).
Proof.
  revert i. induction l as [|t l IH]; intros i; [by apply holds_ret|].
  eapply holds_bind; [apply holds_wrap, CreateSegment_stuck|]. intros _ _. apply IH.
Qed.

Lemma segment_job_stuck job : holds stuck (segment_job job) (λ _, True).
Proof.
  unfold segment_job. eapply holds_try; [apply GetText_stuck|]. intros [text|e] _; [|apply failJob_stuck].
  eapply holds_try; [apply stuck_rows_same, Split_rows|]. intros [parts|e] _; [|apply failJob_stuck].
  cbv zeta. destruct (_ =? 0); [apply failJob_stuck|]. destruct (_ <? _); [apply failJob_stuck|].
  eapply holds_bind; [apply record_segments_stuck|]. intros _ _.
  eapply holds_bind; [apply SetSegmentsTotal_stuck|]. intros _ _.
  eapply holds_bind; [apply holds_wrap, ByID_stuck|]. intros j _. apply fanOut_stuck.
Qed.

Lemma handleJob_stuck e : holds stuck (handleJob e) (λ _, True).
Proof.
  unfold handleJob. eapply holds_bind; [apply load_stuck|]. intros [job|] _; [|by apply holds_ret].
  destruct (Terminal _); [by apply holds_ret|]. destruct (_ || _); [apply fanOut_stuck|].
  destruct (bool_decide _); [apply segment_job_stuck|].
  eapply holds_bind; [apply Transition_stuck; right; by intros [?|[?|?]]|].
  intros moved _. destruct (negb moved); [by apply holds_ret|apply segment_job_stuck].
Qed.

Lemma retryOrFail_stuck job s reason :
  (ID job, sg_Seq s) ≠ (id, seq) → holds stuck (retryOrFail job s reason) (λ _, True).
Proof.
  intros Hne. unfold retryOrFail. eapply holds_bind; [by apply FailSegment_stuck|]. intros _ _.
  destruct (_ <=? _); [apply failJob_stuck|]. cbv zeta.
  eapply holds_try; [by apply stuck_port_same|]. intros [|] _; [apply queue_stuck|by apply holds_ret].
Qed.

Lemma run_segment_stuck job i :
  (ID job, i) ≠ (id, seq) → holds stuck (run_segment job i) (λ _, True).
Proof.
  intros Hne. unfold run_segment. eapply holds_bind; [apply Segments_stuck|]. intros segs _.
  destruct (findSegment segs i) as [s|] eqn:Hfind; [|apply holds_fail].
  apply List.find_some in Hfind as [_ Hseq]. zbool. rewrite <-Hseq in Hne.
  eapply holds_try; [apply GetText_stuck|]. intros [text|e] _; [|by apply retryOrFail_stuck].
  eapply holds_try; [apply stuck_rows_same, Split_rows|]. intros r _.
  destruct (match r with Ok _ => _ | Err _ => _ end); [|by apply retryOrFail_stuck].
  eapply holds_try; [apply stuck_rows_same, Synthesize_rows|].
  intros [result|e] _; [|by apply retryOrFail_stuck].
  eapply holds_bind; [apply CompleteSegment_stuck; by rewrite <-Hseq|]. intros _ _.
  eapply holds_bind; [apply UnfinishedSegments_stuck|]. intros remaining Hrem.
  destruct (Z.ltb_spec 0 remaining); [by apply holds_ret|].
  eapply holds_bind; [apply holds_wrap, ByID_stuck|]. intros j [Hid _]. apply finish_stuck.
  rewrite Hid. intros Heq. specialize (Hrem Heq). lia.
Qed.

Lemma handleSegment_stuck e : holds stuck (handleSegment e) (λ _, True).
Proof.
  unfold handleSegment. eapply holds_bind; [apply load_stuck|]. intros [job|] _; [|by apply holds_ret].
  destruct (Terminal _); [by apply holds_ret|].
  eapply holds_bind; [apply ClaimSegment_stuck|]. intros [|] Hne; [|by apply holds_ret].
  by apply run_segment_stuck, Hne.
Qed.

Lemma process_stuck n l : holds stuck (process n l) (λ _, True).
Proof.
  induction l as [|e l IH]; [by apply holds_ret|]. cbn [process].
  eapply holds_try; [destruct n; [apply handleJob_stuck|apply handleSegment_stuck]|]. intros _ _.
  eapply holds_try; [by apply stuck_rows_port|]. intros _ _. apply IH.
Qed.

Lemma consume_once_stuck n : holds stuck (consume_once n) (λ _, True).
Proof.
  eapply holds_try; [by apply stuck_rows_port|]. intros [l|e] _; [apply process_stuck|].
  eapply holds_try; [by apply stuck_port_same|]. intros. by apply holds_ret.
Qed.

Lemma ReconcileOnce_stuck : holds stuck ReconcileOnce (λ _, True).
Proof.
  unfold ReconcileOnce. eapply (holds_bind _ _ _ (λ _, True)); [by intros w|]. intros now _.
  eapply holds_bind; [apply holds_wrap; by apply stuck_rows_port|]. intros jobs _.
  assert (∀ n, holds stuck (recover n) (λ _, True)) as Hrec.
  { intros n. eapply holds_bind; [apply holds_wrap; by apply stuck_rows_port|].
    intros l _. apply process_stuck. }
  eapply (holds_bind _ _ _ (λ _, True)).
  - induction jobs as [|j jobs IH]; [by apply holds_ret|].
    eapply holds_bind; [apply holds_wrap, Enqueue_stuck|]. intros _ _. apply IH.
  - intros _ _. eapply holds_bind; [apply Hrec|]. intros _ _. apply Hrec.
Qed.

Lemma act_stuck w w' : act w w' → stuck w → stuck w'.
Proof.
  intros [n fs w1|fs w1|tid k fs w1|job fs w1|dt w1 _] Hw.
  - apply consume_once_stuck. by apply (stuck_same w1).
  - apply ReconcileOnce_stuck. by apply (stuck_same w1).
  - apply Cancel_stuck. by apply (stuck_same w1).
  - apply Create_stuck. by apply (stuck_same w1).
  - by apply (stuck_same w1).
Qed.
End handlers.
End stuck.

(** ** Properties *)

(** C33. A segment left running is never run again. Once a segment's row says
    running and no process holds it, then whatever the consumers, the
    reconciler and the tenant do, and however long they do it, the row says
    running and the job is not completed: it waits in synthesizing until it is
    cancelled or another of its segments fails it. *)
Theorem running_segment_is_stuck `{PortLaws} id seq w w' :
  stuck id seq w → rtc act w w' →
  (∃ s, jw_segs w' !! (id, seq) = Some s ∧ sg_Status s = SegmentRunning) ∧
  (∃ j, jw_jobs w' !! id = Some j ∧ status j ∈ [StatusSynthesizing; StatusFailed; StatusCancelled]).
Proof.
  intros Hw Hrun. assert (stuck id seq w') as [_ _ Hs (j & Hj & Hst)].
  { eapply (rtc_invariant act); [|exact Hw|exact Hrun]. intros a b Ha Hab. by eapply act_stuck. }
  split; [done|]. exists j. split; [done|]. unfold waiting in Hst. set_solver.
Qed.

(** The world after a worker made a segment's audio and the statement recording
    it was refused. *)
Definition interrupted_world : JobWorld :=
  (consume_once (H := demo_ports) StreamSegments
     (set_faults [Answered; Answered; Answered; Answered; Answered; Answered; Refused]
        (consume_once (H := demo_ports) StreamJobs (demo_world [])).2)).2.

(** Five minutes and a reconcile later the job is where it was. *)
Lemma running_segment_is_stuck_witness :
  let w := (ReconcileOnce (H := demo_ports) (set_faults [] (pass_time (5 * Minute) interrupted_world))).2 in
  ∃ s, jw_segs w !! ("j"%string, 0) = Some s ∧ sg_Status s = SegmentRunning.
Proof.
  intros w.
  refine (proj1 (running_segment_is_stuck (H := demo_ports) "j" 0 interrupted_world w _
    (rtc_l _ _ _ _ (act_time (H := demo_ports) (5 * Minute) interrupted_world _)
      (rtc_l _ _ _ _ (act_reconcile (H := demo_ports) [] _) (rtc_refl _ _))))).
  - split.
    + assert (bool_decide (map_Forall (λ id j, ID j = id) (jw_jobs interrupted_world)) = true) as Hb
        by (vm_compute; reflexivity).
      exact (proj1 (bool_decide_eq_true _) Hb).
    + assert (bool_decide (map_Forall (λ k s, sg_JobID s = k.1 ∧ sg_Seq s = k.2)
        (jw_segs interrupted_world)) = true) as Hb by (vm_compute; reflexivity).
      intros k i s Hs. exact (proj1 (bool_decide_eq_true _) Hb (k, i) s Hs).
    + eexists. split; vm_compute; reflexivity.
    + eexists. split; [vm_compute; reflexivity|]. left. reflexivity.
  - done.
Defined.
