(* ===== verification/JobEnd.v ===== *)
(** * A job to its end, among others

    [JobRun] and [JobRecover] follow one job's own deliveries, [JobQueue] the
    streams. Here they are put together: while calls are answered, whatever the
    other jobs and requests do, a live job none of whose segments is left
    running completes within a bounded number of turns of the two consumers.
    First, what handling another job's entries leaves of this one. *)

From stdpp Require Import base gmap strings pretty numbers sorting list.
From Stdlib Require Import Ascii.
From S2P Require Import Prelude GoString Cache Jobs JobStore Orchestrator JobRun JobRecover JobStuck JobQueue.

Create HintDb here.

(** An id without a slash, as a UUID's text is: keys made of such ids are apart. *)
Definition plain (s : string) : Prop := str_has "/"%char s = false.

Lemma job_key_inj t i rest t' i' rest' :
  plain t → plain i → plain t' → plain i' →
  "jobs/" +:+ t +:+ "/" +:+ i +:+ "/" +:+ rest = "jobs/" +:+ t' +:+ "/" +:+ i' +:+ "/" +:+ rest' →
  t = t' ∧ i = i' ∧ rest = rest'.
Proof.
  intros Ht Hi Ht' Hi' Heq. apply (inj (String.append "jobs/")) in Heq.
  rewrite !(str_app_cons "/"%char), !str_app_nil_l in Heq.
  apply (sep_split "/"%char) in Heq as [-> Heq]; [|done..].
  by apply (sep_split "/"%char) in Heq as [-> ->].
Qed.

Lemma InputKey_inj t i t' i' :
  plain t → plain i → plain t' → plain i' → InputKey t i = InputKey t' i' → t = t' ∧ i = i'.
Proof. intros Ht Hi Ht' Hi' Heq. by apply (job_key_inj t i _ t' i' _ Ht Hi Ht' Hi') in Heq as (? & ? & _). Qed.

(** No job's segment or output is where another's text waits. *)
Lemma InputKey_apart t i t' i' rest :
  plain t → plain i → plain t' → plain i' → rest ≠ "input.txt" →
  InputKey t i ≠ "jobs/" +:+ t' +:+ "/" +:+ i' +:+ "/" +:+ rest.
Proof. intros Ht Hi Ht' Hi' Hr Heq. by apply (job_key_inj t i _ t' i' _ Ht Hi Ht' Hi') in Heq as (_ & _ & ?). Qed.

(** The engine leaves the texts that wait alone, any job's. *)
Class ApartPorts `{Ports} : Prop := {
  Split_apart job text w t i :
    plain (TenantID job) → plain (ID job) → plain t → plain i →
    jw_objects (Split job text w).2 !! InputKey t i = jw_objects w !! InputKey t i;
  Synthesize_apart job seq text w t i :
    plain (TenantID job) → plain (ID job) → plain t → plain i →
    jw_objects (Synthesize job seq text w).2 !! InputKey t i = jw_objects w !! InputKey t i;
  Merge_apart job keys w t i :
    plain (TenantID job) → plain (ID job) → plain t → plain i →
    jw_objects (Merge job keys w).2 !! InputKey t i = jw_objects w !! InputKey t i;
  JobFinished_apart f job w t i :
    JobFinished = Some f → plain (TenantID job) → plain (ID job) → plain t → plain i →
    jw_objects (f job w).2 !! InputKey t i = jw_objects w !! InputKey t i;
}.

(** Rows under their keys, ids plain, calls answered. *)
Record tidy (w : JobWorld) : Prop := {
  td_faults : jw_faults w = [];
  td_jobs : jobs_keyed (jw_jobs w);
  td_segs : rows_keyed (jw_segs w);
  td_plain k j : jw_jobs w !! k = Some j → plain k ∧ plain (TenantID j);
}.

Section others.
Context `{IdealPorts, !ApartPorts}.
Variables (id tid : string) (row : option Job) (rows : Z → option Segment) (txt : option string).

(** This job as it is. *)
Record here (w : JobWorld) : Prop := {
  hr_tidy : tidy w;
  hr_job : jw_jobs w !! id = row;
  hr_rows i : jw_segs w !! (id, i) = rows i;
  hr_text : plain tid → plain id → jw_objects w !! InputKey tid id = txt;
}.

(** An operation that leaves this job as it is. *)
Local Abbreviation leaves m Q := (holds here m Q).

Lemma here_port {A} (op : JM A) Q : leaves op Q → leaves (port op) Q.
Proof.
  intros Hop w Hw. unfold port. cbn [faults JobWorld_faults]. rewrite (td_faults _ (hr_tidy _ Hw)). by apply Hop.
Qed.

Lemma here_same w w' :
  jw_jobs w' = jw_jobs w → jw_segs w' = jw_segs w → jw_objects w' = jw_objects w → jw_faults w' = jw_faults w →
  here w → here w'.
Proof.
  intros E1 E2 E3 E4 [[Hf Hj Hs Hp] G1 G2 G3]. split; [split|..]; by rewrite ?E1, ?E2, ?E3, ?E4.
Qed.

Lemma here_port_same {A} (op : JM A) :
  (∀ w, jw_jobs (op w).2 = jw_jobs w ∧ jw_segs (op w).2 = jw_segs w ∧ jw_objects (op w).2 = jw_objects w ∧
        jw_faults (op w).2 = jw_faults w) → leaves (port op) (λ _, True).
Proof.
  intros H'. apply here_port. intros w Hw. split; [|done]. destruct (H' w) as (? & ? & ? & ?). by eapply here_same.
Qed.

(** Another job's row written. *)
Lemma here_set_job w k j :
  here w → k ≠ id → ID j = k → plain k → plain (TenantID j) → here (set_jobs (<[k := j]> (jw_jobs w)) w).
Proof.
  intros [[Hf Hj Hs Hp] G1 G2 G3] Hk HID Hpk Hpt. split; [split|..]; try done; cbn.
  - by apply map_Forall_insert_2.
  - intros k' j' [[<- <-]|[_ Hl]]%lookup_insert_Some; [done|]. by apply (Hp k').
  - by rewrite lookup_insert_ne.
Qed.

Lemma here_set_seg w k i s :
  here w → k ≠ id → sg_JobID s = k → sg_Seq s = i → here (set_segs (<[(k, i) := s]> (jw_segs w)) w).
Proof.
  intros [[Hf Hj Hs Hp] G1 G2 G3] Hk HID Hseq. split; [split|..]; try done; cbn.
  - intros k1 k2 s' [[[= <- <-] <-]|[_ Hl]]%lookup_insert_Some; [done|by apply Hs].
  - intros x. rewrite lookup_insert_ne by congruence. apply G2.
Qed.

Lemma here_update k cond f :
  k ≠ id → (∀ now j, ID (f now j) = ID j ∧ TenantID (f now j) = TenantID j) →
  leaves (update_where k cond f) (λ _, True).
Proof.
  intros Hk Hf. apply here_port. intros w Hw. destruct (jw_jobs w !! k) as [j|] eqn:Hj; [|done].
  destruct (cond j); [|done]. split; [|done]. destruct (Hf (jw_now w) j) as [E1 E2].
  destruct (td_plain _ (hr_tidy _ Hw) k j Hj) as [P1 P2].
  apply here_set_job; [done|done| |done|by rewrite E2]. rewrite E1. by apply (td_jobs _ (hr_tidy _ Hw) k j Hj).
Qed.

Lemma here_affected pre m : leaves m (λ _, True) → leaves (affected pre m) (λ _, True).
Proof. intros Hm. eapply holds_bind; [by apply holds_wrap|]. intros. by apply holds_ret. Qed.

Lemma ByID_here k : leaves (ByID k) (λ j, ID j = k ∧ plain k ∧ plain (TenantID j)).
Proof.
  intros w Hw. unfold ByID, one_row. rewrite port_answered by apply (td_faults _ (hr_tidy _ Hw)).
  destruct (jw_jobs w !! k) as [j|] eqn:Hj; (split; [done|]); [|done]. intros ? [= <-].
  split; [by apply (td_jobs _ (hr_tidy _ Hw) k j Hj)|by apply (td_plain _ (hr_tidy _ Hw) k j Hj)].
Qed.

Lemma load_here k :
  leaves (load k) (λ o, ∀ j, o = Some j → ID j = k ∧ plain k ∧ plain (TenantID j)).
Proof.
  eapply holds_try; [apply ByID_here|]. intros [j|e] Hj.
  - apply holds_ret. intros ? [= <-]. by apply Hj.
  - destruct (errors_Is e ErrNotFound); [by apply holds_ret|apply holds_fail].
Qed.

Lemma Cancel_here t k : k ≠ id → leaves (Cancel t k) (λ _, True).
Proof. intros Hk. by apply here_affected, here_update. Qed.
Lemma Transition_here k from to : k ≠ id → leaves (Transition k from to) (λ _, True).
Proof. intros Hk. by apply here_affected, here_update. Qed.
Lemma SetSegmentsTotal_here k total : k ≠ id → leaves (SetSegmentsTotal k total) (λ _, True).
Proof. intros Hk. by apply here_affected, here_update. Qed.
Lemma Complete_here k out d : k ≠ id → leaves (Complete k out d) (λ _, True).
Proof. intros Hk. by apply here_affected, here_update. Qed.
Lemma Fail_here k reason : k ≠ id → leaves (Fail k reason) (λ _, True).
Proof. intros Hk. eapply holds_bind; [by apply holds_wrap, here_update|]. intros. by apply holds_ret. Qed.

Lemma CreateSegment_here k i h c : k ≠ id → leaves (CreateSegment k i h c) (λ _, True).
Proof.
  intros Hk. apply holds_wrap, here_port. intros w Hw. destruct (negb _); [done|].
  destruct (jw_jobs w !! k); [|done]. destruct (jw_segs w !! (k, i)); [done|]. split; [|done]. by apply here_set_seg.
Qed.

(** Another job's segment rewritten in place. *)
Lemma here_rewrite w k i s f :
  here w → k ≠ id → jw_segs w !! (k, i) = Some s → sg_JobID (f s) = sg_JobID s → sg_Seq (f s) = sg_Seq s →
  here (set_segs (<[(k, i) := f s]> (jw_segs w)) w).
Proof.
  intros Hw Hk Hs E1 E2. destruct (td_segs _ (hr_tidy _ Hw) k i s Hs) as [F1 F2].
  apply here_set_seg; [done|done|by rewrite E1|by rewrite E2].
Qed.

Lemma ClaimSegment_here k i : k ≠ id → leaves (ClaimSegment k i) (λ _, True).
Proof.
  intros Hk. apply here_affected, here_port. intros w Hw. destruct (jw_segs w !! (k, i)) as [s|] eqn:Hs; [|done].
  destruct (claimable _); [|done]. split; [|done]. by apply (here_rewrite w k i s (λ s, with_seg _ _ _ _ s)).
Qed.

Lemma FailSegment_here k i reason : k ≠ id → leaves (FailSegment k i reason) (λ _, True).
Proof.
  intros Hk. apply holds_wrap, here_port. intros w Hw. destruct (jw_segs w !! (k, i)) as [s|] eqn:Hs; [|done].
  split; [|done]. by apply (here_rewrite w k i s (λ s, with_seg _ _ _ _ s)).
Qed.

Lemma CompleteSegment_here k i key : k ≠ id → leaves (CompleteSegment k i key) (λ _, True).
Proof.
  intros Hk. apply holds_wrap, here_port. intros w Hw. destruct (jw_segs w !! (k, i)) as [s|] eqn:Hs; [|done].
  case_bool_decide; [|done]. split; [|done]. cbv zeta. cbn [snd].
  pose proof (here_rewrite w k i s (λ s, with_seg SegmentDone (sg_Attempts s) key (sg_LastError s) s) Hw Hk Hs eq_refl eq_refl) as Hw1.
  cbn [jw_jobs set_segs]. destruct (jw_jobs w !! k) as [j|] eqn:Hj; [|done].
  destruct (td_plain _ (hr_tidy _ Hw) k j Hj) as [P1 P2].
  apply (here_set_job _ k (one_more_done _ j) Hw1); [done| |done|done]. by apply (td_jobs _ (hr_tidy _ Hw) k j Hj).
Qed.

Lemma DeleteText_here t k : k ≠ id → plain t → plain k → leaves (DeleteText t k) (λ _, True).
Proof.
  intros Hk Ht Hpk. apply holds_wrap, holds_wrap, here_port. intros w [Htidy G1 G2 G3]. split; [|done].
  split; [by destruct Htidy|done|done|]. intros Ptid Pid. cbn. rewrite lookup_delete_ne; [by apply G3|].
  intros Heq. apply InputKey_inj in Heq as [_ ?]; done.
Qed.

Lemma PutText_here t k body : k ≠ id → plain t → plain k → leaves (PutText t k body) (λ _, True).
Proof.
  intros Hk Ht Hpk. unfold PutText, object_put. repeat apply holds_wrap. apply here_port. intros w [Htidy G1 G2 G3].
  split; [|done]. split; [by destruct Htidy|done|done|]. intros Ptid Pid. cbn. rewrite lookup_insert_ne; [by apply G3|].
  intros Heq. apply InputKey_inj in Heq as [_ ?]; done.
Qed.

(** The engine, for another job. *)
Lemma here_engine {A} job (m : JM A) :
  (∀ w, jw_faults w = [] → undisturbed job w (m w).2) →
  (∀ w, plain tid → plain id → jw_objects (m w).2 !! InputKey tid id = jw_objects w !! InputKey tid id) →
  leaves m (λ _, True).
Proof.
  intros Hu Ho w Hw. split; [|done]. pose proof Hw as [[Hf Hj Hs Hp] G1 G2 G3].
  destruct (Hu w Hf) as [E1 E2 _ E4 _]. split; [split|..]; rewrite ?E1, ?E2, ?E4; try done.
  intros Ptid Pid. rewrite Ho by done. by apply G3.
Qed.

Definition a_job (job : Job) : Prop := ID job ≠ id ∧ plain (ID job) ∧ plain (TenantID job).

Lemma Split_here job text : a_job job → leaves (Split job text) (λ _, True).
Proof.
  intros (_ & P1 & P2). apply (here_engine job); [|intros w ? ?; by apply Split_apart].
  intros w Hf. by destruct (Split_ideal job text w Hf) as (w' & -> & ?).
Qed.
Lemma Synthesize_here job seq text : a_job job → leaves (Synthesize job seq text) (λ _, True).
Proof.
  intros (_ & P1 & P2). apply (here_engine job); [|intros w ? ?; by apply Synthesize_apart].
  intros w Hf. by destruct (Synthesize_ideal job seq text w Hf) as (r & w' & -> & ? & _).
Qed.
Lemma Merge_here job keys : a_job job → leaves (Merge job keys) (λ _, True).
Proof.
  intros (_ & P1 & P2). apply (here_engine job); [|intros w ? ?; by apply Merge_apart].
  intros w Hf. by destruct (Merge_ideal job keys w Hf) as (w' & -> & ?).
Qed.
Lemma JobFinished_here f job : JobFinished = Some f → plain (ID job) → plain (TenantID job) → leaves (f job) (λ _, True).
Proof.
  intros HJ P1 P2. apply (here_engine job); [|intros w ? ?; by apply JobFinished_apart].
  intros w Hf. by destruct (JobFinished_ideal f job w HJ Hf) as (r & w' & -> & ?).
Qed.

(** Calls that touch the streams or read. *)
Ltac resting := intros; repeat apply holds_wrap; apply here_port_same; by intros.

Lemma stream_add_here n k seq : leaves (stream_add n k seq) (λ _, True).
Proof. resting. Qed.
Lemma Enqueue_here k : leaves (Enqueue k) (λ _, True).
Proof. apply stream_add_here. Qed.
Lemma EnqueueSegment_here k seq : leaves (EnqueueSegment k seq) (λ _, True).
Proof. apply stream_add_here. Qed.
Lemma Ack_here n k : leaves (Ack n k) (λ _, True).
Proof. resting. Qed.
Lemma Claim_here n count : leaves (Claim n count) (λ _, True).
Proof. resting. Qed.
Lemma ClaimStale_here n idle count : leaves (ClaimStale n idle count) (λ _, True).
Proof. resting. Qed.
Lemma Segments_here k : leaves (Segments k) (λ _, True).
Proof. resting. Qed.
Lemma UnfinishedSegments_here k : leaves (UnfinishedSegments k) (λ _, True).
Proof. resting. Qed.
Lemma sleep_here d : leaves (sleep d) (λ _, True).
Proof. resting. Qed.
Lemma Stuck_here before limit : leaves (Stuck before limit) (λ _, True).
Proof. resting. Qed.
Lemma GetText_here t k : leaves (GetText t k) (λ _, True).
Proof.
  apply holds_wrap. intros w Hw. unfold object_get. rewrite port_answered by apply (td_faults _ (hr_tidy _ Hw)).
  by destruct (jw_objects w !! _).
Qed.

Local Hint Resolve Split_here Synthesize_here Merge_here JobFinished_here stream_add_here Enqueue_here
  EnqueueSegment_here Ack_here ClaimStale_here Segments_here UnfinishedSegments_here sleep_here
  Stuck_here GetText_here ByID_here Transition_here SetSegmentsTotal_here Complete_here Fail_here CreateSegment_here
  ClaimSegment_here FailSegment_here CompleteSegment_here DeleteText_here : here.

(** Walk a handler call by call. *)
Ltac leaving := repeat first
  [ solve [eauto 3 with here]
  | match goal with
    | |- holds _ (sret _) _ => by apply holds_ret
    | |- holds _ (sfail _) _ => by apply holds_fail
    | |- holds _ (sbind _ _) _ => eapply holds_bind; [|intros ? ?]
    | |- holds _ (stry _ _) _ => eapply holds_try; [|intros ? ?]
    | |- holds _ (swrap _ _) _ => apply holds_wrap
    | |- holds _ (match _ with _ => _ end) _ => case_match
    end ].

Section one_job.
Variable job : Job.
Hypothesis Ha : a_job job.
Local Abbreviation k := (ID job).

Let Hk : k ≠ id := proj1 Ha.
Let Hpk : plain k := proj1 (proj2 Ha).
Let Hpt : plain (TenantID job) := proj2 (proj2 Ha).

Lemma cleanUp_here : leaves (cleanUp job) (λ _, True).
Proof. unfold cleanUp. leaving. Qed.

Lemma notify_here : leaves (notify k) (λ _, True).
Proof.
  unfold notify. destruct JobFinished as [f|] eqn:HJ; [|by apply holds_ret].
  eapply holds_try; [apply ByID_here|]. intros [j|e] Hj; [|by apply holds_ret].
  destruct (Hj j eq_refl) as (E & P1 & P2). eapply holds_try; [|intros; by apply holds_ret].
  apply JobFinished_here; [done|by rewrite E|done].
Qed.
Local Hint Resolve cleanUp_here notify_here : here.

Lemma failJob_here reason : leaves (failJob job reason) (λ _, True).
Proof. unfold failJob. leaving. Qed.
Local Hint Resolve failJob_here : here.

Lemma finish_here : leaves (finish job) (λ _, True).
Proof. unfold finish. leaving. Qed.
Local Hint Resolve finish_here : here.

Lemma enqueue_unfinished_here l x : leaves (enqueue_unfinished k l x) (λ _, True).
Proof. revert x. induction l as [|s l IH]; intros x; cbn [enqueue_unfinished]; leaving; apply IH. Qed.
Local Hint Resolve enqueue_unfinished_here : here.

Lemma fanOut_here : leaves (fanOut job) (λ _, True).
Proof. unfold fanOut. leaving. Qed.
Local Hint Resolve fanOut_here : here.

Lemma record_segments_here i l : leaves (record_segments job i l) (λ _, True).
Proof. revert i. induction l as [|t l IH]; intros i; cbn [record_segments]; leaving; apply IH. Qed.

Lemma retryOrFail_here s reason : leaves (retryOrFail job s reason) (λ _, True).
Proof. unfold retryOrFail. leaving. Qed.
End one_job.

Lemma a_job_reloaded job j : a_job job → ID j = ID job ∧ plain (ID job) ∧ plain (TenantID j) → a_job j.
Proof. intros (Hne & _) (E & ? & ?). unfold a_job. rewrite E. by split. Qed.

Lemma segment_job_here job : a_job job → leaves (segment_job job) (λ _, True).
Proof.
  intros Ha. pose proof Ha as (Hk & Hpk & Hpt). unfold segment_job.
  eapply holds_try; [apply GetText_here|]. intros [text|e] _; [|by apply failJob_here].
  eapply holds_try; [by apply Split_here|]. intros [segments|e] _; [|by apply failJob_here]. cbv zeta.
  destruct (_ =? 0); [by apply failJob_here|]. destruct (MaxTextChars <? _); [by apply failJob_here|].
  eapply holds_bind; [by apply record_segments_here|]. intros _ _.
  eapply holds_bind; [by apply SetSegmentsTotal_here|]. intros _ _.
  eapply holds_bind; [by apply holds_wrap, ByID_here|]. intros j Hj. apply fanOut_here. by eapply a_job_reloaded.
Qed.

Lemma handleJob_here e : qe_JobID e ≠ id → leaves (handleJob e) (λ _, True).
Proof.
  intros Hne. unfold handleJob. eapply holds_bind; [apply load_here|]. intros [job|] Hj; [|by apply holds_ret].
  destruct (Hj job eq_refl) as (E & P1 & P2). assert (a_job job) as Ha by (unfold a_job; by rewrite E).
  destruct (Terminal _); [by apply holds_ret|]. destruct (_ || _); [by apply fanOut_here|].
  case_bool_decide; [by apply segment_job_here|].
  eapply holds_bind; [apply Transition_here, Ha|]. intros moved _. destruct (negb moved); [by apply holds_ret|].
  by apply segment_job_here.
Qed.

Lemma run_segment_here job seq : a_job job → leaves (run_segment job seq) (λ _, True).
Proof.
  intros Ha. pose proof Ha as (Hk & Hpk & Hpt). unfold run_segment.
  eapply holds_bind; [apply Segments_here|]. intros l _. destruct (findSegment l seq) as [cur|]; [|apply holds_fail].
  eapply holds_try; [apply GetText_here|]. intros [text|e] _; [|by apply retryOrFail_here].
  eapply holds_try; [by apply Split_here|]. intros r _. destruct (match r with Ok _ => _ | Err _ => None end); [|by apply retryOrFail_here].
  eapply holds_try; [by apply Synthesize_here|]. intros [res|e] _; [|by apply retryOrFail_here].
  eapply holds_bind; [by apply CompleteSegment_here|]. intros _ _.
  eapply holds_bind; [apply UnfinishedSegments_here|]. intros x _. destruct (0 <? x); [by apply holds_ret|].
  eapply holds_bind; [by apply holds_wrap, ByID_here|]. intros j Hj. apply finish_here. by eapply a_job_reloaded.
Qed.

Lemma handleSegment_here e : qe_JobID e ≠ id → leaves (handleSegment e) (λ _, True).
Proof.
  intros Hne. unfold handleSegment. eapply holds_bind; [apply load_here|]. intros [job|] Hj; [|by apply holds_ret].
  destruct (Hj job eq_refl) as (E & P1 & P2). assert (a_job job) as Ha by (unfold a_job; by rewrite E).
  destruct (Terminal _); [by apply holds_ret|]. eapply holds_bind; [apply ClaimSegment_here, Ha|].
  intros [] _; [by apply run_segment_here|by apply holds_ret].
Qed.

(** Any entry of another job. *)
Lemma handle_here n e : qe_JobID e ≠ id → leaves (handle n e) (λ _, True).
Proof. destruct n; [apply handleJob_here|apply handleSegment_here]. Qed.

Lemma requeue_here l : leaves (requeue l) (λ _, True).
Proof. induction l as [|j l IH]; cbn [requeue]; leaving. Qed.

(** Another job created. *)
Lemma Create_here job : a_job job → leaves (Create job) (λ _, True).
Proof.
  intros (Hk & P1 & P2). unfold Create. destruct (negb _); [apply holds_fail|]. apply holds_wrap, here_port. intros w Hw.
  destruct (negb _); [done|]. destruct (jw_jobs w !! ID job); [done|]. destruct (find_row _ _); [done|]. split; [|done].
  by apply here_set_job.
Qed.
End others.

(** ** This job's entries *)

Section own.
Context `{SoundPorts, !ApartPorts}.
Variables (job0 : Job) (text : string).
Local Abbreviation id := (ID job0).
Local Abbreviation tid := (TenantID job0).
Local Abbreviation n := (Z.of_nat (length (pieces (Normalize job0) text))).
Local Abbreviation row_at w i := (rows_of job0 w i).
Hypotheses (Hn : 0 < n ≤ MaxTextChars) (Pid : plain id) (Ptid : plain tid).

Definition done_at (w : JobWorld) (i : Z) : Prop := is_done (rows_of job0 w) i = true.

(** The job goes on, or is complete: its rows agree, and none is marked running. *)
Record steady (w : JobWorld) : Prop := {
  sd_good : good job0 text w;
  sd_tidy : tidy w;
  sd_streams : calm_streams w;
  sd_rest i s : row_at w i = Some s → sg_Status s ≠ SegmentRunning;
  sd_status : ∃ j, jw_jobs w !! id = Some j ∧ (Terminal (status j) = false ∨ status j = StatusCompleted);
}.

(** What another's work leaves. *)
Record untouched (w w' : JobWorld) : Prop := {
  ut_tidy : tidy w';
  ut_job : jw_jobs w' !! id = jw_jobs w !! id;
  ut_rows i : row_at w' i = row_at w i;
  ut_text : jw_objects w' !! InputKey tid id = jw_objects w !! InputKey tid id;
}.

Lemma untouched_of {A} (m : JM A) w :
  (∀ row rows txt, holds (here id tid row rows txt) m (λ _, True)) → tidy w → untouched w (m w).2.
Proof.
  intros Hm Hw. destruct (Hm (jw_jobs w !! id) (λ i, jw_segs w !! (id, i)) (jw_objects w !! InputKey tid id) w)
    as [[Ht Hj Hr Hx] _]; [by split|]. split; try done. by apply Hx.
Qed.

Lemma steady_untouched q w w' : steady w → untouched w w' → flows q w w' → steady w'.
Proof.
  intros [Hg Ht Hs Hr Hst] [Ht' Ej Er Ex] Hfl. split.
  - eapply (job_act_good job0 text Hn); [exact Hg|]. apply ja_elsewhere. split_and!; [done|exact Er|done|apply Ht'].
  - done.
  - by apply Hfl.
  - intros i s. rewrite Er. by apply Hr.
  - by rewrite Ej.
Qed.

(** An id that is not this one. *)
Lemma other_id : ∃ k, id ≠ k.
Proof. exists (id +:+ "x"). intros Heq. apply (f_equal String.length) in Heq. rewrite str_app_length in Heq. cbn in Heq. lia. Qed.

(** Any entry leaves the tables tidy. *)
Lemma handle_tidy m e w : tidy w → tidy (handle m e w).2.
Proof.
  intros Hw. destruct (decide (qe_JobID e = id)) as [He|He].
  - destruct other_id as [k Hk]. rewrite <-He in Hk.
    destruct (handle_here k "" (jw_jobs w !! k) (λ i, jw_segs w !! (k, i)) (jw_objects w !! InputKey "" k) m e Hk w)
      as [[Ht _ _ _] _]; [by split|done].
  - apply (untouched_of (handle m e) w); [|done]. intros. by apply handle_here.
Qed.

Lemma handle_good m e w : steady w → qe_JobID e = id → good job0 text (handle m e w).2.
Proof.
  intros Hw He. assert (set_faults [] w = w) as Hf by (destruct w; cbn; f_equal; symmetry; apply (td_faults _ (sd_tidy _ Hw))).
  eapply (job_act_good job0 text Hn); [apply (sd_good _ Hw)|]. rewrite <-Hf at 2.
  destruct m; [by apply (ja_job job0)|by apply (ja_segment job0)].
Qed.

Lemma handle_flows q m e : moves (flows q) (handle m e).
Proof. destruct m; [by apply handleJob_flows|by apply handleSegment_flows]. Qed.

(** After a handler whose outcome is known. *)
Lemma handle_steady m e w :
  steady w → qe_JobID e = id →
  (∀ i s, row_at (handle m e w).2 i = Some s → sg_Status s ≠ SegmentRunning) →
  (∃ j, jw_jobs (handle m e w).2 !! id = Some j ∧ (Terminal (status j) = false ∨ status j = StatusCompleted)) →
  steady (handle m e w).2.
Proof.
  intros Hw He Hr Hj. split; [by apply handle_good|by apply handle_tidy, Hw| |done|done].
  by apply (handle_flows StreamJobs m e w), Hw.
Qed.

(** A job that has ended takes no more entries. *)
Lemma handle_ended m e w j :
  steady w → qe_JobID e = id → jw_jobs w !! id = Some j → Terminal (status j) = true → (handle m e w).2 = w.
Proof.
  intros Hw He Hj Ht. pose proof (td_faults _ (sd_tidy _ Hw)) as Hf.
  destruct m; cbn [handle]; unfold handleJob, handleSegment; rewrite He;
    (erewrite bind_ok by by apply load_run); cbv beta iota; by rewrite Ht.
Qed.

(** Where [JobRun] says the job is, read off its rows. *)
Record settled (d : Z → bool) (w : JobWorld) : Prop := {
  se_rows i : 0 ≤ i < n → ∃ s, row_at w i = Some s ∧ sg_Status s ≠ SegmentRunning ∧
                bool_decide (sg_Status s = SegmentDone) = d i;
  se_out i : ¬ 0 ≤ i < n → row_at w i = None;
  se_job : ∃ j, jw_jobs w !! id = Some j ∧
             status j = if countb d (seqZ 0 n) =? n then StatusCompleted else StatusSynthesizing;
}.

Lemma settled_of j old d w :
  same_job job0 j → (∀ i s, old i = Some s → 0 ≤ i < n ∧ row_ok j i s) →
  reached j text old d w → settled d w.
Proof.
  intros Hsame Hold Hre. pose proof Hsame as (HID & HT & HN & HF). rewrite <-HN in Hold.
  unfold reached in Hre. rewrite HN in Hre.
  assert (∀ d', covers j text old d' → rows j text (seg_row j text old d') (jw_segs w) →
    (∀ i, 0 ≤ i < n → ∃ s, row_at w i = Some s ∧ sg_Status s ≠ SegmentRunning ∧
                bool_decide (sg_Status s = SegmentDone) = d' i) ∧ ∀ i, ¬ 0 ≤ i < n → row_at w i = None) as Hrows.
  { intros d' Hc [_ Hin Hout]. rewrite HN in Hin, Hout. rewrite HID in Hin, Hout. split; [|exact Hout].
    intros i Hi. exists (seg_row j text old d' i). split; [by apply Hin|].
    destruct (seg_row_spec j text old Hold d' i Hc) as (_ & _ & Hsp). destruct (d' i).
    - destruct Hsp as [-> _]. by split.
    - destruct Hsp as [-> Hcl]. by destruct (sg_Status _). }
  destruct (Z.eqb_spec (countb d (seqZ 0 n)) n) as [Hall|Hsome].
  - destruct Hre as [_ Hr _ (j' & jm & Hj' & _ & Hst & _)]. destruct (Hrows _ ltac:(by intros i _) Hr) as [Hin Hout].
    split; [|done|].
    + intros i Hi. rewrite (countb_full job0 text Hn d Hall i Hi). by apply Hin.
    + exists j'. rewrite <-HID. rewrite (proj2 (Z.eqb_eq _ _) Hall). done.
  - destruct Hre as [_ Hc Hr _ (j' & Hj' & _ & Hst & _)]. destruct (Hrows _ Hc Hr) as [Hin Hout].
    split; [done|done|]. exists j'. rewrite <-HID. by rewrite (proj2 (Z.eqb_neq _ _) Hsome).
Qed.

Lemma settled_done d w i : settled d w → 0 ≤ i < n → is_done (rows_of job0 w) i = d i.
Proof. intros [Hr _ _] Hi. destruct (Hr i Hi) as (s & Hs & _ & Hd). unfold is_done. by rewrite Hs. Qed.

Lemma settled_steady m e w d :
  steady w → qe_JobID e = id → settled d (handle m e w).2 → steady (handle m e w).2.
Proof.
  intros Hw He [Hr Ho (j & Hj & Hst)]. apply handle_steady; [done|done| |].
  - intros i s Hs. destruct (decide (0 ≤ i < n)) as [Hi|Hi]; [|by rewrite Ho in Hs].
    destruct (Hr i Hi) as (s' & Hs' & Hne & _). by assert (s' = s) as -> by congruence.
  - exists j. split; [done|]. rewrite Hst. destruct (_ =? n); [by right|by left].
Qed.

(** The view of a steady job. *)
Lemma steady_view w : steady w → ∃ v, has job0 v w ∧ fit job0 text v ∧ (∀ i, v_rows v i = row_at w i) ∧
  (Terminal (status (v_job v)) = false ∨ status (v_job v) = StatusCompleted).
Proof.
  intros [(v & Hw & Hf) _ _ _ (j & Hj & Hst)]. exists v. split_and!; [done|done|by intros i; rewrite <-(has_rows _ _ _ Hw)|].
  rewrite (has_job _ _ _ Hw) in Hj. by injection Hj as ->.
Qed.

(** A steady job that is live can go on. *)
Lemma steady_resumable w v :
  steady w → has job0 v w → fit job0 text v → Terminal (status (v_job v)) = false →
  (∀ i s, row_at w i = Some s → 0 ≤ i < n ∧ row_ok (v_job v) i s) ∧
  (∀ i, was_done (v_job v) text (rows_of job0 w) i = is_done (rows_of job0 w) i) ∧
  resumable (v_job v) text (rows_of job0 w) w.
Proof.
  intros Hw Hv Hf Hl. destruct (good_resumable job0 text w v Hv Hf Hl (sd_rest _ Hw)) as (Hold & Hwd & Hres).
  assert (set_faults [] w = w) as Hsf by (destruct w; cbn; f_equal; symmetry; apply (td_faults _ (sd_tidy _ Hw))).
  rewrite Hsf in Hres. by split_and!.
Qed.

(** Every segment is recorded, and some are not done unless the job is complete. *)
Record spread (w : JobWorld) : Prop := {
  so_rows i : 0 ≤ i < n → is_Some (row_at w i);
  so_job : ∃ j, jw_jobs w !! id = Some j ∧
             (status j = StatusCompleted ∨ status j = StatusSynthesizing ∧ ∃ i, 0 ≤ i < n ∧ ¬ done_at w i);
}.

Lemma settled_spread d w : settled d w → spread w.
Proof.
  intros Hse. pose proof Hse as [Hr Ho (j & Hj & Hst)]. split.
  - intros i Hi. destruct (Hr i Hi) as (s & -> & _). by eexists.
  - exists j. split; [done|]. rewrite Hst. destruct (Z.eqb_spec (countb d (seqZ 0 n)) n) as [|Hsome]; [by left|right].
    split; [done|]. destruct (decide (Exists (λ i, d i = false) (seqZ 0 n))) as [Hex|Hnone].
    + apply Exists_exists in Hex as (i & Hi%elem_of_seqZ & Hd). exists i. split; [lia|]. unfold done_at.
      rewrite (settled_done d w i Hse) by lia. by rewrite Hd.
    + exfalso. apply Hsome. rewrite (countb_ext _ (λ _, true)), countb_true, length_seqZ; [lia|].
      intros i Hi. apply not_Exists_Forall in Hnone; [|intros ?; apply _]. rewrite Forall_forall in Hnone.
      apply not_false_is_true. by apply Hnone.
Qed.

Definition more_done (w w' : JobWorld) : Prop := ∀ i, 0 ≤ i < n → done_at w i → done_at w' i.

(** The segments that are not done are in [wait], or among the first [K] on the
    segments' stream. *)
Record set_out (K : nat) (wait : list QueueEntry) (w : JobWorld) : Prop := {
  so_spread : spread w;
  so_wait i : 0 ≤ i < n → ¬ done_at w i →
    (∃ d, d ∈ wait ∧ qe_JobID d = id ∧ qe_Seq d = i) ∨
    ∃ k, (k, (id, i)) ∈ take K (undelivered (jw_streams w StreamSegments));
}.

(** The job's entry: everything left to do is put on the segments' stream. *)
Lemma own_job e w :
  steady w → qe_JobID e = id →
  steady (handle StreamJobs e w).2 ∧ (∃ K, set_out K [] (handle StreamJobs e w).2) ∧
  more_done w (handle StreamJobs e w).2.
Proof.
  intros Hw He. destruct (steady_view w Hw) as (v & Hv & Hf & Hrows & Hst). pose proof (has_job _ _ _ Hv) as Hj.
  destruct (Terminal (status (v_job v))) eqn:Hl.
  { rewrite (handle_ended StreamJobs e w (v_job v) Hw He Hj Hl). destruct Hst as [?|Hst]; [done|].
    split_and!; [done| |by intros i]. pose proof (fit_status _ _ _ Hf) as Hs. rewrite Hst in Hs. destruct Hs as (_ & Hall & _).
    assert (∀ i, 0 ≤ i < n → done_at w i) as Hd.
    { intros i Hi. unfold done_at. rewrite <-(Hall i Hi). unfold is_done. by rewrite Hrows. }
    exists 0%nat. split; [|by intros i Hi []; apply Hd]. split; [|by exists (v_job v); auto].
    intros i Hi. specialize (Hd i Hi). unfold done_at, is_done in Hd. by destruct (row_at w i). }
  destruct (steady_resumable w v Hw Hv Hf Hl) as (Hold & Hwd & Hres).
  pose proof (fit_same _ _ _ Hf) as Hsame. pose proof Hsame as (HID & HT & HN & HF). cbn [handle].
  destruct (handle_flows StreamSegments StreamJobs e w (sd_streams _ Hw)) as [_ [l [Hent Hund]]]. cbn [handle] in Hent, Hund.
  destruct (handleJob_run (v_job v) text) with (old := rows_of job0 w) (e := e) (w := w) as (w' & Hrun & Hre & Hq);
    [by rewrite HN|by rewrite HN|done|by rewrite HID|]. rewrite HN, HID in Hq.
  pose proof (settled_of (v_job v) _ _ _ Hsame Hold Hre) as Hse. rewrite Hrun in Hent, Hund |- *. cbn [snd] in *.
  assert (w' = (handle StreamJobs e w).2) as Hw' by (cbn [handle]; by rewrite Hrun).
  assert (∀ i, 0 ≤ i < n → is_done (rows_of job0 w') i = is_done (rows_of job0 w) i) as Hsd.
  { intros i Hi. rewrite (settled_done _ _ i Hse Hi). apply Hwd. }
  split_and!; [rewrite Hw' in Hse |- *; by eapply settled_steady| |by intros i Hi; unfold done_at; rewrite Hsd].
  exists (length (undelivered (jw_streams w' StreamSegments))). split; [by eapply settled_spread|].
  intros i Hi Hnd. right. unfold done_at in Hnd. rewrite Hsd in Hnd by done. rewrite firstn_all.
  unfold queued_on in Hq. rewrite Hent, fmap_app in Hq. apply app_inv_head in Hq.
  assert ((id, i) ∈ snd <$> l) as ([k x] & Hx & Hin)%list_elem_of_fmap.
  { rewrite Hq. apply list_elem_of_fmap. exists i. split; [done|]. apply list_elem_of_In, List.filter_In. split.
    - apply list_elem_of_In, elem_of_seqZ. lia.
    - rewrite Hwd. by destruct (is_done _ i). }
  cbn in Hx. subst x. exists k. rewrite Hund. apply elem_of_app. by right.
Qed.

(** ** A segment's entry *)

Lemma findSegment_keyed m i s :
  rows_keyed m → m !! (id, i) = Some s → findSegment (job_segments m id) i = Some s.
Proof.
  intros Hk Hs. unfold findSegment. destruct (Hk _ _ _ Hs) as [_ Hi]. destruct (List.find _ _) as [s'|] eqn:Hf.
  - apply List.find_some in Hf as [Hin%list_elem_of_In Heq]. zbool. rewrite job_segments_elem in Hin by done. congruence.
  - exfalso. pose proof (List.find_none _ _ Hf s) as Hno. cbv beta in Hno. rewrite Hi, Z.eqb_refl in Hno.
    enough (true = false) by done. apply Hno, list_elem_of_In. rewrite job_segments_elem by done. by rewrite Hi.
Qed.

(** A segment claimed before the job is through segmenting: it is synthesized,
    and the job stays where it is. *)
Lemma early_segment w j i s :
  jw_faults w = [] → rows_keyed (jw_segs w) → jw_segs w !! (id, i) = Some s → sg_Status s = SegmentRunning →
  jw_objects w !! InputKey tid id = Some text → jw_jobs w !! id = Some j → same_job job0 j →
  status j = StatusQueued ∨ status j = StatusSegmenting → 0 ≤ i < n →
  ∃ w' s' j', run_segment j i w = (Ok (), w') ∧ jw_segs w' = <[(id, i) := s']> (jw_segs w) ∧
    sg_Status s' = SegmentDone ∧ jw_jobs w' !! id = Some j' ∧ status j' = status j.
Proof.
  intros Hf Hk Hs Hrun Ht Hj (HID & HT & HN & HF) Hst Hi. unfold run_segment. rewrite HID, HT.
  erewrite bind_ok by (apply wrap_ok; by rewrite port_answered). rewrite (findSegment_keyed _ _ s) by done.
  erewrite try_run by by apply (GetText_run _ _ _ text). cbv beta iota.
  destruct (Split_ideal j text w Hf) as (w1 & HSp & Hu1). erewrite try_run by exact HSp. cbv beta iota. rewrite HN.
  destruct (pieces (Normalize job0) text !! Z.to_nat i) as [piece|] eqn:Hpiece; [|apply lookup_ge_None in Hpiece; lia].
  destruct (Synthesize_ideal j i piece w1) as (r & w2 & HS & Hu2 & Hkey); [by rewrite (un_faults _ _ _ Hu1)|].
  assert (undisturbed j w w2) as [E1 E2 E3 E4 E5] by by etrans. erewrite try_run by exact HS. cbv beta iota.
  erewrite bind_ok; [|apply (complete_run job0 w2 i s j); [by rewrite E4|by rewrite E2|done|by rewrite E1]].
  match goal with |- context [set_jobs ?m ?x] => set (w3 := set_jobs m x) end.
  assert (jw_faults w3 = []) as Hf3 by (unfold w3; cbn; by rewrite E4).
  erewrite bind_ok by (apply wrap_ok; by rewrite port_answered).
  assert (jw_jobs w3 !! id = Some (one_more_done (jw_now w2) j)) as Hj3 by apply lookup_insert_eq.
  exists w3, (with_seg SegmentDone (sg_Attempts s) (sr_S3Key r) (sg_LastError s) s), (one_more_done (jw_now w2) j).
  split; [|split_and!; [unfold w3; cbn; by rewrite E2|done..]].
  destruct (0 <? _); [done|]. erewrite bind_ok by (apply wrap_ok; by apply ByID_run).
  unfold finish. cbn [status one_more_done update_job]. 
  assert (Terminal (status j) = false) as -> by by destruct Hst as [-> | ->]. cbn [ID one_more_done update_job]. rewrite HID.
  unfold Transition, affected, update_where. erewrite bind_ok; [|erewrite bind_ok; [|apply wrap_ok; rewrite port_answered by done;
    rewrite Hj3, bool_decide_eq_false_2 by (cbn; by destruct Hst as [-> | ->]); reflexivity]; reflexivity].
  cbn [Z.ltb]. rewrite bool_decide_eq_false_2 by (by destruct Hst as [-> | ->]). done.
Qed.

(** A row no worker can claim. *)
Lemma claim_none i w :
  jw_faults w = [] → (∀ s, row_at w i = Some s → claimable (sg_Status s) = false) → ClaimSegment id i w = (Ok false, w).
Proof.
  intros Hf Hs. unfold ClaimSegment, affected. unfold rows_of in Hs.
  destruct (jw_segs w !! (id, i)) as [s|] eqn:Hl; (erewrite bind_ok; [|apply wrap_ok; rewrite port_answered by done;
    rewrite Hl, ?(Hs _ eq_refl); reflexivity]); done.
Qed.

Definition claimable_at (w : JobWorld) (i : Z) : bool :=
  match row_at w i with Some s => claimable (sg_Status s) | None => false end.

(** What handling a segment's entry gives. *)
Record advanced (e : QueueEntry) (w w' : JobWorld) : Prop := {
  ad_steady : steady w';
  ad_done : more_done w w';
  ad_spread : spread w → spread w' ∧ (0 ≤ qe_Seq e < n → done_at w' (qe_Seq e));
}.

(** While the job is being synthesized. *)
Lemma segment_working e w v s :
  steady w → has job0 v w → fit job0 text v → qe_JobID e = id → status (v_job v) = StatusSynthesizing →
  row_at w (qe_Seq e) = Some s → claimable (sg_Status s) = true → advanced e w (handle StreamSegments e w).2.
Proof.
  intros Hw Hv Hf He Hsv Hs Hcl. assert (Terminal (status (v_job v)) = false) as Hl by by rewrite Hsv.
  destruct (steady_resumable w v Hw Hv Hf Hl) as (Hold & Hwd & Hres). destruct (Hold _ _ Hs) as [Hi _].
  pose proof (fit_same _ _ _ Hf) as Hsame. pose proof Hsame as (HID & HT & HN & HF).
  pose proof (rs_status _ _ _ _ Hres) as Hst. rewrite Hsv in Hst. destruct Hst as [Htot Hall].
  rewrite <-HN in Hold. pose proof (resumable_stage _ _ _ Hold w Hres Htot Hall) as Hstage.
  set (d := was_done (v_job v) text (rows_of job0 w)) in *. rewrite Hsv in Hstage.
  assert (d (qe_Seq e) = false) as Hdi by (unfold d; rewrite Hwd; unfold is_done; rewrite Hs; by destruct (sg_Status s)).
  assert (reached (v_job v) text (rows_of job0 w) d w) as Hre.
  { unfold reached. rewrite HN. destruct (Z.eqb_spec (countb d (seqZ 0 n)) n) as [Hc|]; [|done].
    exfalso. by rewrite (countb_full job0 text Hn d Hc _ Hi) in Hdi. }
  destruct (handleSegment_run (v_job v) text ltac:(by rewrite HN) _ Hold d e w Hre ltac:(by rewrite HID) ltac:(by rewrite HN))
    as (w' & Hrun & Hre'). cbn [handle]. rewrite Hrun. cbn [snd]. rewrite HN in Hold.
  pose proof (settled_of (v_job v) _ _ _ Hsame Hold Hre') as Hse.
  assert (w' = (handle StreamSegments e w).2) as Hw' by (cbn [handle]; by rewrite Hrun).
  split.
  - rewrite Hw' in Hse |- *. by eapply settled_steady.
  - intros i Hi' Hd. unfold done_at in *. rewrite (settled_done _ _ i Hse Hi'). unfold also. apply orb_true_iff. right.
    unfold d. by rewrite Hwd.
  - intros _. split; [by eapply settled_spread|]. intros _. unfold done_at. rewrite (settled_done _ _ _ Hse Hi).
    unfold also. by rewrite Z.eqb_refl.
Qed.

(** Before it is. *)
Lemma segment_early e w v s :
  steady w → has job0 v w → fit job0 text v → qe_JobID e = id →
  status (v_job v) = StatusQueued ∨ status (v_job v) = StatusSegmenting →
  row_at w (qe_Seq e) = Some s → claimable (sg_Status s) = true → advanced e w (handle StreamSegments e w).2.
Proof.
  intros Hw Hv Hf He Hsv Hs Hcl. pose proof (has_job _ _ _ Hv) as Hj.
  assert (Terminal (status (v_job v)) = false) as Hl by by destruct Hsv as [-> | ->].
  pose proof (fit_same _ _ _ Hf) as Hsame. pose proof Hsame as (HID & HT & HN & HF).
  pose proof (td_faults _ (sd_tidy _ Hw)) as Hfa. destruct (steady_resumable w v Hw Hv Hf Hl) as (Hold & _ & Hres).
  destruct (Hold _ _ Hs) as [Hi _]. pose proof (td_segs _ (sd_tidy _ Hw)) as Hk. pose proof Hs as Hs'. unfold rows_of in Hs'.
  destruct (Hk _ _ _ Hs') as [F1 F2].
  set (sr := with_seg SegmentRunning (sg_Attempts s + 1) (sg_S3Key s) (sg_LastError s) s).
  set (w1 := set_segs (<[(id, qe_Seq e) := sr]> (jw_segs w)) w).
  assert (rows_keyed (jw_segs w1)) as Hk1.
  { intros k1 k2 s1 Hl1. cbn in Hl1. apply lookup_insert_Some in Hl1 as [[[= <- <-] <-]|[_ Hl1]]; [done|by apply Hk]. }
  destruct (early_segment w1 (v_job v) (qe_Seq e) sr) as (w' & s' & j' & Hrun & Es & Hd & Hj' & Hst'); try done.
  { apply lookup_insert_eq. }
  { pose proof (rs_text _ _ _ _ Hres) as Ht. by rewrite HID, HT in Ht. }
  assert (w' = (handle StreamSegments e w).2) as Hw'.
  { cbn [handle]. unfold handleSegment. rewrite He. erewrite bind_ok by by apply load_run. cbv beta iota. rewrite Hl, HID.
    erewrite bind_ok; [|unfold ClaimSegment, affected; erewrite bind_ok; [|apply wrap_ok; rewrite port_answered by done;
      rewrite Hs', Hcl; reflexivity]; reflexivity]. cbn [Z.ltb Z.compare]. fold sr. fold w1. by rewrite Hrun. }
  assert (∀ i, row_at w' i = if decide (i = qe_Seq e) then Some s' else row_at w i) as Hrow.
  { intros i. unfold rows_of. rewrite Es. unfold w1. cbn. rewrite insert_insert_eq. case_decide as Hc.
    - subst i. by rewrite lookup_insert_eq.
    - by rewrite lookup_insert_ne by congruence. }
  split.
  - rewrite Hw' in Hrow, Hj'. apply handle_steady; [done|done| |].
    + intros i x. rewrite Hrow. case_decide; [intros [= <-]; by rewrite Hd|]. apply (sd_rest _ Hw).
    + exists j'. split; [done|]. left. by rewrite Hst'.
  - rewrite <-Hw'. intros i _ Hdi. unfold done_at, is_done in *. rewrite Hrow. case_decide; [|done].
    by apply bool_decide_eq_true_2.
  - intros [_ (j & Hj2 & Hst2)]. assert (j = v_job v) as -> by congruence.
    exfalso. destruct Hsv as [E|E], Hst2 as [E2|[E2 _]]; congruence.
Qed.

(** A segment's entry: the segment is synthesized, if a worker can claim it. *)
Lemma own_segment e w :
  steady w → qe_JobID e = id → advanced e w (handle StreamSegments e w).2.
Proof.
  intros Hw He. destruct (steady_view w Hw) as (v & Hv & Hf & Hrows & Hst). pose proof (has_job _ _ _ Hv) as Hj.
  pose proof (fit_status _ _ _ Hf) as Hfs.
  destruct (Terminal (status (v_job v))) eqn:Hl.
  { rewrite (handle_ended StreamSegments e w (v_job v) Hw He Hj Hl). destruct Hst as [?|Hst]; [done|].
    split; [done|by intros i|]. intros Hsp. split; [done|]. intros Hi.
    rewrite Hst in Hfs. destruct Hfs as (_ & Hall & _).
    unfold done_at. rewrite <-(Hall _ Hi). unfold is_done. by rewrite Hrows. }
  pose proof (td_faults _ (sd_tidy _ Hw)) as Hfa. pose proof (fit_same _ _ _ Hf) as (HID & _).
  destruct (claimable_at w (qe_Seq e)) eqn:Hcl.
  - unfold claimable_at in Hcl. destruct (row_at w (qe_Seq e)) as [s|] eqn:Hs; [|done].
    destruct (status (v_job v)) eqn:Hsv; try done.
    + by eapply segment_early; eauto.
    + by eapply segment_early; eauto.
    + by eapply segment_working.
    + exfalso. destruct Hfs as [_ Hall]. destruct (fit_rows _ _ _ Hf (qe_Seq e) s) as (Hi & _); [by rewrite Hrows|].
      specialize (Hall _ Hi). unfold is_done in Hall. rewrite Hrows, Hs in Hall. by destruct (sg_Status s).
  - assert ((handle StreamSegments e w).2 = w) as ->.
    { cbn [handle]. unfold handleSegment. rewrite He. erewrite bind_ok by by apply load_run. cbv beta iota. rewrite Hl, HID.
      erewrite bind_ok; [|apply claim_none; [done|]]; [done|]. intros s Hs. unfold claimable_at in Hcl. by rewrite Hs in Hcl. }
    split; [done|by intros i|]. intros Hsp. split; [done|]. intros Hi. destruct (so_rows _ Hsp _ Hi) as [s Hs].
    unfold claimable_at in Hcl. rewrite Hs in Hcl. pose proof (sd_rest _ Hw _ _ Hs) as Hne. unfold done_at, is_done. rewrite Hs.
    by destruct (sg_Status s).
Qed.

(** ** Steps *)

(** Whatever happens, the job stays steady and what is set out stays so. *)
Record step (w w' : JobWorld) : Prop := {
  sp_steady : steady w';
  sp_set K wait : set_out K wait w → set_out K wait w';
}.

Lemma step_refl w : steady w → step w w.
Proof. by split. Qed.

Lemma step_trans w1 w2 w3 : step w1 w2 → step w2 w3 → step w1 w3.
Proof. intros [H11 H12] [H21 H22]. split; [done|]. intros K wait Hs. by apply H22, H12. Qed.

(** The job's progress, and the stream's growth. *)
Lemma set_out_kept K wait w w' :
  set_out K wait w → spread w' → more_done w w' → steady w → flows StreamSegments w w' → set_out K wait w'.
Proof.
  intros [_ Hwt] Hsp Hmd Hw Hfl. destruct (Hfl (sd_streams _ Hw)) as [_ [l [_ Hu]]]. split; [done|].
  intros i Hi Hnd. destruct (Hwt i Hi) as [Hd|[k Hk]]; [intros Hd; by apply Hnd, Hmd|by left|right].
  exists k. rewrite Hu, take_app, elem_of_app. by left.
Qed.

Lemma other_step w w' : steady w → untouched w w' → flows StreamSegments w w' → step w w'.
Proof.
  intros Hw Hu Hfl. pose proof Hu as [_ Ej Er _]. split; [by eapply steady_untouched|]. intros K wait Hs.
  assert (∀ i, done_at w' i ↔ done_at w i) as Hd by (intros i; unfold done_at, is_done; by rewrite Er).
  eapply set_out_kept; [done| | |done|done]; [|intros i _ ?; by apply Hd].
  destruct (so_spread _ _ _ Hs) as [Hr (j & Hj & Hst)]. split; [intros i Hi; rewrite Er; by apply Hr|].
  exists j. rewrite Ej. split; [done|]. destruct Hst as [?|[? (i & Hi & Hn')]]; [by left|right].
  split; [done|]. exists i. split; [done|]. by rewrite Hd.
Qed.

(** An operation that does not concern the job. *)
Lemma others_step {A} (m : JM A) w :
  steady w → (∀ row rows txt, holds (here id tid row rows txt) m (λ _, True)) → moves (flows StreamSegments) m →
  step w (m w).2.
Proof. intros Hw Hm Hfl. apply other_step; [done|by apply untouched_of, Hw|by apply Hfl]. Qed.

Lemma Ack_step m k w : steady w → step w (Ack m k w).2.
Proof. intros Hw. apply others_step; [done|intros; apply Ack_here|apply Ack_flows]. Qed.

(** Any entry of either stream. *)
Lemma handle_step m e w : steady w → step w (handle m e w).2.
Proof.
  intros Hw. destruct (decide (qe_JobID e = id)) as [He|He].
  - destruct m.
    + destruct (own_job e w Hw He) as (H1' & [K' [Hsp _]] & H3'). split; [done|]. intros K wait Hs.
      eapply set_out_kept; [done..|]. by apply handle_flows.
    + destruct (own_segment e w Hw He) as [H1' H2' H3']. split; [done|]. intros K wait Hs.
      eapply set_out_kept; [done|by apply H3', Hs|done|done|by apply handle_flows].
  - apply others_step; [done|intros; by apply handle_here|apply handle_flows].
Qed.

Lemma process_step m l w : steady w → step w (process m l w).2.
Proof.
  revert w. induction l as [|e l IH]; intros w Hw; [by apply step_refl|]. rewrite process_cons.
  pose proof (handle_step m e w Hw) as Hs1. pose proof (Ack_step m (qe_ID e) _ (sp_steady _ _ Hs1)) as Hs2.
  eapply step_trans; [exact Hs1|]. eapply step_trans; [exact Hs2|]. apply IH, Hs2.
Qed.

(** The first of those that wait is handled. *)
Lemma set_out_pop K d wait w :
  steady w → set_out K (d :: wait) w → set_out K wait (handle StreamSegments d w).2.
Proof.
  intros Hw Hs. destruct (sp_set _ _ (handle_step StreamSegments d w Hw) _ _ Hs) as [Hsp Hwt]. split; [done|].
  intros i Hi Hnd. destruct (Hwt i Hi Hnd) as [(d' & Hd & He & Hseq)|?]; [|by right].
  apply elem_of_cons in Hd as [-> |Hd]; [|by left; exists d']. exfalso. apply Hnd. subst i.
  destruct (own_segment d w Hw He) as [_ _ Hsp']. by apply Hsp', Hi; apply Hs.
Qed.

Lemma process_pop K l w : steady w → set_out K l w → set_out K [] (process StreamSegments l w).2.
Proof.
  revert w. induction l as [|e l IH]; intros w Hw Hs; [done|]. rewrite process_cons.
  pose proof (handle_step StreamSegments e w Hw) as Hs1.
  pose proof (Ack_step StreamSegments (qe_ID e) _ (sp_steady _ _ Hs1)) as Hs2.
  apply IH; [apply Hs2|]. by apply Hs2, set_out_pop.
Qed.

(** An entry of the job among the first [K] on the jobs' stream, or what it
    brings about. *)
Definition attended (K : nat) (w : JobWorld) : Prop :=
  (∃ K', set_out K' [] w) ∨ ∃ x, x ∈ take K (undelivered (jw_streams w StreamJobs)) ∧ x.2.1 = id.

Lemma process_attended l w :
  steady w → (∃ d, d ∈ l ∧ qe_JobID d = id) → ∃ K, set_out K [] (process StreamJobs l w).2.
Proof.
  intros Hw (d & Hd & He). apply list_elem_of_split in Hd as (a & b & ->). rewrite process_app, process_cons.
  pose proof (process_step StreamJobs a w Hw) as Hs1. pose proof (sp_steady _ _ Hs1) as Hw1.
  destruct (own_job d _ Hw1 He) as (Hw2 & [K Hs] & _). exists K.
  pose proof (Ack_step StreamJobs (qe_ID d) _ Hw2) as Hs2. apply (process_step StreamJobs b); [apply Hs2|]. by apply Hs2.
Qed.

(** ** Turns *)

Lemma Claim_moves q m w : m ≠ q → flows q w (Claim m claimBatch w).2.
Proof.
  intros Hm Hw. destruct (Claim_run m w Hw) as (w1 & -> & Hw1 & Ho & _). split; [exact Hw1|]. cbn [snd].
  rewrite Ho by done. by apply grown_refl.
Qed.

Lemma take_sub {A} (x : A) a b l : x ∈ take a l → x ∈ take b l ∨ x ∈ take (a - b) (drop b l).
Proof.
  intros Hx. rewrite <-(take_drop b l), take_app, elem_of_app in Hx. destruct Hx as [Hx|Hx].
  - left. apply (elem_of_sublist _ _ _ Hx), sublist_take.
  - right. destruct (decide (length l ≤ b)%nat) as [Hl|Hl]; [rewrite (drop_ge l), take_nil in Hx by done; by apply elem_of_nil in Hx|].
    by rewrite length_take, Nat.min_l in Hx by lia.
Qed.

(** A turn on the jobs' stream. *)
Lemma jobs_turn w :
  steady w → step w (consume_once StreamJobs w).2 ∧
  ∀ K, attended K w → attended (K - 16) (consume_once StreamJobs w).2.
Proof.
  intros Hw. unfold consume_once, stry. destruct (Claim_run StreamJobs w (sd_streams _ Hw)) as (w1 & HC & Hw1 & Ho & Hu).
  assert (step w w1) as Hs1.
  { replace w1 with (Claim StreamJobs claimBatch w).2 by by rewrite HC.
    apply other_step; [done|apply untouched_of; [intros; apply Claim_here|apply Hw]|by apply Claim_moves]. }
  rewrite HC. set (l := to_entry StreamJobs <$> take 16 (undelivered (jw_streams w StreamJobs))).
  pose proof (process_step StreamJobs l w1 (sp_steady _ _ Hs1)) as Hs2. split; [by eapply step_trans|].
  intros K [[K' HK]|(x & Hx & Hid)]; [left; exists K'; by apply Hs2, Hs1|].
  apply (take_sub x K 16) in Hx as [Hx|Hx].
  - left. apply process_attended; [apply Hs1|]. exists (to_entry StreamJobs x). split; [by apply list_elem_of_fmap_2|done].
  - right. exists x. split; [|done]. destruct (process_flows StreamJobs StreamJobs l w1 Hw1) as [_ [l2 [_ Hl2]]].
    rewrite Hl2, Hu, take_app, elem_of_app. by left.
Qed.

(** A turn on the segments' stream. *)
Lemma segments_turn w :
  steady w → steady (consume_once StreamSegments w).2 ∧
  ∀ K, set_out K [] w → set_out (K - 16) [] (consume_once StreamSegments w).2.
Proof.
  intros Hw. unfold consume_once, stry. destruct (Claim_run StreamSegments w (sd_streams _ Hw)) as (w1 & HC & Hw1 & Ho & Hu).
  assert (untouched w w1) as Hun.
  { replace w1 with (Claim StreamSegments claimBatch w).2 by by rewrite HC.
    apply untouched_of; [intros; apply Claim_here|apply Hw]. }
  assert (steady w1) as Hw1'.
  { apply (steady_untouched StreamJobs w w1); [done|done|]. replace w1 with (Claim StreamSegments claimBatch w).2 by by rewrite HC.
    by apply Claim_moves. }
  rewrite HC. set (l := to_entry StreamSegments <$> take 16 (undelivered (jw_streams w StreamSegments))).
  split; [by apply (process_step StreamSegments l w1)|]. intros K [[Hr (j & Hj & Hst)] Hwt]. apply process_pop; [done|].
  pose proof Hun as [_ Ej Er _].
  assert (∀ i, done_at w1 i ↔ done_at w i) as Hd by (intros i; unfold done_at, is_done; by rewrite Er). split; [split|].
  - intros i Hi. rewrite Er. by apply Hr.
  - exists j. rewrite Ej. split; [done|]. destruct Hst as [?|[? (i & Hi & Hn')]]; [by left|right].
    split; [done|]. exists i. split; [done|]. by rewrite Hd.
  - intros i Hi. rewrite Hd. intros Hnd. destruct (Hwt i Hi Hnd) as [(d & Hd' & _)|[k Hk]]; [by apply elem_of_nil in Hd'|].
    apply (take_sub _ K 16) in Hk as [Hk|Hk].
    + left. exists (to_entry StreamSegments (k, (id, i))). split; [by apply list_elem_of_fmap_2|done].
    + right. exists k. by rewrite Hu.
Qed.

(** *** Beside the turns *)

Definition steps {A} (m : JM A) : Prop := ∀ w, steady w → step w (m w).2.

Lemma steps_bind {A B} (m : JM A) (k : A → JM B) : steps m → (∀ a, steps (k a)) → steps (sbind m k).
Proof.
  intros Hm Hk w Hw. unfold sbind. specialize (Hm w Hw). destruct (m w) as [[a|e] w1]; cbn [snd] in *; [|done].
  eapply step_trans; [exact Hm|]. apply Hk, Hm.
Qed.

Lemma steps_wrap {A} pre (m : JM A) : steps m → steps (swrap pre m).
Proof. intros Hm w Hw. unfold swrap. specialize (Hm w Hw). by destruct (m w) as [[a|e] w1]. Qed.

Lemma others_steps {A} (m : JM A) :
  (∀ row rows txt, holds (here id tid row rows txt) m (λ _, True)) → moves (flows StreamSegments) m → steps m.
Proof. intros Hm Hfl w Hw. by apply others_step. Qed.

Lemma recover_steps m : steps (recover m).
Proof.
  apply steps_bind; [|intros l w; apply process_step]. apply steps_wrap, others_steps; [intros; apply ClaimStale_here|].
  apply ClaimStale_flows.
Qed.

Lemma ReconcileOnce_steps : steps ReconcileOnce.
Proof.
  apply steps_bind; [intros w; by apply step_refl|]. intros now. apply steps_bind.
  { apply steps_wrap, others_steps; [intros; apply Stuck_here|apply Stuck_flows]. }
  intros l. apply steps_bind; [apply others_steps; [intros; apply requeue_here|apply requeue_flows]|]. intros _.
  apply steps_bind; [|intros _]; apply recover_steps.
Qed.

(** What the other loops and the requests for other jobs do. *)
Inductive around : JobWorld → JobWorld → Prop :=
| ar_reconcile w : around w (ReconcileOnce w).2
| ar_create job w : a_job id job → around w (Create job w).2
| ar_text t i body w : i ≠ id → plain t → plain i → around w (PutText t i body w).2
| ar_enqueue i w : around w (Enqueue i w).2
| ar_cancel t i w : i ≠ id → around w (Cancel t i w).2
| ar_time dt w : around w (pass_time dt w).

Lemma around_step w w' : around w w' → steady w → step w w' ∧ flows StreamJobs w w'.
Proof.
  destruct 1 as [w|job w Hjob|t i body w Hi Ht Hpi|i w|t i w Hi|dt w]; intros Hw.
  - split; [by apply ReconcileOnce_steps|by apply ReconcileOnce_flows].
  - split; [|by apply Create_flows]. apply others_step; [done|intros; by apply Create_here|by apply Create_flows].
  - split; [|by apply PutText_flows]. apply others_step; [done|intros; by apply PutText_here|by apply PutText_flows].
  - split; [|by apply Enqueue_flows]. apply others_step; [done|intros; apply Enqueue_here|by apply Enqueue_flows].
  - split; [|by apply Cancel_flows]. apply others_step; [done|intros; by apply Cancel_here|by apply Cancel_flows].
  - split; [|by apply flows_same]. apply other_step; [done| |by apply flows_same]. split; try done.
    destruct (sd_tidy _ Hw). by split.
Qed.

Lemma attended_kept K w w' : steady w → step w w' → flows StreamJobs w w' → attended K w → attended K w'.
Proof.
  intros Hw Hs Hfl [[K' HK]|(x & Hx & Hid)]; [left; exists K'; by apply Hs|right]. exists x. split; [|done].
  destruct (Hfl (sd_streams _ Hw)) as [_ [l [_ ->]]]. rewrite take_app, elem_of_app. by left.
Qed.

(** An execution, and whose turns it has. *)
Inductive goes : JobWorld → list StreamName → JobWorld → Prop :=
| go_end w : goes w [] w
| go_turn m w l w' : goes (consume_once m w).2 l w' → goes w (m :: l) w'
| go_around w w1 l w' : around w w1 → goes w1 l w' → goes w l w'.

Definition turns_of (m : StreamName) (l : list StreamName) : Z := countb (λ k, bool_decide (k = m)) l.

Lemma turns_nonneg m l : 0 ≤ turns_of m l.
Proof. apply countb_nonneg. Qed.

Lemma goes_attended w l w' K :
  goes w l w' → steady w → attended K w → Z.of_nat K ≤ 16 * turns_of StreamJobs l →
  steady w' ∧ ∃ K', set_out K' [] w'.
Proof.
  intros Hg. revert K. induction Hg as [w|m w l w' Hg IH|w w1 l w' Ha Hg IH]; intros K Hw HK Hl.
  - cbn in Hl. replace K with 0%nat in HK by lia. split; [done|]. destruct HK as [?|(x & Hx & _)]; [done|].
    by apply elem_of_nil in Hx.
  - unfold turns_of in *. cbn [countb foldr] in Hl. fold (countb (λ k, bool_decide (k = StreamJobs)) l) in Hl. destruct m.
    + destruct (jobs_turn w Hw) as [Hs HK']. apply (IH (K - 16)%nat); [apply Hs|by apply HK'|].
      rewrite bool_decide_eq_true_2 in Hl by done. pose proof (turns_nonneg StreamJobs l). unfold turns_of in *. lia.
    + destruct (segments_turn w Hw) as [Hs Hset]. apply (IH K); [done| |].
      * destruct HK as [[K' HK]|(x & Hx & Hid)]; [left; eexists; by apply Hset|right]. exists x. split; [|done].
        destruct (consume_flows StreamJobs StreamSegments w ltac:(done) (sd_streams _ Hw)) as [_ [l2 [_ ->]]].
        rewrite take_app, elem_of_app. by left.
      * by rewrite bool_decide_eq_false_2 in Hl by done.
  - destruct (around_step w w1 Ha Hw) as [Hs Hfl]. apply (IH K); [apply Hs|by eapply attended_kept|done].
Qed.

Lemma goes_done w l w' K :
  goes w l w' → steady w → set_out K [] w → Z.of_nat K ≤ 16 * turns_of StreamSegments l → steady w' ∧ set_out 0 [] w'.
Proof.
  intros Hg. revert K. induction Hg as [w|m w l w' Hg IH|w w1 l w' Ha Hg IH]; intros K Hw HK Hl.
  - cbn in Hl. by replace K with 0%nat in HK by lia.
  - unfold turns_of in *. cbn [countb foldr] in Hl. fold (countb (λ k, bool_decide (k = StreamSegments)) l) in Hl. destruct m.
    + destruct (jobs_turn w Hw) as [Hs _]. apply (IH K); [apply Hs|by apply Hs|].
      by rewrite bool_decide_eq_false_2 in Hl by done.
    + destruct (segments_turn w Hw) as [Hs Hset]. apply (IH (K - 16)%nat); [done|by apply Hset|].
      rewrite bool_decide_eq_true_2 in Hl by done. pose proof (turns_nonneg StreamSegments l). unfold turns_of in *. lia.
  - destruct (around_step w w1 Ha Hw) as [Hs _]. apply (IH K); [apply Hs|by apply Hs|done].
Qed.

(** All that was set out has been done. *)
Lemma set_out_completed w : set_out 0 [] w → ∃ j, jw_jobs w !! id = Some j ∧ status j = StatusCompleted.
Proof.
  intros [[_ (j & Hj & Hst)] Hwt]. exists j. split; [done|]. destruct Hst as [?|[_ (i & Hi & Hnd)]]; [done|].
  destruct (Hwt i Hi Hnd) as [(d & Hd & _)|[k Hk]]; [by apply elem_of_nil in Hd|by apply elem_of_nil in Hk].
Qed.

Lemma set_out_all K w : set_out K [] w → set_out (length (undelivered (jw_streams w StreamSegments))) [] w.
Proof.
  intros [Hsp Hwt]. split; [done|]. intros i Hi Hnd. destruct (Hwt i Hi Hnd) as [?|[k Hk]]; [by left|right].
  exists k. rewrite firstn_all. apply (elem_of_sublist _ _ _ Hk), sublist_take.
Qed.
End own.

(** ** Properties *)

(** C13. A job that has been submitted ends. Whatever failures its entries and
    segments have met, let calls be answered from some moment on, when the job is
    live, no segment of it is left running, it has rested for more than two
    minutes, and at most a hundred live jobs have as long. Then a reconcile,
    enough turns of the jobs' stream for the entries that waited and a hundred
    more, and enough turns of the segments' stream for the entries waiting by
    then, at sixteen a turn, complete the job: whatever else goes on, be it other
    turns, reconciles, and other jobs' requests. All its segments are done then,
    and the merged output is under its key. *)
Theorem job_ends `{SoundPorts, !ApartPorts} job0 text w0 w j w1 w2 l1 l2 :
  let n := Z.of_nat (length (pieces (Normalize job0) text)) in
  0 < n ≤ MaxTextChars → plain (ID job0) → plain (TenantID job0) →
  submitted job0 text w0 → rtc (job_act job0) w0 w →
  tidy w → calm_streams w → (∀ i s, rows_of job0 w i = Some s → sg_Status s ≠ SegmentRunning) →
  jw_jobs w !! ID job0 = Some j → Terminal (status j) = false → UpdatedAt j < jw_now w - StuckAfter →
  countb (waits_since (UpdatedAt j)) (snd <$> map_to_list (jw_jobs w)) ≤ 100 →
  goes job0 (ReconcileOnce w).2 l1 w1 →
  Z.of_nat (length (undelivered (jw_streams w StreamJobs))) + 100 ≤ 16 * turns_of StreamJobs l1 →
  goes job0 w1 l2 w2 →
  Z.of_nat (length (undelivered (jw_streams w1 StreamSegments))) ≤ 16 * turns_of StreamSegments l2 →
  ∃ j', jw_jobs w2 !! ID job0 = Some j' ∧ status j' = StatusCompleted ∧ SegmentsTotal j' = Some n ∧
    SegmentsDone j' = n ∧ (∀ i, 0 ≤ i < n → is_done (rows_of job0 w2) i = true) ∧
    OutputS3Key j' = OutputKey (TenantID job0) (ID job0) (Format job0).
Proof.
  intros n Hn Pid Ptid Hsub Hrun Ht Hs Hr Hj Hlive Hold Hc Hg1 Hk1 Hg2 Hk2.
  assert (good job0 text w) as Hg.
  { eapply (rtc_invariant (job_act job0)); [|by apply submitted_good|exact Hrun]. intros a b Ha Hab. by eapply job_act_good. }
  assert (steady job0 text w) as Hw by (split; eauto). clear Hg Hr.
  assert (ID j = ID job0) as HID by by apply (td_jobs _ Ht).
  destruct (Stuck_run w 100 (jw_now w - StuckAfter) j) as (ls & HS & Hin & Hls); [done| |by destruct (status j)|done|done|].
  { apply list_elem_of_fmap. exists (ID job0, j). split; [done|]. by apply elem_of_map_to_list. }
  destruct (ReconcileOnce_run w ls Hs HS) as (Hw1 & es & more & Hu & He).
  assert (steady job0 text (ReconcileOnce w).2) as Hwr by (by apply (ReconcileOnce_steps job0 text Hn)).
  assert (attended job0 text (length (undelivered (jw_streams w StreamJobs)) + 100) (ReconcileOnce w).2) as Hatt.
  { right. assert ((ID j, 0) ∈ snd <$> es) as (x & Hx & Hxe)%list_elem_of_fmap by (rewrite He; apply list_elem_of_fmap; by exists j).
    exists x. split; [|by rewrite <-Hx]. rewrite Hu, app_assoc, take_app, elem_of_app. left.
    rewrite take_ge; [rewrite elem_of_app; by right|]. apply (f_equal length) in He. rewrite !length_fmap in He.
    rewrite length_app. lia. }
  assert (steady job0 text w1 ∧ ∃ K, set_out job0 text K [] w1) as (Hw1' & K & Hset) 
    by (eapply goes_attended; [..|exact Hg1|done|exact Hatt|lia]; done).
  assert (steady job0 text w2 ∧ set_out job0 text 0 [] w2) as [Hw2 Hset2]
    by (eapply goes_done; [..|exact Hg2|done|by eapply set_out_all|done]; done).
  destruct (set_out_completed job0 text _ Hset2) as (j' & Hj' & Hst'). exists j'.
  destruct (steady_view job0 text w2 Hw2) as (v & Hv & Hf & Hrows & _). rewrite (has_job _ _ _ Hv) in Hj'. injection Hj' as <-.
  pose proof (fit_status _ _ _ Hf) as Hfs. rewrite Hst' in Hfs. destruct Hfs as (Htot & Hall & Hout & _).
  split_and!; [apply Hv|done|done| |intros i Hi; specialize (Hall i Hi); unfold is_done in *; by rewrite <-Hrows|done].
  rewrite (fit_count _ _ _ Hf), (countb_ext _ (λ _, true)), countb_true, length_seqZ; [unfold n; lia|].
  intros i Hi%elem_of_seqZ. apply Hall. unfold n in *. lia.
Qed.

(** *** A job interrupted, with the loops *)

#[export] Instance demo_apart : @ApartPorts demo_ports.
Proof.
  assert (∀ key body w k, k ≠ key → jw_objects (object_put key body w).2 !! k = jw_objects w !! k) as Hput.
  { intros key body w k Hk. unfold object_put, swrap, port. cbn [faults JobWorld_faults].
    destruct (jw_faults w) as [|[] fs]; cbn; try done; by rewrite lookup_insert_ne. }
  split; cbn.
  - done.
  - intros job seq text w t i PT PI Pt Pi. unfold PutSegment, sbind, swrap.
    pose proof (Hput (SegmentKey (TenantID job) (ID job) seq) text w (InputKey t i)
      ltac:(by apply (InputKey_apart t i _ _ ("seg/" +:+ _)))) as Hp.
    by destruct (object_put _ _ w) as [[u|e] w'].
  - intros job keys w t i PT PI Pt Pi. unfold sbind.
    pose proof (Hput (OutputKey (TenantID job) (ID job) (Format job)) "audio" w (InputKey t i)
      ltac:(by apply (InputKey_apart t i _ _ ("output." +:+ _)))) as Hp.
    by destruct (object_put _ _ w) as [[u|e] w'].
  - done.
Qed.

(** Turns with nothing else. *)
Fixpoint play `{Ports} (l : list StreamName) (w : JobWorld) : JobWorld :=
  match l with [] => w | m :: l => play l (consume_once m w).2 end.

Lemma play_goes `{Ports} job0 l w : goes job0 w l (play l w).
Proof. revert w. induction l as [|m l IH]; intros w; cbn [play]; by constructor. Qed.

(** Two minutes after the gateway that had the job died, another takes it up,
    while a stranger cancels another job. *)
Definition rested : JobWorld := pass_time (3 * Minute) (set_faults [] died).

Lemma died_keyed : rows_keyed (jw_segs died).
Proof.
  assert (bool_decide (map_Forall (λ k s, sg_JobID s = k.1 ∧ sg_Seq s = k.2) (jw_segs died)) = true) as Hb
    by (vm_compute; reflexivity).
  intros k i s Hs. exact (proj1 (bool_decide_eq_true _) Hb (k, i) s Hs).
Qed.

Lemma rested_elsewhere : elsewhere demo_job died rested.
Proof. unfold rested. split_and!; [reflexivity|intros; reflexivity|reflexivity|apply died_keyed]. Qed.

Lemma rested_tidy : tidy rested.
Proof.
  split; [reflexivity| |apply died_keyed|].
  - assert (bool_decide (map_Forall (λ id j, ID j = id) (jw_jobs died)) = true) as Hb by (vm_compute; reflexivity).
    exact (proj1 (bool_decide_eq_true _) Hb).
  - assert (bool_decide (map_Forall (λ id j, plain id ∧ plain (TenantID j)) (jw_jobs died)) = true) as Hb
      by (vm_compute; reflexivity).
    exact (proj1 (bool_decide_eq_true _) Hb).
Qed.

Lemma rested_calm : calm_streams rested.
Proof.
  split; [reflexivity|]. assert (jw_streams rested = jw_streams (demo_world [])) as -> by (vm_compute; reflexivity).
  intros [|]; (split; [repeat constructor..|done]).
Qed.

Definition rested_turns : JobWorld :=
  play (H := demo_ports) (replicate 7 StreamJobs) (Cancel "t" "other" (ReconcileOnce (H := demo_ports) rested).2).2.

Lemma job_ends_witness :
  ∃ j', jw_jobs (play (H := demo_ports) [StreamSegments] rested_turns) !! "j"%string = Some j' ∧
    status j' = StatusCompleted ∧ OutputS3Key j' = "jobs/t/j/output.mp3"%string.
Proof.
  assert (∃ j, jw_jobs rested !! ID demo_job = Some j ∧ status j = StatusSegmenting ∧ UpdatedAt j = 2000)
    as (j & Hj & Hst & Hup) by (eexists; split; [by vm_compute|by vm_compute]).
  destruct (job_ends (H := demo_ports) (H0 := demo_ideal) (H1 := demo_sound) demo_job "mot hai ba" (demo_world []) rested j
    rested_turns (play (H := demo_ports) [StreamSegments] rested_turns) (replicate 7 StreamJobs) [StreamSegments])
    as (j' & Hj' & Hst' & _ & _ & _ & Hout).
  - by vm_compute.
  - done.
  - done.
  - by split.
  - eapply rtc_l; [|eapply rtc_l; [|apply rtc_refl]].
    + by apply (ja_job (H := demo_ports) demo_job (replicate 5 Answered ++ replicate 20 Refused) first_entry (demo_world [])).
    + apply ja_elsewhere, rested_elsewhere.
  - apply rested_tidy.
  - apply rested_calm.
  - intros i s Hs. assert (map_Forall (λ _ s, sg_Status s ≠ SegmentRunning) (jw_segs rested)) as Hall
      by (apply (bool_decide_unpack _); by vm_compute).
    exact (Hall _ _ Hs).
  - done.
  - by rewrite Hst.
  - rewrite Hup. by vm_compute.
  - rewrite Hup. by vm_compute.
  - eapply go_around; [by apply (ar_cancel (H := demo_ports) demo_job "t" "other")|]. apply play_goes.
  - by vm_compute.
  - apply play_goes.
  - by vm_compute.
  - exists j'. split_and!; [done|done|]. rewrite Hout. done.
Defined.
