(* ===== verification/JobService.v ===== *)
(** * The job use case

    [internal/jobs/service.go]: submitting, reading, listing and cancelling
    jobs, over the store of [JobStore]. [uuid.New], the webhook guard, the digest
    and the link signer are arguments. *)

From stdpp Require Import base gmap strings pretty numbers sorting list.
From S2P Require Import Prelude GoString Cache Jobs JobStore Orchestrator.

Definition DefaultListLimit : Z := 50.
Definition MaxListLimit : Z := 200.

Record Created : Type := { created_Job : Job; Existed : bool }.

Section service.
Variables (sha256 : string → string) (check_webhook : string → res ())
          (sign_url : string → Z → res string).

(** What a repeated submission is answered. *)
Definition matched (fingerprint : string) (existing : Job) : JM Created :=
  if negb (String.eqb (default "" (Metadata existing !! fingerprintKey)) fingerprint) then
    sfail (sentinelf ErrIdempotencyConflict "this key was used with a different body")
  else sret {| created_Job := existing; Existed := true |}.

Definition new_job (newID : string) (req : Request) (fingerprint : string) : Job := {|
  ID := newID; TenantID := rq_TenantID req; KeyID := rq_KeyID req;
  IdempotencyKey := rq_IdempotencyKey req; status := StatusQueued; VoiceID := rq_VoiceID req;
  Format := rq_Format req; SampleRate := rq_SampleRate req; Normalize := rq_Normalize req;
  params := rq_Params req; TotalChars := Chars req; SegmentsTotal := None; SegmentsDone := 0;
  OutputS3Key := ""; DurationMS := None; WebhookURL := rq_WebhookURL req;
  Metadata := <[fingerprintKey := fingerprint]> (rq_Metadata req); Error := "";
  CreatedAt := zero_time; UpdatedAt := zero_time; CompletedAt := None |}.

(** [Create], from the point where no earlier job was found. *)
Definition create_new (newID : string) (req : Request) : JM Created :=
  let fingerprint := BodyFingerprint sha256 req in
  let job := new_job newID req fingerprint in
  swrap "store job text: " (PutText (TenantID job) (ID job) (rq_Text req)) ;*
  try r := Create job in
  match r with
  | Err err =>
      try raced := ByIdempotencyKey (rq_TenantID req) (rq_IdempotencyKey req) in
      match raced with
      | Ok raced => matched fingerprint raced
      | Err _ => sfail (wrapf "create job: " err)
      end
  | Ok created =>
      try _ := Enqueue (ID created) in
      sret {| created_Job := created; Existed := false |}
  end.

Definition Service_Create (newID : string) (req : Request) (maxJobChars : Z) : JM Created :=
  match Validate req maxJobChars with
  | Err e => sfail e
  | Ok req =>
      match check_webhook (rq_WebhookURL req) with
      | Err e => sfail e
      | Ok _ =>
          try found := ByIdempotencyKey (rq_TenantID req) (rq_IdempotencyKey req) in
          match found with
          | Ok existing => matched (BodyFingerprint sha256 req) existing
          | Err err =>
              if negb (errors_Is err ErrNotFound) then sfail (wrapf "look up idempotency key: " err)
              else create_new newID req
          end
      end
  end.

Definition Service_Get (tenantID jobID : string) : JM Job := Get tenantID jobID.

Definition clamp_limit (limit : Z) : Z :=
  if limit <=? 0 then DefaultListLimit else if MaxListLimit <? limit then MaxListLimit else limit.

Definition Service_List (tenantID : string) (before : option Z) (limit : Z) : JM (list Job) :=
  swrap "list jobs: " (List_ tenantID before (clamp_limit limit)).

Definition Service_Cancel (tenantID jobID : string) : JM Job :=
  let* _ := swrap "cancel job: " (Cancel tenantID jobID) in
  Get tenantID jobID.

Definition OutputURL (job : Job) : res string :=
  if negb (bool_decide (status job = StatusCompleted)) || String.eqb (OutputS3Key job) "" then Ok ""
  else rmap_err (wrapf "sign output url: ") (sign_url (OutputS3Key job) OutputURLTTL).

Definition PublicMetadata (metadata : gmap string string) : gmap string string :=
  filter (λ kv, kv.1 ≠ fingerprintKey) metadata.

(** ** Lemmas *)

Lemma matched_evolves fp j : moves evolves (matched fp j).
Proof. unfold matched. moving. Qed.

Lemma create_new_evolves newID req : moves evolves (create_new newID req).
Proof. unfold create_new. cbv zeta. moving; auto using matched_evolves, one_row_evolves. Qed.

Lemma Service_Create_evolves newID req maxJobChars : moves evolves (Service_Create newID req maxJobChars).
Proof. unfold Service_Create. moving; auto using matched_evolves, create_new_evolves, one_row_evolves. Qed.

Lemma fill_validated r m r' : Validate r m = Ok r' → r' = fill_defaults r.
Proof. unfold Validate. cbv zeta. intros H. cases; congruence. Qed.
End service.

(** What can happen to the jobs, submissions included. *)
Inductive system_step `{Ports} (check_webhook : string → res ()) : JobWorld → JobWorld → Prop :=
| step_act w w' : act w w' → system_step check_webhook w w'
| step_submit newID req maxJobChars fs w :
    system_step check_webhook w (Service_Create sha256 check_webhook newID req maxJobChars (set_faults fs w)).2.

Lemma system_evolves `{PortLaws} chk w w' : rtc (system_step chk) w w' → evolves w w'.
Proof.
  apply (rtc_relates (system_step chk) evolves). intros a b [w1 w2 Ha|newID req m fs w1].
  - by apply act_evolves.
  - etrans; [apply (evolves_faults fs)|]. apply Service_Create_evolves.
Qed.

(** In a table with unique keys a submission's row is found. *)
Lemma find_submission m k j t key :
  unique_rows m → m !! k = Some j → TenantID j = t → IdempotencyKey j = key →
  find_row (same_submission t key) m = Some j.
Proof.
  intros [_ Hu] Hj Ht Hkey. destruct (find_row _ m) as [j'|] eqn:Hfind.
  - apply find_row_Some in Hfind as [Hs [k' Hj']]. unfold same_submission in Hs. zbool.
    apply String.eqb_eq in H as H1. apply String.eqb_eq in H0 as H2.
    assert (k' = k) as -> by (apply (Hu k' k j' j); congruence). congruence.
  - pose proof (find_row_None _ _ Hfind k j Hj) as H. unfold same_submission in H.
    by rewrite Ht, Hkey, !String.eqb_refl in H.
Qed.

Lemma ByIdempotencyKey_run w t key :
  jw_faults w = [] →
  ByIdempotencyKey t key w =
    (match find_row (same_submission t key) (jw_jobs w) with
     | Some j => Ok j
     | None => Err (ESentinel ErrNotFound)
     end, w).
Proof.
  intros Hf. unfold ByIdempotencyKey, one_row. rewrite port_answered by done.
  by destruct (find_row _ _).
Qed.

(** What a validated request promises the [jobs] table. *)
Lemma validated_row_ok r m r' newID fp :
  Validate r m = Ok r' → job_row_ok (new_job newID r' fp) = true.
Proof.
  unfold Validate. cbv zeta. intros H. repeat (case_match; try discriminate).
  injection H as <-. unfold job_row_ok. cbn.
  repeat match goal with H : negb _ = false |- _ => apply negb_false_iff in H; cbn in H; rewrite H end.
  apply Z.leb_le, runeCount_range.
Qed.

Lemma PutText_run t k text w :
  jw_faults w = [] →
  PutText t k text w = (Ok (), set_objs (<[InputKey t k := text]> (jw_objects w)) w).
Proof.
  intros Hf. unfold PutText, object_put, swrap. by rewrite port_answered.
Qed.

(** ** Properties *)

Section properties.
Variables (sha256 : string → string) (check_webhook : string → res ()).

(** What the contract says a repeated key is answered. *)
Definition repeat_answer (fingerprint : string) (existing : Job) : res Created :=
  if decide (default "" (Metadata existing !! fingerprintKey) = fingerprint)
  then Ok {| created_Job := existing; Existed := true |}
  else Err (sentinelf ErrIdempotencyConflict "this key was used with a different body").

Lemma matched_run fp j w : matched fp j w = (repeat_answer fp j, w).
Proof.
  unfold matched, repeat_answer. destruct (String.eqb_spec (default "" (Metadata j !! fingerprintKey)) fp);
    case_decide; done.
Qed.


(** C17. A tenant's reads and cancels reach its own jobs only. Whatever calls
    fail, a job returned by a read or a cancel is the caller's, a returned
    cancellation is terminal, and no row of another tenant, and no row other
    than the one named, is changed by a cancel. *)
Theorem tenant_isolation t id w :
  (∀ j, (Service_Get t id w).1 = Ok j → TenantID j = t ∧ jw_jobs w !! id = Some j) ∧
  (∀ j, (Service_Cancel t id w).1 = Ok j →
     TenantID j = t ∧ Terminal (status j) = true ∧ jw_jobs (Service_Cancel t id w).2 !! id = Some j) ∧
  (∀ k j, jw_jobs w !! k = Some j → TenantID j ≠ t ∨ k ≠ id ∨ Terminal (status j) = true →
     jw_jobs (Service_Cancel t id w).2 !! k = Some j).
Proof.
  assert (∀ w, ∀ j, (Get t id w).1 = Ok j → TenantID j = t ∧ jw_jobs w !! id = Some j) as HGet.
  { intros w0 j. unfold Get, one_row, port. cbn.
    destruct (jw_faults w0) as [|[] fs]; cbn; try done;
      destruct (jw_jobs w0 !! id) as [j'|]; cbn; try done;
      destruct (String.eqb_spec (TenantID j') t); cbn; try done; by intros [= <-]. }
  assert (∀ w, jw_jobs (Get t id w).2 = jw_jobs w) as HGet2.
  { intros w0. unfold Get, one_row, port. cbn.
    destruct (jw_faults w0) as [|[] fs]; cbn; try done;
      destruct (jw_jobs w0 !! id) as [j'|]; cbn; try done;
      destruct (String.eqb _ _); done. }
  assert (jw_jobs (Cancel t id w).2 = jw_jobs w ∨ ∃ j, jw_jobs w !! id = Some j ∧ TenantID j = t ∧
    live (status j) = true ∧ jw_jobs (Cancel t id w).2 = <[id := cancelled (jw_now w) j]> (jw_jobs w)) as HC.
  { unfold Cancel, affected, update_where, sbind, swrap, port. cbn.
    destruct (jw_faults w) as [|[] fs]; cbn; auto; destruct (jw_jobs w !! id) as [j|]; cbn; auto;
      destruct (String.eqb_spec (TenantID j) t); cbn; auto; destruct (live (status j)) eqn:Hl; cbn; eauto 6. }
  assert (∀ b, (Cancel t id w).1 = Ok b → ∀ j, jw_jobs (Cancel t id w).2 !! id = Some j →
    TenantID j = t → Terminal (status j) = true) as HT.
  { unfold Cancel, affected, update_where, sbind, swrap, port. cbn. intros b.
    destruct (jw_faults w) as [|[] fs]; cbn; try done; destruct (jw_jobs w !! id) as [j|] eqn:Hj; cbn;
      rewrite ?Hj; try done;
      destruct (String.eqb_spec (TenantID j) t) as [Ht|Ht]; cbn; rewrite ?Hj;
      try (by intros _ ? [= <-]); destruct (live (status j)) eqn:Hl; cbn;
      rewrite ?lookup_insert_eq, ?Hj; intros _ ? [= <-] _; try done; by apply negb_false_iff. }
  unfold Service_Get, Service_Cancel, sbind, swrap.
  destruct (Cancel t id w) as [[b|e] w1] eqn:Hc; cbn [fst snd] in *; split_and!; try done.
  - intros j. apply HGet.
  - intros j Hj. destruct (HGet _ _ Hj) as [Ht Hr]. rewrite HGet2. eauto.
  - intros k j Hk Hor. rewrite HGet2. destruct HC as [->|(j0 & Hj0 & Ht & Hl & ->)]; [done|].
    rewrite lookup_insert_ne; [done|]. intros <-. simplify_eq. unfold live in Hl.
    destruct Hor as [?|[?|Hterm]]; [done..|]. by rewrite Hterm in Hl.
  - intros j. apply HGet.
  - intros k j Hk Hor. destruct HC as [->|(j0 & Hj0 & Ht & Hl & ->)]; [done|].
    rewrite lookup_insert_ne; [done|]. intros <-. simplify_eq. unfold live in Hl.
    destruct Hor as [?|[?|Hterm]]; [done..|]. by rewrite Hterm in Hl.
Qed.
End properties.

(** The tenant's jobs a page may show. *)
Definition pageable (t : string) (before : option Z) (j : Job) : Prop :=
  TenantID j = t ∧ match before with Some b => CreatedAt j < b | None => True end.

(** A page of jobs. A list call asks for between 1 and 200 jobs whatever the
    caller said, and answers jobs of the tenant created before the cursor, newest
    first and each at most once; a job that belongs on the page and is not on it
    is no newer than every job that is, and the page is full. *)
Theorem list_page t before limit w :
  jw_faults w = [] → unique_rows (jw_jobs w) →
  1 ≤ clamp_limit limit ≤ MaxListLimit ∧
  ∃ l, Service_List t before limit w = (Ok l, w) ∧
    Z.of_nat (length l) ≤ clamp_limit limit ∧ NoDup l ∧
    StronglySorted (λ a b, CreatedAt b ≤ CreatedAt a) l ∧
    (∀ j, j ∈ l → jw_jobs w !! ID j = Some j ∧ pageable t before j) ∧
    (∀ k j, jw_jobs w !! k = Some j → pageable t before j → j ∉ l →
       Z.of_nat (length l) = clamp_limit limit ∧ ∀ x, x ∈ l → CreatedAt j ≤ CreatedAt x).
Proof.
  intros Hf [Hid Hu].
  assert (1 ≤ clamp_limit limit ≤ MaxListLimit) as Hcl.
  { unfold clamp_limit, MaxListLimit, DefaultListLimit.
    destruct (Z.leb_spec limit 0), (Z.ltb_spec 200 limit); lia. }
  split; [done|]. unfold Service_List, List_, swrap. rewrite port_answered by done. cbv beta iota.
  match goal with |- context [order_by _ ?c] => set (cands := c) end.
  set (all := order_by _ cands).
  assert (∀ j, j ∈ cands ↔ jw_jobs w !! ID j = Some j ∧ pageable t before j) as Hc.
  { intros j. unfold cands. rewrite list_elem_of_In, List.filter_In, <-list_elem_of_In,
      list_elem_of_fmap, andb_true_iff, String.eqb_eq. unfold pageable.
    assert (match before with Some b => CreatedAt j <? b | None => true end = true ↔
      match before with Some b => CreatedAt j < b | None => True end) as ->
      by (destruct before; [apply Z.ltb_lt|done]).
    split; [intros [([k x] & -> & Hk) Hp]|intros [Hk Hp]]; (split; [|done]).
    - apply elem_of_map_to_list in Hk. simpl. by rewrite (Hid k x Hk).
    - exists (ID j, j). split; [done|]. by apply elem_of_map_to_list. }
  assert (NoDup cands) as Hnd.
  { apply NoDup_ListNoDup, List.NoDup_filter, NoDup_ListNoDup, NoDup_fmap_2_strong; [|apply NoDup_map_to_list].
    intros [k1 x1] [k2 x2] H1 H2 Heq. apply elem_of_map_to_list in H1, H2. simpl in Heq. subst x2.
    by rewrite <-(Hid k1 x1 H1), <-(Hid k2 x1 H2). }
  assert (StronglySorted (λ a b, CreatedAt b ≤ CreatedAt a) all) as Hs.
  { eapply StronglySorted_mono; [|apply order_by_ordered].
    - intros a b Hab. by apply Z.ltb_ge in Hab.
    - intros a b Hab. zbool. apply Z.ltb_ge. lia.
    - intros a b c Hab Hbc. zbool. apply Z.ltb_ge. lia. }
  exists (take (Z.to_nat (clamp_limit limit)) all). split_and!; [done|..].
  - rewrite length_take. lia.
  - apply (NoDup_app (take _ all) (drop (Z.to_nat (clamp_limit limit)) all)).
    rewrite take_drop. unfold all. by rewrite order_by_perm.
  - by apply StronglySorted_take.
  - intros j Hj. apply Hc. rewrite <-(order_by_elem (λ a b, CreatedAt b <? CreatedAt a)).
    fold all. rewrite <-(take_drop (Z.to_nat (clamp_limit limit)) all), elem_of_app. auto.
  - intros k j Hk Hp Hnin.
    assert (j ∈ all) as Hj.
    { unfold all. rewrite order_by_elem. apply Hc. by rewrite (Hid k j Hk). }
    rewrite <-(take_drop (Z.to_nat (clamp_limit limit)) all), elem_of_app in Hj.
    destruct Hj as [?|Hj]; [done|]. split.
    + rewrite length_take. destruct (decide (length all ≤ Z.to_nat (clamp_limit limit))%nat); [|lia].
      rewrite drop_ge in Hj by done. by apply elem_of_nil in Hj.
    + intros x Hx. by apply (StronglySorted_take_drop _ _ _ _ _ Hs Hx Hj).
Qed.

(** One job per tenant and key. Whatever mix of submissions, handlers,
    reconciles, cancels and creations runs, with any calls refused or their
    answers lost, no tenant ever has two jobs under one idempotency key, and each
    row is under its own id. *)
Theorem one_job_per_key `{PortLaws} check_webhook w w' :
  unique_rows (jw_jobs w) → rtc (system_step check_webhook) w w' → unique_rows (jw_jobs w').
Proof. intros Hu Hrun. by apply (ev_unique _ _ (system_evolves _ _ _ Hrun)). Qed.

(** ** Witnesses *)

Definition demo_guard (_ : string) : res () := Ok ().

Lemma unique_rows_empty : unique_rows ∅.
Proof. split; intros *; by rewrite lookup_empty. Qed.

Definition empty_world : JobWorld := {|
  jw_jobs := ∅; jw_segs := ∅; jw_objects := ∅; jw_streams _ := empty_stream; jw_now := 5; jw_faults := [] |}.


Lemma list_page_witness : 1 ≤ clamp_limit (-7) ≤ MaxListLimit.
Proof. refine (proj1 (list_page "t" None (-7) empty_world eq_refl unique_rows_empty)). Defined.

Lemma one_job_per_key_witness :
  unique_rows (jw_jobs (Service_Create (@sha256 demo_ports) demo_guard "j2" (demo_request "a") 0 
    (set_faults [Answered; Answered; Unacknowledged]
      (Service_Create (@sha256 demo_ports) demo_guard "j1" (demo_request "a") 0 (set_faults [] empty_world)).2)).2).
Proof.
  refine (one_job_per_key (H := demo_ports) demo_guard empty_world _ unique_rows_empty
    (rtc_l _ _ _ _ (step_submit (H := demo_ports) demo_guard _ _ _ _ _)
      (rtc_l _ _ _ _ (step_submit (H := demo_ports) demo_guard _ _ _ _ _) (rtc_refl _ _)))).
Defined.
