(* ===== verification/Account.v ===== *)
(** * Accounts: plans, tenants, API keys and authentication

    [internal/plans], [internal/tenants], [internal/auth] and their Postgres
    adapters ([planrepo.go], [tenantrepo.go], [keyrepo.go], [authrepo.go]) over the
    tables of [migrations/00001_core_schema.sql]. Random bytes and new UUIDs are
    arguments. *)

From stdpp Require Import base gmap strings pretty numbers sorting list.
From Stdlib Require Import Ascii SpecFloat.
From S2P Require Import Prelude GoString Float.

(** ** [key.go]: the format of a key *)

Definition PrefixLive : string := "zt_live_".
Definition PrefixTest : string := "zt_test_".
Definition secretBytes : Z := 32.
Definition storedPrefixChars : nat := 8.

Record Generated : Type := { g_Secret : string; g_Hash : string; g_Prefix : string }.

(** The URL-safe alphabet of [encoding/base64]. *)
Definition b64_digit (n : Z) : ascii :=
  if n <? 26 then byte_of (65 + n) else if n <? 52 then byte_of (71 + n)
  else if n <? 62 then byte_of (n - 4) else if n =? 62 then "-"%char else "_"%char.

(** [base64.RawURLEncoding.EncodeToString]. *)
Fixpoint RawURLEncode (s : string) : string :=
  match s with
  | "" => ""
  | String a "" =>
      let x := byte_val a in
      String (b64_digit (x `div` 4)) (String (b64_digit ((x `mod` 4) * 16)) "")
  | String a (String b "") =>
      let x := byte_val a in let y := byte_val b in
      String (b64_digit (x `div` 4)) (String (b64_digit ((x `mod` 4) * 16 + y `div` 16))
        (String (b64_digit ((y `mod` 16) * 4)) ""))
  | String a (String b (String c s')) =>
      let x := byte_val a in let y := byte_val b in let z := byte_val c in
      String (b64_digit (x `div` 4)) (String (b64_digit ((x `mod` 4) * 16 + y `div` 16))
        (String (b64_digit ((y `mod` 16) * 4 + z `div` 64)) (String (b64_digit (z `mod` 64))
          (RawURLEncode s'))))
  end.

Definition splitPrefix (secret : string) : option (string * string) :=
  let candidate p := if HasPrefix secret p
    then Some (p, str_drop (String.length p) secret) else None in
  match candidate PrefixLive with
  | Some (p, rest) => if go_len p <? go_len secret then Some (p, rest) else None
  | None =>
      match candidate PrefixTest with
      | Some (p, rest) => if go_len p <? go_len secret then Some (p, rest) else None
      | None => None
      end
  end.

Definition StoredPrefix (secret : string) : string :=
  match splitPrefix secret with
  | None => ""
  | Some (prefix, rest) =>
      prefix +:+ (if Z.of_nat storedPrefixChars <? go_len rest then str_take storedPrefixChars rest else rest)
  end.

Definition scheme : string := "bearer ".

Definition ParseBearer (header : string) : res string :=
  if (go_len header <? go_len scheme)
     || negb (equal_fold_ascii (str_take (String.length scheme) header) scheme) then
    Err (sentinelf ErrMalformedKey "not a bearer credential")
  else
    let secret := TrimSpace (str_drop (String.length scheme) header) in
    match splitPrefix secret with
    | None => Err (sentinelf ErrMalformedKey "unknown key prefix")
    | Some _ => Ok secret
    end.

Definition fingerprintBytes : nat := 6.
Definition FingerprintForLogs (hash : string) : string :=
  if go_len hash <? Z.of_nat fingerprintBytes then "" else hex_of (str_take fingerprintBytes hash).

(** ** [identity.go] and [keys.go]: identities and records *)

Definition ScopeSynth : string := "synth".
Definition ScopeJobs : string := "jobs".
Definition ScopeUsage : string := "usage".
Definition ScopeKeys : string := "keys".
Definition DefaultTenantScopes : list string := [ScopeSynth; ScopeJobs; ScopeUsage; ScopeKeys].
Definition NewKeyScopes : list string := [ScopeSynth].
Definition maxKeyNameLen : Z := 200.

Definition knownScope (scope : string) : bool :=
  String.eqb scope ScopeSynth || String.eqb scope ScopeJobs || String.eqb scope ScopeUsage
  || String.eqb scope ScopeKeys.

Record Identity : Type := {
  id_TenantID : string; id_KeyID : string; id_PlanID : string; id_Scopes : list string;
  id_StoreText : bool; id_KeyFingerprint : string;
}.

Definition Has (i : Identity) (scope : string) : bool := bool_decide (scope ∈ id_Scopes i).

Definition Require (i : Identity) (scope : string) : res () :=
  if Has i scope then Ok () else Err (sentinelf ErrScopeMissing scope).

Record KeyRecord : Type := {
  k_ID : string; k_TenantID : string; k_Name : string; k_Prefix : string; k_Scopes : list string;
  k_StoreText : bool; k_CreatedAt : Z; k_LastUsedAt : option Z; k_RevokedAt : option Z;
}.

Definition Revoked (k : KeyRecord) : bool := bool_decide (k_RevokedAt k ≠ None).

Record Plan : Type := {
  p_ID : string; CharsPerMonth : Z; ReqPerMinute : Z; MaxConcurrentStreams : Z; MaxJobChars : Z;
  PriceUSDCents : Z; OverageUSDPerMillion : option spec_float;
}.

Record Tenant : Type := { t_ID : string; t_Name : string; t_PlanID : string; t_Status : string }.

(** A row of [api_keys]: the record and the digest it is looked up by. *)
Record KeyRow : Type := { kr_record : KeyRecord; kr_hash : string }.

Record AuditEntry : Type := { au_Actor : string; au_Action : string; au_Target : string }.

Record AccountWorld : Type := {
  aw_plans : gmap string Plan;
  aw_tenants : gmap string Tenant;
  aw_keys : gmap string KeyRow;
  aw_audit : list AuditEntry;
  aw_now : Z;
  aw_faults : list fault;
}.

#[export] Instance AccountWorld_faults : HasFaults AccountWorld := {|
  faults := aw_faults;
  set_faults fs w := {| aw_plans := aw_plans w; aw_tenants := aw_tenants w; aw_keys := aw_keys w;
                        aw_audit := aw_audit w; aw_now := aw_now w; aw_faults := fs |};
|}.

Definition set_plans (m : gmap string Plan) (w : AccountWorld) : AccountWorld :=
  {| aw_plans := m; aw_tenants := aw_tenants w; aw_keys := aw_keys w; aw_audit := aw_audit w;
     aw_now := aw_now w; aw_faults := aw_faults w |}.
Definition set_tenants (m : gmap string Tenant) (w : AccountWorld) : AccountWorld :=
  {| aw_plans := aw_plans w; aw_tenants := m; aw_keys := aw_keys w; aw_audit := aw_audit w;
     aw_now := aw_now w; aw_faults := aw_faults w |}.
Definition set_keys (m : gmap string KeyRow) (w : AccountWorld) : AccountWorld :=
  {| aw_plans := aw_plans w; aw_tenants := aw_tenants w; aw_keys := m; aw_audit := aw_audit w;
     aw_now := aw_now w; aw_faults := aw_faults w |}.
Definition set_audit (l : list AuditEntry) (w : AccountWorld) : AccountWorld :=
  {| aw_plans := aw_plans w; aw_tenants := aw_tenants w; aw_keys := aw_keys w; aw_audit := l;
     aw_now := aw_now w; aw_faults := aw_faults w |}.

Definition AM (A : Type) : Type := ST AccountWorld A.

(** ** [plans.go] and [planrepo.go] *)

Definition sf_negative (f : spec_float) : bool :=
  match f with S754_finite s _ _ => s | S754_infinity s => s | _ => false end.

Definition validate (p : Plan) : res () :=
  let bad what := Err (ENew ("plan " +:+ quoted (p_ID p) +:+ ": " +:+ what)) in
  if String.eqb (p_ID p) "" then Err (ENew "plan id must not be empty")
  else if CharsPerMonth p <? 0 then bad "chars_per_month must not be negative"
  else if ReqPerMinute p <=? 0 then bad "req_per_minute must be positive"
  else if MaxConcurrentStreams p <=? 0 then bad "max_concurrent_streams must be positive"
  else if MaxJobChars p <=? 0 then bad "max_job_chars must be positive"
  else if PriceUSDCents p <? 0 then bad "price_usd_cents must not be negative"
  else if match OverageUSDPerMillion p with Some f => sf_negative f | None => false end
  then bad "overage_usd_per_million must not be negative"
  else Ok ().

(** The checks of [Load] on the decoded file. *)
Fixpoint check_plans (path : string) (seen : list string) (plans : list Plan) : res () :=
  match plans with
  | [] => Ok ()
  | plan :: rest =>
      match validate plan with
      | Err e => Err (wrapf (path +:+ ": ") e)
      | Ok _ =>
          if bool_decide (p_ID plan ∈ seen)
          then Err (ENew (path +:+ ": duplicate plan id " +:+ quoted (p_ID plan)))
          else check_plans path (p_ID plan :: seen) rest
      end
  end.

Definition Load (path : string) (plans : list Plan) : res (list Plan) :=
  match plans with
  | [] => Err (ENew (path +:+ " defines no plans"))
  | _ => rbind (check_plans path [] plans) (λ _, Ok plans)
  end.

(** The check constraints of [plans]. *)
Definition plan_row_ok (p : Plan) : bool :=
  (0 <=? CharsPerMonth p) && (0 <? ReqPerMinute p) && (0 <? MaxConcurrentStreams p)
  && (0 <? MaxJobChars p) && (0 <=? PriceUSDCents p).

Definition UpsertPlan (p : Plan) : AM () := port (λ w,
  if plan_row_ok p then (Ok (), set_plans (<[p_ID p := p]> (aw_plans w)) w)
  else (Err (ENew "new row violates check constraint"), w)).

Fixpoint upsert_each (tiers : list Plan) : AM () :=
  match tiers with
  | [] => sret ()
  | tier :: rest =>
      swrap ("plan " +:+ quoted (p_ID tier) +:+ ": ") (UpsertPlan tier) ;* upsert_each rest
  end.

Definition UpsertPlans (tiers : list Plan) : AM () := transaction (upsert_each tiers).

Definition GetPlan (planID : string) : AM Plan := port (λ w,
  match aw_plans w !! planID with Some p => (Ok p, w) | None => (Err (ESentinel PgxErrNoRows), w) end).

(** ** [keyrepo.go] *)

(** Go checks the length in bytes, the table in characters. *)
Definition name_ok (name : string) : bool := (1 <=? rune_count name) && (rune_count name <=? 200).

Definition same_hash (hash : string) (r : KeyRow) : bool := String.eqb (kr_hash r) hash.

Definition CreateAPIKey (record : KeyRecord) (hash : string) : AM KeyRecord := port (λ w,
  let row := {| k_ID := k_ID record; k_TenantID := k_TenantID record; k_Name := k_Name record;
                k_Prefix := k_Prefix record; k_Scopes := k_Scopes record;
                k_StoreText := k_StoreText record; k_CreatedAt := aw_now w; k_LastUsedAt := None;
                k_RevokedAt := None |} in
  if negb (name_ok (k_Name record) && (go_len hash =? 32)) then
    (Err (ENew "new row violates check constraint"), w)
  else if bool_decide (aw_tenants w !! k_TenantID record = None) then
    (Err (ENew "insert violates foreign key constraint"), w)
  else if bool_decide (aw_keys w !! k_ID record ≠ None)
          || bool_decide (find_row (same_hash hash) (aw_keys w) ≠ None) then
    (Err (ENew "duplicate key value violates unique constraint"), w)
  else (Ok row, set_keys (<[k_ID record := {| kr_record := row; kr_hash := hash |}]> (aw_keys w)) w)).

Definition KeyRepo_Create (record : KeyRecord) (hash : string) : AM KeyRecord :=
  swrap "insert api key: " (CreateAPIKey record hash).

Definition KeyRepo_List (tenantID : string) (includeRevoked : bool) : AM (list KeyRecord) :=
  swrap "list api keys: " (port (λ w,
    (Ok (order_by (λ a b, k_CreatedAt b <? k_CreatedAt a)
           (List.filter (λ k, String.eqb (k_TenantID k) tenantID && (negb (Revoked k) || includeRevoked))
              (kr_record <$> (snd <$> map_to_list (aw_keys w))))), w))).

Definition revoked_at (now : Z) (r : KeyRow) : KeyRow :=
  {| kr_record := {| k_ID := k_ID (kr_record r); k_TenantID := k_TenantID (kr_record r);
       k_Name := k_Name (kr_record r); k_Prefix := k_Prefix (kr_record r);
       k_Scopes := k_Scopes (kr_record r); k_StoreText := k_StoreText (kr_record r);
       k_CreatedAt := k_CreatedAt (kr_record r); k_LastUsedAt := k_LastUsedAt (kr_record r);
       k_RevokedAt := Some now |};
     kr_hash := kr_hash r |}.

Definition KeyRepo_Revoke (tenantID keyID : string) : AM bool :=
  let* n := swrap "revoke api key: " (port (λ w,
    match aw_keys w !! keyID with
    | Some r => if String.eqb (k_TenantID (kr_record r)) tenantID && negb (Revoked (kr_record r))
                then (Ok 1, set_keys (<[keyID := revoked_at (aw_now w) r]> (aw_keys w)) w)
                else (Ok 0, w)
    | None => (Ok 0, w)
    end)) in
  sret (0 <? n).

(** ** [authrepo.go] *)

Definition tenantStatusActive : string := "active".

(** The three tables joined on a live key's digest. *)
Definition GetAPIKeyByHash (hash : string) : AM (KeyRow * Tenant * Plan) := port (λ w,
  match find_row (λ r, same_hash hash r && negb (Revoked (kr_record r))) (aw_keys w) with
  | None => (Err (ESentinel PgxErrNoRows), w)
  | Some r =>
      match aw_tenants w !! k_TenantID (kr_record r) with
      | None => (Err (ESentinel PgxErrNoRows), w)
      | Some t =>
          match aw_plans w !! t_PlanID t with
          | None => (Err (ESentinel PgxErrNoRows), w)
          | Some p => (Ok (r, t, p), w)
          end
      end
  end).

Definition FindByHash (hash : string) : AM Identity :=
  try found := GetAPIKeyByHash hash in
  match found with
  | Err err =>
      if errors_Is err PgxErrNoRows then sfail (ESentinel ErrUnauthorized)
      else sfail (EWrap2 "" (ESentinel ErrLookupFailure) ": " err "")
  | Ok (r, t, p) =>
      if negb (String.eqb (t_Status t) tenantStatusActive) then sfail (ESentinel ErrUnauthorized)
      else sret {| id_TenantID := k_TenantID (kr_record r); id_KeyID := k_ID (kr_record r);
                   id_PlanID := p_ID p; id_Scopes := k_Scopes (kr_record r);
                   id_StoreText := k_StoreText (kr_record r);
                   id_KeyFingerprint := FingerprintForLogs (kr_hash r) |}
  end.

(** ** The use cases *)

Section accounts.
(** [sha256.Sum256], and what [rand.Read] gave. *)
Variables (Hash : string → string).

Definition Generate (prefix : string) (raw : res string) : res Generated :=
  if negb (String.eqb prefix PrefixLive) && negb (String.eqb prefix PrefixTest) then
    Err (sentinelf ErrMalformedKey ("unknown prefix " +:+ quoted prefix))
  else match raw with
  | Err e => Err (wrapf "read entropy: " e)
  | Ok raw =>
      let secret := prefix +:+ RawURLEncode raw in
      Ok {| g_Secret := secret; g_Hash := Hash secret; g_Prefix := StoredPrefix secret |}
  end.

Definition Authenticate (secret : string) : AM Identity :=
  match splitPrefix secret with
  | None => sfail (ESentinel ErrUnauthorized)
  | Some _ => FindByHash (Hash secret)
  end.

(** [keys.go]: the first scope that may not be granted. *)
Fixpoint check_scopes (caller : Identity) (scopes : list string) : res () :=
  match scopes with
  | [] => Ok ()
  | scope :: rest =>
      if negb (knownScope scope) then
        Err (sentinelf ErrInvalidKeyRequest ("unknown scope " +:+ quoted scope))
      else if negb (Has caller scope) then
        Err (sentinelf ErrInvalidKeyRequest
               ("cannot grant " +:+ quoted scope +:+ ", which this key does not hold"))
      else check_scopes caller rest
  end.

Definition bad_name (name : string) (limit : Z) : bool := String.eqb name "" || (limit <? go_len name).

Definition Keys_Create (newID : string) (raw : res string) (caller : Identity) (name : string)
    (scopes : list string) : AM (KeyRecord * string) :=
  if bad_name name maxKeyNameLen then
    sfail (sentinelf ErrInvalidKeyRequest ("name must be 1-" +:+ Itoa maxKeyNameLen +:+ " characters"))
  else
    let scopes := match scopes with [] => NewKeyScopes | _ => scopes end in
    match check_scopes caller scopes with
    | Err e => sfail e
    | Ok _ =>
        match Generate PrefixLive raw with
        | Err e => sfail (wrapf "generate key: " e)
        | Ok generated =>
            let* record := swrap "create key: " (KeyRepo_Create
              {| k_ID := newID; k_TenantID := id_TenantID caller; k_Name := name;
                 k_Prefix := g_Prefix generated; k_Scopes := scopes; k_StoreText := false;
                 k_CreatedAt := zero_time; k_LastUsedAt := None; k_RevokedAt := None |}
              (g_Hash generated)) in
            sret (record, g_Secret generated)
        end
    end.

Definition Keys_List (tenantID : string) (includeRevoked : bool) : AM (list KeyRecord) :=
  swrap "list keys: " (KeyRepo_List tenantID includeRevoked).

(** No authentication cache is wired, so there is none to evict. *)
Definition Keys_Revoke (caller : Identity) (keyID : string) : AM () :=
  let* revoked := swrap "revoke key: " (KeyRepo_Revoke (id_TenantID caller) keyID) in
  if negb revoked then sfail (ESentinel ErrKeyNotFound) else sret ().

(** ** [tenants/service.go] and [tenantrepo.go] *)

Definition maxNameLen : Z := 200.

Definition PlanExists (planID : string) : AM bool :=
  try found := GetPlan planID in
  match found with
  | Ok _ => sret true
  | Err err => if errors_Is err PgxErrNoRows then sret false else sfail (wrapf "get plan: " err)
  end.

Definition CreateTenant (t : Tenant) : AM () := port (λ w,
  if negb (name_ok (t_Name t)) then (Err (ENew "new row violates check constraint"), w)
  else if bool_decide (aw_plans w !! t_PlanID t = None) then
    (Err (ENew "insert violates foreign key constraint"), w)
  else if bool_decide (aw_tenants w !! t_ID t ≠ None) then
    (Err (ENew "duplicate key value violates unique constraint"), w)
  else (Ok (), set_tenants (<[t_ID t := {| t_ID := t_ID t; t_Name := t_Name t;
                                           t_PlanID := t_PlanID t; t_Status := "active" |}]>
                              (aw_tenants w)) w)).

Definition CreateAuditEntry (e : AuditEntry) : AM () :=
  port (λ w, (Ok (), set_audit (aw_audit w ++ [e]) w)).

Definition CreateTenantWithKey (tenant : Tenant) (key : KeyRecord) (hash actor : string) : AM () :=
  transaction (
    swrap "insert tenant: " (CreateTenant tenant) ;*
    swrap "insert api key: " (CreateAPIKey key hash) ;*
    swrap "insert audit entry: " (CreateAuditEntry
      {| au_Actor := actor; au_Action := "tenant.create"; au_Target := t_ID tenant |})).

(** The tenant and its first key's record and secret. *)
Definition Tenant_Create (tenantID keyID : string) (raw : res string) (name planID actor : string)
    : AM (Tenant * KeyRecord * string) :=
  if bad_name name maxNameLen then
    sfail (sentinelf ErrInvalidInput ("name must be 1-" +:+ Itoa maxNameLen +:+ " characters"))
  else if String.eqb planID "" then sfail (sentinelf ErrInvalidInput "plan_id is required")
  else
    let* exists_ := swrap "look up plan: " (PlanExists planID) in
    if negb exists_ then sfail (sentinelf ErrUnknownPlan planID)
    else
      match Generate PrefixLive raw with
      | Err e => sfail (wrapf "generate key: " e)
      | Ok generated =>
          let tenant := {| t_ID := tenantID; t_Name := name; t_PlanID := planID; t_Status := "active" |} in
          let record := {| k_ID := keyID; k_TenantID := tenantID; k_Name := "default";
                           k_Prefix := g_Prefix generated; k_Scopes := DefaultTenantScopes;
                           k_StoreText := false; k_CreatedAt := zero_time; k_LastUsedAt := None;
                           k_RevokedAt := None |} in
          swrap "create tenant: " (CreateTenantWithKey tenant record (g_Hash generated) actor) ;*
          sret (tenant, record, g_Secret generated)
      end.
End accounts.

(** ** Lemmas: base64 *)

Lemma b64_digit_val n : 0 ≤ n < 64 →
  byte_val (b64_digit n) =
    if n <? 26 then 65 + n else if n <? 52 then 71 + n else if n <? 62 then n - 4
    else if n =? 62 then 45 else 95.
Proof.
  intros Hn. unfold b64_digit. destruct (Z.ltb_spec n 26), (Z.ltb_spec n 52), (Z.ltb_spec n 62);
    rewrite ?byte_val_of by lia; try lia. destruct (Z.eqb_spec n 62); reflexivity.
Qed.

Lemma b64_digit_range n : 0 ≤ n < 64 → 33 ≤ byte_val (b64_digit n) < 127.
Proof.
  intros Hn. rewrite b64_digit_val by done.
  destruct (Z.ltb_spec n 26), (Z.ltb_spec n 52), (Z.ltb_spec n 62), (Z.eqb_spec n 62); lia.
Qed.

Lemma b64_digit_inj n m : 0 ≤ n < 64 → 0 ≤ m < 64 → b64_digit n = b64_digit m → n = m.
Proof.
  intros Hn Hm Heq. apply (f_equal byte_val) in Heq. rewrite !b64_digit_val in Heq by done.
  destruct (Z.ltb_spec n 26), (Z.ltb_spec n 52), (Z.ltb_spec n 62), (Z.eqb_spec n 62),
    (Z.ltb_spec m 26), (Z.ltb_spec m 52), (Z.ltb_spec m 62), (Z.eqb_spec m 62); lia.
Qed.

Lemma byte_val_inj a b : byte_val a = byte_val b → a = b.
Proof. intros Heq. by rewrite <-(byte_of_val a), Heq, byte_of_val. Qed.

(** Three bytes at a time. *)
Lemma triples_ind (P : string → Prop) :
  P "" → (∀ a, P (String a "")) → (∀ a b, P (String a (String b ""))) →
  (∀ a b c s, P s → P (String a (String b (String c s)))) → ∀ s, P s.
Proof.
  intros H0 H1 H2 H3. fix IH 1. intros [|a [|b [|c s]]]; [done|done|done|]. apply H3, IH.
Qed.

Ltac sextets :=
  repeat match goal with
  | H : String _ _ = String _ _ |- _ => injection H as H
  | H : b64_digit _ = b64_digit _ |- _ => apply b64_digit_inj in H; [|dlia|dlia]
  end.

Lemma RawURLEncode_inj s s' :
  String.length s = String.length s' → RawURLEncode s = RawURLEncode s' → s = s'.
Proof.
  revert s'. induction s as [|a|a b|a b c s IH] using triples_ind; intros [|a' [|b' [|c' s']]] Hlen Heq;
    try discriminate; [done| | |];
    pose proof (byte_val_range a); pose proof (byte_val_range a');
    try pose proof (byte_val_range b); try pose proof (byte_val_range b');
    try pose proof (byte_val_range c); try pose proof (byte_val_range c').
  - cbn [RawURLEncode] in Heq. sextets. f_equal. apply byte_val_inj. dlia.
  - cbn [RawURLEncode] in Heq. sextets. f_equal; [|f_equal]; apply byte_val_inj; dlia.
  - cbn [RawURLEncode] in Heq.
    injection Heq as E1 E2 E3 E4 Heq. sextets.
    assert (a = a') as -> by (apply byte_val_inj; dlia).
    assert (b = b') as -> by (apply byte_val_inj; dlia).
    assert (c = c') as -> by (apply byte_val_inj; dlia).
    do 3 f_equal. apply IH; [by injection Hlen|done].
Qed.

Lemma RawURLEncode_chars s c : str_has c (RawURLEncode s) = true → 33 ≤ byte_val c < 127.
Proof.
  induction s as [|a|a b|a b d s IH] using triples_ind; cbn [RawURLEncode str_has]; [done| | |];
    pose proof (byte_val_range a); try pose proof (byte_val_range b); try pose proof (byte_val_range d);
    rewrite !orb_true_iff, !bool_decide_eq_true; intros Hor;
    repeat destruct Hor as [Hor|Hor]; auto; try discriminate; subst c; apply b64_digit_range; dlia.
Qed.

Lemma RawURLEncode_length s :
  Z.of_nat (String.length s) `mod` 3 = 2 →
  3 * go_len (RawURLEncode s) = 4 * go_len s + 1.
Proof.
  unfold go_len. induction s as [|a|a b|a b d s IH] using triples_ind.
  - done.
  - done.
  - done.
  - cbn [RawURLEncode String.length]. intros Hm. rewrite !Nat2Z.inj_succ in Hm |- *. dlia.
Qed.

(** The first eight characters of the encoding say the first six bytes. *)
Lemma RawURLEncode_take8 a b c d e f s :
  str_take 8 (RawURLEncode (String a (String b (String c (String d (String e (String f s)))))))
  = RawURLEncode (String a (String b (String c (String d (String e (String f "")))))).
Proof. done. Qed.

(** ** Lemmas: keys *)

Lemma runes_ascii s :
  (∀ c, str_has c s = true → byte_val c < 128) →
  ∀ x, x ∈ runes s → ∃ c, str_has c s = true ∧ x.1 = byte_val c.
Proof.
  induction s as [|c s IH]; intros Hs x Hx; [by apply elem_of_nil in Hx|].
  rewrite runes_unfold, decode1_ascii in Hx by (apply Hs; simpl; by rewrite bool_decide_eq_true_2).
  apply elem_of_cons in Hx as [->|Hx].
  - exists c. simpl. by rewrite bool_decide_eq_true_2.
  - destruct (IH (λ c' Hc', Hs c' (proj2 (orb_true_iff _ _) (or_intror Hc'))) x Hx) as (c' & Hc' & Heq).
    exists c'. simpl. by rewrite Hc', orb_true_r.
Qed.

Lemma drop_spaces_id l : (∀ x, x ∈ l → IsSpace x.1 = false) → drop_spaces l = l.
Proof. destruct l as [|x l]; [done|]. intros H. simpl. by rewrite (H x ltac:(left)). Qed.

Lemma IsSpace_graphic n : 33 ≤ n < 127 → IsSpace n = false.
Proof.
  intros Hn. unfold IsSpace, in_range. rewrite !(proj2 (Z.eqb_neq n _)) by lia.
  rewrite (proj2 (Z.leb_gt n 13)), (proj2 (Z.leb_gt 0x2000 n)) by lia. rewrite andb_false_r. done.
Qed.

Lemma TrimSpace_id s : (∀ c, str_has c s = true → 33 ≤ byte_val c < 127) → TrimSpace s = s.
Proof.
  intros Hs. assert (∀ x, x ∈ runes s → IsSpace x.1 = false) as Hx.
  { intros x Hx. destruct (runes_ascii s (λ c Hc, ltac:(specialize (Hs c Hc); lia)) x Hx) as (c & Hc & ->).
    by apply IsSpace_graphic, Hs. }
  unfold TrimSpace. rewrite (drop_spaces_id (runes s)) by done.
  rewrite (drop_spaces_id (reverse (runes s))) by (intros x; rewrite elem_of_reverse; apply Hx).
  by rewrite reverse_involutive, bytes_of_runes.
Qed.

Lemma go_len_app a b : go_len (a +:+ b) = go_len a + go_len b.
Proof. unfold go_len. rewrite str_app_length. lia. Qed.

Lemma secret_length raw : go_len raw = secretBytes → go_len (RawURLEncode raw) = 43.
Proof.
  unfold secretBytes. intros Hl. pose proof (RawURLEncode_length raw) as H.
  unfold go_len in Hl, H |- *. rewrite Hl in H. specialize (H eq_refl). lia.
Qed.

Lemma splitPrefix_secret prefix s :
  prefix = PrefixLive ∨ prefix = PrefixTest → s ≠ "" → splitPrefix (prefix +:+ s) = Some (prefix, s).
Proof.
  intros Hp Hs. assert (0 < go_len s) by (destruct s; [done|unfold go_len; simpl; lia]).
  assert ((go_len prefix <? go_len (prefix +:+ s)) = true) as Hlen
    by (apply Z.ltb_lt; rewrite go_len_app; lia).
  unfold splitPrefix. destruct Hp as [-> | ->].
  - rewrite HasPrefix_app, str_drop_app. by rewrite Hlen.
  - change (HasPrefix (PrefixTest +:+ s) PrefixLive) with false. cbv iota.
    rewrite HasPrefix_app, str_drop_app. by rewrite Hlen.
Qed.

(** ** Properties *)

(** A minted key reads back, and its stored prefix gives nothing away. A key
    generated for either environment from 32 random bytes is a 51-character
    secret that a bearer header yields unchanged, whatever the case of the scheme;
    different random bytes give different secrets; and the prefix kept in the
    clear is a function of the environment and the first 6 bytes only. *)
Theorem key_roundtrip Hash prefix raw :
  prefix = PrefixLive ∨ prefix = PrefixTest → go_len raw = secretBytes →
  ∃ g, Generate Hash prefix (Ok raw) = Ok g ∧
    g_Secret g = prefix +:+ RawURLEncode raw ∧ go_len (g_Secret g) = 51 ∧ g_Hash g = Hash (g_Secret g) ∧
    (∀ b, String.length b = String.length scheme → equal_fold_ascii b scheme = true →
       ParseBearer (b +:+ g_Secret g) = Ok (g_Secret g)) ∧
    (∀ raw' g', go_len raw' = secretBytes → Generate Hash prefix (Ok raw') = Ok g' →
       (raw ≠ raw' → g_Secret g ≠ g_Secret g') ∧
       (str_take 6 raw = str_take 6 raw' → g_Prefix g = g_Prefix g')).
Proof.
  intros Hp Hlen. unfold Generate.
  assert (negb (String.eqb prefix PrefixLive) && negb (String.eqb prefix PrefixTest) = false) as ->
    by (by destruct Hp as [-> | ->]).
  assert (go_len prefix = 8) as Hp8 by (by destruct Hp as [-> | ->]).
  assert (∀ r, go_len r = secretBytes → go_len (RawURLEncode r) = 43 ∧ RawURLEncode r ≠ "") as Henc.
  { intros r Hr. pose proof (secret_length r Hr) as H. split; [done|]. intros Heq. by rewrite Heq in H. }
  assert (∀ r, go_len r = secretBytes →
    StoredPrefix (prefix +:+ RawURLEncode r) = prefix +:+ str_take 8 (RawURLEncode r)) as Hstored.
  { intros r Hr. destruct (Henc r Hr) as [Hl Hne]. unfold StoredPrefix.
    rewrite splitPrefix_secret by done. by rewrite Hl. }
  destruct (Henc raw Hlen) as [Hl Hne].
  eexists. split; [done|]. cbn [g_Secret g_Hash g_Prefix]. split_and!; try done.
  - rewrite go_len_app. lia.
  - intros b Hb Hfold. unfold ParseBearer. rewrite <-Hb, str_take_app, str_drop_app, Hfold.
    rewrite TrimSpace_id.
    + rewrite splitPrefix_secret by done. rewrite go_len_app.
      assert (go_len b = 7) as -> by (unfold go_len; by rewrite Hb).
      assert (go_len scheme = 7) as -> by done. rewrite go_len_app.
      by rewrite (proj2 (Z.ltb_ge _ _)) by lia.
    + intros c. rewrite str_has_app. intros [Hc|Hc]%orb_true_iff; [|by apply RawURLEncode_chars in Hc].
      assert (∀ p, p = PrefixLive ∨ p = PrefixTest → str_has c p = true → 33 ≤ byte_val c < 127) as H; [|eauto].
      intros p [-> | ->]; cbn [str_has PrefixLive PrefixTest];
        rewrite !orb_true_iff, !bool_decide_eq_true;
        intros Hor; repeat (destruct Hor as [<-|Hor]; [vm_compute; split; congruence|]); done.
  - intros raw' g' Hlen' [= <-]. cbn [g_Secret g_Prefix]. split.
    + intros Hdiff Heq. apply Hdiff. apply RawURLEncode_inj.
      * unfold go_len in Hlen, Hlen'. lia.
      * by apply (inj (String.append prefix)) in Heq.
    + intros Heq. rewrite !Hstored by done. f_equal.
      unfold go_len, secretBytes in Hlen, Hlen'.
      destruct raw as [|a [|b [|c [|d [|e [|f s]]]]]]; try (simpl in Hlen; lia).
      destruct raw' as [|a' [|b' [|c' [|d' [|e' [|f' s']]]]]]; try (simpl in Hlen'; lia).
      rewrite !RawURLEncode_take8. by injection Heq as -> -> -> -> -> ->.
Qed.

Lemma key_roundtrip_witness :
  ∃ g, Generate (λ s, s) PrefixTest (Ok "0123456789abcdef0123456789abcdef") = Ok g ∧
       ParseBearer ("BEARER " +:+ g_Secret g) = Ok (g_Secret g).
Proof.
  destruct (key_roundtrip (λ s, s) PrefixTest "0123456789abcdef0123456789abcdef" (or_intror eq_refl) eq_refl)
    as (g & Hg & _ & _ & _ & Hparse & _).
  exists g. split; [exact Hg|]. refine (Hparse "BEARER " _ _); reflexivity.
Defined.

(** The join a live key is found through. *)
Definition live_key (w : AccountWorld) (hash : string) (r : KeyRow) (t : Tenant) (p : Plan) : Prop :=
  find_row (λ r, same_hash hash r && negb (Revoked (kr_record r))) (aw_keys w) = Some r ∧
  aw_tenants w !! k_TenantID (kr_record r) = Some t ∧ aw_plans w !! t_PlanID t = Some p.

(** C19. Authentication is exact and uniform. Authenticating writes nothing. When
    the lookup answers, a secret is accepted if and only if it has a key's shape
    and its digest is that of an unrevoked key of an active tenant, with that key's
    tenant and scopes; every refusal is the one error ErrUnauthorized; and a lookup
    that fails is never reported as one. *)
Theorem authenticate_exact Hash secret w :
  let m := Authenticate Hash secret w in
  (aw_plans m.2 = aw_plans w ∧ aw_tenants m.2 = aw_tenants w ∧ aw_keys m.2 = aw_keys w) ∧
  (aw_faults w = [] →
    (∀ i, m.1 = Ok i ↔ ∃ r t p, splitPrefix secret ≠ None ∧ live_key w (Hash secret) r t p ∧
       t_Status t = "active" ∧
       i = {| id_TenantID := k_TenantID (kr_record r); id_KeyID := k_ID (kr_record r); id_PlanID := p_ID p;
              id_Scopes := k_Scopes (kr_record r); id_StoreText := k_StoreText (kr_record r);
              id_KeyFingerprint := FingerprintForLogs (kr_hash r) |}) ∧
    (∀ e, m.1 = Err e → e = ESentinel ErrUnauthorized)) ∧
  (∀ f fs, aw_faults w = f :: fs → f ≠ Answered → splitPrefix secret ≠ None →
    ∃ e, m.1 = Err e ∧ errors_Is e ErrLookupFailure = true ∧ errors_Is e ErrUnauthorized = false).
Proof.
  cbv zeta. unfold Authenticate. destruct (splitPrefix secret) as [[pre rest]|] eqn:Hsplit.
  2:{ split_and!; try done. intros _. split; [|by intros e [= <-]].
      intros i. split; [done|]. by intros (? & ? & ? & ? & _). }
  unfold FindByHash, GetAPIKeyByHash, stry, live_key. split_and!.
  1,2,3: unfold port; cbn [faults set_faults AccountWorld_faults];
    destruct (aw_faults w) as [|[] fs]; cbn; cases; done.
  - intros Hf. rewrite port_answered by done.
    destruct (find_row _ (aw_keys w)) as [r|] eqn:Hr; cbn.
    2:{ split; [|by intros e [= <-]]. intros i. split; [done|]. by intros (? & ? & ? & _ & [? _] & _). }
    destruct (aw_tenants w !! _) as [t|] eqn:Ht; cbn.
    2:{ split; [|by intros e [= <-]]. intros i. split; [done|].
        intros (? & ? & ? & _ & (? & ? & _) & _). simplify_eq. }
    destruct (aw_plans w !! _) as [p|] eqn:Hp; cbn.
    2:{ split; [|by intros e [= <-]]. intros i. split; [done|].
        intros (? & ? & ? & _ & (? & ? & ?) & _). simplify_eq. }
    unfold tenantStatusActive. destruct (String.eqb_spec (t_Status t) "active") as [Hs|Hs]; cbn.
    + split; [|done]. intros i. split; [intros [= <-]; by exists r, t, p|].
      intros (? & ? & ? & _ & (? & ? & ?) & _ & ->). by simplify_eq.
    + split; [|by intros e [= <-]]. intros i. split; [done|].
      intros (? & ? & ? & _ & (? & ? & ?) & ? & _). by simplify_eq.
  - intros f fs Hf Hna _. unfold port. cbn [faults AccountWorld_faults]. rewrite Hf.
    destruct f; [done| |]; eexists; split_and!; done.
Qed.

(** A key never mints a stronger one. Whatever calls fail, a key that is
    created is the caller's tenant's, carries at least one scope, and only known
    scopes the caller holds; its row is stored under the digest of the secret
    returned; and every other key's row is as it was. *)
Theorem key_scopes Hash newID raw caller name scopes w rec secret :
  (Keys_Create Hash newID raw caller name scopes w).1 = Ok (rec, secret) →
  let w' := (Keys_Create Hash newID raw caller name scopes w).2 in
  k_TenantID rec = id_TenantID caller ∧ k_Scopes rec ≠ [] ∧
  (∀ s, s ∈ k_Scopes rec → knownScope s = true ∧ s ∈ id_Scopes caller) ∧
  aw_keys w !! newID = None ∧
  aw_keys w' = <[newID := {| kr_record := rec; kr_hash := Hash secret |}]> (aw_keys w) ∧
  StoredPrefix secret = k_Prefix rec.
Proof.
  unfold Keys_Create. destruct (bad_name _ _); [done|]. cbv zeta.
  assert (∀ l, check_scopes caller l = Ok () →
    ∀ s, s ∈ l → knownScope s = true ∧ s ∈ id_Scopes caller) as Hcheck.
  { induction l as [|s l IH]; cbn [check_scopes]; [set_solver|].
    destruct (knownScope s) eqn:Hk; cbn [negb]; [|done].
    destruct (Has caller s) eqn:Hh; cbn [negb]; [|done]. intros Hl s' [->|Hs]%elem_of_cons; [|by apply IH].
    split; [done|]. by apply bool_decide_eq_true in Hh. }
  set (granted := match scopes with [] => NewKeyScopes | _ => scopes end).
  assert (granted ≠ []) as Hne by (subst granted; destruct scopes; done).
  destruct (check_scopes caller granted) as [[]|e] eqn:Hs; [|done]. specialize (Hcheck _ Hs).
  destruct (Generate Hash PrefixLive raw) as [g|e] eqn:Hg; [|done].
  assert (g_Hash g = Hash (g_Secret g) ∧ g_Prefix g = StoredPrefix (g_Secret g)) as [Hh Hp].
  { unfold Generate in Hg. cbn in Hg. destruct raw; [|done]. by injection Hg as <-. }
  unfold sbind, swrap, KeyRepo_Create, swrap, CreateAPIKey, port. cbn [faults set_faults AccountWorld_faults].
  destruct (aw_faults w) as [|[] fs]; cbn [aw_tenants aw_keys aw_now]; try done.
  all: destruct (negb _); [done|]; destruct (bool_decide (aw_tenants w !! _ = None)); [done|];
    destruct (bool_decide (aw_keys w !! _ ≠ None)) eqn:Hid; [done|]; cbn [orb k_ID];
    destruct (bool_decide (find_row _ _ ≠ None)); [done|]; cbn; try done;
    intros Heq; injection Heq as Hrec Hsec; subst rec secret; cbn;
    apply bool_decide_eq_false, dec_stable in Hid; rewrite <-Hh; split_and!; try done; apply Hcheck.
Qed.

(** A small account world: one plan, one tenant, no keys yet. *)
Definition demo_plan : Plan := {| p_ID := "free"; CharsPerMonth := 1000; ReqPerMinute := 60;
  MaxConcurrentStreams := 2; MaxJobChars := 5000; PriceUSDCents := 0; OverageUSDPerMillion := None |}.
Definition demo_accounts : AccountWorld := {|
  aw_plans := {[ "free" := demo_plan ]};
  aw_tenants := {[ "t" := {| t_ID := "t"; t_Name := "a"; t_PlanID := "free"; t_Status := "active" |} ]};
  aw_keys := ∅; aw_audit := []; aw_now := 9; aw_faults := [] |}.
Definition demo_caller : Identity := {| id_TenantID := "t"; id_KeyID := "k0"; id_PlanID := "free";
  id_Scopes := [ScopeSynth; ScopeKeys]; id_StoreText := false; id_KeyFingerprint := "" |}.
(** A digest for concrete runs: the first 32 characters. *)
Definition demo_hash (s : string) : string := str_take 32 s.
Definition demo_raw : res string := Ok "0123456789abcdef0123456789abcdef".

Lemma key_scopes_witness :
  match (Keys_Create demo_hash "k1" demo_raw demo_caller "ci" [] demo_accounts).1 with
  | Ok (rec, _) => k_Scopes rec ≠ []
  | Err _ => False
  end.
Proof.
  destruct (Keys_Create demo_hash "k1" demo_raw demo_caller "ci" [] demo_accounts).1 as [[rec secret]|e] eqn:Hr.
  - refine (proj1 (proj2 (key_scopes demo_hash "k1" demo_raw demo_caller "ci" [] demo_accounts rec secret Hr))).
  - vm_compute in Hr. discriminate.
Defined.

(** What a creation that succeeds has written. *)
Definition first_key_row (tid kid secret hash : string) (now : Z) : KeyRow := {|
  kr_record := {| k_ID := kid; k_TenantID := tid; k_Name := "default"; k_Prefix := StoredPrefix secret;
    k_Scopes := DefaultTenantScopes; k_StoreText := false; k_CreatedAt := now; k_LastUsedAt := None;
    k_RevokedAt := None |};
  kr_hash := hash |}.

Definition with_tenant (Hash : string → string) (tid kid name planID actor secret : string)
    (w : AccountWorld) : AccountWorld := {|
  aw_plans := aw_plans w;
  aw_tenants := <[tid := {| t_ID := tid; t_Name := name; t_PlanID := planID; t_Status := "active" |}]> (aw_tenants w);
  aw_keys := <[kid := first_key_row tid kid secret (Hash secret) (aw_now w)]> (aw_keys w);
  aw_audit := aw_audit w ++ [{| au_Actor := actor; au_Action := "tenant.create"; au_Target := tid |}];
  aw_now := aw_now w; aw_faults := aw_faults w |}.

Lemma Generate_run Hash bytes g :
  Generate Hash PrefixLive (Ok bytes) = Ok g →
  g = {| g_Secret := PrefixLive +:+ RawURLEncode bytes; g_Hash := Hash (PrefixLive +:+ RawURLEncode bytes);
         g_Prefix := StoredPrefix (PrefixLive +:+ RawURLEncode bytes) |}.
Proof. unfold Generate. cbn. by intros [= <-]. Qed.

Lemma Tenant_Create_run Hash tid kid bytes name planID actor w t rec secret w' :
  aw_faults w = [] →
  Tenant_Create Hash tid kid (Ok bytes) name planID actor w = (Ok (t, rec, secret), w') →
  (∃ p, aw_plans w !! planID = Some p) ∧ secret = PrefixLive +:+ RawURLEncode bytes ∧
  aw_keys w !! kid = None ∧ (∀ k r, aw_keys w !! k = Some r → same_hash (Hash secret) r = false) ∧
  w' = with_tenant Hash tid kid name planID actor secret w.
Proof.
  intros Hf. unfold Tenant_Create. destruct (bad_name _ _); [done|]. destruct (String.eqb planID ""); [done|].
  unfold PlanExists, GetPlan, sbind at 1, swrap at 1, stry. rewrite port_answered by done.
  destruct (aw_plans w !! planID) as [p|] eqn:Hplan; [|done]. cbn [negb sret].
  destruct (Generate Hash PrefixLive (Ok bytes)) as [g|e] eqn:Hg; [|done]. apply Generate_run in Hg as ->.
  cbv zeta. cbn [g_Secret g_Hash g_Prefix]. unfold CreateTenantWithKey, transaction, sbind, swrap.
  rewrite port_answered by done. unfold CreateTenant.
  rewrite port_answered by done. destruct (negb (name_ok _)); [done|].
  destruct (bool_decide (aw_plans w !! _ = None)); [done|].
  destruct (bool_decide (aw_tenants w !! _ ≠ None)); [done|].
  unfold CreateAPIKey. rewrite port_answered by done. cbn [aw_tenants aw_keys set_tenants aw_now].
  destruct (negb _); [done|]. destruct (bool_decide (<[_ := _]> _ !! _ = None)); [done|].
  destruct (bool_decide (aw_keys w !! _ ≠ None)) eqn:Hkid; [done|].
  destruct (bool_decide (find_row _ _ ≠ None)) eqn:Hhash; [done|]. cbn [orb].
  unfold CreateAuditEntry. rewrite port_answered by done.
  cbn [faults AccountWorld_faults aw_faults set_audit set_keys set_tenants aw_audit aw_plans]. rewrite Hf.
  intros Heq. injection Heq as <- <- <- <-.
  apply bool_decide_eq_false, dec_stable in Hkid, Hhash. split_and!; [by exists p|done|done| |].
  - by apply find_row_None.
  - reflexivity.
Qed.



(** Two worlds with the same four tables. *)
Record tables_same (w w' : AccountWorld) : Prop := {
  ts_plans : aw_plans w' = aw_plans w;
  ts_tenants : aw_tenants w' = aw_tenants w;
  ts_keys : aw_keys w' = aw_keys w;
  ts_audit : aw_audit w' = aw_audit w;
  ts_now : aw_now w' = aw_now w;
}.

#[export] Instance tables_same_preorder : PreOrder tables_same.
Proof. split; [done|]. intros w1 w2 w3 [] []. split; congruence. Qed.

#[export] Instance Account_fault_laws : FaultLaws AccountWorld.
Proof. by split. Qed.

Lemma tables_same_faults fs w : tables_same w (set_faults fs w).
Proof. by split. Qed.

(** Follow a port that answered into its operation. *)
Ltac answered H :=
  apply port_Ok in H as [H|[? H]]; cbv beta zeta in H;
  cbn [set_faults AccountWorld_faults aw_plans aw_tenants aw_keys aw_audit aw_now] in H;
  repeat (case_match; try discriminate); injection H as; subst; by cbn.

(** The statements of a tenant's creation, once through. *)
Lemma create_statements tenant key hash actor w u w' :
  (swrap "insert tenant: " (CreateTenant tenant) ;*
   swrap "insert api key: " (CreateAPIKey key hash) ;*
   swrap "insert audit entry: " (CreateAuditEntry
      {| au_Actor := actor; au_Action := "tenant.create"; au_Target := t_ID tenant |})) w = (Ok u, w') →
  aw_plans w' = aw_plans w ∧
  aw_tenants w' = <[t_ID tenant := {| t_ID := t_ID tenant; t_Name := t_Name tenant;
                      t_PlanID := t_PlanID tenant; t_Status := "active" |}]> (aw_tenants w) ∧
  aw_keys w' = <[k_ID key := {| kr_record := {| k_ID := k_ID key; k_TenantID := k_TenantID key;
      k_Name := k_Name key; k_Prefix := k_Prefix key; k_Scopes := k_Scopes key;
      k_StoreText := k_StoreText key; k_CreatedAt := aw_now w; k_LastUsedAt := None;
      k_RevokedAt := None |}; kr_hash := hash |}]> (aw_keys w) ∧
  aw_audit w' = aw_audit w ++ [{| au_Actor := actor; au_Action := "tenant.create"; au_Target := t_ID tenant |}].
Proof.
  unfold sbind, swrap.
  destruct (CreateTenant tenant w) as [[[]|] w1] eqn:H1; [|done].
  destruct (CreateAPIKey key hash w1) as [[r|] w2] eqn:H2; [|done].
  destruct (CreateAuditEntry _ w2) as [[[]|] w3] eqn:H3; [|done]. intros [= _ <-].
  assert (aw_plans w1 = aw_plans w ∧ aw_keys w1 = aw_keys w ∧ aw_audit w1 = aw_audit w ∧ aw_now w1 = aw_now w ∧
    aw_tenants w1 = <[t_ID tenant := {| t_ID := t_ID tenant; t_Name := t_Name tenant;
                      t_PlanID := t_PlanID tenant; t_Status := "active" |}]> (aw_tenants w)) as (E1&E2&E3&E4&E5).
  { answered H1. }
  assert (aw_plans w2 = aw_plans w1 ∧ aw_tenants w2 = aw_tenants w1 ∧ aw_audit w2 = aw_audit w1 ∧
    aw_keys w2 = <[k_ID key := {| kr_record := {| k_ID := k_ID key; k_TenantID := k_TenantID key;
      k_Name := k_Name key; k_Prefix := k_Prefix key; k_Scopes := k_Scopes key;
      k_StoreText := k_StoreText key; k_CreatedAt := aw_now w1; k_LastUsedAt := None;
      k_RevokedAt := None |}; kr_hash := hash |}]> (aw_keys w1)) as (F1&F2&F3&F4).
  { answered H2. }
  assert (aw_plans w3 = aw_plans w2 ∧ aw_tenants w3 = aw_tenants w2 ∧ aw_keys w3 = aw_keys w2 ∧
    aw_audit w3 = aw_audit w2 ++ [{| au_Actor := actor; au_Action := "tenant.create"; au_Target := t_ID tenant |}])
    as (G1&G2&G3&G4).
  { answered H3. }
  split_and!; congruence.
Qed.

Lemma calm_create tenant key hash actor :
  keeps calm (swrap "insert tenant: " (CreateTenant tenant) ;*
   swrap "insert api key: " (CreateAPIKey key hash) ;*
   swrap "insert audit entry: " (CreateAuditEntry
      {| au_Actor := actor; au_Action := "tenant.create"; au_Target := t_ID tenant |})).
Proof.
  apply keeps_bind; [|intros _; apply keeps_bind; [|intros _]]; apply keeps_wrap, calm_port; intros w;
    cbv zeta; by repeat case_match.
Qed.

(** The tables after a creation has been committed. *)
Definition tenant_added (Hash : string → string) (tid kid name planID actor : string)
    (w w' : AccountWorld) (secret : string) : Prop :=
  let e := with_tenant Hash tid kid name planID actor secret w in
  aw_plans w' = aw_plans e ∧ aw_tenants w' = aw_tenants e ∧ aw_keys w' = aw_keys e ∧ aw_audit w' = aw_audit e.

(** A tenant is created whole or not at all. Whatever calls fail, the tables
    are either as they were, and no secret is returned, or hold exactly the new
    tenant, its first key and the audit entry naming the operator besides; then
    that key's secret is returned, unless the answer to a call was to be lost. *)
Theorem tenant_atomic Hash tid kid raw name planID actor w :
  let m := Tenant_Create Hash tid kid raw name planID actor w in
  (tables_same w m.2 ∧ is_Ok m.1 = false) ∨
  ∃ secret, tenant_added Hash tid kid name planID actor w m.2 secret ∧
    ((∃ t rec, m.1 = Ok (t, rec, secret)) ∨ is_Ok m.1 = false ∧ Unacknowledged ∈ aw_faults w).
Proof.
  cbv zeta. destruct (Tenant_Create Hash tid kid raw name planID actor w) as [res w'] eqn:Hm. cbn [fst snd].
  revert Hm. unfold Tenant_Create. destruct (bad_name _ _); [intros [= <- <-]; by left|].
  destruct (String.eqb planID ""); [intros [= <- <-]; by left|]. unfold sbind at 1, swrap at 1.
  assert (∃ r w1, PlanExists planID w = (r, w1) ∧ tables_same w w1 ∧ (calm w → calm w1)) as (r & w1 & -> & Hs & Hc).
  { eexists _, _. split; [apply surjective_pairing|].
    assert (∀ w, aw_faults ((λ w, match aw_plans w !! planID with
      | Some p => (Ok p, w) | None => (Err (ESentinel PgxErrNoRows), w) end) w).2 = aw_faults w) as Hop
      by (intros x; by destruct (_ !! _)).
    unfold PlanExists, stry, GetPlan. pose proof (calm_port _ Hop w) as Hc.
    assert (tables_same w (port (λ w, match aw_plans w !! planID with
      | Some p => (Ok p, w) | None => (Err (ESentinel PgxErrNoRows), w) end) w).2) as Ht.
    { unfold port. cbn. by destruct (aw_faults w) as [|[] fs]; cbn; destruct (aw_plans w !! planID). }
    destruct (port _ w) as [[p|e] w2]; cbn in *; [done|]. by destruct (errors_Is _ _). }
  destruct r as [[]|e]; [|intros [= <- <-]; by left..]. cbn [negb].
  destruct (Generate Hash PrefixLive raw) as [g|e] eqn:Hg; [|intros [= <- <-]; by left]. cbv zeta.
  assert (g_Hash g = Hash (g_Secret g) ∧ g_Prefix g = StoredPrefix (g_Secret g)) as [Hh Hp].
  { unfold Generate in Hg. cbn in Hg. destruct raw; [|done]. by injection Hg as <-. }
  unfold sbind at 1, swrap at 1. unfold CreateTenantWithKey.
  match goal with |- context [transaction ?m w1] => pose proof (transaction_cases tables_same m w1 tables_same_faults) as Htx; set (st := m) in * end.
  cbv zeta in Htx. destruct (transaction st w1) as [r4 w4]. cbn [fst snd] in Htx.
  destruct Htx as [[Ht He]|(w2 & w3 & u & Hs2 & Hrun & Hs3 & Hres)].
  - destruct r4 as [[]|e]; [done|]. intros [= <- <-]. left. split; [by etrans|done].
  - intros Heq. assert (w' = w4) as -> by (destruct r4; by injection Heq). right. exists (g_Secret g). split.
    + apply create_statements in Hrun as (E1 & E2 & E3 & E4). cbn in E2, E3.
      destruct Hs as [A1 A2 A3 A4 A5], Hs2 as [B1 B2 B3 B4 B5], Hs3 as [C1 C2 C3 C4 C5].
      unfold tenant_added, with_tenant, first_key_row. cbn.
      rewrite Hh, Hp, B5, A5 in E3.
      rewrite C1, C2, C3, C4, E1, E2, E3, E4, B1, B2, B3, B4, A1, A2, A3, A4. by split_and!.
    + destruct Hres as [->|[Herr Hcalm]].
      * left. injection Heq as <-. by eexists _, _.
      * right. destruct r4 as [[]|e]; [done|]. injection Heq as <-. split; [done|].
        destruct (decide (Unacknowledged ∈ aw_faults w)) as [|Hn]; [done|]. exfalso.
        apply (Hcalm (calm_create _ _ _ _)). by apply Hc.
Qed.
