(* ===== verification/PlanLimits.v ===== *)
(** * Plan limits on the request path

    The readers of [planrepo.go] that the endpoints and the limiter ask: three
    that query every time, and [ReqPerMinute] with its thirty-second cache, over
    the plans of [Account.v]. The two readings of the clock are arguments. *)

From Stdlib Require Import SpecFloat.
From stdpp Require Import base gmap strings pretty numbers list.
From S2P Require Import Prelude GoString Account.

Definition PlanCacheTTL : Z := 30 * Second.

Definition get_plan (planID : string) : AM Plan :=
  swrap ("get plan " +:+ quoted planID +:+ ": ") (GetPlan planID).

Definition LimitCharsPerMonth (planID : string) : AM Z :=
  let* plan := get_plan planID in sret (CharsPerMonth plan).
Definition LimitMaxConcurrentStreams (planID : string) : AM Z :=
  let* plan := get_plan planID in sret (MaxConcurrentStreams plan).
Definition LimitMaxJobChars (planID : string) : AM Z :=
  let* plan := get_plan planID in sret (MaxJobChars plan).

(** A cached rate and when it expires. *)
Record cachedPlan : Type := { reqPerMinute : Z; expiresAt : Z }.

(** [ReqPerMinute]: the rate and the cache after it; [now] is the clock when the
    entry is looked at, [later] when a new one is written. *)
Definition LimitReqPerMinute (planID : string) (now later : Z) (cache : gmap string cachedPlan) : AM (Z * gmap string cachedPlan) :=
  let hit := match cache !! planID with
             | Some entry => if now <? expiresAt entry then Some (reqPerMinute entry) else None
             | None => None
             end in
  match hit with
  | Some rate => sret (rate, cache)
  | None =>
      let* plan := get_plan planID in
      sret (ReqPerMinute plan,
            <[planID := {| reqPerMinute := ReqPerMinute plan; expiresAt := later + PlanCacheTTL |}]> cache)
  end.

(** ** How old an answer can be *)

(** What happens around one gateway's cache: an operator replaces the plans, a
    request asks for its plan's rate (both readings of the clock at that
    instant), time passes. *)
Inductive plan_event : Type :=
  | PEdit (plans : gmap string Plan)
  | PAsk (planID : string)
  | PPass (dt : Z).

Record plan_state : Type := { ps_world : AccountWorld; ps_cache : gmap string cachedPlan; ps_now : Z; ps_edits : list Z }.

Definition plan_step (e : plan_event) (s : plan_state) : plan_state :=
  match e with
  | PEdit plans => {| ps_world := set_plans plans (ps_world s); ps_cache := ps_cache s; ps_now := ps_now s;
                      ps_edits := ps_now s :: ps_edits s |}
  | PAsk planID =>
      let '(r, w) := LimitReqPerMinute planID (ps_now s) (ps_now s) (ps_cache s) (ps_world s) in
      {| ps_world := w; ps_cache := match r with Ok (_, c) => c | Err _ => ps_cache s end;
         ps_now := ps_now s; ps_edits := ps_edits s |}
  | PPass dt => {| ps_world := ps_world s; ps_cache := ps_cache s; ps_now := ps_now s + Z.max 0 dt;
                   ps_edits := ps_edits s |}
  end.

(** An entry is what the table says, or there was an edit since it was written. *)
Definition cache_sound (s : plan_state) : Prop :=
  ∀ planID entry, ps_cache s !! planID = Some entry →
    expiresAt entry ≤ ps_now s + PlanCacheTTL ∧
    ((∃ p, aw_plans (ps_world s) !! planID = Some p ∧ ReqPerMinute p = reqPerMinute entry) ∨
     ∃ t, t ∈ ps_edits s ∧ expiresAt entry - PlanCacheTTL ≤ t).

Lemma get_plan_cases planID w :
  aw_plans (get_plan planID w).2 = aw_plans w ∧
  ∀ p, (get_plan planID w).1 = Ok p → aw_plans w !! planID = Some p.
Proof.
  unfold get_plan, swrap, GetPlan, port. cbn [faults AccountWorld_faults].
  destruct (aw_faults w) as [|[] fs]; cbn [set_faults AccountWorld_faults aw_plans];
    try (destruct (aw_plans w !! planID) as [p|] eqn:Hp); cbn; (split; [done|]); intros q [= <-]; done.
Qed.

Lemma LimitReqPerMinute_cases planID now later cache w :
  let '(r, w') := LimitReqPerMinute planID now later cache w in
  aw_plans w' = aw_plans w ∧
  match r with
  | Ok (rate, c) =>
      (c = cache ∧ ∃ entry, cache !! planID = Some entry ∧ now < expiresAt entry ∧ rate = reqPerMinute entry) ∨
      (∃ p, aw_plans w !! planID = Some p ∧ rate = ReqPerMinute p ∧
         c = <[planID := {| reqPerMinute := rate; expiresAt := later + PlanCacheTTL |}]> cache)
  | Err _ => True
  end.
Proof.
  unfold LimitReqPerMinute. cbv zeta.
  assert (let '(r, w') := (let* plan := get_plan planID in
      sret (ReqPerMinute plan, <[planID := {| reqPerMinute := ReqPerMinute plan; expiresAt := later + PlanCacheTTL |}]> cache)) w in
    aw_plans w' = aw_plans w ∧ match r with
    | Ok (rate, c) => ∃ p, aw_plans w !! planID = Some p ∧ rate = ReqPerMinute p ∧
         c = <[planID := {| reqPerMinute := rate; expiresAt := later + PlanCacheTTL |}]> cache
    | Err _ => True end) as Hq.
  { unfold sbind. pose proof (get_plan_cases planID w) as [Hw Hp].
    destruct (get_plan planID w) as [[p|e] w']; cbn in *; (split; [done|]); [|done]. exists p. auto. }
  destruct (cache !! planID) as [entry|] eqn:He.
  - destruct (Z.ltb_spec now (expiresAt entry)).
    + cbn. split; [done|]. left. split; [done|]. by exists entry.
    + destruct ((let* plan := get_plan planID in _) w) as [[[rate c]|e] w']; destruct Hq as [? Hq]; (split; [done|]);
        [by right|done].
  - destruct ((let* plan := get_plan planID in _) w) as [[[rate c]|e] w']; destruct Hq as [? Hq]; (split; [done|]);
      [by right|done].
Qed.

Lemma plan_step_sound e s : cache_sound s → cache_sound (plan_step e s).
Proof.
  intros Hs. destruct e as [plans|planID|dt]; cbn [plan_step].
  - intros id entry He. cbn in He |- *. destruct (Hs id entry He) as [Hle _]. split; [done|].
    right. exists (ps_now s). split; [by left|lia].
  - pose proof (LimitReqPerMinute_cases planID (ps_now s) (ps_now s) (ps_cache s) (ps_world s)) as H.
    destruct (LimitReqPerMinute _ _ _ _ _) as [r w']. destruct H as [Hw Hr].
    intros id entry. cbn [ps_cache ps_now ps_world ps_edits]. rewrite Hw.
    destruct r as [[rate c]|e]; [|apply Hs]. destruct Hr as [[-> _]|(p & Hp & -> & ->)]; [apply Hs|].
    cbn iota. destruct (decide (planID = id)) as [<-|Hne].
    + rewrite lookup_insert_eq. intros [= <-]. cbn. split; [lia|]. left. by exists p.
    + rewrite lookup_insert_ne by done. apply Hs.
  - intros id entry He. cbn in He |- *. destruct (Hs id entry He) as [Hle Hv]. split; [lia|done].
Qed.

(** A plan edit takes effect within one TTL. After any edits, requests and
    passing of time, a plan that has not been edited in the last thirty seconds
    is answered with the rate the table has; and whatever is answered without an
    error is the table's rate or that of an entry less than thirty seconds old. *)
Theorem plan_edit_takes_effect es s planID rate c :
  ps_cache s = ∅ →
  let s' := foldl (λ s e, plan_step e s) s es in
  (LimitReqPerMinute planID (ps_now s') (ps_now s') (ps_cache s') (ps_world s')).1 = Ok (rate, c) →
  Forall (λ t, t ≤ ps_now s' - PlanCacheTTL) (ps_edits s') →
  ∃ p, aw_plans (ps_world s') !! planID = Some p ∧ rate = ReqPerMinute p.
Proof.
  intros He s' Hr Hed.
  assert (cache_sound s') as Hs.
  { assert (cache_sound s) as H0 by (intros id entry; by rewrite He, lookup_empty).
    unfold s'. clear -H0. revert s H0. induction es as [|e es IH]; intros s H0; [done|].
    cbn [foldl]. apply IH. by apply plan_step_sound. }
  pose proof (LimitReqPerMinute_cases planID (ps_now s') (ps_now s') (ps_cache s') (ps_world s')) as H.
  destruct (LimitReqPerMinute _ _ _ _ _) as [r w']. cbn [fst] in Hr. subst r. destruct H as [_ H].
  destruct H as [[-> (entry & Hc & Hlt & ->)]|(p & Hp & -> & _)]; [|by exists p].
  destruct (Hs planID entry Hc) as [_ [(p & Hp & Heq)|(t & Ht & Hle)]]; [by exists p|].
  rewrite Forall_forall in Hed. specialize (Hed t Ht). lia.
Qed.
