(* ===== verification/Voices.v ===== *)
(** * The voice catalogue

    [internal/voices/voices.go] over [storage/postgres/voicerepo.go] and the
    [voices] table. The service's in-memory listing is threaded as a state of its
    own; the clock is an argument. *)

From stdpp Require Import base gmap strings pretty numbers sorting list.
From S2P Require Import Prelude GoString.

Definition CacheTTL : Z := 30 * Second.

Record Voice : Type := {
  v_ID : string; DisplayName : string; Gender : string; Tags : list string; v_ModelVersion : string;
  v_TenantID : option string; Enabled : bool; PreviewURL : string;
}.

Record VoiceWorld : Type := { vw_voices : gmap string Voice; vw_faults : list fault }.

#[export] Instance VoiceWorld_faults : HasFaults VoiceWorld := {|
  faults := vw_faults;
  set_faults fs w := {| vw_voices := vw_voices w; vw_faults := fs |};
|}.

Definition VM (A : Type) : Type := ST VoiceWorld A.

(** ** [voicerepo.go] *)

Definition by_id (a b : Voice) : bool := String.ltb (v_ID a) (v_ID b).

(** The rows a query shows, [order by id]. *)
Definition select_voices (visible : Voice → bool) (m : gmap string Voice) : list Voice :=
  order_by by_id (List.filter visible (snd <$> map_to_list m)).

Definition public (v : Voice) : bool := bool_decide (v_TenantID v = None) && Enabled v.
Definition visible_to (t : string) (v : Voice) : bool :=
  Enabled v && (bool_decide (v_TenantID v = None) || bool_decide (v_TenantID v = Some t)).

Definition Repo_List (tenantID : option string) : VM (list Voice) :=
  match tenantID with
  | None => swrap "list public voices: " (port (λ w, (Ok (select_voices public (vw_voices w)), w)))
  | Some t => swrap "list voices for tenant: " (port (λ w, (Ok (select_voices (visible_to t) (vw_voices w)), w)))
  end.

(** On conflict the name, the version and the flag change; the owner does not. *)
Definition upserted (new : Voice) (old : option Voice) : Voice :=
  match old with
  | None => {| v_ID := v_ID new; DisplayName := DisplayName new; Gender := Gender new; Tags := Tags new;
               v_ModelVersion := v_ModelVersion new; v_TenantID := v_TenantID new; Enabled := Enabled new;
               PreviewURL := "" |}
  | Some o => {| v_ID := v_ID o; DisplayName := DisplayName new; Gender := Gender o; Tags := Tags o;
                 v_ModelVersion := v_ModelVersion new; v_TenantID := v_TenantID o; Enabled := Enabled new;
                 PreviewURL := "" |}
  end.

Definition Repo_Upsert (voice : Voice) : VM () :=
  swrap "upsert voice: " (port (λ w,
    (Ok (), {| vw_voices := <[v_ID voice := upserted voice (vw_voices w !! v_ID voice)]> (vw_voices w);
               vw_faults := vw_faults w |}))).

(** ** [voices.go] *)

(** [ToUpper] of one byte: an ASCII letter, or a byte that is no letter by
    itself and becomes the replacement rune. *)
Definition upper_byte (c : ascii) : string :=
  let b := byte_val c in
  if in_range 97 122 b then String (byte_of (b - 32)) ""
  else if b <? 128 then String c ""
  else String (byte_of 0xEF) (String (byte_of 0xBF) (String (byte_of 0xBD) "")).

Definition displayName (id : string) : string :=
  match id with "" => "" | String c rest => upper_byte c +:+ rest end.

Record Catalogue : Type := { cached : list Voice; fetched : Z; ttl : Z }.

Definition NewService : Catalogue := {| cached := []; fetched := zero_time; ttl := CacheTTL |}.

Definition cachedPublic (s : Catalogue) (now : Z) : option (list Voice) :=
  if IsZero (fetched s) || (ttl s <? time_sub now (fetched s)) then None else Some (cached s).

(** The answer and the service after it; [now] is the clock. *)
Definition List_ (s : Catalogue) (now : Z) (tenantID : option string) : VM (list Voice * Catalogue) :=
  match tenantID, cachedPublic s now with
  | None, Some l => sret (l, s)
  | _, _ =>
      let* found := swrap "list voices: " (Repo_List tenantID) in
      let found := order_by by_id found in
      sret (found, match tenantID with
                   | None => {| cached := found; fetched := now; ttl := ttl s |}
                   | Some _ => s
                   end)
  end.

Definition find_voice (id : string) (l : list Voice) : option Voice :=
  List.find (λ v, String.eqb (v_ID v) id && Enabled v) l.

Definition Resolve (s : Catalogue) (now : Z) (tenantID : option string) (id : string)
    : VM (Voice * Catalogue) :=
  if String.eqb id "" then sfail (sentinelf VoicesErrUnknown "no voice requested")
  else
    let* listed := List_ s now tenantID in
    let (available, s') := listed : list Voice * Catalogue in
    match find_voice id available with
    | Some v => sret (v, s')
    | None => sfail (sentinelf VoicesErrUnknown id)
    end.

(** One row per advertised voice, in the order the map is walked. *)
Fixpoint sync_each (advertised : list (string * string)) : VM () :=
  match advertised with
  | [] => sret ()
  | (id, modelVersion) :: rest =>
      swrap ("upsert voice " +:+ id +:+ ": ")
        (Repo_Upsert {| v_ID := id; DisplayName := displayName id; Gender := ""; Tags := [];
                        v_ModelVersion := modelVersion; v_TenantID := None; Enabled := true;
                        PreviewURL := "" |}) ;*
      sync_each rest
  end.

Definition Sync (s : Catalogue) (advertised : list (string * string)) : VM Catalogue :=
  sync_each advertised ;* sret {| cached := cached s; fetched := zero_time; ttl := ttl s |}.

(** ** Lemmas *)

(** Every row is under its own id. *)
Definition voices_keyed (m : gmap string Voice) : Prop := map_Forall (λ k v, v_ID v = k) m.

Lemma select_voices_elem f m v :
  voices_keyed m → v ∈ select_voices f m ↔ m !! v_ID v = Some v ∧ f v = true.
Proof.
  intros Hk. unfold select_voices. rewrite order_by_elem, list_elem_of_In, List.filter_In,
    <-list_elem_of_In, list_elem_of_fmap. split.
  - intros [([k x] & -> & Hin) Hf]. apply elem_of_map_to_list in Hin. simpl.
    by rewrite (Hk k x Hin).
  - intros [Hm Hf]. split; [|done]. exists (v_ID v, v). split; [done|]. by apply elem_of_map_to_list.
Qed.

(** The row of an id in a listing, whatever the listing's order. *)
Lemma find_voice_select id f m :
  voices_keyed m →
  find_voice id (order_by by_id (select_voices f m)) =
    match m !! id with Some v => if f v && Enabled v then Some v else None | None => None end.
Proof.
  intros Hk. unfold find_voice. destruct (List.find _ _) as [v|] eqn:Hf.
  - apply List.find_some in Hf as [Hin Hv]. apply andb_true_iff in Hv as [Hid He].
    apply String.eqb_eq in Hid. rewrite <-list_elem_of_In, order_by_elem, select_voices_elem in Hin by done.
    destruct Hin as [Hm Hfv]. rewrite <-Hid, Hm, Hfv, He. done.
  - destruct (m !! id) as [v|] eqn:Hm; [|done]. destruct (f v && Enabled v) eqn:Hfe; [|done].
    apply andb_true_iff in Hfe as [Hfv He]. pose proof (Hk id v Hm) as Hid. simpl in Hid.
    apply (List.find_none) with (x := v) in Hf.
    + by rewrite Hid, String.eqb_refl, He in Hf.
    + rewrite <-list_elem_of_In, order_by_elem, select_voices_elem by done. by rewrite Hid.
Qed.

(** ** Properties *)

(** A voice resolves for those who may use it. With the tables answering, a
    tenant's request resolves to the row of that id if the voice is enabled and
    either public or the tenant's own, and is otherwise answered exactly as if the
    voice did not exist; the fleet's own advertisement makes a voice resolvable
    for everybody unless it is some tenant's, which it stays. *)
Theorem resolve_exact s now t id w :
  voices_keyed (vw_voices w) → vw_faults w = [] →
  (Resolve s now (Some t) id w).1 =
    match vw_voices w !! id with
    | Some v => if bool_decide (id ≠ "") && visible_to t v then Ok (v, s)
                else Err (sentinelf VoicesErrUnknown (if String.eqb id "" then "no voice requested" else id))
    | None => Err (sentinelf VoicesErrUnknown (if String.eqb id "" then "no voice requested" else id))
    end ∧
  (∀ version, id ≠ "" →
     let w' := (Sync s [(id, version)] w).2 in
     (∃ v, (Resolve s now (Some t) id w').1 = Ok (v, s) ∧ v_ModelVersion v = version) ↔
     match vw_voices w !! id with Some v => v_TenantID v = None ∨ v_TenantID v = Some t | None => True end).
Proof.
  intros Hk Hf. assert (∀ w, voices_keyed (vw_voices w) → vw_faults w = [] → id ≠ "" →
    (Resolve s now (Some t) id w).1 = match vw_voices w !! id with
      | Some v => if visible_to t v then Ok (v, s) else Err (sentinelf VoicesErrUnknown id)
      | None => Err (sentinelf VoicesErrUnknown id) end) as HR.
  { clear w Hk Hf. intros w Hk Hf Hid. unfold Resolve. rewrite (proj2 (String.eqb_neq _ _) Hid).
    unfold List_, sbind, Repo_List, swrap. rewrite port_answered by done. cbn.
    rewrite find_voice_select by done. destruct (vw_voices w !! id) as [v|]; [|done].
    unfold visible_to. destruct (Enabled v); cbn; [by rewrite andb_true_r; destruct (_ || _)|done]. }
  split.
  - destruct (String.eqb_spec id "") as [->|Hid].
    + unfold Resolve. cbn. by destruct (vw_voices w !! _).
    + rewrite HR by done. by rewrite bool_decide_eq_true_2.
  - intros version Hid w'.
    assert (w' = {| vw_voices := <[id := upserted {| v_ID := id; DisplayName := displayName id; Gender := "";
        Tags := []; v_ModelVersion := version; v_TenantID := None; Enabled := true; PreviewURL := "" |}
        (vw_voices w !! id)]> (vw_voices w); vw_faults := [] |}) as ->.
    { subst w'. unfold Sync, sync_each, sbind, swrap, Repo_Upsert, swrap. rewrite port_answered by done.
      cbn. by rewrite Hf. }
    rewrite HR; [|apply map_Forall_insert_2; [|done]|done|done].
    2:{ destruct (vw_voices w !! id) as [v|] eqn:Hv; [|done]. by apply (Hk id v). }
    cbn [vw_voices]. rewrite lookup_insert_eq. unfold visible_to.
    destruct (vw_voices w !! id) as [v|]; cbn.
    + split.
      * intros (v' & Hv' & _). destruct (bool_decide (v_TenantID v = None)) eqn:H1; [zbool; by left|].
        destruct (bool_decide (v_TenantID v = Some t)) eqn:H2; [zbool; by right|]. done.
      * intros [-> | ->]; cbn; rewrite ?bool_decide_eq_true_2 by done; rewrite ?orb_true_r; by eexists.
    + split; [done|]. intros _. by eexists.
Qed.

Definition demo_voices : VoiceWorld := {|
  vw_voices := {[ "an" := {| v_ID := "an"; DisplayName := "An"; Gender := ""; Tags := [];
    v_ModelVersion := "m1"; v_TenantID := Some "t1"; Enabled := true; PreviewURL := "" |} ]};
  vw_faults := [] |}.

Lemma resolve_exact_witness :
  (Resolve NewService 0 (Some "t2") "an" demo_voices).1 = Err (sentinelf VoicesErrUnknown "an").
Proof.
  refine (proj1 (resolve_exact NewService 0 "t2" "an" demo_voices _ eq_refl)).
  intros k v Hv. unfold demo_voices, vw_voices in Hv. apply lookup_singleton_Some in Hv as [<- <-]. reflexivity.
Defined.
