(* ===== verification/Usage.v ===== *)
(** * Metering and the daily rollup

    [usage/meter.go] and its side of the database: [usagewriter.go],
    [usagerepo.go], [maintenancerepo.go] and [usage.sql]. The meter's goroutine is a state machine whose actions are the
    branches of its [select]; callers' [Record]s come between them in any order.
    [synth_requests] and [usage_daily] are maps under their primary keys. *)

From Stdlib Require Import Ascii.
From stdpp Require Import base gmap strings pretty numbers sorting list.
From S2P Require Import Prelude GoString Float Calendar.

(** ** [meter.go] *)

Definition uuid_Nil : string := "00000000-0000-0000-0000-000000000000".

(** [usage.Record]. *)
Record Metered : Type := {
  m_ID : string; m_TenantID : string; m_KeyID : string; m_VoiceID : string; m_CacheKey : string;
  m_Mode : string; m_Chars : Z; m_DurationMS : Z; m_TTFAMS : Z; m_Cached : bool;
  m_Status : string; m_ErrorCode : string; m_CreatedAt : Z;
}.

Definition QueueSize : nat := Z.to_nat 4096.
Definition BatchSize : nat := 128.

(** Where the writer goroutine is: in its [select], draining after [done] was
    closed, or returned. *)
Inductive phase : Type := Running | Draining | Stopped.

#[global] Instance phase_eq_dec : EqDecision phase.
Proof. solve_decision. Defined.

(** [written] is a history: the batches handed to the writer, and whether it
    reported success. *)
Record Meter : Type := {
  queue : list Metered;
  batch : list Metered;
  dropped : Z;
  closed : bool;
  at_phase : phase;
  written : list (list Metered * bool);
}.

Definition New : Meter :=
  {| queue := []; batch := []; dropped := 0; closed := false; at_phase := Running; written := [] |}.

(** The identity and the time a record without them is given. *)
Definition stamp (fresh : string) (now : Z) (r : Metered) : Metered := {|
  m_ID := if String.eqb (m_ID r) uuid_Nil then fresh else m_ID r;
  m_TenantID := m_TenantID r; m_KeyID := m_KeyID r; m_VoiceID := m_VoiceID r;
  m_CacheKey := m_CacheKey r; m_Mode := m_Mode r; m_Chars := m_Chars r;
  m_DurationMS := m_DurationMS r; m_TTFAMS := m_TTFAMS r; m_Cached := m_Cached r;
  m_Status := m_Status r; m_ErrorCode := m_ErrorCode r;
  m_CreatedAt := if IsZero (m_CreatedAt r) then now else m_CreatedAt r;
|}.

Definition set_queue (q : list Metered) (m : Meter) : Meter :=
  {| queue := q; batch := batch m; dropped := dropped m; closed := closed m;
     at_phase := at_phase m; written := written m |}.
Definition set_phase (p : phase) (m : Meter) : Meter :=
  {| queue := queue m; batch := batch m; dropped := dropped m; closed := closed m;
     at_phase := p; written := written m |}.

(** [Meter.Record]: a full queue drops the record and counts it. *)
Definition Record_ (fresh : string) (now : Z) (r : Metered) (m : Meter) : Meter :=
  let r := stamp fresh now r in
  if (length (queue m) <? QueueSize)%nat then set_queue (queue m ++ [r]) m
  else {| queue := queue m; batch := batch m; dropped := int64 (dropped m + 1);
          closed := closed m; at_phase := at_phase m; written := written m |}.

(** What can happen next: a caller's [Record], and the branches of [Start]'s
    [select] and of its drain; [AClose] is [Stop]'s [close(m.done)]. *)
Inductive action : Type :=
  | ARecord (fresh : string) (now : Z) (r : Metered)
  | ATake
  | ATick
  | AClose
  | ADone
  | AIdle.

Section meter.
Context {W : Type} (write_batch : list Metered → ST W ()).

Definition flush (m : Meter) (w : W) : Meter * W :=
  if bool_decide (batch m = []) then (m, w)
  else
    let '(r, w') := write_batch (batch m) w in
    ({| queue := queue m; batch := []; dropped := dropped m; closed := closed m;
        at_phase := at_phase m; written := written m ++ [(batch m, is_Ok r)] |}, w').

(** Receive one record; a full batch is written at once. *)
Definition take_one (m : Meter) (w : W) : option (Meter * W) :=
  match queue m with
  | [] => None
  | r :: q =>
      let m := {| queue := q; batch := batch m ++ [r]; dropped := dropped m; closed := closed m;
                  at_phase := at_phase m; written := written m |} in
      Some (if (BatchSize <=? length (batch m))%nat then flush m w else (m, w))
  end.

(** [None]: the action is not possible there (closing twice panics). *)
Definition act (a : action) (m : Meter) (w : W) : option (Meter * W) :=
  match a, at_phase m with
  | ARecord fresh now r, _ => Some (Record_ fresh now r m, w)
  | ATake, Running | ATake, Draining => take_one m w
  | ATick, Running => Some (flush m w)
  | AClose, _ =>
      if closed m then None
      else Some ({| queue := queue m; batch := batch m; dropped := dropped m; closed := true;
                    at_phase := at_phase m; written := written m |}, w)
  | ADone, Running => if closed m then Some (set_phase Draining m, w) else None
  | AIdle, Draining =>
      if bool_decide (queue m = []) then
        let '(m, w) := flush m w in Some (set_phase Stopped m, w)
      else None
  | _, _ => None
  end.

Fixpoint play (l : list action) (m : Meter) (w : W) : option (Meter * W) :=
  match l with
  | [] => Some (m, w)
  | a :: l' => match act a m w with Some (m', w') => play l' m' w' | None => None end
  end.
End meter.

(** The records offered to the meter, as stamped. *)
Definition offered_by (a : action) : option Metered :=
  match a with ARecord fresh now r => Some (stamp fresh now r) | _ => None end.
Definition offered (l : list action) : list Metered := omap offered_by l.

(** ** The tables *)

(** A row of [synth_requests] without its primary key. *)
Record request_row : Type := {
  rr_TenantID : string; rr_ApiKeyID : string; rr_VoiceID : string; rr_CacheKey : string;
  rr_Mode : string; rr_Chars : Z; rr_DurationMs : option Z; rr_TtfaMs : option Z;
  rr_Cached : bool; rr_Status : string; rr_ErrorCode : option string;
}.

(** A row of [usage_daily]. *)
Record day_row : Type := { dr_Chars : Z; dr_AudioMs : Z; dr_Requests : Z; dr_CacheHits : Z }.

(** A day is the instant it starts; [uw_partitions] are the starts of the months
    [synth_requests] has a partition for. *)
Record UsageWorld : Type := {
  uw_requests : gmap (string * Z) request_row;
  uw_daily : gmap (string * Z) day_row;
  uw_partitions : gset Z;
  uw_faults : list fault;
}.

#[export] Instance UsageWorld_faults : HasFaults UsageWorld := {|
  faults := uw_faults;
  set_faults fs w := {| uw_requests := uw_requests w; uw_daily := uw_daily w;
                        uw_partitions := uw_partitions w; uw_faults := fs |};
|}.

#[export] Instance Usage_fault_laws : FaultLaws UsageWorld.
Proof. by split. Qed.

Definition UM (A : Type) : Type := ST UsageWorld A.

Definition set_requests (f : gmap (string * Z) request_row → gmap (string * Z) request_row)
    (w : UsageWorld) : UsageWorld :=
  {| uw_requests := f (uw_requests w); uw_daily := uw_daily w;
     uw_partitions := uw_partitions w; uw_faults := uw_faults w |}.
Definition set_daily (f : gmap (string * Z) day_row → gmap (string * Z) day_row)
    (w : UsageWorld) : UsageWorld :=
  {| uw_requests := uw_requests w; uw_daily := f (uw_daily w);
     uw_partitions := uw_partitions w; uw_faults := uw_faults w |}.

(** ** [usagewriter.go] *)

Definition clampChars (chars : Z) : Z :=
  let maxChars := 1 ≪ 30 in
  if chars <? 0 then 0 else if maxChars <? chars then maxChars else int32 chars.

Definition nullableInt32 (v : Z) : option Z := if v =? 0 then None else Some v.
Definition nullableString (s : string) : option string := if String.eqb s "" then None else Some s.

(** The parameters [WriteBatch] gives [InsertSynthRequest] for a record. *)
Definition row_of (r : Metered) : request_row := {|
  rr_TenantID := m_TenantID r; rr_ApiKeyID := m_KeyID r; rr_VoiceID := m_VoiceID r;
  rr_CacheKey := m_CacheKey r; rr_Mode := m_Mode r; rr_Chars := clampChars (m_Chars r);
  rr_DurationMs := nullableInt32 (m_DurationMS r); rr_TtfaMs := nullableInt32 (m_TTFAMS r);
  rr_Cached := m_Cached r; rr_Status := m_Status r; rr_ErrorCode := nullableString (m_ErrorCode r);
|}.
Definition key_of (r : Metered) : string * Z := (m_ID r, m_CreatedAt r).

(** The check constraints of [synth_requests]. *)
Definition request_ok (r : request_row) : bool :=
  bool_decide (rr_Mode r ∈ ["sync"; "stream"; "job_segment"]) &&
  (0 <=? rr_Chars r) &&
  bool_decide (rr_Status r ∈ ["ok"; "client_cancelled"; "error"; "rejected"]).

(** [insert ... on conflict (id, created_at) do nothing]. A row is routed to its
    month's partition and checked before a conflict is looked for. *)
Definition insert_row (k : string * Z) (r : request_row) : UM () := λ w,
  if negb (bool_decide (month_start k.2 ∈ uw_partitions w)) then
    (Err (ENew "no partition of relation synth_requests found for row"), w)
  else if negb (request_ok r) then
    (Err (ENew "new row violates check constraint"), w)
  else match uw_requests w !! k with
       | Some _ => (Ok (), w)
       | None => (Ok (), set_requests <[k := r]> w)
       end.
Definition InsertSynthRequest (k : string * Z) (r : request_row) : UM () := port (insert_row k r).

Fixpoint insert_each (records : list Metered) : UM () :=
  match records with
  | [] => sret ()
  | r :: rest =>
      swrap "insert usage record: " (InsertSynthRequest (key_of r) (row_of r)) ;*
      insert_each rest
  end.

Definition WriteBatch (records : list Metered) : UM () :=
  match records with
  | [] => sret ()
  | _ => transaction (insert_each records)
  end.

(** ** [usage.sql], [usagerepo.go] and [maintenancerepo.go] *)

Definition billable (r : request_row) : bool := bool_decide (rr_Status r ∈ ["ok"; "client_cancelled"]).

Definition log_row : Type := (string * Z) * request_row.
Definition at_time (p : log_row) : Z := p.1.2.

(** [where created_at >= from and created_at < to and status in (...)]. *)
Definition billed_between (w : UsageWorld) (from to : Z) : list log_row :=
  List.filter (λ p : log_row, (from <=? at_time p) && (at_time p <? to) && billable p.2)
    (map_to_list (uw_requests w)).

(** [sum(chars)]: the sums stay far inside bigint, a row being at most 2^30. *)
Definition day_totals (rows : list log_row) : day_row := {|
  dr_Chars := zsum (λ p : log_row, rr_Chars p.2) rows;
  dr_AudioMs := zsum (λ p : log_row, default 0 (rr_DurationMs p.2)) rows;
  dr_Requests := Z.of_nat (length rows);
  dr_CacheHits := countb (λ p : log_row, rr_Cached p.2) rows;
|}.

(** [group by tenant_id, (created_at at time zone 'UTC')::date]. *)
Definition group_key (p : log_row) : string * Z := (rr_TenantID p.2, day_start (at_time p)).
Definition group_of (k : string * Z) (rows : list log_row) : list log_row :=
  List.filter (λ p, bool_decide (group_key p = k)) rows.

Definition RollupUsageDaily (from to : Z) : UM () := port (λ w,
  let rows := billed_between w from to in
  (Ok (), set_daily (λ d, foldr (λ p d, <[group_key p := day_totals (group_of (group_key p) rows)]> d)
                            d rows) w)).
Definition RollupUsage (from to : Z) : UM () := swrap "rollup usage: " (RollupUsageDaily from to).

Definition SumCharsByTenantSince (from to : Z) : UM (list (string * Z)) := port (λ w,
  let rows := billed_between w from to in
  (Ok ((λ t, (t, zsum (λ p : log_row, rr_Chars p.2)
                   (List.filter (λ p : log_row, String.eqb (rr_TenantID p.2) t) rows))) <$>
       remove_dups ((λ p : log_row, rr_TenantID p.2) <$> rows)), w)).
Definition SumCharsSince (from to : Z) : UM (list (string * Z)) :=
  swrap "sum chars: " (SumCharsByTenantSince from to).

(** [usage.Day]. *)
Record DayUsage : Type := {
  du_Day : Z; du_Chars : Z; du_AudioMS : Z; du_Requests : Z; du_CacheHits : Z;
}.

Definition day_usage (p : (string * Z) * day_row) : DayUsage := {|
  du_Day := p.1.2; du_Chars := dr_Chars p.2; du_AudioMS := dr_AudioMs p.2;
  du_Requests := dr_Requests p.2; du_CacheHits := dr_CacheHits p.2;
|}.

Definition UsageByDay (tenantID : string) (from to : Z) : UM (list DayUsage) := port (λ w,
  (Ok (order_by (by_key du_Day)
         (day_usage <$>
          List.filter (λ p : (string * Z) * day_row,
                         String.eqb p.1.1 tenantID && (from <=? p.1.2) && (p.1.2 <=? to))
            (map_to_list (uw_daily w)))), w)).
Definition ByDay (tenantID : string) (from to : Z) : UM (list DayUsage) :=
  swrap "read usage by day: " (UsageByDay tenantID (day_start from) (day_start to)).

(** [ensure_synth_requests_partition]: the month of [at_], if it is missing; its
    name. *)
Definition EnsurePartition (at_ : Z) : UM string := swrap "ensure partition: " (port (λ w,
  (Ok ("synth_requests_" +:+ Format200601 at_),
   {| uw_requests := uw_requests w; uw_daily := uw_daily w;
      uw_partitions := {[ month_start at_ ]} ∪ uw_partitions w; uw_faults := uw_faults w |}))).

(** ** The meter's books *)

(** What one run has done with the records [off] offered to it: those accepted
    are, in the order they were offered, the batches written, the batch being
    filled and the queue; the others are counted. *)
Definition books (off : list Metered) (m : Meter) : Prop :=
  ∃ acc, sublist acc off ∧ Z.of_nat (length off) = Z.of_nat (length acc) + dropped m ∧
    acc = concat (fst <$> written m) ++ batch m ++ queue m ∧
    (length (queue m) ≤ QueueSize)%nat ∧ (length (batch m) < BatchSize)%nat ∧
    Forall (λ b, 0 < length b.1 ≤ BatchSize)%nat (written m) ∧
    0 ≤ dropped m ∧ (at_phase m = Stopped → batch m = []).

Section books.
Context {W : Type} (write_batch : list Metered → ST W ()).

Lemma Record_books off fresh now r m :
  Z.of_nat (length off) < MaxInt64 →
  books off m → books (off ++ [stamp fresh now r]) (Record_ fresh now r m).
Proof.
  intros Hlen (acc & Hsub & Hn & Hacc & Hq & Hb & Hw & Hd & Hs). unfold Record_.
  destruct (Nat.ltb_spec (length (queue m)) QueueSize) as [Hlt|Hge].
  - exists (acc ++ [stamp fresh now r]). cbn [set_queue written batch queue dropped at_phase].
    rewrite !length_app. simpl. split_and!; try done; try lia.
    + by apply sublist_app.
    + by rewrite Hacc, <-!app_assoc.
  - exists acc. cbn [written batch queue dropped at_phase]. rewrite length_app. simpl.
    rewrite int64_id by (unfold in_int64, MinInt64, MaxInt64 in *; lia).
    split_and!; try done; try lia. by apply sublist_inserts_r.
Qed.

(** The books of a meter whose batch may be full, after it is written. *)
Lemma flush_books off m w :
  (∃ acc, sublist acc off ∧ Z.of_nat (length off) = Z.of_nat (length acc) + dropped m ∧
    acc = concat (fst <$> written m) ++ batch m ++ queue m ∧
    (length (queue m) ≤ QueueSize)%nat ∧ (length (batch m) ≤ BatchSize)%nat ∧
    Forall (λ b, 0 < length b.1 ≤ BatchSize)%nat (written m) ∧ 0 ≤ dropped m) →
  books off (flush write_batch m w).1 ∧ batch (flush write_batch m w).1 = [] ∧
  queue (flush write_batch m w).1 = queue m.
Proof.
  intros (acc & Hsub & Hn & Hacc & Hq & Hb & Hw & Hd). unfold flush.
  destruct (decide (batch m = [])) as [He|He].
  - rewrite bool_decide_true by done. cbn [fst]. split; [|done]. exists acc.
    split_and!; try done. rewrite He. unfold BatchSize. simpl. lia.
  - rewrite bool_decide_false by done. destruct (write_batch (batch m) w) as [r w'].
    cbn [fst batch queue]. split; [|done]. exists acc. cbn [written batch queue dropped at_phase].
    split_and!; try done.
    + rewrite fmap_app, concat_app. simpl. by rewrite app_nil_r, <-app_assoc.
    + unfold BatchSize. simpl. lia.
    + apply Forall_app. split; [done|]. apply Forall_singleton. simpl.
      destruct (batch m); [done|]. simpl in *. lia.
Qed.

Lemma set_phase_books off m p : batch m = [] → books off m → books off (set_phase p m).
Proof. intros He (acc & H). exists acc. cbn [set_phase written batch queue dropped at_phase]. naive_solver. Qed.

Lemma books_full off m : books off m → 
  ∃ acc, sublist acc off ∧ Z.of_nat (length off) = Z.of_nat (length acc) + dropped m ∧
    acc = concat (fst <$> written m) ++ batch m ++ queue m ∧
    (length (queue m) ≤ QueueSize)%nat ∧ (length (batch m) ≤ BatchSize)%nat ∧
    Forall (λ b, 0 < length b.1 ≤ BatchSize)%nat (written m) ∧ 0 ≤ dropped m.
Proof. intros (acc & ? & ? & ? & ? & ? & ? & ? & ?). exists acc. split_and!; try done. lia. Qed.

Lemma act_books off a m w m' w' :
  Z.of_nat (length off) < MaxInt64 → books off m → act write_batch a m w = Some (m', w') →
  books (off ++ omap offered_by [a]) m'.
Proof.
  intros Hlen Hbk Ha. destruct a as [fresh now r| | | | |]; simpl in Ha |- *; rewrite ?app_nil_r.
  - injection Ha as <- <-. by apply Record_books.
  - assert (at_phase m ≠ Stopped ∧ take_one write_batch m w = Some (m', w')) as [Hp Ht]
      by (by destruct (at_phase m)). clear Ha.
    destruct Hbk as (acc & Hsub & Hn & Hacc & Hq & Hb & Hw & Hd & Hs). unfold take_one in Ht.
    destruct (queue m) as [|r q] eqn:Hqm; [done|]. cbv zeta in Ht.
    match type of Ht with context [flush _ ?m0 _] => set (m1 := m0) in * end.
    assert (acc = concat (fst <$> written m) ++ (batch m ++ [r]) ++ q) as Hacc1
      by (by rewrite Hacc, <-!app_assoc).
    destruct (Nat.leb_spec BatchSize (length (batch m1))) as [Hle|Hlt]; [injection Ht as Ht|injection Ht as <- <-].
    + assert (m' = (flush write_batch m1 w).1) as -> by (by rewrite Ht).
      apply flush_books. exists acc. unfold m1. cbn [written batch queue dropped].
      rewrite length_app. simpl in *. split_and!; try done; lia.
    + exists acc. unfold m1 in *. cbn [written batch queue dropped at_phase] in *.
      simpl in *. split_and!; try done; lia.
  - destruct (at_phase m); simplify_eq.
    assert (m' = (flush write_batch m w).1) as -> by (by rewrite Ha). by apply flush_books, books_full.
  - destruct (closed m); [by destruct (at_phase m)|]. injection Ha as <- <-.
    destruct Hbk as (acc & H). by exists acc.
  - destruct (at_phase m) eqn:Hp; try done. destruct (closed m); [|done]. injection Ha as <- <-.
    destruct Hbk as (acc & H). exists acc. cbn [set_phase written batch queue dropped at_phase]. naive_solver.
  - destruct (at_phase m) eqn:Hp; try done. case_bool_decide; [|done].
    destruct (flush write_batch m w) as [m1 w1] eqn:Hf. injection Ha as <- <-.
    assert (m1 = (flush write_batch m w).1) as -> by (by rewrite Hf).
    pose proof (flush_books off m w (books_full _ _ Hbk)) as (? & ? & _). by apply set_phase_books.
Qed.

Lemma play_books l off m w m' w' :
  Z.of_nat (length (off ++ offered l)) < MaxInt64 → books off m →
  play write_batch l m w = Some (m', w') → books (off ++ offered l) m'.
Proof.
  revert off m w. induction l as [|a l IH]; intros off m w Hlen Hbk Hp; simpl in Hp.
  { injection Hp as <- <-. by rewrite app_nil_r. }
  destruct (act write_batch a m w) as [[m1 w1]|] eqn:Ha; [|done].
  assert (offered (a :: l) = omap offered_by [a] ++ offered l) as Ho
    by (unfold offered; simpl; by destruct (offered_by a)).
  rewrite Ho, app_assoc in Hlen |- *. eapply IH; [done| |done].
  eapply act_books; [|done..]. rewrite !length_app in Hlen. lia.
Qed.

Lemma New_books : books [] New.
Proof. exists []. simpl. split_and!; try done; unfold QueueSize, BatchSize; simpl; lia. Qed.

(** A run that ends with the end of the drain leaves an empty queue. *)
Lemma play_idle l m w m' w' :
  play write_batch (l ++ [AIdle]) m w = Some (m', w') → queue m' = [] ∧ at_phase m' = Stopped.
Proof.
  revert m w. induction l as [|a l IH]; intros m w Hp; cbn [play app] in Hp.
  - destruct (act write_batch AIdle m w) as [[m1 w1]|] eqn:Ha; [|done].
    injection Hp as <- <-. unfold act in Ha. destruct (at_phase m); try done.
    case_bool_decide as He; [|done]. unfold flush in Ha. case_bool_decide.
    + by injection Ha as <- _.
    + destruct (write_batch (batch m) w). by injection Ha as <- _.
  - destruct (act write_batch a m w) as [[m1 w1]|]; [|done]. by eapply IH.
Qed.

(** A relation each batch write keeps holds over the whole run. *)
Lemma play_moves (R : list (list Metered * bool) → W → list (list Metered * bool) → W → Prop) l m w m' w' :
  (∀ x w, R x w x w) →
  (∀ x w x1 w1 x2 w2, R x w x1 w1 → R x1 w1 x2 w2 → R x w x2 w2) →
  (∀ x b w, let '(r, w') := write_batch b w in R x w (x ++ [(b, is_Ok r)]) w') →
  play write_batch l m w = Some (m', w') → R (written m) w (written m') w'.
Proof.
  intros Hrefl Htrans Hstep.
  assert (∀ m w, R (written m) w (written (flush write_batch m w).1) (flush write_batch m w).2) as Hfl.
  { clear -Hrefl Hstep. intros m w. unfold flush. case_bool_decide; [apply Hrefl|].
    specialize (Hstep (written m) (batch m) w). by destruct (write_batch (batch m) w). }
  revert m w. induction l as [|a l IH]; intros m w Hp; simpl in Hp; [by injection Hp as <- <-|].
  destruct (act write_batch a m w) as [[m1 w1]|] eqn:Ha; [|done].
  eapply Htrans; [|by apply IH]. clear Hp IH.
  assert (∀ m2, written m2 = written m → (m1, w1) = flush write_batch m2 w →
    R (written m) w (written m1) w1) as Hf2.
  { intros m2 Hm Heq. specialize (Hfl m2 w). rewrite <-Heq, Hm in Hfl. done. }
  assert (∀ m2, take_one write_batch m w = Some (m1, w1) → written m2 = written m →
    R (written m) w (written m1) w1) as Htk.
  { intros _ Ht _. unfold take_one in Ht. destruct (queue m); [done|]. cbv zeta in Ht.
    destruct (_ <=? _)%nat; [injection Ht as Ht; eapply Hf2; [|by rewrite Ht]; done|].
    injection Ht as <- <-. apply Hrefl. }
  destruct a; simpl in Ha; repeat (case_match; try done); simplify_eq; cbn [set_phase written];
    try apply Hrefl; try (by apply (Htk m)).
  - unfold Record_. destruct (_ <? _)%nat; apply Hrefl.
  - by apply (Hf2 m).
  - match goal with H : flush _ _ _ = _ |- _ => pose proof (Hfl m w) as Hm; by rewrite H in Hm end.
Qed.
End books.

(** ** What a batch write does *)

(** Only [synth_requests] changed: it has every row it had, and the new ones are
    the rows of [records] under their own keys. *)
Record grows (records : list Metered) (w w' : UsageWorld) : Prop := {
  g_kept : uw_requests w ⊆ uw_requests w';
  g_new k row : uw_requests w' !! k = Some row →
    uw_requests w !! k = Some row ∨ ∃ r, r ∈ records ∧ k = key_of r ∧ row = row_of r;
  g_daily : uw_daily w' = uw_daily w;
  g_partitions : uw_partitions w' = uw_partitions w;
}.

Definition in_log (w : UsageWorld) (r : Metered) : Prop := is_Some (uw_requests w !! key_of r).

(** A record the table takes. *)
Definition insertable (w : UsageWorld) (r : Metered) : Prop :=
  month_start (m_CreatedAt r) ∈ uw_partitions w ∧
  m_Mode r ∈ ["sync"; "stream"; "job_segment"] ∧
  m_Status r ∈ ["ok"; "client_cancelled"; "error"; "rejected"].

Lemma clampChars_range z : 0 ≤ clampChars z ≤ 2 ^ 30.
Proof.
  unfold clampChars. change (1 ≪ 30) with (2 ^ 30). destruct (Z.ltb_spec z 0); [lia|].
  destruct (Z.ltb_spec (2 ^ 30) z); [lia|]. rewrite int32_id; unfold in_int32, MinInt32, MaxInt32; lia.
Qed.

Lemma grows_same l w w' :
  uw_requests w' = uw_requests w → uw_daily w' = uw_daily w → uw_partitions w' = uw_partitions w →
  grows l w w'.
Proof. intros Hr Hd Hp. split; [by rewrite Hr| |done..]. intros k row. rewrite Hr. auto. Qed.

Lemma grows_trans l1 l2 w1 w2 w3 : grows l1 w1 w2 → grows l2 w2 w3 → grows (l1 ++ l2) w1 w3.
Proof.
  intros [K1 N1 D1 P1] [K2 N2 D2 P2]. split; [by etrans| |congruence..].
  intros k row [H|(r & Hr & ?)]%N2.
  - apply N1 in H as [H|(r & Hr & ?)]; [by left|right; exists r; set_solver].
  - right. exists r. set_solver.
Qed.

Lemma insert_row_grows r w :
  let '(o, w') := insert_row (key_of r) (row_of r) w in
  grows [r] w w' ∧ (is_Ok o = true → in_log w' r) ∧
  (uw_faults w = [] → insertable w r → is_Ok o = true ∧ uw_faults w' = []).
Proof.
  unfold insert_row. destruct (negb _) eqn:Hp.
  { split_and!; [by apply grows_same|done|]. intros _ [Hin _].
    apply negb_true_iff, bool_decide_eq_false in Hp. done. }
  destruct (negb (request_ok _)) eqn:Hok.
  { split_and!; [by apply grows_same|done|]. intros _ (_ & Hm & Hs).
    apply negb_true_iff in Hok. unfold request_ok in Hok. cbn [row_of rr_Mode rr_Status rr_Chars] in Hok.
    rewrite !bool_decide_true in Hok by done. pose proof (clampChars_range (m_Chars r)).
    destruct (Z.leb_spec 0 (clampChars (m_Chars r))); [done|lia]. }
  destruct (uw_requests w !! key_of r) as [row|] eqn:Hk.
  { split_and!; [by apply grows_same|by exists row|done]. }
  split_and!; [|intros _; eexists; apply lookup_insert_eq|done].
  split; [by apply insert_subseteq| |done..]. intros k row. cbn [set_requests uw_requests].
  destruct (decide (key_of r = k)) as [<-|Hne].
  - rewrite lookup_insert_eq. intros [= <-]. right. exists r. set_solver.
  - rewrite lookup_insert_ne by done. auto.
Qed.

Lemma InsertSynthRequest_grows r w :
  let '(o, w') := InsertSynthRequest (key_of r) (row_of r) w in
  grows [r] w w' ∧ (is_Ok o = true → in_log w' r) ∧
  (uw_faults w = [] → insertable w r → is_Ok o = true ∧ uw_faults w' = []).
Proof.
  unfold InsertSynthRequest, port. cbn [faults UsageWorld_faults].
  destruct (uw_faults w) as [|[] fs] eqn:Hf.
  - pose proof (insert_row_grows r w) as H. by rewrite Hf in H.
  - pose proof (insert_row_grows r (set_faults fs w)) as H.
    destruct (insert_row _ _ (set_faults fs w)) as [o w'].
    destruct H as ([K N D P] & Hl & _). split_and!; [by split|done|done].
  - split_and!; [by apply grows_same|done|done].
  - pose proof (insert_row_grows r (set_faults fs w)) as H.
    destruct (insert_row _ _ (set_faults fs w)) as [o w'].
    destruct H as ([K N D P] & _). split_and!; [by split|done|done].
Qed.

Lemma insert_each_grows records w :
  let '(o, w') := insert_each records w in
  grows records w w' ∧ (is_Ok o = true → Forall (in_log w') records) ∧
  (uw_faults w = [] → Forall (insertable w) records → is_Ok o = true ∧ uw_faults w' = []).
Proof.
  revert w. induction records as [|r rest IH]; intros w; simpl; unfold sbind, swrap.
  { split_and!; [by apply grows_same|by constructor|done]. }
  pose proof (InsertSynthRequest_grows r w) as H.
  destruct (InsertSynthRequest _ _ w) as [[[]|e] w1]; destruct H as (Hg & Hl & Hf).
  - specialize (IH w1). destruct (insert_each rest w1) as [o w2].
    destruct IH as (Hg2 & Hl2 & Hf2). split_and!; [by apply (grows_trans [r] rest w w1 w2)| |].
    + intros Ho. constructor; [|by apply Hl2]. destruct (Hl eq_refl) as [row Hrow]. exists row.
      eapply lookup_weaken; [done|]. by apply g_kept in Hg2.
    + intros Hw [Hr Hrest]%Forall_cons. apply Hf2; [by apply Hf|].
      eapply Forall_impl; [exact Hrest|]. unfold insertable. by rewrite (g_partitions _ _ _ Hg).
  - split_and!; [|done|].
    + destruct Hg as [K N D P]. split; try done. intros k row Hrow.
      destruct (N k row Hrow) as [?|(x & ? & ?)]; [by left|right]. exists x. set_solver.
    + intros Hw [Hr _]%Forall_cons. destruct (Hf Hw Hr) as [? _]. done.
Qed.

(** Two stores whose tables are the same. *)
Definition usage_same (w w' : UsageWorld) : Prop :=
  uw_requests w' = uw_requests w ∧ uw_daily w' = uw_daily w ∧ uw_partitions w' = uw_partitions w.

#[export] Instance usage_same_preorder : PreOrder usage_same.
Proof. split; [done|]. intros w1 w2 w3 (? & ? & ?) (? & ? & ?). repeat split; congruence. Qed.

Lemma WriteBatch_grows records w :
  let '(o, w') := WriteBatch records w in
  grows records w w' ∧ (is_Ok o = true → Forall (in_log w') records) ∧
  (uw_faults w = [] → Forall (insertable w) records → is_Ok o = true ∧ uw_faults w' = []).
Proof.
  destruct records as [|r rest]; unfold WriteBatch.
  { split_and!; [by apply grows_same|by constructor|done]. }
  set (records := r :: rest). clearbody records. clear r rest.
  assert (uw_faults w = [] → Forall (insertable w) records →
    is_Ok (transaction (insert_each records) w).1 = true ∧
    uw_faults (transaction (insert_each records) w).2 = []) as Hcalm.
  { intros Hf Hi. unfold transaction, swrap. rewrite port_answered by done.
    pose proof (insert_each_grows records w) as H. destruct (insert_each records w) as [o w2].
    destruct H as (_ & _ & H). destruct (H Hf Hi) as [Ho Hf2]. destruct o; [|done].
    cbn [faults UsageWorld_faults]. by rewrite Hf2. }
  pose proof (transaction_cases usage_same (insert_each records) w) as Htx. cbv zeta in Htx.
  destruct (transaction _ w) as [o w']. cbn [fst snd] in *.
  destruct Htx as [[(Hr & Hd & Hp) Ho]|(w1 & w2 & u & (Hr1 & Hd1 & Hp1) & Hm & (Hr & Hd & Hp) & _)].
  - by intros fs w0.
  - split_and!; [by apply grows_same|by rewrite Ho|done].
  - pose proof (insert_each_grows records w1) as H. rewrite Hm in H. destruct H as (Hg & Hl & _).
    assert (grows records w w') as Hgw.
    { destruct Hg as [K N D P]. rewrite <-Hr, Hr1 in *. split; [done|done|congruence..]. }
    split_and!; [done| |done]. intros _. eapply Forall_impl; [by apply Hl|].
    intros x [row Hx]. exists row. by rewrite Hr.
Qed.

(** What a run of the meter over the database does to it. *)
Definition wrote (x : list (list Metered * bool)) (w : UsageWorld)
    (x' : list (list Metered * bool)) (w' : UsageWorld) : Prop :=
  ∃ new, x' = x ++ new ∧ grows (concat (fst <$> new)) w w' ∧
    (∀ b, (b, true) ∈ new → Forall (in_log w') b) ∧
    (uw_faults w = [] → Forall (insertable w) (concat (fst <$> new)) →
       Forall (λ b, b.2 = true) new ∧ uw_faults w' = []).

Lemma wrote_refl x w : wrote x w x w.
Proof.
  exists []. simpl. split_and!; [by rewrite app_nil_r|by apply grows_same|set_solver|done].
Qed.

Lemma in_log_mono l w w' r : grows l w w' → in_log w r → in_log w' r.
Proof. intros Hg [row Hr]. exists row. eapply lookup_weaken; [done|]. by apply g_kept in Hg. Qed.

Lemma wrote_trans x w x1 w1 x2 w2 : wrote x w x1 w1 → wrote x1 w1 x2 w2 → wrote x w x2 w2.
Proof.
  intros (n1 & -> & G1 & A1 & F1) (n2 & -> & G2 & A2 & F2). exists (n1 ++ n2).
  rewrite fmap_app, concat_app. split_and!.
  - by rewrite app_assoc.
  - by apply (grows_trans _ _ w w1 w2).
  - intros b [Hb|Hb]%elem_of_app; [|by apply A2]. eapply Forall_impl; [by apply A1|].
    intros r. by apply (in_log_mono (concat (fst <$> n2))).
  - intros Hf [Hi1 Hi2]%Forall_app. destruct (F1 Hf Hi1) as [Ha1 Hf1].
    destruct (F2 Hf1) as [Ha2 Hf2].
    { eapply Forall_impl; [exact Hi2|]. intros r. unfold insertable. by rewrite (g_partitions _ _ _ G1). }
    split; [by apply Forall_app|done].
Qed.

Lemma WriteBatch_wrote x b w :
  let '(r, w') := WriteBatch b w in wrote x w (x ++ [(b, is_Ok r)]) w'.
Proof.
  pose proof (WriteBatch_grows b w) as H. destruct (WriteBatch b w) as [r w'].
  destruct H as (Hg & Hl & Hf). exists [(b, is_Ok r)]. cbn [fmap list_fmap concat fst]. rewrite app_nil_r.
  split_and!; [done|done| |].
  - intros b' [= -> Hr]%list_elem_of_singleton. by apply Hl.
  - intros Hw Hi. destruct (Hf Hw Hi) as [Ho ?]. split; [|done]. by apply Forall_singleton.
Qed.

(** ** The daily rollup *)

(** A tenant's billable rows of a day, whenever they are looked at. *)
Definition billed_on (w : UsageWorld) (tid : string) (d : Z) : list log_row :=
  List.filter (λ p : log_row, String.eqb (rr_TenantID p.2) tid && (day_start (at_time p) =? d) && billable p.2)
    (map_to_list (uw_requests w)).

(** What a rollup over rows [rows] leaves in [usage_daily] under [k]. *)
Definition rolled (rows : list log_row) (old : option day_row) : option day_row :=
  match rows with [] => old | _ => Some (day_totals rows) end.

Lemma foldr_insert_lookup {A} (g : A → string * Z) (F : string * Z → day_row) (l : list A)
    (d : gmap (string * Z) day_row) k :
  foldr (λ p d, <[g p := F (g p)]> d) d l !! k =
  if decide (k ∈ g <$> l) then Some (F k) else d !! k.
Proof.
  induction l as [|p l IH]; cbn [foldr]; [by rewrite decide_False by set_solver|].
  destruct (decide (g p = k)) as [<-|Hne].
  - rewrite lookup_insert_eq, decide_True by set_solver. done.
  - rewrite lookup_insert_ne by done. rewrite IH.
    destruct (decide (k ∈ g <$> l)); [rewrite decide_True by set_solver|rewrite decide_False by set_solver]; done.
Qed.

Lemma rollup_lookup (rows : list log_row) (d : gmap (string * Z) day_row) k :
  foldr (λ p d, <[group_key p := day_totals (group_of (group_key p) rows)]> d) d rows !! k =
  rolled (group_of k rows) (d !! k).
Proof.
  rewrite (foldr_insert_lookup group_key (λ k, day_totals (group_of k rows))). unfold rolled.
  destruct (decide (k ∈ group_key <$> rows)) as [Hin|Hnin]; destruct (group_of k rows) as [|p l] eqn:Hg; try done.
  - apply list_elem_of_fmap in Hin as (p & -> & Hp).
    assert (p ∈ group_of (group_key p) rows) as Hm.
    { unfold group_of. rewrite list_elem_of_In, List.filter_In, <-list_elem_of_In.
      by rewrite bool_decide_eq_true. }
    rewrite Hg in Hm. by apply elem_of_nil in Hm.
  - exfalso. apply Hnin. assert (p ∈ group_of k rows) as Hp by (rewrite Hg; by left).
    unfold group_of in Hp. rewrite list_elem_of_In, List.filter_In, <-list_elem_of_In, bool_decide_eq_true in Hp.
    destruct Hp as [Hp <-]. apply list_elem_of_fmap. by exists p.
Qed.

Lemma RollupUsage_run from to w :
  uw_faults w = [] →
  RollupUsage from to w =
  (Ok (), set_daily (λ d, foldr (λ p d, <[group_key p :=
      day_totals (group_of (group_key p) (billed_between w from to))]> d) d (billed_between w from to)) w).
Proof. intros Hf. unfold RollupUsage, RollupUsageDaily, swrap. by rewrite port_answered by done. Qed.

(** The rows of a group are the tenant's of that day that fall in the window. *)
Lemma group_of_billed w from to tid d :
  group_of (tid, d) (billed_between w from to) =
  List.filter (λ p : log_row, (from <=? at_time p) && (at_time p <? to)) (billed_on w tid d).
Proof.
  unfold group_of, billed_between, billed_on. rewrite !filter_filter. apply List.filter_ext. intros p.
  assert (bool_decide (group_key p = (tid, d)) =
          String.eqb (rr_TenantID p.2) tid && (day_start (at_time p) =? d)) as ->.
  { apply eq_true_iff_eq. rewrite bool_decide_eq_true, andb_true_iff, String.eqb_eq, Z.eqb_eq.
    unfold group_key. naive_solver. }
  destruct (String.eqb _ _), (_ =? _), (from <=? _), (_ <? to), (billable _); reflexivity.
Qed.

Lemma billed_on_spec w tid d p :
  p ∈ billed_on w tid d ↔
  uw_requests w !! p.1 = Some p.2 ∧ rr_TenantID p.2 = tid ∧ day_start (at_time p) = d ∧ billable p.2 = true.
Proof.
  destruct p as [k r]. unfold billed_on. rewrite list_elem_of_In, List.filter_In, <-list_elem_of_In,
    elem_of_map_to_list, !andb_true_iff, String.eqb_eq, Z.eqb_eq. simpl. tauto.
Qed.

(** A window that covers a day sees all of it, and one that misses it nothing. *)
Lemma window_covers w from to tid d :
  day_start d = d → from ≤ d → d + Day ≤ to →
  group_of (tid, d) (billed_between w from to) = billed_on w tid d.
Proof.
  intros Hd Hf Ht. rewrite group_of_billed. apply filter_all. intros p (_ & _ & Hp & _)%billed_on_spec.
  apply (day_start_iff d (at_time p) Hd) in Hp. rewrite andb_true_iff, Z.leb_le, Z.ltb_lt. lia.
Qed.

Lemma window_misses w from to tid d :
  day_start d = d → d + Day ≤ from ∨ to ≤ d → group_of (tid, d) (billed_between w from to) = [].
Proof.
  intros Hd Hw. rewrite group_of_billed. apply filter_none. intros p (_ & _ & Hp & _)%billed_on_spec.
  apply (day_start_iff d (at_time p) Hd) in Hp. rewrite andb_false_iff, Z.leb_gt, Z.ltb_ge. lia.
Qed.

(** ** The authoritative totals *)

(** What the log bills a tenant for in a window. *)
Definition billed_chars (w : UsageWorld) (from to : Z) (tid : string) : Z :=
  zsum (λ p : log_row, rr_Chars p.2)
    (List.filter (λ p : log_row, String.eqb (rr_TenantID p.2) tid) (billed_between w from to)).

Lemma SumCharsSince_run from to w :
  uw_faults w = [] →
  SumCharsSince from to w =
  (Ok ((λ t, (t, billed_chars w from to t)) <$>
       remove_dups ((λ p : log_row, rr_TenantID p.2) <$> billed_between w from to)), w).
Proof. intros Hf. unfold SumCharsSince, SumCharsByTenantSince, swrap. by rewrite port_answered by done. Qed.

Lemma SumCharsSince_spec from to w totals :
  uw_faults w = [] → (SumCharsSince from to w).1 = Ok totals →
  NoDup totals.*1 ∧
  (∀ tid n, (tid, n) ∈ totals ↔
     n = billed_chars w from to tid ∧ ∃ p, p ∈ billed_between w from to ∧ rr_TenantID p.2 = tid) ∧
  (∀ tid, tid ∉ totals.*1 → billed_chars w from to tid = 0).
Proof.
  intros Hf. rewrite SumCharsSince_run by done. cbn [fst]. intros [= <-].
  set (rows := billed_between w from to).
  assert (∀ tid, tid ∈ remove_dups ((λ p : log_row, rr_TenantID p.2) <$> rows) ↔
    ∃ p, p ∈ rows ∧ rr_TenantID p.2 = tid) as Hin.
  { intros tid. rewrite elem_of_remove_dups, list_elem_of_fmap. naive_solver. }
  split_and!.
  - rewrite <-list_fmap_compose. erewrite (list_fmap_ext _ id); [rewrite list_fmap_id; apply NoDup_remove_dups|done].
  - intros tid n. rewrite list_elem_of_fmap. split.
    + intros (t & [= -> ->] & Ht). split; [done|]. by apply Hin.
    + intros [-> Hp]. exists tid. split; [done|]. by apply Hin.
  - intros tid Hnin. unfold billed_chars. fold rows. rewrite filter_none; [done|]. intros p Hp.
    apply String.eqb_neq. intros Ht. apply Hnin. rewrite <-list_fmap_compose, list_elem_of_fmap.
    exists tid. split; [done|]. apply Hin. by exists p.
Qed.

(** ** Properties *)


Definition demo_record (id tid status : string) (at_ chars : Z) : Metered := {|
  m_ID := id; m_TenantID := tid; m_KeyID := "k"; m_VoiceID := "v"; m_CacheKey := "";
  m_Mode := "sync"; m_Chars := chars; m_DurationMS := 10; m_TTFAMS := 0; m_Cached := false;
  m_Status := status; m_ErrorCode := ""; m_CreatedAt := at_ |}.
Definition demo_log (fs : list fault) : UsageWorld := {|
  uw_requests := ∅; uw_daily := ∅; uw_partitions := {[ month_start (739000 * Day) ]}; uw_faults := fs |}.
Definition demo_run : list action :=
  [ARecord "f1" 0 (demo_record "r1" "t" "ok" (739000 * Day) 30); ATake;
   ARecord "f2" (739000 * Day + 7) (demo_record uuid_Nil "t" "ok" 0 12); ATick; ATake; AClose; ADone; AIdle].



