(* ===== verification/Report.v ===== *)
(** * Usage reports

    [usage/report.go]: a report over a window of days and its rendering as RFC
    4180 CSV with [encoding/csv]. [csv_reader] is a reader of the format, for
    the round trip. *)

From Stdlib Require Import Ascii.
From stdpp Require Import base gmap strings pretty numbers sorting list.
From S2P Require Import Prelude GoString Float Calendar Usage.

(** ** [report.go] *)

Definition MaxReportDays : Z := 366.

Record Totals : Type := { tt_Chars : Z; tt_AudioMS : Z; tt_Requests : Z; tt_CacheHits : Z }.

Record Report : Type := {
  rp_From : Z; rp_To : Z; rp_Days : list DayUsage; rp_Totals : Totals; rp_PlanLimit : Z;
}.

Inductive report_error : Type :=
  | InvalidRange (reason : string)
  | ReadUsage (e : gerr).

Definition report_error_String (e : report_error) : string :=
  match e with
  | InvalidRange reason => "invalid range: " +:+ reason
  | ReadUsage e => "read usage: " +:+ Error_String e
  end.

Definition add_day (t : Totals) (d : DayUsage) : Totals := {|
  tt_Chars := int64 (tt_Chars t + du_Chars d);
  tt_AudioMS := int64 (tt_AudioMS t + du_AudioMS d);
  tt_Requests := int64 (tt_Requests t + du_Requests d);
  tt_CacheHits := int64 (tt_CacheHits t + du_CacheHits d);
|}.

Definition Build (tenantID : string) (from to planLimit : Z) (w : UsageWorld)
    : (Report + report_error) * UsageWorld :=
  let from := day_start from in
  let to := day_start to in
  if to <? from then (inr (InvalidRange "to is before from"), w)
  else if MaxReportDays * 24 * Hour <? time_sub to from then
    (inr (InvalidRange ("window is longer than " +:+ Itoa MaxReportDays +:+ " days")), w)
  else match ByDay tenantID from to w with
  | (Err err, w') => (inr (ReadUsage err), w')
  | (Ok days, w') =>
      (inl {| rp_From := from; rp_To := to; rp_Days := days;
              rp_Totals := foldl add_day
                {| tt_Chars := 0; tt_AudioMS := 0; tt_Requests := 0; tt_CacheHits := 0 |} days;
              rp_PlanLimit := planLimit |}, w')
  end.

(** [csv.Writer]'s [fieldNeedsQuotes], with its default comma. *)
Definition CR : ascii := byte_of 13.
Definition LF : ascii := byte_of 10.
Definition DQ : ascii := byte_of 34.
Definition CRLF : string := String CR (String LF "").

Definition fieldNeedsQuotes (field : string) : bool :=
  if String.eqb field "" then false
  else if String.eqb field "\." then true
  else str_has LF field || str_has CR field || str_has DQ field || str_has ","%char field ||
       match runes field with (r, _) :: _ => IsSpace r | [] => false end.

(** A field's bytes inside quotes, under [UseCRLF]. *)
Fixpoint quoted_bytes (s : string) : string :=
  match s with
  | "" => ""
  | String c s' =>
      (if Ascii.eqb c DQ then String DQ (String DQ "")
       else if Ascii.eqb c CR then ""
       else if Ascii.eqb c LF then CRLF
       else String c "") +:+ quoted_bytes s'
  end%string.

Definition csv_field (field : string) : string :=
  if fieldNeedsQuotes field then String DQ "" +:+ quoted_bytes field +:+ String DQ "" else field.
Definition csv_record (fields : list string) : string := Join (csv_field <$> fields) "," +:+ CRLF.

Definition csv_header : list string := ["day"; "chars"; "audio_ms"; "requests"; "cache_hits"].
Definition csv_row (d : DayUsage) : list string :=
  [FormatDateOnly (du_Day d); Itoa (du_Chars d); Itoa (du_AudioMS d); Itoa (du_Requests d);
   Itoa (du_CacheHits d)].

(** [WriteCSV], on a writer that takes every byte. *)
Definition WriteCSV (report : Report) : string :=
  foldr String.append "" (csv_record <$> csv_header :: (csv_row <$> rp_Days report)).

(** ** Reading CSV back *)

(** Where a reader is: at the start of a field, in a bare one, in a quoted one,
    after a quote in a quoted one. *)
Inductive csv_mode : Type := AtStart | Bare | Quoted | AfterQuote.

(** Every record ends with a line feed, a carriage return before it is dropped. *)
Fixpoint csv_reader (m : csv_mode) (field : string) (rec : list string) (s : string)
    : list (list string) :=
  match s with
  | "" => []
  | String c s' =>
      match m with
      | Quoted =>
          if Ascii.eqb c DQ then csv_reader AfterQuote field rec s'
          else csv_reader Quoted (field +:+ String c "") rec s'
      | _ =>
          if Ascii.eqb c ","%char then csv_reader AtStart "" (rec ++ [field])%list s'
          else if Ascii.eqb c CR then csv_reader Bare field rec s'
          else if Ascii.eqb c LF then (rec ++ [field])%list :: csv_reader AtStart "" [] s'
          else if Ascii.eqb c DQ then
            match m with
            | AfterQuote => csv_reader Quoted (field +:+ String DQ "") rec s'
            | AtStart => csv_reader Quoted "" rec s'
            | _ => csv_reader Bare (field +:+ String DQ "") rec s'
            end
          else csv_reader Bare (field +:+ String c "") rec s'
      end
  end%string.

(** The day a row of five fields describes. *)
Definition read_day (fields : list string) : option DayUsage :=
  match fields with
  | [day; chars; audio; requests; hits] =>
      day ← ParseDateOnly day; chars ← ParseInt chars 64; audio ← ParseInt audio 64;
      requests ← ParseInt requests 64; hits ← ParseInt hits 64;
      Some {| du_Day := day; du_Chars := chars; du_AudioMS := audio; du_Requests := requests;
              du_CacheHits := hits |}
  | _ => None
  end.
Definition read_report (s : string) : option (list DayUsage) :=
  match csv_reader AtStart "" [] s with
  | header :: rows => if bool_decide (header = csv_header) then mapM read_day rows else None
  | [] => None
  end.

Definition no_breaks (s : string) : Prop := str_has CR s = false ∧ str_has LF s = false.

Lemma str_has_cons c c' s : str_has c (String c' s) = bool_decide (c' = c) || str_has c s.
Proof. reflexivity. Qed.

Lemma eqb_of c c' : Ascii.eqb c c' = bool_decide (c = c').
Proof. case_bool_decide as H; [subst; apply Ascii.eqb_refl|by apply Ascii.eqb_neq]. Qed.

Lemma app_snoc a c b : (a +:+ String c "") +:+ b = a +:+ String c b.
Proof. by rewrite <-str_app_assoc, str_app_cons, str_app_nil_l. Qed.

(** Reading the inside of a quoted field, up to the closing quote. *)
Lemma read_quoted s field rec tail :
  no_breaks s →
  csv_reader Quoted field rec (quoted_bytes s +:+ String DQ tail) = csv_reader AfterQuote (field +:+ s) rec tail.
Proof.
  revert field. induction s as [|c s IH]; intros field [Hc Hl].
  { cbn [quoted_bytes]. rewrite str_app_nil_l, str_app_nil_r. reflexivity. }
  rewrite str_has_cons in Hc, Hl. apply orb_false_iff in Hc as [Hc Hc'], Hl as [Hl Hl'].
  cbn [quoted_bytes]. rewrite !eqb_of, Hc, Hl.
  assert (∀ f, csv_reader Quoted (f +:+ String c "") rec (quoted_bytes s +:+ String DQ tail) =
    csv_reader AfterQuote (f +:+ String c s) rec tail) as Hgo.
  { intros f. rewrite IH by done. by rewrite app_snoc. }
  destruct (decide (c = DQ)) as [->|Hq]; [rewrite bool_decide_true by done|rewrite bool_decide_false by done].
  - repeat (rewrite str_app_cons || rewrite str_app_nil_l).
    change (csv_reader Quoted (field +:+ String DQ "") rec (quoted_bytes s +:+ String DQ tail) =
      csv_reader AfterQuote (field +:+ String DQ s) rec tail). apply Hgo.
  - repeat (rewrite str_app_cons || rewrite str_app_nil_l). cbn [csv_reader]. rewrite eqb_of, bool_decide_false by done.
    apply Hgo.
Qed.

(** Reading a field that needed no quotes. *)
Lemma read_bare s m field rec tail :
  m = Bare ∨ m = AtStart ∧ s ≠ "" →
  str_has LF s = false → str_has CR s = false → str_has DQ s = false → str_has ","%char s = false →
  csv_reader m field rec (s +:+ tail) = csv_reader Bare (field +:+ s) rec tail.
Proof.
  revert m field. induction s as [|c s IH]; intros m field Hm HL HC HD HK.
  { destruct Hm as [->|[_ Hne]]; [|done]. by rewrite str_app_nil_l, str_app_nil_r. }
  rewrite str_has_cons in HL, HC, HD, HK.
  apply orb_false_iff in HL as [HL HL'], HC as [HC HC'], HD as [HD HD'], HK as [HK HK'].
  rewrite str_app_cons, <-app_snoc.
  rewrite <-(IH Bare (field +:+ String c "")) by auto.
  destruct Hm as [->|[-> _]]; cbn [csv_reader]; by rewrite !eqb_of, HK, HC, HL, HD.
Qed.

(** After a field, a comma or the end of the record. *)
Lemma read_field f rec c tail :
  no_breaks f → c = ","%char ∨ c = LF ∨ c = CR →
  csv_reader AtStart "" rec (csv_field f +:+ String c tail) = csv_reader Bare f rec (String c tail).
Proof.
  intros [HC HL] Hc. unfold csv_field. destruct (fieldNeedsQuotes f) eqn:Hq.
  - rewrite <-!str_app_assoc, str_app_cons, !str_app_nil_l.
    assert (∀ x, String DQ "" +:+ x = String DQ x) as Hdq by (intros; by rewrite str_app_cons, str_app_nil_l).
    rewrite Hdq.
    change (csv_reader Quoted "" rec (quoted_bytes f +:+ String DQ (String c tail)) =
      csv_reader Bare f rec (String c tail)).
    rewrite read_quoted, str_app_nil_l by done. by destruct Hc as [->|[->| ->]].
  - unfold fieldNeedsQuotes in Hq. destruct (String.eqb_spec f "") as [->|Hne].
    { rewrite str_app_nil_l. by destruct Hc as [->|[->| ->]]. }
    destruct (String.eqb f "\."); [done|]. rewrite !orb_false_iff in Hq.
    destruct Hq as ((((? & ?) & ?) & ?) & _).
    by rewrite read_bare, str_app_nil_l by auto.
Qed.

(** A record is read back field by field, whatever its fields hold between line
    breaks. *)
Lemma read_record fields tail :
  fields ≠ [] → Forall no_breaks fields →
  csv_reader AtStart "" [] (csv_record fields +:+ tail) = fields :: csv_reader AtStart "" [] tail.
Proof.
  intros Hne Hf. unfold csv_record.
  assert (∀ rec, csv_reader AtStart "" rec ((Join (csv_field <$> fields) "," +:+ CRLF) +:+ tail) =
    (rec ++ fields) :: csv_reader AtStart "" [] tail) as Hgo; [|by rewrite Hgo].
  induction Hf as [|f fs Hf Hfs IH]; [done|]. intros rec. destruct fs as [|f' fs].
  - change (Join (csv_field <$> [f]) ",") with (csv_field f).
    rewrite <-str_app_assoc. unfold CRLF. rewrite !str_app_cons, str_app_nil_l.
    rewrite read_field by auto. reflexivity.
  - change (Join (csv_field <$> f :: f' :: fs) ",") with
      (csv_field f +:+ "," +:+ Join (csv_field <$> f' :: fs) ",").
    rewrite <-!str_app_assoc. rewrite (str_app_cons ","%char), str_app_nil_l, read_field by auto.
    change (csv_reader AtStart "" (rec ++ [f]) (Join (csv_field <$> f' :: fs) "," +:+ CRLF +:+ tail) =
      (rec ++ f :: f' :: fs) :: csv_reader AtStart "" [] tail).
    rewrite (str_app_assoc (Join _ _)), IH by done. by rewrite <-app_assoc.
Qed.

Lemma Itoa_no_breaks z : no_breaks (Itoa z).
Proof.
  split; (destruct (str_has _ (Itoa z)) eqn:H; [|done]);
    by destruct (Itoa_chars z _ H) as [Hd|Hd]; vm_compute in Hd.
Qed.

Lemma no_breaks_app a b : no_breaks a → no_breaks b → no_breaks (a +:+ b).
Proof. intros [H1 H2] [H3 H4]. split; by rewrite str_has_app, ?H1, ?H2, ?H3, ?H4. Qed.

Lemma FormatDateOnly_no_breaks t : no_breaks (FormatDateOnly t).
Proof.
  unfold FormatDateOnly, pad4, pad2. repeat apply no_breaks_app; try apply Itoa_no_breaks; by split.
Qed.

Lemma csv_row_no_breaks d : Forall no_breaks (csv_row d).
Proof.
  unfold csv_row. repeat apply Forall_cons_2; try apply Itoa_no_breaks;
    [apply FormatDateOnly_no_breaks|by constructor].
Qed.

(** A row that a date of four digits and 64-bit counts can describe. *)
Definition printable (d : DayUsage) : Prop :=
  day_start (du_Day d) = du_Day d ∧ 0 ≤ du_Day d ∧ Year (du_Day d) ≤ 9999 ∧
  in_int64 (du_Chars d) ∧ in_int64 (du_AudioMS d) ∧ in_int64 (du_Requests d) ∧ in_int64 (du_CacheHits d).

Lemma read_day_row d : printable d → read_day (csv_row d) = Some d.
Proof.
  intros (Hd & H0 & Hy & H1 & H2 & H3 & H4). unfold csv_row, read_day.
  unfold in_int64, MinInt64, MaxInt64 in *.
  rewrite ParseDateOnly_Format, !ParseInt_Itoa by (done || simpl; lia). simpl. rewrite Hd. by destruct d.
Qed.

Lemma read_rows days :
  csv_reader AtStart "" [] (foldr String.append "" (csv_record <$> (csv_row <$> days))) = csv_row <$> days.
Proof.
  induction days as [|d days IH]; [done|].
  change (foldr String.append "" (csv_record <$> (csv_row <$> d :: days))) with
    (csv_record (csv_row d) +:+ foldr String.append "" (csv_record <$> (csv_row <$> days))).
  rewrite read_record, IH; [done|done|apply csv_row_no_breaks].
Qed.

(** ** The totals *)

Definition sums (days : list DayUsage) : Totals := {|
  tt_Chars := zsum du_Chars days; tt_AudioMS := zsum du_AudioMS days;
  tt_Requests := zsum du_Requests days; tt_CacheHits := zsum du_CacheHits days;
|}.

(** The counts of the days, and their sums, are counts of 64 bits. *)
Definition fits (days : list DayUsage) : Prop :=
  Forall (λ f : DayUsage → Z, (∀ d, d ∈ days → 0 ≤ f d) ∧ zsum f days ≤ MaxInt64)
    [du_Chars; du_AudioMS; du_Requests; du_CacheHits].

Lemma add_days acc days :
  Forall (λ p : (DayUsage → Z) * Z, 0 ≤ p.2 ∧ (∀ d, d ∈ days → 0 ≤ p.1 d) ∧ p.2 + zsum p.1 days ≤ MaxInt64)
    [(du_Chars, tt_Chars acc); (du_AudioMS, tt_AudioMS acc); (du_Requests, tt_Requests acc);
     (du_CacheHits, tt_CacheHits acc)] →
  foldl add_day acc days = {|
    tt_Chars := tt_Chars acc + zsum du_Chars days; tt_AudioMS := tt_AudioMS acc + zsum du_AudioMS days;
    tt_Requests := tt_Requests acc + zsum du_Requests days;
    tt_CacheHits := tt_CacheHits acc + zsum du_CacheHits days |}.
Proof.
  revert acc. induction days as [|d days IH]; intros acc H; simpl.
  { rewrite !Z.add_0_r. by destruct acc. }
  rewrite !Forall_cons in H. cbn [fst snd] in H.
  destruct H as ((A1 & A2 & A3) & (B1 & B2 & B3) & (C1 & C2 & C3) & (D1 & D2 & D3) & _).
  assert (∀ f, (∀ x, x ∈ d :: days → 0 ≤ f x) → 0 ≤ f d ∧ 0 ≤ zsum f days ∧ ∀ x, x ∈ days → 0 ≤ f x) as Hn.
  { intros f Hf. split_and!; [set_solver|apply zsum_nonneg; set_solver|set_solver]. }
  apply Hn in A2 as (? & ? & ?), B2 as (? & ? & ?), C2 as (? & ? & ?), D2 as (? & ? & ?).
  simpl in A3, B3, C3, D3.
  assert (add_day acc d = {|
    tt_Chars := tt_Chars acc + du_Chars d; tt_AudioMS := tt_AudioMS acc + du_AudioMS d;
    tt_Requests := tt_Requests acc + du_Requests d;
    tt_CacheHits := tt_CacheHits acc + du_CacheHits d |}) as ->.
  { unfold add_day. rewrite !int64_id by (unfold in_int64, MinInt64, MaxInt64 in *; lia). done. }
  rewrite IH; [f_equal; cbn; lia|].
  repeat apply Forall_cons_2; cbn [fst snd tt_Chars tt_AudioMS tt_Requests tt_CacheHits];
    (split_and!; [lia|done|lia]) || constructor.
Qed.

Lemma totals_are_sums days :
  fits days →
  foldl add_day {| tt_Chars := 0; tt_AudioMS := 0; tt_Requests := 0; tt_CacheHits := 0 |} days = sums days.
Proof.
  intros H. unfold fits in H. rewrite !Forall_cons in H.
  destruct H as ((? & ?) & (? & ?) & (? & ?) & (? & ?) & _).
  rewrite add_days; [done|]. cbn [tt_Chars tt_AudioMS tt_Requests tt_CacheHits].
  repeat apply Forall_cons_2; (split_and!; [done|done|cbn [fst snd]; lia]) || constructor.
Qed.

(** ** Properties *)

(** A usage report. A window that ends before it starts, or spans more than
    366 days, is refused without a read; any other is answered with the tenant's
    days in it, each once and in order, exactly as the daily rollup has them, and
    totals that are the sums of the days shown. *)
Theorem report_exact tid from to limit w :
  uw_faults w = [] →
  let f := day_start from in
  let t := day_start to in
  (t < f → Build tid from to limit w = (inr (InvalidRange "to is before from"), w)) ∧
  (f ≤ t → MaxReportDays * Day < t - f →
     Build tid from to limit w = (inr (InvalidRange "window is longer than 366 days"), w)) ∧
  (f ≤ t → t - f ≤ MaxReportDays * Day →
     ∃ r, Build tid from to limit w = (inl r, w) ∧
       rp_From r = f ∧ rp_To r = t ∧ rp_PlanLimit r = limit ∧
       StronglySorted (ascending du_Day) (rp_Days r) ∧
       (∀ d, d ∈ rp_Days r ↔ f ≤ du_Day d ≤ t ∧
          ∃ row, uw_daily w !! (tid, du_Day d) = Some row ∧ d = day_usage ((tid, du_Day d), row)) ∧
       (fits (rp_Days r) → rp_Totals r = sums (rp_Days r))).
Proof.
  intros Hf. cbv zeta. unfold Build. cbv zeta.
  set (f := day_start from). set (t := day_start to).
  assert (MaxReportDays * 24 * Hour = MaxReportDays * Day) as -> by done.
  assert (MaxReportDays * Day < MaxInt64) as HM by done.
  split_and!.
  - intros Hlt. by destruct (Z.ltb_spec t f); [|lia].
  - intros Hle Hlong. destruct (Z.ltb_spec t f); [lia|].
    destruct (Z.ltb_spec (MaxReportDays * Day) (time_sub t f)) as [|Hs]; [done|].
    unfold time_sub, MinInt64, MaxInt64 in *. lia.
  - intros Hle Hshort. destruct (Z.ltb_spec t f); [lia|].
    destruct (Z.ltb_spec (MaxReportDays * Day) (time_sub t f)) as [Hs|_];
      [unfold time_sub, MinInt64, MaxInt64 in *; lia|].
    unfold ByDay, swrap, UsageByDay. rewrite port_answered by done. unfold f, t.
    rewrite !day_start_idem. fold f t. eexists. split; [reflexivity|].
    cbn [rp_From rp_To rp_PlanLimit rp_Days rp_Totals].
    set (rows := List.filter _ _).
    assert (∀ p, p ∈ rows ↔ p.1.1 = tid ∧ f ≤ p.1.2 ≤ t ∧ uw_daily w !! p.1 = Some p.2) as Hrows.
    { intros [k row]. unfold rows. rewrite list_elem_of_In, List.filter_In, <-list_elem_of_In, elem_of_map_to_list,
        !andb_true_iff, String.eqb_eq, !Z.leb_le. simpl. tauto. }
    split_and!; [done|done|done| |  |apply totals_are_sums].
    + apply order_by_sorted. rewrite <-list_fmap_compose. apply NoDup_fmap_2_strong.
      * intros [[k1 d1] r1] [[k2 d2] r2] H1%Hrows H2%Hrows Heq. simpl in *.
        destruct H1 as (-> & _ & H1), H2 as (-> & _ & H2). unfold compose, day_usage in Heq. simpl in Heq.
        subst d2. congruence.
      * unfold rows. apply NoDup_ListNoDup, List.NoDup_filter, NoDup_ListNoDup, NoDup_map_to_list.
    + intros d. rewrite order_by_elem, list_elem_of_fmap. split.
      * intros ([[k1 d1] r1] & -> & (Hk & Hr & Hl)%Hrows). simpl in *. subst k1. split; [done|].
        by exists r1.
      * intros (Hr & row & Hl & Hd). exists ((tid, du_Day d), row). split; [done|]. by apply Hrows.
Qed.

Definition demo_day (n chars : Z) : (string * Z) * day_row :=
  (("t", n * Day), {| dr_Chars := chars; dr_AudioMs := 10; dr_Requests := 1; dr_CacheHits := 0 |}).
Definition demo_usage : UsageWorld := {|
  uw_requests := ∅;
  uw_daily := list_to_map [demo_day 739000 30; demo_day 739001 12];
  uw_partitions := ∅; uw_faults := [] |}.

Lemma report_exact_witness :
  ∃ r, Build "t" (739000 * Day + 5) (739001 * Day) 1000 demo_usage = (inl r, demo_usage) ∧
       rp_Totals r = sums (rp_Days r).
Proof.
  destruct (report_exact "t" (739000 * Day + 5) (739001 * Day) 1000 demo_usage eq_refl) as (_ & _ & H).
  destruct H as (r & Hr & _ & _ & _ & _ & _ & Ht); [by vm_compute|by vm_compute|].
  exists r. split; [exact Hr|]. apply Ht.
  assert (rp_Days r = day_usage <$> [demo_day 739000 30; demo_day 739001 12]) as ->.
  { assert (match Build "t" (739000 * Day + 5) (739001 * Day) 1000 demo_usage with
            | (inl r, _) => rp_Days r | _ => [] end = day_usage <$> [demo_day 739000 30; demo_day 739001 12])
      as Hd by (by vm_compute). by rewrite Hr in Hd. }
  unfold fits. repeat apply Forall_cons_2; [..|by apply Forall_nil_2];
    (split; [|by vm_compute]); intros d Hd; cbn [fmap list_fmap] in Hd;
    apply elem_of_cons in Hd as [->|[->|[]%elem_of_nil]%elem_of_cons]; by vm_compute.
Defined.

(** The CSV export loses nothing: a CSV reader gets back the header and, from
    the rows, exactly the days of the report. *)
Theorem csv_roundtrip r :
  Forall printable (rp_Days r) → read_report (WriteCSV r) = Some (rp_Days r).
Proof.
  intros Hp. unfold WriteCSV, read_report.
  change (foldr String.append "" (csv_record <$> csv_header :: (csv_row <$> rp_Days r))) with
    (csv_record csv_header +:+ foldr String.append "" (csv_record <$> (csv_row <$> rp_Days r))).
  rewrite read_record, read_rows; [|done|by repeat constructor].
  rewrite bool_decide_true by done.
  induction Hp as [|d days Hd Hdays IH]; [done|]. cbn [fmap list_fmap mapM]. rewrite read_day_row by done.
  cbn [mbind option_bind]. by rewrite IH.
Qed.

Lemma csv_roundtrip_witness :
  let r := {| rp_From := 0; rp_To := 0; rp_PlanLimit := 0; rp_Totals := sums [];
              rp_Days := [day_usage (demo_day 739000 30); day_usage (demo_day 739001 12)] |} in
  read_report (WriteCSV r) = Some (rp_Days r).
Proof.
  apply csv_roundtrip. repeat apply Forall_cons_2; [..|by apply Forall_nil_2];
    (split; [by vm_compute|]); by vm_compute.
Defined.
