(* ===== verification/Maintenance.v ===== *)
(** * Scheduled maintenance

    [maintenance/scheduler.go] and [storage/redis/lock.go]: the lock a task is
    run under, the schedule, and the three tasks over the stores of [Usage.v]
    and [Cache.v]. The ticker and the logger are not modelled. *)

From Stdlib Require Import Ascii.
From stdpp Require Import base gmap strings pretty numbers sorting list.
From S2P Require Import Prelude GoString Float Calendar Cache Usage.

(** ** [lock.go] *)

(** The lock keys: the holder's token and when the key expires. *)
Record LockWorld : Type := {
  lw_keys : gmap string (string * Z);
  lw_now : Z;
  lw_faults : list fault;
}.

#[export] Instance LockWorld_faults : HasFaults LockWorld := {|
  faults := lw_faults;
  set_faults fs w := {| lw_keys := lw_keys w; lw_now := lw_now w; lw_faults := fs |};
|}.

Definition set_locks (m : gmap string (string * Z)) (w : LockWorld) : LockWorld :=
  {| lw_keys := m; lw_now := lw_now w; lw_faults := lw_faults w |}.
Definition lock_pass (dt : Z) (w : LockWorld) : LockWorld :=
  {| lw_keys := lw_keys w; lw_now := lw_now w + dt; lw_faults := lw_faults w |}.

Definition lock_holder (w : LockWorld) (name : string) : option string :=
  match lw_keys w !! name with
  | Some (token, expiry) => if lw_now w <? expiry then Some token else None
  | None => None
  end.

Definition SetNX (name token : string) (ttl : Z) : ST LockWorld bool := port (λ w,
  match lock_holder w name with
  | Some _ => (Ok false, w)
  | None => (Ok true, set_locks (<[name := (token, lw_now w + ttl)]> (lw_keys w)) w)
  end).

(** [Acquire] with the token it draws: whether the caller holds the lock. *)
Definition Acquire (name token : string) (ttl : Z) : ST LockWorld bool :=
  swrap ("acquire " +:+ name +:+ ": ") (SetNX name token ttl).

(** [releaseScript] as the returned closure runs it; its error is dropped. *)
Definition releaseScript (name token : string) : ST LockWorld () := port (λ w,
  if bool_decide (lock_holder w name = Some token) then
    (Ok (), set_locks (delete name (lw_keys w)) w)
  else (Ok (), w)).
Definition release (name token : string) (w : LockWorld) : LockWorld := (releaseScript name token w).2.

(** ** [scheduler.go] *)

(** A task over a store [W]; [t_Run] is given the instant it starts. *)
Record Task (W : Type) : Type := {
  t_Name : string; t_Every : Z; t_Run : Z → ST W (); t_LockTTL : Z;
}.
Arguments t_Name {W}. Arguments t_Every {W}. Arguments t_Run {W}. Arguments t_LockTTL {W}.

(** How a tick ended, as the log tells it. *)
Inductive tick : Type :=
  | LockFailed (e : gerr)
  | Elsewhere
  | TaskFailed (e : gerr)
  | Completed.

(** [RunOnce], by a replica whose lock token is [token] and whose run takes
    [took]: the lock is released however the run ends. *)
Definition RunOnce {W} (task : Task W) (token : string) (took : Z) (lw : LockWorld) (w : W)
    : tick * LockWorld * W :=
  let ttl := if t_LockTTL task <=? 0 then t_Every task else t_LockTTL task in
  let name := "sched:" +:+ t_Name task in
  match Acquire name token ttl lw with
  | (Err err, lw) => (LockFailed err, lw, w)
  | (Ok false, lw) => (Elsewhere, lw, w)
  | (Ok true, lw) =>
      let '(r, w) := t_Run task (lw_now lw) w in
      let lw := release name token (lock_pass took lw) in
      (match r with Err err => TaskFailed err | Ok _ => Completed end, lw, w)
  end.

Definition RollupEvery : Z := 5 * Minute.
Definition EvictionEvery : Z := 24 * Hour.
Definition PartitionsEvery : Z := 24 * Hour.
Definition RollupWindow : Z := 30 * Minute.
Definition CacheMaxIdle : Z := 30 * 24 * Hour.
Definition evictionBatch : nat := 500.

Definition run_rollup (now : Z) : UM () := RollupUsage (now - RollupWindow) (now + Minute).

Definition partition_error (at_ : Z) (m : UM string) : UM string :=
  swrap ("ensure partition for " +:+ pad4 (Year at_) +:+ "-" +:+ pad2 (Month at_) +:+ ": ") m.
Definition run_partitions (now : Z) : UM () :=
  partition_error (AddMonths now 1) (EnsurePartition (AddMonths now 1)) ;*
  partition_error (AddMonths now 2) (EnsurePartition (AddMonths now 2)) ;*
  sret ().

(** *** The eviction, with the queries of [maintenancerepo.go] *)

Record CacheEntry : Type := { ce_CacheKey : string; ce_S3Key : string }.

Definition idle (before : Z) (p : string * cache_row) : bool := cr_last_hit_at p.2 <? before.
Definition evictable (before : Z) (limit : nat) (w : CacheWorld) : list (string * cache_row) :=
  take limit (order_by (λ a b, cr_last_hit_at a.2 <? cr_last_hit_at b.2)
    (List.filter (idle before) (map_to_list (cw_rows w)))).
Definition EvictableCacheEntries (idleBefore : Z) (limit : nat) : CM (list CacheEntry) :=
  swrap "list evictable entries: " (port (λ w,
    (Ok ((λ p : string * cache_row, {| ce_CacheKey := p.1; ce_S3Key := S3Key (cr_entry p.2) |})
         <$> evictable idleBefore limit w), w))).
Definition DeleteCacheEntry (cacheKey : string) : CM () :=
  swrap "delete cache entry: " (port (λ w, (Ok (), set_rows (delete cacheKey) w))).

(** An object that cannot be deleted keeps its row; a row that cannot be deleted
    ends the sweep. *)
Fixpoint evict_each (entries : list CacheEntry) : CM () :=
  match entries with
  | [] => sret ()
  | entry :: rest =>
      try r := Store_Delete (ce_S3Key entry) in
      match r with
      | Err _ => evict_each rest
      | Ok _ =>
          swrap "delete cache row: " (DeleteCacheEntry (ce_CacheKey entry)) ;*
          evict_each rest
      end
  end.

Definition evictCache (now : Z) : CM () :=
  let* entries := swrap "list evictable entries: "
                    (EvictableCacheEntries (now - CacheMaxIdle) evictionBatch) in
  evict_each entries.

(** [Tasks]: the schedule, a task per store. *)
Definition usage_rollup : Task UsageWorld :=
  {| t_Name := "usage-rollup"; t_Every := RollupEvery; t_LockTTL := RollupEvery; t_Run := run_rollup |}.
Definition cache_eviction : Task CacheWorld :=
  {| t_Name := "cache-eviction"; t_Every := EvictionEvery; t_LockTTL := Hour; t_Run := evictCache |}.
Definition partition_maintenance : Task UsageWorld :=
  {| t_Name := "partition-maintenance"; t_Every := PartitionsEvery; t_LockTTL := 10 * Minute;
     t_Run := run_partitions |}.

(** ** Replicas sharing a lock *)

(** Runs of [RunOnce] are numbered; [rs_held] is the lock each one that is
    between its [Acquire] and its [release] holds, and until when. *)
Record Replicas : Type := { rs_locks : LockWorld; rs_held : gmap nat (string * Z) }.

Inductive lock_action : Type :=
  | LAcquire (run : nat) (name : string) (ttl : Z)
  | LRelease (run : nat)
  | LPass (dt : Z).

Section replicas.
Context (token_of : nat → string) `{!Inj (=) (=) token_of}.

Definition lock_act (a : lock_action) (s : Replicas) : option Replicas :=
  match a with
  | LAcquire run name ttl =>
      if bool_decide (rs_held s !! run = None) then
        let '(r, w) := Acquire name (token_of run) ttl (rs_locks s) in
        Some {| rs_locks := w;
                rs_held := match r with
                           | Ok true => <[run := (name, lw_now (rs_locks s) + ttl)]> (rs_held s)
                           | _ => rs_held s
                           end |}
      else None
  | LRelease run =>
      match rs_held s !! run with
      | Some (name, _) => Some {| rs_locks := release name (token_of run) (rs_locks s);
                                  rs_held := delete run (rs_held s) |}
      | None => None
      end
  | LPass dt =>
      if 0 <=? dt then Some {| rs_locks := lock_pass dt (rs_locks s); rs_held := rs_held s |} else None
  end.

Fixpoint lock_run (l : list lock_action) (s : Replicas) : option Replicas :=
  match l with
  | [] => Some s
  | a :: l' => match lock_act a s with Some s' => lock_run l' s' | None => None end
  end.

(** A run that still has the lock is the one its key names. *)
Definition owns_key (s : Replicas) : Prop :=
  ∀ run name deadline, rs_held s !! run = Some (name, deadline) → lw_now (rs_locks s) < deadline →
    lw_keys (rs_locks s) !! name = Some (token_of run, deadline).

Lemma SetNX_cases name token ttl w :
  let '(r, w') := SetNX name token ttl w in
  lw_now w' = lw_now w ∧
  (lw_keys w' = lw_keys w ∧ r ≠ Ok true ∨
   lock_holder w name = None ∧ lw_keys w' = <[name := (token, lw_now w + ttl)]> (lw_keys w)).
Proof.
  unfold SetNX, port. cbn [faults LockWorld_faults]. destruct (lw_faults w) as [|[] fs];
    cbn [set_faults LockWorld_faults]; try (change (lock_holder {| lw_keys := lw_keys w; lw_now := lw_now w; lw_faults := fs |} name)
      with (lock_holder w name)); try (by split; [|left]);
    destruct (lock_holder w name); cbn; (split; [done|]); (by left) || (by right).
Qed.

Lemma release_cases name token w :
  lw_now (release name token w) = lw_now w ∧
  (lw_keys (release name token w) = lw_keys w ∨
   lock_holder w name = Some token ∧ lw_keys (release name token w) = delete name (lw_keys w)).
Proof.
  unfold release, releaseScript, port. cbn [faults LockWorld_faults].
  destruct (lw_faults w) as [|[] fs]; cbn [set_faults LockWorld_faults];
    try (change (lock_holder {| lw_keys := lw_keys w; lw_now := lw_now w; lw_faults := fs |} name)
      with (lock_holder w name)); try (by split; [|left]);
    case_bool_decide; cbn; (split; [done|]); (by left) || (by right).
Qed.

Lemma lock_act_owns a s s' : owns_key s → lock_act a s = Some s' → owns_key s'.
Proof using Type*.
  intros Hi Ha. destruct a as [run name ttl|run|dt]; simpl in Ha.
  - case_bool_decide as Hnone; [|done]. unfold Acquire, swrap in Ha.
    pose proof (SetNX_cases name (token_of run) ttl (rs_locks s)) as Hc.
    destruct (SetNX _ _ _ _) as [r w']. destruct Hc as (Hnow & Hc).
    assert (∀ held', held' = rs_held s ∨
        r = Ok true ∧ held' = <[run := (name, lw_now (rs_locks s) + ttl)]> (rs_held s) →
        owns_key {| rs_locks := w'; rs_held := held' |}) as Hgo.
    { intros held' Hheld run' name' d. cbn [rs_held rs_locks]. rewrite Hnow. intros Hh Hlt.
      assert (∀ d, rs_held s !! run' = Some (name', d) → lw_now (rs_locks s) < d →
        lw_keys w' !! name' = Some (token_of run', d)) as Hold.
      { intros d' Hh' Hlt'. specialize (Hi run' name' d' Hh' Hlt').
        destruct Hc as [[-> _]|[Hfree ->]]; [done|]. rewrite lookup_insert_ne; [done|]. intros ->.
        unfold lock_holder in Hfree. rewrite Hi in Hfree.
        by destruct (Z.ltb_spec (lw_now (rs_locks s)) d'); [|lia]. }
      destruct Hheld as [->|[-> ->]]; [by apply Hold|].
      destruct (decide (run = run')) as [<-|Hne]; [|rewrite lookup_insert_ne in Hh by done; by apply Hold].
      rewrite lookup_insert_eq in Hh. injection Hh as -> <-.
      destruct Hc as [[_ Hne]|[_ ->]]; [done|]. apply lookup_insert_eq. }
    destruct r as [[]|e]; injection Ha as <-; apply Hgo; auto.
  - destruct (rs_held s !! run) as [[name d]|] eqn:Hrun; [|done]. injection Ha as <-.
    destruct (release_cases name (token_of run) (rs_locks s)) as (Hnow & Hc).
    intros run' name' d'. cbn [rs_held rs_locks]. rewrite Hnow. intros [Hne Hh]%lookup_delete_Some Hlt.
    specialize (Hi run' name' d' Hh Hlt). destruct Hc as [->|[Hheld ->]]; [done|].
    rewrite lookup_delete_ne; [done|]. intros ->. unfold lock_holder in Hheld. rewrite Hi in Hheld.
    destruct (_ <? _); [|done]. injection Hheld as Htok. apply Hne. by apply (inj token_of).
  - destruct (Z.leb_spec 0 dt); [|done]. injection Ha as <-. intros run name d Hh Hlt.
    cbn [rs_locks lock_pass lw_now lw_keys rs_held] in *. apply Hi; [done|lia].
Qed.

Lemma lock_run_owns l s s' : owns_key s → lock_run l s = Some s' → owns_key s'.
Proof using Type*.
  revert s. induction l as [|a l IH]; intros s Hi Hr; simpl in Hr; [by injection Hr as <-|].
  destruct (lock_act a s) as [s1|] eqn:Ha; [|done]. eapply IH; [|done]. by eapply lock_act_owns.
Qed.
End replicas.

(** ** The eviction's lemmas *)

(** The catalogue's rows keep the keys [Store] gives objects by default. *)
Definition own_objects (w : CacheWorld) : Prop :=
  ∀ key r, cw_rows w !! key = Some r → S3Key (cr_entry r) = ObjectKey key.

(** An unexpired index entry has a row that was hit no longer ago than the
    entry was written or read. *)
Definition index_recent (w : CacheWorld) : Prop :=
  ∀ key h expiry, cw_index w !! indexKey key = Some (h, expiry) → cw_now w < expiry →
    ∃ r, cw_rows w !! key = Some r ∧ expiry ≤ cr_last_hit_at r + IndexTTL ∧
         default "" (h !! "s3_key") = S3Key (cr_entry r).

Lemma ObjectKey_inj k k' : ObjectKey k = ObjectKey k' → k = k'.
Proof.
  assert (∀ k, str_drop 6 (ObjectKey k) = str_take 2 (Key_String k) +:+ "/" +:+ Key_String k +:+ ".pcm") as Hd
    by done.
  intros Heq. assert (String.length (Key_String k) = String.length (Key_String k')) as Hlen.
  { pose proof (f_equal String.length Heq) as Hl. unfold ObjectKey in Hl.
    repeat rewrite str_app_length in Hl.
    assert (∀ s, String.length (str_take 2 s) = Nat.min 2 (String.length s)) as Ht
      by (intros [|? [|? ?]]; done). rewrite !Ht in Hl. lia. }
  pose proof (f_equal (str_drop 6) Heq) as H. rewrite !Hd in H.
  assert (∀ s : string, String.length (str_take 2 s) = Nat.min 2 (String.length s)) as Ht
    by (intros [|? [|? ?]]; done).
  pose proof (f_equal (str_drop (Nat.min 2 (String.length (Key_String k)))) H) as H2.
  rewrite <-(Ht (Key_String k)) in H2 at 1. rewrite str_drop_app, Hlen, <-(Ht (Key_String k')), str_drop_app in H2.
  rewrite !str_app_cons, !str_app_nil_l in H2. injection H2 as H2.
  pose proof (f_equal (str_take (String.length (Key_String k))) H2) as H3.
  rewrite str_take_app, Hlen, str_take_app in H3. by apply hex_of_inj.
Qed.

(** How far an eviction with cutoff [before] has taken [w0]. *)
Record evicting (before : Z) (w0 w : CacheWorld) : Prop := {
  ev_index : cw_index w = cw_index w0;
  ev_now : cw_now w = cw_now w0;
  ev_rows k r : cw_rows w !! k = Some r → cw_rows w0 !! k = Some r;
  ev_gone k r : cw_rows w0 !! k = Some r → cw_rows w !! k = None →
    cr_last_hit_at r < before ∧ cw_objects w !! S3Key (cr_entry r) = None;
  ev_objects o : cw_objects w !! o = cw_objects w0 !! o ∨
    cw_objects w !! o = None ∧
    ∃ k r, cw_rows w0 !! k = Some r ∧ cr_last_hit_at r < before ∧ S3Key (cr_entry r) = o;
}.

Lemma evicting_refl before w fs : evicting before w (set_faults fs w).
Proof. split; try done; [|by intros; left]. intros k r H1 H2. cbn in H2. congruence. Qed.

Lemma evicting_faults before w0 w fs : evicting before w0 w → evicting before w0 (set_faults fs w).
Proof. by intros []. Qed.

Lemma evicting_object before w0 w k r :
  cw_rows w0 !! k = Some r → cr_last_hit_at r < before →
  evicting before w0 w → evicting before w0 (set_objects (delete (S3Key (cr_entry r))) w).
Proof.
  intros Hr Hi [E1 E2 E3 E4 E5]. split; [done|done|done| |]; cbn [set_objects cw_objects cw_rows].
  - intros k' r' H1 H2. destruct (E4 k' r' H1 H2) as [? Ho]. split; [done|].
    destruct (decide (S3Key (cr_entry r) = S3Key (cr_entry r'))) as [->|];
      [by rewrite lookup_delete_eq|by rewrite lookup_delete_ne].
  - intros o. destruct (decide (S3Key (cr_entry r) = o)) as [<-|Hne].
    + right. rewrite lookup_delete_eq. split; [done|]. by exists k, r.
    + rewrite lookup_delete_ne by done. apply E5.
Qed.

Lemma evicting_row before w0 w k r :
  cw_rows w0 !! k = Some r → cr_last_hit_at r < before → cw_objects w !! S3Key (cr_entry r) = None →
  evicting before w0 w → evicting before w0 (set_rows (delete k) w).
Proof.
  intros Hr Hi Ho [E1 E2 E3 E4 E5]. split; [done|done| | |done]; cbn [set_rows cw_objects cw_rows].
  - intros k' r' [_ H]%lookup_delete_Some. by apply E3.
  - intros k' r' H1 H2. destruct (decide (k = k')) as [<-|Hne]; [by simplify_eq|].
    rewrite lookup_delete_ne in H2 by done. exact (E4 k' r' H1 H2).
Qed.

(** The entries of a sweep: rows of [w0] idle since before the cutoff. *)
Definition candidates (before : Z) (w0 : CacheWorld) (entries : list CacheEntry) : Prop :=
  ∀ e, e ∈ entries → ∃ r, cw_rows w0 !! ce_CacheKey e = Some r ∧ cr_last_hit_at r < before ∧
    ce_S3Key e = S3Key (cr_entry r).

Lemma Store_Delete_evicting before w0 w k r :
  cw_rows w0 !! k = Some r → cr_last_hit_at r < before → evicting before w0 w →
  let '(o, w') := Store_Delete (S3Key (cr_entry r)) w in
  evicting before w0 w' ∧ (is_Ok o = true → cw_objects w' !! S3Key (cr_entry r) = None) ∧
  (cw_faults w = [] → o = Ok () ∧ cw_faults w' = []) ∧ cw_rows w' = cw_rows w.
Proof.
  intros Hr Hi Hw. unfold Store_Delete, swrap, port. cbn [faults CacheWorld_faults].
  destruct (cw_faults w) as [|[] fs] eqn:Hf.
  - split_and!; [by eapply evicting_object|intros _; apply lookup_delete_eq|done|done].
  - split_and!; [eapply evicting_object; [done..|by apply evicting_faults]|intros _; apply lookup_delete_eq|done|done].
  - split_and!; [by apply evicting_faults|done|done|done].
  - split_and!; [eapply evicting_object; [done..|by apply evicting_faults]|done|done|done].
Qed.

Lemma DeleteCacheEntry_evicting before w0 w k r :
  cw_rows w0 !! k = Some r → cr_last_hit_at r < before → cw_objects w !! S3Key (cr_entry r) = None →
  evicting before w0 w →
  let '(o, w') := DeleteCacheEntry k w in
  evicting before w0 w' ∧ (cw_faults w = [] → o = Ok () ∧ cw_faults w' = [] ∧ cw_rows w' = delete k (cw_rows w)).
Proof.
  intros Hr Hi Ho Hw. unfold DeleteCacheEntry, swrap, port. cbn [faults CacheWorld_faults].
  destruct (cw_faults w) as [|[] fs] eqn:Hf; (split; [|done]).
  - by eapply evicting_row.
  - eapply evicting_row; [done..|by apply evicting_faults].
  - by apply evicting_faults.
  - eapply evicting_row; [done..|by apply evicting_faults].
Qed.

Lemma evict_each_evicting before w0 entries w :
  candidates before w0 entries → evicting before w0 w →
  let '(o, w') := evict_each entries w in
  evicting before w0 w' ∧
  (cw_faults w = [] → o = Ok () ∧ cw_rows w' = foldl (λ m e, delete (ce_CacheKey e) m) (cw_rows w) entries).
Proof.
  revert w. induction entries as [|e rest IH]; intros w Hc Hw; [done|]. cbn [evict_each]. unfold stry.
  destruct (Hc e) as (r & Hr & Hi & Hs); [by left|].
  assert (candidates before w0 rest) as Hc' by (intros x Hx; apply Hc; by right).
  pose proof (Store_Delete_evicting before w0 w _ r Hr Hi Hw) as Hd. rewrite <-Hs in Hd.
  destruct (Store_Delete _ w) as [[[]|err] w1]; destruct Hd as (Hw1 & Ho & Hf1 & Hrows1).
  - unfold sbind, swrap.
    pose proof (DeleteCacheEntry_evicting before w0 w1 _ r Hr Hi) as Hdel. rewrite <-Hs in Hdel.
    specialize (Hdel (Ho eq_refl) Hw1).
    destruct (DeleteCacheEntry _ w1) as [[[]|err] w2]; destruct Hdel as (Hw2 & Hf2).
    + specialize (IH w2 Hc' Hw2). destruct (evict_each rest w2) as [o w3].
      destruct IH as [Hw3 Hf3]. split; [done|]. intros Hf. destruct (Hf1 Hf) as [_ Hfw1].
      destruct (Hf2 Hfw1) as (_ & Hfw2 & Hrows2). destruct (Hf3 Hfw2) as [-> ->]. simpl.
      by rewrite Hrows2, Hrows1.
    + split; [done|]. intros Hf. destruct (Hf1 Hf) as [_ Hfw1]. by destruct (Hf2 Hfw1).
  - specialize (IH w1 Hc' Hw1). destruct (evict_each rest w1) as [o w3]. destruct IH as [Hw3 _].
    split; [done|]. intros Hf. by destruct (Hf1 Hf).
Qed.

Lemma evictable_spec before limit w p :
  p ∈ evictable before limit w → cw_rows w !! p.1 = Some p.2 ∧ cr_last_hit_at p.2 < before.
Proof.
  unfold evictable. intros Hp. apply elem_of_take in Hp as (i & Hp & _).
  apply list_elem_of_lookup_2 in Hp. rewrite order_by_elem, list_elem_of_In, List.filter_In, <-list_elem_of_In in Hp.
  destruct p as [k r]. rewrite elem_of_map_to_list in Hp. unfold idle in Hp. by rewrite Z.ltb_lt in Hp.
Qed.

Lemma evictCache_evicting now w :
  let '(o, w') := evictCache now w in
  evicting (now - CacheMaxIdle) w w' ∧
  (cw_faults w = [] → o = Ok () ∧
     cw_rows w' = foldl (λ m k, delete k m) (cw_rows w)
                    (fst <$> evictable (now - CacheMaxIdle) evictionBatch w)).
Proof.
  unfold evictCache, sbind, swrap, EvictableCacheEntries, swrap, port. cbn [faults CacheWorld_faults].
  set (before := now - CacheMaxIdle).
  assert (∀ w0 fs, cw_rows w0 = cw_rows w → candidates before w ((λ p : string * cache_row,
    {| ce_CacheKey := p.1; ce_S3Key := S3Key (cr_entry p.2) |}) <$> evictable before evictionBatch (set_faults fs w0))) as Hc.
  { intros w0 fs Hrows e (p & -> & Hp)%list_elem_of_fmap. apply evictable_spec in Hp as [H1 H2].
    exists p.2. cbn in H1. by rewrite Hrows in H1. }
  assert (∀ w : CacheWorld, set_faults (cw_faults w) w = w) as Hid by (by intros []).
  destruct (cw_faults w) as [|[] fs] eqn:Hf.
  - pose proof (evict_each_evicting before w _ w (Hc w [] eq_refl)) as H.
    assert (set_faults [] w = w) as Hw by (by rewrite <-Hf, Hid). rewrite Hw in H.
    specialize (H ltac:(rewrite <-Hw at 2; apply evicting_refl)).
    destruct (evict_each _ w) as [o w']. destruct H as [He Hr]. split; [done|]. intros _.
    destruct (Hr Hf) as [-> ->]. split; [done|]. clear.
    generalize (evictable before evictionBatch w) (cw_rows w). intros l.
    induction l as [|p l IH]; intros m; [done|]. apply IH.
  - pose proof (evict_each_evicting before w _ (set_faults fs w) (Hc w fs eq_refl) (evicting_refl _ _ _)) as H.
    destruct (evict_each _ _) as [o w']. by destruct H.
  - split; [apply evicting_refl|done].
  - split; [apply evicting_refl|done].
Qed.

Lemma foldl_delete_lookup {A} (l : list string) (m : gmap string A) k :
  foldl (λ m k, delete k m) m l !! k = if decide (k ∈ l) then None else m !! k.
Proof.
  revert m. induction l as [|x l IH]; intros m; cbn [foldl]; [by rewrite decide_False by set_solver|].
  rewrite IH. destruct (decide (k ∈ l)); [by rewrite decide_True by set_solver|].
  destruct (decide (k = x)) as [->|].
  - by rewrite lookup_delete_eq, decide_True by set_solver.
  - by rewrite lookup_delete_ne, decide_False by set_solver.
Qed.

(** A row hit within the index's lifetime is not idle. *)
Lemma evicting_safe before w0 w :
  before ≤ cw_now w0 - CacheMaxIdle → evicting before w0 w →
  own_objects w0 → index_recent w0 → no_dangling w0 →
  own_objects w ∧ index_recent w ∧ no_dangling w.
Proof.
  intros Hb [E1 E2 E3 E4 E5] Hown Hrec Hnd. split_and!.
  - intros k r Hr%E3. by apply Hown.
  - intros key h expiry Hi Hlt. rewrite E1 in Hi. rewrite E2 in Hlt.
    destruct (Hrec key h expiry Hi Hlt) as (r & Hr & Hexp & Hs). exists r. split; [|done].
    destruct (cw_rows w !! key) as [r'|] eqn:Hr'; [by apply E3 in Hr'; simplify_eq|].
    destruct (E4 key r Hr Hr') as [Hidle _]. unfold IndexTTL, CacheMaxIdle in *. lia.
  - intros key e He.
    assert (index_entry w0 key = Some e) as He0
      by (revert He; unfold index_entry, hash_at; by rewrite E1, E2).
    destruct (Hnd key e He0) as [body Hbody].
    assert (∃ h expiry, cw_index w0 !! indexKey key = Some (h, expiry) ∧ cw_now w0 < expiry ∧
              S3Key e = default "" (h !! "s3_key")) as (h & expiry & Hi & Hlt & Hse).
    { revert He0. unfold index_entry, hash_at.
      destruct (cw_index w0 !! indexKey key) as [[h expiry]|]; [|done].
      destruct (Z.ltb_spec (cw_now w0) expiry); [|done]. case_bool_decide; [done|].
      destruct (ParseInt _ 32); [|done]. destruct (ParseInt _ 64); [|done].
      intros [= <-]. by exists h, expiry. }
    destruct (Hrec key h expiry Hi Hlt) as (r & Hr & Hexp & Hs).
    destruct (E5 (S3Key e)) as [->|(_ & k & r' & Hr' & Hidle & Heq)]; [by exists body|].
    exfalso. rewrite Hse, Hs, (Hown _ _ Hr), (Hown _ _ Hr') in Heq. apply ObjectKey_inj in Heq as ->.
    simplify_eq. unfold IndexTTL, CacheMaxIdle in *. lia.
Qed.

(** *** The cache in use keeps its rows recent *)

Definition tidy (w : CacheWorld) : Prop := own_objects w ∧ index_recent w ∧ no_dangling w.

Lemma tidy_advance dt w : 0 ≤ dt → tidy w → tidy (advance dt w).
Proof.
  intros Hdt (Ho & Hr & Hn). split_and!; [done| |].
  - intros key h expiry Hi Hlt. cbn in Hlt. apply (Hr key h expiry Hi). lia.
  - intros key e He. apply (Hn key e). revert He. unfold index_entry, hash_at. cbn [advance cw_index cw_now].
    destruct (cw_index w !! indexKey key) as [[h expiry]|]; [|done].
    destruct (Z.ltb_spec (cw_now w + dt) expiry), (Z.ltb_spec (cw_now w) expiry); done || lia.
Qed.

Lemma tidy_store key e body w :
  cw_faults w = [] → go_len key = 32 → entry_ok e → Bytes e = go_len body → S3Key e = "" →
  tidy w → tidy (Store key e body w).2.
Proof.
  intros Hf Hk He Hlen Hs (Ho & Hr & Hn). split_and!; [| |by apply Store_keeps];
    rewrite (Store_answered key e body w Hf Hk He Hlen); cbv zeta;
    set (e' := stored_entry key e); assert (S3Key e' = ObjectKey key) as He' by
      (unfold e', stored_entry; by rewrite Hs).
  - intros k r. cbn [snd set_index set_rows set_objects cw_rows]. destruct (decide (key = k)) as [<-|].
    + rewrite lookup_insert_eq. by intros [= <-].
    + rewrite lookup_insert_ne by done. apply Ho.
  - intros k h expiry. cbn [snd set_index set_rows set_objects cw_rows cw_index cw_now].
    destruct (decide (key = k)) as [<-|Hne].
    + rewrite !lookup_insert_eq. intros [= <- <-] _. eexists. split; [reflexivity|]. cbn.
      split; [lia|]. by destruct (hset_fields e' (default ∅ (hash_at w (indexKey key)))) as (-> & _).
    + rewrite !lookup_insert_ne by (done || (intros Heq; apply Hne; by apply indexKey_inj)). apply Hr.
Qed.

Lemma tidy_lookup key w : cw_faults w = [] → tidy w → tidy (Lookup key w).2.
Proof.
  intros Hf Ht. pose proof (Lookup_keeps key w) as Hkeep. destruct Ht as (Ho & Hr & Hn).
  specialize (Hkeep Hn). enough (own_objects (Lookup key w).2 ∧ index_recent (Lookup key w).2) as [? ?] by done.
  clear Hkeep. unfold Lookup, Index_Get, HGetAll. answered.
  destruct (hash_at w (indexKey key)) as [h|] eqn:Hh; cbn [default]; [|done].
  case_bool_decide; [done|].
  destruct (ParseInt _ 32) as [d|]; [|done]. destruct (ParseInt _ 64) as [n|]; [|done].
  unfold Expire. answered. rewrite Hh. unfold Store_Get. answered. cbn [set_index cw_objects].
  assert (∃ expiry, cw_index w !! indexKey key = Some (h, expiry) ∧ cw_now w < expiry) as (expiry & Hi & Hlt).
  { unfold hash_at in Hh. destruct (cw_index w !! indexKey key) as [[h' ex]|]; [|done].
    destruct (Z.ltb_spec (cw_now w) ex); [|done]. injection Hh as <-. by exists ex. }
  destruct (Hr key h expiry Hi Hlt) as (r & Hrow & Hexp & Hs).
  destruct (cw_objects w !! _) as [body|]; cbn beta iota.
  - unfold Catalogue_Touch. answered. cbn [set_index cw_rows]. rewrite Hrow. cbn [snd]. split.
    + intros k r'. cbn [set_rows set_index cw_rows]. destruct (decide (key = k)) as [<-|].
      * rewrite lookup_insert_eq. intros [= <-]. by apply (Ho key r).
      * rewrite lookup_insert_ne by done. apply Ho.
    + intros k h' ex. cbn [set_rows set_index cw_rows cw_index cw_now].
      destruct (decide (key = k)) as [<-|Hne].
      * rewrite !lookup_insert_eq. intros [= <- <-] _. eexists. split; [reflexivity|]. cbn. split; [lia|done].
      * rewrite !lookup_insert_ne by (done || (intros Heq; apply Hne; by apply indexKey_inj)). apply Hr.
  - unfold Index_Delete. answered. cbn [snd]. split; [done|].
    intros k h' ex. cbn [set_index cw_index cw_now cw_rows]. intros Hk Hlt'.
    destruct (decide (key = k)) as [<-|Hne]; [by rewrite lookup_delete_eq in Hk|].
    rewrite lookup_delete_ne, lookup_insert_ne in Hk by (intros Heq; apply Hne; by apply indexKey_inj).
    by apply (Hr k h' ex).
Qed.

(** ** Properties *)



(** C32. The scheduler's lock. However replicas acquire and release locks while
    time passes and Redis calls fail, two different runs never hold the same lock
    at once, each within the time it took it for; and when Redis answers, a lock
    is granted exactly when no unexpired key stands, so a crashed holder blocks
    it for its lifetime at most. *)
Theorem lock_exclusive (token_of : nat → string) l s s' :
  Inj (=) (=) token_of → rs_held s = ∅ → lock_run token_of l s = Some s' →
  (∀ r1 r2 name d1 d2,
     rs_held s' !! r1 = Some (name, d1) → rs_held s' !! r2 = Some (name, d2) →
     lw_now (rs_locks s') < d1 → lw_now (rs_locks s') < d2 → r1 = r2) ∧
  (lw_faults (rs_locks s') = [] → ∀ name token ttl,
     (Acquire name token ttl (rs_locks s')).1 = Ok (bool_decide (lock_holder (rs_locks s') name = None)) ∧
     (∀ t d, lw_keys (rs_locks s') !! name = Some (t, d) → ∀ dt, d ≤ lw_now (rs_locks s') + dt →
        lock_holder (lock_pass dt (rs_locks s')) name = None)).
Proof.
  intros Hinj He Hrun.
  assert (owns_key token_of s) as H0 by (intros r n d; rewrite He; by intros []%lookup_empty_Some).
  pose proof (lock_run_owns token_of l s s' H0 Hrun) as Hi. split.
  - intros r1 r2 name d1 d2 H1 H2 Hl1 Hl2. apply (Hi _ _ _ H1) in Hl1. apply (Hi _ _ _ H2) in Hl2.
    apply (inj token_of). congruence.
  - intros Hf name token ttl. split.
    + unfold Acquire, swrap, SetNX. rewrite port_answered by done. cbv beta.
      by destruct (lock_holder (rs_locks s') name).
    + intros t d Hk dt Hd. unfold lock_holder. cbn. rewrite Hk.
      by destruct (Z.ltb_spec (lw_now (rs_locks s') + dt) d); [lia|].
Qed.

Definition no_locks : Replicas :=
  {| rs_locks := {| lw_keys := ∅; lw_now := 0; lw_faults := [] |}; rs_held := ∅ |}.
Definition token_demo (n : nat) : string := pretty n.

(** Two replicas race; the first one's lease runs out, the second gets the lock,
    and the first one's late release does not take it away. *)
Lemma lock_exclusive_witness :
  match lock_run token_demo
    [LAcquire 0 "sched:a" 10; LAcquire 1 "sched:a" 10; LPass 10; LAcquire 1 "sched:a" 10; LRelease 0] no_locks with
  | Some s' => rs_held s' !! 1%nat = Some ("sched:a", 20) ∧
      (Acquire "sched:a" "t9" 10 (rs_locks s')).1 = Ok (bool_decide (lock_holder (rs_locks s') "sched:a" = None))
  | None => False
  end.
Proof.
  destruct (lock_run token_demo _ no_locks) as [s'|] eqn:Hr; [|by vm_compute in Hr].
  assert (Inj (=) (=) token_demo) as Hinj by apply _.
  assert (lw_faults (rs_locks s') = [] ∧ rs_held s' !! 1%nat = Some ("sched:a", 20)) as [Hf Hh].
  { assert (match lock_run token_demo
      [LAcquire 0 "sched:a" 10; LAcquire 1 "sched:a" 10; LPass 10; LAcquire 1 "sched:a" 10; LRelease 0] no_locks
      with Some s' => lw_faults (rs_locks s') = [] ∧ rs_held s' !! 1%nat = Some ("sched:a", 20) | None => False end)
      as H by (by vm_compute). by rewrite Hr in H. }
  split; [exact Hh|].
  apply (lock_exclusive token_demo _ no_locks s' Hinj eq_refl Hr). exact Hf.
Defined.

(** Metering has somewhere to write. A partition run that every call answers,
    on any of the first 28 days of a month, leaves the request log with the
    partitions of the two months that follow, and loses none. *)
Theorem partitions_ahead now w :
  uw_faults w = [] → 0 ≤ now → DayOfMonth now ≤ 28 →
  ∃ w', run_partitions now w = (Ok (), w') ∧ uw_requests w' = uw_requests w ∧
    uw_partitions w ⊆ uw_partitions w' ∧
    next_month now ∈ uw_partitions w' ∧ next_month (next_month now) ∈ uw_partitions w'.
Proof.
  intros Hf Ht Hd. unfold run_partitions, partition_error, EnsurePartition. answered.
  eexists. split; [reflexivity|]. cbn [uw_requests uw_partitions].
  rewrite AddMonths_next, AddMonths_next2 by done. split_and!; [done|set_solver..].
Qed.

Lemma partitions_ahead_witness :
  next_month (739000 * Day) ∈ uw_partitions (run_partitions (739000 * Day) (demo_log [])).2.
Proof.
  destruct (partitions_ahead (739000 * Day) (demo_log []) eq_refl) as (w' & Hr & _ & _ & Hn & _);
    [by vm_compute|by vm_compute|]. rewrite Hr. exact Hn.
Defined.

(** January 30, 2026: the run makes March twice over and April is as far as it
    looks, but February is not made. *)
Example partitions_skip_february :
  let now := Date1 2026 1 + 29 * Day in
  bool_decide (next_month now ∈ uw_partitions (run_partitions now
    {| uw_requests := ∅; uw_daily := ∅; uw_partitions := ∅; uw_faults := [] |}).2) = false.
Proof. by vm_compute. Qed.

(** The scheduled rollup understates the day. Its window is the last thirty
    minutes, and it replaces the day's row by the totals of the window: whenever
    a tenant has a billable request since then, the row it leaves misses every
    earlier one of the same day. *)
Theorem rollup_forgets now tid w p q :
  uw_faults w = [] →
  (∀ x, x ∈ billed_on w tid (day_start now) → 0 ≤ rr_Chars x.2) →
  p ∈ billed_on w tid (day_start now) → at_time p < now - RollupWindow →
  q ∈ billed_on w tid (day_start now) → now - RollupWindow ≤ at_time q ≤ now →
  ∃ w' row, run_rollup now w = (Ok (), w') ∧ uw_daily w' !! (tid, day_start now) = Some row ∧
    dr_Chars row + rr_Chars p.2 ≤ dr_Chars (day_totals (billed_on w tid (day_start now))).
Proof.
  intros Hf Hpos Hp Htp Hq Htq. unfold run_rollup. rewrite RollupUsage_run by done.
  eexists. exists (day_totals (group_of (tid, day_start now) (billed_between w (now - RollupWindow) (now + Minute)))).
  split; [reflexivity|]. cbn [set_daily uw_daily]. rewrite rollup_lookup, group_of_billed.
  set (inside := λ x : log_row, (now - RollupWindow <=? at_time x) && (at_time x <? now + Minute)).
  set (all := billed_on w tid (day_start now)) in *.
  assert (inside p = false) as Hpi by (unfold inside; rewrite andb_false_iff, Z.leb_gt; lia).
  assert (inside q = true) as Hqi.
  { unfold inside. assert (0 < Minute) by done. rewrite andb_true_iff, Z.leb_le, Z.ltb_lt. lia. }
  assert (q ∈ List.filter inside all) as Hqf by (by rewrite list_elem_of_In, List.filter_In, <-list_elem_of_In).
  split.
  - unfold rolled. fold inside. destruct (List.filter inside all) as [|x l]; [by apply elem_of_nil in Hqf|].
    reflexivity.
  - unfold day_totals. cbn [dr_Chars]. clear Hqf Hqi Hq Htq Htp q. fold inside.
    assert (∀ l, (∀ x, x ∈ l → 0 ≤ rr_Chars x.2) → 0 ≤ zsum (λ p : log_row, rr_Chars p.2) l -
      zsum (λ p : log_row, rr_Chars p.2) (List.filter inside l)) as Hge.
    { clear. induction l as [|x l IH]; intros Hl; simpl; [lia|].
      specialize (IH ltac:(set_solver)). pose proof (Hl x ltac:(set_solver)).
      destruct (inside x); simpl; lia. }
    clearbody all. induction all as [|x l IH]; [by apply elem_of_nil in Hp|].
    pose proof (Hpos x ltac:(set_solver)). cbn [zsum foldr List.filter].
    assert (∀ y, y ∈ l → 0 ≤ rr_Chars y.2) as Hl by set_solver.
    apply elem_of_cons in Hp as [->|Hp].
    + rewrite Hpi. specialize (Hge l Hl). unfold zsum in *. lia.
    + specialize (IH Hl Hp). destruct (inside x); cbn [foldr]; unfold zsum in *; lia.
Qed.

Definition rollup_demo : UsageWorld := {|
  uw_requests := list_to_map ((λ r, (key_of r, row_of r)) <$>
    [demo_record "a" "t" "ok" (739000 * Day + Hour) 30; demo_record "b" "t" "ok" (739000 * Day + 2 * Hour) 12]);
  uw_daily := ∅; uw_partitions := ∅; uw_faults := [] |}.

(** Thirty characters at one o'clock and twelve at two: after the run at two the
    day's row says at most twelve. *)
Lemma rollup_forgets_witness :
  let now := 739000 * Day + 2 * Hour in
  match uw_daily (run_rollup now rollup_demo).2 !! ("t", 739000 * Day) with
  | Some row => dr_Chars row + 30 ≤ 42
  | None => False
  end.
Proof.
  intros now.
  destruct (rollup_forgets now "t" rollup_demo
    ("a", 739000 * Day + Hour, row_of (demo_record "a" "t" "ok" (739000 * Day + Hour) 30))
    ("b", 739000 * Day + 2 * Hour, row_of (demo_record "b" "t" "ok" (739000 * Day + 2 * Hour) 12)))
    as (w' & row & Hr & Hd & Hle); [done| | |by vm_compute| |by vm_compute|].
  - intros [k r] (Hr & _)%billed_on_spec. cbn in Hr.
    assert (map_Forall (λ _ r, 0 ≤ rr_Chars r) (uw_requests rollup_demo)) as Hall
      by (apply (bool_decide_unpack _); by vm_compute).
    exact (Hall k r Hr).
  - apply billed_on_spec. by vm_compute.
  - apply billed_on_spec. by vm_compute.
  - change (day_start now) with (739000 * Day) in Hd. rewrite Hr. cbn [snd]. rewrite Hd. exact Hle.
Defined.
