(* ===== verification/Synth.v ===== *)
(** * Synthesis

    [internal/synth]: the use case between an authenticated request and its audio.
    It decides nothing about the state of its ports (catalogue, plans, quota,
    audio cache, fleet, lease, client, meter), so each call is an event and its
    answer an arbitrary function of the calls before it, given by an [Env]. A
    worker's stream is what its [Recv]s will return: some frames, then the end of
    the stream or an error. Logging and metrics are left out. *)

From stdpp Require Import base gmap strings pretty numbers list.
From Stdlib Require Import SpecFloat.
From S2P Require Import Prelude GoString Float Audio Cache Quota Degrade Dispatch Voices.

(** ** [synth.go] *)

Definition MaxTextChars : Z := 3000.
Definition MinTextChars : Z := 1.
Definition SupportedSampleRates : list Z := [8000; 16000; 24000; 48000].

Record Request : Type := {
  rq_TenantID : string; rq_KeyID : string; rq_RequestID : string; rq_Text : string; rq_VoiceID : string;
  rq_Format : string; rq_SampleRate : Z; rq_Normalize : bool; rq_Params : Params;
}.

Record Result : Type := {
  Audio : string; r_DurationMS : Z; r_SampleRate : Z; r_Format : string; CacheHit : bool;
  CharsBilled : Z; r_VoiceID : string; r_ModelVersion : string;
}.

Definition with_format_rate (f : string) (rate : Z) (r : Request) : Request := {|
  rq_TenantID := rq_TenantID r; rq_KeyID := rq_KeyID r; rq_RequestID := rq_RequestID r;
  rq_Text := rq_Text r; rq_VoiceID := rq_VoiceID r; rq_Format := f; rq_SampleRate := rate;
  rq_Normalize := rq_Normalize r; rq_Params := rq_Params r |}.

Definition supportedRate (rate : Z) : bool := existsb (Z.eqb rate) SupportedSampleRates.

Definition Validate (r : Request) : res Request :=
  let len := rune_count (rq_Text r) in
  if len <? MinTextChars then Err (sentinelf ErrInvalidRequest "text must not be empty")
  else if MaxTextChars <? len then
    Err (sentinelf ErrTextTooLong
           ("text is " +:+ Itoa len +:+ " characters, the limit is " +:+ Itoa MaxTextChars))
  else if String.eqb (rq_VoiceID r) "" then Err (sentinelf ErrInvalidRequest "voice is required")
  else
    let f := if String.eqb (rq_Format r) "" then "wav" else rq_Format r in
    if String.eqb f "mp3" || String.eqb f "ogg_opus" then
      Err (sentinelf ErrFormatNotReady (f +:+ " arrives with worker Merge (task 2.2)"))
    else if negb (String.eqb f "wav") then
      Err (sentinelf ErrInvalidRequest ("unknown format " +:+ quoted f))
    else
      let rate := if rq_SampleRate r =? 0 then 48000 else rq_SampleRate r in
      if negb (supportedRate rate) then
        Err (sentinelf ErrInvalidRequest "sample_rate must be one of [8000 16000 24000 48000]")
      else Ok (with_format_rate f rate r).

Definition Chars (r : Request) : Z := rune_count (rq_Text r).

(** ** The ports *)

Record Usage : Type := {
  u_TenantID : string; u_KeyID : string; u_RequestID : string; u_VoiceID : string; u_CacheKey : string;
  Mode : string; u_Chars : Z; u_DurationMS : Z; TTFAMS : Z; Cached : bool; u_Status : string;
}.

Record Frame : Type := { Seq : Z; Pcm16 : string; Last : bool }.

Record SynthesisParams : Type := {
  CfgScale : spec_float; AudioTemperature_ : spec_float; AudioTopk : Z; AudioTopp : spec_float;
  AudioRepetitionPenalty_ : spec_float; EoaExtraFrames : Z;
}.

Record SynthesizeRequest : Type := {
  sy_RequestId : string; sy_Text : string; sy_VoiceId : string; sy_Normalize : bool;
  sy_Params : option SynthesisParams; sy_OutputSampleRate : Z;
}.

(** A cached object being read: its pieces, then the end or an error. *)
Record Body : Type := { pieces : list string; body_error : option gerr }.

(** What a worker's stream will return, then its end or an error. *)
Record WorkerStream : Type := { frames : list Frame; stream_error : option gerr }.

Inductive event : Type :=
| EResolve (tenantID id : string)
| EPlan (planID : string)
| ECheck (chars : Z)
| EQuota (tenantID : string) (chars : Z)
| EMeter (u : Usage)
| ELookup (key : string)
| ERead
| EStore (key : string) (entry : Entry) (body : string)
| EReserve (c : Class_) (r : res string)
| EOpen (addr : string) (r : SynthesizeRequest)
| ERecv
| ERelease
| ENow
| ESleep (d : Z)
| EGone
| EAcquire (tenantID : string) (limit : Z) (r : res bool)
| ERenew
| ELeaseRelease
| EHeader (rate : Z)
| EChunk (pcm : string).

Record Env : Type := {
  sha256 : string → string;
  ans_resolve : list event → res Voice;
  ans_plan : list event → res Z;
  ans_check : list event → res Allowance;
  ans_record : list event → option gerr;
  ans_lookup : list event → res (Entry * Body);
  ans_store : list event → option gerr;
  ans_reserve : list event → res string;
  ans_open : list event → res WorkerStream;
  ans_now : list event → Z;
  ans_sleep : list event → option gerr;
  ans_gone : list event → bool;
  ans_acquire : list event → res bool;
  ans_renew : list event → option gerr;
  ans_header : list event → option gerr;
  ans_chunk : list event → option gerr;
}.

Definition workerDeadline : Z := 60 * Second.
Definition workerAttempts : nat := 3.
Definition slotRetryBackoff : Z := 150 * Millisecond.
Definition leaseRenewEvery : Z := 20 * Second.

(** A [float64] rounded to a [float32]. *)
Definition f32_of (x : spec_float) : spec_float :=
  match x with S754_finite s m e => binary_normalize 24 128 (cond_Zopp s (Z.pos m)) e s | _ => x end.

Definition toProtoParams (p : Params) : SynthesisParams := {|
  CfgScale := f32_of (CFGScale p); AudioTemperature_ := f32_of (AudioTemperature p);
  AudioTopk := AudioTopK p; AudioTopp := f32_of (AudioTopP p);
  AudioRepetitionPenalty_ := f32_of (AudioRepetitionPenalty p); EoaExtraFrames := EOAExtraFrames p |}.

Definition worker_request (req : Request) (voice : Voice) : SynthesizeRequest := {|
  sy_RequestId := rq_RequestID req; sy_Text := rq_Text req; sy_VoiceId := v_ID voice;
  sy_Normalize := rq_Normalize req; sy_Params := Some (toProtoParams (rq_Params req));
  sy_OutputSampleRate := rq_SampleRate req |}.

Definition clampMS (ms : Z) : Z := if MaxInt32 <? ms then MaxInt32 else if ms <? 0 then 0 else int32 ms.

Definition classifyWorkerError (err : gerr) : gerr :=
  if bool_decide (status_Code err = CodeResourceExhausted)
  then sentinelf ErrOverloaded "worker slot taken"
  else EWrap2 "" (ESentinel ErrWorkerFailed) ": " err "".

Definition frame_error (seq last : Z) : gerr :=
  sentinelf ErrWorkerFailed ("frame " +:+ Itoa seq +:+ " after " +:+ Itoa last).

(** The next sequence number, a [uint32]. *)
Definition in_order (last : option Z) (seq : Z) : bool :=
  match last with Some l => seq =? (l + 1) `mod` 2 ^ 32 | None => true end.

Definition wrap_audio (pcm : string) (rate : Z) : res string :=
  match PCMSize (go_len pcm) with
  | Err e => Err (wrapf "wrap audio: " e)
  | Ok size =>
      match WriteHeader (λ _, None) rate size with
      | Some e => Err e
      | None => Ok (header_bytes rate size (uint 32 (size + HeaderSize - 8)) +:+ pcm)
      end
  end.

Definition pcm_entry (pcm : string) (durationMS : Z) : Entry :=
  {| S3Key := ""; Cache.Format := "pcm16"; En_DurationMS := durationMS; Bytes := go_len pcm |}.

Section service.
Variable env : Env.

Definition now : Prog event Z := pcall ENow (ans_now env).
Definition sleepCtx (d : Z) : Prog event (option gerr) :=
  let! r := pcall (ESleep d) (ans_sleep env) in
  pret (match r with Some e => Some (wrapf "wait for worker slot: " e) | None => None end).
Definition meter_Record (u : Usage) : Prog event () := pcall (EMeter u) (λ _, ()).
Definition release : Prog event () := pcall ERelease (λ _, ()).

(** ** [service.go]: before any work *)

Definition key_of (req : Request) (voice : Voice) : string :=
  Derive (sha256 env) {| ModelVersion := v_ModelVersion voice; VoiceID := v_ID voice;
    Normalize := rq_Normalize req; In_Params := rq_Params req; Text := rq_Text req |}.

Definition resolveVoice (req : Request) : Prog event (res Voice) :=
  let! r := pcall (EResolve (rq_TenantID req) (rq_VoiceID req)) (ans_resolve env) in
  pret (match r with
        | Ok v => Ok v
        | Err err => if errors_Is err VoicesErrUnknown then Err (sentinelf ErrUnknownVoice (rq_VoiceID req))
                     else Err (wrapf "resolve voice: " err)
        end).

(** The verdict and the breaker after it. *)
Definition checkQuota (b : Breaker) (req : Request) (planID : string) : Prog event (res () * Breaker) :=
  let! plan := pcall (EPlan planID) (ans_plan env) in
  match plan with
  | Err err => pret (Err (wrapf "read plan allowance: " err), b)
  | Ok allowance =>
      let! decision := pcall (ECheck (Chars req)) (ans_check env) in
      match decision with
      | Err err =>
          let! t := now in
          let (ok, b') := Tolerate b t in
          pret (if ok then Ok () else Err (wrapf "check quota: " err), b')
      | Ok d =>
          pret (if al_Allowed d then Ok ()
                else Err (sentinelf ErrQuotaExceeded
                            ("used " +:+ Itoa (al_Used d) +:+ " of " +:+ Itoa allowance)), Succeed b)
      end
  end.

(** What both entry points do first: the validated request, its voice. *)
Definition admission (b : Breaker) (req : Request) (planID : string)
    : Prog event (res (Request * Voice) * Breaker) :=
  match Validate req with
  | Err e => pret (Err e, b)
  | Ok req =>
      let! voice := resolveVoice req in
      match voice with
      | Err e => pret (Err e, b)
      | Ok voice =>
          let! verdict := checkQuota b req planID in
          let (verdict, b) := verdict : res () * Breaker in
          pret (match verdict with Ok _ => Ok (req, voice) | Err e => Err e end, b)
      end
  end.

(** ** [service.go]: billing *)

Definition billWithTTFA (req : Request) (key : string) (voice : Voice) (durationMS ttfaMS : Z)
    (cached : bool) (status : string) : Prog event () :=
  let! _ := (if String.eqb status "ok"
             then pcall (EQuota (rq_TenantID req) (Chars req)) (ans_record env) else pret None) in
  meter_Record {| u_TenantID := rq_TenantID req; u_KeyID := rq_KeyID req;
    u_RequestID := rq_RequestID req; u_VoiceID := v_ID voice; u_CacheKey := key; Mode := "sync";
    u_Chars := Chars req; u_DurationMS := durationMS; TTFAMS := ttfaMS; Cached := cached;
    u_Status := status |}.

Definition bill (req : Request) (key : string) (voice : Voice) (durationMS : Z) (cached : bool)
    (status : string) : Prog event () :=
  billWithTTFA req key voice durationMS 0 cached status.

(** ** [service.go]: the worker *)

Definition Reserve (c : Class_) : Prog event (res string) := pask (EReserve c) (ans_reserve env).

(** Reserve a slot and run [fn] on it, again while the worker says it is taken;
    [attempts] are left. *)
Fixpoint withWorker {A} (attempts : nat) (c : Class_) (fn : string → Prog event (res A)) (lastErr : gerr)
    : Prog event (res A) :=
  match attempts with
  | O => pret (Err (EWrap2 "" (ESentinel ErrOverloaded) ": worker slot taken on every attempt: " lastErr ""))
  | S attempts =>
      let! r := Reserve c in
      match r with
      | Err err => pret (Err err)
      | Ok addr =>
          let! r := fn addr in
          release ;!
          match r with
          | Ok a => pret (Ok a)
          | Err err =>
              if negb (bool_decide (status_Code err = CodeResourceExhausted)) then pret (Err err)
              else
                let! s := sleepCtx slotRetryBackoff in
                match s with
                | Some e => pret (Err e)
                | None => withWorker attempts c fn err
                end
          end
      end
  end.

(** Read the worker's stream to its end: the audio, and when its first byte came. *)
Fixpoint receive (l : list Frame) (end_ : option gerr) (started : Z) (last : option Z) (pcm : string) (ttfaMS : Z)
    : Prog event (res (string * Z)) :=
  pcall ERecv (λ _, ()) ;!
  match l with
  | [] => pret (match end_ with None => Ok (pcm, ttfaMS) | Some e => Err e end)
  | f :: rest =>
      if negb (in_order last (Seq f)) then pret (Err (frame_error (Seq f) (default 0 last)))
      else
        let! ttfaMS := (if (0 <? go_len (Pcm16 f)) && (ttfaMS =? 0)
                        then let! t := now in pret (clampMS (Milliseconds (time_sub t started)))
                        else pret ttfaMS) in
        let pcm := pcm +:+ Pcm16 f in
        if Last f then pret (Ok (pcm, ttfaMS))
        else receive rest end_ started (Some (Seq f)) pcm ttfaMS
  end.

Definition synthesize_on (req : Request) (voice : Voice) (addr : string) : Prog event (res (string * Z)) :=
  let! started := now in
  let! r := pcall (EOpen addr (worker_request req voice)) (ans_open env) in
  match r with
  | Err err => pret (Err err)
  | Ok s => receive (frames s) (stream_error s) started None "" 0
  end.

Definition result_of (req : Request) (voice : Voice) (wav : string) (durationMS : Z) (hit : bool) : Result := {|
  Audio := wav; r_DurationMS := durationMS; r_SampleRate := rq_SampleRate req;
  r_Format := rq_Format req; CacheHit := hit; CharsBilled := Chars req; r_VoiceID := v_ID voice;
  r_ModelVersion := v_ModelVersion voice |}.

Definition cache_Store (key : string) (pcm : string) (durationMS : Z) : Prog event (option gerr) :=
  pcall (EStore key (pcm_entry pcm durationMS) pcm) (ans_store env).

Definition fromWorker (req : Request) (key : string) (voice : Voice) : Prog event (res Result) :=
  let! r := withWorker workerAttempts ClassSync (synthesize_on req voice) (ENew "") in
  match r with
  | Err err =>
      bill req key voice 0 false "error" ;!
      pret (Err (classifyWorkerError err))
  | Ok (pcm, ttfaMS) =>
      let durationMS := DurationMS (go_len pcm) (rq_SampleRate req) in
      cache_Store key pcm durationMS ;!
      billWithTTFA req key voice durationMS ttfaMS false "ok" ;!
      pret (rbind (wrap_audio pcm (rq_SampleRate req)) (λ wav, Ok (result_of req voice wav durationMS false)))
  end.

(** ** [service.go]: the cache *)

(** [io.ReadAll]. *)
Definition ReadAll (b : Body) : res string :=
  match body_error b with Some e => Err e | None => Ok (Join (pieces b) "") end.

Definition fromCache (req : Request) (key : string) (voice : Voice) : Prog event (option Result) :=
  let! found := pcall (ELookup key) (ans_lookup env) in
  match found with
  | Err _ => pret None
  | Ok (entry, body) =>
      pcall ERead (λ _, ()) ;!
      match ReadAll body with
      | Err _ => pret None
      | Ok pcm =>
          match wrap_audio pcm (rq_SampleRate req) with
          | Err _ => pret None
          | Ok wav =>
              bill req key voice (En_DurationMS entry) true "ok" ;!
              pret (Some (result_of req voice wav (En_DurationMS entry) true))
          end
      end
  end.

Definition Synthesize (b : Breaker) (req : Request) (planID : string) : Prog event (res Result * Breaker) :=
  let! admitted := admission b req planID in
  let (admitted, b) := admitted : res (Request * Voice) * Breaker in
  match admitted with
  | Err e => pret (Err e, b)
  | Ok (req, voice) =>
      let key := key_of req voice in
      let! hit := fromCache req key voice in
      match hit with
      | Some result => pret (Ok result, b)
      | None =>
          let! r := fromWorker req key voice in
          pret (r, b)
      end
  end.

(** ** [stream.go] *)

Record StreamResult : Type := {
  sr_DurationMS : Z; sr_TTFAMS : Z; sr_CacheHit : bool; sr_CharsBilled : Z; Cancelled : bool;
}.

Definition no_result : StreamResult :=
  {| sr_DurationMS := 0; sr_TTFAMS := 0; sr_CacheHit := false; sr_CharsBilled := 0; Cancelled := false |}.

(** [14.5] as a [float64]. *)
Definition charsPerAudioSecond : spec_float := f64_div (f64_of_Z 29) (f64_of_Z 2).

Definition cancelledResult (pcmBytes : Z) (req : Request) (ttfaMS : Z) : StreamResult :=
  let durationMS := DurationMS pcmBytes (rq_SampleRate req) in
  let delivered := f64_trunc (f64_mul (f64_div (f64_of_Z durationMS) (f64_of_Z 1000)) charsPerAudioSecond) in
  {| sr_DurationMS := durationMS; sr_TTFAMS := ttfaMS; sr_CacheHit := false;
     sr_CharsBilled := if Chars req <? delivered then Chars req else delivered; Cancelled := true |}.

Definition meterStream (req : Request) (key : string) (voice : Voice) (result : StreamResult) (status : string)
    : Prog event () :=
  let! _ := (if String.eqb status "ok" || String.eqb status "client_cancelled"
             then pcall (EQuota (rq_TenantID req) (sr_CharsBilled result)) (ans_record env) else pret None) in
  meter_Record {| u_TenantID := rq_TenantID req; u_KeyID := rq_KeyID req;
    u_RequestID := rq_RequestID req; u_VoiceID := v_ID voice; u_CacheKey := key; Mode := "stream";
    u_Chars := sr_CharsBilled result; u_DurationMS := sr_DurationMS result; TTFAMS := sr_TTFAMS result;
    Cached := sr_CacheHit result; u_Status := status |}.

Definition sink_Header (rate : Z) : Prog event (option gerr) := pcall (EHeader rate) (ans_header env).
Definition sink_Chunk (pcm : string) : Prog event (option gerr) := pcall (EChunk pcm) (ans_chunk env).

(** Copy the object to the client; whether the client was there to the end. *)
Fixpoint replay (l : list string) : Prog event bool :=
  pcall ERead (λ _, ()) ;!
  match l with
  | [] => pret true
  | p :: rest =>
      let! r := (if 0 <? go_len p then sink_Chunk p else pret None) in
      match r with Some _ => pret false | None => replay rest end
  end.

Definition streamFromCache (req : Request) (key : string) : Prog event (option StreamResult) :=
  let! found := pcall (ELookup key) (ans_lookup env) in
  match found with
  | Err _ => pret None
  | Ok (entry, body) =>
      let! r := sink_Header (rq_SampleRate req) in
      match r with
      | Some _ => pret None
      | None =>
          let! started := now in
          let! finished := replay (pieces body) in
          if negb finished then
            pret (Some {| sr_DurationMS := 0; sr_TTFAMS := 0; sr_CacheHit := false;
                          sr_CharsBilled := Chars req; Cancelled := true |})
          else
            let! t := now in
            pret (Some {| sr_DurationMS := En_DurationMS entry;
                          sr_TTFAMS := int32 (Milliseconds (time_sub t started));
                          sr_CacheHit := true; sr_CharsBilled := Chars req; Cancelled := false |})
      end
  end.

(** A stream that has given its first frame. *)
Record opened : Type := { first : Frame; rest : WorkerStream; op_started : Z }.

(** Reserve a slot and read a first frame on it; on success the slot is held. *)
Fixpoint openStream (attempts : nat) (req : Request) (voice : Voice) (lastErr : gerr) : Prog event (res opened) :=
  match attempts with
  | O => pret (Err (EWrap2 "" (ESentinel ErrOverloaded) ": worker slot taken on every attempt: " lastErr ""))
  | S attempts =>
      let! r := Reserve ClassStream in
      match r with
      | Err err => pret (Err err)
      | Ok addr =>
          let! started := now in
          let! r := pcall (EOpen addr (worker_request req voice)) (ans_open env) in
          let! r := match r with
                    | Err err => pret (Err err)
                    | Ok s =>
                        pcall ERecv (λ _, ()) ;!
                        pret match frames s with
                             | f :: l => Ok {| first := f; rest := {| frames := l; stream_error := stream_error s |};
                                               op_started := started |}
                             | [] => Err (default (ESentinel ErrEOF) (stream_error s))
                             end
                    end in
          match r with
          | Ok o => pret (Ok o)
          | Err err =>
              release ;!
              if negb (bool_decide (status_Code err = CodeResourceExhausted))
              then pret (Err (classifyWorkerError err))
              else
                let! s := sleepCtx slotRetryBackoff in
                match s with
                | Some e => pret (Err e)
                | None => openStream attempts req voice err
                end
          end
      end
  end.

(** What the relay loop carries from frame to frame. *)
Record relay_state : Type := {
  headerWritten : bool; teed : string; rl_ttfaMS : Z; rl_last : option Z; lastRenew : Z;
}.

Section relay.
Variables (req : Request) (key : string) (voice : Voice) (started : Z).

Definition cancelled (s : relay_state) : Prog event (res StreamResult) :=
  let result := cancelledResult (go_len (teed s)) req (rl_ttfaMS s) in
  meterStream req key voice result "client_cancelled" ;!
  pret (Ok result).

Definition broken (err : gerr) : Prog event (res StreamResult) :=
  meterStream req key voice no_result "error" ;! pret (Err err).

(** Deliver a frame's audio: the state after it, or the stream's end. *)
Definition deliver (f : Frame) (s : relay_state) : Prog event (relay_state + res StreamResult) :=
  if negb (0 <? go_len (Pcm16 f)) then pret (inl s)
  else
    let! header := (if headerWritten s then pret None else sink_Header (rq_SampleRate req)) in
    match header with
    | Some err => pret (inr (Err (wrapf "write header: " err)))
    | None =>
        let! ttfaMS := (if rl_ttfaMS s =? 0
                        then let! t := now in pret (clampMS (Milliseconds (time_sub t started)))
                        else pret (rl_ttfaMS s)) in
        let s := {| headerWritten := true; teed := teed s; rl_ttfaMS := ttfaMS; rl_last := rl_last s;
                    lastRenew := lastRenew s |} in
        let! r := sink_Chunk (Pcm16 f) in
        match r with
        | Some _ => let! r := cancelled s in pret (inr r)
        | None => pret (inl {| headerWritten := true; teed := teed s +:+ Pcm16 f; rl_ttfaMS := ttfaMS;
                               rl_last := rl_last s; lastRenew := lastRenew s |})
        end
    end.

Definition renew (s : relay_state) : Prog event relay_state :=
  let! t := now in
  if leaseRenewEvery <? time_sub t (lastRenew s) then
    pcall ERenew (ans_renew env) ;!
    let! t := now in
    pret {| headerWritten := headerWritten s; teed := teed s; rl_ttfaMS := rl_ttfaMS s; rl_last := rl_last s;
            lastRenew := t |}
  else pret s.

(** The loop of [streamFromWorker], from a frame in hand: the state it breaks
    with, or the result it returns. *)
Fixpoint relay (f : Frame) (l : list Frame) (end_ : option gerr) (s : relay_state)
    : Prog event (relay_state + res StreamResult) :=
  if negb (in_order (rl_last s) (Seq f)) then
    let! r := broken (frame_error (Seq f) (default 0 (rl_last s))) in pret (inr r)
  else
    let s := {| headerWritten := headerWritten s; teed := teed s; rl_ttfaMS := rl_ttfaMS s;
                rl_last := Some (Seq f); lastRenew := lastRenew s |} in
    let! delivered := deliver f s in
    match delivered with
    | inr r => pret (inr r)
    | inl s =>
        let! s := renew s in
        if Last f then pret (inl s)
        else
          pcall ERecv (λ _, ()) ;!
          match l with
          | f' :: l' => relay f' l' end_ s
          | [] =>
              match end_ with
              | None => pret (inl s)
              | Some err =>
                  let! gone := pcall EGone (ans_gone env) in
                  let! r := (if gone : bool then cancelled s else broken (classifyWorkerError err)) in
                  pret (inr r)
              end
          end
    end.
End relay.

Definition streamFromWorker (req : Request) (key : string) (voice : Voice) : Prog event (res StreamResult) :=
  let! o := openStream workerAttempts req voice (ENew "") in
  match o with
  | Err err => pret (Err err)
  | Ok o =>
      let! renewed := now in
      let! r := relay req key voice (op_started o) (first o) (frames (rest o)) (stream_error (rest o))
                  {| headerWritten := false; teed := ""; rl_ttfaMS := 0; rl_last := None; lastRenew := renewed |} in
      let! r := match r with
                | inr r => pret r
                | inl s =>
                    let durationMS := DurationMS (go_len (teed s)) (rq_SampleRate req) in
                    cache_Store key (teed s) durationMS ;!
                    let result := {| sr_DurationMS := durationMS; sr_TTFAMS := rl_ttfaMS s; sr_CacheHit := false;
                                     sr_CharsBilled := Chars req; Cancelled := false |} in
                    meterStream req key voice result "ok" ;!
                    pret (Ok result)
                end in
      release ;!
      pret r
  end.

Definition Stream (b : Breaker) (req : Request) (planID : string) (streamLimit : Z)
    : Prog event (res StreamResult * Breaker) :=
  let! admitted := admission b req planID in
  let (admitted, b) := admitted : res (Request * Voice) * Breaker in
  match admitted with
  | Err e => pret (Err e, b)
  | Ok (req, voice) =>
      let! lease := pask (EAcquire (rq_TenantID req) streamLimit) (ans_acquire env) in
      match lease with
      | Err err => pret (Err (wrapf "acquire stream lease: " err), b)
      | Ok false => pret (Err (sentinelf ErrConcurrencyLimited (Itoa streamLimit +:+ " concurrent streams")), b)
      | Ok true =>
          let key := key_of req voice in
          let! hit := streamFromCache req key in
          let! r := match hit with
                    | Some result =>
                        meterStream req key voice result (if Cancelled result then "client_cancelled" else "ok") ;!
                        pret (Ok result)
                    | None => streamFromWorker req key voice
                    end in
          pcall ELeaseRelease (λ _, ()) ;!
          pret (r, b)
      end
  end.
End service.

(** ** Reading a trace *)

Definition quota_of (e : event) : option (string * Z) := match e with EQuota t c => Some (t, c) | _ => None end.
Definition meter_of (e : event) : option Usage := match e with EMeter u => Some u | _ => None end.
Definition store_of (e : event) : option string := match e with EStore _ _ body => Some body | _ => None end.
Definition chunk_of (e : event) : option string := match e with EChunk p => Some p | _ => None end.

Definition quotas : list event → list (string * Z) := omap quota_of.
Definition meters : list event → list Usage := omap meter_of.
Definition stored : list event → list string := omap store_of.

(** The bytes of a list of pieces. *)
Definition flatten (l : list string) : string := foldr String.append "" l.

(** Slots taken and given back, leases taken and given back. *)
Definition reserved : list event → Z := countb (λ e, match e with EReserve _ (Ok _) => true | _ => false end).
Definition released : list event → Z := countb (λ e, match e with ERelease => true | _ => false end).
Definition leased : list event → Z := countb (λ e, match e with EAcquire _ _ (Ok true) => true | _ => false end).
Definition unleased : list event → Z := countb (λ e, match e with ELeaseRelease => true | _ => false end).

(** The calls that decide whether to serve a request at all. *)
Definition is_check (e : event) : bool :=
  match e with EResolve _ _ | EPlan _ | ECheck _ | ENow => true | _ => false end.

(** Calls that neither take a slot, nor bill, nor store, nor deliver. *)
Definition is_idle (e : event) : bool :=
  match e with
  | EQuota _ _ | EMeter _ | EStore _ _ _ | EReserve _ _ | ERelease | EAcquire _ _ _ | ELeaseRelease
  | EChunk _ => false
  | _ => true
  end.

(** What a run of calls amounts to. *)
Record account : Type := {
  ac_quotas : list (string * Z); ac_meters : list Usage; ac_stored : list string; ac_chunks : list string;
  ac_slots : Z; ac_held : Z; ac_leases : Z;
}.

Definition account_of (d : list event) : account := {|
  ac_quotas := quotas d; ac_meters := meters d; ac_stored := stored d; ac_chunks := omap chunk_of d;
  ac_slots := reserved d; ac_held := reserved d - released d; ac_leases := leased d - unleased d |}.

Definition acc_add (a b : account) : account := {|
  ac_quotas := ac_quotas a ++ ac_quotas b; ac_meters := ac_meters a ++ ac_meters b;
  ac_stored := ac_stored a ++ ac_stored b; ac_chunks := ac_chunks a ++ ac_chunks b;
  ac_slots := ac_slots a + ac_slots b; ac_held := ac_held a + ac_held b; ac_leases := ac_leases a + ac_leases b |}.

Definition acc_none : account := account_of [].

Lemma account_app d1 d2 : account_of (d1 ++ d2) = acc_add (account_of d1) (account_of d2).
Proof.
  unfold account_of, acc_add, quotas, meters, stored, reserved, released, leased, unleased. cbn.
  rewrite !omap_app, !countb_app. f_equal; lia.
Qed.

Lemma acc_add_none_l a : acc_add acc_none a = a.
Proof. by destruct a. Qed.

Lemma acc_add_none_r a : acc_add a acc_none = a.
Proof.
  destruct a. unfold acc_add. cbn. rewrite !app_nil_r, !Z.add_0_r. done.
Qed.

Lemma account_idle d : Forall (λ e, is_idle e = true) d → account_of d = acc_none.
Proof.
  induction 1 as [|e d He Hd IH]; [done|]. change (e :: d) with ([e] ++ d).
  rewrite account_app, IH, acc_add_none_r. by destruct e.
Qed.

Lemma account_check d : Forall (λ e, is_check e = true) d → account_of d = acc_none.
Proof.
  intros Hd. apply account_idle. eapply Forall_impl; [exact Hd|]. by intros [].
Qed.

(** A program's calls amount to what [P] says of its result. *)
Definition accounts {A} (p : Prog event A) (P : A → account → Prop) : Prop :=
  emits p (λ a d, P a (account_of d)).

Lemma accounts_ret {A} (a : A) (P : A → account → Prop) : P a acc_none → accounts (pret a) P.
Proof. intros HP. by apply emits_ret. Qed.

Lemma accounts_bind {A B} (p : Prog event A) (k : A → Prog event B) P Q :
  accounts p P → (∀ a c, P a c → accounts (k a) (λ b c', Q b (acc_add c c'))) → accounts (pbind p k) Q.
Proof.
  intros Hp Hk. eapply emits_bind; [exact Hp|]. intros a d Ha. cbn in Ha.
  eapply emits_mono; [by apply Hk|]. intros b d2. cbn. by rewrite account_app.
Qed.

Lemma accounts_call {A B} (e : event) (f : list event → A) (k : A → Prog event B) Q :
  (∀ a, accounts (k a) (λ b c, Q b (acc_add (account_of [e]) c))) → accounts (pbind (pcall e f) k) Q.
Proof.
  intros Hk. apply (accounts_bind _ _ (λ _ c, c = account_of [e])).
  - by apply emits_call.
  - intros a c ->. apply Hk.
Qed.

Lemma accounts_ask {A B} (e : A → event) (f : list event → A) (k : A → Prog event B) Q :
  (∀ a, accounts (k a) (λ b c, Q b (acc_add (account_of [e a]) c))) → accounts (pbind (pask e f) k) Q.
Proof.
  intros Hk. apply (accounts_bind _ _ (λ a c, c = account_of [e a])).
  - intros h. by exists [e (f h)].
  - intros a c ->. apply Hk.
Qed.

(** A call that amounts to nothing may be forgotten. *)
Lemma accounts_skip {A B} (e : event) (f : list event → A) (k : A → Prog event B) Q :
  is_idle e = true → (∀ a, accounts (k a) Q) → accounts (pbind (pcall e f) k) Q.
Proof.
  intros He Hk. apply accounts_call. intros a. rewrite (account_idle [e]) by by repeat constructor.
  eapply emits_mono; [apply Hk|]. intros b d. cbn. by rewrite acc_add_none_l.
Qed.

Lemma accounts_skip_prog {A B} (p : Prog event A) (k : A → Prog event B) Q :
  accounts p (λ _ c, c = acc_none) → (∀ a, accounts (k a) Q) → accounts (pbind p k) Q.
Proof.
  intros Hp Hk. apply (accounts_bind _ _ _ _ Hp). intros a c ->.
  eapply emits_mono; [apply Hk|]. intros b d. cbn. by rewrite acc_add_none_l.
Qed.

Lemma accounts_mono {A} (p : Prog event A) (P Q : A → account → Prop) :
  accounts p P → (∀ a c, P a c → Q a c) → accounts p Q.
Proof. intros Hp HPQ. eapply emits_mono; [exact Hp|]. auto. Qed.

Definition acc_slots (k : Z) : account := {|
  ac_quotas := []; ac_meters := []; ac_stored := []; ac_chunks := []; ac_slots := k; ac_held := 0; ac_leases := 0 |}.

(** One metered request, with what it takes from the allowance. *)
Definition acc_bill (q : list (string * Z)) (u : Usage) : account := {|
  ac_quotas := q; ac_meters := [u]; ac_stored := []; ac_chunks := []; ac_slots := 0; ac_held := 0; ac_leases := 0 |}.

Definition acc_store (body : string) : account := {|
  ac_quotas := []; ac_meters := []; ac_stored := [body]; ac_chunks := []; ac_slots := 0; ac_held := 0; ac_leases := 0 |}.

(** Step over idle calls and case analyses. *)
Ltac idle_step :=
  first
    [ apply accounts_skip; [reflexivity|intros ?]
    | apply accounts_ret
    | match goal with
      | |- accounts (match ?x with _ => _ end) _ => destruct x eqn:?
      end ].
Ltac idle := repeat idle_step; try done.

(** ** What each part amounts to *)

Section accounts.
Variable env : Env.

Lemma now_accounts : accounts (now env) (λ _ c, c = acc_none).
Proof. by apply emits_call. Qed.

Lemma sleepCtx_accounts d : accounts (sleepCtx env d) (λ _ c, c = acc_none).
Proof. unfold sleepCtx. idle. Qed.

Lemma admission_checks b req planID :
  emits (admission env b req planID) (λ r d,
    Forall (λ e, is_check e = true) d ∧ (∀ x, r.1 = Ok x → Validate req = Ok x.1)).
Proof.
  unfold admission, resolveVoice, checkQuota. destruct (Validate req) as [req'|e]; [|by apply emits_ret].
  eapply (emits_bind _ _ (λ _ d, Forall (λ e, is_check e = true) d)).
  { apply emits_bind_call. intros r. apply emits_ret. by repeat constructor. }
  intros [v|e] d1 H1; [|apply emits_ret; by rewrite app_nil_r].
  eapply (emits_bind _ _ (λ _ d, Forall (λ e, is_check e = true) d)).
  - apply emits_bind_call. intros [allowance|e]; [|apply emits_ret; by repeat constructor].
    apply emits_bind_call. intros [d|e]; [apply emits_ret; by repeat constructor|].
    apply emits_bind_call. intros t. destruct (Tolerate b t). apply emits_ret. by repeat constructor.
  - intros [verdict b'] d2 H2. apply emits_ret. rewrite app_nil_r.
    split; [by apply Forall_app|]. destruct verdict; [|done]. by intros x [= <-].
Qed.

Lemma receive_accounts l end_ started last pcm ttfa :
  accounts (receive env l end_ started last pcm ttfa) (λ _ c, c = acc_none).
Proof.
  revert last pcm ttfa. induction l as [|f l IH]; intros last pcm ttfa; cbn [receive]; idle_step; [by apply accounts_ret|].
  destruct (negb _); [by apply accounts_ret|].
  apply accounts_skip_prog.
  { destruct (_ && _); [|by apply accounts_ret]. apply accounts_skip_prog; [apply now_accounts|].
    intros. by apply accounts_ret. }
  intros ttfa'. cbv zeta. destruct (Last f); [by apply accounts_ret|apply IH].
Qed.

Lemma synthesize_on_accounts req voice addr :
  accounts (synthesize_on env req voice addr) (λ _ c, c = acc_none).
Proof.
  unfold synthesize_on. apply accounts_skip_prog; [apply now_accounts|]. intros started.
  idle_step. destruct a as [s|e]; [apply receive_accounts|by apply accounts_ret].
Qed.

(** Every slot taken is given back, whatever the worker does. *)
Lemma withWorker_accounts {A} n cl (fn : string → Prog event (res A)) lastErr :
  (∀ addr, accounts (fn addr) (λ _ c, c = acc_none)) →
  accounts (withWorker env n cl fn lastErr) (λ _ c, ∃ k, c = acc_slots k ∧ 0 ≤ k ≤ Z.of_nat n).
Proof.
  intros Hfn. revert lastErr. induction n as [|n IH]; intros lastErr; cbn [withWorker].
  { apply accounts_ret. exists 0. split; [done|lia]. }
  unfold Reserve. apply accounts_ask. intros [addr|e].
  2:{ apply accounts_ret. exists 0. split; [done|lia]. }
  apply accounts_skip_prog; [apply Hfn|]. intros r. unfold release. apply accounts_call. intros _.
  assert (∀ k, 0 ≤ k ≤ Z.of_nat n → ∃ k',
    acc_add (account_of [EReserve cl (Ok addr)]) (acc_add (account_of [ERelease]) (acc_slots k)) = acc_slots k' ∧
    0 ≤ k' ≤ Z.of_nat (S n)) as Hadd.
  { intros k Hk. exists (1 + k). split; [done|lia]. }
  destruct r as [a|err]; [apply accounts_ret, (Hadd 0); lia|].
  destruct (negb _); [apply accounts_ret, (Hadd 0); lia|].
  apply accounts_skip_prog; [apply sleepCtx_accounts|]. intros [e|]; [apply accounts_ret, (Hadd 0); lia|].
  eapply accounts_mono; [apply IH|]. intros _ c (k & -> & Hk). by apply Hadd.
Qed.

Lemma bill_accounts req key voice dur ttfa hit status :
  accounts (billWithTTFA env req key voice dur ttfa hit status) (λ _ c, ∃ u,
    c = acc_bill (if String.eqb status "ok" then [(rq_TenantID req, Chars req)] else []) u ∧
    u_Status u = status ∧ Mode u = "sync" ∧ u_TenantID u = rq_TenantID req ∧ u_Chars u = Chars req ∧
    u_DurationMS u = dur ∧ Cached u = hit).
Proof.
  unfold billWithTTFA, meter_Record. destruct (String.eqb status "ok").
  - apply accounts_call. intros _. apply emits_call. intros _. by eexists.
  - apply accounts_skip_prog; [by apply accounts_ret|]. intros _. apply emits_call. intros _. by eexists.
Qed.

Lemma cache_Store_accounts key pcm dur :
  accounts (cache_Store env key pcm dur) (λ _ c, c = acc_store pcm).
Proof. by apply emits_call. Qed.

Lemma supported_positive rate : supportedRate rate = true → 0 < rate.
Proof.
  unfold supportedRate. rewrite List.existsb_exists. intros (x & Hin & Heq). zbool. subst x.
  destruct Hin as [<-|[<-|[<-|[<-|[]]]]]; lia.
Qed.

(** The only audio that cannot be wrapped is too large for the container. *)
Lemma wrap_audio_error pcm rate e :
  0 < rate → wrap_audio pcm rate = Err e → MaxUint32 - HeaderSize < go_len pcm.
Proof.
  intros Hr. unfold wrap_audio, PCMSize.
  assert (0 ≤ go_len pcm) by (unfold go_len; lia). rewrite (proj2 (Z.ltb_ge _ _)) by lia.
  destruct (Z.ltb_spec (MaxUint32 - HeaderSize) (go_len pcm)); [done|].
  assert (uint 32 (go_len pcm) = go_len pcm) as ->.
  { unfold uint. apply Z.mod_small. unfold MaxUint32, HeaderSize in *. change (2 ^ 32) with 4294967296. lia. }
  unfold WriteHeader. rewrite (proj2 (Z.leb_gt _ _)) by lia.
  destruct (_ =? UnknownSize); [done|]. rewrite (proj2 (Z.ltb_ge _ _)) by lia. done.
Qed.

(** What a synthesis amounts to when it gives audio. *)
Definition billed (req : Request) (res : Result) (c : account) : Prop :=
  ∃ u, ac_quotas c = [(rq_TenantID req, Chars req)] ∧ ac_meters c = [u] ∧ u_Status u = "ok" ∧
    Mode u = "sync" ∧ u_TenantID u = rq_TenantID req ∧ u_Chars u = Chars req ∧
    u_DurationMS u = r_DurationMS res ∧ Cached u = CacheHit res ∧ CharsBilled res = Chars req.

(** And when it does not. *)
Definition unbilled (c : account) : Prop :=
  ac_quotas c = [] ∧ ac_stored c = [] ∧ (ac_meters c = [] ∨
    ∃ u, ac_meters c = [u] ∧ u_Status u = "error" ∧ (Mode u = "sync" ∨ Mode u = "stream")).

(** Or when the audio it has stored and billed is too large for the container. *)
Definition oversized (req : Request) (c : account) : Prop :=
  ∃ pcm u, ac_stored c = [pcm] ∧ MaxUint32 - HeaderSize < go_len pcm ∧
    ac_quotas c = [(rq_TenantID req, Chars req)] ∧ ac_meters c = [u] ∧ u_Status u = "ok" ∧
    Mode u = "sync" ∧ u_TenantID u = rq_TenantID req ∧ u_Chars u = Chars req.

Lemma fromCache_accounts req key voice :
  accounts (fromCache env req key voice) (λ r c, match r with
    | None => c = acc_none
    | Some res => billed req res c ∧ CacheHit res = true ∧ ac_stored c = [] ∧ ac_slots c = 0 ∧ ac_held c = 0
    end).
Proof.
  unfold fromCache. idle_step. destruct a as [[entry body]|e]; [|by apply accounts_ret]. idle_step.
  destruct (ReadAll body) as [pcm|e]; [|by apply accounts_ret].
  destruct (wrap_audio pcm _) as [wav|e]; [|by apply accounts_ret].
  eapply accounts_bind; [apply bill_accounts|]. intros _ c (u & -> & H1 & H2 & H3 & H4 & H5 & H6).
  apply accounts_ret. rewrite acc_add_none_r. split_and!; try done. by exists u.
Qed.

Lemma fromWorker_accounts req key voice :
  supportedRate (rq_SampleRate req) = true →
  accounts (fromWorker env req key voice) (λ r c, ac_held c = 0 ∧ 0 ≤ ac_slots c ≤ 3 ∧
    match r with
    | Ok res => billed req res c ∧ CacheHit res = false ∧
                (∃ pcm, ac_stored c = [pcm] ∧ wrap_audio pcm (rq_SampleRate req) = Ok (Audio res))
    | Err _ => unbilled c ∨ oversized req c
    end).
Proof.
  intros Hrate. unfold fromWorker.
  eapply accounts_bind; [apply withWorker_accounts; intros; apply synthesize_on_accounts|].
  intros r c (k & -> & Hk). change (Z.of_nat workerAttempts) with 3 in Hk.
  destruct r as [[pcm ttfa]|err].
  - eapply accounts_bind; [apply cache_Store_accounts|]. intros _ c ->.
    eapply accounts_bind; [apply bill_accounts|]. intros _ c (u & -> & H1 & H2 & H3 & H4 & H5 & H6).
    apply accounts_ret. rewrite acc_add_none_r. cbn. split_and!; [done|lia|lia|].
    destruct (wrap_audio pcm (rq_SampleRate req)) as [wav|e] eqn:Hwrap; cbn.
    + split_and!; [by exists u|done|by exists pcm].
    + right. exists pcm, u. split_and!; try done. eapply wrap_audio_error; [by apply supported_positive|done].
  - eapply accounts_bind; [apply bill_accounts|]. intros _ c (u & -> & H1 & H2 & _).
    apply accounts_ret. rewrite acc_add_none_r. cbn. split_and!; [done|lia|lia|].
    left. split_and!; [done|done|]. right. exists u. auto.
Qed.

Lemma Validate_fields req r :
  Validate req = Ok r → rq_TenantID r = rq_TenantID req ∧ Chars r = Chars req ∧
    supportedRate (rq_SampleRate r) = true.
Proof.
  unfold Validate. intros H. repeat (case_match; try discriminate); injection H as <-;
    (split_and!; [done|done|by apply negb_false_iff]).
Qed.
End accounts.

(** ** Properties *)

(** A refused admission is the answer, and costs its checks only. *)
Lemma refused_admission {A} env b req planID (k : res (Request * Voice) * Breaker → Prog event (res A * Breaker)) e :
  (∀ b', k (Err e, b') = pret (Err e, b')) →
  (presult (admission env b req planID)).1 = Err e →
  (presult (pbind (admission env b req planID) k)).1 = Err e ∧
  Forall (λ e, is_check e = true) (ptrace (pbind (admission env b req planID) k)).
Proof.
  intros Hk. pose proof (emits_run _ _ (admission_checks env b req planID)) as [Hchk _].
  unfold presult, ptrace, prun, pbind in *.
  destruct (admission env b req planID []) as [[r b'] d]. cbn in *. intros ->. by rewrite Hk.
Qed.

(** What a whole synthesis amounts to. *)
Definition synthesized (req : Request) (r : res Result) (c : account) : Prop :=
  match r with
  | Ok res => billed req res c ∧
      (if CacheHit res then ac_stored c = []
       else ∃ pcm rate, ac_stored c = [pcm] ∧ wrap_audio pcm rate = Ok (Audio res))
  | Err _ => unbilled c ∨ oversized req c
  end.

Lemma Synthesize_accounts env b req planID :
  accounts (Synthesize env b req planID) (λ r c,
    ac_held c = 0 ∧ 0 ≤ ac_slots c ≤ 3 ∧ synthesized req r.1 c).
Proof.
  unfold Synthesize.
  apply (accounts_bind _ _ (λ r c, c = acc_none ∧ ∀ x, r.1 = Ok x → Validate req = Ok x.1)).
  { eapply emits_mono; [apply admission_checks|]. intros r d [Hd Hr]. split; [by apply account_check|done]. }
  intros [[[req' voice]|e] b'] c [-> Hval]; cbn [fst] in Hval.
  2:{ apply accounts_ret. split_and!; [done|cbn; lia|cbn; lia|]. left. split_and!; try done. by left. }
  destruct (Validate_fields req req' (Hval _ eq_refl)) as (Ht & Hc & Hrate).
  assert (∀ res c, billed req' res c → billed req res c) as Hbilled
    by (intros res c (u & H); exists u; by rewrite Ht, Hc in H).
  eapply accounts_bind; [apply fromCache_accounts|]. intros [res|] c Hhit.
  - destruct Hhit as (Hb & Hh & Hs & Hk & Hheld). apply accounts_ret. cbv beta.
    rewrite acc_add_none_l, acc_add_none_r. split_and!; [done|lia|lia|]. cbn. rewrite Hh. auto.
  - subst c. eapply accounts_bind; [by apply fromWorker_accounts|].
    intros r c (Hheld & Hk & Hr). apply accounts_ret. cbv beta.
    rewrite !acc_add_none_l, acc_add_none_r.
    split_and!; [done|lia|lia|]. cbn. destruct r as [res|e].
    2:{ destruct Hr as [Hr|Hr]; [by left|right]. unfold oversized. by rewrite <-Ht, <-Hc. }
    destruct Hr as (Hb & Hh & pcm & Hs & Hw).
    cbn. rewrite Hh. split; [by apply Hbilled|]. by exists pcm, (rq_SampleRate req').
Qed.

(** C1. What a synthesis costs, whatever its ports answer. Every worker slot
    taken is given back and at most three are taken. A request that validation,
    the catalogue, the plan or the quota refuses gets that refusal and costs
    nothing more: only those were consulted. Audio is billed exactly once, the
    request's characters against the tenant's allowance and one metered request;
    a failure takes nothing from the allowance, stores nothing, and is metered as
    an error at most once. The one exception is audio too large for the container,
    which has been stored and billed when it is refused. *)
Theorem synthesize_accounting env b req planID :
  let r := (presult (Synthesize env b req planID)).1 in
  let tr := ptrace (Synthesize env b req planID) in
  (reserved tr = released tr ∧ 0 ≤ reserved tr ≤ 3) ∧
  (∀ e, (presult (admission env b req planID)).1 = Err e → r = Err e ∧ Forall (λ e, is_check e = true) tr) ∧
  synthesized req r (account_of tr).
Proof.
  cbv zeta. pose proof (emits_run _ _ (Synthesize_accounts env b req planID)) as (H1 & H2 & H3).
  cbn in H1, H2. split; [lia|]. split; [|done]. intros e. by apply refused_admission.
Qed.

(** ** What a stream amounts to *)

Lemma flatten_app l1 l2 : flatten (l1 ++ l2) = flatten l1 +:+ flatten l2.
Proof. induction l1 as [|x l1 IH]; simpl; [done|]. by rewrite IH, str_app_assoc. Qed.

(** A stream is billed once, for what it says it billed. *)
Definition stream_billed (req : Request) (res : StreamResult) (c : account) : Prop :=
  ∃ u, ac_quotas c = [(rq_TenantID req, sr_CharsBilled res)] ∧ ac_meters c = [u] ∧
    u_Status u = (if Cancelled res then "client_cancelled" else "ok") ∧ Mode u = "stream" ∧
    u_TenantID u = rq_TenantID req ∧ u_Chars u = sr_CharsBilled res ∧
    u_DurationMS u = sr_DurationMS res ∧ Cached u = sr_CacheHit res.

(** The slots, leases and stores of a stream's inner part. *)
Definition quiet_account (c : account) : Prop :=
  ac_stored c = [] ∧ ac_slots c = 0 ∧ ac_held c = 0 ∧ ac_leases c = 0.

Lemma quiet_add a b : quiet_account a → quiet_account b → quiet_account (acc_add a b).
Proof.
  intros (E1 & E2 & E3 & E4) (F1 & F2 & F3 & F4). unfold quiet_account, acc_add. cbn.
  rewrite E1, E2, E3, E4, F1, F2, F3, F4. done.
Qed.

(** [x], then [c]: a chunk sent, or nothing, before what [c] says. *)
Definition acc_chunks_only (l : list string) : account := {|
  ac_quotas := []; ac_meters := []; ac_stored := []; ac_chunks := l; ac_slots := 0; ac_held := 0; ac_leases := 0 |}.

Section stream_accounts.
Variable env : Env.

Lemma meterStream_accounts req key voice res status :
  accounts (meterStream env req key voice res status) (λ _ c, ∃ u,
    c = acc_bill (if String.eqb status "ok" || String.eqb status "client_cancelled"
                  then [(rq_TenantID req, sr_CharsBilled res)] else []) u ∧
    u_Status u = status ∧ Mode u = "stream" ∧ u_TenantID u = rq_TenantID req ∧
    u_Chars u = sr_CharsBilled res ∧ u_DurationMS u = sr_DurationMS res ∧ Cached u = sr_CacheHit res).
Proof.
  unfold meterStream, meter_Record. destruct (_ || _).
  - apply accounts_call. intros _. apply emits_call. intros _. by eexists.
  - apply accounts_skip_prog; [by apply accounts_ret|]. intros _. apply emits_call. intros _. by eexists.
Qed.

(** What a relay that ended early amounts to. *)
Definition ended (req : Request) (r : res StreamResult) (c : account) : Prop :=
  match r with
  | Ok res => stream_billed req res c ∧ Cancelled res = true ∧ sr_CacheHit res = false ∧
              sr_CharsBilled res ≤ Chars req
  | Err _ => unbilled c
  end.

(** A cut stream never bills more than the whole text. *)
Lemma cancelledResult_bounded n req ttfaMS : sr_CharsBilled (cancelledResult n req ttfaMS) ≤ Chars req.
Proof.
  unfold cancelledResult. cbv zeta. cbn [sr_CharsBilled]. generalize (f64_trunc (f64_mul (f64_div
    (f64_of_Z (DurationMS n (rq_SampleRate req))) (f64_of_Z 1000)) charsPerAudioSecond)) as d.
  intros d. destruct (Z.ltb_spec (Chars req) d); lia.
Qed.

Lemma ended_add req r c c' :
  ac_quotas c = [] → ac_meters c = [] → ac_stored c = [] → ended req r c' → ended req r (acc_add c c').
Proof.
  intros E1 E2 E3. unfold ended, stream_billed, unbilled, acc_add. cbn. by rewrite E1, E2, E3.
Qed.

Lemma cancelled_accounts req key voice s :
  accounts (cancelled env req key voice s) (λ r c, quiet_account c ∧ ac_chunks c = [] ∧ ended req r c).
Proof.
  unfold cancelled. eapply accounts_bind; [apply meterStream_accounts|].
  intros _ c (u & -> & H1 & H2 & H3 & H4 & H5 & H6). apply accounts_ret. rewrite acc_add_none_r.
  split_and!; [done|done|]. split_and!; [by exists u|done|done|]. apply cancelledResult_bounded.
Qed.

Lemma broken_accounts req key voice err :
  accounts (broken env req key voice err) (λ r c, quiet_account c ∧ ac_chunks c = [] ∧ r = Err err ∧ unbilled c).
Proof.
  unfold broken. eapply accounts_bind; [apply meterStream_accounts|].
  intros _ c (u & -> & H1 & H2 & _). apply accounts_ret. rewrite acc_add_none_r.
  split_and!; [done|done|done|]. split_and!; [done|done|]. right. exists u. auto.
Qed.

(** What a step of the relay amounts to, from a state that has teed [pre]. *)
Definition relayed (req : Request) (pre : string) (r : relay_state + res StreamResult) (c : account) : Prop :=
  quiet_account c ∧
  match r with
  | inl s => ac_quotas c = [] ∧ ac_meters c = [] ∧ teed s = pre +:+ flatten (ac_chunks c)
  | inr r => ended req r c
  end.

Lemma deliver_accounts req key voice started f s :
  accounts (deliver env req key voice started f s) (relayed req (teed s)).
Proof.
  unfold deliver. destruct (negb _).
  { apply accounts_ret. split_and!; try done. cbn. by rewrite str_app_nil_r. }
  apply accounts_skip_prog.
  { destruct (headerWritten s); [by apply accounts_ret|]. by apply emits_call. }
  intros [err|]; [apply accounts_ret; split; [done|]; split_and!; [done|done|by left]|].
  apply accounts_skip_prog.
  { destruct (_ =? 0); [|by apply accounts_ret]. apply accounts_skip_prog; [apply now_accounts|].
    intros. by apply accounts_ret. }
  intros ttfa. cbv zeta. unfold sink_Chunk. apply accounts_call. intros [e|].
  - eapply accounts_bind; [apply cancelled_accounts|]. intros r c (Hq & Hch & He). apply accounts_ret.
    rewrite acc_add_none_r. split; [by apply quiet_add|]. destruct c. cbn in *. done.
  - apply accounts_ret. split_and!; try done. cbn. by rewrite str_app_nil_r.
Qed.

Lemma renew_accounts s : accounts (renew env s) (λ s' c, c = acc_none ∧ teed s' = teed s).
Proof.
  unfold renew, now. idle_step. destruct (_ <? _); [|by apply accounts_ret].
  idle_step. idle_step. by apply accounts_ret.
Qed.

Lemma relay_accounts req key voice started f l end_ s :
  accounts (relay env req key voice started f l end_ s) (relayed req (teed s)).
Proof.
  revert f s. induction l as [|f' l IH]; intros f s; cbn [relay].
  all: destruct (negb _);
    [eapply accounts_bind; [apply broken_accounts|]; intros r c (Hq & Hch & -> & Hu); apply accounts_ret;
     rewrite acc_add_none_r; by split|].
  all: cbv zeta; eapply accounts_bind; [apply deliver_accounts|]; cbn [teed];
    intros [s1|r] c [Hq Hr]; [|apply accounts_ret; rewrite acc_add_none_r; by split];
    destruct Hr as (Hr1 & Hr2 & Hteed);
    eapply accounts_bind; [apply renew_accounts|]; intros s2 c2 [-> Hs2];
    destruct (Last f); [apply accounts_ret; rewrite !acc_add_none_r; split_and!; try done; congruence|];
    idle_step.
  - destruct end_ as [err|]; [|apply accounts_ret; rewrite !acc_add_none_r; split_and!; try done; congruence].
    idle_step. eapply (accounts_bind _ _ (λ r c, quiet_account c ∧ ac_chunks c = [] ∧ ended req r c)).
    + destruct a0; [apply cancelled_accounts|].
      eapply accounts_mono; [apply broken_accounts|]. intros r c3 (H1 & H2 & -> & H3). done.
    + intros r c3 (H1 & H2 & H3). apply accounts_ret. cbv beta. rewrite acc_add_none_l, acc_add_none_r.
      split; [by apply quiet_add|]. apply ended_add; [done|done|apply Hq|done].
  - eapply accounts_mono; [apply IH|]. intros r c3 [H1 H2]. cbv beta. rewrite acc_add_none_l.
    split; [by apply quiet_add|]. destruct r as [s3|r].
    + destruct H2 as (E1 & E2 & E3). cbn. rewrite Hr1, Hr2, E1, E2, E3, Hs2, Hteed, flatten_app.
      by rewrite str_app_assoc.
    + apply ended_add; [done|done|apply Hq|done].
Qed.

(** Slots taken, and how many of them are still held. *)
Definition acc_open (k h : Z) : account := {|
  ac_quotas := []; ac_meters := []; ac_stored := []; ac_chunks := []; ac_slots := k; ac_held := h; ac_leases := 0 |}.

(** An opened stream holds its slot; any other outcome holds none. *)
Lemma openStream_accounts n req voice lastErr :
  accounts (openStream env n req voice lastErr) (λ r c, ∃ k, 0 ≤ k ≤ Z.of_nat n ∧
    c = acc_open k (if is_Ok r then 1 else 0)).
Proof.
  revert lastErr. induction n as [|n IH]; intros lastErr; cbn [openStream].
  { apply accounts_ret. exists 0. split; [lia|done]. }
  unfold Reserve. apply accounts_ask. intros [addr|e].
  2:{ apply accounts_ret. exists 0. split; [lia|done]. }
  apply accounts_skip_prog; [apply now_accounts|]. intros started. idle_step.
  apply accounts_skip_prog.
  { destruct a as [st|e]; [|by apply accounts_ret]. idle_step. by apply accounts_ret. }
  intros [o|err]; [apply accounts_ret; exists 1; split; [lia|done]|].
  unfold release. apply accounts_call. intros _.
  assert (∀ r k, 0 ≤ k ≤ Z.of_nat n → ∃ k', 0 ≤ k' ≤ Z.of_nat (S n) ∧
    acc_add (account_of [EReserve ClassStream (Ok addr)]) (acc_add (account_of [ERelease]) (acc_open k r)) = acc_open k' r) as Hadd.
  { intros r k Hk. exists (1 + k). split; [lia|]. unfold acc_add, acc_open. cbn. f_equal; lia. }
  destruct (negb _); [apply accounts_ret, (Hadd 0 0); lia|].
  apply accounts_skip_prog; [apply sleepCtx_accounts|]. intros [e|]; [apply accounts_ret, (Hadd 0 0); lia|].
  eapply accounts_mono; [apply IH|]. intros r c (k & Hk & ->). by apply Hadd.
Qed.

(** What a stream that reached the cache or the fleet amounts to. *)
Definition streamed (req : Request) (r : res StreamResult) (c : account) : Prop :=
  match r with
  | Ok res => stream_billed req res c ∧ sr_CharsBilled res ≤ Chars req ∧
      (if Cancelled res then sr_CacheHit res = false ∧ ac_stored c = []
       else sr_CharsBilled res = Chars req ∧
            ac_stored c = if sr_CacheHit res then [] else [flatten (ac_chunks c)])
  | Err _ => unbilled c
  end.

Lemma streamFromWorker_accounts req key voice :
  accounts (streamFromWorker env req key voice) (λ r c,
    ac_held c = 0 ∧ ac_leases c = 0 ∧ 0 ≤ ac_slots c ≤ 3 ∧ streamed req r c ∧
    match r with Ok res => sr_CacheHit res = false | Err _ => True end).
Proof.
  unfold streamFromWorker. eapply accounts_bind; [apply openStream_accounts|].
  intros [o|err] c (k & Hk & ->); change (Z.of_nat workerAttempts) with 3 in Hk; cbn [is_Ok].
  2:{ apply accounts_ret. rewrite acc_add_none_r. split_and!; [done|done|cbn; lia|cbn; lia| |done].
      split_and!; [done|done|by left]. }
  apply accounts_skip_prog; [apply now_accounts|]. intros renewed.
  eapply accounts_bind; [apply relay_accounts|]. cbn [teed]. intros r c [(Q1 & Q2 & Q3 & Q4) Hr].
  apply (accounts_bind _ _ (λ r c', ac_slots c' = 0 ∧ ac_held c' = 0 ∧ ac_leases c' = 0 ∧
    streamed req r (acc_add c c') ∧ match r with Ok res => sr_CacheHit res = false | Err _ => True end)).
  - destruct r as [st|r].
    + destruct Hr as (Hr1 & Hr2 & Hteed). cbv zeta.
      eapply accounts_bind; [apply cache_Store_accounts|]. intros _ c1 ->.
      eapply accounts_bind; [apply meterStream_accounts|]. intros _ c2 (u & -> & Hu). apply accounts_ret.
      cbv beta. rewrite acc_add_none_r. split_and!; try done.
      unfold streamed, stream_billed. cbn. rewrite Hr1, Hr2, Q1, app_nil_r.
      split_and!; [by exists u|lia|done|]. by rewrite Hteed.
    + apply accounts_ret. cbv beta. rewrite acc_add_none_r. destruct r as [res|e]; [|done].
      destruct Hr as (Hb & Hc & Hh & Hle). split_and!; try done. cbn. by rewrite Hc.
  - intros r' c' (E1 & E2 & E3 & Hst & Hhit). unfold release. apply accounts_call. intros _. apply accounts_ret.
    cbv beta. assert (acc_add (acc_open k 1) (acc_add c (acc_add c' (acc_add (account_of [ERelease]) acc_none)))
      = acc_add (acc_open k 0) (acc_add c c')) as ->.
    { destruct c, c'. unfold acc_add, acc_open. cbn in *. rewrite !app_nil_r. f_equal; lia. }
    cbn [ac_held ac_leases ac_slots acc_add acc_open]. rewrite Q2, Q3, Q4, E1, E2, E3.
    split_and!; [done|done|lia|lia|done|done].
Qed.

Lemma replay_accounts l :
  accounts (replay env l) (λ _ c, quiet_account c ∧ ac_quotas c = [] ∧ ac_meters c = []).
Proof.
  induction l as [|p l IH]; cbn [replay]; idle_step; [by apply accounts_ret|].
  eapply (accounts_bind _ _ (λ _ c, quiet_account c ∧ ac_quotas c = [] ∧ ac_meters c = [])).
  { destruct (_ <? _); [by apply emits_call|by apply accounts_ret]. }
  intros [e|] c Hc; [apply accounts_ret; by rewrite acc_add_none_r|].
  eapply accounts_mono; [apply IH|]. intros r c' (H1 & H2 & H3). destruct Hc as (C1 & C2 & C3).
  split; [by apply quiet_add|]. unfold acc_add. cbn. by rewrite C2, C3.
Qed.

Lemma streamFromCache_accounts req key :
  accounts (streamFromCache env req key) (λ r c,
    quiet_account c ∧ ac_quotas c = [] ∧ ac_meters c = [] ∧
    match r with
    | None => c = acc_none
    | Some res => sr_CharsBilled res = Chars req ∧ sr_CacheHit res = negb (Cancelled res)
    end).
Proof.
  unfold streamFromCache. idle_step. destruct a as [[entry body]|e]; [|by apply accounts_ret].
  unfold sink_Header. idle_step. destruct a as [e|]; [by apply accounts_ret|].
  apply accounts_skip_prog; [apply now_accounts|]. intros started.
  eapply accounts_bind; [apply replay_accounts|]. intros finished c (Hq & H1 & H2).
  destruct finished; cbn [negb].
  - eapply accounts_mono; [apply (accounts_skip_prog _ _ (λ r c, c = acc_none ∧ match r with
      | None => False | Some res => sr_CharsBilled res = Chars req ∧ sr_CacheHit res = negb (Cancelled res) end))|].
    + apply now_accounts.
    + intros t. by apply accounts_ret.
    + intros r c' [-> Hr]. cbv beta. rewrite acc_add_none_r. by destruct r.
  - apply accounts_ret. cbv beta. by rewrite acc_add_none_r.
Qed.

Lemma Stream_accounts b req planID limit :
  accounts (Stream env b req planID limit) (λ r c,
    ac_held c = 0 ∧ ac_leases c = 0 ∧ 0 ≤ ac_slots c ≤ 3 ∧ streamed req r.1 c).
Proof.
  unfold Stream.
  apply (accounts_bind _ _ (λ r c, c = acc_none ∧ ∀ x, r.1 = Ok x → Validate req = Ok x.1)).
  { eapply emits_mono; [apply admission_checks|]. intros r d [Hd Hr]. split; [by apply account_check|done]. }
  assert (∀ e b' c, c = acc_none → ac_held c = 0 ∧ ac_leases c = 0 ∧ 0 ≤ ac_slots c ≤ 3 ∧
    streamed req ((Err e, b') : res StreamResult * Breaker).1 c) as Hrefused.
  { intros e b' c ->. split_and!; [done|done|cbn; lia|cbn; lia|]. split_and!; [done|done|by left]. }
  intros [[[req' voice]|e] b'] c [-> Hval]; cbn [fst] in Hval; [|by apply accounts_ret, Hrefused].
  destruct (Validate_fields req req' (Hval _ eq_refl)) as (Ht & Hc & _).
  assert (∀ r c, streamed req' r c → streamed req r c) as Hstreamed.
  { intros [res|e] c; [|done]. unfold streamed, stream_billed. by rewrite Ht, Hc. }
  apply accounts_ask. intros [[]|e]; [|by apply accounts_ret, Hrefused|by apply accounts_ret, Hrefused].
  cbv zeta. eapply accounts_bind; [apply streamFromCache_accounts|]. intros hit c ((Q1 & Q2 & Q3 & Q4) & C1 & C2 & Hhit).
  apply (accounts_bind _ _ (λ r c', ac_held c' = 0 ∧ ac_leases c' = 0 ∧ 0 ≤ ac_slots c' ≤ 3 ∧
    streamed req' r (acc_add c c'))).
  - destruct hit as [res|].
    + destruct Hhit as [Hch Hh]. eapply accounts_bind; [apply meterStream_accounts|].
      intros _ c' (u & -> & Hu). apply accounts_ret. cbv beta. rewrite acc_add_none_r.
      split_and!; try done. unfold streamed, stream_billed. cbn. rewrite Q1, C1, C2, Hh, Hch.
      destruct (Cancelled res) eqn:Hcan; cbn; (split_and!; [|lia|done|done]).
      all: exists u; rewrite Hch, Hh in Hu; by split_and!; try apply Hu.
    + subst c. eapply accounts_mono; [apply streamFromWorker_accounts|].
      intros r c' (H1 & H2 & H3 & H4 & _). rewrite acc_add_none_l. done.
  - intros r c' (E1 & E2 & E3 & Hst). apply accounts_call. intros _. apply accounts_ret. cbv beta.
    match goal with |- context [acc_add (account_of [?e]) (acc_add c (acc_add c' ?x))] =>
      assert (acc_add acc_none (acc_add (account_of [e]) (acc_add c (acc_add c' x))) = acc_add c c') as -> end.
    { destruct c, c'. unfold acc_add. cbn in *. rewrite !app_nil_r. f_equal; lia. }
    cbn [fst]. split_and!; [cbn; lia|cbn; lia|cbn; lia|cbn; lia|by apply Hstreamed].
Qed.
End stream_accounts.

(** C2. What a stream costs, whatever its ports answer and whenever the client
    goes. The tenant's lease is given back whenever it was granted and so is every
    worker slot, of which at most three are taken; a refused admission is the
    answer and costs its checks only. A stream that ends well or is cut short is
    billed once, what its result says: never more than the text, and exactly the
    text unless it was cut; only a finished one is stored in the cache, and what
    is stored is what the client was sent. A failure takes nothing from the
    allowance, stores nothing, and is metered as an error at most once. *)
Theorem stream_accounting env b req planID limit :
  let r := (presult (Stream env b req planID limit)).1 in
  let tr := ptrace (Stream env b req planID limit) in
  (reserved tr = released tr ∧ 0 ≤ reserved tr ≤ 3 ∧ leased tr = unleased tr) ∧
  (∀ e, (presult (admission env b req planID)).1 = Err e → r = Err e ∧ Forall (λ e, is_check e = true) tr) ∧
  streamed req r (account_of tr).
Proof.
  cbv zeta. pose proof (emits_run _ _ (Stream_accounts env b req planID limit)) as (H1 & H2 & H3 & H4).
  cbn in H1, H2, H3. split; [lia|]. split; [|done]. intros e. by apply refused_admission.
Qed.
