(* ===== verification/Billing.v ===== *)
(** * From a request to the monthly total

    [synth/meterport.go], and the components a billed character goes through:
    the synthesis services ([Synth.v]), the meter and the request log
    ([Usage.v]), the quota counter and its reconciliation ([Quota.v]). What the
    counter is charged at once and what the log says later are the same. *)

From Stdlib Require Import Ascii.
From stdpp Require Import base gmap strings pretty numbers sorting list.
From S2P Require Import Prelude GoString Float Calendar Quota Cache Degrade Dispatch Voices Account Synth Usage.

(** [MeterAdapter.Record]: the record the meter is given. *)
Definition to_metered (u : Synth.Usage) : Metered := {|
  m_ID := uuid_Nil; m_TenantID := u_TenantID u; m_KeyID := u_KeyID u; m_VoiceID := u_VoiceID u;
  m_CacheKey := u_CacheKey u; m_Mode := Mode u; m_Chars := u_Chars u; m_DurationMS := u_DurationMS u;
  m_TTFAMS := TTFAMS u; m_Cached := Cached u; m_Status := u_Status u; m_ErrorCode := ""; m_CreatedAt := zero_time;
|}.
Definition MeterAdapter_Record (fresh : string) (now : Z) (u : Synth.Usage) (m : Meter) : Meter :=
  Record_ fresh now (to_metered u) m.

(** ** What requests are charged *)

(** One request served, by either service. *)
Inductive served : Type :=
  | ServedSync (env : Env) (b : Breaker) (req : Request) (planID : string)
  | ServedStream (env : Env) (b : Breaker) (req : Request) (planID : string) (streamLimit : Z).

Definition calls_of (s : served) : list event :=
  match s with
  | ServedSync env b req planID => ptrace (Synthesize env b req planID)
  | ServedStream env b req planID limit => ptrace (Stream env b req planID limit)
  end.

(** A metered request the log bills for. *)
Definition charged (u : Synth.Usage) : bool := bool_decide (u_Status u ∈ ["ok"; "client_cancelled"]).
Definition charge_of (u : Synth.Usage) : string * Z := (u_TenantID u, u_Chars u).

(** A metered request the log has a place for. *)
Definition loggable (u : Synth.Usage) : Prop :=
  Mode u ∈ ["sync"; "stream"; "job_segment"] ∧ u_Status u ∈ ["ok"; "client_cancelled"; "error"; "rejected"].

(** The quota is charged for exactly the requests the log bills. *)
Lemma charges_agree s :
  quotas (calls_of s) = charge_of <$> List.filter charged (meters (calls_of s)) ∧
  Forall loggable (meters (calls_of s)).
Proof.
  assert (∀ c, unbilled c → ac_quotas c = charge_of <$> List.filter charged (ac_meters c) ∧ Forall loggable (ac_meters c))
    as Hun.
  { intros c (Hq & _ & Hm). rewrite Hq. destruct Hm as [->|(u & -> & Hs & Hmode)]; [done|]. split.
    - cbn [List.filter]. unfold charged. rewrite Hs. by rewrite bool_decide_false by set_solver.
    - apply Forall_singleton. split; [destruct Hmode as [->| ->]; set_solver|rewrite Hs; set_solver]. }
  assert (∀ c t n u, ac_quotas c = [(t, n)] → ac_meters c = [u] → u_Status u ∈ ["ok"; "client_cancelled"] →
    Mode u ∈ ["sync"; "stream"; "job_segment"] → u_TenantID u = t → u_Chars u = n →
    ac_quotas c = charge_of <$> List.filter charged (ac_meters c) ∧ Forall loggable (ac_meters c)) as Hone.
  { intros c t n u -> -> Hs Hm <- <-. split.
    - cbn [List.filter]. unfold charged. by rewrite bool_decide_true.
    - apply Forall_singleton. split; [done|]. set_solver. }
  destruct s as [env b req planID|env b req planID limit]; cbn [calls_of].
  - pose proof (emits_run _ _ (Synthesize_accounts env b req planID)) as (_ & _ & H).
    change (quotas ?d) with (ac_quotas (account_of d)). change (meters ?d) with (ac_meters (account_of d)).
    revert H. generalize (account_of (ptrace (Synthesize env b req planID))).
    destruct (presult (Synthesize env b req planID)).1 as [res|e]; intros c H.
    + destruct H as [(u & Hq & Hm & Hs & Hmode & Ht & Hc & _) _].
      apply (Hone c _ _ u Hq Hm); [rewrite Hs; set_solver|rewrite Hmode; set_solver|done|done].
    + destruct H as [H|(pcm & u & _ & _ & Hq & Hm & Hs & Hmode & Ht & Hc)]; [by apply Hun|].
      apply (Hone c _ _ u Hq Hm); [rewrite Hs; set_solver|rewrite Hmode; set_solver|done|done].
  - pose proof (emits_run _ _ (Stream_accounts env b req planID limit)) as (_ & _ & _ & H).
    change (quotas ?d) with (ac_quotas (account_of d)). change (meters ?d) with (ac_meters (account_of d)).
    revert H. generalize (account_of (ptrace (Stream env b req planID limit))).
    destruct (presult (Stream env b req planID limit)).1 as [res|e]; intros c H; [|by apply Hun].
    destruct H as [(u & Hq & Hm & Hs & Hmode & Ht & Hc & _) _].
    apply (Hone c _ _ u Hq Hm); [rewrite Hs; by destruct (Cancelled res); set_solver|rewrite Hmode; set_solver|done|done].
Qed.

(** ** The log after a run of the meter *)

Lemma zsum_filter {A} (c : A → bool) (f : A → Z) l :
  zsum f (List.filter c l) = zsum (λ x, if c x then f x else 0) l.
Proof.
  induction l as [|x l IH]; [done|]. cbn [List.filter zsum foldr]. unfold zsum in *.
  destruct (c x); cbn [foldr]; rewrite <-IH; lia.
Qed.

(** What one row adds to a tenant's bill. *)
Definition row_bill (from to : Z) (tid : string) (p : log_row) : Z :=
  if (from <=? at_time p) && (at_time p <? to) && billable p.2 && String.eqb (rr_TenantID p.2) tid
  then rr_Chars p.2 else 0.

Lemma billed_chars_sum w from to tid :
  billed_chars w from to tid = zsum (row_bill from to tid) (map_to_list (uw_requests w)).
Proof.
  unfold billed_chars, billed_between. rewrite filter_filter, zsum_filter.
  generalize (map_to_list (uw_requests w)). intros l. induction l as [|p l IH]; [done|].
  cbn [zsum foldr]. unfold zsum in *. rewrite IH. f_equal. unfold row_bill.
  by destruct (_ <=? _), (_ <? _), (billable _), (String.eqb _ _).
Qed.

(** The table with new rows. *)
Definition add_rows (recs : list Metered) (m : gmap (string * Z) request_row) : gmap (string * Z) request_row :=
  foldr (λ r m, <[key_of r := row_of r]> m) m recs.

Lemma add_rows_lookup recs m k :
  add_rows recs m !! k =
  match List.find (λ r, bool_decide (key_of r = k)) recs with Some r => Some (row_of r) | None => m !! k end.
Proof.
  induction recs as [|r recs IH]; [done|]. cbn [add_rows foldr List.find]. fold (add_rows recs m).
  case_bool_decide as Hk; [by rewrite Hk, lookup_insert_eq|by rewrite lookup_insert_ne, IH].
Qed.

Lemma grows_add_rows recs w w' :
  grows recs w w' → Forall (in_log w') recs → NoDup (key_of <$> recs) →
  Forall (λ r, uw_requests w !! key_of r = None) recs →
  uw_requests w' = add_rows recs (uw_requests w).
Proof.
  intros [K N _ _] Hin Hnd Hfresh. apply map_eq. intros k. rewrite add_rows_lookup.
  rewrite Forall_forall in Hin, Hfresh.
  destruct (List.find _ recs) as [r|] eqn:Hf.
  - apply List.find_some in Hf as [Hr Hk]. apply list_elem_of_In in Hr. apply bool_decide_eq_true in Hk as <-.
    destruct (Hin r Hr) as [row Hrow]. rewrite Hrow.
    destruct (N _ _ Hrow) as [H|(r' & Hr' & Hk & ->)]; [by rewrite (Hfresh r Hr) in H|].
    apply list_elem_of_lookup in Hr as [i Hi], Hr' as [j Hj].
    assert (i = j) as <-; [|by simplify_eq].
    apply (NoDup_lookup (key_of <$> recs) i j (key_of r)); [done|by rewrite list_lookup_fmap, Hi|].
    by rewrite list_lookup_fmap, Hj, Hk.
  - assert (∀ r, r ∈ recs → key_of r ≠ k) as Hne.
    { intros r Hr%list_elem_of_In Hk. pose proof (List.find_none _ _ Hf r Hr) as Hb. by rewrite bool_decide_eq_false in Hb. }
    destruct (uw_requests w' !! k) as [row|] eqn:Hrow.
    + destruct (N _ _ Hrow) as [H|(r & Hr & -> & _)]; [done|]. by destruct (Hne r Hr).
    + destruct (uw_requests w !! k) as [row|] eqn:Hw; [|done].
      pose proof (lookup_weaken _ _ _ _ Hw K). congruence.
Qed.

Lemma billed_add_rows from to tid recs m :
  NoDup (key_of <$> recs) → Forall (λ r, m !! key_of r = None) recs →
  zsum (row_bill from to tid) (map_to_list (add_rows recs m)) =
  zsum (row_bill from to tid) (map_to_list m) + zsum (λ r, row_bill from to tid (key_of r, row_of r)) recs.
Proof.
  induction recs as [|r recs IH]; intros Hnd Hf; [cbn; lia|].
  cbn [fmap list_fmap] in Hnd. apply NoDup_cons in Hnd as [Hnin Hnd]. apply Forall_cons in Hf as [Hr Hf].
  cbn [add_rows foldr]. fold (add_rows recs m).
  assert (add_rows recs m !! key_of r = None) as Hnone.
  { rewrite add_rows_lookup. destruct (List.find _ recs) as [r'|] eqn:Hfind; [|done].
    apply List.find_some in Hfind as [Hr' Hk]. apply list_elem_of_In in Hr'. apply bool_decide_eq_true in Hk.
    exfalso. apply Hnin. rewrite <-Hk. by apply list_elem_of_fmap_2. }
  rewrite (map_to_list_insert _ _ _ Hnone). cbn [zsum foldr]. unfold zsum in *. rewrite IH by done. lia.
Qed.

(** Nothing was left out. *)
Lemma sublist_full {A} (l1 l2 : list A) : sublist l1 l2 → (length l2 ≤ length l1)%nat → l1 = l2.
Proof.
  induction 1 as [|x l1 l2 Hs IH|x l1 l2 Hs IH]; cbn [length]; intros Hle; [done| |].
  - f_equal. apply IH. lia.
  - apply sublist_length in Hs. lia.
Qed.

(** ** Properties *)

(** The meter may carry the count without altering it. *)
Definition countable (u : Synth.Usage) : Prop := 0 ≤ u_Chars u ≤ 2 ^ 30.

Lemma clampChars_id z : 0 ≤ z ≤ 2 ^ 30 → clampChars z = z.
Proof.
  intros Hz. unfold clampChars. change (1 ≪ 30) with (2 ^ 30). destruct (Z.ltb_spec z 0); [lia|].
  destruct (Z.ltb_spec (2 ^ 30) z); [lia|]. apply int32_id. unfold in_int32, MinInt32, MaxInt32. lia.
Qed.

(** The record of a metered request, at an identity and an instant. *)
Definition stamped (st : string * Z) (u : Synth.Usage) : Metered := stamp st.1 st.2 (to_metered u).

Lemma stamped_key st u : key_of (stamped st u) = st.
Proof. by destruct st. Qed.

Lemma stamped_keys stamps us :
  length stamps = length us → key_of <$> zip_with stamped stamps us = stamps.
Proof.
  revert us. induction stamps as [|st stamps IH]; intros [|u us] Hlen; try done. simpl in Hlen.
  cbn [zip_with fmap list_fmap]. rewrite stamped_key. f_equal. apply IH. lia.
Qed.

Lemma stamped_forall {stamps us} (P : Metered → Prop) (Q : string * Z → Prop) (R : Synth.Usage → Prop) :
  Forall Q stamps → Forall R us → (∀ st u, Q st → R u → P (stamped st u)) → Forall P (zip_with stamped stamps us).
Proof.
  intros HQ HR HP. revert us HR. induction HQ as [|st stamps Hst HQ IH]; intros us HR; [by destruct us|].
  destruct HR as [|u us Hu HR]; [constructor|]. cbn [zip_with]. constructor; [by apply HP|by apply IH].
Qed.

Lemma stamped_bill from to tid stamps us :
  length stamps = length us → Forall (λ st : string * Z, from ≤ st.2 < to) stamps → Forall countable us →
  zsum (λ r, row_bill from to tid (key_of r, row_of r)) (zip_with stamped stamps us) =
  zsum snd (List.filter (λ c, String.eqb c.1 tid) (charge_of <$> List.filter charged us)).
Proof.
  intros Hlen Hst Hus. revert us Hlen Hus. induction Hst as [|st stamps Hst Hsts IH]; intros [|u us] Hlen Hus; try done.
  simpl in Hlen. apply Forall_cons in Hus as [Hu Hus]. cbn [zip_with]. unfold zsum in *. cbn [foldr List.filter].
  rewrite IH by (done || lia). clear IH.
  assert (row_bill from to tid (key_of (stamped st u), row_of (stamped st u)) =
    if charged u && String.eqb (u_TenantID u) tid then u_Chars u else 0) as ->.
  { unfold row_bill, at_time. cbn [fst snd]. rewrite stamped_key.
    rewrite (proj2 (Z.leb_le from st.2)), (proj2 (Z.ltb_lt st.2 to)) by lia. cbn [andb].
    change (rr_Chars (row_of (stamped st u))) with (clampChars (u_Chars u)). rewrite clampChars_id by done.
    reflexivity. }
  destruct (charged u); cbn [andb]; [|done]. rewrite fmap_cons. cbn [List.filter].
  change (charge_of u).1 with (u_TenantID u). by destruct (String.eqb (u_TenantID u) tid).
Qed.


(** Ports that answer: audio in the cache when [hit], else from a worker. *)
Definition demo_env (hit : bool) : Env := {|
  sha256 := id;
  ans_resolve _ := Ok {| v_ID := "v"; DisplayName := "V"; Gender := ""; Tags := []; v_ModelVersion := "1";
                         v_TenantID := None; Enabled := true; PreviewURL := "" |};
  ans_plan _ := Ok 1000; ans_check _ := Ok {| al_Allowed := true; al_Used := 0 |}; ans_record _ := None;
  ans_lookup _ := if hit then Ok ({| S3Key := "o"; Format := "pcm"; En_DurationMS := 1; Bytes := 4 |},
                                  {| pieces := ["abcd"]; body_error := None |})
                  else Err (ESentinel ErrMiss);
  ans_store _ := None; ans_reserve _ := Ok "w";
  ans_open _ := Ok {| frames := [{| Seq := 0; Pcm16 := "abcd"; Last := true |}]; stream_error := None |};
  ans_now _ := 7; ans_sleep _ := None; ans_gone _ := false; ans_acquire _ := Ok true; ans_renew _ := None;
  ans_header _ := None; ans_chunk _ := None;
|}.
Definition demo_req (tid text : string) : Request := {|
  rq_TenantID := tid; rq_KeyID := "k"; rq_RequestID := "r"; rq_Text := text; rq_VoiceID := "v";
  rq_Format := ""; rq_SampleRate := 0; rq_Normalize := true;
  rq_Params := {| CFGScale := SpecFloat.S754_zero false; AudioTemperature := SpecFloat.S754_zero false;
                  AudioTopK := 0; AudioTopP := SpecFloat.S754_zero false;
                  AudioRepetitionPenalty := SpecFloat.S754_zero false; EOAExtraFrames := 0; SampleRate := 0 |};
|}.

(** A cached synthesis for [t], a stream from a worker for [u], one more for [t]
    that validation refuses. *)
Definition demo_runs : list served :=
  let b := {| window := 0; since := 0 |} in
  [ServedSync (demo_env true) b (demo_req "t" "xin chao") "free";
   ServedStream (demo_env false) b (demo_req "u" "chao") "free" 2;
   ServedSync (demo_env false) b (demo_req "t" "") "free"].

Definition demo_stamps : list (string * Z) := [("r1", 739000 * Day + 5); ("r2", 739000 * Day + 9)].
Definition demo_actions : list action :=
  (λ r, ARecord "" 0 r) <$> zip_with stamped demo_stamps
     (concat ((λ s, meters (calls_of s)) <$> demo_runs)).



