(* ===== verification/Webhook.v ===== *)
(** * Webhooks

    [jobs/webhook_guard.go], which addresses a tenant's callback may reach, and
    [webhook/webhook.go], the signed delivery and its retries. The standard
    library's URL and address parsers, its JSON encoder and SHA-256 are
    parameters; the address predicates of [net/netip] and HMAC are written out.
    The resolver and the receiver answer arbitrarily. *)

From stdpp Require Import base gmap strings pretty numbers list.
From S2P Require Import Prelude GoString Cache RateLimit Jobs JobService.

(** ** [netip.Addr] *)

(** The zero value, an IPv4 address, an IPv6 address with its zone. *)
Inductive Addr : Type := NoAddr | V4 (z : Z) | V6 (z : Z) (zone : string).

Definition addr_ok (a : Addr) : Prop :=
  match a with NoAddr => True | V4 z => 0 ≤ z < 2 ^ 32 | V6 z _ => 0 ≤ z < 2 ^ 128 end.

Definition v4_byte (z i : Z) : Z := Z.land (Z.shiftr z (24 - 8 * i)) 0xff.
Definition v6_byte (z i : Z) : Z := Z.land (Z.shiftr z (120 - 8 * i)) 0xff.
Definition v6_word (z i : Z) : Z := Z.land (Z.shiftr z (112 - 16 * i)) 0xffff.

Definition Is4 (a : Addr) : bool := match a with V4 _ => true | _ => false end.
Definition Is6 (a : Addr) : bool := match a with V6 _ _ => true | _ => false end.
Definition Is4In6 (a : Addr) : bool :=
  match a with V6 z _ => (Z.shiftr z 64 =? 0) && (Z.land (Z.shiftr z 32) 0xffffffff =? 0xffff) | _ => false end.
Definition Unmap (a : Addr) : Addr :=
  match a with V6 z _ => if Is4In6 a then V4 (Z.land z 0xffffffff) else a | _ => a end.
Definition IsValid (a : Addr) : bool := match a with NoAddr => false | _ => true end.

Definition IsLoopback (a : Addr) : bool :=
  match Unmap a with V4 z => v4_byte z 0 =? 127 | V6 z _ => z =? 1 | NoAddr => false end.
Definition IsPrivate (a : Addr) : bool :=
  match Unmap a with
  | V4 z => (v4_byte z 0 =? 10) || ((v4_byte z 0 =? 172) && (Z.land (v4_byte z 1) 0xf0 =? 16)) ||
            ((v4_byte z 0 =? 192) && (v4_byte z 1 =? 168))
  | V6 z _ => Z.land (v6_byte z 0) 0xfe =? 0xfc
  | NoAddr => false
  end.
Definition IsLinkLocalUnicast (a : Addr) : bool :=
  match Unmap a with
  | V4 z => (v4_byte z 0 =? 169) && (v4_byte z 1 =? 254)
  | V6 z _ => Z.land (v6_word z 0) 0xffc0 =? 0xfe80
  | NoAddr => false
  end.
Definition IsLinkLocalMulticast (a : Addr) : bool :=
  match Unmap a with
  | V4 z => (v4_byte z 0 =? 224) && (v4_byte z 1 =? 0) && (v4_byte z 2 =? 0)
  | V6 z _ => Z.land (v6_word z 0) 0xff0f =? 0xff02
  | NoAddr => false
  end.
Definition IsMulticast (a : Addr) : bool :=
  match Unmap a with
  | V4 z => Z.land (v4_byte z 0) 0xf0 =? 0xe0
  | V6 z _ => v6_byte z 0 =? 0xff
  | NoAddr => false
  end.
Definition IsUnspecified (a : Addr) : bool :=
  match a with V4 z => z =? 0 | V6 z zone => (z =? 0) && String.eqb zone "" | NoAddr => false end.

(** [Prefix.Contains] for a prefix of [len] bits of network [net]. *)
Definition Contains4 (net len : Z) (a : Addr) : bool :=
  match a with V4 z => Z.shiftr (Z.lxor z net) (32 - len) =? 0 | _ => false end.
Definition Contains6 (net len : Z) (a : Addr) : bool :=
  match a with
  | V6 z zone => String.eqb zone "" && (Z.shiftr (Z.lxor z net) (128 - len) =? 0)
  | _ => false
  end.

(** ** [webhook_guard.go] *)

Definition dnsTimeout : Z := 3 * Second.

Definition rejected {A} (reason : string) : res A := Err (sentinelf ErrWebhookRejected reason).

Definition checkAddr (addr : Addr) : res () :=
  let addr := Unmap addr in
  if IsLoopback addr then rejected "loopback address"
  else if IsPrivate addr then rejected "private address"
  else if IsLinkLocalUnicast addr || IsLinkLocalMulticast addr then rejected "link-local address"
  else if IsMulticast addr then rejected "multicast address"
  else if IsUnspecified addr then rejected "unspecified address"
  else if negb (IsValid addr) then rejected "invalid address"
  else if Is4 addr && Contains4 0x64400000 10 addr then rejected "carrier-grade NAT address"
  else if Is6 addr && Contains6 (0xfc * 2 ^ 120) 7 addr then rejected "unique-local address"
  else Ok ().

Fixpoint check_each (addrs : list Addr) : res () :=
  match addrs with
  | [] => Ok ()
  | addr :: rest => match checkAddr addr with Err e => Err e | Ok _ => check_each rest end
  end.

(** A parsed URL, as far as the guard looks: its scheme and its host name. *)
Record Url : Type := { Scheme : string; Hostname : string }.

Section guard.
Variables (url_Parse : string → option Url) (ParseAddr : string → option Addr).

(** [resolve] is what the resolver answers within [dnsTimeout]. *)
Definition Check_ (resolve : string → res (list Addr)) (rawURL : string) : res () :=
  if String.eqb rawURL "" then Ok ()
  else
    match url_Parse rawURL with
    | None => rejected "not a URL"
    | Some parsed =>
        if negb (equal_fold_ascii (Scheme parsed) "https") then rejected "only https is accepted"
        else if String.eqb (Hostname parsed) "" then rejected "no host"
        else
          match ParseAddr (Hostname parsed) with
          | Some addr => checkAddr addr
          | None =>
              match resolve (Hostname parsed) with
              | Err _ => rejected "host does not resolve"
              | Ok [] => rejected "host resolves to nothing"
              | Ok addrs => check_each addrs
              end
          end
    end.
End guard.

(** ** [webhook.go] *)

Definition MaxAttempts : Z := 5.
Definition deliveryTimeout : Z := 10 * Second.
Definition Backoff : list Z := [5 * Second; 30 * Second; 2 * Minute; 10 * Minute].

Record Payload : Type := {
  pl_Event : string; pl_JobID : string; pl_Status : string; pl_DurationMS : option Z; pl_TotalChars : Z;
  pl_Error : string; pl_Metadata : gmap string string; pl_CompletedAt : option Z;
}.

Definition payload_of (job : Job) : Payload := {|
  pl_Event := "job." +:+ Status_String (status job); pl_JobID := ID job;
  pl_Status := Status_String (status job); pl_DurationMS := DurationMS job;
  pl_TotalChars := TotalChars job; pl_Error := Error job; pl_Metadata := PublicMetadata (Metadata job);
  pl_CompletedAt := CompletedAt job |}.

(** A request as it is sent: where to, its headers, its body. *)
Record Post : Type := {
  po_URL : string; po_ContentType : string; po_Timestamp : string; po_Signature : string;
  po_Delivery : string; po_Body : string;
}.

Inductive event : Type :=
| ECheck (url : string) (r : res ())
| ENow
| EPost (p : Post) (r : res Z)
| ESleep (d : Z) (r : option gerr).

(** [hmac.New(sha256.New, key)]: blocks of 64 bytes. *)
Fixpoint xor_pad (n : nat) (pad : Z) (key : string) : string :=
  match n with
  | O => ""
  | S n =>
      match key with
      | "" => String (byte_of pad) (xor_pad n pad "")
      | String c key => String (byte_of (Z.lxor (byte_val c) pad)) (xor_pad n pad key)
      end
  end.

Definition hmac (sha256 : string → string) (key msg : string) : string :=
  let key := if 64 <? go_len key then sha256 key else key in
  sha256 (xor_pad 64 0x5c key +:+ sha256 (xor_pad 64 0x36 key +:+ msg)).

Definition Signature (sha256 : string → string) (secret timestamp payload : string) : string :=
  "sha256=" +:+ hex_of (hmac sha256 secret (timestamp +:+ "." +:+ payload)).

Definition VerifySignature (sha256 : string → string) (secret timestamp payload presented : string) : bool :=
  String.eqb (Signature sha256 secret timestamp payload) presented.

(** What the dispatcher is given, and what the world answers it. *)
Record Env : Type := {
  sha256 : string → string;
  json_Marshal : Payload → res string;
  builds : string → option gerr;
  secret : string;
  ans_check : list event → res ();
  ans_now : list event → Z;
  ans_post : list event → res Z;
  ans_sleep : list event → option gerr;
}.

Section deliver.
Variables (env : Env) (job : Job).

(** The request [post] builds at time [now]. *)
Definition request_of (payload : string) (attempt now : Z) : Post :=
  let timestamp := Itoa ((now - UnixEpoch) `div` Second) in
  {| po_URL := WebhookURL job; po_ContentType := "application/json"; po_Timestamp := timestamp;
     po_Signature := Signature (sha256 env) (secret env) timestamp payload;
     po_Delivery := ID job +:+ "-" +:+ Itoa attempt; po_Body := payload |}.

Definition post (payload : string) (attempt : Z) : Prog event (res Z) :=
  let! now := pcall ENow (ans_now env) in
  match builds env (WebhookURL job) with
  | Some e => pret (Err (wrapf "build webhook request: " e))
  | None =>
      let! r := pask (EPost (request_of payload attempt now)) (ans_post env) in
      pret (rmap_err (wrapf "post webhook: ") r)
  end.

Definition delivered (r : res Z) : bool :=
  match r with Ok status => (200 <=? status) && (status <? 300) | Err _ => false end.

(** The loop of [deliver], from an attempt; [more] may follow it. *)
Fixpoint deliver_from (more : nat) (payload : string) (attempt : Z) : Prog event () :=
  let! checked := pask (ECheck (WebhookURL job)) (ans_check env) in
  match checked with
  | Err _ => pret ()
  | Ok _ =>
      let! r := post payload attempt in
      if delivered r then pret ()
      else
        match more with
        | O => pret ()
        | S more =>
            let d := default 0 (Backoff !! Z.to_nat (Z.min (attempt - 1) (Z.of_nat (length Backoff) - 1))) in
            let! slept := pask (ESleep d) (ans_sleep env) in
            match slept with
            | Some _ => pret ()
            | None => deliver_from more payload (attempt + 1)
            end
        end
  end.

Definition deliver : Prog event () :=
  match json_Marshal env (payload_of job) with
  | Err _ => pret ()
  | Ok payload => deliver_from (Z.to_nat (MaxAttempts - 1)) payload 1
  end.

(** The goroutine [JobFinished] starts, if any. *)
Definition JobFinished : Prog event () :=
  if String.eqb (WebhookURL job) "" then pret () else deliver.
End deliver.

(** ** What the guard is for: the blocks it keeps out *)

(** [z] is in the block of [len] bits at [net], of addresses [width] bits wide. *)
Definition in_block (width z : Z) (block : Z * Z) : Prop :=
  z `div` 2 ^ (width - block.2) = block.1 `div` 2 ^ (width - block.2).

(** Loopback, private use, carrier-grade NAT, link-local with the cloud metadata
    address, multicast, and the unspecified address. *)
Definition blocked4 : list (Z * Z) :=
  [(0x7f000000, 8); (0x0a000000, 8); (0xac100000, 12); (0xc0a80000, 16); (0x64400000, 10);
   (0xa9fe0000, 16); (0xe0000000, 4); (0, 32)].

(** Loopback, unique-local, link-local, multicast. *)
Definition blocked6 : list (Z * Z) :=
  [(1, 128); (0xfc * 2 ^ 120, 7); (0xfe80 * 2 ^ 112, 10); (0xff * 2 ^ 120, 8)].

(** An IPv4 address written as an IPv6 one. *)
Definition mapped (z : Z) : Prop := z `div` 2 ^ 32 = 0xffff.

(** An address out on the internet. *)
Definition public4 (z : Z) : Prop := Forall (λ b, ¬ in_block 32 z b) blocked4.
Definition public (a : Addr) : Prop :=
  match a with
  | NoAddr => False
  | V4 z => public4 z
  | V6 z zone =>
      (mapped z → public4 (z `mod` 2 ^ 32)) ∧
      (¬ mapped z → Forall (λ b, ¬ in_block 128 z b) blocked6 ∧ (z = 0 → zone ≠ ""))
  end.

(** ** Lemmas: addresses *)

Lemma div_of_div z a b : 0 ≤ a → 0 ≤ b → z `div` 2 ^ (a + b) = (z `div` 2 ^ a) `div` 2 ^ b.
Proof. intros. rewrite Z.pow_add_r by done. rewrite Z.div_div; lia. Qed.

(** A mask of the high bits. *)
Lemma land_high w n k :
  0 ≤ k ≤ n → 0 ≤ w < 2 ^ n → Z.land w (Z.shiftl (Z.ones (n - k)) k) = w `div` 2 ^ k * 2 ^ k.
Proof.
  intros Hk Hw. rewrite <- Z.shiftr_div_pow2, <- Z.shiftl_mul_pow2 by lia.
  apply Z.bits_inj'. intros i Hi. rewrite Z.land_spec, !Z.shiftl_spec by done.
  destruct (Z.lt_ge_cases i k) as [Hlt|Hge].
  { rewrite !(Z.testbit_neg_r _ (i - k)) by lia. apply andb_false_r. }
  rewrite Z.shiftr_spec by lia. replace (i - k + k) with i by lia. rewrite Z.testbit_ones_nonneg by lia.
  destruct (Z.ltb_spec (i - k) (n - k)) as [|Hout]; [apply andb_true_r|]. rewrite andb_false_r.
  destruct (decide (w = 0)) as [->|]; [by rewrite Z.testbit_0_l|]. symmetry.
  apply Z.bits_above_log2; [lia|]. apply Z.log2_lt_pow2; [lia|]. eapply Z.lt_le_trans; [apply Hw|].
  apply Z.pow_le_mono_r; lia.
Qed.

Lemma land_ones_mod z n : 0 ≤ n → Z.land z (2 ^ n - 1) = z `mod` 2 ^ n.
Proof. intros Hn. rewrite <- Z.land_ones by done. by rewrite Z.ones_equiv. Qed.

(** The first two bytes of an IPv4 address decide all but the unspecified one. *)
Lemma v4_bytes z :
  0 ≤ z < 2 ^ 32 → let w := z `div` 2 ^ 16 in
  0 ≤ w < 65536 ∧ v4_byte z 0 = w `div` 256 ∧ v4_byte z 1 = w `mod` 256.
Proof.
  intros Hz w. assert (0 ≤ w < 65536) as Hw by (subst w; dlia). split; [done|]. unfold v4_byte.
  change (24 - 8 * 0) with 24. change (24 - 8 * 1) with 16.
  rewrite !Z.shiftr_div_pow2 by lia. change 255 with (2 ^ 8 - 1). rewrite !land_ones_mod by lia.
  split; [|done]. subst w. replace (z `div` 2 ^ 24) with ((z `div` 2 ^ 16) `div` 2 ^ 8) by (by rewrite <- div_of_div by lia). apply Z.mod_small. dlia.
Qed.

(** The first word of an IPv6 address. *)
Lemma v6_top z :
  0 ≤ z < 2 ^ 128 → let w := z `div` 2 ^ 112 in
  0 ≤ w < 65536 ∧ v6_word z 0 = w ∧ v6_byte z 0 = w `div` 256.
Proof.
  intros Hz w. assert (0 ≤ w < 65536) as Hw.
  { subst w. split; [apply Z.div_pos; lia|]. apply Z.div_lt_upper_bound; lia. }
  split; [done|]. unfold v6_word, v6_byte.
  change (112 - 16 * 0) with 112. change (120 - 8 * 0) with 120.
  rewrite !Z.shiftr_div_pow2 by lia. change 255 with (2 ^ 8 - 1). change 65535 with (2 ^ 16 - 1).
  rewrite !land_ones_mod by lia. split; [by apply Z.mod_small|].
  replace (z `div` 2 ^ 120) with (w `div` 2 ^ 8) by (subst w; by rewrite <- div_of_div by lia).
  apply Z.mod_small. dlia.
Qed.

(** The guard's tests, together. *)
Definition caught (a : Addr) : bool :=
  IsLoopback a || IsPrivate a || (IsLinkLocalUnicast a || IsLinkLocalMulticast a) || IsMulticast a ||
  IsUnspecified a || negb (IsValid a) || (Is4 a && Contains4 0x64400000 10 a) ||
  (Is6 a && Contains6 (0xfc * 2 ^ 120) 7 a).

Lemma checkAddr_caught a : checkAddr a = Ok () ↔ caught (Unmap a) = false.
Proof.
  unfold checkAddr, caught, rejected. set (u := Unmap a). cbv zeta.
  destruct (IsLoopback u), (IsPrivate u), (IsLinkLocalUnicast u || IsLinkLocalMulticast u), (IsMulticast u),
    (IsUnspecified u), (negb (IsValid u)), (Is4 u && _), (Is6 u && _); cbn; done.
Qed.

Lemma lxor_block z net k : 0 ≤ k → (Z.shiftr (Z.lxor z net) k =? 0) = (z `div` 2 ^ k =? net `div` 2 ^ k).
Proof.
  intros Hk. rewrite Z.shiftr_lxor, !Z.shiftr_div_pow2 by done. apply Bool.eq_iff_eq_true.
  rewrite !Z.eqb_eq. split; [apply Z.lxor_eq|]. intros ->. apply Z.lxor_nilpotent.
Qed.

(** The code's tests and the blocks, on the first two bytes. *)
Definition caught4 (w : Z) : bool :=
  let b0 := w `div` 256 in let b1 := w `mod` 256 in
  (b0 =? 127) || ((b0 =? 10) || ((b0 =? 172) && (Z.land b1 0xf0 =? 16)) || ((b0 =? 192) && (b1 =? 168))) ||
  ((b0 =? 169) && (b1 =? 254)) || (Z.land b0 0xf0 =? 0xe0) || (w `div` 64 =? 0x6440 `div` 64).
Definition in_blocks4 (w : Z) : bool :=
  (w `div` 256 =? 0x7f) || (w `div` 256 =? 0x0a) || (w `div` 16 =? 0xac1) || (w =? 0xc0a8) ||
  (w `div` 64 =? 0x191) || (w =? 0xa9fe) || (w `div` 4096 =? 0xe).

Lemma caught4_blocks w : 0 ≤ w < 65536 → caught4 w = in_blocks4 w.
Proof.
  intros Hw. unfold caught4, in_blocks4. cbv zeta.
  change 0xf0 with (Z.shiftl (Z.ones (8 - 4)) 4). rewrite !land_high by dlia.
  apply Bool.eq_iff_eq_true. rewrite !orb_true_iff, !andb_true_iff, !Z.eqb_eq. split; dlia.
Qed.

Lemma public4_blocks z : 0 ≤ z < 2 ^ 32 → public4 z ↔ in_blocks4 (z `div` 2 ^ 16) = false ∧ z ≠ 0.
Proof.
  intros Hz. unfold public4, in_blocks4, blocked4. rewrite !Forall_cons, Forall_nil. unfold in_block. cbn [fst snd].
  replace (z `div` 2 ^ (32 - 8)) with ((z `div` 2 ^ 16) `div` 256) by dlia.
  replace (z `div` 2 ^ (32 - 12)) with ((z `div` 2 ^ 16) `div` 16) by dlia.
  replace (z `div` 2 ^ (32 - 10)) with ((z `div` 2 ^ 16) `div` 64) by dlia.
  replace (z `div` 2 ^ (32 - 4)) with ((z `div` 2 ^ 16) `div` 4096) by dlia.
  replace (z `div` 2 ^ (32 - 32)) with z by dlia. cbn. 
  change (32 - 16) with 16. rewrite !orb_false_iff, !Z.eqb_neq. tauto.
Qed.

Lemma caught_4 z : 0 ≤ z < 2 ^ 32 → caught (V4 z) = false ↔ public4 z.
Proof.
  intros Hz. destruct (v4_bytes z Hz) as (Hw & H0 & H1). rewrite public4_blocks by done.
  rewrite <- caught4_blocks by done. unfold caught, caught4.
  cbn [IsLoopback IsPrivate IsLinkLocalUnicast IsLinkLocalMulticast IsMulticast IsUnspecified IsValid Is4 Is6 Unmap
       Contains4 negb andb].
  rewrite lxor_block, H0, H1 by lia.
  replace (z `div` 2 ^ (32 - 10)) with ((z `div` 2 ^ 16) `div` 64) by dlia.
  change (0x64400000 `div` 2 ^ (32 - 10)) with (0x6440 `div` 64).
  destruct (_ && _ && (v4_byte z 2 =? 0)) eqn:Hll.
  - zbool. match goal with H : _ = 224 |- _ => rewrite H end. cbn. rewrite ?orb_true_r. by split; [|intros []].
  - rewrite !orb_false_iff, <- (Z.eqb_neq z 0). tauto.
Qed.

Definition caught6 (w : Z) : bool :=
  (Z.land (w `div` 256) 0xfe =? 0xfc) || (Z.land w 0xffc0 =? 0xfe80) || (w `div` 256 =? 0xff).
Definition in_blocks6 (w : Z) : bool := (w `div` 512 =? 0x7e) || (w `div` 64 =? 0x3fa) || (w `div` 256 =? 0xff).

Lemma caught6_blocks w :
  0 ≤ w < 65536 → caught6 w = in_blocks6 w ∧ ((Z.land w 0xff0f =? 0xff02) = true → caught6 w = true).
Proof.
  intros Hw. unfold caught6, in_blocks6. split.
  - change 0xfe with (Z.shiftl (Z.ones (8 - 1)) 1). change 0xffc0 with (Z.shiftl (Z.ones (16 - 6)) 6).
    rewrite !land_high by dlia.
    apply Bool.eq_iff_eq_true. rewrite !orb_true_iff, !Z.eqb_eq. split; dlia.
  - intros H%Z.eqb_eq. apply (f_equal (λ z, Z.shiftr z 8)) in H. rewrite Z.shiftr_land in H.
    rewrite Z.shiftr_div_pow2 in H by lia. change (Z.shiftr 0xff0f 8) with (2 ^ 8 - 1) in H.
    rewrite land_ones_mod, Z.mod_small in H by dlia. change (2 ^ 8) with 256 in H. rewrite H. apply orb_true_r.
Qed.

Lemma Is4In6_mapped z zone : 0 ≤ z < 2 ^ 128 → Is4In6 (V6 z zone) = true ↔ mapped z.
Proof.
  intros Hz. unfold Is4In6, mapped. rewrite !Z.shiftr_div_pow2 by lia.
  change 0xffffffff with (2 ^ 32 - 1). rewrite land_ones_mod, andb_true_iff, !Z.eqb_eq by lia.
  replace (z `div` 2 ^ 64) with ((z `div` 2 ^ 32) `div` 2 ^ 32) by (by rewrite <- div_of_div by lia).
  generalize (z `div` 2 ^ 32). intros y. split; dlia.
Qed.

(** The tests of an unmapped IPv6 address. *)
Lemma caught_6 z zone :
  0 ≤ z < 2 ^ 128 → ¬ mapped z →
  caught (V6 z zone) = false ↔ Forall (λ b, ¬ in_block 128 z b) blocked6 ∧ (z = 0 → zone ≠ "").
Proof.
  intros Hz H46. assert (Is4In6 (V6 z zone) = false) as Hmap
    by (destruct (Is4In6 (V6 z zone)) eqn:E; [|done]; by apply Is4In6_mapped in E).
  destruct (v6_top z Hz) as (Hw & H1 & H0). destruct (caught6_blocks _ Hw) as [Hblocks Hll].
  unfold blocked6. rewrite !Forall_cons, Forall_nil. unfold in_block. cbn [fst snd].
  change (128 - 128) with 0. rewrite !Z.pow_0_r, !Z.div_1_r.
  replace (z `div` 2 ^ (128 - 7)) with ((z `div` 2 ^ 112) `div` 2 ^ 9) by (by rewrite <- div_of_div by lia).
  replace (z `div` 2 ^ (128 - 10)) with ((z `div` 2 ^ 112) `div` 2 ^ 6) by (by rewrite <- div_of_div by lia).
  replace (z `div` 2 ^ (128 - 8)) with ((z `div` 2 ^ 112) `div` 2 ^ 8) by (by rewrite <- div_of_div by lia).
  unfold caught, IsLoopback, IsPrivate, IsLinkLocalUnicast, IsLinkLocalMulticast, IsMulticast.
  cbn [IsUnspecified IsValid Is4 Is6 Unmap Contains4 Contains6 negb andb]. rewrite Hmap, H0, H1.
  rewrite lxor_block by lia.
  replace (z `div` 2 ^ (128 - 7)) with ((z `div` 2 ^ 112) `div` 2 ^ 9) by (by rewrite <- div_of_div by lia).
  revert Hll Hblocks. generalize (z `div` 2 ^ 112). intros w Hll Hblocks.
  change ((0xfc * 2 ^ 120) `div` 2 ^ (128 - 7)) with 0x7e. change ((0xfe80 * 2 ^ 112) `div` 2 ^ (128 - 10)) with 0x3fa.
  change ((0xff * 2 ^ 120) `div` 2 ^ (128 - 8)) with 0xff. change (2 ^ 9) with 512. change (2 ^ 6) with 64.
  change (2 ^ 8) with 256.
  assert (caught6 w = false → (Z.land w 0xff0f =? 0xff02) = false) as Hll'
    by (intros E; destruct (Z.land w 0xff0f =? 0xff02); [by rewrite Hll in E|done]).
  assert (in_blocks6 w = false ↔ caught6 w = false) as Hiff by (by rewrite Hblocks).
  unfold caught6, in_blocks6 in Hiff, Hll'. clear Hll Hblocks.
  rewrite !orb_false_iff in Hll', Hiff. rewrite !orb_false_iff, !andb_false_iff, !Z.eqb_neq in *.
  rewrite String.eqb_neq. destruct (decide (zone = "")); tauto.
Qed.

Lemma checkAddr_exact a : addr_ok a → checkAddr a = Ok () ↔ public a.
Proof.
  intros Ha. rewrite checkAddr_caught. destruct a as [|z|z zone]; [done|by apply caught_4|].
  cbn [addr_ok] in Ha. unfold public. destruct (Is4In6 (V6 z zone)) eqn:E.
  - assert (mapped z) as Hm by by eapply Is4In6_mapped. unfold Unmap. rewrite E.
    change 0xffffffff with (2 ^ 32 - 1). rewrite land_ones_mod, caught_4 by dlia. tauto.
  - assert (¬ mapped z) as Hm by (intros Hm; eapply Is4In6_mapped in Hm; [by rewrite E in Hm|done]).
    unfold Unmap. rewrite E, caught_6 by done. tauto.
Qed.

(** The last branch of [checkAddr] is never taken: the standard library counts
    the unique-local addresses as private. *)
Lemma unique_local_is_private z zone :
  0 ≤ z < 2 ^ 128 → ¬ mapped z → Contains6 (0xfc * 2 ^ 120) 7 (V6 z zone) = true →
  IsPrivate (V6 z zone) = true.
Proof.
  intros Hz Hm. destruct (v6_top z Hz) as (Hw & _ & H0). unfold IsPrivate, Unmap.
  destruct (Is4In6 (V6 z zone)) eqn:E; [by apply Is4In6_mapped in E|]. rewrite H0. unfold Contains6.
  rewrite lxor_block by lia. intros [_ H]%andb_true_iff. apply Z.eqb_eq in H.
  change 0xfe with (Z.shiftl (Z.ones (8 - 1)) 1). rewrite land_high by dlia. apply Z.eqb_eq.
  change ((0xfc * 2 ^ 120) `div` 2 ^ (128 - 7)) with 0x7e in H.
  replace (z `div` 2 ^ (128 - 7)) with ((z `div` 2 ^ 112) `div` 2 ^ 9) in H by (by rewrite <- div_of_div by lia). dlia.
Qed.

Lemma check_each_exact addrs :
  Forall addr_ok addrs → check_each addrs = Ok () ↔ Forall public addrs.
Proof.
  induction 1 as [|a l Ha _ IH]; cbn [check_each]; [by rewrite Forall_nil|]. rewrite Forall_cons, <- IH.
  pose proof (checkAddr_exact a Ha) as Hp. destruct (checkAddr a) as [[]|e]; [tauto|].
  split; [done|]. intros [Hpub _]. by apply Hp in Hpub.
Qed.

Lemma checkAddr_rejects a e : checkAddr a = Err e → errors_Is e ErrWebhookRejected = true.
Proof. unfold checkAddr, rejected. cbv zeta. intros H. repeat (case_match; [by injection H as <-|]). done. Qed.

Lemma check_each_rejects l e : check_each l = Err e → errors_Is e ErrWebhookRejected = true.
Proof.
  induction l as [|a l IH]; cbn [check_each]; [done|]. destruct (checkAddr a) eqn:E; [done|].
  intros [= <-]. by eapply checkAddr_rejects.
Qed.

(** ** Lemmas: deliveries *)

Section delivery.
Variables (env : Env) (job : Job) (payload : string).

(** The calls of one attempt, and whether it delivered. *)
Inductive attempted (a : Z) : list event → bool → Prop :=
| at_sent now r :
    builds env (WebhookURL job) = None →
    attempted a [ECheck (WebhookURL job) (Ok ()); ENow; EPost (request_of env job payload a now) r] (delivered r)
| at_unbuilt e :
    builds env (WebhookURL job) = Some e → attempted a [ECheck (WebhookURL job) (Ok ()); ENow] false.

Definition wait_after (a : Z) : Z := default 0 (Backoff !! Z.to_nat (Z.min (a - 1) 3)).

(** The calls of a delivery from attempt [a]. *)
Inductive delivers (a : Z) : list event → Prop :=
| de_rejected e : delivers a [ECheck (WebhookURL job) (Err e)]
| de_done l : attempted a l true → delivers a l
| de_gave_up l : a = MaxAttempts → attempted a l false → delivers a l
| de_interrupted l e :
    a < MaxAttempts → attempted a l false → delivers a (l ++ [ESleep (wait_after a) (Some e)])
| de_again l l' :
    a < MaxAttempts → attempted a l false → delivers (a + 1) l' →
    delivers a (l ++ ESleep (wait_after a) None :: l').

Lemma post_emits a :
  emits (post env job payload a) (λ r d, attempted a (ECheck (WebhookURL job) (Ok ()) :: d) (delivered r)).
Proof.
  unfold post. apply emits_bind_call. intros now. destruct (builds env (WebhookURL job)) as [e|] eqn:Hb.
  - apply emits_ret. by eapply at_unbuilt.
  - apply emits_bind_ask. intros r. apply emits_ret.
    replace (delivered (rmap_err _ r)) with (delivered r) by by destruct r. by apply at_sent.
Qed.

Lemma deliver_from_emits more a :
  a = MaxAttempts - Z.of_nat more → emits (deliver_from env job more payload a) (λ _ d, delivers a d).
Proof.
  revert a. induction more as [|more IH]; intros a Ha; cbn [deliver_from].
  all: apply emits_bind_ask; intros [[]|e]; [|apply emits_ret; constructor].
  all: eapply (emits_bind _ _ (λ r d, attempted a (ECheck (WebhookURL job) (Ok ()) :: d) (delivered r)));
    [apply post_emits|]; intros r d Hd; destruct (delivered r); [apply emits_ret; rewrite app_nil_r; by apply de_done|].
  - apply emits_ret. rewrite app_nil_r. apply de_gave_up; [lia|done].
  - apply emits_bind_ask. intros [e|].
    + apply emits_ret. apply (de_interrupted a (_ :: d)); [lia|done].
    + eapply emits_mono; [apply IH; lia|]. intros ? d' Hd'. apply (de_again a (_ :: d)); [lia|done|done].
Qed.

(** The names of the deliveries made, and the pauses taken. *)
Definition deliveries (l : list event) : list string :=
  omap (λ e, match e with EPost p _ => Some (po_Delivery p) | _ => None end) l.
Definition pauses (l : list event) : list Z :=
  omap (λ e, match e with ESleep d _ => Some d | _ => None end) l.

Lemma attempted_calls a l ok :
  attempted a l ok →
  pauses l = [] ∧
  deliveries l = match builds env (WebhookURL job) with None => [ID job +:+ "-" +:+ Itoa a] | Some _ => [] end.
Proof. by intros [now r Hb|e Hb]; rewrite Hb. Qed.

Lemma delivers_pauses a l :
  delivers a l → 1 ≤ a ≤ MaxAttempts → ∃ k, pauses l = take k (drop (Z.to_nat (a - 1)) Backoff).
Proof.
  assert (∀ a, 1 ≤ a < MaxAttempts → ∃ d,
    drop (Z.to_nat (a - 1)) Backoff = wait_after a :: d ∧ drop (Z.to_nat (a + 1 - 1)) Backoff = d) as Hdrop.
  { intros b Hb. unfold MaxAttempts in Hb. destruct (decide (b = 1)) as [->|]; [by eexists|].
    destruct (decide (b = 2)) as [->|]; [by eexists|]. destruct (decide (b = 3)) as [->|]; [by eexists|].
    replace b with 4 by lia. by eexists. }
  unfold pauses. induction 1 as [a e|a l H|a l Ha H|a l e Ha H|a l l' Ha H _ IH]; intros Hrange.
  all: try (destruct (attempted_calls _ _ _ H) as [Hp _]; unfold pauses in Hp).
  all: try (by exists O); try (exists O; by rewrite Hp).
  all: destruct (Hdrop a) as (d & -> & Hd); [lia|].
  - exists 1%nat. rewrite omap_app, Hp. done.
  - destruct IH as [k Hk]; [lia|]. exists (S k). rewrite omap_app, Hp. cbn. by rewrite Hk, Hd.
Qed.

Definition names_from (a : Z) : list string := (λ i, ID job +:+ "-" +:+ Itoa i) <$> seqZ a (MaxAttempts - a + 1).

Lemma delivers_names a l :
  delivers a l → 1 ≤ a ≤ MaxAttempts →
  ∃ k, deliveries l = match builds env (WebhookURL job) with None => take k (names_from a) | Some _ => [] end.
Proof.
  assert (∀ a, a ≤ MaxAttempts → names_from a = (ID job +:+ "-" +:+ Itoa a) :: names_from (a + 1)) as Hcons.
  { intros b Hb. unfold names_from. rewrite seqZ_cons by lia. cbn. do 3 f_equal. lia. }
  unfold deliveries. induction 1 as [a e|a l H|a l Ha H|a l e Ha H|a l l' Ha H _ IH]; intros Hrange.
  all: try (destruct (attempted_calls _ _ _ H) as [_ Hp]; unfold deliveries in Hp).
  { exists O. by destruct (builds env (WebhookURL job)). }
  1,2,3: exists 1%nat; rewrite ?omap_app, Hp, Hcons by lia; by destruct (builds env (WebhookURL job)).
  destruct IH as [k Hk]; [lia|]. exists (S k). rewrite omap_app, Hp. cbn. rewrite Hk, (Hcons a) by lia.
  by destruct (builds env (WebhookURL job)).
Qed.

(** What surrounds a request that is sent: the guard accepted its address just
    before, and nothing follows it if it was delivered. *)
Definition sent_well (l : list event) : Prop :=
  ∀ l1 p r l2, l = l1 ++ EPost p r :: l2 →
    (∃ l0, l1 = l0 ++ [ECheck (WebhookURL job) (Ok ()); ENow]) ∧
    (∃ a now, 1 ≤ a ≤ MaxAttempts ∧ p = request_of env job payload a now) ∧
    (delivered r = true → l2 = []).

Lemma attempted_sent a l ok l' :
  1 ≤ a ≤ MaxAttempts → attempted a l ok → (ok = true → l' = []) → sent_well l' → sent_well (l ++ l').
Proof.
  intros Ha [now r Hb|e Hb] Hok Hl' l1 p s l2 Heq.
  - destruct l1 as [|x1 [|x2 [|x3 l1]]]; cbn in Heq; simplify_eq.
    + split; [by exists []|]. split; [by exists a, now|done].
    + destruct (Hl' _ _ _ _ eq_refl) as ((l0 & ->) & H1 & H2). split; [|done].
      by eexists (_ :: _ :: _ :: l0).
  - destruct l1 as [|x1 [|x2 l1]]; cbn in Heq; simplify_eq.
    destruct (Hl' _ _ _ _ eq_refl) as ((l0 & ->) & H1 & H2). split; [|done]. by eexists (_ :: _ :: l0).
Qed.

Lemma sent_well_nil : sent_well [].
Proof. intros l1 p r l2 H. by destruct l1. Qed.

Lemma sent_well_cons e l :
  match e with EPost _ _ => False | _ => True end → sent_well l → sent_well (e :: l).
Proof.
  intros He Hl [|x l1] p r l2 Heq; cbn in Heq; simplify_eq; [done|].
  destruct (Hl _ _ _ _ eq_refl) as ((l0 & ->) & H1 & H2). split; [|done]. by eexists (_ :: l0).
Qed.

Lemma delivers_sent a l : delivers a l → 1 ≤ a ≤ MaxAttempts → sent_well l.
Proof.
  induction 1 as [a e|a l H|a l Ha H|a l e Ha H|a l l' Ha H _ IH]; intros Hrange.
  - by apply sent_well_cons, sent_well_nil.
  - rewrite <- (app_nil_r l). by eapply attempted_sent, sent_well_nil.
  - rewrite <- (app_nil_r l). by eapply attempted_sent, sent_well_nil.
  - eapply attempted_sent; [done|done|done|]. by apply sent_well_cons, sent_well_nil.
  - eapply attempted_sent; [done|done|done|]. apply sent_well_cons; [done|]. apply IH. lia.
Qed.
End delivery.

(** A delivery's signature, presented with another stamp or another body, is
    only accepted if SHA-256's HMAC collides on the two. *)
Lemma signature_binds sha256 secret ts body ts' body' :
  str_has (byte_of 46) ts = false → str_has (byte_of 46) ts' = false →
  VerifySignature sha256 secret ts' body' (Signature sha256 secret ts body) = true ↔
  ts' = ts ∧ body' = body ∨
  (ts' +:+ "." +:+ body' ≠ ts +:+ "." +:+ body ∧
   hmac sha256 secret (ts' +:+ "." +:+ body') = hmac sha256 secret (ts +:+ "." +:+ body)).
Proof.
  intros H1 H2. unfold VerifySignature, Signature. rewrite String.eqb_eq. split.
  - intros Heq%(inj (String.append _))%hex_of_inj.
    destruct (decide (ts' +:+ "." +:+ body' = ts +:+ "." +:+ body)) as [E|E]; [left|by right].
    by eapply sep_split.
  - intros [[-> ->]|[_ ->]]; done.
Qed.

(** ** Properties *)

Section guard_spec.
Variables (url_Parse : string → option Url) (ParseAddr : string → option Addr).
Variable resolve : string → res (list Addr).
Hypothesis ParseAddr_ok : ∀ s a, ParseAddr s = Some a → addr_ok a.
Hypothesis resolve_ok : ∀ s l, resolve s = Ok l → Forall addr_ok l.

(** C26. The webhook guard lets a URL through if and only if no webhook is asked
    for, or it is an https URL with a host that is a public address or resolves
    to public addresses only, at least one. An address is public when it is in
    none of the loopback, private, carrier-grade NAT, link-local, multicast,
    unique-local and unspecified blocks, an IPv4 address written as an IPv6 one
    included. Every refusal is a webhook rejection. *)
Theorem guard_exact rawURL :
  let r := Check_ url_Parse ParseAddr resolve rawURL in
  (r = Ok () ↔ rawURL = "" ∨ ∃ u, url_Parse rawURL = Some u ∧ equal_fold_ascii (Scheme u) "https" = true ∧
     Hostname u ≠ "" ∧
     match ParseAddr (Hostname u) with
     | Some a => public a
     | None => ∃ l, resolve (Hostname u) = Ok l ∧ l ≠ [] ∧ Forall public l
     end) ∧
  (∀ e, r = Err e → errors_Is e ErrWebhookRejected = true).
Proof.
  cbv zeta. unfold Check_. destruct (String.eqb_spec rawURL "") as [->|Hne]; [split; [by split; [left|]|done]|].
  destruct (url_Parse rawURL) as [u|]; [|split; [split; [done|by intros [|(?&?&_)]]|by intros e [= <-]]].
  assert (∀ P, rawURL = "" ∨ (∃ u', Some u = Some u' ∧ P u') ↔ P u) as Hu by (intros P; naive_solver).
  rewrite Hu. clear Hu.
  destruct (equal_fold_ascii (Scheme u) "https"); cbn [negb];
    [|split; [split; [done|by intros []]|by intros e [= <-]]].
  destruct (String.eqb_spec (Hostname u) "") as [->|Hh]; [split; [split; [done|by intros (_&?&_)]|by intros e [= <-]]|].
  destruct (ParseAddr (Hostname u)) as [a|] eqn:Ha.
  { rewrite checkAddr_exact by eauto. split; [tauto|]. apply checkAddr_rejects. }
  destruct (resolve (Hostname u)) as [l|e] eqn:Hl;
    [|split; [split; [done|by intros (_&_&?&?&_)]|by intros ? [= <-]]].
  destruct l as [|a l].
  { split; [split; [done|]|by intros ? [= <-]]. by intros (_&_&?&[= <-]&?&_). }
  pose proof (check_each_exact (a :: l) (resolve_ok _ _ Hl)) as Hiff.
  split; [|apply check_each_rejects]. rewrite Hiff. naive_solver.
Qed.
End guard_spec.

(** One name with a public and a metadata-service address. *)
Lemma guard_exact_witness :
  let parse (_ : string) := Some {| Scheme := "HTTPS"; Hostname := "hooks.example" |} in
  let resolve (_ : string) := Ok [V4 0x08080808; V6 0xffffa9fea9fe ""] in
  (∀ l, resolve "hooks.example" = Ok l → ¬ Forall public l) ∧
  Check_ parse (λ _, None) resolve "https://hooks.example/done" ≠ Ok ().
Proof.
  intros parse resolve.
  destruct (guard_exact parse (λ _, None) resolve) with (rawURL := "https://hooks.example/done") as [H _].
  - done.
  - intros s l [= <-]. repeat constructor; done.
  - assert (∀ l, resolve "hooks.example" = Ok l → ¬ Forall public l) as Hnot.
    { intros l [= <-]. intros (_ & (Hp & _)%Forall_cons)%Forall_cons.
      destruct Hp as [Hp _]. specialize (Hp eq_refl). apply Forall_forall with (x := (0xa9fe0000, 16)) in Hp; [by apply Hp|].
      unfold blocked4. set_solver. }
    split; [exact Hnot|]. intros Hok. apply H in Hok as [?|(u & [= <-] & _ & _ & l & Hl & _ & Hall)]; [done|].
    by eapply Hnot.
Defined.

(** C27. A delivery keeps to its policy, whatever the guard, the receiver and the
    clock answer. Nothing is sent for a job that asked for no webhook or whose
    payload cannot be built. Otherwise at most five deliveries are sent, numbered
    from 1 without a gap, the pauses between them follow the backoff, and nothing
    is sent after one that the receiver accepted. Each is posted to the job's URL
    straight after the guard accepted that URL, carries the job's payload, and its
    signature verifies; presented with another time stamp or another body, that
    signature is accepted only where the HMAC collides. *)
Theorem delivery_policy env job :
  let tr := ptrace (JobFinished env job) in
  (WebhookURL job = "" ∨ (∃ e, json_Marshal env (payload_of job) = Err e) → tr = []) ∧
  (∃ k, deliveries tr = take k ((λ i, ID job +:+ "-" +:+ Itoa i) <$> [1; 2; 3; 4; 5])) ∧
  (∃ k, pauses tr = take k Backoff) ∧
  (∀ l1 p r l2, tr = l1 ++ EPost p r :: l2 →
     (∃ l0, l1 = l0 ++ [ECheck (WebhookURL job) (Ok ()); ENow]) ∧ (delivered r = true → l2 = []) ∧
     po_URL p = WebhookURL job ∧ json_Marshal env (payload_of job) = Ok (po_Body p) ∧
     ∀ ts body, str_has (byte_of 46) ts = false →
       VerifySignature (sha256 env) (secret env) ts body (po_Signature p) = true ↔
       ts = po_Timestamp p ∧ body = po_Body p ∨
       (ts +:+ "." +:+ body ≠ po_Timestamp p +:+ "." +:+ po_Body p ∧
        hmac (sha256 env) (secret env) (ts +:+ "." +:+ body) =
        hmac (sha256 env) (secret env) (po_Timestamp p +:+ "." +:+ po_Body p))).
Proof.
  cbv zeta. unfold JobFinished, deliver.
  destruct (String.eqb_spec (WebhookURL job) "") as [E|E].
  { split_and!; [done|by exists O|by exists O|]. by intros [] ??? [=]. }
  destruct (json_Marshal env (payload_of job)) as [payload|e] eqn:Hj.
  2:{ split_and!; [done|by exists O|by exists O|]. by intros [] ??? [=]. }
  pose proof (emits_run _ _ (deliver_from_emits env job payload (Z.to_nat (MaxAttempts - 1)) 1 eq_refl)) as Hd.
  cbv beta in Hd. assert (1 ≤ 1 ≤ MaxAttempts) as Ha by (unfold MaxAttempts; lia).
  split_and!.
  - by intros [|[e [=]]].
  - destruct (delivers_names _ _ _ _ _ Hd Ha) as [k Hk]. rewrite Hk.
    destruct (builds env (WebhookURL job)); [by exists O|by exists k].
  - apply (delivers_pauses _ _ _ _ _ Hd Ha).
  - intros l1 p r l2 Heq. destruct (delivers_sent _ _ _ _ _ Hd Ha _ _ _ _ Heq) as (H1 & (a & now & _ & ->) & H2).
    split_and!; try done. intros ts body Hts. apply signature_binds; [|done].
    destruct (str_has _ (po_Timestamp _)) eqn:Hdot; [|done]. by apply Itoa_chars in Hdot as [[=]|[=]].
Qed.
