(* ===== verification/Engine.v ===== *)
(** * The job engine

    [jobs/engine.go]: the model work of a job, done through the dispatcher at
    batch priority. It is what the orchestrator's [Ports] are in the gateway. The
    dispatcher, the workers behind it and the audio cache are the class [Fleet];
    [held] is how many worker slots this gateway holds. *)

From stdpp Require Import base gmap strings pretty numbers list.
From S2P Require Import Prelude GoString Audio Cache Dispatch Synth Jobs JobStore Orchestrator.

(** What a [Merge] call asks of a worker, and its answer. *)
Record MergeRequest : Type := {
  mg_S3Keys : list string; mg_OutputS3Key : string; mg_Format : string; mg_SampleRate : Z;
}.

Class Fleet : Type := {
  en_sha256 : string → string;
  held : JobWorld → Z;
  fl_Reserve : Class_ → JM string;
  fl_Release : JM ();
  fl_Segment : string → string * bool → JM (list string);
  fl_Synthesize : string → SynthesizeRequest → JM WorkerStream;
  fl_Merge : string → MergeRequest → JM (string * Z);
  ca_Lookup : string → JM (Entry * Body);
  ca_Store : string → Entry → string → JM ();
}.

(** Neither the job rows nor the slots held changed. *)
Definition quiet `{Fleet} (w w' : JobWorld) : Prop := rows_same w w' ∧ held w' = held w.

#[export] Instance quiet_preorder `{Fleet} : PreOrder quiet.
Proof.
  split; [by split|]. intros w1 w2 w3 [H1 E1] [H2 E2]. split; [by etrans|congruence].
Qed.

(** What the engine relies on: a granted reservation is one slot more, a release
    one less, nothing else changes the slots, nothing at all the job rows; and
    the cache keeps its objects apart from the jobs'. *)
Class FleetLaws `{Fleet} : Prop := {
  held_nonneg w : 0 ≤ held w;
  Reserve_law cl w : rows_same w (fl_Reserve cl w).2 ∧
    held (fl_Reserve cl w).2 = held w + (if is_Ok (fl_Reserve cl w).1 then 1 else 0);
  Release_law w : rows_same w (fl_Release w).2 ∧ held (fl_Release w).2 = Z.max 0 (held w - 1);
  Segment_quiet a r : moves quiet (fl_Segment a r);
  Synthesize_quiet a r : moves quiet (fl_Synthesize a r);
  Merge_quiet a r : moves quiet (fl_Merge a r);
  Lookup_quiet k : moves quiet (ca_Lookup k);
  Store_quiet k e b : moves quiet (ca_Store k e b);
  Store_jobs k e b w x : HasPrefix x "jobs/" = true → jw_objects (ca_Store k e b w).2 !! x = jw_objects w !! x;
  Put_held k b : HasPrefix k "jobs/" = true → moves (λ w w', held w' = held w) (object_put k b);
}.

(** ** The engine *)

Section engine.
Context `{Fleet}.

(** A local result, in the middle of the calls. *)
Definition of_res {A} (r : res A) : JM A := λ w, (r, w).

(** Reserve a slot, do the work on it, give it back: [Reserve], the check of its
    error and the deferred [Release] that open every method. *)
Definition with_slot {A} (pre : string) (work : string → JM A) : JM A :=
  let* addr := swrap pre (fl_Reserve ClassBatch) in
  try r := work addr in
  try _ := fl_Release in
  of_res r.

Definition Split_ (job : Job) (text : string) : JM (list string) :=
  with_slot "reserve for segmentation: " (λ addr, swrap "segment: " (fl_Segment addr (text, Normalize job))).

Definition key_of (job : Job) (text : string) : string :=
  Derive en_sha256 {| ModelVersion := default "" (Metadata job !! modelVersionKey);
    Cache.VoiceID := Jobs.VoiceID job; Cache.Normalize := Jobs.Normalize job; In_Params := params job; Text := text |}.

Definition fromCache (key : string) : JM (option string) :=
  try r := ca_Lookup key in
  match r with
  | Err _ => sret None
  | Ok (_, body) =>
      match ReadAll body with
      | Ok pcm => if go_len pcm =? 0 then sret None else sret (Some pcm)
      | Err _ => sret None
      end
  end.

(** The frames as they come: unlike the synchronous path, their numbers are not
    looked at. *)
Fixpoint collect (l : list Frame) (end_ : option gerr) (pcm : string) : res string :=
  match l with
  | [] => match end_ with None => Ok pcm | Some e => Err (wrapf "receive segment audio: " e) end
  | f :: rest => let pcm := pcm +:+ Pcm16 f in if Last f then Ok pcm else collect rest end_ pcm
  end.

Definition segment_request (job : Job) (text : string) : SynthesizeRequest := {|
  sy_RequestId := ID job; sy_Text := text; sy_VoiceId := Jobs.VoiceID job;
  sy_Normalize := Jobs.Normalize job; sy_Params := None; sy_OutputSampleRate := Jobs.SampleRate job |}.

Definition synthesize (job : Job) (text : string) : JM string :=
  with_slot "reserve for segment: " (λ addr,
    let* s := swrap "synthesize segment: " (fl_Synthesize addr (segment_request job text)) in
    let* pcm := of_res (collect (frames s) (stream_error s) "") in
    if go_len pcm =? 0 then sfail (ENew "worker produced no audio") else sret pcm).

Definition Synthesize_ (job : Job) (seq : Z) (text : string) : JM SegmentResult :=
  let key := key_of job text in
  let* hit := fromCache key in
  match hit with
  | Some pcm =>
      let* s3Key := swrap "store cached segment: " (PutSegment (TenantID job) (ID job) seq pcm) in
      sret {| sr_S3Key := s3Key; Orchestrator.sr_DurationMS := Audio.DurationMS (go_len pcm) (Jobs.SampleRate job);
              sr_Cached := true |}
  | None =>
      let* pcm := synthesize job text in
      let* s3Key := swrap "store segment: " (PutSegment (TenantID job) (ID job) seq pcm) in
      let durationMS := Audio.DurationMS (go_len pcm) (Jobs.SampleRate job) in
      try _ := ca_Store key (pcm_entry pcm durationMS) pcm in
      sret {| sr_S3Key := s3Key; Orchestrator.sr_DurationMS := durationMS; sr_Cached := false |}
  end.

Definition merge_request (job : Job) (segmentKeys : list string) : MergeRequest := {|
  mg_S3Keys := segmentKeys; mg_OutputS3Key := OutputKey (TenantID job) (ID job) (Jobs.Format job);
  mg_Format := Jobs.Format job; mg_SampleRate := Jobs.SampleRate job |}.

Definition Merge_ (job : Job) (segmentKeys : list string) : JM (string * Z) :=
  let* reply := with_slot "reserve for merge: " (λ addr,
    swrap "merge: " (fl_Merge addr (merge_request job segmentKeys))) in
  let (outputKey, duration) := reply : string * Z in
  sret (outputKey, int32 (if MaxInt32 <? duration then MaxInt32 else duration)).

(** The engine, with a notifier, as the orchestrator's ports. *)
Definition engine_ports (notifier : option (Job → JM ())) : Ports := {|
  Orchestrator.sha256 := en_sha256; Split := Split_; Synthesize := Synthesize_; Merge := Merge_;
  JobFinished := notifier |}.
End engine.

(** ** Lemmas *)

Section lemmas.
Context `{FleetLaws}.

(** Whatever the work does, the slot is given back. *)
Lemma with_slot_quiet {A} pre (work : string → JM A) :
  (∀ addr, moves quiet (work addr)) → moves quiet (with_slot pre work).
Proof.
  intros Hwork w. unfold with_slot, sbind, swrap, stry, of_res.
  destruct (Reserve_law ClassBatch w) as [H1 H2]. destruct (fl_Reserve ClassBatch w) as [[addr|e] w1]; cbn in *.
  2:{ split; [done|lia]. }
  specialize (Hwork addr w1) as [H3 H4]. destruct (work addr w1) as [r w2]; cbn in *.
  destruct (Release_law w2) as [H5 H6]. destruct (fl_Release w2) as [r3 w3]; cbn in *.
  split; [by etrans; [|etrans]|]. pose proof (held_nonneg w). lia.
Qed.

Lemma of_res_quiet {A} (r : res A) : moves quiet (of_res r).
Proof. by intros w. Qed.

Lemma object_put_rows k b : moves rows_same (object_put k b).
Proof. by apply moves_wrap, rows_same_port. Qed.

Lemma PutSegment_quiet t j seq pcm : moves quiet (PutSegment t j seq pcm).
Proof.
  apply moves_bind; [apply _| |intros; apply moves_ret, _]. apply moves_wrap.
  intros w. split; [apply object_put_rows|apply Put_held, HasPrefix_app].
Qed.

Lemma Split_quiet job text : moves quiet (Split_ job text).
Proof. apply with_slot_quiet. intros. apply moves_wrap, Segment_quiet. Qed.

Lemma fromCache_quiet key : moves quiet (fromCache key).
Proof.
  apply moves_try; [apply _|apply Lookup_quiet|]. intros r. repeat case_match; apply moves_ret, _.
Qed.

Lemma synthesize_quiet job text : moves quiet (synthesize job text).
Proof.
  apply with_slot_quiet. intros addr. apply moves_bind; [apply _|apply moves_wrap, Synthesize_quiet|].
  intros s. apply moves_bind; [apply _|apply of_res_quiet|]. intros pcm.
  case_match; [apply moves_fail, _|apply moves_ret, _].
Qed.

Lemma Synthesize_quiet' job seq text : moves quiet (Synthesize_ job seq text).
Proof.
  apply moves_bind; [apply _|apply fromCache_quiet|]. intros [pcm|].
  - apply moves_bind; [apply _|apply moves_wrap, PutSegment_quiet|]. intros. apply moves_ret, _.
  - apply moves_bind; [apply _|apply synthesize_quiet|]. intros pcm.
    apply moves_bind; [apply _|apply moves_wrap, PutSegment_quiet|]. intros key.
    apply moves_try; [apply _|apply Store_quiet|]. intros. apply moves_ret, _.
Qed.

Lemma Merge_quiet' job keys : moves quiet (Merge_ job keys).
Proof.
  apply moves_bind; [apply _|apply with_slot_quiet; intros; apply moves_wrap, Merge_quiet|].
  intros [k d]. apply moves_ret, _.
Qed.

Lemma quiet_rows {A} (m : JM A) : moves quiet m → moves rows_same m.
Proof. intros Hm w. apply Hm. Qed.

(** So the engine is a lawful implementation of the orchestrator's ports, and all
    that is proved of the orchestrator holds of it. *)
#[export] Instance engine_laws notifier :
  (∀ f job, notifier = Some f → moves rows_same (f job)) → @PortLaws (engine_ports notifier).
Proof.
  intros Hn. split.
  - intros. apply quiet_rows, Split_quiet.
  - intros. apply quiet_rows, Synthesize_quiet'.
  - intros. apply quiet_rows, Merge_quiet'.
  - intros f job. apply Hn.
Qed.
End lemmas.

(** The audio a segment may come from: a readable, non-empty cached object, or
    the frames a worker sent for that segment, up to the last. *)
Definition from_cache `{Fleet} (job : Job) (text pcm : string) (w : JobWorld) : Prop :=
  ∃ entry body, (ca_Lookup (key_of job text) w).1 = Ok (entry, body) ∧ ReadAll body = Ok pcm.
Definition from_worker `{Fleet} (job : Job) (text pcm : string) : Prop :=
  ∃ addr w s, (fl_Synthesize addr (segment_request job text) w).1 = Ok s ∧
    collect (frames s) (stream_error s) "" = Ok pcm.

Section results.
Context `{FleetLaws}.

Lemma with_slot_Ok {A} pre (work : string → JM A) w a w' :
  with_slot pre work w = (Ok a, w') → ∃ addr w1, (work addr w1).1 = Ok a.
Proof.
  unfold with_slot, sbind, swrap, stry, of_res. destruct (fl_Reserve ClassBatch w) as [[addr|e] w1]; [|done].
  destruct (work addr w1) as [r w2] eqn:E. destruct (fl_Release w2). intros [= -> _].
  exists addr, w1. by rewrite E.
Qed.

Lemma synthesize_Ok job text w pcm w' :
  synthesize job text w = (Ok pcm, w') → from_worker job text pcm ∧ 0 < go_len pcm.
Proof.
  intros (addr & w1 & Hw)%with_slot_Ok. unfold sbind, swrap, of_res in Hw.
  destruct (fl_Synthesize _ _ w1) as [[s|e] w2] eqn:Es; cbn in Hw; [|done].
  destruct (collect _ _ _) as [pcm'|e] eqn:Ec; cbn in Hw; [|done].
  destruct (Z.eqb_spec (go_len pcm') 0); cbn in Hw; [done|]. injection Hw as ->. split.
  - exists addr, w1, s. by rewrite Es.
  - unfold go_len in *. lia.
Qed.

Lemma fromCache_Some job text w pcm w' :
  fromCache (key_of job text) w = (Ok (Some pcm), w') → from_cache job text pcm w ∧ 0 < go_len pcm.
Proof.
  unfold fromCache, stry, from_cache. destruct (ca_Lookup _ w) as [[[entry body]|e] w1]; [|done].
  destruct (ReadAll body) as [b|e] eqn:Hr; [|done]. destruct (Z.eqb_spec (go_len b) 0); intros [= <- _].
  split; [by exists entry, body|]. unfold go_len in *. lia.
Qed.

Lemma PutSegment_Ok t j seq pcm w k w' :
  PutSegment t j seq pcm w = (Ok k, w') → k = SegmentKey t j seq ∧ jw_objects w' !! k = Some pcm.
Proof.
  unfold PutSegment, object_put, sbind, swrap, port.
  destruct (faults w) as [|[] fs]; cbn; intros [= <- <-]; (split; [done|]); apply lookup_insert_eq.
Qed.
End results.

(** ** A small fleet, for a concrete run: one worker, two slots counted in an object *)

Definition slots_of (w : JobWorld) : Z := go_len (default "" (jw_objects w !! "fleet"%string)).

#[export] Instance demo_fleet : Fleet := {|
  en_sha256 s := "0123456789abcdef0123456789abcdef";
  held := slots_of;
  fl_Reserve _ w := (Ok "w1", set_objs (<["fleet" := String (byte_of 120) (default "" (jw_objects w !! "fleet"))]>
                                          (jw_objects w)) w);
  fl_Release w := (Ok (), set_objs (<["fleet" := str_drop 1 (default "" (jw_objects w !! "fleet"))]> (jw_objects w)) w);
  fl_Segment _ r := sret (Fields r.1);
  fl_Synthesize _ r := sret {| frames := [{| Seq := 1; Pcm16 := sy_Text r; Last := false |};
                                          {| Seq := 7; Pcm16 := ".."; Last := true |}]; stream_error := None |};
  fl_Merge _ r := sret (mg_OutputS3Key r, 40);
  ca_Lookup _ := sfail (ESentinel ErrMiss);
  ca_Store _ _ _ := sret ();
|}.

#[export] Instance demo_fleet_laws : FleetLaws.
Proof.
  split; try done; try (intros; first [apply moves_ret, _|apply moves_fail, _]).
  - intros w. unfold held, demo_fleet, slots_of, go_len. lia.
  - intros cl w. cbn. unfold slots_of. cbn. rewrite lookup_insert_eq. cbn. split; [done|]. unfold go_len. cbn. lia.
  - intros w. cbn -[str_drop]. unfold slots_of. cbn -[str_drop]. rewrite lookup_insert_eq. cbn -[str_drop].
    split; [done|]. unfold go_len. rewrite str_drop_length. lia.
  - intros k b Hk w. unfold object_put, swrap, port. cbn.
    assert (k ≠ "fleet"%string) by by intros ->.
    destruct (jw_faults w) as [|[] fs]; cbn; try done; unfold slots_of; cbn; by rewrite lookup_insert_ne.
Qed.

(** ** Properties *)

(** C14. The job engine implements what the orchestrator relies on, over any lawful
    fleet. Splitting, synthesizing and merging change no job row and give back
    every slot they take, whatever fails. A segment that is reported done is in
    the bucket under its own key, its audio is not empty, its duration is that
    audio's, and it is a cached object's for that text, voice and parameters, or
    what a worker sent for it. A merge asks for the job's own output key, and its
    duration is a 32-bit integer. *)
Theorem engine_refines `{FleetLaws} job seq text keys w :
  (quiet w (Split_ job text w).2 ∧ quiet w (Synthesize_ job seq text w).2 ∧ quiet w (Merge_ job keys w).2) ∧
  (∀ res, (Synthesize_ job seq text w).1 = Ok res → ∃ pcm,
     0 < go_len pcm ∧ sr_S3Key res = SegmentKey (TenantID job) (ID job) seq ∧
     jw_objects (Synthesize_ job seq text w).2 !! sr_S3Key res = Some pcm ∧
     Orchestrator.sr_DurationMS res = Audio.DurationMS (go_len pcm) (Jobs.SampleRate job) ∧
     if sr_Cached res then from_cache job text pcm w else from_worker job text pcm) ∧
  (∀ key d, (Merge_ job keys w).1 = Ok (key, d) → in_int32 d ∧ ∃ addr w1 ms,
     (fl_Merge addr (merge_request job keys) w1).1 = Ok (key, ms) ∧
     (MinInt32 ≤ ms → d = Z.min ms MaxInt32)).
Proof.
  split; [split_and!; [apply Split_quiet|apply Synthesize_quiet'|apply Merge_quiet']|]. split.
  - intros res. destruct (Synthesize_ job seq text w) as [r w'] eqn:HS. cbn [fst snd]. intros ->.
    unfold Synthesize_, sbind, swrap, stry in HS.
    destruct (fromCache (key_of job text) w) as [[[pcm|]|e] w1] eqn:Hc; [| |done].
    + destruct (fromCache_Some _ _ _ _ _ Hc) as [Hfrom Hlen].
      destruct (PutSegment _ _ _ _ w1) as [[k|e] w2] eqn:Hp; [|done]. injection HS as <- <-. exists pcm.
      by destruct (PutSegment_Ok _ _ _ _ _ _ _ Hp) as [-> Hobj].
    + destruct (synthesize job text w1) as [[pcm|e] w2] eqn:Hs; [|done].
      destruct (synthesize_Ok _ _ _ _ _ Hs) as [Hfrom Hlen].
      destruct (PutSegment _ _ _ _ w2) as [[k|e] w3] eqn:Hp; [|done].
      destruct (PutSegment_Ok _ _ _ _ _ _ _ Hp) as [-> Hobj].
      pose proof (Store_jobs (key_of job text) (pcm_entry pcm (Audio.DurationMS (go_len pcm) (Jobs.SampleRate job)))
        pcm w3 (SegmentKey (TenantID job) (ID job) seq) (HasPrefix_app "jobs/" _)) as Hst.
      destruct (ca_Store _ _ _ w3) as [r w4]. injection HS as <- <-. exists pcm. cbn in *. by rewrite Hst.
  - intros key d. unfold Merge_, sbind. destruct (with_slot _ _ w) as [[[k ms]|e] w1] eqn:Hw; [|done].
    apply with_slot_Ok in Hw as (addr & w2 & Hw). intros [= -> <-]. split.
    + unfold in_int32, int32, wrap, MinInt32, MaxInt32. change (2 ^ (32 - 1)) with 2147483648.
      change (2 ^ 32) with 4294967296. dlia.
    + exists addr, w2, ms. split.
      * unfold swrap in Hw. by destruct (fl_Merge _ _ w2) as [[|] ?].
      * intros Hms. unfold int32, wrap, MinInt32, MaxInt32 in *. change (2 ^ (32 - 1)) with 2147483648.
        change (2 ^ 32) with 4294967296. destruct (Z.ltb_spec 2147483647 ms); dlia.
Qed.

Lemma engine_refines_witness :
  let w := demo_world [] in
  ∃ res, (Synthesize_ demo_job 0 "mot" w).1 = Ok res ∧ held (Synthesize_ demo_job 0 "mot" w).2 = held w ∧
    jw_objects (Synthesize_ demo_job 0 "mot" w).2 !! sr_S3Key res = Some "mot.."%string.
Proof.
  intros w. destruct (engine_refines demo_job 0 "mot" [] w) as ((_ & [_ Hheld] & _) & Hres & _).
  eexists. split; [reflexivity|]. split; [exact Hheld|].
  destruct (Hres _ eq_refl) as (pcm & _ & _ & Hobj & _ & (addr & w1 & s & [= <-] & [= <-])). exact Hobj.
Defined.

(** The request a segment is synthesized with does not depend on the job's
    parameters, which its cache key does: two jobs that differ in them only get
    the same audio, filed under both keys. *)
Lemma engine_ignores_params `{Fleet} job text p :
  let job' := {| ID := ID job; TenantID := TenantID job; Jobs.KeyID := Jobs.KeyID job;
    IdempotencyKey := IdempotencyKey job; status := status job; Jobs.VoiceID := Jobs.VoiceID job;
    Jobs.Format := Jobs.Format job; Jobs.SampleRate := Jobs.SampleRate job; Jobs.Normalize := Jobs.Normalize job;
    params := p; TotalChars := TotalChars job; SegmentsTotal := SegmentsTotal job;
    SegmentsDone := SegmentsDone job; OutputS3Key := OutputS3Key job; Jobs.DurationMS := Jobs.DurationMS job;
    WebhookURL := WebhookURL job; Metadata := Metadata job; Error := Error job;
    CreatedAt := CreatedAt job; UpdatedAt := UpdatedAt job; CompletedAt := CompletedAt job |} in
  segment_request job' text = segment_request job text ∧
  ∀ w, synthesize job' text w = synthesize job text w.
Proof. done. Qed.
