(* ===== verification/EngineRun.v ===== *)
(** * Jobs on the engine

    The engine of [Engine.v] discharges what [JobRun], [JobRecover] and [JobEnd] ask of an
    engine, given a fleet of workers that is honest, and answers once it is
    asked: what is proved there of jobs in general holds of the gateway's. *)

From stdpp Require Import base gmap strings pretty numbers list.
From S2P Require Import Prelude GoString Audio Cache Dispatch Synth Jobs JobStore Orchestrator JobRun JobRecover JobEnd Engine.

(** The jobs' objects are as they were, but for one. *)
Definition objects_kept (but : option string) (w w' : JobWorld) : Prop :=
  ∀ x, HasPrefix x "jobs/" = true → Some x ≠ but → jw_objects w' !! x = jw_objects w !! x.

#[export] Instance objects_kept_preorder but : PreOrder (objects_kept but).
Proof. split; [by intros w x|]. intros w1 w2 w3 H1 H2 x Hx Hb. by rewrite H2, H1. Qed.

(** A fleet that does not lie: it cuts a text one way, merges to where it was
    told, and writes no job's object but a merge's output. *)
Class FleetHonest `{FleetLaws} : Type := {
  cut : bool → string → list string;
  fh_digest s : go_len (en_sha256 s) = 32;
  fh_reserve cl : moves (objects_kept None) (fl_Reserve cl);
  fh_release : moves (objects_kept None) fl_Release;
  fh_segment a r : moves (objects_kept None) (fl_Segment a r);
  fh_synthesize a r : moves (objects_kept None) (fl_Synthesize a r);
  fh_lookup k : moves (objects_kept None) (ca_Lookup k);
  fh_merge a r : moves (objects_kept (Some (mg_OutputS3Key r))) (fl_Merge a r);
  fh_cuts a text norm w l : (fl_Segment a (text, norm) w).1 = Ok l → l = cut norm text;
  fh_merges a r w k ms : (fl_Merge a r w).1 = Ok (k, ms) → k = mg_OutputS3Key r;
}.

(** Calls that leave the streams and the schedule of failures alone. *)
Definition aside (w w' : JobWorld) : Prop := jw_streams w' = jw_streams w ∧ jw_faults w' = jw_faults w.

#[export] Instance aside_preorder : PreOrder aside.
Proof. split; [done|]. intros w1 w2 w3 [] []. split; congruence. Qed.

(** [m] answers, with something [Q] says, and leaves the rest alone. *)
Definition answers {A} (m : JM A) (Q : A → Prop) : Prop :=
  ∀ w, jw_faults w = [] → ∃ a w', m w = (Ok a, w') ∧ aside w w' ∧ Q a.

(** A fleet with room, whose workers produce audio. *)
Class FleetAnswers `{FleetHonest} : Type := {
  merge_ms : MergeRequest → Z;
  fa_reserve cl : answers (fl_Reserve cl) (λ _, True);
  fa_release : answers fl_Release (λ _, True);
  fa_segment a r : answers (fl_Segment a r) (λ _, True);
  fa_synthesize a r : answers (fl_Synthesize a r)
    (λ s, ∃ pcm, collect (frames s) (stream_error s) "" = Ok pcm ∧ pcm ≠ "");
  fa_merge a r : answers (fl_Merge a r) (λ p, p.2 = merge_ms r);
  fa_lookup k w : jw_faults w = [] → aside w (ca_Lookup k w).2;
  fa_store k e b w : jw_faults w = [] → aside w (ca_Store k e b w).2;
}.

Section honest.
Context `{FleetHonest}.

Lemma input_is_jobs t j : HasPrefix (InputKey t j) "jobs/" = true.
Proof. apply (HasPrefix_app "jobs/"). Qed.

(** No segment or output has the input's key. *)
Lemma SegmentKey_apart t j seq : InputKey t j ≠ SegmentKey t j seq.
Proof. unfold InputKey, SegmentKey. intros Heq. by repeat (apply (inj (String.append _)) in Heq). Qed.
Lemma OutputKey_apart t j f : InputKey t j ≠ OutputKey t j f.
Proof. unfold InputKey, OutputKey. intros Heq. by repeat (apply (inj (String.append _)) in Heq). Qed.

Lemma with_slot_kept {A} but pre (work : string → JM A) :
  (∀ addr, moves (objects_kept but) (work addr)) → moves (objects_kept but) (with_slot pre work).
Proof.
  assert (∀ {B} (m : JM B), moves (objects_kept None) m → moves (objects_kept but) m) as Hweak
    by (intros B m Hm w x Hx _; by apply Hm).
  intros Hwork. apply moves_bind; [apply _|apply moves_wrap, Hweak, fh_reserve|]. intros addr.
  apply moves_try; [apply _|apply Hwork|]. intros r.
  apply moves_try; [apply _|apply Hweak, fh_release|]. intros ? w. reflexivity.
Qed.

(** Putting an object leaves the others. *)
Lemma object_put_kept k b : moves (objects_kept (Some k)) (object_put k b).
Proof.
  apply moves_wrap, moves_port; [apply _|by intros fs w x|]. intros w x _ Hx. cbn. by rewrite lookup_insert_ne by congruence.
Qed.

Lemma PutSegment_kept t j seq pcm : moves (objects_kept (Some (SegmentKey t j seq))) (PutSegment t j seq pcm).
Proof.
  apply moves_bind; [apply _|apply moves_wrap, object_put_kept|]. intros ? w. reflexivity.
Qed.

Lemma Store_kept but k e b : moves (objects_kept but) (ca_Store k e b).
Proof. intros w x Hx _. by apply Store_jobs. Qed.

Lemma kept_weaken {A} but (m : JM A) : moves (objects_kept None) m → moves (objects_kept but) m.
Proof. intros Hm w x Hx _. by apply Hm. Qed.

Lemma fromCache_kept key : moves (objects_kept None) (fromCache key).
Proof. apply moves_try; [apply _|apply fh_lookup|]. intros r. repeat case_match; apply moves_ret, _. Qed.

Lemma synthesize_kept job text : moves (objects_kept None) (synthesize job text).
Proof.
  apply with_slot_kept. intros addr. apply moves_bind; [apply _|apply moves_wrap, fh_synthesize|].
  intros s. apply moves_bind; [apply _|by intros w|]. intros pcm. case_match; [apply moves_fail, _|apply moves_ret, _].
Qed.

Lemma Split_kept job text : moves (objects_kept None) (Split_ job text).
Proof. apply with_slot_kept. intros. apply moves_wrap, fh_segment. Qed.

Lemma Synthesize_kept job seq text :
  moves (objects_kept (Some (SegmentKey (TenantID job) (ID job) seq))) (Synthesize_ job seq text).
Proof.
  apply moves_bind; [apply _|apply kept_weaken, fromCache_kept|]. intros [pcm|].
  - apply moves_bind; [apply _|apply moves_wrap, PutSegment_kept|]. intros. apply moves_ret, _.
  - apply moves_bind; [apply _|apply kept_weaken, synthesize_kept|]. intros pcm.
    apply moves_bind; [apply _|apply moves_wrap, PutSegment_kept|]. intros key.
    apply moves_try; [apply _|apply Store_kept|]. intros. apply moves_ret, _.
Qed.

Lemma Merge_kept job keys :
  moves (objects_kept (Some (OutputKey (TenantID job) (ID job) (Jobs.Format job)))) (Merge_ job keys).
Proof.
  apply moves_bind; [apply _|apply with_slot_kept; intros addr; apply moves_wrap, (fh_merge addr (merge_request job keys))|].
  intros [k d]. apply moves_ret, _.
Qed.

(** An operation that leaves rows and the job's text alone. *)
Lemma calm_of {A} job but (m : JM A) :
  moves quiet m → moves (objects_kept (Some but)) m → InputKey (TenantID job) (ID job) ≠ but →
  ∀ w, calm job w (m w).2.
Proof.
  intros Hq Hk Hne w. destruct (Hq w) as [[E1 E2] _]. split_and!; [done|done|].
  apply Hk; [apply input_is_jobs|congruence].
Qed.

Lemma Split_result job text w l : (Split_ job text w).1 = Ok l → l = cut (Jobs.Normalize job) text.
Proof.
  unfold Split_. destruct (with_slot _ _ w) as [r w'] eqn:Hw. intros Hr. cbn in Hr. subst r.
  apply with_slot_Ok in Hw as (addr & w1 & Hw). unfold swrap in Hw.
  destruct (fl_Segment addr _ w1) as [[l'|e] w2] eqn:Hs; [|done]. injection Hw as ->.
  apply (fh_cuts addr text (Jobs.Normalize job) w1). by rewrite Hs.
Qed.

Lemma Merge_result job keys w k d :
  (Merge_ job keys w).1 = Ok (k, d) → k = OutputKey (TenantID job) (ID job) (Jobs.Format job).
Proof.
  unfold Merge_, sbind. destruct (with_slot _ _ w) as [[[k' ms]|e] w1] eqn:Hw; [|done]. intros [= -> _].
  apply with_slot_Ok in Hw as (addr & w2 & Hw). unfold swrap in Hw.
  destruct (fl_Merge addr _ w2) as [[[k' ms']|e] w3] eqn:Hm; [|done]. injection Hw as -> ->.
  eapply (fh_merges addr (merge_request job keys) w2). by rewrite Hm.
Qed.

Lemma Synthesize_result job seq text w r :
  (Synthesize_ job seq text w).1 = Ok r → sr_S3Key r = SegmentKey (TenantID job) (ID job) seq.
Proof.
  unfold Synthesize_, sbind, swrap, stry.
  destruct (fromCache _ w) as [[[pcm|]|e] w1]; [| |done].
  - destruct (PutSegment _ _ _ _ w1) as [[k|e] w2] eqn:Hp; [|done]. intros [= <-].
    by destruct (PutSegment_Ok _ _ _ _ _ _ _ Hp) as [-> _].
  - destruct (synthesize _ _ w1) as [[pcm|e] w2]; [|done].
    destruct (PutSegment _ _ _ _ w2) as [[k|e] w3] eqn:Hp; [|done]. destruct (ca_Store _ _ _ w3). intros [= <-].
    by destruct (PutSegment_Ok _ _ _ _ _ _ _ Hp) as [-> _].
Qed.
End honest.

(** ** When the fleet answers *)

Lemma answers_ret {A} (a : A) (Q : A → Prop) : Q a → answers (sret a) Q.
Proof. intros Ha w _. by exists a, w. Qed.

Lemma answers_bind {A B} (m : JM A) (k : A → JM B) Q R :
  answers m Q → (∀ a, Q a → answers (k a) R) → answers (sbind m k) R.
Proof.
  intros Hm Hk w Hf. destruct (Hm w Hf) as (a & w1 & Hrun & H1 & Ha).
  destruct (Hk a Ha w1) as (b & w2 & Hrun2 & H2 & Hb); [by rewrite (proj2 H1)|].
  exists b, w2. split_and!; [by erewrite bind_ok|by etrans|done].
Qed.

Lemma answers_wrap {A} pre (m : JM A) Q : answers m Q → answers (swrap pre m) Q.
Proof. intros Hm w Hf. destruct (Hm w Hf) as (a & w1 & Hrun & H1 & Ha). exists a, w1. by erewrite wrap_ok. Qed.

(** A call whose outcome is not looked at. *)
Lemma answers_try {A B} (m : JM A) (k : res A → JM B) R :
  (∀ w, jw_faults w = [] → aside w (m w).2) → (∀ r, answers (k r) R) → answers (stry m k) R.
Proof.
  intros Hm Hk w Hf. unfold stry. specialize (Hm w Hf). destruct (m w) as [r w1]. cbn in Hm.
  destruct (Hk r w1) as (b & w2 & Hrun & H2 & Hb); [by rewrite (proj2 Hm)|].
  exists b, w2. split_and!; [done|by etrans|done].
Qed.

Lemma answers_aside {A} (m : JM A) Q w : answers m Q → jw_faults w = [] → aside w (m w).2.
Proof. intros Hm Hf. by destruct (Hm w Hf) as (a & w1 & -> & H1 & _). Qed.

Lemma object_put_answers k b : answers (object_put k b) (λ _, True).
Proof. apply answers_wrap. intros w Hf. rewrite port_answered by done. eexists _, _. by split_and!. Qed.

Section answering.
Context `{FleetAnswers}.

Lemma with_slot_answers {A} pre (work : string → JM A) Q :
  (∀ addr, answers (work addr) Q) → answers (with_slot pre work) Q.
Proof.
  intros Hwork. eapply answers_bind; [apply answers_wrap, fa_reserve|]. intros addr _ w Hf.
  destruct (Hwork addr w Hf) as (a & w1 & Hrun & Hw1 & Ha).
  assert (answers (try _ := fl_Release in of_res (Ok a)) Q) as Hrel.
  { apply answers_try; [intros; by eapply answers_aside; [apply fa_release|]|]. intros _. by apply answers_ret. }
  destruct (Hrel w1) as (b & w2 & Hrun2 & Hw2 & Hb); [by rewrite (proj2 Hw1)|].
  exists b, w2. unfold stry at 1. rewrite Hrun. split_and!; [done|by etrans|done].
Qed.

Lemma PutSegment_answers t j seq pcm : answers (PutSegment t j seq pcm) (λ _, True).
Proof. eapply answers_bind; [apply answers_wrap, object_put_answers|]. intros _ _. by apply answers_ret. Qed.

Lemma fromCache_answers key : answers (fromCache key) (λ _, True).
Proof. apply answers_try; [apply fa_lookup|]. intros r. repeat case_match; by apply answers_ret. Qed.

Lemma synthesize_answers job text : answers (synthesize job text) (λ _, True).
Proof.
  apply with_slot_answers. intros addr. eapply answers_bind; [apply answers_wrap, fa_synthesize|].
  intros s (pcm & Hc & Hne). cbv beta in Hc. rewrite Hc. eapply answers_bind; [by apply (answers_ret pcm (λ p, p = pcm))|].
  intros ? ->. destruct (Z.eqb_spec (go_len pcm) 0) as [Hz|]; [|by apply answers_ret].
  destruct pcm; [done|]. unfold go_len in Hz. cbn in Hz. lia.
Qed.

Lemma Synthesize_answers job seq text : answers (Synthesize_ job seq text) (λ _, True).
Proof.
  eapply answers_bind; [apply fromCache_answers|]. intros [pcm|] _.
  - eapply answers_bind; [apply answers_wrap, PutSegment_answers|]. intros. by apply answers_ret.
  - eapply answers_bind; [apply synthesize_answers|]. intros pcm _.
    eapply answers_bind; [apply answers_wrap, PutSegment_answers|]. intros key _.
    apply answers_try; [apply fa_store|]. intros. by apply answers_ret.
Qed.

Lemma Split_answers job text : answers (Split_ job text) (λ _, True).
Proof. apply with_slot_answers. intros addr. apply answers_wrap, fa_segment. Qed.

Definition merge_duration (job : Job) (keys : list string) : Z :=
  let duration := merge_ms (merge_request job keys) in
  int32 (if MaxInt32 <? duration then MaxInt32 else duration).

Lemma Merge_answers job keys : answers (Merge_ job keys) (λ p, p.2 = merge_duration job keys).
Proof.
  eapply answers_bind; [apply with_slot_answers; intros addr; apply answers_wrap, fa_merge|].
  intros [k d] Hd. cbn in Hd. apply answers_ret. cbn. by rewrite Hd.
Qed.

Lemma undisturbed_of {A} job but (m : JM A) Q w :
  answers m Q → moves quiet m → moves (objects_kept (Some but)) m → InputKey (TenantID job) (ID job) ≠ but →
  jw_faults w = [] → undisturbed job w (m w).2.
Proof.
  intros Ha Hq Hk Hne Hf. destruct (answers_aside m Q w Ha Hf). destruct (calm_of job but m Hq Hk Hne w) as (? & ? & ?).
  by split.
Qed.

(** The engine is an engine whose calls succeed. *)
#[export] Instance engine_ideal notifier :
  (∀ f job w, notifier = Some f → jw_faults w = [] → ∃ r w', f job w = (r, w') ∧ undisturbed job w w') →
  @IdealPorts (engine_ports notifier).
Proof.
  intros Hn. refine (@Build_IdealPorts (engine_ports notifier) cut merge_duration fh_digest _ _ _ _); cbn.
  - intros job text w Hf. destruct (Split_answers job text w Hf) as (l & w' & Hrun & _).
    assert (l = cut (Jobs.Normalize job) text) as -> by (apply (Split_result job text w); by rewrite Hrun).
    exists w'. split; [done|].
    pose proof (undisturbed_of job _ _ _ w (Split_answers job text) (Split_quiet job text)
      (kept_weaken (Some "") _ (Split_kept job text)) ltac:(done) Hf) as Hu. by rewrite Hrun in Hu.
  - intros job seq text w Hf. destruct (Synthesize_answers job seq text w Hf) as (r & w' & Hrun & _).
    exists r, w'. split_and!; [done| |apply (Synthesize_result job seq text w); by rewrite Hrun].
    pose proof (undisturbed_of job _ _ _ w (Synthesize_answers job seq text) (Synthesize_quiet' job seq text)
      (Synthesize_kept job seq text) (SegmentKey_apart _ _ _) Hf) as Hu. by rewrite Hrun in Hu.
  - intros job keys w Hf. destruct (Merge_answers job keys w Hf) as ([k d] & w' & Hrun & _ & Hd).
    assert (k = OutputKey (TenantID job) (ID job) (Jobs.Format job)) as ->
      by (apply (Merge_result job keys w _ d); by rewrite Hrun).
    cbn in Hd. subst d. exists w'. split; [done|].
    pose proof (undisturbed_of job _ _ _ w (Merge_answers job keys) (Merge_quiet' job keys) (Merge_kept job keys)
      (OutputKey_apart _ _ _) Hf) as Hu. by rewrite Hrun in Hu.
  - intros f job w Hf. by apply Hn.
Defined.

(** And its reports are true when calls fail. *)
#[export] Instance engine_sound notifier Hn :
  (∀ f job w, notifier = Some f → calm job w (f job w).2) → @SoundPorts (engine_ports notifier) (engine_ideal notifier Hn).
Proof.
  intros Hc. split; cbn.
  - intros job text w. split; [|apply Split_result].
    apply (calm_of job ""); [apply Split_quiet|apply kept_weaken, Split_kept|done].
  - intros job seq text w. split; [|apply Synthesize_result].
    apply (calm_of job (SegmentKey (TenantID job) (ID job) seq)); [apply Synthesize_quiet'|apply Synthesize_kept|apply SegmentKey_apart].
  - intros job keys w. split; [|apply Merge_result].
    apply (calm_of job (OutputKey (TenantID job) (ID job) (Jobs.Format job))); [apply Merge_quiet'|apply Merge_kept|apply OutputKey_apart].
  - intros f job w. apply Hc.
Qed.

(** And leaves the texts that wait alone, when ids have no slash. *)
#[export] Instance engine_apart notifier :
  (∀ f job w t i, notifier = Some f → plain (TenantID job) → plain (ID job) → plain t → plain i →
     jw_objects (f job w).2 !! InputKey t i = jw_objects w !! InputKey t i) →
  @ApartPorts (engine_ports notifier).
Proof.
  intros Hn. split; cbn.
  - intros job text w t i _ _ _ _. by apply Split_kept; [apply input_is_jobs|].
  - intros job seq text w t i PT PI Pt Pi. apply Synthesize_kept; [apply input_is_jobs|]. intros Heq%(inj Some).
    revert Heq. by apply (InputKey_apart t i _ _ ("seg/" +:+ _)).
  - intros job keys w t i PT PI Pt Pi. apply Merge_kept; [apply input_is_jobs|]. intros Heq%(inj Some).
    revert Heq. by apply (InputKey_apart t i _ _ ("output." +:+ _)).
  - intros f job w t i Hf. by apply Hn.
Qed.
End answering.

(** ** The small fleet of [Engine.v] *)

Lemma fleet_not_a_job x : HasPrefix x "jobs/" = true → x ≠ "fleet".
Proof. by intros Hx ->. Qed.

Lemma demo_put_kept but b : moves (objects_kept but) (λ w, (Ok (), set_objs (<["fleet" := b w]> (jw_objects w)) w)).
Proof. intros w x Hx _. cbn. pose proof (fleet_not_a_job x Hx). by rewrite lookup_insert_ne. Qed.

#[export] Instance demo_honest : FleetHonest.
Proof.
  refine (@Build_FleetHonest demo_fleet demo_fleet_laws (λ _, Fields) _ _ _ _ _ _ _ _ _); cbn.
  - done.
  - intros _ w x Hx _. cbn. by rewrite lookup_insert_ne by (symmetry; by apply fleet_not_a_job).
  - apply demo_put_kept.
  - intros. apply moves_ret, _.
  - intros. apply moves_ret, _.
  - intros. apply moves_fail, _.
  - intros. apply moves_ret, _.
  - by intros _ text norm w l [= <-].
  - by intros _ r w k ms [= <- _].
Defined.

#[export] Instance demo_answers : FleetAnswers.
Proof.
  refine (@Build_FleetAnswers demo_fleet demo_fleet_laws demo_honest (λ _, 40) _ _ _ _ _ _ _).
  - intros cl w _. by eexists _, _.
  - intros w _. by eexists _, _.
  - intros a r. by apply answers_ret.
  - intros a r. apply answers_ret. eexists. split; [reflexivity|]. by destruct (sy_Text r).
  - intros a r. by apply answers_ret.
  - done.
  - done.
Defined.

(** A job on the engine, whose first segment's call is refused and tried again:
    three segments, completed, every slot given back. *)
Example engine_job :
  let ports := engine_ports None in
  let w := (handleJob (H := ports) first_entry (demo_world [])).2 in
  let w := (process (H := ports) StreamSegments [segment_entry 0]
              (set_faults [Answered; Answered; Answered; Answered; Refused] w)).2 in
  let w := (process (H := ports) StreamSegments (segment_entry <$> [2; 0; 1]) (set_faults [] w)).2 in
  (option_map status (jw_jobs w !! "j"%string), sg_Attempts <$> job_segments (jw_segs w) "j", held w)
  = (Some StatusCompleted, [2; 1; 1], 0).
Proof. by vm_compute. Qed.
