(* ===== verification/Problem.v ===== *)
(** * Error responses

    [http/problem.go], the one place an error becomes a response, and the maps
    from each use case's errors ([http/synthesize.go], [stream.go], [jobs.go],
    [keys.go], [admin_handlers.go]). A response is its status, its headers and
    its body; encoding the body and logging are left out. *)

From stdpp Require Import base gmap strings pretty numbers list.
From Stdlib Require Import SpecFloat.
From S2P Require Import Prelude GoString Float.

(** ** [problem.go] *)

Inductive Code : Type :=
| CodeInvalidRequest | CodeTextTooLong | CodeUnknownVoice | CodeUnauthorized | CodeForbiddenScope
| CodeQuotaExceeded | CodeRateLimited | CodeConcurrencyLimited | CodeOverloaded | CodeJobNotFound
| CodeIdempotencyConflict | CodeInternal.

#[global] Instance Code_eq_dec : EqDecision Code.
Proof. solve_decision. Defined.

Definition Code_String (c : Code) : string :=
  match c with
  | CodeInvalidRequest => "invalid_request" | CodeTextTooLong => "text_too_long"
  | CodeUnknownVoice => "unknown_voice" | CodeUnauthorized => "unauthorized"
  | CodeForbiddenScope => "forbidden_scope" | CodeQuotaExceeded => "quota_exceeded"
  | CodeRateLimited => "rate_limited" | CodeConcurrencyLimited => "concurrency_limited"
  | CodeOverloaded => "overloaded" | CodeJobNotFound => "job_not_found"
  | CodeIdempotencyConflict => "idempotency_conflict" | CodeInternal => "internal"
  end.

Definition problemTypeBase : string := "https://docs.vitts.dev/errors/".

Record Problem : Type := {
  pb_Type : string; pb_Title : string; pb_Status : Z; pb_Detail : string; pb_Instance : string;
  pb_Code : Code; pb_RequestID : string;
}.

Record Error : Type := {
  er_Code : Code; er_Status : Z; er_Title : string; er_Detail : string; er_RetryAfter : Z;
  er_Cause : option gerr;
}.

(** An error as a handler holds it: an [*Error], or anything else. *)
Inductive herror : Type := Mapped (e : Error) | Unmapped (e : gerr).

Definition statusFor (c : Code) : Z * string :=
  match c with
  | CodeInvalidRequest => (400, "Invalid request")
  | CodeTextTooLong => (413, "Text too long")
  | CodeUnknownVoice => (422, "Unknown voice")
  | CodeUnauthorized => (401, "Unauthorized")
  | CodeForbiddenScope => (403, "Forbidden scope")
  | CodeJobNotFound => (404, "Job not found")
  | CodeIdempotencyConflict => (409, "Idempotency conflict")
  | CodeQuotaExceeded => (402, "Quota exceeded")
  | CodeRateLimited => (429, "Rate limited")
  | CodeConcurrencyLimited => (429, "Concurrency limited")
  | CodeOverloaded => (503, "Overloaded")
  | CodeInternal => (500, "Internal error")
  end.

Definition NewError (code : Code) (detail : string) : Error :=
  let '(status, title) := statusFor code in
  {| er_Code := code; er_Status := status; er_Title := title; er_Detail := detail; er_RetryAfter := 0;
     er_Cause := None |}.

(** [&Error{Code: CodeInternal, Cause: err}]. *)
Definition internal (cause : gerr) : Error :=
  {| er_Code := CodeInternal; er_Status := 0; er_Title := ""; er_Detail := ""; er_RetryAfter := 0;
     er_Cause := Some cause |}.

(** [Duration.Seconds], then [math.Ceil]. *)
Definition Seconds (d : Z) : spec_float :=
  f64_add (f64_of_Z (Z.quot d Second)) (f64_div (f64_of_Z (Z.rem d Second)) (f64_of_Z 1000000000)).

Definition retryAfterSeconds (d : Z) : string :=
  let seconds := f64_ceil (Seconds d) in
  Itoa (if seconds <? 1 then 1 else seconds).

Inductive RBody : Type := NoBody | ProblemBody (p : Problem) | AudioBody (s : string) | OtherBody.

Record Response : Type := { rs_Status : Z; rs_Header : gmap string string; rs_Body : RBody }.

Definition HeaderRetryAfter : string := "Retry-After".
Definition ContentTypeProblem : string := "application/problem+json".

(** The status and title [toProblem] fills in when they are missing. *)
Definition filled (e : Error) : Error :=
  let '(status, title) := statusFor (er_Code e) in
  {| er_Code := er_Code e; er_Status := if er_Status e =? 0 then status else er_Status e;
     er_Title := if String.eqb (er_Title e) "" then title else er_Title e;
     er_Detail := er_Detail e; er_RetryAfter := er_RetryAfter e; er_Cause := er_Cause e |}.

Definition toProblem (path requestID : string) (err : herror) : Problem :=
  let mapped := filled (match err with Mapped e => e | Unmapped _ => NewError CodeInternal "" end) in
  {| pb_Type := problemTypeBase +:+ Code_String (er_Code mapped); pb_Title := er_Title mapped;
     pb_Status := er_Status mapped; pb_Detail := er_Detail mapped; pb_Instance := path;
     pb_Code := er_Code mapped; pb_RequestID := requestID |}.

(** The response, over the headers already set. *)
Definition WriteProblem (headers : gmap string string) (path requestID : string) (err : herror) : Response :=
  let problem := toProblem path requestID err in
  let headers := match err with
                 | Mapped e => if 0 <? er_RetryAfter e
                               then <[HeaderRetryAfter := retryAfterSeconds (er_RetryAfter e)]> headers else headers
                 | Unmapped _ => headers
                 end in
  {| rs_Status := pb_Status problem; rs_Header := <["Content-Type" := ContentTypeProblem]> headers;
     rs_Body := ProblemBody problem |}.

(** ** The maps *)

Definition overloadProblem (err : gerr) : Error :=
  let problem := NewError CodeOverloaded "no worker capacity within the latency budget" in
  match errors_As_Overload err with
  | Some overload =>
      {| er_Code := er_Code problem; er_Status := er_Status problem; er_Title := er_Title problem;
         er_Detail := er_Detail problem; er_RetryAfter := ov_RetryAfter overload; er_Cause := None |}
  | None => problem
  end.

Definition mapSynthError (err : gerr) : Error :=
  if errors_Is err ErrTextTooLong then NewError CodeTextTooLong (Error_String err)
  else if errors_Is err ErrUnknownVoice then NewError CodeUnknownVoice "unknown voice"
  else if errors_Is err ErrInvalidRequest || errors_Is err ErrFormatNotReady
  then NewError CodeInvalidRequest (Error_String err)
  else if errors_Is err ErrQuotaExceeded then NewError CodeQuotaExceeded "monthly character quota exhausted"
  else if errors_Is err ErrOverloaded then overloadProblem err
  else internal err.

Definition mapStreamError (err : gerr) : Error :=
  if errors_Is err ErrConcurrencyLimited
  then NewError CodeConcurrencyLimited "too many concurrent streams for this plan"
  else mapSynthError err.

Definition mapJobError (err : gerr) : Error :=
  if errors_Is err ErrNotFound then NewError CodeJobNotFound "no such job"
  else if errors_Is err ErrIdempotencyConflict
  then NewError CodeIdempotencyConflict "this Idempotency-Key was used with a different body"
  else if errors_Is err JobsErrTextTooLong || errors_Is err ErrPlanLimit
  then NewError CodeTextTooLong (Error_String err)
  else if errors_Is err ErrWebhookRejected
  then {| er_Code := CodeInvalidRequest; er_Status := 422; er_Title := "Webhook URL rejected";
          er_Detail := Error_String err; er_RetryAfter := 0; er_Cause := None |}
  else if errors_Is err JobsErrInvalidRequest then NewError CodeInvalidRequest (Error_String err)
  else internal err.

Definition mapKeyError (err : gerr) : Error :=
  if errors_Is err ErrKeyNotFound then NewError CodeJobNotFound "no such key"
  else if errors_Is err ErrInvalidKeyRequest then NewError CodeInvalidRequest (Error_String err)
  else internal err.

Definition mapTenantError (err : gerr) : Error :=
  if errors_Is err ErrInvalidInput then NewError CodeInvalidRequest (Error_String err)
  else if errors_Is err ErrUnknownPlan then NewError CodeInvalidRequest "unknown plan_id"
  else internal err.
