(* ===== verification/Http.v ===== *)
(** * The HTTP edge

    The middleware of [internal/http]: request ids ([middleware.go]),
    authentication and scopes ([auth.go]), the request rate ([ratelimit.go]), the
    order they run in ([router.go]) and the operator's guard ([admin.go]). The
    stores they call answer arbitrarily; address parsing is a parameter. Panics,
    access lines and metrics are in [Server.v]. *)

From stdpp Require Import base gmap strings pretty numbers list.
From Stdlib Require Import SpecFloat.
From S2P Require Import Prelude GoString Float Audio Cache Degrade RateLimit Dispatch Account Synth Webhook Problem.

(** ** [middleware.go] *)

Definition HeaderRequestID : string := "X-Request-Id".
Definition maxRequestIDLen : nat := 64.

Definition request_id_rune (r : Z) : bool :=
  in_range 97 122 r || in_range 65 90 r || in_range 48 57 r || (r =? 45) || (r =? 95) || (r =? 46).

Definition sanitiseRequestID (raw : string) : string :=
  let raw := if Z.of_nat maxRequestIDLen <? go_len raw then str_take maxRequestIDLen raw else raw in
  bytes_of (List.filter (λ c, request_id_rune c.1) (runes raw)).

(** A request, with what the middleware has put on its context. *)
Record HttpRequest : Type := {
  hq_Header : string → string; hq_Path : string; hq_Body : string; hq_RemoteAddr : string;
  hq_RequestID : string; hq_Identity : option Identity;
}.

Definition with_identity (i : Identity) (r : HttpRequest) : HttpRequest := {|
  hq_Header := hq_Header r; hq_Path := hq_Path r; hq_Body := hq_Body r; hq_RemoteAddr := hq_RemoteAddr r;
  hq_RequestID := hq_RequestID r; hq_Identity := Some i |}.

Definition with_request_id (id : string) (r : HttpRequest) : HttpRequest := {|
  hq_Header := hq_Header r; hq_Path := hq_Path r; hq_Body := hq_Body r; hq_RemoteAddr := hq_RemoteAddr r;
  hq_RequestID := id; hq_Identity := hq_Identity r |}.

Definition problem (h : gmap string string) (r : HttpRequest) (e : Error) : Response :=
  WriteProblem h (hq_Path r) (hq_RequestID r) (Mapped e).

(** ** The guard chain *)

Inductive call : Type :=
| CAuth (secret : string) (r : res Identity)
| CPlan (planID : string) (r : res Z)
| CAllow (keyID : string) (perMinute : Z) (r : res RateDecision)
| CNow (t : Z)
| CHandle (i : option Identity).

(** What the authenticator, the plans, the limiter, the clock and the route's own
    handler answer. *)
Record Ports : Type := {
  ask_auth : list call → res Identity;
  ask_plan : list call → res Z;
  ask_allow : list call → res RateDecision;
  ask_now : list call → Z;
  ask_handle : list call → Response;
}.

(** A handler: the response headers so far, the request, the limiter's breaker. *)
Definition Handler : Type := gmap string string → HttpRequest → Breaker → Prog call (Response * Breaker).

Section chain.
Variable ports : Ports.

Definition handle : Handler := λ h r b,
  let! response := pcall (CHandle (hq_Identity r)) (ask_handle ports) in pret (response, b).

(** [RequestID]; [fresh] is the new UUID. *)
Definition RequestID (fresh : string) (next : Handler) : Handler := λ h r b,
  let id := sanitiseRequestID (hq_Header r HeaderRequestID) in
  let id := if String.eqb id "" then fresh else id in
  next (<[HeaderRequestID := id]> h) (with_request_id id r) b.

(** *** [auth.go] *)

Definition HeaderAuthorization : string := "Authorization".

Definition Authenticate (next : Handler) : Handler := λ h r b,
  match ParseBearer (hq_Header r HeaderAuthorization) with
  | Err _ => pret (problem h r (NewError CodeUnauthorized "missing or malformed API key"), b)
  | Ok secret =>
      let! caller := pask (CAuth secret) (ask_auth ports) in
      match caller with
      | Err err =>
          pret (problem h r (if errors_Is err ErrLookupFailure then internal err
                             else NewError CodeUnauthorized "invalid API key"), b)
      | Ok caller => next h (with_identity caller r) b
      end
  end.

Definition RequireScope (scope : string) (next : Handler) : Handler := λ h r b,
  match hq_Identity r with
  | None => pret (problem h r (NewError CodeUnauthorized "missing or malformed API key"), b)
  | Some caller =>
      match Require caller scope with
      | Err _ => pret (problem h r (NewError CodeForbiddenScope ("key lacks scope " +:+ scope)), b)
      | Ok _ => next h r b
      end
  end.

Definition OptionalAuthenticate (next : Handler) : Handler := λ h r b,
  match ParseBearer (hq_Header r HeaderAuthorization) with
  | Err _ => next h r b
  | Ok secret =>
      let! caller := pask (CAuth secret) (ask_auth ports) in
      match caller with
      | Err err => if errors_Is err ErrLookupFailure then pret (problem h r (internal err), b) else next h r b
      | Ok caller => next h (with_identity caller r) b
      end
  end.

(** *** [ratelimit.go] *)

Definition degradeRetryAfter : Z := 5 * Second.

Definition writeRateHeaders (h : gmap string string) (d : RateDecision) : gmap string string :=
  let h := <["X-RateLimit-Remaining" := Itoa (Remaining d)]> (<["X-RateLimit-Limit" := Itoa (Limit d)]> h) in
  if Allowed d then h
  else
    let seconds := retryAfterSeconds (RetryAfter d) in
    <["X-RateLimit-Reset" := seconds]> (<["Retry-After" := seconds]> h).

(** [Error{CodeOverloaded, ..., RetryAfter: degradeRetryAfter}]. *)
Definition degraded_out (err : gerr) : Error :=
  {| er_Code := CodeOverloaded; er_Status := 0; er_Title := ""; er_Detail := "rate limiting is unavailable";
     er_RetryAfter := degradeRetryAfter; er_Cause := Some err |}.

Definition rateLimit (next : Handler) : Handler := λ h r b,
  match hq_Identity r with
  | None => pret (problem h r (NewError CodeUnauthorized "missing or malformed API key"), b)
  | Some caller =>
      let! perMinute := pask (CPlan (id_PlanID caller)) (ask_plan ports) in
      match perMinute with
      | Err err => pret (problem h r (internal err), b)
      | Ok perMinute =>
          let! decision := pask (CAllow (id_KeyID caller) perMinute) (ask_allow ports) in
          match decision with
          | Err err =>
              let! now := pask CNow (ask_now ports) in
              let (ok, b) := Tolerate b now in
              if negb ok then pret (problem h r (degraded_out err), b) else next h r b
          | Ok decision =>
              let b := Succeed b in
              let h := writeRateHeaders h decision in
              if negb (Allowed decision) then pret (problem h r (NewError CodeRateLimited "request rate exceeded"), b)
              else next h r b
          end
      end
  end.

(** *** [router.go] *)

Record Route : Type := { rt_Scope : string; rt_Public : bool }.

(** The chain [TenantRoutes] builds around a route's handler, inside [RequestID]. *)
Definition tenant_route (fresh : string) (route : Route) : Handler :=
  let handler := handle in
  let handler := if String.eqb (rt_Scope route) "" then handler else RequireScope (rt_Scope route) handler in
  RequestID fresh (if rt_Public route then OptionalAuthenticate handler else Authenticate (rateLimit handler)).
End chain.

(** ** [admin.go] *)

Inductive Prefix : Type := P4 (net len : Z) | P6 (net len : Z).

Definition Contains (p : Prefix) (a : Addr) : bool :=
  match p with P4 net len => Contains4 net len a | P6 net len => Contains6 net len a end.

Record AdminGuard : Type := { keyDigest : string; allowed : list Prefix }.

Section admin.
Variables (sha256 : string → string) (SplitHostPort : string → option (string * string))
  (ParseAddr : string → option Addr).

Definition NewAdminGuard (key : string) (allowed : list Prefix) : AdminGuard :=
  {| keyDigest := sha256 key; allowed := allowed |}.

Definition permits (g : AdminGuard) (a : Addr) : bool := existsb (λ p, Contains p a) (allowed g).

Definition peerAddr (remoteAddr : string) : option Addr :=
  let host := match SplitHostPort remoteAddr with Some (host, _) => host | None => remoteAddr end in
  match ParseAddr host with None => None | Some a => Some (Unmap a) end.

Definition Middleware (g : AdminGuard) (next : Handler) : Handler := λ h r b,
  let keyOK := String.eqb (sha256 (hq_Header r "X-Admin-Key")) (keyDigest g) in
  match peerAddr (hq_RemoteAddr r) with
  | Some peer =>
      if negb keyOK || negb (permits g peer)
      then pret (problem h r (NewError CodeUnauthorized "admin credentials required"), b)
      else next h r b
  | None => pret (problem h r (NewError CodeUnauthorized "admin credentials required"), b)
  end.
End admin.

(** ** What the guard chain is for *)

(** A request as it arrives. *)
Definition incoming (header : string → string) (path body remote : string) : HttpRequest := {|
  hq_Header := header; hq_Path := path; hq_Body := body; hq_RemoteAddr := remote; hq_RequestID := "";
  hq_Identity := None |}.

(** The checks a tenant request passes before its handler runs: a key that
    authenticates as [i], the plan's rate, and the limiter's consent or an outage
    of it that is still tolerated. *)
Inductive passes (b : Breaker) (secret : string) (i : Identity) : list call → Prop :=
| pass_allowed n d :
    Allowed d = true →
    passes b secret i [CAuth secret (Ok i); CPlan (id_PlanID i) (Ok n); CAllow (id_KeyID i) n (Ok d)]
| pass_degraded n e t :
    (Tolerate b t).1 = true →
    passes b secret i [CAuth secret (Ok i); CPlan (id_PlanID i) (Ok n); CAllow (id_KeyID i) n (Err e); CNow t].

(** The status a tenant request is refused with, by what was asked. *)
Inductive refused (b : Breaker) (scope : string) : Z → list call → Prop :=
| ref_no_key : refused b scope 401 []
| ref_lookup s e : errors_Is e ErrLookupFailure = true → refused b scope 500 [CAuth s (Err e)]
| ref_bad_key s e : errors_Is e ErrLookupFailure = false → refused b scope 401 [CAuth s (Err e)]
| ref_plan s i e : refused b scope 500 [CAuth s (Ok i); CPlan (id_PlanID i) (Err e)]
| ref_rate s i n d :
    Allowed d = false →
    refused b scope 429 [CAuth s (Ok i); CPlan (id_PlanID i) (Ok n); CAllow (id_KeyID i) n (Ok d)]
| ref_outage s i n e t :
    (Tolerate b t).1 = false →
    refused b scope 503 [CAuth s (Ok i); CPlan (id_PlanID i) (Ok n); CAllow (id_KeyID i) n (Err e); CNow t]
| ref_scope s i l : passes b s i l → scope ≠ "" → scope ∉ id_Scopes i → refused b scope 403 l.

Definition may_use (scope : string) (i : Identity) : Prop := scope = "" ∨ scope ∈ id_Scopes i.

(** ** Lemmas *)

(** A rune below 128 is one byte, itself. *)
Lemma decode1_small s r w :
  decode1 s = Some (r, w) → r < 128 → w = 1%nat ∧ ∃ c s', s = String c s' ∧ byte_val c = r.
Proof.
  intros Hd Hr. unfold decode1 in Hd. destruct s as [|c0 s]; [done|].
  destruct (Z.ltb_spec (byte_val c0) 0x80) as [|Hge]; [injection Hd as <- <-; eauto|].
  unfold in_range, second_ok, in_range, cont, in_range, second_lo, second_hi in Hd.
  repeat (case_match; simplify_eq; try (unfold RuneError in *; lia)); zbool; lia.
Qed.

(** A sanitised id is short and harmless in a log line. *)
Lemma sanitiseRequestID_safe raw :
  go_len (sanitiseRequestID raw) ≤ 64 ∧
  ∀ c, str_has c (sanitiseRequestID raw) = true → request_id_rune (byte_val c) = true.
Proof.
  unfold sanitiseRequestID. set (s := if _ <? _ then _ else raw).
  assert (go_len s ≤ 64) as Hs.
  { subst s. unfold go_len, maxRequestIDLen. destruct (Z.ltb_spec (Z.of_nat 64) (Z.of_nat (String.length raw))); [|lia].
    rewrite str_take_length by lia. lia. }
  assert (∀ s, go_len (bytes_of (List.filter (λ c, request_id_rune c.1) (runes s))) ≤ go_len s ∧
    ∀ c, str_has c (bytes_of (List.filter (λ c, request_id_rune c.1) (runes s))) = true →
         request_id_rune (byte_val c) = true) as H; [|split; [etrans; [apply H|done]|apply H]].
  clear. intros s. induction s as [|s r w Hd [IH1 IH2]] using rune_ind; [done|].
  rewrite runes_unfold, Hd. cbn [List.filter fst].
  pose proof (decode1_width _ _ _ Hd) as Hw.
  assert (go_len (str_drop w s) = go_len s - Z.of_nat w) as Hlen
    by (unfold go_len; rewrite str_drop_length; lia).
  destruct (request_id_rune r) eqn:Hr; [|split; [lia|done]].
  assert (r < 128) as Hsmall.
  { unfold request_id_rune, in_range in Hr. zbool. lia. }
  destruct (decode1_small _ _ _ Hd Hsmall) as (-> & c0 & s' & -> & <-). cbn [bytes_of foldr snd str_take str_drop] in *.
  rewrite str_app_cons, str_app_nil_l. split.
  - unfold go_len in *. cbn [String.length] in *. fold (bytes_of (List.filter (λ c, request_id_rune c.1) (runes s'))). lia.
  - intros c. cbn [str_has]. intros [Hc|Hc]%orb_true_iff; [|by apply IH2]. zbool. by subst.
Qed.

Lemma Require_scope i scope :
  Require i scope = if decide (scope ∈ id_Scopes i) then Ok () else Err (sentinelf ErrScopeMissing scope).
Proof. unfold Require, Has. by destruct (decide _); case_bool_decide. Qed.

Lemma unhurried (s : Z) (P : Prop) : negb ((s =? 429) || (s =? 503)) = true → s = 429 ∨ s = 503 → P.
Proof. by intros H [-> | ->]. Qed.

(** The end of the chain: the scope check, then the handler. *)
Lemma scoped_run ports scope h r b l i :
  hq_Identity r = Some i →
  let run := (if String.eqb scope "" then handle ports else RequireScope scope (handle ports)) h r b l in
  may_use scope i ∧ run = (ask_handle ports l, b, l ++ [CHandle (Some i)]) ∨
  (scope ≠ "" ∧ scope ∉ id_Scopes i ∧ ∃ resp, rs_Status resp = 403 ∧ run = (resp, b, l)).
Proof.
  intros Hr. cbv zeta. unfold may_use, handle, RequireScope, pbind, pcall, pret.
  destruct (String.eqb_spec scope "") as [->|Hne]; rewrite Hr; [left; auto|]. rewrite Require_scope.
  destruct (decide (scope ∈ id_Scopes i)); [left; rewrite ?Hr; auto|right]. split_and!; [done|done|].
  eexists. split; [|reflexivity]. done.
Qed.

(** A route behind the whole chain: the handler's answer, or a refusal. *)
Definition guarded (b : Breaker) (scope key : string) (ports : Ports) (resp : Response) (tr : list call) : Prop :=
  (∃ secret i l, ParseBearer key = Ok secret ∧ passes b secret i l ∧ may_use scope i ∧
     tr = l ++ [CHandle (Some i)] ∧ resp = ask_handle ports l) ∨
  (refused b scope (rs_Status resp) tr ∧
   (rs_Status resp = 429 ∨ rs_Status resp = 503 → is_Some (rs_Header resp !! "Retry-After"%string))).

Lemma tenant_chain ports fresh scope header path body remote b resp b' tr :
  tenant_route ports fresh {| rt_Scope := scope; rt_Public := false |} ∅
    (incoming header path body remote) b [] = (resp, b', tr) →
  guarded b scope (header HeaderAuthorization) ports resp tr.
Proof.
  unfold tenant_route, RequestID, Authenticate, rateLimit, pbind, pask, pret. cbn [rt_Public rt_Scope].
  cbv zeta. set (id := if String.eqb _ "" then fresh else _).
  cbn [hq_Header hq_Identity with_request_id with_identity incoming app].
  destruct (ParseBearer (header HeaderAuthorization)) as [secret|e] eqn:Hk;
    [|intros [= <- <- <-]; right; split; [constructor|by apply unhurried]].
  destruct (ask_auth ports []) as [i|e] eqn:Hi.
  2:{ intros [= <- <- <-]; right. cbn.
      destruct (errors_Is e ErrLookupFailure) eqn:He; (split; [by constructor|by apply unhurried]). }
  destruct (ask_plan ports _) as [n|e] eqn:Hp;
    [|intros [= <- <- <-]; right; split; [constructor|by apply unhurried]].
  assert (∀ h r b0 l, hq_Identity r = Some i → passes b secret i l →
    (if String.eqb scope "" then handle ports else RequireScope scope (handle ports)) h r b0 l = (resp, b', tr) →
    guarded b scope (header HeaderAuthorization) ports resp tr) as Hend.
  { intros h r b0 l Hr Hl. destruct (scoped_run ports scope h r b0 l i Hr) as [[Hm ->]|(H1 & H2 & resp' & H3 & ->)];
      intros [= <- <- <-]; [left; eexists _, _, _; by rewrite Hk|right]. rewrite H3.
    split; [by eapply ref_scope|by apply unhurried]. }
  destruct (ask_allow ports _) as [d|e] eqn:Ha.
  - destruct (Allowed d) eqn:Hd; cbn [negb]; [by apply Hend; [|constructor]|].
    intros [= <- <- <-]; right. split; [by constructor|]. intros _. unfold problem, WriteProblem, writeRateHeaders.
    rewrite Hd. cbn. rewrite lookup_insert_ne by done. rewrite lookup_insert_ne by done. rewrite lookup_insert_eq. done.
  - destruct (Tolerate b _) as [ok b1] eqn:Ht. destruct ok; cbn [negb].
    + apply Hend; [done|]. apply pass_degraded. exact (f_equal fst Ht).
    + intros [= <- <- <-]; right. split; [apply ref_outage; exact (f_equal fst Ht)|]. intros _.
      unfold problem, WriteProblem. cbv beta iota zeta. cbn [rs_Header]. rewrite lookup_insert_ne by done.
      change (0 <? er_RetryAfter (degraded_out e)) with true. cbv iota. by rewrite lookup_insert_eq.
Qed.

(** What a public route's handler is told: the caller whose key authenticated,
    or nobody. *)
Inductive told (scope key : string) : option Identity → list call → Prop :=
| told_caller secret i :
    ParseBearer key = Ok secret → may_use scope i → told scope key (Some i) [CAuth secret (Ok i)]
| told_no_key e : ParseBearer key = Err e → scope = "" → told scope key None []
| told_bad_key secret e :
    ParseBearer key = Ok secret → errors_Is e ErrLookupFailure = false → scope = "" →
    told scope key None [CAuth secret (Err e)].

Lemma scoped_anonymous ports scope h r b l :
  hq_Identity r = None →
  let run := (if String.eqb scope "" then handle ports else RequireScope scope (handle ports)) h r b l in
  scope = "" ∧ run = (ask_handle ports l, b, l ++ [CHandle None]) ∨
  scope ≠ "" ∧ ∃ resp, rs_Status resp = 401 ∧ run = (resp, b, l).
Proof.
  intros Hr. cbv zeta. unfold handle, RequireScope, pbind, pcall, pret.
  destruct (String.eqb_spec scope "") as [->|Hne]; rewrite Hr; [left; auto|right].
  split; [done|]. eexists. split; [|reflexivity]. done.
Qed.

Lemma public_chain ports fresh scope header path body remote b resp b' tr :
  tenant_route ports fresh {| rt_Scope := scope; rt_Public := true |} ∅
    (incoming header path body remote) b [] = (resp, b', tr) →
  (∃ i l, told scope (header HeaderAuthorization) i l ∧ tr = l ++ [CHandle i] ∧ resp = ask_handle ports l) ∨
  (∃ s e, rs_Status resp = 500 ∧ tr = [CAuth s (Err e)] ∧ errors_Is e ErrLookupFailure = true) ∨
  (scope ≠ "" ∧ (rs_Status resp = 401 ∨ rs_Status resp = 403) ∧ Forall (λ c, ∃ s r, c = CAuth s r) tr).
Proof.
  unfold tenant_route, RequestID, OptionalAuthenticate, pbind, pask, pret. cbn [rt_Public rt_Scope]. cbv zeta.
  set (id := if String.eqb _ "" then fresh else _).
  cbn [hq_Header hq_Identity with_request_id with_identity incoming app].
  destruct (ParseBearer (header HeaderAuthorization)) as [secret|e] eqn:Hk.
  2:{ match goal with |- (if _ then _ else _) ?h ?r b [] = _ → _ =>
        destruct (scoped_anonymous ports scope h r b [] eq_refl) as [[Hs ->]|(Hs & resp' & H & ->)] end.
      - intros [= <- <- <-]. left. eexists None, []. split; [by eapply told_no_key|done].
      - intros [= <- <- <-]. right. right. auto. }
  destruct (ask_auth ports []) as [i|e] eqn:Hi.
  - match goal with |- (if _ then _ else _) ?h ?r b ?l = _ → _ =>
      destruct (scoped_run ports scope h r b l i eq_refl) as [[Hm ->]|(H1 & H2 & resp' & H3 & ->)] end.
    + intros [= <- <- <-]. left. eexists (Some i), _. split; [by eapply told_caller|done].
    + intros [= <- <- <-]. right. right. split_and!; [done|auto|]. repeat constructor. eauto.
  - destruct (errors_Is e ErrLookupFailure) eqn:He.
    { intros [= <- <- <-]. right. left. by exists secret, e. }
    match goal with |- (if _ then _ else _) ?h ?r b ?l = _ → _ =>
      destruct (scoped_anonymous ports scope h r b l eq_refl) as [[Hs ->]|(Hs & resp' & H & ->)] end.
    + intros [= <- <- <-]. left. eexists None, _. split; [by eapply told_bad_key|done].
    + intros [= <- <- <-]. right. right. split_and!; [done|auto|]. repeat constructor. eauto.
Qed.

(** ** Properties *)

(** C5. What stands in front of a tenant endpoint. The handler runs only for a
    request whose bearer key authenticated as an identity that carries the
    route's scope, after its plan was read and the limiter allowed that key, or
    failed within a degrade window that is still open; it runs last and its
    answer is the response. Every other request is refused with 401, 403, 429,
    500 or 503 according to the first check that failed, an outage of the key
    lookup being a 500 and never a 401, and a 429 or 503 says when to come back.
    A public route runs its handler for anyone, as the caller its key
    authenticates, and is refused only when the key lookup is out or the route's
    scope is missing; the limiter is never asked. *)
Theorem guard_chain ports fresh scope header path body remote b :
  let run public := tenant_route ports fresh {| rt_Scope := scope; rt_Public := public |} ∅
             (incoming header path body remote) b in
  let key := header HeaderAuthorization in
  let resp public := (presult (run public)).1 in
  guarded b scope key ports (resp false) (ptrace (run false)) ∧
  ((∃ i l, told scope key i l ∧ ptrace (run true) = l ++ [CHandle i] ∧ resp true = ask_handle ports l) ∨
   (∃ s e, rs_Status (resp true) = 500 ∧ ptrace (run true) = [CAuth s (Err e)] ∧ errors_Is e ErrLookupFailure = true) ∨
   (scope ≠ "" ∧ (rs_Status (resp true) = 401 ∨ rs_Status (resp true) = 403) ∧
    Forall (λ c, ∃ s r, c = CAuth s r) (ptrace (run true)))).
Proof.
  cbv zeta. unfold presult, ptrace, prun.
  destruct (tenant_route _ _ {| rt_Public := false |} _ _ _ []) as [[resp b'] tr] eqn:E.
  destruct (tenant_route _ _ {| rt_Public := true |} _ _ _ []) as [[resp2 b2] tr2] eqn:E2.
  split; [by eapply tenant_chain|by eapply public_chain].
Qed.

(** The operator's endpoints are reached with the operator's key, up to a
    collision of its digest, from a peer in the allowlist; an empty list lets
    nobody in. *)
Lemma admin_guard_exact sha256 split parse key allowed next h r b l :
  let g := NewAdminGuard sha256 key allowed in
  let run := Middleware sha256 split parse g next h r b l in
  (∃ peer p, peerAddr split parse (hq_RemoteAddr r) = Some peer ∧ p ∈ allowed ∧ Contains p peer = true ∧
     sha256 (hq_Header r "X-Admin-Key"%string) = sha256 key ∧ run = next h r b l) ∨
  rs_Status run.1.1 = 401 ∧ run.2 = l.
Proof.
  cbv zeta. unfold Middleware, permits, NewAdminGuard. cbn [keyDigest Http.allowed].
  destruct (peerAddr _ _ _) as [peer|]; [|by right].
  destruct (String.eqb_spec (sha256 (hq_Header r "X-Admin-Key"%string)) (sha256 key)) as [Hk|]; [|by right].
  destruct (existsb _ allowed) eqn:Hp; [left|by right].
  apply List.existsb_exists in Hp as (p & Hin & Hc). exists peer, p. by rewrite list_elem_of_In.
Qed.
