(* ===== verification/Gateway.v ===== *)
(** * The front door, put together

    [tenant_route] of [Http.v] with its ports answered by the components that
    answer them in [cmd/gateway/main.go]: [auth.Authenticator] over the account
    tables, [planrepo.PlanLimits], and [ratelimit.Limiter] over Redis. Several
    gateways serve requests one after another: the tables and Redis are shared,
    the plan cache and the degrade window are each gateway's own. The route's own
    handler answers anything ([respond]) and is taken not to touch the account
    tables or the buckets; a request reads its gateway's clock once. *)

From stdpp Require Import base gmap strings pretty numbers list.
From Stdlib Require Import SpecFloat.
From S2P Require Import Prelude GoString Float Degrade RateLimit RateBucket Account PlanLimits Problem Http.

(** What the gateways share, and what each keeps. *)
Record Shared : Type := { accounts : AccountWorld; limiter : LimiterWorld }.
Record Local : Type := { plan_cache : gmap string cachedPlan; breaker : Breaker }.
Record Fleet : Type := { shared : Shared; locals : gmap nat Local }.

(** A gateway that has served nothing. *)
Definition fresh_local : Local := {| plan_cache := ∅; breaker := New Window |}.
Definition local_of (g : nat) (f : Fleet) : Local := default fresh_local (locals f !! g).

(** A request, the gateway it reaches, and that gateway's clock. *)
Record Arrival : Type := {
  a_gateway : nat; a_now : Z; a_route : Route;
  a_header : string → string; a_path : string; a_body : string; a_remote : string; a_request_id : string;
}.

Section gateway.
Variables (Hash : string → string) (respond : Arrival → list call → Response).

(** The stores and the plan cache as one request's calls leave them. *)
Record Stores : Type := { st_shared : Shared; st_cache : gmap string cachedPlan }.

Definition after_call (now : Z) (s : Stores) (c : call) : Stores :=
  match c with
  | CAuth secret _ =>
      {| st_shared := {| accounts := (Account.Authenticate Hash secret (accounts (st_shared s))).2;
                         limiter := limiter (st_shared s) |};
         st_cache := st_cache s |}
  | CPlan planID _ =>
      let '(r, w) := LimitReqPerMinute planID now now (st_cache s) (accounts (st_shared s)) in
      {| st_shared := {| accounts := w; limiter := limiter (st_shared s) |};
         st_cache := match r with Ok (_, c) => c | Err _ => st_cache s end |}
  | CAllow keyID perMinute _ =>
      {| st_shared := {| accounts := accounts (st_shared s);
                         limiter := (Allow keyID perMinute now (limiter (st_shared s))).2 |};
         st_cache := st_cache s |}
  | CNow _ | CHandle _ => s
  end.

Definition after_calls (now : Z) (s : Stores) (l : list call) : Stores := foldl (after_call now) s l.

Definition the_secret (a : Arrival) : string :=
  match ParseBearer (a_header a HeaderAuthorization) with Ok s => s | Err _ => "" end.

Definition rate_of_answer (r : res (Z * gmap string cachedPlan)) : res Z :=
  match r with Ok (rate, _) => Ok rate | Err err => Err err end.

(** Each port answers as its component does in the state the request's calls so
    far have left: whom to ask for, the calls themselves say. *)
Definition gateway_ports (a : Arrival) (s : Stores) : Ports :=
  let at_ l := after_calls (a_now a) s l in
  {| ask_auth l := (Account.Authenticate Hash (the_secret a) (accounts (st_shared (at_ l)))).1;
     ask_plan l :=
       match last l with
       | Some (CAuth _ (Ok i)) =>
           rate_of_answer (LimitReqPerMinute (id_PlanID i) (a_now a) (a_now a) (st_cache (at_ l)) (accounts (st_shared (at_ l)))).1
       | _ => Err (ENew "no caller")
       end;
     ask_allow l :=
       match l with
       | [CAuth _ (Ok i); CPlan _ (Ok perMinute)] =>
           (Allow (id_KeyID i) perMinute (a_now a) (limiter (st_shared (at_ l)))).1
       | _ => Err (ENew "no plan")
       end;
     ask_now _ := a_now a;
     ask_handle := respond a |}.

(** One request: its response, the calls it made, the fleet after it. *)
Definition serve (a : Arrival) (f : Fleet) : (Response * list call) * Fleet :=
  let local := local_of (a_gateway a) f in
  let s := {| st_shared := shared f; st_cache := plan_cache local |} in
  let '((response, b), calls) :=
    prun (tenant_route (gateway_ports a s) (a_request_id a) (a_route a) ∅
            (incoming (a_header a) (a_path a) (a_body a) (a_remote a)) (breaker local)) in
  let s := after_calls (a_now a) s calls in
  (response, calls,
   {| shared := st_shared s;
      locals := <[a_gateway a := {| plan_cache := st_cache s; breaker := b |}]> (locals f) |}).

Fixpoint serve_each (l : list Arrival) (f : Fleet) : list (Response * list call) * Fleet :=
  match l with
  | [] => ([], f)
  | a :: rest =>
      let (r, f) := serve a f in
      let (rs, f) := serve_each rest f in
      (r :: rs, f)
  end.

(** ** Lemmas *)

(** A call is what the request's own calls before it ask for, answered as the
    port answers. *)
Definition asked (ports : Ports) (secret : string) (public : bool) (pre : list call) (c : call) : Prop :=
  match c with
  | CAuth s r => s = secret ∧ pre = [] ∧ r = ask_auth ports pre
  | CPlan p r => (∃ s i, pre = [CAuth s (Ok i)] ∧ p = id_PlanID i) ∧ r = ask_plan ports pre
  | CAllow k n r =>
      public = false ∧ (∃ s i p, pre = [CAuth s (Ok i); CPlan p (Ok n)] ∧ k = id_KeyID i) ∧ r = ask_allow ports pre
  | CNow t => t = ask_now ports pre
  | CHandle _ => True
  end.

Fixpoint traced (ports : Ports) (secret : string) (public : bool) (pre tr : list call) : Prop :=
  match tr with
  | [] => True
  | c :: tr => asked ports secret public pre c ∧ traced ports secret public (pre ++ [c]) tr
  end.

(** Every way through the chain of a route, one goal each. *)
Ltac walk_route :=
  unfold prun, tenant_route, RequestID, Authenticate, OptionalAuthenticate, RequireScope, rateLimit,
    handle, pbind, pask, pcall, pret; cbv zeta;
  match goal with |- context [rt_Public ?route] => destruct (rt_Public route), (String.eqb (rt_Scope route) "") end;
  cbn [hq_Header hq_Identity with_request_id with_identity incoming app];
  destruct (ParseBearer _) as [?|?] eqn:?;
  repeat (case_match; cbn [hq_Identity with_request_id with_identity snd app] in *; simplify_eq).

Lemma tenant_traced ports fresh route header path body remote b :
  let secret := match ParseBearer (header HeaderAuthorization) with Ok s => s | Err _ => "" end in
  traced ports secret (rt_Public route) [] (ptrace (tenant_route ports fresh route ∅ (incoming header path body remote) b)).
Proof.
  cbv zeta. unfold ptrace. walk_route. all: cbn; split_and?; eauto 8.
Qed.

(** Every answer in a request's trace is the one its component gives in the state
    the calls before it left. *)
Definition answers (now : Z) (s : Stores) (c : call) : Prop :=
  match c with
  | CAuth secret r => r = (Account.Authenticate Hash secret (accounts (st_shared s))).1
  | CPlan p r => rate_of_answer (LimitReqPerMinute p now now (st_cache s) (accounts (st_shared s))).1 = r
  | CAllow k n r => r = (Allow k n now (limiter (st_shared s))).1
  | CNow t => t = now
  | CHandle _ => True
  end.

Fixpoint answered (now : Z) (s : Stores) (tr : list call) : Prop :=
  match tr with
  | [] => True
  | c :: tr => answers now s c ∧ answered now (after_call now s c) tr
  end.

Lemma after_calls_snoc now s l c : after_calls now s (l ++ [c]) = after_call now (after_calls now s l) c.
Proof. by unfold after_calls; rewrite foldl_app. Qed.

Lemma traced_answered a s pre tr :
  traced (gateway_ports a s) (the_secret a) (rt_Public (a_route a)) pre tr → answered (a_now a) (after_calls (a_now a) s pre) tr.
Proof.
  revert pre. induction tr as [|c tr IH]; intros pre; cbn [traced answered]; [done|].
  intros [Hc Htr]. split.
  - destruct c as [secret r|p r|k n r|t|i]; cbn [asked gateway_ports ask_auth ask_plan ask_allow ask_now] in Hc; cbn [answers].
    + by destruct Hc as (-> & _ & ->).
    + by destruct Hc as ((s0 & i & -> & ->) & ->).
    + by destruct Hc as (_ & (s0 & i & p & -> & ->) & ->).
    + done.
    + done.
  - rewrite <-after_calls_snoc. by apply IH.
Qed.

Lemma serve_traced a f :
  let s := {| st_shared := shared f; st_cache := plan_cache (local_of (a_gateway a) f) |} in
  traced (gateway_ports a s) (the_secret a) (rt_Public (a_route a)) [] (serve a f).1.2.
Proof.
  cbv zeta. set (s := {| st_shared := _; st_cache := _ |}).
  pose proof (tenant_traced (gateway_ports a s) (a_request_id a) (a_route a) (a_header a) (a_path a) (a_body a)
    (a_remote a) (breaker (local_of (a_gateway a) f))) as H.
  unfold serve, ptrace in *. fold s. cbv zeta in *. fold (the_secret a) in H.
  by destruct (prun (tenant_route (gateway_ports a s) _ _ _ _ _)) as [[resp b] calls].
Qed.

Lemma serve_answered a f :
  answered (a_now a) {| st_shared := shared f; st_cache := plan_cache (local_of (a_gateway a) f) |} (serve a f).1.2.
Proof. apply (traced_answered a _ []), serve_traced. Qed.

Lemma traced_app ports secret public pre l1 l2 :
  traced ports secret public pre (l1 ++ l2) →
  traced ports secret public pre l1 ∧ traced ports secret public (pre ++ l1) l2.
Proof.
  revert pre. induction l1 as [|c l1 IH]; intros pre; cbn [traced app]; [by rewrite app_nil_r|].
  intros [Hc H]. apply IH in H as [H1 H2]. by rewrite <-app_assoc in H2.
Qed.

(** Only an authenticated caller of a private route reaches the limiter, with
    its own key. *)
Lemma traced_allow ports secret public tr k n r :
  traced ports secret public [] tr → CAllow k n r ∈ tr →
  public = false ∧ ∃ i, ask_auth ports [] = Ok i ∧ k = id_KeyID i.
Proof.
  intros Htr (l1 & l2 & ->)%list_elem_of_split. apply traced_app in Htr as [H1 [H2 _]].
  destruct H2 as (Hpub & (s & i & p & Hl & ->) & _). split; [done|]. exists i. split; [|done].
  cbn [app] in Hl. subst l1. destruct H1 as ((_ & _ & <-) & _). done.
Qed.

(** A private route, once the caller, its rate and the limiter have answered. *)
Lemma limited_run ports fresh scope header path body remote b secret i m d :
  let l := [CAuth secret (Ok i); CPlan (id_PlanID i) (Ok m)] in
  let l' := l ++ [CAllow (id_KeyID i) m (Ok d)] in
  ParseBearer (header HeaderAuthorization) = Ok secret →
  ask_auth ports [] = Ok i → ask_plan ports [CAuth secret (Ok i)] = Ok m → ask_allow ports l = Ok d →
  let '((resp, _), tr) := prun (tenant_route ports fresh {| rt_Scope := scope; rt_Public := false |} ∅
                                  (incoming header path body remote) b) in
  if Allowed d
  then may_use scope i ∧ tr = l' ++ [CHandle (Some i)] ∧ resp = ask_handle ports l' ∨
       ¬ may_use scope i ∧ tr = l' ∧ rs_Status resp = 403
  else tr = l' ∧ rs_Status resp = 429 ∧ is_Some (rs_Header resp !! "Retry-After"%string).
Proof.
  cbv zeta. intros Hk Hi Hm Hd.
  unfold prun, tenant_route, RequestID, Authenticate, rateLimit, pbind, pask, pret. cbn [rt_Public rt_Scope].
  cbv zeta. set (id := if String.eqb _ "" then fresh else _).
  cbn [hq_Header hq_Identity with_request_id with_identity incoming app].
  rewrite Hk, Hi. cbn [hq_Identity with_identity app]. rewrite Hm. cbn [app]. rewrite Hd.
  destruct (Allowed d) eqn:Hal; cbn [negb].
  - match goal with |- context [(if String.eqb scope "" then _ else _) ?h ?r ?b ?l] =>
      destruct (scoped_run ports scope h r b l i eq_refl) as [[Hu ->]|(H1 & H2 & resp & H3 & ->)] end; [left; auto|right].
    split; [|done]. by intros [?|?].
  - split_and!; [done..|]. unfold problem, WriteProblem, writeRateHeaders. rewrite Hal. cbn.
    rewrite lookup_insert_ne by done. rewrite lookup_insert_ne by done. by rewrite lookup_insert_eq.
Qed.

Lemma unhandled s r p r' k m r'' j : CHandle j ∉ [CAuth s r; CPlan p r'] ++ [CAllow k m r''].
Proof. cbn. rewrite !not_elem_of_cons. split_and!; [done..|apply not_elem_of_nil]. Qed.

(** *** One instant, one key *)

Section instant.
Variables (acc : AccountWorld) (now : Z) (keyID : string) (n : Z).
Hypotheses (Hacc : aw_faults acc = []) (Hn : 0 < n ≤ MaxInt32).

Definition rate_of (planID : string) : option Z := ReqPerMinute <$> aw_plans acc !! planID.

(** Who a request is from, by the key tables. *)
Definition caller_of (a : Arrival) : option Identity :=
  match ParseBearer (a_header a HeaderAuthorization) with
  | Ok secret => match (Account.Authenticate Hash secret acc).1 with Ok i => Some i | Err _ => None end
  | Err _ => None
  end.

(** The requests that spend the key's budget: those it authenticates, except on
    public routes. *)
Definition counted (a : Arrival) : bool :=
  negb (rt_Public (a_route a)) &&
  match caller_of a with Some i => String.eqb (id_KeyID i) keyID | None => false end.

(** What a gateway remembers is what the table says. *)
Definition cache_true (cache : gmap string cachedPlan) : Prop :=
  ∀ p e, cache !! p = Some e → now < expiresAt e → rate_of p = Some (reqPerMinute e).

(** The key's bucket has [left] tokens at this instant. *)
Definition at_level (left : Z) (w : LimiterWorld) : Prop :=
  lw_faults w = [] ∧ (level (rateKey keyID) left (UnixMilli now) w ∨ left = n ∧ idle (rateKey keyID) w).

Definition sound (left : Z) (s : Stores) : Prop :=
  accounts (st_shared s) = acc ∧ cache_true (st_cache s) ∧ at_level left (limiter (st_shared s)).

Definition fleet_sound (left : Z) (f : Fleet) : Prop :=
  accounts (shared f) = acc ∧ (∀ g, cache_true (plan_cache (local_of g f))) ∧ at_level left (limiter (shared f)).

Lemma Authenticate_quiet secret : (Account.Authenticate Hash secret acc).2 = acc.
Proof.
  unfold Account.Authenticate, FindByHash, GetAPIKeyByHash, stry.
  destruct (splitPrefix secret); [|done]. rewrite (port_answered _ acc) by done. cases; done.
Qed.

Lemma rate_quiet p cache :
  cache_true cache →
  let '(r, w) := LimitReqPerMinute p now now cache acc in
  w = acc ∧ match r with Ok (rate, c) => rate_of p = Some rate ∧ cache_true c | Err _ => rate_of p = None end.
Proof.
  intros Hc.
  assert (get_plan p acc = match aw_plans acc !! p with
     | Some q => (Ok q, acc)
     | None => (Err (wrapf ("get plan " +:+ quoted p +:+ ": ") (ESentinel PgxErrNoRows)), acc)
     end) as Hget.
  { unfold get_plan, swrap, GetPlan. rewrite port_answered by done. by destruct (aw_plans acc !! p). }
  unfold LimitReqPerMinute. cbv zeta.
  destruct (cache !! p) as [e|] eqn:He; [destruct (Z.ltb_spec now (expiresAt e)) as [Hlt|Hle]|].
  { cbn. split; [done|]. split; [|done]. by apply Hc. }
  all: unfold sbind; rewrite Hget; unfold rate_of;
    destruct (aw_plans acc !! p) as [q|] eqn:Hq; cbn; rewrite ?Hq; split_and?; try done.
  all: intros p' e'; destruct (decide (p = p')) as [<-|Hne];
    [rewrite lookup_insert_eq; intros [= <-] _; unfold rate_of; by rewrite Hq
    |rewrite lookup_insert_ne by done; apply Hc].
Qed.

(** Another key's request leaves the bucket alone. *)
Lemma Allow_other k m left w : k ≠ keyID → at_level left w → at_level left (Allow k m now w).2.
Proof.
  intros Hne [Hf Hl]. unfold Allow. destruct (m <=? 0); [done|].
  unfold sbind, swrap. rewrite port_answered by done.
  assert (∀ b, at_level left (set_rl <[rateKey k := b]> w)) as Hset.
  { intros b. split; [done|]. unfold level, idle in *. cbn [rl server_ms set_rl].
    rewrite lookup_insert_ne; [done|]. unfold rateKey. by intros Heq%(inj (String.append _)). }
  unfold token_bucket_script. destruct (match rl w !! rateKey k with Some b => _ | None => _ end).
  destruct (SFleb _ _); cbn; apply Hset.
Qed.

Lemma after_call_sound left s c :
  (∀ m r, c ≠ CAllow keyID m r) → sound left s → sound left (after_call now s c).
Proof.
  intros Hc (Ha & Hcache & Hl). destruct c as [secret r|p r|k m r|t|i]; cbn [after_call]; [| | |done..].
  - rewrite Ha. split_and!; [apply Authenticate_quiet|done|done].
  - rewrite Ha. pose proof (rate_quiet p (st_cache s) Hcache) as H.
    destruct (LimitReqPerMinute _ _ _ _ _) as [[[rate c]|e] w]; destruct H as [-> H]; (split_and!; [done| |done]);
      [apply H|done].
  - split_and!; [done|done|]. apply Allow_other; [|done]. intros ->. by eapply Hc.
Qed.

Lemma after_calls_sound left s l :
  (∀ m r, CAllow keyID m r ∉ l) → sound left s → sound left (after_calls now s l).
Proof.
  revert s. induction l as [|c l IH]; intros s Hl Hs; [done|]. cbn. apply IH.
  - intros m r Hin. apply (Hl m r). by right.
  - apply after_call_sound; [|done]. intros m r ->. apply (Hl m r). by left.
Qed.

Lemma fleet_stores left f a :
  fleet_sound left f → sound left {| st_shared := shared f; st_cache := plan_cache (local_of (a_gateway a) f) |}.
Proof. intros (Ha & Hc & Hl). split_and!; [done|apply Hc|done]. Qed.

Lemma serve_sound left left' f a :
  fleet_sound left f → a_now a = now →
  sound left' (after_calls now {| st_shared := shared f; st_cache := plan_cache (local_of (a_gateway a) f) |} (serve a f).1.2) →
  fleet_sound left' (serve a f).2.
Proof.
  intros Hf Hnow. unfold serve. cbv zeta. rewrite Hnow.
  destruct (prun _) as [[resp b] calls]. cbn [fst snd shared locals]. intros (Ha & Hc & Hl).
  split_and!; [done| |done]. intros g. unfold local_of. cbn [locals]. destruct (decide (a_gateway a = g)) as [<-|Hne].
  - by rewrite lookup_insert_eq.
  - rewrite lookup_insert_ne by done. apply Hf.
Qed.

(** A request that is not counted spends nothing of the key's. *)
Lemma serve_other left f a :
  fleet_sound left f → a_now a = now → counted a = false → fleet_sound left (serve a f).2.
Proof.
  intros Hf Hnow Hc. eapply serve_sound; [done|done|]. apply after_calls_sound; [|by apply fleet_stores].
  intros m r Hin. destruct (traced_allow _ _ _ _ _ _ _ (serve_traced a f) Hin) as (Hpub & i & Hi & Hk).
  unfold counted, caller_of in Hc. rewrite Hpub in Hc. cbn in Hc, Hi. destruct Hf as (Ha & _).
  rewrite Ha in Hi. unfold the_secret in Hi. destruct (ParseBearer _) as [secret|e].
  - rewrite Hi in Hc. cbn in Hc. by rewrite Hk, String.eqb_refl in Hc.
  - done.
Qed.

(** What a request within the budget gets: its route's answer, or, when the key
    lacks the scope, a 403. *)
Definition let_in (a : Arrival) (r : Response * list call) : Prop :=
  ∃ i, caller_of a = Some i ∧
    (may_use (rt_Scope (a_route a)) i ∧ (∃ calls, r = (respond a calls, calls ++ [CHandle (Some i)])) ∨
     ¬ may_use (rt_Scope (a_route a)) i ∧ rs_Status r.1 = 403 ∧ ∀ j, CHandle j ∉ r.2).

(** What one beyond it gets. *)
Definition throttled (r : Response * list call) : Prop :=
  rs_Status r.1 = 429 ∧ is_Some (rs_Header r.1 !! "Retry-After"%string) ∧ ∀ j, CHandle j ∉ r.2.

Definition spent (left : Z) : Z := if 1 <=? left then left - 1 else 0.

(** What the ports answer to a counted request. *)
Lemma ports_counted left a s secret i :
  sound left s → 0 ≤ left ≤ n → a_now a = now → ParseBearer (a_header a HeaderAuthorization) = Ok secret →
  (Account.Authenticate Hash secret acc).1 = Ok i → id_KeyID i = keyID → rate_of (id_PlanID i) = Some n →
  let l := [CAuth secret (Ok i); CPlan (id_PlanID i) (Ok n)] in
  ∃ d, ask_auth (gateway_ports a s) [] = Ok i ∧ ask_plan (gateway_ports a s) [CAuth secret (Ok i)] = Ok n ∧
    ask_allow (gateway_ports a s) l = Ok d ∧ Allowed d = (1 <=? left) ∧
    sound (spent left) (after_calls now s (l ++ [CAllow (id_KeyID i) n (Ok d)])).
Proof.
  intros Hs Hleft Hnow Hk Hi Hid Hrate. cbv zeta.
  unfold gateway_ports, the_secret. rewrite Hk, Hnow. cbn [ask_auth ask_plan ask_allow].
  assert (∃ c, LimitReqPerMinute (id_PlanID i) now now (st_cache s) acc = (Ok (n, c), acc) ∧ cache_true c) as (c & Hp & Hc).
  { pose proof (rate_quiet (id_PlanID i) (st_cache s) (proj1 (proj2 Hs))) as Hq.
    destruct (LimitReqPerMinute _ _ _ _ _) as [[[rate c]|e] w]; destruct Hq as [-> Hq].
    - destruct Hq as [Hq Hc]. rewrite Hrate in Hq. injection Hq as <-. eauto.
    - by rewrite Hrate in Hq. }
  destruct Hs as (Ha & _ & Hlf & Hl).
  assert (0 < n < 2 ^ 53) as Hn' by (unfold MaxInt32 in Hn; lia).
  pose proof (Allow_at keyID n now left _ Hn' Hlf Hleft Hl) as Hal.
  destruct (Allow keyID n now (limiter (st_shared s))) as [d lw] eqn:Hd.
  assert (∃ dec, d = Ok dec ∧ Allowed dec = (1 <=? left) ∧ at_level (spent left) lw) as (dec & -> & Hdec & Hl').
  { destruct Hal as [Hlf' Hal]. unfold spent. destruct (1 <=? left).
    - destruct Hal as [-> Hal]. eexists. split_and!; [done|done|]. split; auto.
    - destruct Hal as [(retry & _ & ->) Hal]. eexists. split_and!; [done|done|]. split; auto. }
  exists dec. unfold after_calls. cbn. rewrite Ha, Hi, Authenticate_quiet, Hp, Hid. cbn. rewrite Hd. by split_and!.
Qed.

Lemma serve_counted left f a :
  fleet_sound left f → 0 ≤ left ≤ n → a_now a = now → counted a = true →
  (∀ i, caller_of a = Some i → rate_of (id_PlanID i) = Some n) →
  fleet_sound (spent left) (serve a f).2 ∧ if 1 <=? left then let_in a (serve a f).1 else throttled (serve a f).1.
Proof.
  intros Hf Hleft Hnow Hc Hrate. unfold counted in Hc. apply andb_true_iff in Hc as [Hpub Hc].
  assert (∃ secret i, ParseBearer (a_header a HeaderAuthorization) = Ok secret ∧
    (Account.Authenticate Hash secret acc).1 = Ok i ∧ id_KeyID i = keyID ∧ caller_of a = Some i)
    as (secret & i & Hk & Hi & Hid & Hcaller).
  { unfold caller_of in *. destruct (ParseBearer _) as [secret|]; [|done].
    destruct (Account.Authenticate Hash secret acc).1 as [i|] eqn:Hi; [|done]. apply String.eqb_eq in Hc.
    exists secret, i. by rewrite Hi. }
  destruct (ports_counted left a _ secret i (fleet_stores left f a Hf) Hleft Hnow Hk Hi Hid (Hrate i Hcaller))
    as (d & Hp1 & Hp2 & Hp3 & Hd & Hs).
  pose proof (limited_run (gateway_ports a _) (a_request_id a) (rt_Scope (a_route a)) (a_header a) (a_path a) (a_body a)
    (a_remote a) (breaker (local_of (a_gateway a) f)) secret i n d Hk Hp1 Hp2 Hp3) as Hrun.
  pose proof (serve_sound left (spent left) f a Hf Hnow) as Hsound.
  unfold serve, let_in in *. cbv zeta in *. destruct (a_route a) as [scope public] eqn:Hr. cbn [rt_Public rt_Scope] in *.
  apply negb_true_iff in Hpub as ->. destruct (prun _) as [[resp b] calls].
  cbn [fst snd] in *. rewrite Hd in Hrun. destruct (1 <=? left).
  - destruct Hrun as [(Hu & -> & ->)|(Hu & -> & Hst)]; (split; [apply Hsound; by rewrite ?after_calls_snoc|]).
    + exists i. split; [done|left]. eauto.
    + exists i. split; [done|right]. split_and!; [done..|apply unhandled].
  - destruct Hrun as (-> & Hst & Hra). split; [by apply Hsound|]. split_and!; [done..|apply unhandled].
Qed.

(** An arrival at this instant that, if it is the key's, is under a plan of rate [n]. *)
Definition timely (a : Arrival) : Prop :=
  a_now a = now ∧ ∀ i, caller_of a = Some i → id_KeyID i = keyID → rate_of (id_PlanID i) = Some n.

Lemma serve_one left f a :
  fleet_sound left f → 0 ≤ left ≤ n → timely a →
  fleet_sound (if counted a then spent left else left) (serve a f).2 ∧
  (counted a = true → if 0 <? left then let_in a (serve a f).1 else throttled (serve a f).1).
Proof.
  intros Hf Hleft [Hnow Hrate]. destruct (counted a) eqn:Hc.
  - assert (∀ i, caller_of a = Some i → rate_of (id_PlanID i) = Some n) as Hr.
    { intros i Hi. apply Hrate; [done|]. unfold counted in Hc. rewrite Hi in Hc.
      apply andb_true_iff in Hc as [_ Hc]. by apply String.eqb_eq. }
    destruct (serve_counted left f a Hf Hleft Hnow Hc Hr) as [H1 H2]. split; [done|]. intros _.
    by replace (0 <? left) with (1 <=? left) by (destruct (Z.leb_spec 1 left), (Z.ltb_spec 0 left); lia).
  - split; [|done]. by apply serve_other.
Qed.

Lemma serve_many left f l :
  fleet_sound left f → 0 ≤ left ≤ n → (∀ a, a ∈ l → timely a) →
  let rs := (serve_each l f).1 in
  length rs = length l ∧
  ∀ k a r, l !! k = Some a → rs !! k = Some r → counted a = true →
    if countb counted (take k l) <? left then let_in a r else throttled r.
Proof.
  revert left f. induction l as [|a l IH]; intros left f Hf Hleft Hl; [done|].
  cbv zeta. cbn [serve_each].
  destruct (serve_one left f a Hf Hleft (Hl a ltac:(by left))) as [Hf' Ha].
  set (left' := if counted a then spent left else left) in *.
  assert (0 ≤ left' ≤ n ∧ ∀ c, 0 ≤ c → (c <? left') = ((if counted a then 1 else 0) + c <? left)) as [Hleft' Hlt].
  { unfold left', spent. split; [destruct (counted a), (Z.leb_spec 1 left); lia|]. intros c Hc.
    destruct (counted a); [|done]. destruct (Z.leb_spec 1 left), (Z.ltb_spec (1 + c) left);
      first [apply Z.ltb_lt; lia|apply Z.ltb_ge; lia]. }
  destruct (IH left' (serve a f).2 Hf' Hleft' ltac:(intros b Hb; apply Hl; by right)) as [Hlen Hk].
  destruct (serve a f) as [r0 f'], (serve_each l _) as [rs f'']. cbn [fst snd] in *. split; [cbn; lia|].
  intros [|k] b r; cbn [lookup list_lookup take].
  - intros [= <-] [= <-] Hc. by apply Ha.
  - intros Hb Hrs Hc. specialize (Hk k b r Hb Hrs Hc). by rewrite Hlt in Hk by apply countb_nonneg.
Qed.
End instant.

(** *** A limiter that is out *)

(** What a request's calls tell its gateway's degrade window. *)
Definition observed (tr : list call) : list observation :=
  match tr with
  | CAuth _ _ :: CPlan _ _ :: CAllow _ _ (Ok _) :: _ => [Succeeded]
  | CAuth _ _ :: CPlan _ _ :: CAllow _ _ (Err _) :: CNow t :: _ => [Failed_at t]
  | _ => []
  end.

(** The limiter did not answer this request. *)
Definition limiter_failed (tr : list call) : bool :=
  match tr with CAuth _ _ :: CPlan _ _ :: CAllow _ _ (Err _) :: _ => true | _ => false end.

(** What one gateway has seen of the limiter, the most recent first. *)
Definition history (g : nat) (past : list (Arrival * (Response * list call))) : list observation :=
  foldl (λ h p, if bool_decide (a_gateway p.1 = g) then observed p.2.2 ++ h else h) [] past.

Lemma tenant_breaker ports fresh route header path body remote b :
  let '((_, b'), tr) := prun (tenant_route ports fresh route ∅ (incoming header path body remote) b) in
  b' = foldr (λ o b, observe b o) b (observed tr).
Proof.
  walk_route; cbn [observed foldr observe app]; try done.
  all: by match goal with H : Tolerate _ _ = _ |- _ => rewrite H end.
Qed.

(** A failing limiter is overlooked, or answered 503 with a Retry-After. *)
Definition overlooked (r : Response * list call) : Prop :=
  (∃ i, last r.2 = Some (CHandle (Some i))) ∨ rs_Status r.1 = 403.
Definition turned_away (r : Response * list call) : Prop :=
  rs_Status r.1 = 503 ∧ is_Some (rs_Header r.1 !! "Retry-After"%string) ∧ ∀ i, last r.2 ≠ Some (CHandle i).

Lemma failed_one b scope key ports resp tr :
  guarded b scope key ports resp tr → limiter_failed tr = true →
  ∃ t, observed tr = [Failed_at t] ∧ CNow t ∈ tr ∧
    if (Tolerate b t).1 then overlooked (resp, tr) else turned_away (resp, tr).
Proof.
  intros [(secret & i & l & _ & Hp & _ & -> & ->)|[Hr Hra]] Hf.
  - destruct Hp as [n d Hd|n e t Ht]; [done|]. exists t. rewrite Ht. split_and!; [done| |].
    + cbn. set_solver.
    + left. by exists i.
  - inversion Hr as [Hst Htr|? ? ? Hst Htr|? ? ? Hst Htr|? ? ? Hst Htr|? ? ? d ? Hst Htr|? ? ? ? t Ht Hst Htr|? ? ? Hp ? ? Hst Htr];
      subst; try done.
    + exists t. rewrite Ht. split_and!; [done|set_solver|]. split_and!; [done|apply Hra; auto|done].
    + destruct Hp as [n d Hd|n e t Ht]; [done|]. exists t. rewrite Ht. split_and!; [done|set_solver|]. by right.
Qed.

Lemma serve_run a f :
  let s := {| st_shared := shared f; st_cache := plan_cache (local_of (a_gateway a) f) |} in
  ∃ b', prun (tenant_route (gateway_ports a s) (a_request_id a) (a_route a) ∅
          (incoming (a_header a) (a_path a) (a_body a) (a_remote a)) (breaker (local_of (a_gateway a) f)))
        = ((serve a f).1.1, b', (serve a f).1.2) ∧
    ∀ g, breaker (local_of g (serve a f).2) = if bool_decide (a_gateway a = g) then b' else breaker (local_of g f).
Proof.
  cbv zeta. unfold serve. cbv zeta. destruct (prun _) as [[resp b'] tr]. exists b'. split; [done|].
  intros g. unfold local_of. cbn [snd locals]. case_bool_decide as Hg.
  - by rewrite Hg, lookup_insert_eq.
  - by rewrite lookup_insert_ne.
Qed.

Definition breakers (past : list (Arrival * (Response * list call))) (f : Fleet) : Prop :=
  ∀ g, breaker (local_of g f) = after Window (history g past) ∧ Forall real_time (history g past).

(** How a request the limiter did not answer is answered. *)
Definition in_outage (past : list (Arrival * (Response * list call))) (a : Arrival) (r : Response * list call) : Prop :=
  if a_now a - default (a_now a) (outage_start (history (a_gateway a) past)) <=? Window
  then overlooked r else turned_away r.

Lemma history_snoc g past p :
  history g (past ++ [p]) = if bool_decide (a_gateway p.1 = g) then observed p.2.2 ++ history g past else history g past.
Proof. unfold history. by rewrite foldl_app. Qed.

Lemma outage_one a f past :
  breakers past f → 0 < a_now a →
  breakers (past ++ [(a, (serve a f).1)]) (serve a f).2 ∧
  (limiter_failed (serve a f).1.2 = true → in_outage past a (serve a f).1).
Proof.
  intros Hb Hnow. destruct (serve_run a f) as (b' & Hrun & Hnext).
  pose proof (serve_traced a f) as Htr. cbv zeta in *.
  set (s := {| st_shared := _; st_cache := _ |}) in *.
  destruct (Hb (a_gateway a)) as [Hba Hreal].
  assert (∀ t, CNow t ∈ (serve a f).1.2 → t = a_now a) as Hclock.
  { intros t (l1 & l2 & Heq)%list_elem_of_split. rewrite Heq in Htr. apply traced_app in Htr as [_ [Ht _]]. done. }
  pose proof (tenant_breaker (gateway_ports a s) (a_request_id a) (a_route a) (a_header a) (a_path a) (a_body a)
    (a_remote a) (breaker (local_of (a_gateway a) f))) as Hb'.
  rewrite Hrun in Hb'. destruct (serve a f) as [[resp tr] f'] eqn:Hserve. cbn [fst snd] in *. split.
  - intros g. rewrite Hnext, history_snoc. cbn [fst snd]. case_bool_decide as Hg; [|apply Hb]. rewrite <-Hg. split.
    + rewrite Hb', Hba. clear. induction (observed tr) as [|o os IH]; [done|]. cbn. by rewrite IH.
    + apply Forall_app. split; [|done]. clear -Hclock Hnow. unfold observed.
      repeat case_match; repeat constructor; simplify_eq.
      cbn. rewrite (Hclock _ ltac:(do 3 right; left)). done.
  - intros Hfail. unfold in_outage.
    assert (rt_Public (a_route a) = false) as Hpub.
    { unfold limiter_failed in Hfail. repeat case_match; simplify_eq.
      eapply proj1, traced_allow; [done|]. do 2 right. left. }
    destruct (a_route a) as [scope public]. cbn in Hpub. subst public.
    pose proof (tenant_chain _ _ _ _ _ _ _ _ _ _ _ Hrun) as Hg.
    destruct (failed_one _ _ _ _ _ _ Hg Hfail) as (t & _ & Ht & Hout). rewrite (Hclock t Ht), Hba in Hout.
    by rewrite (proj1 (tolerate_continuous Window _ _ ltac:(by vm_compute) Hreal Hnow)) in Hout.
Qed.
Lemma outage_many l f past :
  breakers past f → (∀ a, a ∈ l → 0 < a_now a) →
  let rs := (serve_each l f).1 in
  length rs = length l ∧
  ∀ k a r, l !! k = Some a → rs !! k = Some r → limiter_failed r.2 = true →
    in_outage (past ++ take k (zip l rs)) a r.
Proof.
  revert f past. induction l as [|a l IH]; intros f past Hb Hl; [done|]. cbv zeta. cbn [serve_each].
  destruct (outage_one a f past Hb (Hl a ltac:(by left))) as [Hb' Ha].
  destruct (IH (serve a f).2 _ Hb' ltac:(intros b Hin; apply Hl; by right)) as [Hlen Hk].
  destruct (serve a f) as [r0 f'], (serve_each l _) as [rs f'']. cbn [fst snd] in *. split; [cbn; lia|].
  intros [|k] b r; cbn [lookup list_lookup].
  - intros [= <-] [= <-] Hf. cbn. rewrite app_nil_r. by apply Ha.
  - intros Hb1 Hr Hf. specialize (Hk k b r Hb1 Hr Hf). by rewrite <-app_assoc in Hk.
Qed.

(** ** Properties *)

(** C6. One limit for the whole fleet. Requests of any keys reach any gateways at
    one instant, in any order; the stores answer, what each gateway remembers of
    the plans is current, and a key's bucket is unused. Then the key's first [n]
    requests, [n] being its plan's rate, pass the limiter whichever gateway they
    reach and whatever other keys do in between: each gets its route's answer, or a 403
    when the key lacks the route's scope, which spends a token all the same.
    Every later request of the key is answered 429 with a Retry-After and reaches
    no handler. Requests to public routes, and requests the key does not
    authenticate, spend nothing of it. *)
Theorem fleet_burst keyID n now l f :
  let acc := accounts (shared f) in
  0 < n ≤ MaxInt32 →
  aw_faults acc = [] → lw_faults (limiter (shared f)) = [] →
  idle (rateKey keyID) (limiter (shared f)) →
  (∀ g, cache_true acc now (plan_cache (local_of g f))) →
  (∀ a, a ∈ l → timely acc now keyID n a) →
  let rs := (serve_each l f).1 in
  length rs = length l ∧
  ∀ k a r, l !! k = Some a → rs !! k = Some r → counted acc keyID a = true →
    if countb (counted acc keyID) (take k l) <? n then let_in acc a r else throttled r.
Proof.
  intros acc Hn Hacc Hlw Hidle Hcache Hl. apply (serve_many acc now keyID n); [done|done| |lia|done].
  split_and!; [done|done|split; auto].
Qed.

(** C7. How long the limiter may be out. Fresh gateways serve any requests, in any
    order and with any clocks, while the stores fail in any pattern. A request
    that the limiter did not answer is let through, up to its scope, exactly when
    at most a minute has passed since the first such failure this gateway has
    seen after its last answer from the limiter; from then on it is answered 503
    with a Retry-After and reaches no handler, until the limiter answers a
    request of this gateway again. What other gateways see does not matter. *)
Theorem outage_window l f :
  locals f = ∅ → (∀ a, a ∈ l → 0 < a_now a) →
  let rs := (serve_each l f).1 in
  length rs = length l ∧
  ∀ k a r, l !! k = Some a → rs !! k = Some r → limiter_failed r.2 = true →
    in_outage (take k (zip l rs)) a r.
Proof.
  intros Hf Hl. apply (outage_many l f []); [|done].
  intros g. unfold local_of. rewrite Hf, lookup_empty. done.
Qed.
End gateway.

(** ** A fleet at work *)

Definition demo_row (id secret : string) : KeyRow := {|
  kr_record := {| k_ID := id; k_TenantID := "t"; k_Name := id; k_Prefix := ""; k_Scopes := [ScopeSynth];
                  k_StoreText := false; k_CreatedAt := 1; k_LastUsedAt := None; k_RevokedAt := None |};
  kr_hash := demo_hash secret |}.

(** A tenant on a plan of two requests a minute, with two keys. *)
Definition demo_fleet : Fleet := {|
  shared := {|
    accounts :=
      set_keys {[ "1" := demo_row "k1" "zt_live_a"; "2" := demo_row "k2" "zt_live_b" ]}
        (set_plans {[ "free" := {| p_ID := "free"; CharsPerMonth := 1000; ReqPerMinute := 2; MaxConcurrentStreams := 2;
                                   MaxJobChars := 5000; PriceUSDCents := 0; OverageUSDPerMillion := None |} ]} demo_accounts);
    limiter := empty_limiter |};
  locals := ∅ |}.

Definition demo_arrival (gw : nat) (key scope : string) : Arrival := {|
  a_gateway := gw; a_now := at_ms 5000; a_route := {| rt_Scope := scope; rt_Public := false |};
  a_header h := if String.eqb h HeaderAuthorization then "Bearer " +:+ key else "";
  a_path := "/v1/synthesize"; a_body := ""; a_remote := ""; a_request_id := "r" |}.

Definition demo_respond (a : Arrival) (l : list call) : Response :=
  {| rs_Status := 200; rs_Header := ∅; rs_Body := NoBody |}.

Definition demo_burst : list Arrival :=
  [demo_arrival 0 "zt_live_a" "synth"; demo_arrival 1 "zt_live_b" "synth"; demo_arrival 0 "zt_live_x" "synth";
   demo_arrival 1 "zt_live_a" "jobs"; demo_arrival 0 "zt_live_b" "synth"; demo_arrival 0 "zt_live_a" "synth"].

(** The first key is served, then told it lacks a scope, then throttled; an
    unknown key is turned away; the second key has its own bucket. *)
Example demo_statuses :
  (λ r, rs_Status r.1) <$> (serve_each demo_hash demo_respond demo_burst demo_fleet).1 = [200; 200; 401; 403; 200; 429].
Proof. by vm_compute. Qed.

(** ** Witness *)

Lemma fleet_burst_witness :
  length (serve_each demo_hash demo_respond demo_burst demo_fleet).1 = 6%nat.
Proof.
  refine (proj1 (fleet_burst demo_hash demo_respond "k1" 2 (at_ms 5000) demo_burst demo_fleet _ eq_refl eq_refl _ _ _)).
  - by vm_compute.
  - done.
  - intros g p e. unfold local_of, demo_fleet. cbn [locals]. rewrite lookup_empty. cbn. by rewrite lookup_empty.
  - apply Forall_forall. repeat constructor; intros i Hi; vm_compute in Hi; first [done|injection Hi as <-]; by vm_compute.
Defined.

(** Redis is out for a gateway's requests 5, 30, 65 and 66 seconds into the
    minute; another gateway meets the outage later. *)
Definition down_fleet : Fleet := {|
  shared := {| accounts := accounts (shared demo_fleet);
               limiter := set_faults (replicate 9 Refused) empty_limiter |};
  locals := ∅ |}.

Definition late_arrival (gw : nat) (s : Z) : Arrival := {|
  a_gateway := gw; a_now := at_ms (s * 1000); a_route := {| rt_Scope := "synth"; rt_Public := false |};
  a_header h := if String.eqb h HeaderAuthorization then "Bearer zt_live_a" else "";
  a_path := "/v1/synthesize"; a_body := ""; a_remote := ""; a_request_id := "r" |}.

Definition demo_outage : list Arrival :=
  [late_arrival 0 5; late_arrival 0 30; late_arrival 1 64; late_arrival 0 65; late_arrival 0 66; late_arrival 1 66].

Example outage_statuses :
  (λ r, rs_Status r.1) <$> (serve_each demo_hash demo_respond demo_outage down_fleet).1 = [200; 200; 200; 200; 503; 200].
Proof. by vm_compute. Qed.

Lemma outage_window_witness :
  length (serve_each demo_hash demo_respond demo_outage down_fleet).1 = 6%nat.
Proof.
  refine (proj1 (outage_window demo_hash demo_respond demo_outage down_fleet eq_refl _)).
  apply Forall_forall. by repeat constructor.
Defined.
