(* ===== verification/Endpoints.v ===== *)
(** * The synthesis endpoints

    [http/synthesize.go] and [http/stream.go]: from a request body to the use
    case of [Synth] and back to a response. The JSON decoder, with unknown fields
    refused, is a parameter; writing to the connection is the event of [Synth] it
    causes. *)

From stdpp Require Import base gmap strings pretty numbers list.
From Stdlib Require Import SpecFloat.
From S2P Require Import Prelude GoString Float Audio Cache Quota Degrade RateLimit Dispatch Account Voices Webhook Synth Problem Http.

(** ** [synthesize.go]: the body *)

Definition maxSynthesizeBody : nat := Z.to_nat (2 ^ 20).

Record synthesisParams : Type := {
  sp_CFGScale : option spec_float; sp_AudioTemperature : option spec_float; sp_AudioTopK : option Z;
  sp_AudioTopP : option spec_float; sp_AudioRepetitionPenalty : option spec_float;
}.

Record synthesizeRequest : Type := {
  sq_Text : string; sq_Voice : string; sq_Format : string; sq_SampleRate : Z; sq_Normalize : option bool;
  sq_Params : option synthesisParams;
}.

Definition defaultVoice : string := "maichi".
Definition defaultCFGScale : spec_float := f64_of_Z 1.
Definition defaultAudioTemperature : spec_float := f64_of_ratio 4 5.
Definition defaultAudioTopK : Z := 25.
Definition defaultAudioTopP : spec_float := f64_of_ratio 19 20.
Definition defaultRepetitionPenalty : spec_float := f64_of_ratio 6 5.
Definition defaultEOAExtraFrames : Z := 1.

Definition toCacheParams (p : option synthesisParams) (sampleRate : Z) : Params :=
  let knob {A} (field : synthesisParams → option A) (d : A) :=
    match p with None => d | Some p => default d (field p) end in
  {| CFGScale := knob sp_CFGScale defaultCFGScale;
     AudioTemperature := knob sp_AudioTemperature defaultAudioTemperature;
     AudioTopK := knob sp_AudioTopK defaultAudioTopK; AudioTopP := knob sp_AudioTopP defaultAudioTopP;
     AudioRepetitionPenalty := knob sp_AudioRepetitionPenalty defaultRepetitionPenalty;
     EOAExtraFrames := defaultEOAExtraFrames;
     Cache.SampleRate := if sampleRate =? 0 then 48000 else sampleRate |}.

Definition toUseCase (b : synthesizeRequest) (tenantID keyID requestID : string) : Synth.Request := {|
  rq_TenantID := tenantID; rq_KeyID := keyID; rq_RequestID := requestID; rq_Text := sq_Text b;
  rq_VoiceID := if String.eqb (sq_Voice b) "" then defaultVoice else sq_Voice b;
  rq_Format := sq_Format b; rq_SampleRate := sq_SampleRate b; rq_Normalize := default true (sq_Normalize b);
  rq_Params := toCacheParams (sq_Params b) (sq_SampleRate b) |}.

(** ** [synthesize.go]: the answer *)

Definition contentType (format : string) : string :=
  if String.eqb format "mp3" then "audio/mpeg" else if String.eqb format "ogg_opus" then "audio/ogg" else "audio/wav".

Definition writeAudio (h : gmap string string) (result : Result) : Response :=
  let h := <["Content-Type" := contentType (r_Format result)]> h in
  let h := <["Content-Length" := Itoa (go_len (Audio result))]> h in
  let h := <["X-Cache" := if CacheHit result then "HIT" else "MISS"]> h in
  let h := <["X-Audio-Duration-Ms" := Itoa (r_DurationMS result)]> h in
  {| rs_Status := 200; rs_Header := <["X-Chars-Billed" := Itoa (CharsBilled result)]> h;
     rs_Body := AudioBody (Audio result) |}.

Section endpoints.
Variables (env : Synth.Env) (decode : string → option synthesizeRequest).

(** The body, read up to the limit. *)
Definition decoded (r : HttpRequest) : option synthesizeRequest := decode (str_take maxSynthesizeBody (hq_Body r)).

Definition Synthesize (h : gmap string string) (r : HttpRequest) (b : Breaker) : Prog event (Response * Breaker) :=
  match hq_Identity r with
  | None => pret (problem h r (NewError CodeUnauthorized "missing or malformed API key"), b)
  | Some caller =>
      match decoded r with
      | None => pret (problem h r (NewError CodeInvalidRequest "body must match SynthesizeRequest"), b)
      | Some body =>
          let req := toUseCase body (id_TenantID caller) (id_KeyID caller) (hq_RequestID r) in
          let! result := Synth.Synthesize env b req (id_PlanID caller) in
          let (result, b) := result : res Result * Breaker in
          pret (match result with
                | Err err => problem h r (mapSynthError err)
                | Ok result => writeAudio h result
                end, b)
      end
  end.

(** ** [stream.go] *)

(** The sink's [started]: its header was asked for. *)
Definition started (l : list event) : bool := existsb (λ e, match e with EHeader _ => true | _ => false end) l.

(** The headers [httpSink.Header] sets. *)
Definition stream_headers (h : gmap string string) : gmap string string :=
  <["X-Cache" := "MISS"]> (<["Content-Type" := "audio/wav"]> h).

Definition SynthesizeStream (limit : res Z) (h : gmap string string) (r : HttpRequest) (b : Breaker)
    : Prog event (Response * Breaker) :=
  match hq_Identity r with
  | None => pret (problem h r (NewError CodeUnauthorized "missing or malformed API key"), b)
  | Some caller =>
      match decoded r with
      | None => pret (problem h r (NewError CodeInvalidRequest "body must match SynthesizeRequest"), b)
      | Some body =>
          match limit with
          | Err err => pret (problem h r (internal err), b)
          | Ok streamLimit =>
              let req := toUseCase body (id_TenantID caller) (id_KeyID caller) (hq_RequestID r) in
              λ before,
              let '((result, b), after) := Stream env b req (id_PlanID caller) streamLimit before in
              let sent := started (drop (length before) after) in
              (match result with
               | Err err =>
                   if sent then {| rs_Status := 200; rs_Header := stream_headers h; rs_Body := OtherBody |}
                   else problem h r (mapStreamError err)
               | Ok _ => {| rs_Status := 200; rs_Header := if sent then stream_headers h else h;
                            rs_Body := OtherBody |}
               end, b, after)
          end
      end
  end.
End endpoints.

(** ** Lemmas *)

(** The status an error of the use case is answered with. *)
Definition synth_status (e : gerr) : Z := pb_Status (toProblem "" "" (Mapped (mapSynthError e))).

Lemma problem_status h r e : rs_Status (problem h r e) = pb_Status (toProblem "" "" (Mapped e)).
Proof. done. Qed.

Lemma synth_status_cases e : synth_status e ∈ [400; 402; 413; 422; 500; 503].
Proof.
  unfold synth_status, mapSynthError, overloadProblem.
  repeat case_match; apply (bool_decide_unpack _); vm_compute; done.
Qed.

(** What [Validate] refuses is the caller's to mend. *)
Lemma Validate_status req e :
  Synth.Validate req = Err e → synth_status e = if MaxTextChars <? rune_count (rq_Text req) then 413 else 400.
Proof.
  unfold Synth.Validate. destruct (Z.ltb_spec (rune_count (rq_Text req)) MinTextChars) as [Hmin|].
  { intros [= <-]. rewrite (proj2 (Z.ltb_ge _ _)); [done|]. unfold MinTextChars, MaxTextChars in *. lia. }
  destruct (MaxTextChars <? _); [by intros [= <-]|]. repeat case_match; intros [= <-]; done.
Qed.

(** How an admission that is refused comes out. *)
Lemma refused_invalid env b req planID e :
  Synth.Validate req = Err e → Synth.Synthesize env b req planID [] = (Err e, b, []).
Proof. intros H. unfold Synth.Synthesize, admission, pbind. by rewrite H. Qed.

Lemma refused_voice env b req req' planID e :
  Synth.Validate req = Ok req' → ans_resolve env [] = Err e → errors_Is e VoicesErrUnknown = true →
  ∃ b' tr, Synth.Synthesize env b req planID [] = (Err (sentinelf ErrUnknownVoice (rq_VoiceID req')), b', tr).
Proof.
  intros H Hr He. unfold Synth.Synthesize, admission, resolveVoice, pbind, pcall. rewrite H, Hr, He. by eexists _, _.
Qed.

Lemma refused_quota env b req req' planID v n d :
  let l1 := [EResolve (rq_TenantID req') (rq_VoiceID req')] in
  Synth.Validate req = Ok req' → ans_resolve env [] = Ok v → ans_plan env l1 = Ok n →
  ans_check env [EResolve (rq_TenantID req') (rq_VoiceID req'); EPlan planID] = Ok d → al_Allowed d = false →
  ∃ msg b' tr, Synth.Synthesize env b req planID [] = (Err (sentinelf ErrQuotaExceeded msg), b', tr).
Proof.
  cbv zeta. intros H Hr Hp Hc Hd. unfold Synth.Synthesize, admission, resolveVoice, checkQuota, pbind, pcall, pret.
  rewrite H, Hr. cbn [app]. rewrite Hp. cbn [app]. rewrite Hc, Hd. by eexists _, _, _.
Qed.

(** ** Properties *)

