(* ===== verification/Websocket.v ===== *)
(** * The WebSocket session

    [http/websocket.go]: one socket, many utterances. Two goroutines, the reader
    and the one that runs utterances, share an unbuffered channel of requests and
    a one-place channel of cancels; a third watches the cancels during an
    utterance. [step] interleaves them. [json.Unmarshal] and what the client
    sends are parameters, and the use case's calls to its sink and its result are
    the environment's. The reader's frames are numbered by their position. *)

From stdpp Require Import base gmap strings pretty numbers list.
From Stdlib Require Import SpecFloat.
From S2P Require Import Prelude GoString Float Audio Cache Synth Account Problem Http Endpoints.

(** ** Data *)

Definition wsMessageCancel : string := "cancel".
Definition wsMessageEnd : string := "end".
Definition wsReadLimit : Z := 2 ^ 20.
Definition wsIdleTimeout : Z := 5 * Minute.

(** What the reader's [Read] returns before its error. *)
Inductive inbound : Type := MessageText (data : string) | MessageBinary (data : string).

Record wsEvent : Type := {
  ev_Type : string; ev_DurationMS : Z; ev_Cached : bool; ev_Cancelled : bool; ev_Code : string; ev_Detail : string;
}.

(** What is written to the socket: audio of the utterance of frame [k], the event
    that ends it, or the reader's complaint about frame [i]. *)
Inductive outbound : Type :=
  | Spoken (k : nat) (bytes : string)
  | Ended (k : nat) (e : wsEvent)
  | Complaint (i : nat) (e : wsEvent).

Definition failure (code : Code) (detail : string) : wsEvent := {|
  ev_Type := "error"; ev_DurationMS := 0; ev_Cached := false; ev_Cancelled := false;
  ev_Code := Code_String code; ev_Detail := detail |}.

(** The event that ends an utterance. [mapStreamError] always gives an [*Error]. *)
Definition utterance_event (r : res StreamResult) : wsEvent :=
  match r with
  | Err err => failure (er_Code (mapStreamError err)) (er_Detail (mapStreamError err))
  | Ok result => {| ev_Type := wsMessageEnd; ev_DurationMS := sr_DurationMS result;
      ev_Cached := sr_CacheHit result; ev_Cancelled := Cancelled result; ev_Code := ""; ev_Detail := "" |}
  end.

(** [wsSink]: the header of a stream of unknown size is collected, then sent as
    one frame. [write] is the connection's write of a binary frame. *)
Definition header_frame (sampleRate : Z) : string := header_bytes sampleRate UnknownSize UnknownSize.

Definition wsSink_Header (write : string → option gerr) (sampleRate : Z) : option gerr :=
  match WriteHeader (λ _, None) sampleRate UnknownSize with
  | Some err => Some err
  | None => write (header_frame sampleRate)
  end.

Definition wsSink_Chunk (write : string → option gerr) (pcm : string) : option gerr := write pcm.

(** [SynthesizeWS] up to the session: a problem, an upgrade the library refused
    and answered itself, or a session with the plan's stream limit. *)
Inductive ws_start : Type := WsProblem (resp : Response) | WsRefused | WsSession (caller : Identity) (streamLimit : Z).

Definition SynthesizeWS (limits : string → res Z) (accept : bool) (h : gmap string string) (r : HttpRequest) : ws_start :=
  match hq_Identity r with
  | None => WsProblem (problem h r (NewError CodeUnauthorized "missing or malformed API key"))
  | Some caller =>
      match limits (id_PlanID caller) with
      | Err err => WsProblem (problem h r (internal err))
      | Ok streamLimit => if accept then WsSession caller streamLimit else WsRefused
      end
  end.

(** The reader: at [Read], or offering frame [k] to the runner, or returned. *)
Inductive reader_pc : Type := Reading | Offering (k : nat) (data : string) | Returned.

(** The runner: waiting for a request, draining the cancels before the one it
    took, in the use case, or returned. *)
Inductive runner_pc : Type :=
  | Waiting
  | Draining (k : nat) (data : string)
  | Speaking (k : nat) (aborted : bool)
  | Closed.

Record session : Type := {
  pos : nat;                       (** frames read so far *)
  reader : reader_pc;
  runner : runner_pc;
  cancels : option nat;            (** the one place of the channel, and whose cancel it is *)
  out : list outbound;
  aborts : list (nat * nat);       (** utterances whose context a cancel ended *)
}.

Definition opened_session : session :=
  {| pos := 0; reader := Reading; runner := Waiting; cancels := None; out := []; aborts := [] |}.

Definition read_to (n : nat) (pc : reader_pc) (s : session) : session := {|
  pos := n; reader := pc; runner := runner s; cancels := cancels s; out := out s; aborts := aborts s |}.
Definition run_to (pc : runner_pc) (s : session) : session := {|
  pos := pos s; reader := reader s; runner := pc; cancels := cancels s; out := out s; aborts := aborts s |}.
Definition set_cancels (c : option nat) (s : session) : session := {|
  pos := pos s; reader := reader s; runner := runner s; cancels := c; out := out s; aborts := aborts s |}.
Definition send (o : outbound) (s : session) : session := {|
  pos := pos s; reader := reader s; runner := runner s; cancels := cancels s; out := out s ++ [o];
  aborts := aborts s |}.
Definition abort (k c : nat) (s : session) : session := {|
  pos := pos s; reader := reader s; runner := Speaking k true; cancels := None; out := out s;
  aborts := aborts s ++ [(k, c)] |}.

Section session.
Variables (frames : list inbound) (control : string → option string)
  (decode : string → option synthesizeRequest).

(** How [readLoop] classifies a text frame. *)
Inductive class : Type := Request_ | Cancel_ | Ignored.

Definition classify (data : string) : class :=
  match control data with
  | Some kind =>
      if String.eqb kind "" then Request_
      else if String.eqb kind wsMessageCancel then Cancel_ else Ignored
  | None => Request_
  end.

(** One turn of [readLoop] that got a frame. *)
Definition read_turn (f : inbound) (s : session) : session :=
  match f with
  | MessageBinary _ =>
      send (Complaint (pos s) (failure CodeInvalidRequest "the request frame must be text"))
        (read_to (S (pos s)) Reading s)
  | MessageText data =>
      match classify data with
      | Cancel_ => set_cancels (match cancels s with Some c => Some c | None => Some (pos s) end)
                     (read_to (S (pos s)) Reading s)
      | Ignored => read_to (S (pos s)) Reading s
      | Request_ => read_to (S (pos s)) (Offering (pos s) data) s
      end
  end.

(** [utterance] up to the call of the use case. *)
Definition begin (k : nat) (data : string) (s : session) : session :=
  match decode data with
  | None => run_to Waiting (send (Ended k (failure CodeInvalidRequest "body must match SynthesizeRequest")) s)
  | Some _ => run_to (Speaking k false) s
  end.

(** [step]: the reader reads a frame, or its [Read] fails or the session is over;
    the request changes hands; the runner drains a cancel, or finds none and
    begins; the watcher takes a cancel; the sink is called; the use case returns,
    and the watcher that is then told to stop may still take a cancel. *)
Inductive step : session → session → Prop :=
| step_read s f : reader s = Reading → frames !! pos s = Some f → step s (read_turn f s)
| step_return s : reader s ≠ Returned → step s (read_to (pos s) Returned s)
| step_hand s k data :
    reader s = Offering k data → runner s = Waiting →
    step s (run_to (Draining k data) (read_to (pos s) Reading s))
| step_close s : reader s = Returned → runner s = Waiting → step s (run_to Closed s)
| step_drain s k data c :
    runner s = Draining k data → cancels s = Some c → step s (set_cancels None s)
| step_begin s k data : runner s = Draining k data → cancels s = None → step s (begin k data s)
| step_watch s k c : runner s = Speaking k false → cancels s = Some c → step s (abort k c s)
| step_header s k aborted rate :
    runner s = Speaking k aborted → 0 < rate → step s (send (Spoken k (header_frame rate)) s)
| step_chunk s k aborted pcm : runner s = Speaking k aborted → step s (send (Spoken k pcm) s)
| step_end s k aborted r :
    runner s = Speaking k aborted → step s (run_to Waiting (send (Ended k (utterance_event r)) s))
| step_end_watched s k c r :
    runner s = Speaking k false → cancels s = Some c →
    step s (run_to Waiting (send (Ended k (utterance_event r)) (set_cancels None s))).

Definition reachable (s : session) : Prop := rtc step opened_session s.

(** Frame [i] is a request, or a cancel. *)
Definition is_request (i : nat) : bool :=
  match frames !! i with
  | Some (MessageText data) => match classify data with Request_ => true | _ => false end
  | _ => false
  end.
Definition is_cancel (i : nat) : bool :=
  match frames !! i with
  | Some (MessageText data) => match classify data with Cancel_ => true | _ => false end
  | _ => false
  end.

(** The requests among the first [n] frames, in order. *)
Definition requests (n : nat) : list nat := List.filter is_request (seq 0 n).

(** The utterances whose end is among what was sent, in order. *)
Definition ended (l : list outbound) : list nat := omap (λ o, match o with Ended k _ => Some k | _ => None end) l.

Definition running (s : session) : list nat :=
  match runner s with Draining k _ | Speaking k _ => [k] | _ => [] end.
Definition offered (s : session) : list nat := match reader s with Offering k _ => [k] | _ => [] end.

(** A cancel [c] that is [k]'s: it came after [k] and before the next request. *)
Definition cancels_of (k c : nat) : Prop :=
  is_request k = true ∧ is_cancel c = true ∧ (k < c)%nat ∧ ∀ i, (k < i < c)%nat → is_request i = false.

(** ** Lemmas *)

#[local] Arguments requests : simpl never.

Lemma elem_of_requests n i : i ∈ requests n ↔ is_request i = true ∧ (i < n)%nat.
Proof.
  unfold requests. rewrite list_elem_of_In, List.filter_In, <-list_elem_of_In, elem_of_seq. intuition lia.
Qed.

Lemma requests_split n k : is_request k = true → (k < n)%nat → ∃ r, requests n = requests k ++ k :: r.
Proof.
  intros Hk Hn. unfold requests. replace n with (k + S (n - S k))%nat by lia.
  rewrite seq_app, List.filter_app. cbn. rewrite Hk. by eexists.
Qed.

Lemma requests_S n : requests (S n) = requests n ++ (if is_request n then [n] else []).
Proof.
  unfold requests. rewrite seq_S, List.filter_app. cbn. by destruct (is_request n).
Qed.

Lemma nodup_split {A} (k : A) l1 l2 r1 r2 :
  NoDup (l1 ++ k :: r1) → l1 ++ k :: r1 = l2 ++ k :: r2 → l1 = l2 ∧ r1 = r2.
Proof.
  revert l2. induction l1 as [|a l1 IH]; intros [|b l2] Hnd [=]; subst; auto.
  - apply NoDup_cons in Hnd as [Hnd _]. set_solver.
  - apply NoDup_cons in Hnd as [Hnd _]. set_solver.
  - apply NoDup_cons in Hnd as [_ Hnd]. destruct (IH l2) as [-> ->]; auto.
Qed.

(** A request among the first [n] frames, and those before it. *)
Lemma requests_at n l k r : requests n = l ++ k :: r → is_request k = true ∧ (k < n)%nat ∧ l = requests k.
Proof.
  intros H. assert (k ∈ requests n) as [Hk Hn]%elem_of_requests by (rewrite H; set_solver).
  split_and!; [done..|]. destruct (requests_split n k Hk Hn) as [r' H'].
  rewrite H' in H. assert (NoDup (requests n)) as Hnd.
  { apply NoDup_ListNoDup, List.NoDup_filter, List.seq_NoDup. }
  rewrite H' in Hnd. by destruct (nodup_split k (requests k) l r' r Hnd H).
Qed.

Lemma no_later_request n l k i : requests n = l ++ [k] → (k < i < n)%nat → is_request i = false.
Proof.
  intros H Hi. destruct (is_request i) eqn:Hr; [|done].
  destruct (requests_at n l k [] H) as (_ & _ & ->).
  assert (i ∈ requests n) as Hin by (apply elem_of_requests; auto with lia).
  rewrite H, elem_of_app, elem_of_requests, list_elem_of_singleton in Hin. lia.
Qed.

(** What holds between any two atomic actions of the goroutines. *)
Record invariant (s : session) : Prop := {
  inv_order : ∃ rest, requests (pos s) = ended (out s) ++ running s ++ offered s ++ rest ∧
                (reader s = Returned ∨ rest = []);
  inv_pending : ∀ c, cancels s = Some c → is_cancel c = true ∧ (c < pos s)%nat;
  inv_speaking : ∀ k a c, runner s = Speaking k a → cancels s = Some c → cancels_of k c;
  inv_aborts : ∀ k c, (k, c) ∈ aborts s → cancels_of k c;
  inv_audio : ∀ l1 k b l2, out s = l1 ++ Spoken k b :: l2 → ended l1 = requests k;
}.

Lemma ended_app l1 l2 : ended (l1 ++ l2) = ended l1 ++ ended l2.
Proof. apply omap_app. Qed.

Lemma audio_snoc (P : list outbound → nat → Prop) l o :
  (∀ l1 k b l2, l = l1 ++ Spoken k b :: l2 → P l1 k) →
  (∀ k b, o = Spoken k b → P l k) →
  ∀ l1 k b l2, l ++ [o] = l1 ++ Spoken k b :: l2 → P l1 k.
Proof.
  intros Hl Ho l1 k b l2 Heq. destruct (exists_last (l := Spoken k b :: l2)) as (m & x & Hm); [done|].
  rewrite Hm, app_assoc in Heq. apply app_inj_tail in Heq as [Heq ->].
  destruct m as [|y m]; cbn in Hm; injection Hm as ??; subst.
  - rewrite app_nil_r in Ho. by eapply Ho.
  - by eapply Hl.
Qed.

(** Nothing was offered while the reader was at [Read]. *)
Lemma reading_order s :
  invariant s → reader s = Reading → requests (pos s) = ended (out s) ++ running s.
Proof.
  intros [(rest & H & Hr) _ _ _ _] Hs. destruct Hr as [Hr| ->]; [congruence|].
  unfold offered in H. by rewrite Hs, !app_nil_r in H.
Qed.

Lemma read_turn_invariant s f :
  invariant s → reader s = Reading → frames !! pos s = Some f → invariant (read_turn f s).
Proof.
  intros Hi Hs Hf. pose proof (reading_order s Hi Hs) as Hq. destruct Hi as [_ Hp Hsp Ha Ho].
  assert (requests (S (pos s)) = ended (out s) ++ running s ++ (if is_request (pos s) then [pos s] else [])) as HS
    by (by rewrite requests_S, Hq, <-app_assoc).
  unfold is_request in HS. rewrite Hf in HS.
  assert (∀ c, cancels s = Some c → is_cancel c = true ∧ (c < S (pos s))%nat) as Hp'
    by (intros c Hc; destruct (Hp c Hc); split; [done|lia]).
  destruct f as [data|data]; cbn [read_turn].
  2:{ split; cbn; try done.
      - exists []. split; [|by right]. unfold ended in *. rewrite omap_app. cbn. by rewrite HS, !app_nil_r.
      - apply (audio_snoc (λ l1 k, ended l1 = requests k)); [done|by intros]. }
  destruct (classify data) eqn:Hcl; (split; cbn; try done).
  - exists []. split; [|by right]. by rewrite HS.
  - exists []. split; [|by right]. by rewrite HS.
  - intros c. destruct (cancels s) as [c'|] eqn:Hc; intros [= <-]; [by apply Hp'|].
    split; [|lia]. unfold is_cancel. by rewrite Hf, Hcl.
  - intros k a c Hk. destruct (cancels s) as [c'|] eqn:Hc; intros [= <-]; [by eapply Hsp|].
    unfold running in Hq. rewrite Hk in Hq. destruct (requests_at _ _ _ _ Hq) as (Hr & Hlt & _).
    split_and!; [done| |done|by intros i; apply (no_later_request _ _ _ _ Hq)].
    unfold is_cancel. by rewrite Hf, Hcl.
  - exists []. split; [|by right]. by rewrite HS.
Qed.

Lemma step_invariant s s' : invariant s → step s s' → invariant s'.
Proof.
  intros Hi Hst. destruct Hst as [s f Hs Hf|s Hs|s k data Hs Hr|s Hs Hr|s k data c Hr Hc|s k data Hr Hc
    |s k c Hr Hc|s k a rate Hr Hrate|s k a pcm Hr|s k a r Hr|s k c r Hr Hc];
    [by apply read_turn_invariant|..]; destruct Hi as [(rest & Hq & Hrest) Hp Hsp Ha Ho].
  - split; cbn; try done. exists (offered s ++ rest). split; [|by left]. by rewrite Hq.
  - split; cbn; try done. unfold running, offered in *. rewrite Hs, Hr in Hq. exists rest. split; [done|].
    destruct Hrest as [?|?]; [congruence|by right].
  - split; cbn; try done. exists rest. unfold running in Hq. by rewrite Hr in Hq.
  - split; cbn; try done. by exists rest.
  - unfold begin. destruct (decode data); (split; cbn; try done).
    + exists rest. unfold running in Hq. by rewrite Hr in Hq.
    + intros k' a c' _ Hc'. congruence.
    + exists rest. unfold running in Hq. rewrite Hr in Hq. rewrite ended_app, Hq. cbn. by rewrite <-!app_assoc.
    + apply (audio_snoc (λ l1 k, ended l1 = requests k)); [done|by intros].
  - pose proof (Hsp k false c Hr Hc) as Hkc. split; cbn; try done.
    + exists rest. unfold running in Hq. by rewrite Hr in Hq.
    + intros k' c'. rewrite elem_of_app, list_elem_of_singleton. intros [?|[= -> ->]]; [by apply Ha|done].
  - split; cbn; try done.
    + exists rest. rewrite ended_app. cbn. by rewrite app_nil_r.
    + apply (audio_snoc (λ l1 k, ended l1 = requests k)); [done|intros k' b [= <- <-]].
      unfold running in Hq. rewrite Hr in Hq. by apply (requests_at _ _ _ _ Hq).
  - split; cbn; try done.
    + exists rest. rewrite ended_app. cbn. by rewrite app_nil_r.
    + apply (audio_snoc (λ l1 k, ended l1 = requests k)); [done|intros k' b [= <- <-]].
      unfold running in Hq. rewrite Hr in Hq. by apply (requests_at _ _ _ _ Hq).
  - split; cbn; try done.
    + exists rest. unfold running in Hq. rewrite Hr in Hq. rewrite ended_app, Hq. cbn. by rewrite <-!app_assoc.
    + apply (audio_snoc (λ l1 k, ended l1 = requests k)); [done|by intros].
  - split; cbn; try done.
    + exists rest. unfold running in Hq. rewrite Hr in Hq. rewrite ended_app, Hq. cbn. by rewrite <-!app_assoc.
    + apply (audio_snoc (λ l1 k, ended l1 = requests k)); [done|by intros].
Qed.

Lemma reachable_invariant s : reachable s → invariant s.
Proof.
  intros H. apply (rtc_invariant step invariant) with (x := opened_session); [| |done].
  - intros a b Ha Hab. by eapply step_invariant.
  - split; cbn; try done.
    + exists []. auto.
    + intros k c Hin. by apply elem_of_nil in Hin.
    + by intros [].
Qed.

(** ** Properties *)

(** C4. A socket's utterances. However the reader, the runner and the watcher
    interleave and whatever the client sends: utterances are ended one by one, in
    the order their requests were sent and each at most once; audio is sent only
    after every earlier request was ended, and before its own is; when both
    goroutines are idle every request read so far has been ended; and a cancel
    aborts only the utterance of the last request sent before it, never one
    whose request came after it. *)
Theorem ws_session s :
  reachable s →
  (∃ rest, requests (pos s) = ended (out s) ++ rest) ∧ NoDup (ended (out s)) ∧
  (∀ l1 k b l2, out s = l1 ++ Spoken k b :: l2 → ended l1 = requests k ∧ k ∉ ended l1) ∧
  (reader s = Reading → runner s = Waiting → ended (out s) = requests (pos s)) ∧
  (∀ k c, (k, c) ∈ aborts s → cancels_of k c).
Proof.
  intros Hs. pose proof (reachable_invariant s Hs) as Hi. pose proof Hi as [(rest & Hq & _) _ _ Ha Ho].
  split_and!; [by eexists| | | |done].
  - assert (NoDup (requests (pos s))) as Hnd by (apply NoDup_ListNoDup, List.NoDup_filter, List.seq_NoDup).
    rewrite Hq in Hnd. by apply NoDup_app in Hnd as [? _].
  - intros l1 k b l2 Hout. pose proof (Ho l1 k b l2 Hout) as He. split; [done|].
    rewrite He, elem_of_requests. lia.
  - intros Hr Hw. rewrite (reading_order s Hi Hr). unfold running. by rewrite Hw, app_nil_r.
Qed.

(** A request that waits its turn hides the cancels behind it: while the reader
    offers it, the utterance in progress cannot be aborted. *)
Theorem pipelined_cancel_waits s k i data s' :
  runner s = Speaking k false → reader s = Offering i data → cancels s = None →
  rtc step s s' → k ∈ ended (out s') ∨ runner s' = Speaking k false.
Proof.
  intros Hr Hs Hc Hrun.
  assert (k ∈ ended (out s') ∨ runner s' = Speaking k false ∧ reader s' ≠ Reading ∧ cancels s' = None) as H;
    [|tauto].
  apply (rtc_invariant step (λ s', k ∈ ended (out s') ∨
    runner s' = Speaking k false ∧ reader s' ≠ Reading ∧ cancels s' = None)) with (x := s);
    [|by right; rewrite Hs|done].
  clear. intros a b [Hk|(Hr & Hs & Hc)] Hab.
  - left. destruct Hab; cbn; rewrite ?ended_app; try (by set_solver).
    + unfold read_turn. destruct f as [data|data]; [destruct (classify data)|]; cbn; rewrite ?ended_app; set_solver.
    + unfold begin. destruct (decode data); cbn; rewrite ?ended_app; set_solver.
  - destruct Hab; cbn; try congruence; try (by right).
    left. rewrite ended_app. cbn. assert (k0 = k) as -> by congruence. apply elem_of_app. right. by left.
Qed.
End session.

(** A cancel sent at once after its request may be dropped with the stale ones:
    the runner drains the channel after it has taken the request. *)
Theorem early_cancel_lost control decode request cancel body :
  classify control request = Request_ → classify control cancel = Cancel_ → decode request = Some body →
  let frames := [MessageText request; MessageText cancel] in
  ∃ s, reachable frames control decode s ∧ runner s = Speaking 0 false ∧
    ∀ s', rtc (step frames control decode) s s' → aborts s' = [].
Proof.
  intros Hreq Hcan Hdec frames.
  set (s0 := opened_session). set (s1 := read_turn control (MessageText request) s0).
  set (s2 := run_to (Draining 0 request) (read_to (pos s1) Reading s1)).
  set (s3 := read_turn control (MessageText cancel) s2). set (s4 := set_cancels None s3).
  set (s5 := begin decode 0 request s4). exists s5.
  assert (s1 = read_to 1 (Offering 0 request) s0) as H1 by (unfold s1, read_turn; by rewrite Hreq).
  assert (s3 = set_cancels (Some 1%nat) (read_to 2 Reading s2)) as H3
    by (unfold s3, read_turn; rewrite Hcan; unfold s2; by rewrite H1).
  assert (s5 = run_to (Speaking 0 false) s4) as H5 by (unfold s5, begin; by rewrite Hdec).
  split_and!.
  - eapply rtc_l; [by apply (step_read _ _ _ s0 (MessageText request))|].
    eapply rtc_l; [apply (step_hand _ _ _ s1 0 request); by rewrite H1|].
    eapply rtc_l; [apply (step_read _ _ _ s2 (MessageText cancel)); unfold s2; by rewrite H1|].
    fold s3. eapply rtc_l; [apply (step_drain _ _ _ s3 0 request 1); rewrite H3; by unfold s2|].
    fold s4. eapply rtc_l; [apply (step_begin _ _ _ s4 0 request); unfold s4; rewrite H3; by unfold s2|].
    apply rtc_refl.
  - by rewrite H5.
  - intros s' Hrun.
    assert (pos s' = 2%nat ∧ cancels s' = None ∧ aborts s' = []) as (_ & _ & ?); [|done].
    apply (rtc_invariant (step frames control decode) (λ s, pos s = 2%nat ∧ cancels s = None ∧ aborts s = []))
      with (x := s5); [| |done].
    + clear. intros a b (Hp & Hc & Ha) Hab. destruct Hab; cbn; try (by auto); try congruence.
      * rewrite Hp in H0. done.
      * unfold begin. destruct (decode data); by auto.
    + rewrite H5. unfold s4. rewrite H3. unfold s2. by rewrite H1.
Qed.

(** ** Witnesses *)

Definition demo_frames : list inbound := [MessageText "xin chao"; MessageText "stop"; MessageText "lan nua"].
Definition demo_control (data : string) : option string := if String.eqb data "stop" then Some "cancel"%string else None.
Definition demo_decode (data : string) : option synthesizeRequest :=
  Some {| sq_Text := data; sq_Voice := ""; sq_Format := ""; sq_SampleRate := 0; sq_Normalize := None; sq_Params := None |}.

(** The first utterance is cancelled, and ended; the second request is read. *)
Definition demo_session : session := {|
  pos := 3; reader := Offering 2 "lan nua"; runner := Waiting; cancels := None;
  out := [Spoken 0 "pcm"; Ended 0 (utterance_event (Ok (cancelledResult 96 (toUseCase
    {| sq_Text := "xin chao"; sq_Voice := ""; sq_Format := ""; sq_SampleRate := 48000; sq_Normalize := None;
       sq_Params := None |} "t" "k" "r") 5)))];
  aborts := [(0, 1)]%nat |}.

Lemma demo_session_reachable : reachable demo_frames demo_control demo_decode demo_session.
Proof.
  eapply rtc_l; [by apply (step_read _ _ _ _ (MessageText "xin chao"))|].
  eapply rtc_l; [by eapply (step_hand _ _ _ _ 0 "xin chao")|].
  eapply rtc_l; [by apply (step_begin _ _ _ _ 0 "xin chao")|].
  eapply rtc_l; [by eapply (step_chunk _ _ _ _ 0 false "pcm")|].
  eapply rtc_l; [by apply (step_read _ _ _ _ (MessageText "stop"))|].
  eapply rtc_l; [by apply (step_watch _ _ _ _ 0 1)|].
  eapply rtc_l; [by eapply (step_end _ _ _ _ 0 true)|].
  eapply rtc_l; [by apply (step_read _ _ _ _ (MessageText "lan nua"))|].
  apply rtc_refl.
Qed.

Lemma ws_session_witness : cancels_of demo_frames demo_control 0 1.
Proof.
  refine (proj2 (proj2 (proj2 (proj2 (ws_session demo_frames demo_control demo_decode demo_session
    demo_session_reachable)))) 0%nat 1%nat _).
  by left.
Defined.
