(* ===== verification/Resources.v ===== *)
(** * The resource endpoints

    The handlers of [http/jobs.go], [keys.go], [voices.go], [usage.go] and
    [admin_handlers.go], over the use cases of [JobService.v], [Account.v],
    [Voices.v] and [Report.v]. JSON decoding (unknown fields refused) and
    [uuid.Parse] are parameters, a path parameter and a query are arguments, and
    a JSON body is the value that is encoded. *)

From Stdlib Require Import Ascii SpecFloat.
From stdpp Require Import base gmap strings pretty numbers sorting list.
From S2P Require Import Prelude GoString Float Calendar Cache Jobs JobStore Orchestrator JobService Account Voices Usage Report Problem Http Endpoints.

(** How a handler answers: a problem, a body encoded as JSON, text, or nothing. *)
Inductive answer (A : Type) : Type :=
  | AProblem (resp : Response)
  | AJson (status : Z) (body : A)
  | AText (contentType disposition : string) (body : string)
  | AEmpty (status : Z).
Arguments AProblem {A} resp.
Arguments AJson {A} status body.
Arguments AText {A} contentType disposition body.
Arguments AEmpty {A} status.

Definition answer_status {A} (a : answer A) : Z :=
  match a with AProblem resp => rs_Status resp | AJson s _ => s | AText _ _ _ => 200 | AEmpty s => s end.

Definition fail {A} (h : gmap string string) (r : HttpRequest) (e : Error) : answer A := AProblem (problem h r e).

Definition no_identity : Error := NewError CodeUnauthorized "missing or malformed API key".

(** ** [jobs.go] *)

Definition HeaderIdempotencyKey : string := "Idempotency-Key".
Definition maxJobBody : nat := Z.to_nat (2 ^ 20).

Record jobCreateRequest : Type := {
  jc_Text : string; jc_Voice : string; jc_Format : string; jc_SampleRate : Z; jc_Normalize : option bool;
  jc_Params : option synthesisParams; jc_WebhookURL : string; jc_Metadata : gmap string string;
}.

Record jobDTO : Type := {
  jd_ID : string; jd_Status : string; jd_Voice : string; jd_Format : string; jd_SampleRate : Z;
  jd_TotalChars : Z; jd_SegmentsTotal : option Z; jd_SegmentsDone : Z; jd_DurationMS : option Z;
  jd_OutputURL : string; jd_Error : string; jd_Metadata : gmap string string; jd_CreatedAt : Z;
  jd_CompletedAt : option Z;
}.

(** The request [CreateJob] makes of the use case. *)
Definition job_request (caller : Identity) (r : HttpRequest) (body : jobCreateRequest) : Jobs.Request := {|
  Jobs.rq_TenantID := id_TenantID caller; Jobs.rq_KeyID := id_KeyID caller;
  rq_IdempotencyKey := hq_Header r HeaderIdempotencyKey; Jobs.rq_Text := jc_Text body;
  Jobs.rq_VoiceID := if String.eqb (jc_Voice body) "" then defaultVoice else jc_Voice body;
  Jobs.rq_Format := jc_Format body; Jobs.rq_SampleRate := jc_SampleRate body;
  Jobs.rq_Normalize := default true (jc_Normalize body);
  Jobs.rq_Params := toCacheParams (jc_Params body) (jc_SampleRate body);
  rq_WebhookURL := jc_WebhookURL body; rq_Metadata := jc_Metadata body |}.

Section jobs.
Variables (sha256 : string → string) (check_webhook : string → res ())
  (sign_url : string → Z → res string) (decode : string → option jobCreateRequest)
  (parse_uuid : string → option string).

Definition toJobDTO (job : Job) : jobDTO := {|
  jd_ID := ID job; jd_Status := Status_String (status job); jd_Voice := VoiceID job; jd_Format := Format job;
  jd_SampleRate := SampleRate job; jd_TotalChars := TotalChars job; jd_SegmentsTotal := SegmentsTotal job;
  jd_SegmentsDone := SegmentsDone job; jd_DurationMS := DurationMS job;
  jd_OutputURL := match OutputURL sign_url job with Ok url => url | Err _ => "" end;
  jd_Error := Jobs.Error job; jd_Metadata := PublicMetadata (Metadata job); jd_CreatedAt := CreatedAt job;
  jd_CompletedAt := CompletedAt job |}.

(** [limits] answers a plan's job size; [newID] is the job's new UUID. *)
Definition CreateJob (newID : string) (limits : string → res Z) (h : gmap string string) (r : HttpRequest) (w : JobWorld)
    : answer jobDTO * JobWorld :=
  match hq_Identity r with
  | None => (fail h r no_identity, w)
  | Some caller =>
      match decode (str_take maxJobBody (hq_Body r)) with
      | None => (fail h r (NewError CodeInvalidRequest "body must match JobCreateRequest"), w)
      | Some body =>
          match limits (id_PlanID caller) with
          | Err err => (fail h r (internal err), w)
          | Ok maxJobChars =>
              match Service_Create sha256 check_webhook newID (job_request caller r body) maxJobChars w with
              | (Err err, w) => (fail h r (mapJobError err), w)
              | (Ok created, w) => (AJson 202 (toJobDTO (created_Job created)), w)
              end
          end
      end
  end.

Definition jobRequestContext (h : gmap string string) (r : HttpRequest) (param : string)
    : (Identity * string) + Response :=
  match hq_Identity r with
  | None => inr (problem h r no_identity)
  | Some caller =>
      match parse_uuid param with
      | None => inr (problem h r (NewError CodeJobNotFound "no such job"))
      | Some jobID => inl (caller, jobID)
      end
  end.

Definition GetJob (h : gmap string string) (r : HttpRequest) (param : string) (w : JobWorld)
    : answer jobDTO * JobWorld :=
  match jobRequestContext h r param with
  | inr resp => (AProblem resp, w)
  | inl (caller, jobID) =>
      match Service_Get (id_TenantID caller) jobID w with
      | (Err err, w) => (fail h r (mapJobError err), w)
      | (Ok job, w) => (AJson 200 (toJobDTO job), w)
      end
  end.

Definition CancelJob (h : gmap string string) (r : HttpRequest) (param : string) (w : JobWorld)
    : answer jobDTO * JobWorld :=
  match jobRequestContext h r param with
  | inr resp => (AProblem resp, w)
  | inl (caller, jobID) =>
      match Service_Cancel (id_TenantID caller) jobID w with
      | (Err err, w) => (fail h r (mapJobError err), w)
      | (Ok job, w) => (AJson 200 (toJobDTO job), w)
      end
  end.

(** The page asked for: the cursor and the limit, or what is wrong with them. *)
Definition page_of (query : string → string) : (option Z * Z) + Error :=
  let before := query "before" in
  let limit := query "limit" in
  match (if String.eqb before "" then Some None else Some <$> ParseRFC3339 before) with
  | None => inr (NewError CodeInvalidRequest "before must be an RFC 3339 timestamp")
  | Some cursor =>
      match (if String.eqb limit "" then Some 0
             else match ParseInt limit 32 with
                  | Some n => if n <? 1 then None else Some n
                  | None => None
                  end) with
      | None => inr (NewError CodeInvalidRequest "limit must be a positive integer")
      | Some n => inl (cursor, n)
      end
  end.

Definition ListJobs (h : gmap string string) (r : HttpRequest) (query : string → string) (w : JobWorld)
    : answer (list jobDTO) * JobWorld :=
  match hq_Identity r with
  | None => (fail h r no_identity, w)
  | Some caller =>
      match page_of query with
      | inr e => (fail h r e, w)
      | inl (before, limit) =>
          match Service_List (id_TenantID caller) before limit w with
          | (Err err, w) => (fail h r (mapJobError err), w)
          | (Ok found, w) => (AJson 200 (toJobDTO <$> found), w)
          end
      end
  end.
End jobs.

(** ** [keys.go] *)

Definition maxKeyBody : nat := Z.to_nat (2 ^ 13).

Record keyRecordDTO : Type := {
  kd_ID : string; kd_Name : string; kd_Prefix : string; kd_Scopes : list string; kd_CreatedAt : Z;
  kd_LastUsedAt : option Z; kd_RevokedAt : option Z; kd_Secret : string;
}.

Definition toKeyDTO (record : KeyRecord) : keyRecordDTO := {|
  kd_ID := k_ID record; kd_Name := k_Name record; kd_Prefix := k_Prefix record; kd_Scopes := k_Scopes record;
  kd_CreatedAt := k_CreatedAt record; kd_LastUsedAt := k_LastUsedAt record; kd_RevokedAt := k_RevokedAt record;
  kd_Secret := "" |}.

Definition with_secret (d : keyRecordDTO) (secret : string) : keyRecordDTO := {|
  kd_ID := kd_ID d; kd_Name := kd_Name d; kd_Prefix := kd_Prefix d; kd_Scopes := kd_Scopes d;
  kd_CreatedAt := kd_CreatedAt d; kd_LastUsedAt := kd_LastUsedAt d; kd_RevokedAt := kd_RevokedAt d;
  kd_Secret := secret |}.

Section keys.
Variables (Hash : string → string) (decode : string → option (string * list string))
  (parse_uuid : string → option string).

Definition CreateKey (newID : string) (raw : res string) (h : gmap string string) (r : HttpRequest)
    (w : AccountWorld) : answer keyRecordDTO * AccountWorld :=
  match hq_Identity r with
  | None => (fail h r no_identity, w)
  | Some caller =>
      match decode (str_take maxKeyBody (hq_Body r)) with
      | None => (fail h r (NewError CodeInvalidRequest "body must be {name, scopes}"), w)
      | Some (name, scopes) =>
          match Keys_Create Hash newID raw caller name scopes w with
          | (Err err, w) => (fail h r (mapKeyError err), w)
          | (Ok (record, secret), w) => (AJson 201 (with_secret (toKeyDTO record) secret), w)
          end
      end
  end.

Definition ListKeys (h : gmap string string) (r : HttpRequest) (query : string → string) (w : AccountWorld)
    : answer (list keyRecordDTO) * AccountWorld :=
  match hq_Identity r with
  | None => (fail h r no_identity, w)
  | Some caller =>
      match Keys_List (id_TenantID caller) (String.eqb (query "include_revoked") "true") w with
      | (Err err, w) => (fail h r (mapKeyError err), w)
      | (Ok records, w) => (AJson 200 (toKeyDTO <$> records), w)
      end
  end.

Definition RevokeKey (h : gmap string string) (r : HttpRequest) (param : string) (w : AccountWorld)
    : answer keyRecordDTO * AccountWorld :=
  match hq_Identity r with
  | None => (fail h r no_identity, w)
  | Some caller =>
      match parse_uuid param with
      | None => (fail h r (NewError CodeJobNotFound "no such key"), w)
      | Some keyID =>
          match Keys_Revoke caller keyID w with
          | (Err err, w) => (fail h r (mapKeyError err), w)
          | (Ok _, w) => (AEmpty 204, w)
          end
      end
  end.
End keys.

(** ** [voices.go] *)

Record voiceDTO : Type := {
  vd_ID : string; vd_DisplayName : string; vd_Gender : string; vd_Tags : list string;
  vd_ModelVersion : string; vd_PreviewURL : string;
}.

Definition toVoiceDTO (v : Voice) : voiceDTO := {|
  vd_ID := v_ID v; vd_DisplayName := DisplayName v; vd_Gender := Gender v; vd_Tags := Tags v;
  vd_ModelVersion := v_ModelVersion v; vd_PreviewURL := PreviewURL v |}.

(** The service is its own state; [now] is its clock. *)
Definition ListVoices (s : Catalogue) (now : Z) (h : gmap string string) (r : HttpRequest) (w : VoiceWorld)
    : answer (list voiceDTO) * Catalogue * VoiceWorld :=
  match Voices.List_ s now (id_TenantID <$> hq_Identity r) w with
  | (Err err, w) => (fail h r (internal err), s, w)
  | (Ok (found, s), w) => (AJson 200 (toVoiceDTO <$> found), s, w)
  end.

(** ** [usage.go] *)

Definition defaultUsageWindow : Z := 30 * 24 * Hour.

(** [attachment; filename="usage.csv"]. *)
Definition csv_disposition : string := "attachment; filename=" +:+ quoted "usage.csv".

(** A date of the query, or its default. *)
Definition query_date (raw : string) (otherwise : Z) : option Z :=
  if String.eqb raw "" then Some otherwise else ParseDateOnly raw.

Definition report_problem (e : report_error) : Error :=
  match e with
  | InvalidRange _ => NewError CodeInvalidRequest (report_error_String e)
  | ReadUsage err => internal (wrapf "read usage: " err)
  end.

(** [limits] answers a plan's monthly allowance. *)
Definition GetUsage (limits : string → res Z) (now : Z) (h : gmap string string) (r : HttpRequest)
    (query : string → string) (w : UsageWorld) : answer Report * UsageWorld :=
  match hq_Identity r with
  | None => (fail h r no_identity, w)
  | Some caller =>
      match query_date (query "from") (now - defaultUsageWindow) with
      | None => (fail h r (NewError CodeInvalidRequest "from must be YYYY-MM-DD"), w)
      | Some from =>
          match query_date (query "to") now with
          | None => (fail h r (NewError CodeInvalidRequest "to must be YYYY-MM-DD"), w)
          | Some to =>
              match limits (id_PlanID caller) with
              | Err err => (fail h r (internal err), w)
              | Ok planLimit =>
                  match Build (id_TenantID caller) from to planLimit w with
                  | (inr e, w) => (fail h r (report_problem e), w)
                  | (inl report, w) =>
                      (if String.eqb (query "format") "csv" then AText "text/csv; charset=utf-8" csv_disposition (WriteCSV report)
                       else AJson 200 report, w)
                  end
              end
          end
      end
  end.

(** ** [admin_handlers.go] *)

Definition maxAdminBody : nat := Z.to_nat (2 ^ 14).
Definition adminActor : string := "admin".

Record createTenantResponse : Type := {
  ct_Tenant : Tenant; ct_KeyID : string; ct_Prefix : string; ct_Scopes : list string; ct_Secret : string;
}.

Definition createTenant (Hash : string → string) (decode : string → option (string * string))
    (tenantID keyID : string) (raw : res string) (h : gmap string string) (r : HttpRequest) (w : AccountWorld)
    : answer createTenantResponse * AccountWorld :=
  match decode (str_take maxAdminBody (hq_Body r)) with
  | None => (fail h r (NewError CodeInvalidRequest "body must be a JSON object"), w)
  | Some (name, planID) =>
      match Tenant_Create Hash tenantID keyID raw name planID adminActor w with
      | (Err err, w) => (fail h r (mapTenantError err), w)
      | (Ok (tenant, key, secret), w) =>
          (AJson 201 {| ct_Tenant := tenant; ct_KeyID := k_ID key; ct_Prefix := k_Prefix key;
                        ct_Scopes := k_Scopes key; ct_Secret := secret |}, w)
      end
  end.

(** ** What the job endpoints disclose *)

(** A job of [t] in the table, as the endpoints show it. *)
Definition shows (sign_url : string → Z → res string) (t : string) (w : JobWorld) (d : jobDTO) : Prop :=
  ∃ k j, jw_jobs w !! k = Some j ∧ TenantID j = t ∧ d = toJobDTO sign_url j.

(** A path parameter that names no job of [t]. *)
Definition names_nothing (parse_uuid : string → option string) (t param : string) (w : JobWorld) : Prop :=
  ∀ id j, parse_uuid param = Some id → jw_jobs w !! id = Some j → TenantID j ≠ t.

Lemma shown_metadata sign_url j : jd_Metadata (toJobDTO sign_url j) !! fingerprintKey = None.
Proof. apply map_lookup_filter_None_2. right. intros x _ Hne. by apply Hne. Qed.

Lemma Get_shows t id w j w' : Service_Get t id w = (Ok j, w') → jw_jobs w' !! id = Some j ∧ TenantID j = t.
Proof.
  unfold Service_Get, Get, one_row, port. cbn.
  destruct (jw_faults w) as [|[] fs]; cbn; try done;
    destruct (jw_jobs w !! id) as [j'|] eqn:Hj; cbn; try done;
    destruct (String.eqb_spec (TenantID j') t); cbn; try done; by intros [= <- <-].
Qed.

Lemma Get_hidden t id w :
  jw_faults w = [] → (∀ j, jw_jobs w !! id = Some j → TenantID j ≠ t) →
  Service_Get t id w = (Err (ESentinel ErrNotFound), w).
Proof.
  intros Hf Hn. unfold Service_Get, Get, one_row. rewrite port_answered by done.
  destruct (jw_jobs w !! id) as [j|] eqn:Hj; [|done].
  destruct (String.eqb_spec (TenantID j) t) as [Ht|]; [by destruct (Hn j eq_refl)|done].
Qed.

Lemma Cancel_hidden t id w :
  jw_faults w = [] → (∀ j, jw_jobs w !! id = Some j → TenantID j ≠ t) →
  Service_Cancel t id w = (Err (ESentinel ErrNotFound), w).
Proof.
  intros Hf Hn. unfold Service_Cancel, Cancel, affected, update_where, sbind, swrap.
  rewrite port_answered by done.
  pose proof (Get_hidden t id w Hf Hn) as HG. unfold Service_Get in HG.
  destruct (jw_jobs w !! id) as [j|] eqn:Hj; cbn; [|done].
  destruct (String.eqb_spec (TenantID j) t) as [Ht|]; [by destruct (Hn j eq_refl)|done].
Qed.

Lemma List_shows t before limit w l w' :
  Service_List t before limit w = (Ok l, w') →
  ∀ j, j ∈ l → ∃ k, jw_jobs w' !! k = Some j ∧ TenantID j = t.
Proof.
  intros H. assert (jw_jobs w' = jw_jobs w ∧ ∀ j, j ∈ l →
    j ∈ order_by (λ a b, CreatedAt b <? CreatedAt a)
              (List.filter (λ j, String.eqb (TenantID j) t &&
                                 match before with Some b => CreatedAt j <? b | None => true end)
                 (snd <$> map_to_list (jw_jobs w)))) as [Hw Hl].
  { revert H. unfold Service_List, JobStore.List_, swrap, port. cbn.
    destruct (jw_faults w) as [|[] fs]; cbn; try done; intros [= <- <-]; (split; [done|]);
      intros j Hj; eapply elem_of_submseteq; try done; apply sublist_submseteq, sublist_take. }
  intros j Hj. apply Hl in Hj. rewrite order_by_elem, list_elem_of_In, List.filter_In, <-list_elem_of_In in Hj.
  destruct Hj as [Hj Hb]. zbool. apply list_elem_of_fmap in Hj as ([k x] & -> & Hk). rewrite Hw.
  apply elem_of_map_to_list in Hk. exists k. split; [done|]. by apply String.eqb_eq.
Qed.

(** C18. The job endpoints keep tenants apart. Whatever calls fail, a job that
    [GetJob], [CancelJob] or [ListJobs] shows is a row of the caller's tenant,
    and what is shown of its metadata leaves the submission's fingerprint out.
    And an identifier that is malformed, that names no job, or that names
    another tenant's job are not told apart: each is answered by the same
    404 problem, to a read and to a cancel, and nothing changes. *)
Theorem jobs_not_disclosed sign_url parse_uuid h r query param caller w :
  hq_Identity r = Some caller →
  let t := id_TenantID caller in
  let got := GetJob sign_url parse_uuid h r param w in
  let cancelled := CancelJob sign_url parse_uuid h r param w in
  let listed := ListJobs sign_url h r query w in
  (∀ s d, got.1 = AJson s d → s = 200 ∧ shows sign_url t got.2 d ∧ jd_Metadata d !! fingerprintKey = None) ∧
  (∀ s d, cancelled.1 = AJson s d →
     s = 200 ∧ shows sign_url t cancelled.2 d ∧ jd_Metadata d !! fingerprintKey = None) ∧
  (∀ s ds, listed.1 = AJson s ds →
     s = 200 ∧ ∀ d, d ∈ ds → shows sign_url t listed.2 d ∧ jd_Metadata d !! fingerprintKey = None) ∧
  (jw_faults w = [] → names_nothing parse_uuid t param w →
     let hidden := (AProblem (problem h r (NewError CodeJobNotFound "no such job")), w) in
     got = hidden ∧ cancelled = hidden).
Proof.
  intros Hr t got cancelled listed. subst got cancelled listed.
  unfold GetJob, CancelJob, ListJobs, jobRequestContext. rewrite Hr. split_and!.
  - intros s d. destruct (parse_uuid param) as [id|]; [|done].
    destruct (Service_Get _ id w) as [[j|e] w'] eqn:E; [|done]. intros [= <- <-].
    apply Get_shows in E as []. split_and!; [done|by exists id, j|apply shown_metadata].
  - intros s d. destruct (parse_uuid param) as [id|]; [|done].
    destruct (Service_Cancel _ id w) as [[j|e] w'] eqn:E; [|done]. intros [= <- <-].
    unfold Service_Cancel, sbind in E. destruct (swrap _ _ w) as [[b|e] w1]; [|done].
    apply Get_shows in E as []. split_and!; [done|by exists id, j|apply shown_metadata].
  - intros s ds. destruct (page_of query) as [[before limit]|e]; [|done].
    destruct (Service_List _ before limit w) as [[l|e] w'] eqn:E; [|done]. intros [= <- <-].
    split; [done|]. intros d Hd. apply list_elem_of_fmap in Hd as (j & -> & Hj).
    destruct (List_shows _ _ _ _ _ _ E j Hj) as (k & ? & ?). split; [by exists k, j|apply shown_metadata].
  - intros Hf Hn. cbv zeta. destruct (parse_uuid param) as [id|] eqn:Hp; [|done].
    rewrite Get_hidden by (eauto || (intros j Hj; by apply (Hn id j))).
    rewrite Cancel_hidden by (eauto || (intros j Hj; by apply (Hn id j))). done.
Qed.

(** ** Witness *)

(** A caller of another tenant than [demo_job]'s. *)
Definition demo_stranger : Identity := {| id_TenantID := "u"; id_KeyID := "k1"; id_PlanID := "free";
  id_Scopes := [ScopeJobs]; id_StoreText := false; id_KeyFingerprint := "" |}.
Definition demo_call : HttpRequest :=
  with_identity demo_stranger (incoming (λ _, ""%string) "/v1/jobs/j" "" "10.0.0.1:1").

Lemma jobs_not_disclosed_witness :
  (GetJob (λ k _, Ok k) Some ∅ demo_call "j" (demo_world [])).1 =
    AProblem (problem ∅ demo_call (NewError CodeJobNotFound "no such job")).
Proof.
  refine (f_equal fst (proj1 (proj2 (proj2 (proj2 (jobs_not_disclosed (λ k _, Ok k) Some ∅ demo_call
    (λ _, ""%string) "j" demo_stranger (demo_world []) eq_refl))) eq_refl _))).
  intros id j [= <-] Hj. change (jw_jobs (demo_world [])) with ({[ "j"%string := demo_job ]} : gmap string Job) in Hj.
  rewrite lookup_singleton_eq in Hj. injection Hj as <-. by apply (bool_decide_unpack _).
Defined.
