(* ===== verification/Config.v ===== *)
(** * Configuration

    [internal/config]: the environment read and validated once at boot. The
    standard library's URL, prefix and address parsers are parameters. *)

From stdpp Require Import base gmap strings pretty numbers list.
From S2P Require Import Prelude GoString Webhook Http.

(** ** Data *)

Definition EnvDev : string := "dev".
Definition EnvProd : string := "prod".

Record S3Config : Type := {
  Endpoint : string; PublicEndpoint : string; Region : string; Bucket : string; AccessKey : string;
  SecretKey : string;
}.

Record Config : Type := {
  cf_Env : string; HTTPAddr : string; LogLevel : string; OTLPEndpoint : string; DatabaseURL : string;
  DatabaseMaxConns : Z; AdminKey : string; WebhookSecret : string; AdminAllowlist : list Prefix;
  WorkerAddrs : list string; RedisURL : string; ConsoleOrigins : list string; RedisPoolSize : Z;
  S3 : S3Config; ShutdownTimeout : Z;
}.

(** [*config.Error]: the variable to mend, and why. *)
Record Error : Type := { Variable_ : string; Reason : string }.

Definition defaultHTTPAddr : string := ":8080".
Definition defaultLogLevel : string := "info".
Definition defaultShutdownTimeout : Z := 20 * Second.
Definition defaultDatabaseMaxConns : Z := 20.
Definition defaultRedisPoolSize : Z := 32.
Definition minAdminKeyLen : Z := 32.
Definition minWebhookSecretLen : Z := 32.
Definition validLogLevels : list string := ["trace"; "debug"; "info"; "warn"; "error"].

(** A parsed URL, as far as the origins are looked at. *)
Record ParsedURL : Type := { pu_Scheme : string; pu_Host : string; pu_Path : string; pu_RawQuery : string }.

(** One rune of [strings.ToLower], exact where the result is ASCII: besides A to
    Z, the dotted capital I and the Kelvin sign. *)
Definition lower_rune (c : chunk) : string :=
  if in_range 65 90 c.1 then String (byte_of (c.1 + 32)) ""
  else if c.1 =? 0x130 then "i" else if c.1 =? 0x212A then "k" else c.2.

Definition ToLower (s : string) : string := foldr (λ c acc, lower_rune c +:+ acc) "" (runes s).

(** ** [config.go] *)

(** [len(l) == 0]. *)
Definition none {A} (l : list A) : bool := match l with [] => true | _ => false end.

Definition comma : ascii := byte_of 44.

Definition splitList (raw : string) : list string :=
  if String.eqb raw "" then []
  else List.filter (λ entry, negb (String.eqb entry "")) (TrimSpace <$> Split raw comma).

(** [PrefixFrom(addr, addr.BitLen())]: the address alone. *)
Definition host_prefix (a : Addr) : Prefix :=
  match a with NoAddr => P4 0 (-1) | V4 z => P4 z 32 | V6 z _ => P6 z 128 end.

Section config.
Variables (url_Parse : string → option ParsedURL) (ParsePrefix : string → option Prefix)
  (ParseAddr : string → option Addr).

Definition value (lookup : string → option string) (name fallback : string) : string :=
  match lookup name with
  | Some raw => if String.eqb (TrimSpace raw) "" then fallback else TrimSpace raw
  | None => fallback
  end.

Fixpoint parse_entries (parts : list string) : sum string (list Prefix) :=
  match parts with
  | [] => inr []
  | part :: rest =>
      let entry := TrimSpace part in
      if String.eqb entry "" then parse_entries rest
      else
        match (match ParsePrefix entry with
               | Some p => inr p
               | None => match ParseAddr entry with
                         | Some a => inr (host_prefix a)
                         | None => inl (quoted entry +:+ " is not a CIDR or an IP address")
                         end
               end) with
        | inl e => inl e
        | inr p => match parse_entries rest with inl e => inl e | inr l => inr (p :: l) end
        end
  end.

Definition parsePrefixes (raw : string) : sum string (list Prefix) :=
  if String.eqb raw "" then inr [] else parse_entries (Split raw comma).

(** A scheme and a host, nothing after. *)
Definition bare_origin (origin : string) : bool :=
  match url_Parse origin with
  | None => false
  | Some p => negb (String.eqb (pu_Scheme p) "" || String.eqb (pu_Host p) "" ||
                    negb (String.eqb (pu_Path p) "") || negb (String.eqb (pu_RawQuery p) ""))
  end.

Definition parses (s : string) : bool := match url_Parse s with Some _ => true | None => false end.

Definition Load (lookup : string → option string) : sum Error Config :=
  let v := value lookup in
  let fail var reason := inl {| Variable_ := var; Reason := reason |} in
  match parsePrefixes (v "VITTS_ADMIN_IP_ALLOWLIST" "") with
  | inl reason => fail "VITTS_ADMIN_IP_ALLOWLIST" reason
  | inr allowlist =>
      let cfg := {|
        cf_Env := v "VITTS_ENV" EnvDev; HTTPAddr := v "VITTS_HTTP_ADDR" defaultHTTPAddr;
        LogLevel := ToLower (v "VITTS_LOG_LEVEL" defaultLogLevel);
        OTLPEndpoint := v "OTEL_EXPORTER_OTLP_ENDPOINT" ""; DatabaseURL := v "VITTS_DATABASE_URL" "";
        DatabaseMaxConns := defaultDatabaseMaxConns; AdminKey := v "VITTS_ADMIN_KEY" "";
        WebhookSecret := v "VITTS_WEBHOOK_SIGNING_SECRET" ""; AdminAllowlist := allowlist;
        WorkerAddrs := splitList (v "VITTS_WORKER_ADDRS" ""); RedisURL := v "VITTS_REDIS_URL" "";
        ConsoleOrigins := splitList (v "VITTS_CONSOLE_ORIGIN" ""); RedisPoolSize := defaultRedisPoolSize;
        S3 := {| Endpoint := v "VITTS_S3_ENDPOINT" ""; PublicEndpoint := v "VITTS_S3_PUBLIC_ENDPOINT" "";
                 Region := v "VITTS_S3_REGION" "us-east-1"; Bucket := v "VITTS_S3_BUCKET" "";
                 AccessKey := v "VITTS_S3_ACCESS_KEY" ""; SecretKey := v "VITTS_S3_SECRET_KEY" "" |};
        ShutdownTimeout := defaultShutdownTimeout |} in
      if negb (String.eqb (cf_Env cfg) EnvDev) && negb (String.eqb (cf_Env cfg) EnvProd)
      then fail "VITTS_ENV" ("must be " +:+ quoted "dev" +:+ " or " +:+ quoted "prod")
      else if String.eqb (HTTPAddr cfg) "" then fail "VITTS_HTTP_ADDR" "must not be empty"
      else if negb (existsb (String.eqb (LogLevel cfg)) validLogLevels)
      then fail "VITTS_LOG_LEVEL" "must be one of trace, debug, info, warn, error"
      else if String.eqb (DatabaseURL cfg) ""
      then fail "VITTS_DATABASE_URL" "is required; the gateway does not run without its system of record"
      else if negb (parses (DatabaseURL cfg)) then fail "VITTS_DATABASE_URL" "must be a URL"
      else if go_len (AdminKey cfg) <? minAdminKeyLen
      then fail "VITTS_ADMIN_KEY" ("must be at least " +:+ Itoa minAdminKeyLen +:+ " characters")
      else if none (AdminAllowlist cfg)
      then fail "VITTS_ADMIN_IP_ALLOWLIST" "must list at least one CIDR; admin endpoints are never open"
      else if go_len (WebhookSecret cfg) <? minWebhookSecretLen
      then fail "VITTS_WEBHOOK_SIGNING_SECRET" ("must be at least " +:+ Itoa minWebhookSecretLen +:+ " characters")
      else if String.eqb (RedisURL cfg) ""
      then fail "VITTS_REDIS_URL" "is required; rate limits and quota are enforced from Redis"
      else if String.eqb (Bucket (S3 cfg)) ""
      then fail "VITTS_S3_BUCKET" "is required; synthesized audio is cached in object storage"
      else if none (WorkerAddrs cfg)
      then fail "VITTS_WORKER_ADDRS" "must list at least one worker address"
      else
        match List.find (λ origin, negb (bare_origin origin)) (ConsoleOrigins cfg) with
        | Some origin =>
            fail "VITTS_CONSOLE_ORIGIN" (quoted origin +:+ " must be a bare origin such as https://console.example.com")
        | None =>
            if negb (String.eqb (OTLPEndpoint cfg) "") && negb (parses (OTLPEndpoint cfg))
            then fail "OTEL_EXPORTER_OTLP_ENDPOINT" "must be a URL"
            else inr cfg
        end
  end.
End config.

(** ** What a loaded configuration is *)

Section spec.
Variables (url_Parse : string → option ParsedURL) (ParsePrefix : string → option Prefix)
  (ParseAddr : string → option Addr).
Local Abbreviation Load := (Load url_Parse ParsePrefix ParseAddr).
Local Abbreviation parses := (parses url_Parse).

(** Everything the rest of the process takes for granted of it. *)
Record well_formed (cfg : Config) : Prop := {
  wf_env : cf_Env cfg ∈ [EnvDev; EnvProd];
  wf_addr : HTTPAddr cfg ≠ "";
  wf_level : LogLevel cfg ∈ validLogLevels;
  wf_db : DatabaseURL cfg ≠ "" ∧ parses (DatabaseURL cfg) = true;
  wf_admin : minAdminKeyLen ≤ go_len (AdminKey cfg) ∧ AdminAllowlist cfg ≠ [];
  wf_secret : minWebhookSecretLen ≤ go_len (WebhookSecret cfg);
  wf_redis : RedisURL cfg ≠ "";
  wf_bucket : Bucket (S3 cfg) ≠ "";
  wf_workers : WorkerAddrs cfg ≠ [] ∧ Forall (λ w, w ≠ "") (WorkerAddrs cfg);
  wf_origins : Forall (λ o, bare_origin url_Parse o = true) (ConsoleOrigins cfg);
  wf_otlp : OTLPEndpoint cfg = "" ∨ parses (OTLPEndpoint cfg) = true;
  wf_bounds : 0 < DatabaseMaxConns cfg ∧ 0 < RedisPoolSize cfg ∧ 0 < ShutdownTimeout cfg;
}.

(** The variables a boot can fail on, and what each must hold, on its own. *)
Definition variables : list string :=
  ["VITTS_ADMIN_IP_ALLOWLIST"; "VITTS_ENV"; "VITTS_LOG_LEVEL"; "VITTS_DATABASE_URL"; "VITTS_ADMIN_KEY";
   "VITTS_WEBHOOK_SIGNING_SECRET"; "VITTS_REDIS_URL"; "VITTS_S3_BUCKET"; "VITTS_WORKER_ADDRS";
   "VITTS_CONSOLE_ORIGIN"; "OTEL_EXPORTER_OTLP_ENDPOINT"].

Definition acceptable (lookup : string → option string) (var : string) : bool :=
  let v := value lookup var in
  let present := negb (String.eqb (v "") "") in
  let named := String.eqb var in
  if named "VITTS_ADMIN_IP_ALLOWLIST" then
    match parsePrefixes ParsePrefix ParseAddr (v "") with inr (_ :: _) => true | _ => false end
  else if named "VITTS_ENV" then String.eqb (v EnvDev) EnvDev || String.eqb (v EnvDev) EnvProd
  else if named "VITTS_LOG_LEVEL" then existsb (String.eqb (ToLower (v defaultLogLevel))) validLogLevels
  else if named "VITTS_DATABASE_URL" then present && parses (v "")
  else if named "VITTS_ADMIN_KEY" then minAdminKeyLen <=? go_len (v "")
  else if named "VITTS_WEBHOOK_SIGNING_SECRET" then minWebhookSecretLen <=? go_len (v "")
  else if named "VITTS_WORKER_ADDRS" then match splitList (v "") with [] => false | _ => true end
  else if named "VITTS_CONSOLE_ORIGIN" then forallb (bare_origin url_Parse) (splitList (v ""))
  else if named "OTEL_EXPORTER_OTLP_ENDPOINT" then negb present || parses (v "")
  else present.

(** ** Lemmas *)

Lemma value_nonempty lookup var d : d ≠ "" → value lookup var d ≠ "".
Proof.
  intros Hd. unfold value. destruct (lookup var) as [raw|]; [|done].
  by destruct (String.eqb_spec (TrimSpace raw) "").
Qed.

Lemma acceptable_local lookup lookup' var :
  lookup' var = lookup var → acceptable lookup' var = acceptable lookup var.
Proof. intros H. unfold acceptable, value. by rewrite H. Qed.

Lemma splitList_nonempty raw : Forall (λ w, w ≠ "") (splitList raw).
Proof.
  unfold splitList. destruct (String.eqb raw ""); [constructor|]. apply Forall_forall. intros w Hw.
  apply list_elem_of_In, List.filter_In in Hw as [_ Hw]. intros ->. done.
Qed.

Lemma find_none_forallb {A} (P : A → bool) l :
  match List.find (λ x, negb (P x)) l with None => forallb P l = true | Some _ => forallb P l = false end.
Proof. induction l as [|x l IH]; cbn; [done|]. by destruct (P x). Qed.

(** A branch of [Load] that refuses a variable of the list. *)
Ltac refuses := split; [by apply (bool_decide_unpack _)|unfold acceptable; cbn].

(** The verdict, variable by variable. *)
Lemma Load_verdict lookup :
  match Load lookup with
  | inr cfg => well_formed cfg ∧ Forall (λ var, acceptable lookup var = true) variables
  | inl e => Variable_ e ∈ variables ∧ acceptable lookup (Variable_ e) = false
  end.
Proof.
  unfold Config.Load. cbv zeta.
  destruct (parsePrefixes ParsePrefix ParseAddr _) as [reason|allowlist] eqn:Hp.
  { refuses. by rewrite Hp. }
  cbn [cf_Env HTTPAddr LogLevel OTLPEndpoint DatabaseURL AdminKey WebhookSecret AdminAllowlist WorkerAddrs RedisURL
       ConsoleOrigins S3 Bucket].
  destruct (negb _ && negb _) eqn:Henv; [refuses; by zbool; apply orb_false_iff|].
  destruct (String.eqb_spec (value lookup "VITTS_HTTP_ADDR" defaultHTTPAddr) "") as [Haddr|Haddr];
    [by apply value_nonempty in Haddr|].
  destruct (existsb _ validLogLevels) eqn:Hlevel; cbn [negb]; [|refuses; exact Hlevel].
  destruct (String.eqb (value lookup "VITTS_DATABASE_URL" "") "") eqn:Hdb; [refuses; by rewrite Hdb|].
  destruct (parses (value lookup "VITTS_DATABASE_URL" "")) eqn:Hdb2; cbn [negb]; [|refuses; rewrite Hdb; exact Hdb2].
  destruct (Z.ltb_spec (go_len (value lookup "VITTS_ADMIN_KEY" "")) minAdminKeyLen) as [Hkey|Hkey];
    [refuses; by apply Z.leb_gt|].
  destruct allowlist as [|pre allowlist]; cbn [none]; [refuses; by rewrite Hp|].
  destruct (Z.ltb_spec (go_len (value lookup "VITTS_WEBHOOK_SIGNING_SECRET" "")) minWebhookSecretLen) as [Hsec|Hsec];
    [refuses; by apply Z.leb_gt|].
  destruct (String.eqb (value lookup "VITTS_REDIS_URL" "") "") eqn:Hredis; [refuses; by rewrite Hredis|].
  destruct (String.eqb (value lookup "VITTS_S3_BUCKET" "") "") eqn:Hbucket; [refuses; by rewrite Hbucket|].
  destruct (splitList (value lookup "VITTS_WORKER_ADDRS" "")) as [|wk wks] eqn:Hworkers; cbn [none];
    [refuses; by rewrite Hworkers|].
  pose proof (find_none_forallb (bare_origin url_Parse) (splitList (value lookup "VITTS_CONSOLE_ORIGIN" ""))) as Horigins.
  destruct (List.find _ _) as [origin|]; [refuses; exact Horigins|].
  apply andb_false_iff in Henv. rewrite !negb_false_iff in Henv.
  set (cfg := {| cf_Env := _ |}).
  assert (negb (String.eqb (value lookup "OTEL_EXPORTER_OTLP_ENDPOINT" "") "") &&
          negb (parses (value lookup "OTEL_EXPORTER_OTLP_ENDPOINT" "")) = false →
          well_formed cfg ∧ Forall (λ var, acceptable lookup var = true) variables) as Hdone.
  { intros Hotlp. apply andb_false_iff in Hotlp. rewrite !negb_false_iff, ?negb_true_iff in Hotlp.
    apply String.eqb_neq in Hdb as Hdb', Hredis as Hredis', Hbucket as Hbucket'. split.
    - split; cbn; try done.
      + rewrite !String.eqb_eq in Henv. set_solver.
      + apply List.existsb_exists in Hlevel as (l & Hin & ->%String.eqb_eq). by apply list_elem_of_In.
      + split; [done|]. rewrite <- Hworkers. apply splitList_nonempty.
      + apply Forall_forall. intros o Ho%list_elem_of_In. by eapply forallb_forall in Horigins.
      + by rewrite String.eqb_eq in Hotlp.
    - repeat constructor; unfold acceptable; cbn.
      + by rewrite Hp.
      + by apply orb_true_iff.
      + done.
      + by rewrite Hdb, Hdb2.
      + by apply Z.leb_le.
      + by apply Z.leb_le.
      + by rewrite Hredis.
      + by rewrite Hbucket.
      + by rewrite Hworkers.
      + done.
      + by apply orb_true_iff; rewrite negb_true_iff, negb_false_iff. }
  destruct (negb (String.eqb (value lookup "OTEL_EXPORTER_OTLP_ENDPOINT" "") "") && _) eqn:Hotlp; cbv iota.
  - refuses. apply andb_true_iff in Hotlp as [H1 H2]. rewrite H1. cbn. by apply negb_true_iff.
  - by apply Hdone.
Qed.

(** ** Properties *)

End spec.
