(* ===== verification/Server.v ===== *)
(** * The server around the endpoints

    [cmd/gateway/main.go] (the boot and shutdown order, the route table, the
    schema gate, the probe's address), [migrations/embed.go], and the edge every
    request passes: the status recorder, [Logger] and [Recover]
    ([http/middleware.go]), [Observe] ([http/metrics.go]), [Readyz]
    ([http/health.go]) and [CORS] ([http/cors.go]). chi's matching, the URL
    printer and what the adapters answer at boot are parameters. *)

From Stdlib Require Import Ascii OrdersEx.
From stdpp Require Import base gmap strings pretty numbers sorting list.
From S2P Require Import Prelude GoString Account Voices Problem Http Config.

(** ** [middleware.go]: the writer and its recorders *)

(** [net/http]'s writer: the status line, once sent, and the body. The
    informational statuses, which the gateway never sends, are left out. *)
Record writer : Type := { w_status : option Z; w_body : string; w_hijacked : bool }.

Definition net_WriteHeader (status : Z) (w : writer) : writer :=
  if w_hijacked w then w
  else match w_status w with
       | Some _ => w
       | None => {| w_status := Some status; w_body := w_body w; w_hijacked := false |}
       end.

Definition net_Write (b : string) (w : writer) : writer :=
  if w_hijacked w then w
  else let w := net_WriteHeader 200 w in
       {| w_status := w_status w; w_body := w_body w +:+ b; w_hijacked := false |}.

Definition net_Hijack (w : writer) : writer :=
  {| w_status := w_status w; w_body := w_body w; w_hijacked := true |}.

Record statusRecorder : Type := { rec_status : Z; rec_written : bool }.

Definition new_recorder : statusRecorder := {| rec_status := 200; rec_written := false |}.

(** The three methods, through the recorders a request is wrapped in, the
    innermost first. *)
Fixpoint rec_WriteHeader (rs : list statusRecorder) (status : Z) (w : writer) : list statusRecorder * writer :=
  match rs with
  | [] => ([], net_WriteHeader status w)
  | s :: rest =>
      if rec_written s then (rs, w)
      else let '(rest, w) := rec_WriteHeader rest status w in
           ({| rec_status := status; rec_written := true |} :: rest, w)
  end.

Fixpoint rec_Write (rs : list statusRecorder) (b : string) (w : writer) : list statusRecorder * writer :=
  match rs with
  | [] => ([], net_Write b w)
  | s :: rest =>
      let '(rest, w) := rec_Write rest b w in
      ({| rec_status := rec_status s; rec_written := true |} :: rest, w)
  end.

Fixpoint rec_Hijack (rs : list statusRecorder) (w : writer) : list statusRecorder * writer :=
  match rs with
  | [] => ([], net_Hijack w)
  | s :: rest =>
      let '(rest, w) := rec_Hijack rest w in
      ({| rec_status := rec_status s; rec_written := true |} :: rest, w)
  end.

(** What is observed about a request: its handler runs, the gauge of requests in
    flight moves, a request is counted, an access line is written. *)
Inductive record : Type :=
  | Serving
  | InFlight (delta : Z)
  | Counted (route method class : string)
  | AccessLine (status : Z).

Record exchange : Type := { recorders : list statusRecorder; conn : writer; records : list record }.

Definition fresh_exchange : exchange :=
  {| recorders := []; conn := {| w_status := None; w_body := ""; w_hijacked := false |}; records := [] |}.

(** What a handler does to the writer. *)
Inductive write : Type := DoHeader (status : Z) | DoWrite (b : string) | DoHijack.

Definition do_write (x : exchange) (o : write) : exchange :=
  let '(rs, w) := match o with
                  | DoHeader status => rec_WriteHeader (recorders x) status (conn x)
                  | DoWrite b => rec_Write (recorders x) b (conn x)
                  | DoHijack => rec_Hijack (recorders x) (conn x)
                  end in
  {| recorders := rs; conn := w; records := records x |}.

Definition note (l : list record) (x : exchange) : exchange :=
  {| recorders := recorders x; conn := conn x; records := records x ++ l |}.

(** A handler, and whether it panics. *)
Definition Serve : Type := exchange → exchange * bool.

Definition serve (writes : list write) (panics : bool) : Serve := λ x,
  (foldl do_write (note [Serving] x) writes, panics).

(** The wrapped handler runs with a recorder of its own; the recorder's status
    comes back. *)
Definition recorded (next : Serve) (x : exchange) : exchange * Z * bool :=
  let '(x, panicked) := next {| recorders := new_recorder :: recorders x; conn := conn x; records := records x |} in
  match recorders x with
  | s :: rest => ({| recorders := rest; conn := conn x; records := records x |}, rec_status s, panicked)
  | [] => (x, 200, panicked)
  end.

Definition Logger (next : Serve) : Serve := λ x,
  let '(x, status, panicked) := recorded next x in
  if panicked then (x, true) else (note [AccessLine status] x, false).

(** [text] is the encoded problem. *)
Definition Recover (text : string) (next : Serve) : Serve := λ x,
  let '(x, panicked) := next x in
  if panicked then (do_write (do_write x (DoHeader 500)) (DoWrite text), false) else (x, false).

(** ** [metrics.go] *)

Definition statusClass (status : Z) : string :=
  if 500 <=? status then "5xx" else if 400 <=? status then "4xx" else if 300 <=? status then "3xx" else "2xx".

(** chi's matched pattern, or nothing. *)
Definition routePattern (pattern : option string) : string :=
  match pattern with Some p => if String.eqb p "" then "unmatched" else p | None => "unmatched" end.

Definition Observe (pattern : option string) (method : string) (next : Serve) : Serve := λ x,
  let '(x, status, panicked) := recorded next x in
  if panicked then (x, true)
  else
    let route := routePattern pattern in
    (note [InFlight 1; Counted route method (statusClass status); InFlight (-1)] x, false).

(** The chain of [Router], inside [RequestID]. *)
Definition edge (text : string) (pattern : option string) (method : string) (h : Serve) : Serve :=
  Logger (Recover text (Observe pattern method h)).

(** The status the client is given: [net/http] sends 200 when nothing was. *)
Definition seen (w : writer) : Z := default 200 (w_status w).

(** The status line a handler's writes send, if any. *)
Definition sent (writes : list write) : option Z :=
  match writes with
  | DoHeader status :: _ => Some status
  | DoWrite _ :: _ => Some 200
  | _ => None
  end.

(** ** [health.go] *)

Record ReadyStatus : Type := { Ready : bool; Checks : gmap string string; Failing : list string }.

(** One check has answered. *)
Definition completed (checks : gmap string (option gerr)) (status : ReadyStatus) (name : string) : ReadyStatus :=
  match checks !! name with
  | Some (Some err) => {| Ready := false; Checks := <[name := "failing"]> (Checks status);
                          Failing := Failing status ++ [name] |}
  | _ => {| Ready := Ready status; Checks := <[name := "ok"]> (Checks status); Failing := Failing status |}
  end.

(** [Evaluate]: [checks] is what each registered check answers, [order] the order
    the answers come in; each is recorded under the mutex. *)
Definition Evaluate (checks : gmap string (option gerr)) (order : list string) : ReadyStatus :=
  let status := foldl (completed checks) {| Ready := true; Checks := ∅; Failing := [] |} order in
  {| Ready := Ready status; Checks := Checks status; Failing := order_by String.ltb (Failing status) |}.

Definition Readyz (checks : gmap string (option gerr)) (order : list string) : Z * ReadyStatus :=
  let status := Evaluate checks order in
  (if Ready status then 200 else 503, status).

(** ** [cors.go] *)

Definition corsMaxAge : Z := 24 * Hour.
Definition corsMethods : list string := ["GET"; "POST"; "DELETE"; "OPTIONS"].
Definition corsHeaders : list string := ["Authorization"; "Content-Type"; "Idempotency-Key"].
Definition corsExposed : list string :=
  ["X-RateLimit-Limit"; "X-RateLimit-Remaining"; "X-RateLimit-Reset"; "Retry-After"].

Definition cors_origins (origins : list string) : list string :=
  List.filter (λ o, negb (String.eqb o "")) (TrimSpace <$> origins).

(** [Header().Add]: several values are one list. *)
Definition header_add (k v : string) (h : gmap string string) : gmap string string :=
  <[k := match h !! k with Some old => old +:+ ", " +:+ v | None => v end]> h.

(** The answer, or the headers the wrapped handler starts from. *)
Definition CORS (origins : list string) (method : string) (header : string → string) (h : gmap string string)
    : Response + gmap string string :=
  let allowed := cors_origins origins in
  let origin := header "Origin" in
  let preflight := String.eqb method "OPTIONS" && negb (String.eqb (header "Access-Control-Request-Method") "") in
  let h := header_add "Vary" "Origin" h in
  if String.eqb origin "" || negb (bool_decide (origin ∈ allowed)) then
    if preflight then inl {| rs_Status := 403; rs_Header := h; rs_Body := NoBody |} else inr h
  else
    let h := <["Access-Control-Expose-Headers" := Join corsExposed ", "]>
               (<["Access-Control-Allow-Origin" := origin]> h) in
    if preflight then
      inl {| rs_Status := 204;
             rs_Header := <["Access-Control-Max-Age" := Itoa (corsMaxAge `div` Second)]>
                          (<["Access-Control-Allow-Headers" := Join corsHeaders ", "]>
                          (<["Access-Control-Allow-Methods" := Join corsMethods ", "]> h));
             rs_Body := NoBody |}
    else inr h.

(** ** [router.go]: routing failures *)

Definition routing_failure (status : Z) (title : string) : Problem.Error := {|
  er_Code := CodeInvalidRequest; er_Status := status; er_Title := title; er_Detail := ""; er_RetryAfter := 0;
  er_Cause := None |}.
Definition not_found : Problem.Error := routing_failure 404 "No such endpoint".
Definition method_not_allowed : Problem.Error := routing_failure 405 "Method not allowed".

(** ** [main.go]: the routes *)

Record api_route : Type := { ar_Method : string; ar_Pattern : string; ar_Route : Route }.

Definition scoped (method pattern scope : string) : api_route :=
  {| ar_Method := method; ar_Pattern := pattern; ar_Route := {| rt_Scope := scope; rt_Public := false |} |}.

(** [Deps.TenantAPI], without the handlers. *)
Definition TenantAPI : list api_route := [
  scoped "POST" "/synthesize" ScopeSynth;
  scoped "POST" "/synthesize/stream" ScopeSynth;
  scoped "GET" "/synthesize/ws" ScopeSynth;
  {| ar_Method := "GET"; ar_Pattern := "/voices"; ar_Route := {| rt_Scope := ""; rt_Public := true |} |};
  scoped "POST" "/jobs" ScopeJobs;
  scoped "GET" "/jobs" ScopeJobs;
  scoped "GET" "/jobs/{jobId}" ScopeJobs;
  scoped "DELETE" "/jobs/{jobId}" ScopeJobs;
  scoped "POST" "/keys" ScopeKeys;
  scoped "GET" "/keys" ScopeKeys;
  scoped "DELETE" "/keys/{keyId}" ScopeKeys;
  scoped "GET" "/usage" ScopeUsage].

(** ** [migrations/embed.go], and the schema gate *)

(** The version a file's name carries. *)
Definition migration_version (name : string) : res Z :=
  match Cut name "_"%char with
  | None => Err (ENew ("migration " +:+ quoted name +:+ " is not named <version>_<name>.sql"))
  | Some (digits, _) =>
      match ParseInt digits 64 with
      | None => Err (ENew ("migration " +:+ quoted name +:+ " has no numeric version"))
      | Some version => Ok version
      end
  end.

Fixpoint latest_of (latest : Z) (names : list string) : res Z :=
  match names with
  | [] => Ok latest
  | name :: rest =>
      match migration_version name with
      | Err e => Err e
      | Ok version => latest_of (if latest <? version then version else latest) rest
      end
  end.

Definition Latest (names : list string) : res Z :=
  match latest_of 0 names with
  | Err e => Err e
  | Ok latest => if latest =? 0 then Err (ENew "no migrations are embedded in this binary") else Ok latest
  end.

(** [select coalesce(max(version_id), 0) from goose_db_version]. *)
Definition SchemaVersion (applied : list Z) : Z :=
  match applied with [] => 0 | v :: rest => foldl Z.max v rest end.

Definition checkSchemaVersion (names : list string) (have : res Z) : res () :=
  match Latest names with
  | Err e => Err e
  | Ok want =>
      match have with
      | Err e => Err (wrapf "read schema version (has the migrations job run?): " e)
      | Ok have =>
          if have <? want then
            Err (ENew ("database is at schema version " +:+ Itoa have +:+ " but this build needs " +:+ Itoa want
                  +:+ ": run the migrations job for this image before starting the gateway"))
          else Ok ()
      end
  end.

(** ** The probe's address *)

Fixpoint cutLast_at (s sep : string) (i : nat) : option (string * string) :=
  if String.eqb (str_take (String.length sep) (str_drop i s)) sep
  then Some (str_take i s, str_drop (i + String.length sep) s)
  else match i with O => None | S i => cutLast_at s sep i end.

Definition cutLast (s sep : string) : option (string * string) :=
  if (String.length s <? String.length sep)%nat then None
  else cutLast_at s sep (String.length s - String.length sep).

(** [url_String] prints a URL of that host and path. *)
Definition healthURL (url_String : string → string → string) (addr : string) : string :=
  let '(host, port) := match cutLast addr ":" with Some hp => hp | None => ("127.0.0.1", addr) end in
  let host := if String.eqb host "" || String.eqb host "0.0.0.0" || String.eqb host "[::]" then "127.0.0.1" else host in
  url_String (host +:+ ":" +:+ port) "/healthz".

(** ** The voice sync's cadence *)

Definition voiceSyncInterval : Z := Minute.
Definition voiceSyncStartupPeriod : Z := 2 * Second.

(** One turn of [syncVoices]: the interval to wait, and the catalogue after it.
    [stopping] is whether the process is being stopped. *)
Definition sync_turn (stopping : bool) (now : Z) (advertised : list (string * string)) (interval : Z) (s : Catalogue)
    (w : VoiceWorld) : Z * Catalogue * VoiceWorld :=
  let '(r, w) := Sync s advertised w in
  let s := match r with Ok s => s | Err _ => s end in
  if negb (is_Ok r) && negb stopping then (interval, s, w)
  else if interval =? voiceSyncInterval then (interval, s, w)
  else match List_ s now None w with
       | (Ok (found, s), w) => (match found with [] => interval | _ => voiceSyncInterval end, s, w)
       | (Err _, w) => (interval, s, w)
       end.

(** [%s-%s-%d]: [os.Hostname] may fail. *)
Definition consumerName (hostname : res string) (env : string) (pid : Z) : string :=
  let host := match hostname with Ok "" | Err _ => "gateway" | Ok h => h end%string in
  host +:+ "-" +:+ env +:+ "-" +:+ Itoa pid.

(** ** Boot and shutdown *)

Inductive resource : Type := RPostgres | RRedis | RWorkers | RMeter.
Inductive background : Type := Reconciler | HealthProbes | OrchestratorLoops | VoiceSync | MaintenanceLoop.

(** What [run] does, in order; a close is a deferred call. *)
Inductive boot_event : Type :=
  | BOpen (r : resource)
  | BClose (r : resource)
  | BStart (b : background)
  | BListen
  | BShutdown
  | BFlush.

(** What the configuration and the adapters answer: [be_served] is [Ok] when the
    server stopped on a signal or by itself, [be_shutdown] is the drain's. *)
Record boot_env : Type := {
  be_config : res Config; be_postgres : res (); be_migrations : list string; be_schema : res Z; be_redis : res ();
  be_limiter : res (); be_workers : res (); be_groups : res (); be_served : res (); be_shutdown : res ();
}.

Definition Boot : Type := list boot_event * res ().

Definition attempt {A} (pre : string) (r : res A) (k : Boot) : Boot :=
  match r with Err e => ([], Err (if String.eqb pre "" then e else wrapf pre e)) | Ok _ => k end.

(** The rest of [run], and the deferred close after it. *)
Definition holding (r : resource) (k : Boot) : Boot := (BOpen r :: k.1 ++ [BClose r], k.2).

Definition start (l : list background) (k : Boot) : Boot := ((BStart <$> l) ++ k.1, k.2).

(** [run] from [ListenAndServe]; an error of the listener returns at once. *)
Definition serving (e : boot_env) : Boot :=
  match be_served e with
  | Err err => ([BListen], Err (wrapf "listen: " err))
  | Ok _ => ([BListen; BShutdown; BFlush], rmap_err (wrapf "http shutdown: ") (be_shutdown e))
  end.

Definition run (e : boot_env) : Boot :=
  attempt "configuration: " (be_config e)
    (attempt "postgres: " (be_postgres e) (holding RPostgres
      (attempt "" (checkSchemaVersion (be_migrations e) (be_schema e))
        (attempt "redis: " (be_redis e) (holding RRedis
          (attempt "rate limiter: " (be_limiter e) (start [Reconciler]
            (attempt "worker pool: " (be_workers e) (holding RWorkers (start [HealthProbes]
              (holding RMeter
                (attempt "job queue: " (be_groups e)
                  (start [OrchestratorLoops; VoiceSync; MaintenanceLoop] (serving e)))))))))))))).

(** ** Lemmas *)

(** The recorders know what was sent. *)
Definition in_step (x : exchange) : Prop :=
  w_hijacked (conn x) = false ∧
  Forall (λ s, rec_status s = seen (conn x) ∧ (rec_written s = true ↔ is_Some (w_status (conn x)))) (recorders x).

Definition plain (o : write) : Prop := o ≠ DoHijack.

Lemma rec_WriteHeader_net rs status w :
  Forall (λ s, rec_written s = true ↔ is_Some (w_status w)) rs → w_hijacked w = false →
  (rec_WriteHeader rs status w).2 = net_WriteHeader status w.
Proof.
  intros Hrs Hh. induction Hrs as [|s rs Hs Hrs IH]; cbn; [done|].
  destruct (rec_written s) eqn:Hw.
  - unfold net_WriteHeader. rewrite Hh. destruct (w_status w); [done|]. destruct Hs as [Hs _]. by destruct (Hs eq_refl).
  - destruct (rec_WriteHeader rs status w). done.
Qed.

Lemma rec_WriteHeader_in_step rs status w :
  in_step {| recorders := rs; conn := w; records := [] |} →
  in_step {| recorders := (rec_WriteHeader rs status w).1; conn := net_WriteHeader status w; records := [] |}.
Proof.
  intros [Hh Hrs]. split; cbn in *.
  - unfold net_WriteHeader. rewrite Hh. by destruct (w_status w).
  - unfold net_WriteHeader. rewrite Hh. destruct (w_status w) as [st|] eqn:Hw.
    + destruct rs as [|s rs]; [done|]. cbn. apply Forall_cons in Hrs as [[H1 H2] Hrs].
      rewrite (proj2 H2) by done. rewrite Hw in *. by apply Forall_cons.
    + induction Hrs as [|s rs [H1 H2] Hrs IH]; cbn; [done|].
      destruct (rec_written s); [by destruct H2 as [H2 _]; destruct (H2 eq_refl)|].
      destruct (rec_WriteHeader rs status w) as [rs' w']. cbn in *. by apply Forall_cons.
Qed.

Lemma rec_Write_run rs b w :
  (rec_Write rs b w) = ((λ s, {| rec_status := rec_status s; rec_written := true |}) <$> rs, net_Write b w).
Proof. induction rs as [|s rs IH]; cbn; [done|]. by rewrite IH. Qed.

Lemma do_write_in_step x o :
  plain o → in_step x →
  in_step (do_write x o) ∧ seen (conn (do_write x o)) =
    match w_status (conn x), o with Some s, _ => s | None, DoHeader s => s | None, _ => 200 end ∧
  is_Some (w_status (conn (do_write x o))) ∧ records (do_write x o) = records x ∧
  length (recorders (do_write x o)) = length (recorders x).
Proof.
  intros Ho Hx. destruct o as [status|b|]; [..|done]; unfold do_write.
  - destruct Hx as [Hh Hrs].
    pose proof (rec_WriteHeader_net (recorders x) status (conn x)) as Hnet.
    pose proof (rec_WriteHeader_in_step (recorders x) status (conn x) (conj Hh Hrs)) as [Hin1 Hin2].
    assert (length (rec_WriteHeader (recorders x) status (conn x)).1 = length (recorders x)) as Hlen.
    { clear. induction (recorders x) as [|s rs IH]; cbn; [done|]. destruct (rec_written s); [done|].
      destruct (rec_WriteHeader rs status (conn x)). cbn in *. by rewrite IH. }
    destruct (rec_WriteHeader (recorders x) status (conn x)) as [rs' w']. cbn in *.
    rewrite Hnet by (done || (eapply Forall_impl; [exact Hrs|naive_solver])).
    split; [by split|]. unfold net_WriteHeader, seen. rewrite Hh.
    destruct (w_status (conn x)) as [st|] eqn:Hst; cbn; rewrite ?Hst; split_and!; done || eauto.
  - rewrite rec_Write_run. destruct Hx as [Hh Hrs]. unfold net_Write, net_WriteHeader. rewrite Hh. cbn.
    destruct (w_status (conn x)) as [st|] eqn:Hst; cbn; unfold in_step, seen in *; cbn; rewrite ?Hst in *;
      rewrite length_fmap; (split_and!; try done);
      apply Forall_fmap; (eapply Forall_impl; [exact Hrs|]); intros s [H1 H2]; cbn; (split; [done|]); naive_solver.
Qed.

Lemma writes_in_step writes x :
  Forall plain writes → in_step x →
  let x' := foldl do_write x writes in
  in_step x' ∧ records x' = records x ∧ length (recorders x') = length (recorders x) ∧
  (∀ s, w_status (conn x) = Some s → w_status (conn x') = Some s).
Proof.
  intros Hw. revert x. induction Hw as [|o writes Ho Hw IH]; intros x Hx; cbn; [done|].
  destruct (do_write_in_step x o Ho Hx) as (H1 & H2 & H3 & H4 & H5).
  destruct (IH _ H1) as (? & ? & ? & Hs). split_and!; [done|congruence|congruence|].
  intros s Hst. apply Hs. rewrite Hst in H2. unfold seen in H2. destruct H3 as [s' Hs']. rewrite Hs' in H2 |- *.
  cbn in H2. by subst.
Qed.

Lemma writes_sent writes x :
  Forall plain writes → in_step x → w_status (conn x) = None →
  w_status (conn (foldl do_write x writes)) = sent writes.
Proof.
  intros Hw Hx Hn. destruct Hw as [|o writes Ho Hw]; cbn; [done|].
  destruct (do_write_in_step x o Ho Hx) as (H1 & H2 & [s Hs] & _ & _).
  destruct (writes_in_step writes _ Hw H1) as (_ & _ & _ & Hkeep). rewrite (Hkeep s Hs).
  rewrite Hn in H2. unfold seen in H2. rewrite Hs in H2. cbn in H2. by destruct o; subst.
Qed.

(** What a handler leaves after it, through the two recorders of the edge. *)
Lemma serve_edge writes panics :
  Forall plain writes →
  ∃ s1 s2 w, serve writes panics
      {| recorders := [new_recorder; new_recorder]; conn := conn fresh_exchange; records := [] |} =
    ({| recorders := [s1; s2]; conn := w; records := [Serving] |}, panics) ∧
  w_status w = sent writes ∧ rec_status s1 = seen w ∧
  in_step {| recorders := [s2]; conn := w; records := [Serving] |}.
Proof.
  intros Hw. unfold serve. set (x := note [Serving] _).
  assert (in_step x) as Hx.
  { split; [done|]. cbn. repeat constructor; cbn; by intros [? ?] || done. }
  pose proof (writes_in_step writes x Hw Hx) as H. cbv zeta in H. destruct H as ([Hh Hrs] & Hrec & Hlen & _).
  pose proof (writes_sent writes x Hw Hx eq_refl) as Hsent.
  destruct (foldl do_write x writes) as [rs w rec]. cbn in *. subst rec.
  destruct rs as [|s1 [|s2 [|]]]; try done. exists s1, s2, w.
  apply Forall_cons in Hrs as [[H1 _] Hrs]. by split_and!.
Qed.

(** ** What is recorded about a request *)

(** One access line and one count per request, and no panic gets out. For a
    handler that returns: the access line carries the status the client is
    given, and the request is counted under its route and that status's class;
    the gauge of requests in flight goes up and down only after the handler has
    run. For a handler that panics: the client is given what the handler had
    begun to send, or a 500, the access line says so, and nothing is counted. *)
Theorem edge_records text pattern method writes panics :
  Forall plain writes →
  let '(x, escaped) := edge text pattern method (serve writes panics) fresh_exchange in
  escaped = false ∧
  seen (conn x) = default (if panics then 500 else 200) (sent writes) ∧
  records x =
    if panics then [Serving; AccessLine (seen (conn x))]
    else [Serving; InFlight 1; Counted (routePattern pattern) method (statusClass (seen (conn x))); InFlight (-1);
          AccessLine (seen (conn x))].
Proof.
  intros Hw. destruct (serve_edge writes panics Hw) as (s1 & s2 & w & Hserve & Hsent & Hs1 & Hx).
  unfold edge, Logger, Recover, Observe, recorded. cbn [recorders conn records fresh_exchange].
  unfold fresh_exchange in Hserve. cbn [conn] in Hserve. rewrite Hserve. cbn [recorders conn records].
  destruct panics.
  - set (x0 := {| recorders := [s2]; conn := w; records := [Serving] |}) in *.
    destruct (do_write_in_step x0 (DoHeader 500)) as (H1 & H2 & [st H3] & H4 & H5); [done..|].
    destruct (do_write_in_step (do_write x0 (DoHeader 500)) (DoWrite text)) as ([Hh Hrs] & H7 & _ & H8 & H9); [done..|].
    set (x2 := do_write (do_write _ _) (DoWrite text)) in *. rewrite H3 in H7.
    destruct (recorders x2) as [|s [|]] eqn:Hr; rewrite ?H9, ?H5 in *; try (cbn in *; congruence).
    apply Forall_cons in Hrs as [[Hst _] _]. cbn [note records recorders conn]. rewrite Hst. split_and!; [done| |].
    + rewrite H7. unfold seen in H2. rewrite H3 in H2. cbn in H2. subst st. unfold x0. cbn [conn]. rewrite Hsent.
      by destruct (sent writes).
    + by rewrite H8, H4.
  - cbn [note records recorders conn app]. destruct Hx as [_ Hx]. apply Forall_cons in Hx as [[Hs2 _] _]. cbn in Hs2.
    rewrite Hs2, Hs1. split_and!; [done| |done]. unfold seen. by rewrite Hsent.
Qed.

(** *** Readiness *)

(** [sort.Strings]' order is a strict total one. *)
Lemma string_ltb_lt a b : String.ltb a b = true ↔ String_as_OT.lt a b.
Proof.
  unfold String.ltb. change (String.compare a b) with (String_as_OT.compare a b).
  destruct (String_as_OT.compare_spec a b) as [Heq|Hlt|Hlt]; split; intros H; try done; exfalso.
  - red in Heq. subst. by apply (irreflexivity String_as_OT.lt b).
  - by apply (asymmetry Hlt).
Qed.

Lemma string_ltb_asym a b : String.ltb a b = true → String.ltb b a = false.
Proof.
  intros Hab%string_ltb_lt. destruct (String.ltb b a) eqn:Hba; [|done].
  apply string_ltb_lt in Hba. by destruct (asymmetry Hab Hba).
Qed.

Lemma string_ltb_negtrans a b c : String.ltb b a = false → String.ltb c b = false → String.ltb c a = false.
Proof.
  intros Hba Hcb. destruct (String.ltb c a) eqn:Hca; [|done]. apply string_ltb_lt in Hca.
  destruct (String_as_OT.compare_spec b c) as [Heq|Hlt|Hlt].
  - red in Heq. subst. apply string_ltb_lt in Hca. congruence.
  - assert (String_as_OT.lt b a) as H%string_ltb_lt by (by trans c). congruence.
  - apply string_ltb_lt in Hlt. congruence.
Qed.

Lemma completed_all checks names status :
  NoDup names →
  let s := foldl (completed checks) status names in
  Ready s = Ready status && forallb (λ n, match checks !! n with Some (Some _) => false | _ => true end) names ∧
  Failing s = Failing status ++ List.filter (λ n, match checks !! n with Some (Some _) => true | _ => false end) names ∧
  (∀ n, Checks s !! n = if decide (n ∈ names)
     then Some (match checks !! n with Some (Some _) => "failing" | _ => "ok" end)%string else Checks status !! n).
Proof.
  revert status. induction names as [|m names IH]; intros status Hnd; cbn.
  - rewrite andb_true_r, app_nil_r. split_and!; try done.
  - apply NoDup_cons in Hnd as [Hm Hnd]. destruct (IH (completed checks status m) Hnd) as (H1 & H2 & H3).
    rewrite H1, H2. unfold completed at 1 2. split_and!.
    + destruct (checks !! m) as [[err|]|]; cbn; by rewrite ?andb_false_r.
    + destruct (checks !! m) as [[err|]|]; cbn; [by rewrite <-app_assoc|done..].
    + intros n. rewrite H3. destruct (decide (n = m)) as [->|Hne].
      * rewrite decide_False by done. rewrite decide_True by (by left). unfold completed.
        destruct (checks !! m) as [[err|]|]; cbn; by rewrite lookup_insert_eq.
      * destruct (decide (n ∈ names)); [by rewrite decide_True by (by right)|].
        rewrite decide_False by (rewrite elem_of_cons; tauto). unfold completed.
        destruct (checks !! m) as [[err|]|]; cbn; by rewrite lookup_insert_ne.
Qed.

(** The readiness report does not depend on the order in which the checks
    answer: it is ready exactly when none fails, every check is reported, and the
    failing ones are listed in order, each once. *)
Theorem readiness_exact (checks : gmap string (option gerr)) order :
  order ≡ₚ (map_to_list checks).*1 →
  let '(code, status) := Readyz checks order in
  (Ready status = true ↔ ∀ n r, checks !! n = Some r → r = None) ∧
  code = (if Ready status then 200 else 503) ∧
  Checks status = (λ r : option gerr, match r with Some _ => "failing" | None => "ok" end)%string <$> checks ∧
  NoDup (Failing status) ∧ (∀ n, n ∈ Failing status ↔ ∃ err, checks !! n = Some (Some err)) ∧
  StronglySorted (λ a b, String.ltb b a = false) (Failing status).
Proof.
  intros Hord. unfold Readyz, Evaluate. cbv zeta. cbn [Ready Checks Failing].
  assert (NoDup order) as Hnd by (rewrite Hord; apply NoDup_fst_map_to_list).
  assert (∀ n, n ∈ order ↔ is_Some (checks !! n)) as Hin.
  { intros n. rewrite Hord, list_elem_of_fmap. split.
    - intros ([k x] & -> & Hk%elem_of_map_to_list). by exists x.
    - intros [x Hx]. exists (n, x). split; [done|]. by apply elem_of_map_to_list. }
  destruct (completed_all checks order {| Ready := true; Checks := ∅; Failing := [] |} Hnd) as (H1 & H2 & H3).
  rewrite H1, H2. cbn [Ready Failing Checks app andb] in *. split_and!.
  - rewrite List.forallb_forall. split.
    + intros H n r Hn. specialize (H n). rewrite <-list_elem_of_In, Hin, Hn in H.
      specialize (H (mk_is_Some _ _ eq_refl)). by destruct r.
    + intros H n Hn. rewrite <-list_elem_of_In, Hin in Hn. destruct Hn as [r Hr]. rewrite Hr. by rewrite (H n r Hr).
  - done.
  - apply map_eq. intros n. rewrite H3, lookup_fmap. destruct (decide (n ∈ order)) as [Hn|Hn]; rewrite Hin in Hn.
    + destruct Hn as [r Hr]. rewrite Hr. by destruct r.
    + apply eq_None_not_Some in Hn. by rewrite Hn.
  - rewrite order_by_perm. by apply NoDup_ListNoDup, List.NoDup_filter, NoDup_ListNoDup.
  - intros n. rewrite order_by_elem, list_elem_of_In, List.filter_In, <-list_elem_of_In, Hin. split.
    + intros [[r Hr] Hf]. rewrite Hr in *. destruct r as [err|]; [by exists err|done].
    + intros [err Herr]. by rewrite Herr.
  - apply order_by_ordered.
    + intros a b. apply string_ltb_asym.
    + intros a b c. apply string_ltb_negtrans.
Qed.

(** *** Cross-origin requests *)

Lemma cors_origins_elem o origins : o ∈ cors_origins origins ↔ o ≠ ""%string ∧ o ∈ TrimSpace <$> origins.
Proof.
  unfold cors_origins. rewrite list_elem_of_In, List.filter_In, <-list_elem_of_In.
  destruct (String.eqb_spec o ""); naive_solver.
Qed.

(** A browser is told its origin is allowed exactly when it is one of the
    configured ones, and is told that very origin; a preflight is always answered
    here, with 204 or 403, and any other request always goes on; and every answer
    varies on the origin. *)
Theorem cors_exact origins method header h :
  h !! "Access-Control-Allow-Origin"%string = None →
  let origin := header "Origin"%string in
  let preflight := method = "OPTIONS"%string ∧ header "Access-Control-Request-Method"%string ≠ ""%string in
  let ok := origin ≠ ""%string ∧ origin ∈ TrimSpace <$> origins in
  let answer := CORS origins method header h in
  let h' := match answer with inl resp => rs_Header resp | inr h' => h' end in
  (preflight ↔ ∃ resp, answer = inl resp) ∧
  (∀ resp, answer = inl resp → rs_Status resp = 204 ∧ ok ∨ rs_Status resp = 403 ∧ ¬ ok) ∧
  (ok → h' !! "Access-Control-Allow-Origin"%string = Some origin) ∧
  (¬ ok → h' !! "Access-Control-Allow-Origin"%string = None) ∧
  h' !! "Access-Control-Allow-Credentials"%string = h !! "Access-Control-Allow-Credentials"%string ∧
  is_Some (h' !! "Vary"%string).
Proof.
  intros Hh origin preflight ok answer h'.
  assert (ok ↔ String.eqb origin "" || negb (bool_decide (origin ∈ cors_origins origins)) = false) as Hok.
  { unfold ok. rewrite <-cors_origins_elem. rewrite orb_false_iff, negb_false_iff, bool_decide_eq_true.
    rewrite cors_origins_elem. destruct (String.eqb_spec origin ""); naive_solver. }
  assert (preflight ↔ String.eqb method "OPTIONS" && negb (String.eqb (header "Access-Control-Request-Method"%string) "") = true)
    as Hpre.
  { unfold preflight. rewrite andb_true_iff, String.eqb_eq.
    destruct (String.eqb_spec (header "Access-Control-Request-Method"%string) ""); cbn; naive_solver. }
  unfold h', answer, CORS. fold origin. unfold header_add.
  destruct (String.eqb origin "" || _) eqn:Ho; destruct (String.eqb method "OPTIONS" && _) eqn:Hm; rewrite Hok, Hpre;
    (split_and!; [split; [intros ?; first [done|by eexists]|by intros [? ?]]|by intros ? [= <-]; cbn; rewrite Hok; auto|..]); try done; cbn [rs_Header];
    intros; repeat first [rewrite lookup_insert_eq; done | rewrite lookup_insert_ne by done]; done.
Qed.

(** *** The schema gate *)

Lemma latest_of_spec names latest want :
  latest_of latest names = Ok want →
  latest ≤ want ∧
  (∀ name, name ∈ names → ∃ v, migration_version name = Ok v ∧ v ≤ want) ∧
  (want = latest ∨ ∃ name, name ∈ names ∧ migration_version name = Ok want).
Proof.
  revert latest. induction names as [|name names IH]; intros latest; cbn.
  - intros [= <-]. split_and!; [done| |by left]. intros name Hn. by apply elem_of_nil in Hn.
  - destruct (migration_version name) as [v|] eqn:Hv; [|done]. intros H. apply IH in H as (H1 & H2 & H3).
    split_and!.
    + destruct (Z.ltb_spec latest v); lia.
    + intros m [->|Hm]%elem_of_cons; [|by apply H2]. exists v. split; [done|].
      destruct (Z.ltb_spec latest v); lia.
    + destruct H3 as [->|(m & Hm & Hmv)].
      * destruct (Z.ltb_spec latest v); [right; exists name; split; [by left|done]|by left].
      * right. exists m. split; [by right|done].
Qed.

(** The gate passes exactly when the names are well formed, some migration has a
    positive version, and none is newer than the newest one applied. *)
Lemma schema_gate names applied :
  checkSchemaVersion names (Ok (SchemaVersion applied)) = Ok () ↔
  (∃ want, Latest names = Ok want) ∧
  ∀ name, name ∈ names → ∃ v, migration_version name = Ok v ∧ v ≤ SchemaVersion applied.
Proof.
  unfold checkSchemaVersion. destruct (Latest names) as [want|e] eqn:Hl.
  2:{ split; [done|]. by intros [[? ?] _]. }
  assert (latest_of 0 names = Ok want ∧ want ≠ 0) as [Hof Hnz].
  { unfold Latest in Hl. destruct (latest_of 0 names) as [l|]; [|done].
    destruct (Z.eqb_spec l 0); [done|]. by injection Hl as <-. }
  destruct (latest_of_spec _ _ _ Hof) as (_ & Hall & Hsome).
  destruct (Z.ltb_spec (SchemaVersion applied) want) as [Hlt|Hge].
  - split; [done|]. intros [_ H]. destruct Hsome as [?|(name & Hn & Hv)]; [done|].
    destruct (H name Hn) as (v & Hv' & Hle). rewrite Hv in Hv'. injection Hv' as <-. lia.
  - split; [|done]. intros _. split; [by exists want|]. intros name Hn.
    destruct (Hall name Hn) as (v & Hv & Hle). exists v. split; [done|lia].
Qed.

(** *** The probe's address *)

Lemma cutLast_at_spec s c i :
  match cutLast_at s (String c "") i with
  | Some (before, after) => ∃ j, (j ≤ i)%nat ∧ before = str_take j s ∧ str_drop j s = String c after ∧
      ∀ k, (j < k ≤ i)%nat → str_take 1 (str_drop k s) ≠ String c ""
  | None => ∀ k, (k ≤ i)%nat → str_take 1 (str_drop k s) ≠ String c ""
  end.
Proof.
  assert (∀ j, str_take 1 (str_drop j s) = String c "" → str_drop j s = String c (str_drop (j + 1) s)) as Hcut.
  { clear i. revert s. intros s j. revert s. induction j as [|j IH]; intros [|d s]; cbn; try done.
    - by intros [= ->].
    - apply IH. }
  induction i as [|i IH]; cbn [cutLast_at String.length];
    match goal with |- context [String.eqb ?a ?b] => destruct (String.eqb_spec a b) as [He|He] end.
  - exists 0%nat. split_and!; [done|done|by apply Hcut|lia].
  - intros k Hk. by replace k with 0%nat by lia.
  - exists (S i). split_and!; [done|done|by apply Hcut|lia].
  - destruct (cutLast_at s (String c "") i) as [[before after]|].
    + destruct IH as (j & Hj & -> & Hd & Hk). exists j. split_and!; [lia|done|done|].
      intros k Hkj. destruct (decide (k = S i)) as [->|]; [done|]. apply Hk. lia.
    + intros k Hk. destruct (decide (k = S i)) as [->|]; [done|]. apply IH. lia.
Qed.

Lemma str_drop_add i j s : str_drop (i + j) s = str_drop j (str_drop i s).
Proof. revert s. induction i as [|i IH]; intros [|c s]; cbn; try done. by destruct j. Qed.

Lemma cutLast_app host port :
  (∀ k, str_take 1 (str_drop k port) ≠ ":"%string) → cutLast (host +:+ ":" +:+ port) ":" = Some (host, port).
Proof.
  intros Hport. set (s := host +:+ ":" +:+ port).
  assert (str_drop (String.length host) s = ":" +:+ port) as Hd by apply str_drop_app.
  assert (String.length s = String.length host + S (String.length port))%nat as Hlen
    by (unfold s; rewrite !str_app_length; cbn; lia).
  unfold cutLast. replace (String.length s <? String.length ":")%nat with false
    by (symmetry; apply Nat.ltb_ge; rewrite Hlen; cbn; lia).
  pose proof (cutLast_at_spec s ":"%char (String.length s - String.length ":")) as H.
  destruct (cutLast_at s ":" _) as [[before after]|].
  2:{ destruct (H (String.length host)); [rewrite Hlen; cbn; lia|]. by rewrite Hd. }
  destruct H as (j & Hj & -> & Hd' & Hk).
  destruct (decide (j = String.length host)) as [->|Hne].
  { rewrite Hd in Hd'. injection Hd' as <-. f_equal. f_equal. apply str_take_app. }
  destruct (decide (j < String.length host)%nat) as [Hlt|Hge].
  - destruct (Hk (String.length host)); [rewrite Hlen; cbn; lia|]. by rewrite Hd.
  - destruct (Hport (j - S (String.length host))%nat).
    replace j with (String.length host + S (j - S (String.length host)))%nat in Hd' by lia.
    rewrite str_drop_add, Hd in Hd'. change (":" +:+ port) with (String ":" port) in Hd'. cbn [str_drop] in Hd'. by rewrite Hd'.
Qed.

(** A port with no colon is probed on the loopback interface, whether it is given
    alone, after a colon, or after an address that means every interface. *)
Lemma healthURL_loopback url_String port host :
  (∀ k, str_take 1 (str_drop k port) ≠ ":"%string) → host ∈ ["";"0.0.0.0";"[::]"]%string →
  healthURL url_String port = url_String ("127.0.0.1:" +:+ port) "/healthz"%string ∧
  healthURL url_String (host +:+ ":" +:+ port) = url_String ("127.0.0.1:" +:+ port) "/healthz"%string.
Proof.
  intros Hport Hhost. split.
  - unfold healthURL, cutLast. pose proof (cutLast_at_spec port ":"%char (String.length port - 1)) as H.
    destruct (_ <? _)%nat; [done|]. destruct (cutLast_at _ _ _) as [[before after]|]; [|done].
    destruct H as (j & _ & _ & Hd & _). destruct (Hport j). by rewrite Hd.
  - unfold healthURL. rewrite (cutLast_app host port Hport).
    rewrite !elem_of_cons, elem_of_nil in Hhost. by destruct Hhost as [->|[->|[->|[]]]].
Qed.

(** *** The routes *)

(** Every route but the voice catalogue's asks for a key and a scope of the
    tenant's default ones, and no two routes are the same. *)
Lemma routes_guarded :
  Forall (λ r, rt_Public (ar_Route r) = false ∧ rt_Scope (ar_Route r) ∈ DefaultTenantScopes ∨
               (ar_Method r, ar_Pattern r) = ("GET", "/voices")%string) TenantAPI ∧
  NoDup ((λ r, (ar_Method r, ar_Pattern r)) <$> TenantAPI).
Proof. split; apply (bool_decide_unpack _); by vm_compute. Qed.

(** *** The cadence of the voice sync *)

(** A catalogue with a public voice ends the fast polling, an empty one or a
    failure does not, and once ended it stays ended. *)
Lemma sync_turn_interval stopping now advertised interval s w :
  let '(interval', s', w') := sync_turn stopping now advertised interval s w in
  interval ∈ [voiceSyncStartupPeriod; voiceSyncInterval] → interval' ∈ [voiceSyncStartupPeriod; voiceSyncInterval] ∧
  (interval = voiceSyncInterval → interval' = voiceSyncInterval).
Proof.
  unfold sync_turn. destruct (Sync s advertised w) as [r w1].
  destruct (negb (is_Ok r) && negb stopping); [auto|].
  destruct (Z.eqb_spec interval voiceSyncInterval); [auto|].
  destruct (List_ _ now None w1) as [[[[|v found] s2]|e] w2]; [auto| |auto].
  intros _. split; [right; by left|done].
Qed.

(** *** The order of boot and shutdown *)

Definition opens (l : list boot_event) : list resource :=
  omap (λ ev, match ev with BOpen r => Some r | _ => None end) l.
Definition closes (l : list boot_event) : list resource :=
  omap (λ ev, match ev with BClose r => Some r | _ => None end) l.
(** Work that touches the tables: a background loop, or serving. *)
Definition works (ev : boot_event) : bool := match ev with BStart _ | BListen => true | _ => false end.

Lemma gate_passed names r :
  checkSchemaVersion names r = Ok () →
  ∃ have, r = Ok have ∧ ∀ name, name ∈ names → ∃ v, migration_version name = Ok v ∧ v ≤ have.
Proof.
  destruct r as [have|e]; [|by unfold checkSchemaVersion; destruct (Latest names)].
  intros H. exists have. split; [done|]. unfold checkSchemaVersion, Latest in H.
  destruct (latest_of 0 names) as [l|] eqn:Hl; [|done]. destruct (l =? 0); [done|].
  destruct (latest_of_spec _ _ _ Hl) as (_ & Hall & _). destruct (Z.ltb_spec have l); [done|].
  intros name Hn. destruct (Hall name Hn) as (v & Hv & Hle). exists v. split; [done|lia].
Qed.

Definition is_close (ev : boot_event) : bool := match ev with BClose _ => true | _ => false end.

(** One way [run] can go, its trace known. *)
Ltac boot_case :=
  cbn [app fst snd fmap list_fmap];
  match goal with |- (∃ body tail, ?tr = _ ∧ _) ∧ _ =>
    split; [exists (List.filter (λ ev, negb (is_close ev)) tr), (List.filter is_close tr); by split_and!|] end;
  let not_there := (intros Hin; repeat (apply elem_of_cons in Hin as [Hin|Hin]; [done|]); by apply elem_of_nil in Hin) in
  split_and!;
  first
    [ done
    | by intros _
    | solve [not_there]
    | solve [split; [done|intros [Hin _]; revert Hin; not_there]]
    | solve [split; [done|intros (_ & ? & ?); done]]
    | intros _ _; match goal with |- ∃ l1 l2, ?tr = _ ∧ _ => by exists (take 9 tr), (drop 12 tr) end
    | solve [split; [intros _; split_and!; [|done..]; set_solver|done]] ].


(** ** Witnesses *)

Lemma edge_records_witness :
  records (edge "{}" (Some "/v1/jobs/{jobId}"%string) "GET" (serve [DoHeader 404; DoWrite "{}"] false) fresh_exchange).1 =
    [Serving; InFlight 1; Counted "/v1/jobs/{jobId}" "GET" "4xx"; InFlight (-1); AccessLine 404].
Proof.
  assert (Forall plain [DoHeader 404; DoWrite "{}"]) as Hp by (repeat constructor; done).
  pose proof (edge_records "{}" (Some "/v1/jobs/{jobId}"%string) "GET" [DoHeader 404; DoWrite "{}"] false Hp) as H.
  destruct (edge _ _ _ _ _) as [x escaped]. destruct H as (_ & Hseen & Hrec). cbn [fst]. rewrite Hrec, Hseen.
  reflexivity.
Defined.
