(* ===== verification/Metrics.v ===== *)
(** * The instruments

    [telemetry/metrics.go] and every place that records: the requests
    ([http/metrics.go], [http/ratelimit.go]), the synthesis service, the
    dispatcher, the pool, the orchestrator and the webhooks. Prometheus' client
    library is an interface with the behaviour it documents; durations are
    converted as Go converts them. What the gateway counts of its requests is tied
    to [Server]'s chain. *)

From stdpp Require Import base gmap strings pretty numbers sorting list.
From Stdlib Require Import SpecFloat.
From S2P Require Import Prelude GoString Float Pool Dispatch Jobs Server.

(** ** Prometheus' client *)

Inductive Kind : Type := Counter | Gauge | Histogram (buckets : list spec_float).

(** A vector's options and labels; the help text is left out. *)
Record Instrument : Type := { in_Name : string; in_Kind : Kind; in_Labels : list string }.

Inductive Update : Type := Inc | Dec | Add (v : spec_float) | Set_ (v : spec_float) | Observe_ (v : spec_float).

(** A registry; [None] is a panic. [Touch] is [WithLabelValues] and one update of
    the series it gives; [RegisterCollectors] registers the process and the Go
    collector. *)
Class Prometheus : Type := {
  Registry : Type;
  NewRegistry : Registry;
  MustRegister : Instrument → Registry → option Registry;
  RegisterCollectors : Registry → option Registry;
  Touch : string → list string → Update → Registry → option Registry;
  Series : Registry → string → list (list string);
  Value : Registry → string → list string → spec_float;
}.

Definition f64_zero : spec_float := S754_zero false.
Definition f64_one : spec_float := f64_of_Z 1.

(** A series' value after an update; of a histogram, how many it has seen. *)
Definition updated (u : Update) (x : spec_float) : spec_float :=
  match u with
  | Inc | Observe_ _ => f64_add x f64_one
  | Dec => f64_sub x f64_one
  | Add v => f64_add x v
  | Set_ v => v
  end.

(** Counters do not go down; each kind has its own updates. *)
Definition takes (k : Kind) (u : Update) : bool :=
  match k, u with
  | Counter, Inc => true
  | Counter, Add v => SFleb f64_zero v
  | Gauge, (Inc | Dec | Add _ | Set_ _) => true
  | Histogram _, Observe_ _ => true
  | _, _ => false
  end.

(** *** Names *)

Definition alpha_ (c : ascii) : bool :=
  let b := byte_val c in in_range 65 90 b || in_range 97 122 b || (b =? 95).

Fixpoint all_chars (p : ascii → bool) (s : string) : bool :=
  match s with EmptyString => true | String c s => p c && all_chars p s end.

Definition label_name_ok (s : string) : bool :=
  match s with
  | EmptyString => false
  | String c _ => alpha_ c && all_chars (λ c, alpha_ c || is_digit c) s && negb (HasPrefix s "__")
  end.

Definition metric_name_ok (s : string) : bool :=
  match s with
  | EmptyString => false
  | String c _ => (alpha_ c || (byte_val c =? 58)) && all_chars (λ c, alpha_ c || is_digit c || (byte_val c =? 58)) s
  end.

Fixpoint increasing (l : list spec_float) : bool :=
  match l with
  | x :: (y :: _) as rest => SFltb x y && increasing rest
  | _ => true
  end.

Definition valid_instrument (i : Instrument) : bool :=
  metric_name_ok (in_Name i) && forallb label_name_ok (in_Labels i) && bool_decide (NoDup (in_Labels i)) &&
  match in_Kind i with
  | Histogram buckets => increasing buckets && negb (bool_decide ("le"%string ∈ in_Labels i))
  | _ => true
  end.

(** The names the library's own collectors take. *)
Definition runtime_name (n : string) : bool := HasPrefix n "go_" || HasPrefix n "process_".

Definition is_ascii (s : string) : bool := all_chars (λ c, byte_val c <? 128) s.

Definition with_series (vs : list string) (l : list (list string)) : list (list string) :=
  if decide (vs ∈ l) then l else l ++ [vs].

(** What the library documents: a well-formed instrument of a new name is
    registered; a series is made when it is first named, with as many values as
    labels, which are UTF-8; updates are of that series only. *)
Class PrometheusLaws `{Prometheus} : Type := {
  registered : Registry → string → option Instrument;
  fresh_registered n : registered NewRegistry n = None;
  fresh_series n : Series NewRegistry n = [];
  fresh_value n vs : Value NewRegistry n vs = f64_zero;
  MustRegister_ok i r :
    valid_instrument i = true → registered r (in_Name i) = None →
    ∃ r', MustRegister i r = Some r' ∧
      (∀ n, registered r' n = if decide (n = in_Name i) then Some i else registered r n) ∧
      (∀ n, Series r' n = Series r n) ∧ ∀ n vs, Value r' n vs = Value r n vs;
  RegisterCollectors_ok r :
    (∀ n, is_Some (registered r n) → runtime_name n = false) →
    ∃ r', RegisterCollectors r = Some r' ∧
      ∀ n, runtime_name n = false →
        registered r' n = registered r n ∧ Series r' n = Series r n ∧ ∀ vs, Value r' n vs = Value r n vs;
  Touch_ok n vs u r i :
    registered r n = Some i → length vs = length (in_Labels i) → forallb is_ascii vs = true →
    takes (in_Kind i) u = true →
    ∃ r', Touch n vs u r = Some r' ∧
      (∀ k, registered r' k = registered r k) ∧
      (∀ k, Series r' k = if decide (k = n) then with_series vs (Series r k) else Series r k) ∧
      ∀ k ws, Value r' k ws = if decide (k = n ∧ ws = vs) then updated u (Value r k ws) else Value r k ws;
}.

(** ** [telemetry/metrics.go] *)

(** A literal such as [0.025]: [25 / 1000], rounded. *)
Definition decimal (n d : Z) : spec_float := f64_div (f64_of_Z n) (f64_of_Z d).

Definition latencyBuckets : list spec_float :=
  [decimal 5 1000; decimal 1 100; decimal 25 1000; decimal 5 100; decimal 1 10; decimal 2 10; decimal 3 10; decimal 5 10] ++
  (f64_of_Z <$> [1; 2; 5; 10; 30; 60]).
Definition ttfaBuckets : list spec_float :=
  [decimal 2 100; decimal 5 100; decimal 1 10; decimal 15 100; decimal 2 10; decimal 3 10; decimal 45 100; decimal 6 10] ++
  (f64_of_Z <$> [1; 2; 5]).
Definition rtfBuckets : list spec_float :=
  [decimal 1 10; decimal 2 10; decimal 3 10; decimal 4 10; decimal 5 10; decimal 7 10; f64_of_Z 1; decimal 15 10;
   f64_of_Z 2; f64_of_Z 4].
Definition waitBuckets : list spec_float :=
  [decimal 1 1000; decimal 1 100; decimal 5 100; decimal 1 10; decimal 25 100; decimal 5 10] ++
  (f64_of_Z <$> [1; 2; 5; 10; 30]).
Definition jobBuckets : list spec_float := f64_of_Z <$> [1; 5; 15; 30; 60; 120; 300; 600; 1800; 3600].

Definition RequestsTotal : Instrument :=
  {| in_Name := "http_requests_total"; in_Kind := Counter; in_Labels := ["route"; "method"; "status"] |}.
Definition RequestDuration : Instrument :=
  {| in_Name := "http_request_duration_seconds"; in_Kind := Histogram latencyBuckets; in_Labels := ["route"; "method"] |}.
Definition RequestsInFlight : Instrument :=
  {| in_Name := "http_requests_in_flight"; in_Kind := Gauge; in_Labels := ["route"] |}.
Definition TTFASeconds : Instrument :=
  {| in_Name := "tts_ttfa_seconds"; in_Kind := Histogram ttfaBuckets; in_Labels := ["mode"] |}.
Definition RTF : Instrument := {| in_Name := "tts_rtf"; in_Kind := Histogram rtfBuckets; in_Labels := ["mode"] |}.
Definition QueueDepth : Instrument :=
  {| in_Name := "dispatch_queue_depth"; in_Kind := Gauge; in_Labels := ["class"] |}.
Definition QueueWaitSeconds : Instrument :=
  {| in_Name := "dispatch_queue_wait_seconds"; in_Kind := Histogram waitBuckets; in_Labels := ["class"] |}.
Definition Overloaded : Instrument :=
  {| in_Name := "dispatch_overloaded_total"; in_Kind := Counter; in_Labels := ["class"] |}.
Definition DegradedTotal : Instrument :=
  {| in_Name := "dependency_degraded_total"; in_Kind := Counter; in_Labels := ["dependency"] |}.
Definition CacheTotal : Instrument := {| in_Name := "cache_total"; in_Kind := Counter; in_Labels := ["result"] |}.
Definition UsageCharsTotal : Instrument :=
  {| in_Name := "usage_chars_total"; in_Kind := Counter; in_Labels := ["tenant"; "mode"] |}.
Definition WorkerSlotsBusy : Instrument :=
  {| in_Name := "worker_slots_busy"; in_Kind := Gauge; in_Labels := ["worker"] |}.
Definition WorkerSlotsTotal : Instrument :=
  {| in_Name := "worker_slots_total"; in_Kind := Gauge; in_Labels := ["worker"] |}.
Definition WorkerReady : Instrument := {| in_Name := "worker_ready"; in_Kind := Gauge; in_Labels := ["worker"] |}.
Definition JobsTotal : Instrument := {| in_Name := "jobs_total"; in_Kind := Counter; in_Labels := ["status"] |}.
Definition JobDuration : Instrument :=
  {| in_Name := "job_duration_seconds"; in_Kind := Histogram jobBuckets; in_Labels := ["status"] |}.
Definition WebhookAttempts : Instrument :=
  {| in_Name := "webhook_attempts_total"; in_Kind := Counter; in_Labels := ["outcome"] |}.

(** In the order they are built. *)
Definition instruments : list Instrument := [
  RequestsTotal; RequestDuration; RequestsInFlight; TTFASeconds; RTF; QueueDepth; QueueWaitSeconds; Overloaded;
  DegradedTotal; CacheTotal; UsageCharsTotal; WorkerSlotsBusy; WorkerSlotsTotal; WorkerReady; JobsTotal; JobDuration;
  WebhookAttempts].

(** [Duration.Seconds]. *)
Definition Seconds (d : Z) : spec_float :=
  f64_add (f64_of_Z (Z.quot d Second)) (f64_div (f64_of_Z (Z.rem d Second)) (f64_of_Z 1000000000)).
Definition MillisecondsToSeconds (ms : Z) : spec_float := f64_div (f64_of_Z ms) (f64_of_Z 1000).

Definition TenantLabel (tenantID : string) : string := if negb (go_len tenantID =? 36) then "unknown" else tenantID.

Section metrics.
Context `{Prometheus}.

(** One call after another; a panic ends them. *)
Definition then_ {A} (f g : A → option A) : A → option A := λ r, f r ≫= g.

(** The vectors are registered as they are built. *)
Fixpoint register_each (l : list Instrument) (r : Registry) : option Registry :=
  match l with [] => Some r | i :: rest => MustRegister i r ≫= register_each rest end.

Definition NewMetrics : option Registry := register_each instruments NewRegistry ≫= RegisterCollectors.

Definition touch (i : Instrument) (vs : list string) (u : Update) : Registry → option Registry := Touch (in_Name i) vs u.

Definition ObserveRequest (route method : string) (status duration : Z) : Registry → option Registry :=
  then_ (touch RequestsTotal [route; method; statusClass status] Inc)
        (touch RequestDuration [route; method] (Observe_ (Seconds duration))).

(** ** Where the gateway records *)

(** [http/metrics.go], once the handler has returned. *)
Definition observe_request (pattern : option string) (method : string) (status elapsed : Z) : Registry → option Registry :=
  let route := routePattern pattern in
  then_ (touch RequestsInFlight [route] Inc)
        (then_ (ObserveRequest route method status elapsed) (touch RequestsInFlight [route] Dec)).

(** Elsewhere the instruments are optional: [None] is none. *)
Definition attached (f : Registry → option Registry) (m : option Registry) : option (option Registry) :=
  match m with None => Some None | Some r => Some <$> f r end.

(** [synth/service.go]. *)
Definition observeDegraded (dependency : string) : option Registry → option (option Registry) :=
  attached (touch DegradedTotal [dependency] Inc).

Definition observe (mode tenantID : string) (chars ttfaMS durationMS elapsed : Z) (cached : bool)
    : option Registry → option (option Registry) :=
  attached (then_ (touch CacheTotal [if cached then "hit" else "miss"] Inc)
           (then_ (touch UsageCharsTotal [TenantLabel tenantID; mode] (Add (f64_of_Z chars)))
           (then_ (λ r, if 0 <? ttfaMS then touch TTFASeconds [mode] (Observe_ (MillisecondsToSeconds ttfaMS)) r else Some r)
                  (λ r, if negb cached && (0 <? durationMS)
                        then touch RTF [mode] (Observe_ (f64_div (Seconds elapsed) (MillisecondsToSeconds durationMS))) r
                        else Some r)))).

(** [jobs/orchestrator.go]; [age] is the time since the job was created, unless
    that is the zero time. *)
Definition observeTerminal (age : option Z) (st : Status) : option Registry → option (option Registry) :=
  attached (then_ (touch JobsTotal [Status_String st] Inc)
                  (λ r, match age with
                        | Some age => touch JobDuration [Status_String st] (Observe_ (Seconds age)) r
                        | None => Some r
                        end)).

(** [dispatch/pool.go]. *)
Definition pool_observe (snap : Snapshot) : option Registry → option (option Registry) :=
  let ready := if Pool.Ready snap && negb (Ejected snap) then f64_one else f64_zero in
  attached (then_ (touch WorkerReady [Addr snap] (Set_ ready))
           (then_ (touch WorkerSlotsBusy [Addr snap] (Set_ (f64_of_Z (SlotsBusy snap))))
                  (touch WorkerSlotsTotal [Addr snap] (Set_ (f64_of_Z (SlotsTotal snap)))))).

(** [dispatch/queue.go]: [enter] and [leave] once out of the mutex, the wait of a
    caller that gets a slot, and a refusal. *)
Definition publish_depth (c : Class_) (depth : Z) : option Registry → option (option Registry) :=
  attached (touch QueueDepth [Class_String c] (Set_ (f64_of_Z depth))).
Definition observeWait (c : Class_) (waited : Z) : option Registry → option (option Registry) :=
  attached (touch QueueWaitSeconds [Class_String c] (Observe_ (Seconds waited))).
Definition count_overload (c : Class_) : option Registry → option (option Registry) :=
  attached (touch Overloaded [Class_String c] Inc).

(** [webhook/webhook.go]. *)
Definition countAttempt (outcome : string) : option Registry → option (option Registry) :=
  attached (touch WebhookAttempts [outcome] Inc).

(** ** What is recorded, and by whom *)

Inductive observation : Type :=
  | ORequest (pattern : option string) (method : string) (status elapsed : Z)
  | ODegraded (dependency : string)
  | OSynthesis (mode tenantID : string) (chars ttfaMS durationMS elapsed : Z) (cached : bool)
  | OTerminal (age : option Z) (st : Status)
  | OWorker (snap : Snapshot)
  | ODepth (c : Class_) (depth : Z)
  | OWait (c : Class_) (waited : Z)
  | OOverload (c : Class_)
  | OAttempt (outcome : string).

Definition record_one (o : observation) : option Registry → option (option Registry) :=
  match o with
  | ORequest pattern method status elapsed => attached (observe_request pattern method status elapsed)
  | ODegraded dependency => observeDegraded dependency
  | OSynthesis mode tenantID chars ttfaMS durationMS elapsed cached =>
      observe mode tenantID chars ttfaMS durationMS elapsed cached
  | OTerminal age st => observeTerminal age st
  | OWorker snap => pool_observe snap
  | ODepth c depth => publish_depth c depth
  | OWait c waited => observeWait c waited
  | OOverload c => count_overload c
  | OAttempt outcome => countAttempt outcome
  end.

Fixpoint record_all (l : list observation) (m : option Registry) : option (option Registry) :=
  match l with [] => Some m | o :: rest => record_one o m ≫= record_all rest end.
End metrics.

(** ** How many series there can be *)

(** What labels are made of: the routes, the methods that reach the server, the
    tenants and the workers. *)
Record Sites : Type := { routes : list string; methods : list string; tenants : list string; workers : list string }.

Definition label_domain (s : Sites) (metric label : string) : list string :=
  if String.eqb label "route" then "unmatched" :: routes s
  else if String.eqb label "method" then methods s
  else if String.eqb label "status" then
    if String.eqb metric "http_requests_total" then ["2xx"; "3xx"; "4xx"; "5xx"]
    else [Status_String StatusCompleted; Status_String StatusFailed]
  else if String.eqb label "mode" then ["sync"; "stream"]
  else if String.eqb label "class" then ["stream"; "sync"; "batch"; "unknown"]
  else if String.eqb label "dependency" then ["quota"; "ratelimit"]
  else if String.eqb label "result" then ["hit"; "miss"]
  else if String.eqb label "tenant" then "unknown" :: tenants s
  else if String.eqb label "worker" then workers s
  else ["delivered"; "failed"].

Definition sites_ascii (s : Sites) : Prop :=
  Forall (λ x, is_ascii x = true) (routes s ++ methods s ++ tenants s ++ workers s).

(** An observation whose labels come from there, as the gateway's do. *)
Definition within (s : Sites) (o : observation) : Prop :=
  match o with
  | ORequest pattern method _ _ => routePattern pattern ∈ "unmatched"%string :: routes s ∧ method ∈ methods s
  | ODegraded dependency => dependency ∈ ["quota"; "ratelimit"]%string
  | OSynthesis mode tenantID chars _ _ _ _ =>
      mode ∈ ["sync"; "stream"]%string ∧ tenantID ∈ tenants s ∧ 0 ≤ chars < 2 ^ 53
  | OTerminal _ st => st = StatusCompleted ∨ st = StatusFailed
  | OWorker snap => Addr snap ∈ workers s
  | OAttempt outcome => outcome ∈ ["delivered"; "failed"]%string
  | _ => True
  end.

(** The label values one from each list. *)
Fixpoint combos (l : list (list string)) : list (list string) :=
  match l with [] => [[]] | d :: rest => d ≫= λ x, cons x <$> combos rest end.

Definition domains (s : Sites) (i : Instrument) : list (list string) := label_domain s (in_Name i) <$> in_Labels i.

Definition zprod (l : list Z) : Z := foldr Z.mul 1 l.
Definition zsum (l : list Z) : Z := foldr Z.add 0 l.

Lemma combos_elem l vs : vs ∈ combos l ↔ Forall2 (λ v d, v ∈ d) vs l.
Proof.
  revert vs. induction l as [|d l IH]; intros vs; cbn [combos].
  - rewrite list_elem_of_singleton. split; [intros ->; constructor|by inversion 1].
  - rewrite list_elem_of_bind. split.
    + intros (x & Hin & Hx). apply list_elem_of_fmap in Hin as (ws & -> & Hws). constructor; [done|by apply IH].
    + intros Hf. inversion Hf as [|v ? ws ? Hv Hws]; subst. exists v. split; [|done].
      apply list_elem_of_fmap. exists ws. split; [done|]. by apply IH.
Qed.

Lemma combos_length l : Z.of_nat (length (combos l)) = zprod ((λ d, Z.of_nat (length d)) <$> l).
Proof.
  induction l as [|d l IH]; [done|]. cbn [combos]. rewrite fmap_cons. cbn [zprod foldr]. fold (zprod ((λ d, Z.of_nat (length d)) <$> l)).
  rewrite <-IH. clear IH. induction d as [|x d IH]; [done|]. rewrite bind_cons, length_app, length_fmap. cbn [length]. lia.
Qed.

Definition fits (s : Sites) (i : Instrument) (vs : list string) : Prop := Forall2 (λ v d, v ∈ d) vs (domains s i).

(** A label's values are from its domain: by computation, but for the sites. *)
Ltac fitting := unfold fits, domains; cbn [in_Labels in_Name fmap list_fmap]; repeat first
  [ apply Forall2_nil_2 | apply Forall2_cons_2 ]; try (cbn; set_solver).

Ltac listed := unfold instruments; set_solver.

Lemma statusClass_in st : statusClass st ∈ ["2xx"; "3xx"; "4xx"; "5xx"]%string.
Proof. unfold statusClass. repeat case_match; set_solver. Qed.

Lemma Class_String_in c : Class_String c ∈ ["stream"; "sync"; "batch"; "unknown"]%string.
Proof. unfold Class_String. repeat case_match; set_solver. Qed.

Section bounded.
Context `{PrometheusLaws} (s : Sites).
Hypothesis Hs : sites_ascii s.
Local Abbreviation fits := (fits s).


(** Every instrument is there, and its series are of the label values there are. *)
Definition shaped (r : Registry) : Prop :=
  ∀ i, i ∈ instruments → registered r (in_Name i) = Some i ∧ NoDup (Series r (in_Name i)) ∧
    ∀ vs, vs ∈ Series r (in_Name i) → fits i vs.

Definition capacity (i : Instrument) : Z := zprod ((λ d, Z.of_nat (length d)) <$> domains s i).

Lemma shaped_capacity r i : shaped r → i ∈ instruments → Z.of_nat (length (Series r (in_Name i))) ≤ capacity i.
Proof.
  intros Hr Hi. destruct (Hr i Hi) as (_ & Hnd & Hfit). unfold capacity. rewrite <-combos_length.
  apply inj_le, submseteq_length, NoDup_submseteq; [done|]. intros vs Hvs. by apply combos_elem, Hfit.
Qed.

Lemma domain_ascii metric label v : v ∈ label_domain s metric label → is_ascii v = true.
Proof.
  assert (∀ l, l ⊆ routes s ++ methods s ++ tenants s ++ workers s → v ∈ l → is_ascii v = true) as Hsub.
  { intros l Hl Hv. unfold sites_ascii in Hs. rewrite Forall_forall in Hs. by apply Hs, Hl. }
  assert (∀ l, forallb is_ascii l = true → v ∈ l → is_ascii v = true) as Hconst.
  { intros l Hl Hv. rewrite forallb_forall in Hl. by apply Hl, list_elem_of_In. }
  unfold label_domain. intros Hv. repeat case_match;
    repeat match goal with Hv : v ∈ _ :: _ |- _ => apply elem_of_cons in Hv as [->|Hv]; [done|] end;
    first [by apply elem_of_nil in Hv|eapply Hsub; [|exact Hv]; set_solver].
Qed.

Lemma fits_ascii i vs : fits i vs → forallb is_ascii vs = true.
Proof.
  unfold fits, domains. rewrite Forall2_fmap_r. intros Hf. induction Hf as [|v l vs ls Hv Hf IH]; [done|].
  cbn. rewrite (domain_ascii _ _ _ Hv). exact IH.
Qed.

(** *** What keeps the shape *)

Definition keeps (f : Registry → option Registry) : Prop := ∀ r, shaped r → ∃ r', f r = Some r' ∧ shaped r'.

Lemma keeps_then f g : keeps f → keeps g → keeps (then_ f g).
Proof. intros Hf Hg r Hr. destruct (Hf r Hr) as (r1 & Hr1 & Hs1). unfold then_. rewrite Hr1. cbn. by apply Hg. Qed.

Lemma keeps_some : keeps Some.
Proof. intros r Hr. by exists r. Qed.

Lemma with_series_elem vs ws l : vs ∈ with_series ws l ↔ vs = ws ∨ vs ∈ l.
Proof. unfold with_series. destruct (decide (ws ∈ l)) as [Hin|Hin]; [|rewrite elem_of_app, list_elem_of_singleton; tauto]. naive_solver. Qed.

Lemma with_series_NoDup ws l : NoDup l → NoDup (with_series ws l).
Proof.
  intros Hl. unfold with_series. destruct (decide (ws ∈ l)) as [Hin|Hin]; [done|]. apply NoDup_app. split_and!; [done| |repeat constructor].
  - intros x Hx ->%list_elem_of_singleton. done.
  - by apply not_elem_of_nil.
Qed.

Lemma keeps_touch i vs u : i ∈ instruments → fits i vs → takes (in_Kind i) u = true → keeps (touch i vs u).
Proof.
  intros Hi Hf Hu r Hr. destruct (Hr i Hi) as (Hreg & Hnd & Hser).
  destruct (Touch_ok (in_Name i) vs u r i) as (r' & Ht & Hreg' & Hser' & _); [done| |by eapply fits_ascii|done|].
  { unfold fits, domains in Hf. apply Forall2_length in Hf. by rewrite length_fmap in Hf. }
  exists r'. split; [done|]. intros j Hj. destruct (Hr j Hj) as (Hregj & Hndj & Hserj). rewrite Hreg', Hser'.
  split_and!; [done|case_decide; [by apply with_series_NoDup|done]|]. case_decide as Hn; [|done].
  assert (j = i) as -> by (rewrite Hn, Hreg in Hregj; by injection Hregj).
  intros ws [-> |Hws]%with_series_elem; [done|by apply Hser].
Qed.

Lemma keeps_attached f m : keeps f → (∀ r, m = Some r → shaped r) →
  ∃ m', attached f m = Some m' ∧ (m' = None ↔ m = None) ∧ ∀ r, m' = Some r → shaped r.
Proof.
  intros Hf Hm. destruct m as [r|]; cbn; [|by exists None].
  destruct (Hf r (Hm r eq_refl)) as (r' & -> & Hr'). exists (Some r'). split_and!; [done|done|]. by intros ? [= <-].
Qed.

Lemma TenantLabel_in t : t ∈ tenants s → TenantLabel t ∈ "unknown"%string :: tenants s.
Proof. intros Ht. unfold TenantLabel. case_match; set_solver. Qed.

Lemma keeps_request pattern method status elapsed :
  within s (ORequest pattern method status elapsed) → keeps (observe_request pattern method status elapsed).
Proof.
  intros [Hp Hm]. pose proof (statusClass_in status). unfold observe_request, ObserveRequest.
  repeat apply keeps_then; apply keeps_touch; solve [listed|fitting|done].
Qed.

(** Every observation is one that keeps it. *)
Lemma record_one_keeps o : within s o → ∃ f, keeps f ∧ ∀ m, record_one o m = attached f m.
Proof.
  destruct o as [p m st el|d|mode t c tt du el ca|age st|snap|c d|c w|c|out]; intros Hw; cbn in Hw; (eexists; split; [|intros ?; reflexivity]).
  - by apply keeps_request.
  - apply keeps_touch; solve [listed|fitting|done].
  - destruct Hw as (Hmode & Ht & Hc). pose proof (TenantLabel_in t Ht). repeat apply keeps_then.
    + apply keeps_touch; [listed| |done]. destruct ca; fitting.
    + apply keeps_touch; [listed|fitting|]. cbn. change f64_zero with (f64_of_Z 0). rewrite f64_leb_Z by lia. apply Z.leb_le. lia.
    + destruct (0 <? tt); [|apply keeps_some]. apply keeps_touch; solve [listed|fitting|done].
    + destruct (_ && _); [|apply keeps_some]. apply keeps_touch; solve [listed|fitting|done].
  - apply keeps_then; [apply keeps_touch; [listed| |done]; destruct Hw as [-> | ->]; fitting|].
    destruct age; [|apply keeps_some]. apply keeps_touch; [listed| |done]. destruct Hw as [-> | ->]; fitting.
  - repeat apply keeps_then; apply keeps_touch; solve [listed|fitting|done].
  - pose proof (Class_String_in c). apply keeps_touch; solve [listed|fitting|done].
  - pose proof (Class_String_in c). apply keeps_touch; solve [listed|fitting|done].
  - pose proof (Class_String_in c). apply keeps_touch; solve [listed|fitting|done].
  - apply keeps_touch; solve [listed|fitting|done].
Qed.

Lemma record_all_shaped l r :
  shaped r → Forall (within s) l → ∃ r', record_all l (Some r) = Some (Some r') ∧ shaped r'.
Proof.
  revert r. induction l as [|o l IH]; intros r Hr Hl; [by exists r|]. apply Forall_cons in Hl as [Ho Hl].
  destruct (record_one_keeps o Ho) as (f & Hf & Heq). destruct (Hf r Hr) as (r1 & Hr1 & Hs1).
  cbn [record_all]. rewrite Heq. cbn. rewrite Hr1. cbn. by apply IH.
Qed.

(** *** Starting *)

Lemma register_each_ok l r :
  Forall (λ i, valid_instrument i = true ∧ registered r (in_Name i) = None) l → NoDup (in_Name <$> l) →
  ∃ r', register_each l r = Some r' ∧
    (∀ i, i ∈ l → registered r' (in_Name i) = Some i) ∧
    (∀ n, n ∉ in_Name <$> l → registered r' n = registered r n) ∧
    (∀ n, Series r' n = Series r n) ∧ ∀ n vs, Value r' n vs = Value r n vs.
Proof.
  revert r. induction l as [|i l IH]; intros r Hl Hnd.
  { exists r. split_and!; try done. by intros i Hi%elem_of_nil. }
  apply Forall_cons in Hl as [[Hv Hf] Hl]. rewrite fmap_cons in Hnd. apply NoDup_cons in Hnd as [Hin Hnd].
  destruct (MustRegister_ok i r Hv Hf) as (r1 & Hr1 & Hreg & Hser & Hval).
  destruct (IH r1) as (r' & Hr' & H1 & H2 & H3 & H4); [|done|].
  { apply Forall_forall. intros j Hj. rewrite Forall_forall in Hl. destruct (Hl j Hj) as [Hvj Hfj]. split; [done|].
    rewrite Hreg. case_decide as Hn; [|done]. exfalso. apply Hin. rewrite <-Hn. by apply list_elem_of_fmap_2. }
  exists r'. cbn. rewrite Hr1. split_and!; [done| | |intros; by rewrite H3|intros; by rewrite H4].
  - intros j [-> |Hj]%elem_of_cons; [|by apply H1]. rewrite H2 by done. rewrite Hreg. by rewrite decide_True.
  - intros n Hn. apply not_elem_of_cons in Hn as [Hne Hn]. rewrite H2, Hreg by done.
    by rewrite decide_False.
Qed.

(** No name or label is refused, and none is taken by the library. *)
Lemma instruments_valid : forallb valid_instrument instruments = true.
Proof. vm_compute. reflexivity. Qed.

Lemma instruments_named : NoDup (in_Name <$> instruments) ∧ forallb (λ i, negb (runtime_name (in_Name i))) instruments = true.
Proof. split; [apply (bool_decide_unpack _)|]; vm_compute; exact I || reflexivity. Qed.

Lemma NewMetrics_shaped : ∃ r, NewMetrics = Some r ∧ shaped r ∧
  ∀ i vs, i ∈ instruments → Value r (in_Name i) vs = f64_zero.
Proof.
  destruct instruments_named as [Hnd Hrt]. rewrite forallb_forall in Hrt.
  pose proof instruments_valid as Hv. rewrite forallb_forall in Hv.
  destruct (register_each_ok instruments NewRegistry) as (r1 & Hr1 & H1 & H2 & H3 & H4); [|done|].
  { apply Forall_forall. intros i Hi. split; [by apply Hv, list_elem_of_In|apply fresh_registered]. }
  assert (∀ i, i ∈ instruments → runtime_name (in_Name i) = false) as Hname.
  { intros i Hi%list_elem_of_In%Hrt. by apply negb_true_iff. }
  destruct (RegisterCollectors_ok r1) as (r & Hr & Hsame).
  { intros n [i Hi]. destruct (decide (n ∈ in_Name <$> instruments)) as [Hn|Hn].
    - apply list_elem_of_fmap in Hn as (j & -> & Hj). by apply Hname.
    - rewrite H2, fresh_registered in Hi by done. done. }
  exists r. unfold NewMetrics. rewrite Hr1. split; [done|]. split; intros i; [intros Hi|intros vs Hi];
    destruct (Hsame (in_Name i)) as (E1 & E2 & E3); try by apply Hname.
  - rewrite E1, E2, H3, fresh_series, H1 by done. split_and!; [done|constructor|by intros vs Hvs%elem_of_nil].
  - by rewrite E3, H4, fresh_value.
Qed.
End bounded.

(** ** What is counted of the requests *)

(** The records of [Server]'s chain, as they are made. *)
Section requests.
Context `{Prometheus}.

Definition replay_one (route : string) (elapsed : Z) (e : record) : Registry → option Registry :=
  match e with
  | InFlight delta => touch RequestsInFlight [route] (if delta <? 0 then Dec else Inc)
  | Counted route method class =>
      then_ (touch RequestsTotal [route; method; class] Inc)
            (touch RequestDuration [route; method] (Observe_ (Seconds elapsed)))
  | Serving | AccessLine _ => Some
  end.

Fixpoint replay (route : string) (elapsed : Z) (l : list record) (r : Registry) : option Registry :=
  match l with [] => Some r | e :: rest => replay_one route elapsed e r ≫= replay route elapsed rest end.

Record Exchange : Type := {
  ex_pattern : option string; ex_method : string; ex_writes : list write; ex_panics : bool; ex_elapsed : Z }.

(** One request through the chain. *)
Definition exchanged (text : string) (x : Exchange) : Registry → option Registry :=
  replay (routePattern (ex_pattern x)) (ex_elapsed x)
    (records (edge text (ex_pattern x) (ex_method x) (serve (ex_writes x) (ex_panics x)) fresh_exchange).1).

Fixpoint exchange_all (text : string) (l : list Exchange) (r : Registry) : option Registry :=
  match l with [] => Some r | x :: rest => exchanged text x r ≫= exchange_all text rest end.

(** It is what [Observe] records. *)
Lemma replay_observes pattern method status elapsed r :
  replay (routePattern pattern) elapsed
    [InFlight 1; Counted (routePattern pattern) method (statusClass status); InFlight (-1)] r =
  observe_request pattern method status elapsed r.
Proof.
  cbn [replay replay_one Z.ltb Z.compare]. unfold observe_request, ObserveRequest, then_.
  destruct (touch RequestsInFlight _ Inc r) as [r1|]; [|done]. cbn.
  destruct (touch RequestsTotal _ Inc r1) as [r2|]; [|done]. cbn.
  destruct (touch RequestDuration _ _ r2) as [r3|]; [|done]. cbn. by destruct (touch RequestsInFlight _ Dec r3).
Qed.
End requests.

(** A request that counts under these labels. *)
Definition counted_as (route method class : string) (x : Exchange) : bool :=
  negb (ex_panics x) && String.eqb (routePattern (ex_pattern x)) route && String.eqb (ex_method x) method &&
  String.eqb (statusClass (default 200 (sent (ex_writes x)))) class.

Definition exchange_within (s : Sites) (x : Exchange) : Prop :=
  Forall plain (ex_writes x) ∧ routePattern (ex_pattern x) ∈ "unmatched"%string :: routes s ∧ ex_method x ∈ methods s.

Section counts.
Context `{PrometheusLaws} (s : Sites).
Hypothesis Hs : sites_ascii s.

Lemma touch_value i vs u r :
  shaped s r → i ∈ instruments → fits s i vs → takes (in_Kind i) u = true →
  ∃ r', touch i vs u r = Some r' ∧ shaped s r' ∧
    (∀ n ws, Value r' n ws = if decide (n = in_Name i ∧ ws = vs) then updated u (Value r n ws) else Value r n ws) ∧
    ∀ n, Series r' n = if decide (n = in_Name i) then with_series vs (Series r n) else Series r n.
Proof.
  intros Hr Hi Hf Hu. destruct (keeps_touch s Hs i vs u Hi Hf Hu r Hr) as (r' & Ht & Hr').
  exists r'. split; [done|]. split; [done|]. destruct (Hr i Hi) as (Hreg & _ & _).
  destruct (Touch_ok (in_Name i) vs u r i) as (r2 & Ht2 & _ & Hv & Hw); [done| |by eapply fits_ascii|done|].
  { unfold fits, domains in Hf. apply Forall2_length in Hf. by rewrite length_fmap in Hf. }
  unfold touch in Ht. rewrite Ht in Ht2. injection Ht2 as <-. by split.
Qed.

Lemma observed_value pattern method status elapsed r :
  shaped s r → routePattern pattern ∈ "unmatched"%string :: routes s → method ∈ methods s →
  ∃ r', observe_request pattern method status elapsed r = Some r' ∧ shaped s r' ∧
    (∀ ws, Value r' "http_requests_total" ws =
      if decide (ws = [routePattern pattern; method; statusClass status])
      then f64_add (Value r "http_requests_total" ws) f64_one else Value r "http_requests_total" ws) ∧
    ∀ vs, vs ∈ Series r' "http_requests_total" ↔
      vs = [routePattern pattern; method; statusClass status] ∨ vs ∈ Series r "http_requests_total".
Proof.
  intros Hr Hp Hm. pose proof (statusClass_in status) as Hc. unfold observe_request, ObserveRequest, then_.
  destruct (touch_value RequestsInFlight [routePattern pattern] Inc r) as (r1 & -> & H1' & V1 & S1); [done|listed|fitting|done|].
  destruct (touch_value RequestsTotal [routePattern pattern; method; statusClass status] Inc r1) as (r2 & Hr2 & H2' & V2 & S2);
    [done|listed|fitting|done|]. cbn [mbind option_bind]. rewrite Hr2.
  destruct (touch_value RequestDuration [routePattern pattern; method] (Observe_ (Seconds elapsed)) r2) as (r3 & Hr3 & H3' & V3 & S3);
    [done|listed|fitting|done|]. cbn [mbind option_bind]. rewrite Hr3.
  destruct (touch_value RequestsInFlight [routePattern pattern] Dec r3) as (r4 & Hr4 & H4' & V4 & S4); [done|listed|fitting|done|].
  cbn [mbind option_bind]. rewrite Hr4. exists r4. split; [done|]. split; [done|]. split.
  - intros ws. rewrite V4, decide_False by (by intros [? _]). rewrite V3, decide_False by (by intros [? _]).
    rewrite V2. assert (Value r1 "http_requests_total" ws = Value r "http_requests_total" ws) as ->
      by (rewrite V1, decide_False by (by intros [? _]); done).
    destruct (decide (ws = _)) as [->|Hne]; [by rewrite decide_True|]. rewrite decide_False; [done|]. by intros [_ ?].
  - intros vs. rewrite S4, decide_False, S3, decide_False, S2, decide_True, with_series_elem by done.
    by rewrite S1, decide_False.
Qed.

(** One request: counted once, if its handler returned. *)
Lemma exchanged_value text x r :
  shaped s r → exchange_within s x →
  ∃ r', exchanged text x r = Some r' ∧ shaped s r' ∧
    ∀ route method class, Value r' "http_requests_total" [route; method; class] =
      if counted_as route method class x then f64_add (Value r "http_requests_total" [route; method; class]) f64_one
      else Value r "http_requests_total" [route; method; class].
Proof.
  intros Hr (Hw & Hp & Hm). unfold exchanged.
  pose proof (edge_records text (ex_pattern x) (ex_method x) (ex_writes x) (ex_panics x) Hw) as He.
  destruct (edge _ _ _ _ _) as [e escaped]. destruct He as (_ & Hseen & Hrec). cbn [fst]. rewrite Hrec, Hseen.
  unfold counted_as. destruct (ex_panics x); cbn [negb andb].
  - exists r. by cbn.
  - change (Serving :: ?l) with ([Serving] ++ l).
    destruct (observed_value (ex_pattern x) (ex_method x) (default 200 (sent (ex_writes x))) (ex_elapsed x) r Hr Hp Hm)
      as (r' & Hobs & Hr' & Hval & _).
    exists r'. split_and!; [|done|].
    + rewrite <-replay_observes in Hobs. revert Hobs. cbn [app replay replay_one mbind option_bind Z.ltb Z.compare].
      destruct (touch RequestsInFlight _ Inc r) as [r1|]; [|done]. cbn.
      destruct (then_ _ _ r1) as [r2|]; [|done]. cbn. destruct (touch RequestsInFlight _ Dec r2); [|done]. by cbn.
    + intros route method class. rewrite Hval. case_decide as Heq.
      * injection Heq as -> -> ->. by rewrite !String.eqb_refl.
      * destruct (String.eqb_spec (routePattern (ex_pattern x)) route); [|done].
        destruct (String.eqb_spec (ex_method x) method); [|done].
        destruct (String.eqb_spec (statusClass (default 200 (sent (ex_writes x)))) class); [|done]. exfalso. congruence.
Qed.
End counts.

(** ** A small registry, for concrete runs *)

Record DemoRegistry : Type := {
  dr_instruments : gmap string Instrument;
  dr_series : gmap string (list (list string));
  dr_values : gmap (string * list string) spec_float;
}.

Definition demo_register (i : Instrument) (r : DemoRegistry) : option DemoRegistry :=
  if valid_instrument i && bool_decide (dr_instruments r !! in_Name i = None)
  then Some {| dr_instruments := <[in_Name i := i]> (dr_instruments r); dr_series := dr_series r; dr_values := dr_values r |}
  else None.

Definition demo_prometheus : Prometheus := {|
  Registry := DemoRegistry;
  NewRegistry := {| dr_instruments := ∅; dr_series := ∅; dr_values := ∅ |};
  MustRegister := demo_register;
  RegisterCollectors := demo_register {| in_Name := "go_info"; in_Kind := Gauge; in_Labels := ["version"] |};
  Touch n vs u r :=
    match dr_instruments r !! n with
    | Some i =>
        if bool_decide (length vs = length (in_Labels i)) && forallb is_ascii vs && takes (in_Kind i) u
        then Some {| dr_instruments := dr_instruments r;
                     dr_series := <[n := with_series vs (default [] (dr_series r !! n))]> (dr_series r);
                     dr_values := <[(n, vs) := updated u (default f64_zero (dr_values r !! (n, vs)))]> (dr_values r) |}
        else None
    | None => None
    end;
  Series r n := default [] (dr_series r !! n);
  Value r n vs := default f64_zero (dr_values r !! (n, vs));
|}.

Lemma demo_register_ok i r :
  valid_instrument i = true → dr_instruments r !! in_Name i = None →
  ∃ r', demo_register i r = Some r' ∧
    (∀ n, dr_instruments r' !! n = if decide (n = in_Name i) then Some i else dr_instruments r !! n) ∧
    dr_series r' = dr_series r ∧ dr_values r' = dr_values r.
Proof.
  intros Hv Hn. unfold demo_register. rewrite Hv, bool_decide_eq_true_2 by done. eexists. split; [done|].
  split_and!; [|done|done]. intros n. cbn. case_decide as Hd; [by subst; rewrite lookup_insert_eq|by rewrite lookup_insert_ne].
Qed.

#[export] Instance demo_prometheus_laws : @PrometheusLaws demo_prometheus.
Proof.
  refine (@Build_PrometheusLaws demo_prometheus (λ r n, dr_instruments r !! n) _ _ _ _ _ _); try done; cbn.
  - intros i r Hv Hn. destruct (demo_register_ok i r Hv Hn) as (r' & Hr & Hi & Es & Ev). exists r'. rewrite Es, Ev. auto.
  - intros r Hr. destruct (demo_register_ok {| in_Name := "go_info"; in_Kind := Gauge; in_Labels := ["version"] |} r)
      as (r' & Hr' & Hi & Es & Ev); [by vm_compute| |].
    { cbn. destruct (dr_instruments r !! "go_info"%string) as [i|] eqn:Hgo; [|done].
      by specialize (Hr "go_info"%string (mk_is_Some _ _ Hgo)). }
    exists r'. split; [done|]. intros n Hn. rewrite Hi, Es, Ev. cbn. rewrite decide_False; [done|]. by intros ->.
  - intros n vs u r i Hi Hl Ha Hk. rewrite Hi, (bool_decide_eq_true_2 _ Hl), Ha, Hk. eexists. split; [done|]. cbn.
    split_and!; [done| |].
    + intros k. case_decide as Hd; [by subst; rewrite lookup_insert_eq|by rewrite lookup_insert_ne].
    + intros k ws. case_decide as Hd.
      * destruct Hd as [-> ->]. by rewrite lookup_insert_eq.
      * rewrite lookup_insert_ne; [done|]. intros [= -> ->]. by apply Hd.
Defined.

(** ** The queue-depth gauge *)

(** A caller of [Reserve] between its two critical sections, each followed by a
    write of the gauge outside the mutex. *)
Inductive phase : Type := Arriving | Entered (depth : Z) | Queued | Left (depth : Z) | Gone.

Section depth.
Context `{Prometheus}.

Record DepthState : Type := { ds_d : Dispatcher; ds_callers : list (Class_ * phase); ds_registry : Registry }.

Definition at_phase (k : nat) (c : Class_) (p : phase) (w : DepthState) (d : Dispatcher) (r : Registry) : DepthState :=
  {| ds_d := d; ds_callers := <[k := (c, p)]> (ds_callers w); ds_registry := r |}.

(** The next step of the [k]th caller. *)
Definition depth_step (w : DepthState) (k : nat) : option DepthState :=
  let publish c n p :=
    match publish_depth c n (Some (ds_registry w)) with
    | Some (Some r) => Some (at_phase k c p w (ds_d w) r)
    | _ => None
    end in
  match ds_callers w !! k with
  | Some (c, Arriving) =>
      let d := enter (ds_d w) c in Some (at_phase k c (Entered (at_class (waiting d) c)) w d (ds_registry w))
  | Some (c, Entered n) => publish c n Queued
  | Some (c, Queued) =>
      let d := leave (ds_d w) c in Some (at_phase k c (Left (at_class (waiting d) c)) w d (ds_registry w))
  | Some (c, Left n) => publish c n Gone
  | _ => None
  end.

Fixpoint depth_run (w : DepthState) (schedule : list nat) : option DepthState :=
  match schedule with [] => Some w | k :: rest => depth_step w k ≫= λ w, depth_run w rest end.
End depth.

(** Two callers have left, nobody waits, and the gauge says one does: the writes
    came in the other order than the sections. *)
Definition two_leave `{Prometheus} (r : Registry) : option DepthState :=
  depth_run {| ds_d := NewDispatcher []; ds_callers := [(ClassStream, Arriving); (ClassStream, Arriving)]; ds_registry := r |}
    [0; 0; 1; 1; 1; 0; 0; 1]%nat.

Example depth_gauge_stale :
  option_map (λ w, (ds_callers w, at_class (waiting (ds_d w)) ClassStream,
                    SFeqb (@Value demo_prometheus (ds_registry w) "dispatch_queue_depth" ["stream"%string]) f64_one))
    (@NewMetrics demo_prometheus ≫= two_leave)
  = Some ([(ClassStream, Gone); (ClassStream, Gone)], 0, true).
Proof. vm_compute. reflexivity. Qed.

(** When each write follows its section, the gauge shows who waits. *)
Lemma depth_gauge_exact `{PrometheusLaws} s r c d :
  sites_ascii s → shaped s r →
  let depth := at_class (waiting d) c in
  ∃ r', publish_depth c depth (Some r) = Some (Some r') ∧
    Value r' "dispatch_queue_depth" [Class_String c] = f64_of_Z depth.
Proof.
  intros Hs Hr depth. pose proof (Class_String_in c).
  destruct (touch_value s Hs QueueDepth [Class_String c] (Set_ (f64_of_Z depth)) r) as (r' & Ht & _ & Hv & _);
    [done|listed|fitting|done|].
  exists r'. unfold publish_depth, attached. rewrite Ht. split; [done|]. rewrite Hv. by rewrite decide_True.
Qed.

(** ** Properties *)

Lemma zsum_le {A} (f g : A → Z) l : (∀ x, x ∈ l → f x ≤ g x) → zsum (f <$> l) ≤ zsum (g <$> l).
Proof.
  intros Hle. induction l as [|x l IH]; [done|]. rewrite !fmap_cons. cbn [zsum foldr]. fold (zsum (f <$> l)) (zsum (g <$> l)).
  pose proof (Hle x ltac:(by left)). assert (zsum (f <$> l) ≤ zsum (g <$> l)) by (apply IH; intros; apply Hle; by right). lia.
Qed.

Lemma capacities s :
  capacity s <$> instruments =
  let R := Z.of_nat (S (length (routes s))) in
  let M := Z.of_nat (length (methods s)) in
  let T := Z.of_nat (S (length (tenants s))) in
  let W := Z.of_nat (length (workers s)) in
  [R * (M * 4); R * (M * 1); R * 1; 2; 2; 4; 4; 4; 2; 2; T * 2; W * 1; W * 1; W * 1; 2; 2; 2].
Proof. reflexivity. Qed.

(** All the series there are. *)
Definition total_series `{Prometheus} (r : Registry) : Z :=
  zsum ((λ i, Z.of_nat (length (Series r (in_Name i)))) <$> instruments).

(** C38. Observing is safe and bounded. The instruments are registered without a
    refusal, and whatever is observed afterwards, as often as may be, nothing
    panics (every series is named with the labels its instrument has, and updated
    as its kind allows); and the series stay within a number that depends on the
    routes, the methods, the tenants and the workers there are, and on nothing
    else. *)
Theorem observing_bounded `{PrometheusLaws} s :
  sites_ascii s →
  ∃ r, NewMetrics = Some r ∧ ∀ l, Forall (within s) l →
    ∃ r', record_all l (Some r) = Some (Some r') ∧
      let R := Z.of_nat (length (routes s)) + 1 in
      let M := Z.of_nat (length (methods s)) in
      total_series r' ≤ 5 * R * M + R + 2 * (Z.of_nat (length (tenants s)) + 1) + 3 * Z.of_nat (length (workers s)) + 26.
Proof.
  intros Hs. destruct (NewMetrics_shaped s) as (r & Hr & Hsh & _). exists r. split; [done|]. intros l Hl.
  destruct (record_all_shaped s Hs l r Hsh Hl) as (r' & Hr' & Hsh'). exists r'. split; [done|]. intros R M.
  etrans; [apply (zsum_le _ (capacity s)); intros i Hi; by apply shaped_capacity|].
  rewrite capacities. cbn [zsum foldr]. subst R M. lia.
Qed.


(** The methods are the clients' own: requests with as many methods leave as many
    series, though they match no route. *)
Lemma methods_unbounded `{PrometheusLaws} ms :
  NoDup ms → Forall (λ m, is_ascii m = true) ms →
  ∃ r r', NewMetrics = Some r ∧ record_all ((λ m, ORequest None m 405 0) <$> ms) (Some r) = Some (Some r') ∧
    Z.of_nat (length ms) ≤ Z.of_nat (length (Series r' "http_requests_total")).
Proof.
  intros Hnd Ha. set (s := {| routes := []; methods := ms; tenants := []; workers := [] |}).
  assert (sites_ascii s) as Hs by (unfold sites_ascii; cbn; by rewrite !app_nil_r).
  destruct (NewMetrics_shaped s) as (r & Hr & Hsh & _). exists r.
  assert (∀ l r, l ⊆ ms → shaped s r → ∃ r', record_all ((λ m, ORequest None m 405 0) <$> l) (Some r) = Some (Some r') ∧
    shaped s r' ∧ ∀ vs, vs ∈ Series r "http_requests_total" ∨ vs ∈ (λ m, ["unmatched"; m; "4xx"]%string) <$> l →
      vs ∈ Series r' "http_requests_total") as Hall.
  { clear r Hr Hsh. intros l. induction l as [|m l IH]; intros r Hl Hsh.
    { exists r. split_and!; [done|done|]. intros vs [?|Hvs]; [done|by apply elem_of_nil in Hvs]. }
    destruct (observed_value s Hs None m 405 0 r Hsh) as (r1 & Hr1 & Hsh1 & _ & Hser1); [by left|set_solver|].
    destruct (IH r1) as (r' & Hr' & Hsh' & Hser'); [set_solver|done|]. exists r'. rewrite fmap_cons. cbn [record_all record_one attached].
    rewrite Hr1. split_and!; [exact Hr'|done|]. intros vs Hvs. apply Hser'. rewrite Hser1.
    destruct Hvs as [?|Hvs]; [by left; right|]. apply elem_of_cons in Hvs as [-> |?]; [by left; left|by right]. }
  destruct (Hall ms r ltac:(done) Hsh) as (r' & Hr' & _ & Hser). exists r'. split_and!; [done|done|].
  rewrite <-(length_fmap (λ m, ["unmatched"; m; "4xx"]%string) ms). apply inj_le, submseteq_length, NoDup_submseteq.
  - apply NoDup_fmap_2; [|done]. by intros x y [= ->].
  - intros vs Hvs. apply Hser. by right.
Qed.

(** ** Witnesses *)

Definition demo_sites : Sites := {|
  routes := ["/healthz"; "/v1/synthesize"]; methods := ["GET"; "POST"];
  tenants := ["00000000-0000-4000-8000-000000000001"]; workers := ["worker:50051"] |}.

Definition demo_snapshot : Snapshot := {|
  Addr := "worker:50051"; Pool.Ready := true; ModelVersion := "m1"; SlotsTotal := 4; SlotsBusy := 1; RTFEWMA := f32_zero;
  VoiceIDs := []; Ejected := false; Failures := 0; LastSeen := 0 |}.

Lemma observing_bounded_witness :
  ∃ r r', @NewMetrics demo_prometheus = Some r ∧
    record_all (H := demo_prometheus) [ORequest (Some "/v1/synthesize"%string) "POST" 200 (30 * Millisecond);
      OSynthesis "sync" "00000000-0000-4000-8000-000000000001" 12 40 900 (300 * Millisecond) false;
      OWorker demo_snapshot; ODepth ClassSync 1; ORequest None "GET" 404 0] (Some r) = Some (Some r') ∧
    total_series (H := demo_prometheus) r' ≤ 5 * 3 * 2 + 3 + 2 * 2 + 3 * 1 + 26.
Proof.
  destruct (observing_bounded (H := demo_prometheus) demo_sites) as (r & Hr & Hall).
  - by repeat constructor.
  - destruct (Hall [ORequest (Some "/v1/synthesize"%string) "POST" 200 (30 * Millisecond);
      OSynthesis "sync" "00000000-0000-4000-8000-000000000001" 12 40 900 (300 * Millisecond) false;
      OWorker demo_snapshot; ODepth ClassSync 1; ORequest None "GET" 404 0]) as (r' & Hr' & Hle).
    + repeat apply Forall_cons_2; cbn; repeat split; try lia; try (by apply Forall_nil_2);
        apply (bool_decide_unpack _); by vm_compute.
    + exists r, r'. split; [exact Hr|]. split; [exact Hr'|]. exact Hle.
Defined.

