(* ===== verification/Command.v ===== *)
(** * The commands of the binary

    [cmd/gateway/main.go] around [run] ([Server]): the flags, the health probe,
    the migrations job and the plan seeding, with [postgres.Open]; and how the
    jobs fit the gate that [run] holds the schema to. goose, the database driver,
    the HTTP client and the YAML decoder are parameters. *)

From stdpp Require Import base gmap strings pretty numbers sorting list.
From S2P Require Import Prelude GoString Account Config Server.

(** ** What a command reads and changes *)

(** The tables, the migrations the database records, the pools that are open, and
    what the process prints. *)
Record World : Type := {
  cw_account : AccountWorld; cw_applied : list Z; cw_pools : Z; cw_out : string; cw_err : string }.

Definition with_account (a : AccountWorld) (w : World) : World :=
  {| cw_account := a; cw_applied := cw_applied w; cw_pools := cw_pools w; cw_out := cw_out w; cw_err := cw_err w |}.
Definition with_applied (l : list Z) (w : World) : World :=
  {| cw_account := cw_account w; cw_applied := l; cw_pools := cw_pools w; cw_out := cw_out w; cw_err := cw_err w |}.
Definition with_pools (n : Z) (w : World) : World :=
  {| cw_account := cw_account w; cw_applied := cw_applied w; cw_pools := n; cw_out := cw_out w; cw_err := cw_err w |}.
Definition print_out (s : string) (w : World) : World :=
  {| cw_account := cw_account w; cw_applied := cw_applied w; cw_pools := cw_pools w; cw_out := cw_out w +:+ s; cw_err := cw_err w |}.
Definition print_err (s : string) (w : World) : World :=
  {| cw_account := cw_account w; cw_applied := cw_applied w; cw_pools := cw_pools w; cw_out := cw_out w; cw_err := cw_err w +:+ s |}.

Definition CM (A : Type) : Type := ST World A.

(** What the environment answers. *)
Record Env : Type := {
  ev_Getenv : string → string;
  ev_plans : string → res (list Plan);        (* reading and decoding the file *)
  ev_ParseConfig : string → res (); ev_NewWithConfig : res (); ev_Ping : res ();
  ev_sqlOpen : string → res (); ev_SetDialect : res ();
  ev_Up : list Z → res () * list Z;           (* on the versions recorded *)
  ev_url : string → string → string;          (* the printer of [net/url] *)
  ev_NewRequest : string → res ();            (* building a GET *)
  ev_Do : string → res Z;                     (* and its status *)
  ev_boot : boot_env;                         (* what [run] meets *)
}.

(** The operator's flags. *)
Record Flags : Type := { healthcheck : bool; migrate : bool; seedPlans : string }.

Section commands.
Variable e : Env.

(** ** [postgres.Open] and [Close] *)

Definition Open (url : string) : CM () := λ w,
  match ev_ParseConfig e url with
  | Err err => (Err (wrapf "parse database url: " err), w)
  | Ok _ =>
      match ev_NewWithConfig e with
      | Err err => (Err (wrapf "open pool: " err), w)
      | Ok _ =>
          let w := with_pools (cw_pools w + 1) w in
          match ev_Ping e with
          | Err err => (Err (wrapf "ping: " err), with_pools (cw_pools w - 1) w)
          | Ok _ => (Ok (), w)
          end
      end
  end.

(** A deferred close: whatever [m] returns. *)
Definition closing {A} (m : CM A) : CM A := λ w,
  let '(r, w) := m w in (r, with_pools (cw_pools w - 1) w).

(** ** The jobs *)

Definition database_url : res string :=
  let url := ev_Getenv e "VITTS_DATABASE_URL" in
  if String.eqb url "" then Err (ENew "VITTS_DATABASE_URL is required") else Ok url.

Definition runMigrations : CM () := λ w,
  match database_url with
  | Err err => (Err err, w)
  | Ok url =>
      match ev_sqlOpen e url with
      | Err err => (Err (wrapf "open database: " err), w)
      | Ok _ =>
          closing (λ w,
            match ev_SetDialect e with
            | Err err => (Err (wrapf "goose dialect: " err), w)
            | Ok _ =>
                let '(r, applied) := ev_Up e (cw_applied w) in
                (rmap_err (wrapf "migrate: ") r, with_applied applied w)
            end) (with_pools (cw_pools w + 1) w)
      end
  end.

Definition Load_file (path : string) : res (list Plan) := rbind (ev_plans e path) (Account.Load path).

(** [UpsertPlans] on the tables. *)
Definition upsert (tiers : list Plan) : CM () := λ w,
  let '(r, a) := UpsertPlans tiers (cw_account w) in (r, with_account a w).

Definition runSeedPlans (path : string) : CM () := λ w,
  match database_url with
  | Err err => (Err err, w)
  | Ok url =>
      match Load_file path with
      | Err err => (Err err, w)
      | Ok tiers =>
          match Open url w with
          | (Err err, w) => (Err (wrapf "postgres: " err), w)
          | (Ok _, w) =>
              closing (λ w,
                match upsert tiers w with
                | (Err err, w) => (Err (wrapf "upsert plans: " err), w)
                | (Ok _, w) =>
                    (Ok (), print_out ("upserted " +:+ Itoa (Z.of_nat (length tiers)) +:+ " plans from " +:+ path
                                         +:+ String (byte_of 10) "") w)
                end) w
          end
      end
  end.

Definition probe : res () :=
  let addr := ev_Getenv e "VITTS_HTTP_ADDR" in
  let addr := if String.eqb addr "" then ":8080"%string else addr in
  let url := healthURL (ev_url e) addr in
  match ev_NewRequest e url with
  | Err err => Err (wrapf "build request: " err)
  | Ok _ =>
      match ev_Do e url with
      | Err err => Err (wrapf "probe: " err)
      | Ok status => if status =? 200 then Ok () else Err (ENew ("probe: status " +:+ Itoa status))
      end
  end.

(** ** [main] *)

(** The exit code: a failure is printed to the standard error. *)
Definition exiting (pre : string) (r : res () * World) : Z * World :=
  match r with
  | (Err err, w) => (1, print_err (pre +:+ Error_String err +:+ String (byte_of 10) "") w)
  | (Ok _, w) => (0, w)
  end.

Definition main (f : Flags) (w : World) : Z * World :=
  if negb (String.eqb (seedPlans f) "") then exiting "gateway: " (runSeedPlans (seedPlans f) w)
  else if migrate f then exiting "gateway: " (runMigrations w)
  else if healthcheck f then exiting "unhealthy: " (probe, w)
  else exiting "gateway: " ((run (ev_boot e)).2, w).
End commands.

(** ** The jobs and the gate *)

(** The plans after the file's, one by one. *)
Definition plans_after (tiers : list Plan) (m : gmap string Plan) : gmap string Plan :=
  foldl (λ m p, <[p_ID p := p]> m) m tiers.

(** All the tables but the plans, which are [m]. *)
Definition with_plans (m : gmap string Plan) (w w' : AccountWorld) : Prop :=
  aw_plans w' = m ∧ aw_tenants w' = aw_tenants w ∧ aw_keys w' = aw_keys w ∧ aw_audit w' = aw_audit w ∧ aw_now w' = aw_now w.

Lemma upsert_each_run tiers w w' :
  upsert_each tiers w = (Ok (), w') → with_plans (plans_after tiers (aw_plans w)) w w'.
Proof.
  revert w. induction tiers as [|p tiers IH]; intros w; cbn [upsert_each].
  { by intros [= <-]. }
  unfold sbind, swrap, UpsertPlan, port. cbn [faults AccountWorld_faults].
  destruct (aw_faults w) as [|[] fs]; try done; cbn [aw_plans]; destruct (plan_row_ok p); try done; intros Hrun;
    apply IH in Hrun as (E1 & E2 & E3 & E4 & E5); by split_and!.
Qed.

Lemma upsert_each_calm tiers : keeps calm (upsert_each tiers).
Proof.
  induction tiers as [|p tiers IH]; cbn [upsert_each]; [apply keeps_ret|].
  apply keeps_bind; [|by intros _]. apply keeps_wrap, calm_port. intros w. by destruct (plan_row_ok p).
Qed.

(** Seeding writes the whole file's plans or none of them. *)
Lemma UpsertPlans_cases tiers w :
  let t := UpsertPlans tiers w in
  (t.1 = Ok () ∧ with_plans (plans_after tiers (aw_plans w)) w t.2) ∨
  (is_Ok t.1 = false ∧ with_plans (aw_plans w) w t.2) ∨
  (is_Ok t.1 = false ∧ ¬ calm w ∧ with_plans (plans_after tiers (aw_plans w)) w t.2).
Proof.
  intros t. destruct (transaction_cases tables_same (upsert_each tiers) w tables_same_faults)
    as [[[E1 E2 E3 E4 E5] He]|(w1 & w2 & [] & [A1 A2 A3 A4 A5] & Hrun & [B1 B2 B3 B4 B5] & Hres)].
  - right. left. by split_and!.
  - apply upsert_each_run in Hrun as (C1 & C2 & C3 & C4 & C5).
    assert (with_plans (plans_after tiers (aw_plans w)) w t.2) as Hall
      by (rewrite A1 in C1; split_and!; etrans; eauto; etrans; eauto).
    destruct Hres as [Hr|[Hr Hc]]; [by left|right; right]. split_and!; [done|by apply Hc, upsert_each_calm|done..].
Qed.

(** A file's plans have ids of their own. *)
Lemma check_plans_ids path seen plans :
  check_plans path seen plans = Ok () → NoDup (p_ID <$> plans) ∧ Forall (λ p, (p_ID p ∉ seen) ∧ validate p = Ok ()) plans.
Proof.
  revert seen. induction plans as [|p plans IH]; intros seen; cbn [check_plans].
  { intros _. by split; constructor. }
  destruct (validate p) as [[]|e] eqn:Hv; [|done]. case_bool_decide as Hin; [done|]. intros H. apply IH in H as [Hnd Hall].
  rewrite fmap_cons. split.
  - constructor; [|done]. intros Hp. apply list_elem_of_fmap in Hp as (q & Heq & Hq).
    rewrite Forall_forall in Hall. destruct (Hall q Hq) as [Hns _]. apply Hns. rewrite Heq. by left.
  - constructor; [done|]. eapply Forall_impl; [exact Hall|]. intros q [Hns Hvq]. split; [|done].
    intros Hq. apply Hns. by right.
Qed.

(** What the plans are afterwards: the file's, and the others as they were. *)
Lemma plans_after_other tiers m k : k ∉ p_ID <$> tiers → plans_after tiers m !! k = m !! k.
Proof.
  revert m. unfold plans_after. induction tiers as [|p tiers IH]; intros m Hk; cbn [foldl]; [done|].
  apply not_elem_of_cons in Hk as [Hne Hk]. rewrite IH by done. by rewrite lookup_insert_ne.
Qed.

Lemma plans_after_file tiers m p : NoDup (p_ID <$> tiers) → p ∈ tiers → plans_after tiers m !! p_ID p = Some p.
Proof.
  revert m. induction tiers as [|q tiers IH]; intros m Hnd Hp; [by apply elem_of_nil in Hp|].
  rewrite fmap_cons in Hnd. apply NoDup_cons in Hnd as [Hq Hnd]. change (plans_after (q :: tiers) m) with (plans_after tiers (<[p_ID q := q]> m)).
  apply elem_of_cons in Hp as [-> |Hp]; [|by apply IH]. rewrite plans_after_other by done. apply lookup_insert_eq.
Qed.

Section jobs.
Variable e : Env.

(** [runSeedPlans] by what stops it. *)
Lemma runSeedPlans_cases path w :
  let t := runSeedPlans e path w in
  cw_pools t.2 = cw_pools w ∧ cw_applied t.2 = cw_applied w ∧
  ((is_Ok t.1 = false ∧ with_plans (aw_plans (cw_account w)) (cw_account w) (cw_account t.2)) ∨
   ∃ tiers, Load_file e path = Ok tiers ∧ with_plans (plans_after tiers (aw_plans (cw_account w))) (cw_account w) (cw_account t.2) ∧
     (t.1 = Ok () ∨ is_Ok t.1 = false ∧ ¬ calm (cw_account w))).
Proof.
  intros t. subst t. unfold runSeedPlans. destruct (database_url e) as [url|err]; [|split_and!; [done..|by left]].
  destruct (Load_file e path) as [tiers|err] eqn:HL; [|split_and!; [done..|by left]].
  unfold Open. destruct (ev_ParseConfig e url) as [[]|err]; [|split_and!; [done..|by left]].
  destruct (ev_NewWithConfig e) as [[]|err]; [|split_and!; [done..|by left]].
  destruct (ev_Ping e) as [[]|err]; [|split_and!; [cbn; lia|done|by left]].
  unfold closing, upsert. pose proof (UpsertPlans_cases tiers (cw_account w)) as Hc. cbn [cw_account with_pools].
  destruct (UpsertPlans tiers (cw_account w)) as [[[]|err] a]; cbn in Hc |- *.
  - split_and!; [lia|done|]. right. exists tiers. destruct Hc as [[_ Hc]|[[? _]|[? _]]]; [|done..]. split_and!; [done..|by left].
  - split_and!; [lia|done|]. destruct Hc as [[? _]|[[_ Hc]|(_ & Hcalm & Hc)]]; [done|by left|right]. exists tiers.
    split_and!; [done..|by right].
Qed.

(** [Load] gives the file as decoded, its plans valid and their ids distinct. *)
Lemma Load_file_ok path tiers :
  Load_file e path = Ok tiers → ev_plans e path = Ok tiers ∧ tiers ≠ [] ∧ NoDup (p_ID <$> tiers) ∧ Forall (λ p, validate p = Ok ()) tiers.
Proof.
  unfold Load_file, rbind. destruct (ev_plans e path) as [l|]; [|done]. unfold Account.Load.
  destruct l as [|p l]; [done|]. unfold rbind. destruct (check_plans path [] (p :: l)) as [[]|] eqn:Hc; [|done]. intros [= <-].
  apply check_plans_ids in Hc as [Hnd Hall]. split_and!; [done|done|done|]. eapply Forall_impl; [exact Hall|]. by intros ? [_ ?].
Qed.
End jobs.

(** ** Properties *)

(** Seeding the plans is all or nothing. With [-seed-plans], whatever else is
    set, the process exits with 0 or 1; if with 0, the file decoded, every plan of
    it is valid and has an id of its own, and the plans table holds each of them
    and is otherwise as it was; if with 1, the table is untouched, or (only when
    the answer to the commit was lost) it is as after success. No other table is
    changed, no migration is run, and no pool is left open. *)
Theorem seeding_all_or_nothing e f w :
  seedPlans f ≠ ""%string →
  let '(code, w') := main e f w in
  let old := aw_plans (cw_account w) in
  let seeded := ∃ tiers, ev_plans e (seedPlans f) = Ok tiers ∧ NoDup (p_ID <$> tiers) ∧
    Forall (λ p, validate p = Ok ()) tiers ∧
    (∀ p, p ∈ tiers → aw_plans (cw_account w') !! p_ID p = Some p) ∧
    (∀ k, k ∉ p_ID <$> tiers → aw_plans (cw_account w') !! k = old !! k) in
  (code = 0 ∧ seeded ∨ code = 1 ∧ (aw_plans (cw_account w') = old ∨ ¬ calm (cw_account w) ∧ seeded)) ∧
  aw_tenants (cw_account w') = aw_tenants (cw_account w) ∧ aw_keys (cw_account w') = aw_keys (cw_account w) ∧
  aw_audit (cw_account w') = aw_audit (cw_account w) ∧
  cw_applied w' = cw_applied w ∧ cw_pools w' = cw_pools w.
Proof.
  intros Hseed. unfold main. rewrite (proj2 (String.eqb_neq _ _) Hseed). cbn [negb].
  pose proof (runSeedPlans_cases e (seedPlans f) w) as (Hp & Ha & Hc).
  destruct (runSeedPlans e (seedPlans f) w) as [[[]|err] w1]; cbn [exiting fst snd] in *.
  - destruct Hc as [[? _]|(tiers & HL & (E1 & E2 & E3 & E4 & E5) & _)]; [done|].
    apply Load_file_ok in HL as (HL & _ & Hnd & Hv). split_and!; [|done..]. left. split; [done|].
    exists tiers. rewrite E1. split_and!; [done..|intros; by apply plans_after_file|intros; by apply plans_after_other].
  - cbn [print_err cw_account cw_applied cw_pools].
    destruct Hc as [[_ (E1 & E2 & E3 & E4 & E5)]|(tiers & HL & (E1 & E2 & E3 & E4 & E5) & Hr)].
    + split_and!; [|done..]. right. split; [done|by left].
    + apply Load_file_ok in HL as (HL & _ & Hnd & Hv). split_and!; [|done..]. right. split; [done|right].
      destruct Hr as [?|[_ Hcalm]]; [done|]. split; [done|].
      exists tiers. rewrite E1. split_and!; [done..|intros; by apply plans_after_file|intros; by apply plans_after_other].
Qed.

Lemma SchemaVersion_ge l v : v ∈ l → v ≤ SchemaVersion l.
Proof.
  assert (∀ l m, m ≤ foldl Z.max m l ∧ ∀ v, v ∈ l → v ≤ foldl Z.max m l) as Hf.
  { clear. induction l as [|x l IH]; intros m; cbn; [split; [lia|by intros v Hv%elem_of_nil]|].
    destruct (IH (Z.max m x)) as [H1 H2]. split; [lia|]. intros v [-> |Hv]%elem_of_cons; [lia|by apply H2]. }
  intros Hv. destruct l as [|x l]; [by apply elem_of_nil in Hv|]. cbn. destruct (Hf l x) as [H1 H2].
  apply elem_of_cons in Hv as [-> |Hv]; [done|by apply H2].
Qed.

(** After the migrations job of an image has exited with 0, the gate of that image
    lets [run] go on. [Hup] is goose's promise: when [Up] returns no error, every
    migration there is has been recorded. *)
Lemma migrated_boots e f w names :
  seedPlans f = ""%string → migrate f = true → is_Ok (Latest names) = true →
  (∀ l l' name v, ev_Up e l = (Ok (), l') → name ∈ names → migration_version name = Ok v → v ∈ l') →
  let '(code, w') := main e f w in
  code = 0 → checkSchemaVersion names (Ok (SchemaVersion (cw_applied w'))) = Ok ().
Proof.
  intros Hs Hm HL Hup. unfold main. rewrite Hs, Hm. cbn [String.eqb negb].
  unfold runMigrations. destruct (database_url e) as [url|]; [|done].
  destruct (ev_sqlOpen e url) as [[]|]; [|done]. unfold closing. destruct (ev_SetDialect e) as [[]|]; [|done].
  cbn [cw_applied with_pools]. destruct (ev_Up e (cw_applied w)) as [[[]|err] l] eqn:Hu; [|done]. intros _. cbn.
  unfold checkSchemaVersion. destruct (Latest names) as [want|] eqn:Hl; [|done].
  unfold Latest in Hl. destruct (latest_of 0 names) as [l0|] eqn:Hl0; [|done]. destruct (Z.eqb_spec l0 0) as [|Hne]; [done|].
  injection Hl as ->. destruct (latest_of_spec _ _ _ Hl0) as (_ & _ & [?|(name & Hname & Hv)]); [done|].
  pose proof (SchemaVersion_ge l want (Hup _ _ _ _ Hu Hname Hv)) as Hge. by rewrite (proj2 (Z.ltb_ge _ _)).
Qed.

(** A build newer than the migrations that ran is refused by it. *)
Example gate_refuses_newer :
  is_Ok (checkSchemaVersion ["0001_init.sql"; "0002_jobs.sql"] (Ok (SchemaVersion [0; 1]))) = false.
Proof. reflexivity. Qed.

(** The health probe looks at this process's own address and at the status. *)
Lemma probe_healthy e f w :
  seedPlans f = ""%string → migrate f = false → healthcheck f = true →
  ((main e f w).1 = 0 ↔
   let addr := ev_Getenv e "VITTS_HTTP_ADDR" in
   let url := healthURL (ev_url e) (if String.eqb addr "" then ":8080" else addr) in
   is_Ok (ev_NewRequest e url) = true ∧ ev_Do e url = Ok 200).
Proof.
  intros Hs Hm Hh. unfold main. rewrite Hs, Hm, Hh. cbn [String.eqb negb]. unfold probe. cbv zeta.
  set (url := healthURL _ _). destruct (ev_NewRequest e url) as [[]|]; cbn; [|naive_solver].
  destruct (ev_Do e url) as [st|]; cbn; [|naive_solver]. destruct (Z.eqb_spec st 200) as [->|]; cbn; naive_solver.
Qed.

(** ** Witnesses *)

Definition demo_boot : boot_env := {|
  be_config := Err (ENew "unset"); be_postgres := Ok (); be_migrations := []; be_schema := Ok 0; be_redis := Ok ();
  be_limiter := Ok (); be_workers := Ok (); be_groups := Ok (); be_served := Ok (); be_shutdown := Ok () |}.

Definition demo_env : Env := {|
  ev_Getenv k := if String.eqb k "VITTS_DATABASE_URL" then "postgres://db" else "";
  ev_plans _ := Ok [demo_plan];
  ev_ParseConfig _ := Ok (); ev_NewWithConfig := Ok (); ev_Ping := Ok (); ev_sqlOpen _ := Ok (); ev_SetDialect := Ok ();
  ev_Up l := (Ok (), l ++ [1; 2]);
  ev_url host path := "http://" +:+ host +:+ path;
  ev_NewRequest _ := Ok (); ev_Do _ := Ok 200; ev_boot := demo_boot |}.

Definition demo_cworld (fs : list fault) : World := {|
  cw_account := {| aw_plans := ∅; aw_tenants := ∅; aw_keys := ∅; aw_audit := []; aw_now := 0; aw_faults := fs |};
  cw_applied := [0; 1; 2]; cw_pools := 0; cw_out := ""; cw_err := "" |}.

Definition seed_flags : Flags := {| healthcheck := false; migrate := true; seedPlans := "plans.yaml" |}.

(** The commit's answer is lost: the plans are there and the exit code is 1. *)
Lemma seeding_all_or_nothing_witness :
  let t := main demo_env seed_flags (demo_cworld [Answered; Answered; Unacknowledged]) in
  t.1 = 1 ∧ cw_pools t.2 = 0 ∧ aw_plans (cw_account t.2) !! "free"%string = Some demo_plan.
Proof.
  intros t. pose proof (seeding_all_or_nothing demo_env seed_flags (demo_cworld [Answered; Answered; Unacknowledged])
    ltac:(discriminate)) as H. fold t in H. destruct t as [code w'] eqn:Ht. cbn [fst snd].
  assert (code = 1 ∧ aw_plans (cw_account w') !! "free"%string = Some demo_plan) as [-> Hp]
    by (subst t; injection Ht as <- <-; split; reflexivity).
  split_and!; [done|apply H|done].
Defined.
